(* ===== verification/_CoqProject ===== *)
-Q . S2P
Prelude.v
Utils.v
MemTypes.v
Addressable.v
Emulated.v
Mapped.v
Memory.v
MemoryInv.v
MemoryThm.v
PciConfig.v
PciConfigThm.v
PciLayout.v
PciCap.v
PciCapThm.v
PciSegment.v
PciSegmentThm.v
IoApic.v
Serial.v
VirtQueue.v
SplitQueue.v
SplitQueueThm.v
PackedQueue.v
VirtioPci.v
VirtioPciThm.v
VirtioPciDev.v
VirtioDevThm.v
Pl011.v
Rtc.v
FwCfg.v
FwCfgThm.v
HostFile.v
Dtb.v
Board.v
BoardSync.v
Qcow2.v
DevWorker.v
KvmVm.v
KvmSpec.v
KvmMem.v
KvmMirror.v
KvmIrq.v
KvmIrqThm.v
