(* ===== verification/Prelude.v ===== *)
(** * Alioth: a verified model of its core

    Alioth is a virtual machine monitor in Rust.  Its crate [alioth] (src/alioth/src)
    holds the memory of a virtual machine (mem/), the PCI bus (pci/), virtio devices and
    their queues (virtio/), platform devices (device/), hypervisor backends (hv/), loaders,
    firmware tables, block images and the board that puts them together.  This library
    models the parts that carry the program's own logic: everything between a guest's
    access to an address and the device it reaches, and between a device and the rings
    and interrupts it serves the guest through.

    ** How the parts interact

    A guest access leaves the vCPU as an address.  [Memory] (mem/mem.rs) looks it up on an
    MMIO or port bus, which is an ordered vector of disjoint slots ([Addressable],
    mem/addressable.rs), and calls the device's [Mmio] methods; a write may return an
    action that changes the layout.  Guest RAM is slots of host pages ([Ram],
    mem/mapped.rs), and the hypervisor is told of every change of it ([KvmMem]).  PCI devices
    put regions into [Memory] when the guest enables or moves their BARs; the BAR registers are
    written by the region's callbacks (pci/config.rs).
    A virtio PCI device is a configuration header, capabilities and one BAR with
    the MSI-X table and the registers (virtio/pci.rs); its worker (virtio/dev/dev.rs) takes
    chains of descriptors from queues in guest RAM (virtio/queue/) and raises MSI-X interrupts
    through lines of the kernel ([KvmIrq]).  The board (board/board.rs) runs a thread for each
    vCPU and keeps the threads in step when the machine is paused, rebooted or stopped.

    ** Files, in dependency order

    - [Prelude]: outcomes ([Ok], [Err], panic), the state monad [stm] with its notation,
      machine integers as [Z] with [wrap], bit fields, the tactics [bitwise], [bitblast],
      [unwrap], [inv_ok], the hint databases, hash maps.
    - [Utils]: utils/utils.rs, utils/endian.rs.
    - [MemTypes]: error types of hv/hv.rs and mem/mem.rs.
    - [Addressable]: mem/addressable.rs, with [binary_search_by_key] of the standard
      library; its specification (a map from addresses to disjoint intervals) and the
      refinement; the bus lemmas all clients use.
    - [Emulated]: mem/emulated.rs, the interface [Mmio] (a class) and the MMIO bus.
    - [Mapped]: mem/mapped.rs, guest RAM over a host memory map, with a bytewise reference.
    - [Memory], [MemoryInv], [MemoryThm]: mem/mem.rs; the hypervisor and the callbacks
      are classes; the invariant relating regions and buses, then the theorems.
    - [PciConfig], [PciConfigThm], [PciLayout]: pci/config.rs, pci/pci.rs; the header, BAR
      sizing, and BAR moves on the real [Memory].
    - [PciCap], [PciCapThm]: pci/cap.rs; capabilities, MSI, MSI-X.
    - [PciSegment], [PciSegmentThm]: pci/segment.rs, pci/bus.rs, host_bridge.rs, pvpanic.rs.
    - [IoApic], [Serial], [Pl011], [Rtc]: device/ioapic.rs, serial.rs, pl011.rs, pl031.rs,
      cmos.rs.
    - [VirtQueue]: virtio/queue/queue.rs; [SplitQueue] and [SplitQueueThm]: split.rs;
      [PackedQueue]: packed.rs.
    - [VirtioPci], [VirtioPciThm], [VirtioPciDev], [VirtioDevThm]: virtio/pci.rs and the
      register types of virtio/dev/dev.rs and virtio/virtio.rs.
    - [FwCfg], [FwCfgThm]: device/fw_cfg/fw_cfg.rs.
    - [HostFile]: files of the host.  [Dtb]: firmware/dt/.  [Board], [BoardSync]:
      board/board.rs, its vCPU loop and the protocol of its threads.  [Qcow2]: blk/qcow2.rs and
      the converter of alioth-cli/src/img.rs.  [DevWorker]: virtio/dev/dev.rs and
      virtio/worker/mio.rs.
    - [KvmVm]: hv/kvm/vm/; [KvmSpec]: what is assumed of the kernel; [KvmMem], [KvmMirror]:
      memory slots; [KvmIrq], [KvmIrqThm]: interrupt routing.

    ** Conventions

    A [w]-bit unsigned integer is a [Z] in [[0, 2^w)]; arithmetic wraps as in the release
    profile (no overflow checks), and the cast [as u<w>] is [wrap w].  A fallible function
    returns an [outcome]; [assert!], [todo!], [unwrap] and an index out of range are
    [Panic].  [!] on a bitflags type keeps the named flags only ([flags_not]), so a write of the
    status register clears the bits the type does not name.  A method on [&mut self] that leaves
    by [?] keeps what it did before: the monad [stm] returns the state with every outcome.  Locks and atomics make each access one step,
    so concurrency is an interleaving of whole operations ([serial_event], [guest_run],
    [rtc_event], the steps of [Board]); where the source handles a race inside an operation (the
    avail_event loop of split.rs) the other side is a parameter of the loop.  Traits are classes; a
    theorem about a client assumes the laws of the interface (classes ending in [Laws],
    [EnvTotal], [LayoutEnv]) and the implementation discharges them ([SplitQueue_Laws]).  Host
    code that is not in the repository (mmap, KVM, files, chrono) is a class too.  Hexadecimal
    constants are the source's.  The kernel is a class with one method for each call and its
    documented behaviour as laws ([KvmSlotsLaws], [KvmIrqLaws]); a [HashMap] that is iterated is
    iterated in any order ([HashIter]).

    ** What the theorems show

    - Address space: any run of [add] and [remove] behaves like the abstract map, [add]
      fails exactly on zero size, overflow of the address space and overlap, [search]
      equals linear search.
    - Memory: the MMIO and RAM buses always hold exactly the ranges of the registered regions;
      when [add_region] succeeds; removing undoes adding; an access reaches the device
      mapped there at its offset, and the action it asks for is done.  RAM reads
      and writes equal bytewise translation across slots, with the outcomes of an empty access
      apart, and a write is read back.
    - PCI: BAR sizing, what a guest write changes of the header, bit by bit, a BAR write
      moves the region in [Memory], the capability list a driver walks and what it reads there,
      MSI lines and MSI-X entries follow their registers, reservation, BAR assignment without
      overlap down to the registers it leaves, port access equals ECAM.
    - Virtqueues: the loop of [handle_desc] is proved against the ring interface (it
      serves exactly the pending chains, once and in order, and returns) and instantiated for
      the split ring down to the used ring's bytes; the wrap-around test of the available
      index; the notification event under a concurrent driver; packed indices as positions
      modulo twice the size, interrupt suppression, completion, chains.
    - Virtio over PCI: queue set-up, the order of Start and Reset events, interrupt delivery,
      the map of BAR 0 against the capabilities, the addresses ioeventfds are registered at,
      feature negotiation around any other set-up writes; and that two address
      registers read back wrongly.
    - Devices: the two UARTs are FIFOs under any interleaving with the console thread, the
      I/O APIC's window reads back what was written, the PL031 keeps time, fw_cfg's
      directory, stream and DMA.
    - Behind the devices: the worker refines a life cycle and drains its channel
      ([worker_refines_lifecycle], [worker_drains_channel]); the slots of the kernel are the
      mapped regions of [Memory] ([memory_kvm_mirror]); a line delivers the message the guest
      programmed and no two objects share a GSI ([irq_delivery], [irqfds_safe]); no vCPU passes
      a barrier before the others, and the threads do not deadlock ([board_barrier],
      [board_no_deadlock], [board_failure_unblocks]); a device tree reads back from its blob
      ([dtb_roundtrip]); a converted qcow2 image has the bytes of its clusters
      ([qcow2_convert_correct]).

    ** Fuel and bounds

    Loops that are not structural take fuel and return [option]; a theorem that they return
    says how much is enough.  [slice_iter_loop] needs at most one round for each byte;
    [reserve_loop] one for each function number; [serve] and [out_loop] one for each pending
    chain plus two; a descriptor chain takes one round for each descriptor and, as in the
    source, does not end on a cyclic chain; [notify_loop] one round more than the driver
    keeps adding buffers; [do_work] one for each round of arrivals and one more
    ([worker_drains_channel]); [allocate_gsi] tries each GSI once.

    ** Not modelled

    The KVM file and vCPUs (hv/kvm/kvm.rs, hv/kvm/vcpu/), Hypervisor.framework, vhost, VFIO,
    FUSE, console and tap I/O are system calls; the loaders, ACPI tables, the bodies of the
    virtio devices, the io_uring backend, the assembly of a machine (vm/vm.rs, the
    architecture parts of board/) and the command line are not modelled.  Memory ordering of
    the fences is not: a step sees the whole state.  [log] calls are left out, errors that are
    only logged are dropped. *)

From stdpp Require Export prelude list gmap sorting.
From Stdlib Require Export ZArith Lia.
#[global] Open Scope Z_scope.

(** * Outcomes

    A fallible Rust function returns [Result<T, E>]; a function may also panic
    (an [assert!], a [todo!], an index out of range).  Both are values. *)

Inductive outcome (E A : Type) : Type :=
| Ok (a : A)
| Err (e : E)
| Panic.
Arguments Ok {E A} _.
Arguments Err {E A} _.
Arguments Panic {E A}.

#[export] Instance outcome_ret {E} : MRet (outcome E) := fun _ a => Ok a.
#[export] Instance outcome_bind {E} : MBind (outcome E) := fun _ _ f m =>
  match m with Ok a => f a | Err e => Err e | Panic => Panic end.
#[export] Instance outcome_fmap {E} : FMap (outcome E) := fun _ _ f m =>
  match m with Ok a => Ok (f a) | Err e => Err e | Panic => Panic end.

Definition is_ok {E A} (m : outcome E A) : bool :=
  match m with Ok _ => true | _ => false end.

(** [map_err] of the source's [?] conversions ([From] between error types). *)
Definition map_err {E E' A} (f : E → E') (m : outcome E A) : outcome E' A :=
  match m with Ok a => Ok a | Err e => Err (f e) | Panic => Panic end.

(** State passing with early return: what was done before an error stays done,
    as in a method that mutates through [&mut self] and leaves by [?]. *)
Definition stm (S E A : Type) : Type := S → S * outcome E A.

Definition sret {S E A} (a : A) : stm S E A := λ s, (s, Ok a).
Definition sfail {S E A} (e : E) : stm S E A := λ s, (s, Err e).
Definition spanic {S E A} : stm S E A := λ s, (s, Panic).
Definition sget {S E} : stm S E S := λ s, (s, Ok s).
Definition smodify {S E} (f : S → S) : stm S E unit := λ s, (f s, Ok tt).
Definition slift {S E A} (m : outcome E A) : stm S E A := λ s, (s, m).
Definition sbind {S E A B} (m : stm S E A) (k : A → stm S E B) : stm S E B :=
  λ s, match m s with
       | (s', Ok a) => k a s'
       | (s', Err e) => (s', Err e)
       | (s', Panic) => (s', Panic)
       end.

(** [for x in xs { body(x)?; }] *)
Fixpoint sfor {S E A} (xs : list A) (body : A → stm S E unit) : stm S E unit :=
  match xs with
  | [] => sret tt
  | x :: xs' => sbind (body x) (λ _, sfor xs' body)
  end.

Declare Scope stm_scope.
Delimit Scope stm_scope with stm.
Notation "x <- m ;; k" := (sbind m (λ x, k))
  (at level 100, m at next level, right associativity) : stm_scope.
Notation "m ;;; k" := (sbind m (λ _, k))
  (at level 100, right associativity) : stm_scope.

(** * Machine integers

    A [w]-bit unsigned integer is a [Z] in [[0, 2^w)].  [wrap w] is the cast
    [as u<w>] and the wrap-around of the release profile's arithmetic. *)

Definition wrap (w z : Z) : Z := z mod 2 ^ w.
Abbreviation u8 := (wrap 8).
Abbreviation u16 := (wrap 16).
Abbreviation u32 := (wrap 32).
Abbreviation u64 := (wrap 64).

Definition in_u (w z : Z) : Prop := 0 ≤ z < 2 ^ w.
#[export] Instance in_u_dec w z : Decision (in_u w z).
Proof. unfold in_u. apply _. Defined.

Definition U64_MAX : Z := 2 ^ 64 - 1.
Definition U32_MAX : Z := 2 ^ 32 - 1.

(** [!z] at width [w]. *)
Definition bnot (w z : Z) : Z := Z.lxor z (Z.ones w).

(** [!flags] on a type declared by [bitflags!]: the complement among the declared
    bits [all]; a bit that is not declared is clear in it. *)
Definition flags_not (all flags : Z) : Z := Z.ldiff all flags.

(** A field [msb, lsb] of a register, as [bitfield!] declares one: its getter
    and its setter (which keeps the bits of the value that fit). *)
Definition bits_get (z msb lsb : Z) : Z :=
  Z.land (Z.shiftr z lsb) (Z.ones (msb - lsb + 1)).
Definition bits_set (z msb lsb v : Z) : Z :=
  let m := Z.ones (msb - lsb + 1) in
  Z.lor (Z.ldiff z (Z.shiftl m lsb)) (Z.shiftl (Z.land v m) lsb).

(** A single-bit field. *)
Definition bit_get (z i : Z) : bool := Z.testbit z i.
Definition bit_set (z i : Z) (b : bool) : Z :=
  if b then Z.setbit z i else Z.clearbit z i.

(** [flags.contains(f)] of [bitflags!]: every bit of [f] is set. *)
Definition contains (z f : Z) : bool := Z.land z f =? f.

Lemma wrap_small w z : in_u w z → wrap w z = z.
Proof. intros H. apply Z.mod_small, H. Qed.

(** Casts of values in range, innermost first. *)
Ltac unwrap :=
  repeat match goal with
  | |- context [wrap ?w ?z] =>
      lazymatch z with context [wrap _ _] => fail | _ => idtac end;
      rewrite (wrap_small w z) by (unfold in_u; lia)
  end.

Lemma wrap_in_u w z : 0 ≤ w → in_u w (wrap w z).
Proof. intros. apply Z.mod_pos_bound. lia. Qed.

Lemma wrap_wrap w w' z : 0 ≤ w ≤ w' → wrap w (wrap w' z) = wrap w z.
Proof.
  intros H. unfold wrap. apply Z.mod_mod_divide.
  exists (2 ^ (w' - w)). rewrite <- Z.pow_add_r by lia. f_equal. lia.
Qed.

Lemma wrap_ones w z : 0 ≤ w → wrap w z = Z.land z (Z.ones w).
Proof. intros. by rewrite Z.land_ones. Qed.

Lemma in_u_mono w w' z : 0 ≤ w ≤ w' → in_u w z → in_u w' z.
Proof.
  intros Hw [? Hz]. split; [done|].
  pose proof (Z.pow_le_mono_r 2 w w'). lia.
Qed.

(** ** Bits *)

Lemma testbit_high w z i : in_u w z → w ≤ i → Z.testbit z i = false.
Proof.
  intros [H0 H1] Hi. destruct (decide (z = 0)) as [->|Hz]; [apply Z.bits_0|].
  apply Z.bits_above_log2; [done|].
  enough (Z.log2 z < w) by lia. apply Z.log2_lt_pow2; lia.
Qed.

Lemma in_u_testbit w z :
  0 ≤ w → 0 ≤ z → (∀ i, w ≤ i → Z.testbit z i = false) → in_u w z.
Proof.
  intros Hw Hz H. split; [done|].
  destruct (decide (z = 0)) as [->|Hne]; [lia|].
  apply Z.log2_lt_pow2; [lia|]. apply Znot_ge_lt. intros Hge.
  pose proof (Z.bit_log2 z ltac:(lia)) as Hb. rewrite H in Hb by lia. done.
Qed.

Lemma wrap_testbit w z i :
  0 ≤ w → Z.testbit (wrap w z) i = bool_decide (i < w) && Z.testbit z i.
Proof.
  intros Hw. unfold wrap. case_bool_decide.
  - destruct (decide (0 ≤ i)).
    + by rewrite Z.mod_pow2_bits_low.
    + by rewrite !Z.testbit_neg_r by lia.
  - rewrite Z.mod_pow2_bits_high by lia. done.
Qed.

Lemma ones_testbit w i :
  0 ≤ w → 0 ≤ i → Z.testbit (Z.ones w) i = bool_decide (i < w).
Proof.
  intros. case_bool_decide.
  - rewrite Z.ones_spec_low; [done|lia].
  - rewrite Z.ones_spec_high; [done|lia].
Qed.

Lemma shiftl_testbit z n i :
  0 ≤ n → 0 ≤ i →
  Z.testbit (Z.shiftl z n) i = bool_decide (n ≤ i) && Z.testbit z (i - n).
Proof.
  intros. rewrite Z.shiftl_spec by lia. case_bool_decide; [done|].
  by rewrite Z.testbit_neg_r by lia.
Qed.

Lemma setbit_testbit z n i :
  0 ≤ n → 0 ≤ i → Z.testbit (Z.setbit z n) i = bool_decide (n = i) || Z.testbit z i.
Proof.
  intros. case_bool_decide as Hn.
  - subst. by rewrite Z.setbit_eq.
  - rewrite Z.setbit_neq by lia. done.
Qed.

Lemma clearbit_testbit z n i :
  0 ≤ n → 0 ≤ i →
  Z.testbit (Z.clearbit z n) i = negb (bool_decide (n = i)) && Z.testbit z i.
Proof.
  intros. case_bool_decide as Hn.
  - subst. by rewrite Z.clearbit_eq.
  - rewrite Z.clearbit_neq by lia. done.
Qed.

Create Rewrite HintDb zbits.
#[export] Hint Rewrite Z.lor_spec Z.land_spec Z.lxor_spec Z.ldiff_spec
  wrap_testbit ones_testbit shiftl_testbit Z.shiftr_spec setbit_testbit
  clearbit_testbit Z.bits_0 Z.lnot_spec using lia : zbits.

(** Case analysis on the order tests a bit-level goal is left with. *)
Ltac decide_bits :=
  repeat (first
    [ case_bool_decide
    | match goal with
      | |- context [Z.testbit ?z ?i] =>
          first [ rewrite (Z.testbit_neg_r z i) by lia
                | let E := fresh in
                  assert (E : Z.testbit z i = false)
                    by (eapply testbit_high; [eassumption | lia]);
                  rewrite E; clear E ]
      end ]; cbn [andb orb negb xorb]).

Ltac simpl_bools :=
  rewrite ?andb_true_r, ?andb_false_r, ?orb_false_r, ?orb_true_r, ?xorb_false_r;
  cbn [andb orb negb xorb].

(** Equality of two integers bit by bit. *)
Ltac bitwise :=
  apply Z.bits_inj'; intros ?i ?Hi;
  repeat (progress (autorewrite with zbits; decide_bits; simpl_bools));
  try lia; try done; repeat (f_equal; try lia); try done.

(** Shifts by constants in a bit position, added up. *)
Ltac norm_bit_index :=
  repeat match goal with
  | |- context [Z.testbit _ (?i - ?a - ?b)] =>
      let c := eval vm_compute in (a + b) in replace (i - a - b) with (i - c) by lia
  | |- context [Z.testbit _ (?i + ?a - ?b)] =>
      let c := eval vm_compute in (b - a) in replace (i + a - b) with (i - c) by lia
  | |- context [Z.testbit _ (?i - ?a + ?b)] =>
      let c := eval vm_compute in (b - a) in replace (i - a + b) with (i + c) by lia
  | |- context [Z.testbit _ (?i + ?a + ?b)] =>
      let c := eval vm_compute in (a + b) in replace (i + a + b) with (i + c) by lia
  | |- context [Z.testbit _ (?i - 0)] => replace (i - 0) with i by lia
  | |- context [Z.testbit _ (?i + 0)] => replace (i + 0) with i by lia
  end.

(** The same, with a case analysis on every bit the goal is left with. *)
Ltac bitblast :=
  apply Z.bits_inj'; intros ?i ?Hi;
  repeat (progress (autorewrite with zbits; decide_bits; simpl_bools)); norm_bit_index;
  repeat match goal with |- context [Z.testbit ?z ?i] => destruct (Z.testbit z i) end;
  first [done | lia].

Lemma lor_in_u w a b : 0 ≤ w → in_u w a → in_u w b → in_u w (Z.lor a b).
Proof.
  intros Hw Ha Hb. apply in_u_testbit; [done| |].
  - apply Z.lor_nonneg; split; [apply Ha|apply Hb].
  - intros i Hi. rewrite Z.lor_spec.
    by rewrite (testbit_high w a), (testbit_high w b).
Qed.

Lemma land_in_u_r w a b : 0 ≤ w → in_u w b → in_u w (Z.land a b).
Proof.
  intros Hw Hb. apply in_u_testbit; [done| |].
  - apply Z.land_nonneg; right; apply Hb.
  - intros i Hi. rewrite Z.land_spec, (testbit_high w b), andb_false_r; done.
Qed.

Lemma land_in_u_l w a b : 0 ≤ w → in_u w a → in_u w (Z.land a b).
Proof. intros. rewrite Z.land_comm. by apply land_in_u_r. Qed.

Lemma ldiff_in_u w a b : 0 ≤ w → in_u w a → in_u w (Z.ldiff a b).
Proof.
  intros Hw Ha. apply in_u_testbit; [done| |].
  - apply Z.ldiff_nonneg; left; apply Ha.
  - intros i Hi. rewrite Z.ldiff_spec, (testbit_high w a); done.
Qed.

Lemma shiftl_in_u w n a : 0 ≤ n ≤ w → in_u (w - n) a → in_u w (Z.shiftl a n).
Proof.
  intros Hn [H0 H1]. unfold in_u. rewrite Z.shiftl_mul_pow2 by lia.
  replace (2 ^ w) with (2 ^ (w - n) * 2 ^ n)
    by (rewrite <- Z.pow_add_r by lia; f_equal; lia).
  nia.
Qed.

Lemma shiftr_in_u w n a : 0 ≤ n → 0 ≤ w → in_u (w + n) a → in_u w (Z.shiftr a n).
Proof.
  intros Hn Hw [H0 H1]. unfold in_u. rewrite Z.shiftr_div_pow2 by lia.
  rewrite Z.pow_add_r in H1 by lia. split.
  - apply Z.div_pos; lia.
  - apply Z.div_lt_upper_bound; lia.
Qed.

Lemma ones_in_u w n : 0 ≤ n ≤ w → in_u w (Z.ones n).
Proof.
  intros. unfold in_u. rewrite Z.ones_equiv.
  pose proof (Z.pow_le_mono_r 2 n w). lia.
Qed.

Create HintDb in_u.
#[export] Hint Resolve lor_in_u land_in_u_l ldiff_in_u wrap_in_u : in_u.

(** Reading a field back after it was set. *)
Lemma bits_get_set z msb lsb v :
  0 ≤ lsb ≤ msb → bits_get (bits_set z msb lsb v) msb lsb = wrap (msb - lsb + 1) v.
Proof. intros. unfold bits_get, bits_set. cbn zeta. bitwise. Qed.

(** Setting a field leaves a disjoint one alone. *)
Lemma bits_get_set_ne z msb lsb v msb' lsb' :
  0 ≤ lsb ≤ msb → 0 ≤ lsb' ≤ msb' → msb < lsb' ∨ msb' < lsb →
  bits_get (bits_set z msb lsb v) msb' lsb' = bits_get z msb' lsb'.
Proof. intros. unfold bits_get, bits_set. cbn zeta. bitwise. Qed.

Lemma bits_set_testbit_out z msb lsb v i :
  0 ≤ lsb ≤ msb → 0 ≤ i → i < lsb ∨ msb < i →
  Z.testbit (bits_set z msb lsb v) i = Z.testbit z i.
Proof.
  intros Hm Hi Ho. unfold bits_set. cbn zeta. destruct (decide (lsb ≤ i)).
  - rewrite Z.lor_spec, Z.ldiff_spec, !shiftl_testbit, Z.land_spec, ones_testbit by lia.
    rewrite (bool_decide_eq_false_2 (i - lsb < _)) by lia. by rewrite !andb_false_r, andb_true_r, orb_false_r.
  - rewrite Z.lor_spec, Z.ldiff_spec, !shiftl_testbit by lia.
    rewrite (bool_decide_eq_false_2 (lsb ≤ i)) by lia. by rewrite !andb_false_l, andb_true_r, orb_false_r.
Qed.

Lemma bit_set_same z i : 0 ≤ i → bit_set z i (bit_get z i) = z.
Proof.
  intros Hi. unfold bit_set, bit_get. apply Z.bits_inj'. intros j Hj.
  destruct (Z.testbit z i) eqn:E; [rewrite setbit_testbit by lia|rewrite clearbit_testbit by lia];
    case_bool_decide; subst; simpl; rewrite ?E; done.
Qed.

Lemma bit_get_set z i b : 0 ≤ i → bit_get (bit_set z i b) i = b.
Proof.
  intros. unfold bit_get, bit_set. destruct b.
  - by rewrite Z.setbit_eq.
  - by rewrite Z.clearbit_eq.
Qed.

Lemma bit_get_set_ne z i j b :
  0 ≤ i → 0 ≤ j → i ≠ j → bit_get (bit_set z i b) j = bit_get z j.
Proof.
  intros. unfold bit_get, bit_set. destruct b.
  - by rewrite Z.setbit_neq by lia.
  - by rewrite Z.clearbit_neq by lia.
Qed.

Lemma bits_get_in_u z msb lsb : 0 ≤ lsb ≤ msb → in_u (msb - lsb + 1) (bits_get z msb lsb).
Proof. intros. unfold bits_get. apply land_in_u_r; [lia|]. apply ones_in_u. lia. Qed.

Lemma contains_spec z f :
  contains z f = true ↔ ∀ i, Z.testbit f i = true → Z.testbit z i = true.
Proof.
  unfold contains. rewrite Z.eqb_eq. split.
  - intros H i Hi. rewrite <- H, Z.land_spec in Hi.
    by destruct (Z.testbit z i).
  - intros H. apply Z.bits_inj. intros i. rewrite Z.land_spec.
    specialize (H i). destruct (Z.testbit f i).
    + by rewrite H.
    + apply andb_false_r.
Qed.

(** Closes a ground goal built from comparisons and conjunctions by evaluating it. *)
Ltac by_eval :=
  vm_compute; repeat split; try reflexivity; try (intros; discriminate).

(** * Reasoning about the state monad *)

Create HintDb keeps.

Section Monad.
Context {S E : Type}.

Lemma sbind_Ok_inv {A B} (p : stm S E A) (k : A → stm S E B) s s' b :
  sbind p k s = (s', Ok b) → ∃ s1 a, p s = (s1, Ok a) ∧ k a s1 = (s', Ok b).
Proof. unfold sbind. destruct (p s) as [s1 [a| |]]; naive_solver. Qed.

Lemma sbind_Ok_intro {A B} (p : stm S E A) (k : A → stm S E B) s s1 a r :
  p s = (s1, Ok a) → k a s1 = r → sbind p k s = r.
Proof. intros E1 E2. unfold sbind. by rewrite E1. Qed.

(** [keeps f p]: [p] does not change what [f] observes. *)
Definition keeps {A T} (f : S → T) (p : stm S E A) : Prop := ∀ s, f (fst (p s)) = f s.
(** [total p]: [p] returns a value. *)
Definition total {A} (p : stm S E A) : Prop := ∀ s, ∃ s' a, p s = (s', Ok a).

Lemma keeps_bind {A B T} (f : S → T) (p : stm S E A) (k : A → stm S E B) :
  keeps f p → (∀ a, keeps f (k a)) → keeps f (sbind p k).
Proof.
  intros Hp Hk s. unfold sbind. specialize (Hp s).
  destruct (p s) as [s1 [a| |]]; simpl in *; [by rewrite Hk|done|done].
Qed.

Lemma keeps_for {A T} (f : S → T) (xs : list A) (body : A → stm S E unit) :
  (∀ x, keeps f (body x)) → keeps f (sfor xs body).
Proof. intros Hb. induction xs; [by intros s|]. by apply keeps_bind. Qed.

Lemma keeps_ret {A T} (f : S → T) (a : A) : keeps f (sret (E := E) a).
Proof. by intros s. Qed.

Lemma total_for {A} (xs : list A) (body : A → stm S E unit) :
  (∀ x, total (body x)) → total (sfor xs body).
Proof.
  intros Hb. induction xs as [|x xs IH]; intros s; [by eexists _, _|].
  simpl. destruct (Hb x s) as (s1 & a & E1). destruct (IH s1) as (s2 & b & E2).
  exists s2, b. by eapply sbind_Ok_intro.
Qed.

Lemma keeps_Ok {A T} (f : S → T) (p : stm S E A) s s' a :
  keeps f p → p s = (s', Ok a) → f s' = f s.
Proof. intros Hk E1. specialize (Hk s). by rewrite E1 in Hk. Qed.
End Monad.
#[export] Hint Resolve keeps_bind keeps_for keeps_ret : keeps.

Ltac inv_ok H :=
  match type of H with
  | sbind _ _ _ = (_, Ok _) =>
      let s := fresh "s" in let a := fresh "a" in let E := fresh "Ek" in
      apply sbind_Ok_inv in H as (s & a & E & H)
  end.

(** * Hash maps

    A [HashMap] is a [gmap]; the order in which it is walked is unspecified: a parameter.
    The order of [map_to_list] is one it may have. *)

Class HashIter := hash_iter : ∀ {I A : Type} `{Countable I}, gmap I A → list (I * A).
Class HashIterLaws `{HashIter} : Prop :=
  hash_iter_perm : ∀ {I A : Type} `{Countable I} (m : gmap I A), hash_iter m ≡ₚ map_to_list m.

Definition list_iter : HashIter := λ I A _ _ m, map_to_list m.
Lemma list_iter_laws : @HashIterLaws list_iter.
Proof. by intros I A ? ? m. Qed.
