(* ===== verification/Utils.v ===== *)
(** * Integer helpers of utils/utils.rs and the endian types of utils/endian.rs

    The macros [align_up!], [mask_bits!], [assign_bits!] and the functions on
    halves of a [u64]; the byte order of a value in memory, with the
    little-endian hosts (x86_64, aarch64) as the target. *)

From S2P Require Import Prelude.

(** ** utils/utils.rs *)

(** A shift by [64] or more takes the amount modulo [64] (release build), so a [size] of 0 keeps
    the value. *)
Definition truncate_u64 (val size : Z) : Z :=
  Z.land val (Z.shiftr U64_MAX (Z.land (u64 (64 - u64 (Z.shiftl size 3))) 63)).

(** [align_up!(num, bits)] at width [w]. *)
Definition align_up (w num bits : Z) : Z :=
  let mask := Z.shiftl 1 bits - 1 in
  Z.land (wrap w (num + mask)) (bnot w mask).

Definition align_down (w num bits : Z) : Z :=
  let mask := Z.shiftl 1 bits - 1 in
  Z.land num (bnot w mask).

(** [mask_bits!(dst, src, mask)]; [assign_bits!] stores the same value. *)
Definition mask_bits (w dst src mask : Z) : Z :=
  Z.lor (Z.land dst (bnot w mask)) (Z.land src mask).

Definition wrapping_sum (data : list Z) : Z :=
  foldl (λ accu e, u8 (accu + e)) 0 data.

Definition get_low32 (num : Z) : Z := u32 num.
Definition get_high32 (num : Z) : Z := u32 (Z.shiftr num 32).

Definition set_low32 (num val : Z) : Z :=
  Z.lor (Z.land num (bnot 64 0xffffffff)) val.
Definition set_high32 (num val : Z) : Z :=
  Z.lor (Z.land num 0xffffffff) (u64 (Z.shiftl val 32)).

(** ** Bytes of an integer *)

(** [to_le_bytes], [from_le_bytes] at [n] bytes. *)
Fixpoint le_bytes (n : nat) (v : Z) : list Z :=
  match n with
  | O => []
  | S n' => u8 v :: le_bytes n' (Z.shiftr v 8)
  end.

Fixpoint le_val (bs : list Z) : Z :=
  match bs with
  | [] => 0
  | b :: bs' => b + 256 * le_val bs'
  end.

(** [swap_bytes] of an [n]-byte integer. *)
Definition swap_bytes (n : nat) (v : Z) : Z := le_val (reverse (le_bytes n v)).

(** ** utils/endian.rs: [$ed_type::from] and [to_ne] on a little-endian host *)

Inductive endian := Little | Big.

(** The stored representation [v] of a value. *)
Definition ed_from (e : endian) (n : nat) (value : Z) : Z :=
  match e with Little => value | Big => swap_bytes n value end.

Definition ed_to_ne (e : endian) (n : nat) (v : Z) : Z :=
  match e with Little => v | Big => swap_bytes n v end.

(** [as_bytes()] of the stored representation, and [From<[u8; n]>]. *)
Definition ed_as_bytes (n : nat) (v : Z) : list Z := le_bytes n v.
Definition ed_from_bytes (bs : list Z) : Z := le_val bs.

(** ** Lemmas *)

Lemma le_bytes_length n v : length (le_bytes n v) = n.
Proof. revert v. induction n; intros; simpl; auto. Qed.

Lemma le_bytes_u8 n v : Forall (in_u 8) (le_bytes n v).
Proof.
  revert v. induction n; intros; constructor; auto. apply wrap_in_u. lia.
Qed.

Lemma le_val_bytes n v : le_val (le_bytes n v) = wrap (8 * Z.of_nat n) v.
Proof.
  revert v. induction n as [|n IH]; intros v.
  { simpl. unfold wrap. change (2 ^ (8 * Z.of_nat 0)) with 1. by rewrite Z.mod_1_r. }
  cbn [le_bytes le_val]. rewrite IH. unfold wrap.
  rewrite Z.shiftr_div_pow2 by lia.
  replace (8 * Z.of_nat (S n)) with (8 + 8 * Z.of_nat n) by lia.
  rewrite Z.pow_add_r by lia. rewrite Z.rem_mul_r by lia. done.
Qed.

Lemma le_val_in_u bs : Forall (in_u 8) bs → in_u (8 * Z.of_nat (length bs)) (le_val bs).
Proof.
  induction 1 as [|b bs [Hb1 Hb2] _ [IH1 IH2]]; [unfold in_u; simpl; lia|].
  simpl length. unfold in_u in *.
  replace (8 * Z.of_nat (S (length bs))) with (8 + 8 * Z.of_nat (length bs)) by lia.
  rewrite Z.pow_add_r by lia. simpl le_val. change (2 ^ 8) with 256 in *. nia.
Qed.

Lemma le_bytes_val bs :
  Forall (in_u 8) bs → le_bytes (length bs) (le_val bs) = bs.
Proof.
  induction 1 as [|b bs Hb Hbs IH]; [done|]. simpl. f_equal.
  - unfold wrap. rewrite Z.mul_comm, Z.mod_add by lia. apply Z.mod_small, Hb.
  - etrans; [|exact IH]. f_equal. rewrite Z.shiftr_div_pow2 by lia.
    change (2 ^ 8) with 256. rewrite (Z.mul_comm 256), Z.div_add by lia.
    rewrite (Z.div_small b) by apply Hb. lia.
Qed.

Lemma swap_bytes_involutive n v : swap_bytes n (swap_bytes n v) = wrap (8 * Z.of_nat n) v.
Proof.
  unfold swap_bytes. rewrite <- (le_val_bytes n v). f_equal.
  assert (length (reverse (le_bytes n v)) = n) as Hlen
    by (rewrite length_reverse; apply le_bytes_length).
  rewrite <- Hlen at 1. rewrite le_bytes_val.
  - by rewrite reverse_involutive.
  - apply Forall_reverse, le_bytes_u8.
Qed.

(** Storing a value in a [Lu*]/[Bu*] field and reading it back. *)
Lemma ed_to_ne_from e n v :
  in_u (8 * Z.of_nat n) v → ed_to_ne e n (ed_from e n v) = v.
Proof.
  intros H. destruct e; [done|]. simpl. rewrite swap_bytes_involutive.
  by apply wrap_small.
Qed.

(** A big-endian field lies in memory most significant byte first. *)
Lemma ed_big_bytes n v : ed_as_bytes n (ed_from Big n v) = reverse (le_bytes n v).
Proof.
  unfold ed_as_bytes, ed_from, swap_bytes.
  assert (length (reverse (le_bytes n v)) = n) as Hlen
    by (rewrite length_reverse; apply le_bytes_length).
  rewrite <- Hlen at 1. apply le_bytes_val, Forall_reverse, le_bytes_u8.
Qed.

Lemma truncate_u64_wrap val size :
  1 ≤ size ≤ 8 → truncate_u64 val size = wrap (8 * size) val.
Proof.
  intros. unfold truncate_u64. rewrite (wrap_ones (8 * size)) by lia. f_equal.
  change U64_MAX with (Z.ones 64). rewrite Z.shiftl_mul_pow2 by lia. change (2 ^ 3) with 8.
  rewrite (wrap_small 64 (size * 8)), wrap_small by (unfold in_u; lia).
  change 63 with (Z.ones 6). rewrite Z.land_ones, Z.mod_small by lia. bitwise.
Qed.

Lemma ones_pred n : 0 ≤ n → Z.shiftl 1 n - 1 = Z.ones n.
Proof. intros. by rewrite Z.ones_equiv, Z.shiftl_1_l. Qed.

Lemma bnot_sub w x : 0 ≤ w → in_u w x → bnot w x = 2 ^ w - 1 - x.
Proof.
  intros Hw Hx. unfold bnot.
  assert (Z.land x (Z.lxor x (Z.ones w)) = 0) as Hl by (bitblast).
  pose proof (Z.add_nocarry_lxor _ _ Hl) as Ha.
  rewrite <- Z.lxor_assoc, Z.lxor_nilpotent, Z.lxor_0_l in Ha. pose proof (Z.ones_equiv w). lia.
Qed.

Lemma bnot_ones_testbit w n i :
  0 ≤ n → 0 ≤ w → 0 ≤ i →
  Z.testbit (bnot w (Z.ones n)) i = xorb (bool_decide (i < n)) (bool_decide (i < w)).
Proof. intros. unfold bnot. by autorewrite with zbits. Qed.

Lemma land_bnot_ones w n z :
  0 ≤ n ≤ w → in_u w z → Z.land z (bnot w (Z.ones n)) = z - z mod 2 ^ n.
Proof.
  intros Hn Hz.
  assert (Z.land z (bnot w (Z.ones n)) = Z.shiftl (Z.shiftr z n) n) as ->.
  { unfold bnot. bitwise. }
  rewrite Z.shiftl_mul_pow2, Z.shiftr_div_pow2 by lia.
  pose proof (Z.div_mod z (2 ^ n)). lia.
Qed.

(** [align_down] is the largest multiple of [2^bits] below. *)
Lemma align_down_spec w num bits :
  0 ≤ bits ≤ w → in_u w num → align_down w num bits = num - num mod 2 ^ bits.
Proof.
  intros. unfold align_down. cbn zeta. rewrite ones_pred by lia.
  by apply land_bnot_ones.
Qed.

(** [align_up] without wrap-around: the least multiple of [2^bits] above. *)
Lemma align_up_spec w num bits :
  0 ≤ bits ≤ w → 0 ≤ num → num + 2 ^ bits - 1 < 2 ^ w →
  align_up w num bits = (num + 2 ^ bits - 1) - (num + 2 ^ bits - 1) mod 2 ^ bits.
Proof.
  intros. unfold align_up. cbn zeta. rewrite ones_pred by lia.
  rewrite Z.ones_equiv.
  replace (num + Z.pred (2 ^ bits)) with (num + 2 ^ bits - 1) by lia.
  rewrite <- Z.ones_equiv.
  assert (in_u w (num + 2 ^ bits - 1)) by (unfold in_u; lia).
  rewrite wrap_small by done. by apply land_bnot_ones.
Qed.

Lemma align_up_bounds w num bits :
  0 ≤ bits ≤ w → 0 ≤ num → num + 2 ^ bits - 1 < 2 ^ w →
  num ≤ align_up w num bits < num + 2 ^ bits ∧ (2 ^ bits | align_up w num bits).
Proof.
  intros Hb Hn Hw. rewrite align_up_spec by done.
  assert (0 < 2 ^ bits) as Hp by (apply Z.pow_pos_nonneg; lia).
  pose proof (Z.mod_pos_bound (num + 2 ^ bits - 1) _ Hp). split; [lia|].
  exists ((num + 2 ^ bits - 1) / 2 ^ bits).
  pose proof (Z.div_mod (num + 2 ^ bits - 1) (2 ^ bits)). lia.
Qed.

Lemma mask_bits_testbit w dst src mask i :
  0 ≤ w → in_u w dst → in_u w mask → 0 ≤ i →
  Z.testbit (mask_bits w dst src mask) i =
    if Z.testbit mask i then Z.testbit src i else Z.testbit dst i.
Proof.
  intros Hw Hd Hm Hi. unfold mask_bits, bnot. autorewrite with zbits.
  case_bool_decide.
  - by destruct (Z.testbit mask i), (Z.testbit dst i), (Z.testbit src i).
  - rewrite (testbit_high w mask), (testbit_high w dst) by (done || lia). simpl.
    by rewrite andb_false_r.
Qed.

Lemma mask_bits_in_u w dst src mask :
  0 ≤ w → in_u w dst → in_u w mask → in_u w (mask_bits w dst src mask).
Proof.
  intros. unfold mask_bits.
  apply lor_in_u; [done|by apply land_in_u_l|by apply land_in_u_r].
Qed.

(** The two halves of a [u64] are independent registers. *)
Lemma get_set_low32 num val :
  in_u 64 num → in_u 32 val →
  get_low32 (set_low32 num val) = val ∧ get_high32 (set_low32 num val) = get_high32 num.
Proof.
  intros Hn Hv. unfold get_low32, get_high32, set_low32, bnot.
  change 0xffffffff with (Z.ones 32). split; bitwise.
Qed.

Lemma get_set_high32 num val :
  in_u 64 num → in_u 32 val →
  get_high32 (set_high32 num val) = val ∧ get_low32 (set_high32 num val) = get_low32 num.
Proof.
  intros Hn Hv. unfold get_low32, get_high32, set_high32.
  change 0xffffffff with (Z.ones 32). split; bitwise.
Qed.

Lemma low_high32 num : in_u 64 num → num = Z.lor (Z.shiftl (get_high32 num) 32) (get_low32 num).
Proof. intros Hn. unfold get_low32, get_high32. bitwise. Qed.

Lemma set_low32_in_u num val : in_u 64 num → in_u 32 val → in_u 64 (set_low32 num val).
Proof.
  intros. unfold set_low32. apply lor_in_u; [lia| |by eapply in_u_mono; [|eassumption]; lia].
  by apply land_in_u_l.
Qed.

Lemma set_high32_in_u num val : in_u 64 num → in_u 32 val → in_u 64 (set_high32 num val).
Proof.
  intros. unfold set_high32. apply lor_in_u; [lia| |apply wrap_in_u; lia].
  by apply land_in_u_l.
Qed.

(** [wrapping_sum] of a table whose checksum byte is set to the negation of
    the sum of the others is zero. *)
Lemma wrapping_sum_acc acc data :
  foldl (λ accu e, u8 (accu + e)) (u8 acc) data = u8 (acc + foldr Z.add 0 data).
Proof.
  revert acc. induction data as [|e data IH]; intros acc; cbn [foldl foldr].
  { by rewrite Z.add_0_r. }
  assert (u8 (u8 acc + e) = u8 (acc + e)) as ->.
  { unfold wrap. by rewrite Zplus_mod_idemp_l. }
  rewrite IH. f_equal. lia.
Qed.

Lemma wrapping_sum_spec data : wrapping_sum data = u8 (foldr Z.add 0 data).
Proof. unfold wrapping_sum. apply (wrapping_sum_acc 0). Qed.
