(* ===== verification/MemTypes.v ===== *)
(** * Error and control types shared by the memory components

    [hv::Error] (hv/hv.rs), [mem::Error] (mem/mem.rs) and [VmEntry].  The
    [std::io::Error] a variant carries comes from the host kernel and plays no
    part in the control flow: it is left out of the constructors. *)

From S2P Require Import Prelude.

(** hv/hv.rs, [enum Error] *)
Inductive hv_error :=
| GuestMap (hva gpa size : Z)
| GuestUnmap (gpa size : Z)
| Capability
| SetupSignal
| CreateVm
| CreateVcpu
| CreateDevice
| SetVmParam
| VcpuReg
| GuestCpuid
| GuestMsr
| MemEncrypt
| MemoryCreated
| IrqFdErr
| IoeventFdErr
| CreateIrq (pin : Z)
| SendInterrupt
| RunVcpu
| StopVcpu
| VmExitErr
| BrokenChannel
| KvmErr
| SevErr (code : Z)
| TdxErr (code : Z).

(** mem/mem.rs, [enum Error] *)
Inductive mem_error :=
| HvError (source : hv_error)
| ZeroSizedSlot
| ExceedsLimit (addr size : Z)
| Overlap (new_item exist_item : Z * Z)
| NotMapped (addr : Z)
| BackendTooBig (sum size : Z)
| NotAligned (addr align : Z)
| NotContinuous (addr size : Z)
| SystemErr
| WriteErr
| ReadErr
| MmioErr (source : hv_error)
| ChangeLayoutErr.

#[export] Instance hv_error_eq_dec : EqDecision hv_error.
Proof. solve_decision. Defined.
#[export] Instance mem_error_eq_dec : EqDecision mem_error.
Proof. solve_decision. Defined.

(** hv/hv.rs, [enum VmEntry]: what the VMM asks the vCPU to do next. *)
Inductive VmEntry :=
| VmEntryNone
| VmEntryPause
| VmEntryShutdown
| VmEntryReboot
| VmEntryIo (data : option Z)
| VmEntryMmio (data : Z).
