(* ===== verification/Addressable.v ===== *)
(** * The address space: mem/addressable.rs

    [Addressable<B>] is a vector of slots kept sorted by address; [add],
    [remove], [search] and [search_next] locate a slot by binary search.  The
    well-formedness invariant is [slots_wf]: slots are non-empty, end within the
    64-bit space, and each ends before the next begins. *)

From S2P Require Import Prelude MemTypes.

(** ** [slice::binary_search_by_key] of the standard library *)

Inductive bsearch := Found (index : nat) | Insert (index : nat).

Section BinarySearch.
Context {A : Type} (key : A → Z).

(** [while size > 1] of [binary_search_by]; [fuel] bounds the halvings. *)
Fixpoint bs_loop (fuel : nat) (l : list A) (k : Z) (base size : nat) : nat :=
  match fuel with
  | O => base
  | S fuel' =>
      if (1 <? size)%nat then
        let half := (size / 2)%nat in
        let mid := (base + half)%nat in
        let base' :=
          match l !! mid with
          | Some a => if k <? key a then base else mid
          | None => base
          end in
        bs_loop fuel' l k base' (size - half)%nat
      else base
  end.

Definition binary_search_by_key (l : list A) (k : Z) : bsearch :=
  match l with
  | [] => Insert 0
  | _ =>
      let base := bs_loop (length l) l k 0 (length l) in
      match l !! base with
      | Some a =>
          if key a =? k then Found base
          else if key a <? k then Insert (S base) else Insert base
      | None => Insert base
      end
  end.

Definition keys_sorted (l : list A) : Prop :=
  ∀ (i j : nat) a b, (i < j)%nat → l !! i = Some a → l !! j = Some b → key a < key b.

(** The window [base, base+size) always holds the answer. *)
Definition bs_window (l : list A) (k : Z) (base size : nat) : Prop :=
  (1 ≤ size)%nat ∧ (base + size ≤ length l)%nat ∧
  (∀ j a, (base + size ≤ j)%nat → l !! j = Some a → k < key a) ∧
  ((0 < base)%nat → ∃ a, l !! base = Some a ∧ key a ≤ k).

Lemma bs_loop_window fuel l k base size :
  keys_sorted l → (size ≤ S fuel)%nat → bs_window l k base size →
  bs_window l k (bs_loop fuel l k base size) 1.
Proof.
  intros Hs. revert base size.
  induction fuel as [|fuel IH]; intros base size Hf Hw; cbn [bs_loop].
  { destruct Hw as (?&?&?&?). by replace size with 1%nat in * by lia. }
  destruct (Nat.ltb_spec 1 size) as [Hlt|Hge]; cbn zeta;
    [|destruct Hw as (?&?&?&?); by replace size with 1%nat in * by lia].
  assert (1 ≤ size / 2 < size)%nat as Hh.
  { split; [apply Nat.div_le_lower_bound; lia|apply Nat.div_lt; lia]. }
  destruct Hw as (Hsz & Hlen & Hhi & Hlo).
  destruct (lookup_lt_is_Some_2 l (base + size / 2)) as [a Ha]; [lia|].
  rewrite Ha. apply IH; [lia|]. destruct (Z.ltb_spec k (key a)) as [Hk|Hk].
  - split; [lia|]. split; [lia|]. split; [|done]. intros j b Hj Hb.
    destruct (decide (j = (base + size / 2)%nat)) as [->|Hne].
    + rewrite Ha in Hb. by injection Hb as <-.
    + destruct (decide (base + size / 2 < j)%nat) as [Hjl|Hjl].
      * specialize (Hs _ _ _ _ Hjl Ha Hb). lia.
      * assert (size - size / 2 ≥ size / 2)%nat; [|lia].
        pose proof (Nat.div_mod_eq size 2). pose proof (Nat.mod_upper_bound size 2). lia.
  - split; [lia|]. split; [lia|]. split.
    + intros j b Hj Hb. apply (Hhi j); [lia|done].
    + intros _. by exists a.
Qed.

(** The documented result of the search on a sorted slice. *)
Definition bsearch_ok (l : list A) (k : Z) (r : bsearch) : Prop :=
  match r with
  | Found i => ∃ a, l !! i = Some a ∧ key a = k
  | Insert i =>
      (i ≤ length l)%nat ∧
      (∀ j a, (j < i)%nat → l !! j = Some a → key a < k) ∧
      (∀ j a, (i ≤ j)%nat → l !! j = Some a → k < key a)
  end.

Lemma binary_search_ok l k : keys_sorted l → bsearch_ok l k (binary_search_by_key l k).
Proof.
  intros Hs. unfold binary_search_by_key. destruct l as [|x l0] eqn:El.
  { split; [simpl; lia|]. split; intros j a; rewrite lookup_nil; done. }
  rewrite <- El in *. clear El x l0. set (base := bs_loop _ _ _ _ _).
  destruct (decide (length l = 0%nat)) as [Hz|Hnz].
  { apply nil_length_inv in Hz as ->. subst base. simpl. split; [simpl; lia|].
    split; intros j a; rewrite lookup_nil; done. }
  assert (bs_window l k base 1) as (_ & Hlen & Hhi & Hlo).
  { apply bs_loop_window; [done|lia|]. split; [lia|]. split; [lia|].
    split; [|lia]. intros j a Hj Ha. apply lookup_lt_Some in Ha. lia. }
  clearbody base. destruct (lookup_lt_is_Some_2 l base) as [b Hb]; [lia|].
  rewrite Hb.
  assert (∀ j a, (j < base)%nat → l !! j = Some a → key a < k) as Hbelow.
  { intros j a Hj Ha. destruct Hlo as (b' & Hb' & Hle); [lia|].
    specialize (Hs _ _ _ _ Hj Ha Hb'). lia. }
  assert (∀ j a, (base < j)%nat → l !! j = Some a → k < key a) as Habove.
  { intros j a Hj Ha. apply (Hhi j); [lia|done]. }
  destruct (Z.eqb_spec (key b) k) as [He|Hne]; [by exists b|].
  destruct (Z.ltb_spec (key b) k) as [Hlt|Hge]; simpl.
  - split; [lia|]. split; intros j a Hj Ha; [|apply (Habove j); [lia|done]].
    destruct (decide (j = base)) as [->|]; [naive_solver|].
    apply (Hbelow j); [lia|done].
  - split; [lia|]. split; [done|]. intros j a Hj Ha.
    destruct (decide (j = base)) as [->|]; [naive_solver lia|].
    apply (Habove j); [lia|done].
Qed.
End BinarySearch.

(** ** Slots *)

(** The trait [SlotBackend]. *)
Class SlotBackend (B : Type) := slot_size : B → Z.

Record Slot (B : Type) := mkSlot { slot_addr : Z; slot_backend : B }.
Arguments mkSlot {B} _ _.
Arguments slot_addr {B} _.
Arguments slot_backend {B} _.

Section Addressable.
Context {B : Type} `{SlotBackend B}.
Implicit Types (l : list (Slot B)) (s : Slot B).

Definition Slot_new (addr : Z) (backend : B) : outcome mem_error (Slot B) :=
  if slot_size backend =? 0 then Err ZeroSizedSlot
  else if slot_size backend - 1 + addr <=? U64_MAX
       then Ok (mkSlot addr backend)
       else Err (ExceedsLimit addr (slot_size backend)).

Definition max_addr (s : Slot B) : Z :=
  u64 (slot_size (slot_backend s) - 1 + slot_addr s).

(** [slots: Vec<Slot<B>>] is the whole state. *)
Definition Addressable_new : list (Slot B) := [].

Definition Addressable_iter (l : list (Slot B)) : list (Z * B) :=
  (λ s, (slot_addr s, slot_backend s)) <$> l.

Definition Addressable_is_empty (l : list (Slot B)) : bool :=
  match l with [] => true | _ => false end.

Definition Addressable_last (l : list (Slot B)) : option (Z * B) :=
  (λ s, (slot_addr s, slot_backend s)) <$> last l.

(** [drain(..)]: the full range is the only one the program drains. *)
Definition Addressable_drain (l : list (Slot B)) : list (Slot B) * list (Z * B) :=
  ([], Addressable_iter l).

(** [Vec::insert] *)
Definition vec_insert (i : nat) (s : Slot B) (l : list (Slot B)) : list (Slot B) :=
  take i l ++ s :: drop i l.

(** [add]: the index where the slot goes, or the slot in the way. *)
Definition add_position (l : list (Slot B)) (slot : Slot B) : sum (Slot B) nat :=
  match binary_search_by_key slot_addr l (slot_addr slot) with
  | Found index =>
      match l !! index with Some c => inl c | None => inr index end
  | Insert index =>
      let next :=
        match l !! index with
        | Some c => if slot_addr c <=? max_addr slot then Some c else None
        | None => None
        end in
      let prev :=
        match index with
        | O => None
        | S i =>
            match l !! i with
            | Some p => if slot_addr slot <=? max_addr p then Some p else None
            | None => None
            end
        end in
      match next, prev with
      | Some c, _ => inl c
      | None, Some p => inl p
      | None, None => inr index
      end
  end.

Definition Addressable_add (l : list (Slot B)) (addr : Z) (backend : B)
  : list (Slot B) * outcome mem_error nat :=
  match Slot_new addr backend with
  | Err e => (l, Err e)
  | Panic => (l, Panic)
  | Ok slot =>
      match add_position l slot with
      | inl curr =>
          (l, Err (Overlap (slot_addr slot, max_addr slot)
                           (slot_addr curr, max_addr curr)))
      | inr index => (vec_insert index slot l, Ok index)
      end
  end.

Definition Addressable_remove (l : list (Slot B)) (addr : Z)
  : list (Slot B) * outcome mem_error B :=
  match binary_search_by_key slot_addr l addr with
  | Found index =>
      match l !! index with
      | Some s => (delete index l, Ok (slot_backend s))
      | None => (l, Panic)
      end
  | Insert _ => (l, Err (NotMapped addr))
  end.

Definition Addressable_search (l : list (Slot B)) (addr : Z) : option (Z * B) :=
  match binary_search_by_key slot_addr l addr with
  | Found index => (λ s, (slot_addr s, slot_backend s)) <$> l !! index
  | Insert O => None
  | Insert (S i) =>
      match l !! i with
      | Some c => if addr <=? max_addr c then Some (slot_addr c, slot_backend c) else None
      | None => None
      end
  end.

Definition Addressable_search_next (l : list (Slot B)) (addr : Z) : option (Z * B) :=
  match binary_search_by_key slot_addr l addr with
  | Found index => (λ s, (slot_addr s, slot_backend s)) <$> l !! index
  | Insert O => None
  | Insert (S i) =>
      match l !! i with
      | Some c =>
          if addr <=? max_addr c then Some (slot_addr c, slot_backend c)
          else (λ s, (slot_addr s, slot_backend s)) <$> l !! S i
      | None => None
      end
  end.

(** ** The invariant *)

Definition slot_end (s : Slot B) : Z := slot_addr s + slot_size (slot_backend s).

(** The half-open interval of addresses a slot covers. *)
Definition covers (s : Slot B) (a : Z) : Prop := slot_addr s ≤ a < slot_end s.
#[global] Instance covers_dec s a : Decision (covers s a).
Proof. unfold covers. apply _. Defined.

Fixpoint slots_wf (lo : Z) (l : list (Slot B)) : Prop :=
  match l with
  | [] => True
  | s :: l' =>
      lo ≤ slot_addr s ∧ slot_addr s < slot_end s ∧ slot_end s ≤ 2 ^ 64 ∧
      slots_wf (slot_end s) l'
  end.

Definition Addressable_wf (l : list (Slot B)) : Prop := slots_wf 0 l.

(** Where a slot list leaves off. *)
Definition slots_end (lo : Z) (l : list (Slot B)) : Z :=
  match last l with Some s => slot_end s | None => lo end.

(** ** Lemmas *)

Lemma slots_wf_weaken lo lo' l : lo' ≤ lo → slots_wf lo l → slots_wf lo' l.
Proof. destruct l; [done|]. simpl. intros ? (?&?&?&?). repeat split; try done. lia. Qed.

Lemma slots_wf_app lo l1 l2 :
  slots_wf lo (l1 ++ l2) ↔ slots_wf lo l1 ∧ slots_wf (slots_end lo l1) l2.
Proof.
  revert lo. induction l1 as [|s l1 IH]; intros lo; simpl; [naive_solver|].
  rewrite IH. unfold slots_end.
  assert (∀ d, match last l1 with Some x => slot_end x | None => slot_end s end =
               match last (s :: l1) with Some x => slot_end x | None => d end) as E.
  { intros d. rewrite last_cons. by destruct (last l1). }
  rewrite (E lo). naive_solver.
Qed.

Lemma slots_wf_bound lo l s : slots_wf lo l → s ∈ l →
  lo ≤ slot_addr s ∧ slot_addr s < slot_end s ∧ slot_end s ≤ 2 ^ 64.
Proof.
  revert lo. induction l as [|x l IH]; intros lo Hwf Hs; [by apply elem_of_nil in Hs|].
  destruct Hwf as (?&?&?&Hwf). apply elem_of_cons in Hs as [->|Hs]; [done|].
  destruct (IH _ Hwf Hs) as (?&?&?). repeat split; lia.
Qed.

(** Slots are ordered: an earlier one ends before a later one begins. *)
Lemma slots_wf_order lo l (i j : nat) a b :
  slots_wf lo l → (i < j)%nat → l !! i = Some a → l !! j = Some b →
  slot_end a ≤ slot_addr b.
Proof.
  revert lo i j. induction l as [|x l IH]; intros lo i j Hwf Hij Ha Hb; [done|].
  destruct Hwf as (?&?&?&Hwf). destruct j as [|j]; [lia|].
  destruct i as [|i]; simpl in *.
  - injection Ha as ->. apply (slots_wf_bound _ _ b) in Hwf; [lia|].
    by eapply list_elem_of_lookup_2.
  - eapply (IH _ i j); try done. lia.
Qed.

Lemma slots_wf_keys lo l : slots_wf lo l → keys_sorted slot_addr l.
Proof.
  intros Hwf i j a b Hij Ha Hb.
  pose proof (slots_wf_order _ _ _ _ _ _ Hwf Hij Ha Hb).
  apply list_elem_of_lookup_2 in Ha. pose proof (slots_wf_bound _ _ _ Hwf Ha). lia.
Qed.

Lemma max_addr_end lo l s : 0 ≤ lo → slots_wf lo l → s ∈ l → max_addr s = slot_end s - 1.
Proof.
  intros Hlo Hwf Hs. destruct (slots_wf_bound _ _ _ Hwf Hs) as (?&?&?).
  unfold max_addr, slot_end in *. rewrite wrap_small; [lia|]. unfold in_u. lia.
Qed.

(** At most one slot covers an address. *)
Lemma covers_unique lo l (i j : nat) a b x :
  slots_wf lo l → l !! i = Some a → l !! j = Some b → covers a x → covers b x → i = j.
Proof.
  intros Hwf Ha Hb Hca Hcb. unfold covers in *.
  destruct (decide (i < j)%nat) as [Hij|Hij].
  { pose proof (slots_wf_order _ _ _ _ _ _ Hwf Hij Ha Hb). lia. }
  destruct (decide (j < i)%nat) as [Hji|Hji]; [|lia].
  pose proof (slots_wf_order _ _ _ _ _ _ Hwf Hji Hb Ha). lia.
Qed.

Lemma slots_end_take lo l (i : nat) s :
  l !! i = Some s → slots_end lo (take (S i) l) = slot_end s.
Proof.
  intros Hs. unfold slots_end. rewrite (take_S_r _ _ _ Hs), last_snoc. done.
Qed.

Lemma slots_wf_drop lo l (i : nat) lo' :
  slots_wf lo l → (∀ s, l !! i = Some s → lo' ≤ slot_addr s) → slots_wf lo' (drop i l).
Proof.
  intros Hwf Hlo. destruct (drop i l) as [|s l'] eqn:E; [done|].
  assert (l !! i = Some s) as Hs.
  { rewrite <- (Nat.add_0_r i), <- lookup_drop, E. done. }
  rewrite <- (take_drop i l), E in Hwf. apply slots_wf_app in Hwf as [_ Hwf].
  destruct Hwf as (?&?&?&?). split; [by apply Hlo|done].
Qed.

Lemma slots_wf_take lo l (i : nat) : slots_wf lo l → slots_wf lo (take i l).
Proof. intros Hwf. rewrite <- (take_drop i l) in Hwf. by apply slots_wf_app in Hwf as [??]. Qed.

Lemma slots_wf_NoDup lo l : slots_wf lo l → NoDup (slot_addr <$> l).
Proof.
  revert lo. induction l as [|s l IH]; intros lo Hwf; [constructor|].
  destruct Hwf as (?&?&?&Hwf). constructor; [|by eapply IH].
  intros (t & E & Ht)%list_elem_of_fmap_1.
  destruct (slots_wf_bound _ _ _ Hwf Ht) as (?&?&?). lia.
Qed.

(** ** The abstract address space: a finite map from start address to backend *)

Definition slots_map (l : list (Slot B)) : gmap Z B :=
  list_to_map ((λ s, (slot_addr s, slot_backend s)) <$> l).

Definition overlaps (s t : Slot B) : Prop :=
  slot_addr s < slot_end t ∧ slot_addr t < slot_end s.
#[global] Instance overlaps_dec s t : Decision (overlaps s t).
Proof. unfold overlaps. apply _. Defined.

(** The reference searches: the first slot that covers an address, the first
    slot that ends above it. *)
Definition search_ref (l : list (Slot B)) (a : Z) : option (Slot B) :=
  snd <$> list_find (λ s, covers s a) l.
Definition next_ref (l : list (Slot B)) (a : Z) : option (Slot B) :=
  snd <$> list_find (λ s, a < slot_end s) l.

Lemma slots_map_fst l : fst <$> ((λ s, (slot_addr s, slot_backend s)) <$> l) = slot_addr <$> l.
Proof. rewrite <- list_fmap_compose. done. Qed.

Lemma slots_map_perm lo l l' :
  slots_wf lo l → l ≡ₚ l' → slots_map l = slots_map l'.
Proof.
  intros Hwf HP. unfold slots_map. apply list_to_map_proper.
  - rewrite slots_map_fst. by eapply slots_wf_NoDup.
  - by rewrite HP.
Qed.

Lemma slots_map_lookup lo l s :
  slots_wf lo l → s ∈ l → slots_map l !! slot_addr s = Some (slot_backend s).
Proof.
  intros Hwf Hs. unfold slots_map. apply elem_of_list_to_map_1.
  - rewrite slots_map_fst. by eapply slots_wf_NoDup.
  - apply list_elem_of_fmap. by exists s.
Qed.

Lemma vec_insert_perm (i : nat) s l : vec_insert i s l ≡ₚ s :: l.
Proof.
  unfold vec_insert. rewrite <- Permutation_middle. by rewrite take_drop.
Qed.

Definition slot_fits (s : Slot B) : Prop :=
  0 ≤ slot_addr s ∧ slot_addr s < slot_end s ∧ slot_end s ≤ 2 ^ 64.

Lemma slot_fits_max s : slot_fits s → max_addr s = slot_end s - 1.
Proof.
  intros (?&?&?). unfold max_addr, slot_end in *. rewrite wrap_small; [lia|].
  unfold in_u. lia.
Qed.

Lemma Slot_new_spec addr b :
  in_u 64 addr → in_u 64 (slot_size b) →
  match Slot_new addr b with
  | Ok s => s = mkSlot addr b ∧ slot_fits s
  | Err ZeroSizedSlot => slot_size b = 0
  | Err (ExceedsLimit a z) =>
      a = addr ∧ z = slot_size b ∧ 0 < z ∧ 2 ^ 64 < addr + slot_size b
  | _ => False
  end.
Proof.
  intros [? ?] [? ?]. unfold Slot_new. destruct (Z.eqb_spec (slot_size b) 0); [done|].
  unfold U64_MAX. destruct (Z.leb_spec (slot_size b - 1 + addr) (2 ^ 64 - 1)).
  - split; [done|]. unfold slot_fits, slot_end. simpl. lia.
  - lia.
Qed.

(** The neighbours of the insertion point decide whether anything overlaps. *)
Lemma insert_neighbours lo l slot (index : nat) :
  0 ≤ lo → slots_wf lo l → slot_fits slot → lo ≤ slot_addr slot →
  bsearch_ok slot_addr l (slot_addr slot) (Insert index) →
  (∀ c, l !! index = Some c → slot_end slot ≤ slot_addr c) →
  (∀ (i : nat) p, index = S i → l !! i = Some p → slot_end p ≤ slot_addr slot) →
  slots_wf lo (vec_insert index slot l) ∧ ∀ c, c ∈ l → ¬ overlaps slot c.
Proof.
  intros Hlo Hwf (?&?&?) Hlos (Hlen & Hbelow & Habove) Hnext Hprev. split.
  - unfold vec_insert. apply slots_wf_app. split; [by apply slots_wf_take|].
    split; [|split; [done|split; [done|by eapply slots_wf_drop]]].
    unfold slots_end. destruct (last (take index l)) as [p|] eqn:E; [|done].
    apply last_Some in E as [l' E]. destruct index as [|i]; [by destruct l'|].
    destruct (lookup_lt_is_Some_2 l i) as [q Hq]; [lia|].
    rewrite (take_S_r _ _ _ Hq) in E. apply app_inj_2 in E as [_ [= ->]]; [|done].
    by apply (Hprev i).
  - intros c [j Hc]%list_elem_of_lookup_1 [Ho1 Ho2].
    destruct (decide (j < index)%nat) as [Hj|Hj].
    + destruct index as [|i]; [lia|].
      destruct (lookup_lt_is_Some_2 l i) as [q Hq]; [lia|].
      specialize (Hprev i q eq_refl Hq). destruct (decide (j = i)) as [->|]; [naive_solver lia|].
      pose proof (slots_wf_order _ _ j i _ _ Hwf ltac:(lia) Hc Hq).
      apply list_elem_of_lookup_2 in Hq. destruct (slots_wf_bound _ _ _ Hwf Hq). lia.
    + destruct (decide (j = index)) as [->|]; [specialize (Hnext _ Hc); lia|].
      destruct (lookup_lt_is_Some_2 l index) as [q Hq]; [apply lookup_lt_Some in Hc; lia|].
      specialize (Hnext _ Hq).
      pose proof (slots_wf_order _ _ index j _ _ Hwf ltac:(lia) Hq Hc).
      apply list_elem_of_lookup_2 in Hq. destruct (slots_wf_bound _ _ _ Hwf Hq). lia.
Qed.

Lemma add_position_spec lo l slot :
  0 ≤ lo → slots_wf lo l → slot_fits slot → lo ≤ slot_addr slot →
  match add_position l slot with
  | inl c => c ∈ l ∧ overlaps slot c
  | inr i => (i ≤ length l)%nat ∧ slots_wf lo (vec_insert i slot l) ∧
             ∀ c, c ∈ l → ¬ overlaps slot c
  end.
Proof.
  intros Hlo Hwf Hfit Hlos. unfold add_position, overlaps.
  pose proof (binary_search_ok slot_addr l (slot_addr slot) (slots_wf_keys _ _ Hwf)) as Hbs.
  pose proof (slot_fits_max _ Hfit) as Hmax.
  assert (∀ c, c ∈ l → slot_addr c < slot_end c) as Hne.
  { intros c Hc. by destruct (slots_wf_bound _ _ _ Hwf Hc) as (?&?&?). }
  destruct Hfit as (Hf0 & Hf1 & Hf2).
  destruct (binary_search_by_key _ _ _) as [index|index]; simpl in Hbs.
  { destruct Hbs as (c & Hc & Ek). rewrite Hc. apply list_elem_of_lookup_2 in Hc.
    specialize (Hne _ Hc). split; [done|]. lia. }
  cbn zeta. destruct (l !! index) as [c|] eqn:Hc; [destruct (Z.leb_spec (slot_addr c) (max_addr slot)) as [Hle|Hgt]|].
  { split; [by eapply list_elem_of_lookup_2|]. destruct Hbs as (_ & _ & Hab).
    specialize (Hab index c ltac:(lia) Hc).
    specialize (Hne c (list_elem_of_lookup_2 _ _ _ Hc)). lia. }
  all: destruct index as [|i].
  all: try (destruct (l !! i) as [p|] eqn:Hp).
  all: try (destruct (Z.leb_spec (slot_addr slot) (max_addr p)) as [Hle'|Hgt']).
  all: try (rewrite (max_addr_end lo l p Hlo Hwf (list_elem_of_lookup_2 _ _ _ Hp)) in *).
  all: try (split; [by eapply list_elem_of_lookup_2|];
            destruct Hbs as (_ & Hbl & _); specialize (Hbl i p ltac:(lia) Hp); lia).
  all: split; [apply Hbs|]; eapply insert_neighbours; try done.
  all: intros; simplify_eq; try lia.
Qed.

(** What [add] does, on every path. *)
Lemma add_outcome l addr b :
  Addressable_wf l → in_u 64 addr → in_u 64 (slot_size b) →
  let r := Addressable_add l addr b in
  Addressable_wf (fst r) ∧
  match snd r with
  | Ok i =>
      0 < slot_size b ∧ addr + slot_size b ≤ 2 ^ 64 ∧
      (∀ c, c ∈ l → ¬ overlaps (mkSlot addr b) c) ∧
      fst r = vec_insert i (mkSlot addr b) l ∧ (i ≤ length l)%nat
  | Err ZeroSizedSlot => fst r = l ∧ slot_size b = 0
  | Err (ExceedsLimit a z) =>
      fst r = l ∧ a = addr ∧ z = slot_size b ∧ 0 < z ∧ 2 ^ 64 < addr + slot_size b
  | Err (Overlap new old) =>
      fst r = l ∧ 0 < slot_size b ∧ addr + slot_size b ≤ 2 ^ 64 ∧
      new = (addr, addr + slot_size b - 1) ∧
      ∃ c, c ∈ l ∧ overlaps (mkSlot addr b) c ∧ old = (slot_addr c, slot_end c - 1)
  | _ => False
  end.
Proof.
  intros Hwf Ha Hz. cbn zeta. unfold Addressable_add.
  pose proof (Slot_new_spec addr b Ha Hz) as Hn.
  destruct (Slot_new addr b) as [s|e|]; [|by destruct e|done].
  destruct Hn as [-> Hfit]. pose proof (slot_fits_max _ Hfit) as Hmax.
  pose proof (add_position_spec 0 l _ ltac:(lia) Hwf Hfit (proj1 Hfit)) as Hp.
  destruct Hfit as (?&?&?). unfold slot_end in * |-. simpl in *.
  destruct (add_position l _) as [c|i]; simpl.
  - destruct Hp as [Hc Ho]. repeat (split; [done || lia|]).
    split; [f_equal; lia|]. exists c. repeat (split; [done|]).
    f_equal. by rewrite (max_addr_end 0 l).
  - destruct Hp as (?&?&?). repeat (split; [done || lia|]). done.
Qed.

Lemma slots_map_vec_insert lo l (i : nat) s :
  slots_wf lo (vec_insert i s l) →
  slots_map (vec_insert i s l) = <[slot_addr s := slot_backend s]> (slots_map l) ∧
  slots_map l !! slot_addr s = None.
Proof.
  intros Hwf. split.
  - rewrite (slots_map_perm lo _ (s :: l)); [done|done|apply vec_insert_perm].
  - apply not_elem_of_list_to_map_1. rewrite slots_map_fst.
    pose proof (slots_wf_NoDup _ _ Hwf) as Hnd.
    rewrite (vec_insert_perm i s l) in Hnd. by apply NoDup_cons_1_1 in Hnd.
Qed.

(** What [remove] does, on every path. *)
Lemma remove_outcome lo l addr :
  slots_wf lo l →
  let r := Addressable_remove l addr in
  match snd r with
  | Ok b => ∃ i : nat, l !! i = Some (mkSlot addr b) ∧ fst r = delete i l
  | Err (NotMapped a) => fst r = l ∧ a = addr ∧ ∀ s, s ∈ l → slot_addr s ≠ addr
  | _ => False
  end.
Proof.
  intros Hwf. cbn zeta. unfold Addressable_remove.
  pose proof (binary_search_ok slot_addr l addr (slots_wf_keys _ _ Hwf)) as Hbs.
  destruct (binary_search_by_key _ _ _) as [i|i]; simpl in Hbs.
  - destruct Hbs as ([a b] & Hs & Ek). rewrite Hs. simpl in *. subst. by exists i.
  - simpl. split; [done|]. split; [done|].
    intros s [j Hs]%list_elem_of_lookup_1. destruct Hbs as (_ & Hb & Hab).
    destruct (decide (j < i)%nat); [specialize (Hb j s)|specialize (Hab j s)];
      naive_solver lia.
Qed.

Lemma slots_wf_delete lo l (i : nat) : slots_wf lo l → slots_wf lo (delete i l).
Proof.
  intros Hwf. rewrite delete_take_drop. apply slots_wf_app. split; [by apply slots_wf_take|].
  eapply slots_wf_drop; [done|]. intros s Hs. unfold slots_end.
  destruct (last (take i l)) as [p|] eqn:E.
  - apply last_Some in E as [l' E].
    assert (p ∈ take i l) as Hp by (rewrite E; set_solver).
    apply list_elem_of_lookup_1 in Hp as [j Hj].
    apply lookup_take_Some in Hj as [Hj Hlt].
    eapply slots_wf_order; [done| |done|done]. lia.
  - eapply slots_wf_bound; [done|]. by eapply list_elem_of_lookup_2.
Qed.

Lemma slots_map_delete lo l (i : nat) s :
  slots_wf lo l → l !! i = Some s →
  slots_map (delete i l) = delete (slot_addr s) (slots_map l).
Proof.
  intros Hwf Hs.
  assert (l ≡ₚ s :: delete i l) as HP by (by apply delete_Permutation).
  rewrite (slots_map_perm lo l _ Hwf HP). change (slots_map (s :: delete i l)) with
    (<[slot_addr s := slot_backend s]> (slots_map (delete i l))).
  rewrite delete_insert_id; [done|]. apply not_elem_of_list_to_map_1.
  rewrite slots_map_fst. pose proof (slots_wf_NoDup _ _ Hwf) as Hnd.
  rewrite HP in Hnd. by apply NoDup_cons_1_1 in Hnd.
Qed.

(** Deleting what was just inserted. *)
Lemma delete_vec_insert (i : nat) s l : (i ≤ length l)%nat → delete i (vec_insert i s l) = l.
Proof.
  intros Hi. unfold vec_insert. rewrite delete_take_drop.
  rewrite take_app_le by (rewrite length_take; lia).
  rewrite take_take, Nat.min_id.
  replace (S i) with (length (take i l) + 1)%nat by (rewrite length_take; lia).
  rewrite drop_app_add. cbn [drop]. by rewrite drop_0, take_drop.
Qed.

(** ** Searching *)

Lemma search_Some lo l a s :
  0 ≤ lo → slots_wf lo l → s ∈ l → covers s a →
  Addressable_search l a = Some (slot_addr s, slot_backend s).
Proof.
  intros Hlo Hwf [j Hs]%list_elem_of_lookup_1 [Hc1 Hc2]. unfold Addressable_search.
  pose proof (binary_search_ok slot_addr l a (slots_wf_keys _ _ Hwf)) as Hbs.
  destruct (binary_search_by_key _ _ _) as [i|[|i]]; simpl in Hbs.
  - destruct Hbs as (c & Hc & Ek). rewrite Hc. simpl.
    assert (covers c a).
    { split; [lia|]. apply list_elem_of_lookup_2 in Hc.
      destruct (slots_wf_bound _ _ _ Hwf Hc). lia. }
    rewrite (covers_unique _ _ j i s c a Hwf Hs Hc) in Hs by done. by simplify_eq.
  - destruct Hbs as (_ & _ & Hab). specialize (Hab j s ltac:(lia) Hs). lia.
  - destruct Hbs as (Hlen & Hb & Hab).
    destruct (decide (S i ≤ j)%nat) as [Hj|Hj]; [specialize (Hab j s Hj Hs); lia|].
    destruct (lookup_lt_is_Some_2 l i) as [c Hc]; [lia|]. rewrite Hc.
    destruct (decide (j = i)) as [->|Hne].
    + rewrite Hs in Hc. injection Hc as <-.
      rewrite (max_addr_end _ _ _ Hlo Hwf (list_elem_of_lookup_2 _ _ _ Hs)).
      destruct (Z.leb_spec a (slot_end s - 1)); [done|lia].
    + pose proof (slots_wf_order _ _ j i _ _ Hwf ltac:(lia) Hs Hc).
      specialize (Hb i c ltac:(lia) Hc). lia.
Qed.

Lemma search_inv lo l a p :
  0 ≤ lo → slots_wf lo l → Addressable_search l a = Some p →
  ∃ s, s ∈ l ∧ covers s a ∧ p = (slot_addr s, slot_backend s).
Proof.
  intros Hlo Hwf. unfold Addressable_search.
  pose proof (binary_search_ok slot_addr l a (slots_wf_keys _ _ Hwf)) as Hbs.
  destruct (binary_search_by_key _ _ _) as [i|[|i]]; simpl in Hbs; [|done|].
  - destruct Hbs as (c & Hc & Ek). rewrite Hc. intros [= <-]. exists c.
    apply list_elem_of_lookup_2 in Hc. destruct (slots_wf_bound _ _ _ Hwf Hc).
    split; [done|]. split; [unfold covers; lia|done].
  - destruct Hbs as (Hlen & Hb & Hab).
    destruct (lookup_lt_is_Some_2 l i) as [c Hc]; [lia|]. rewrite Hc.
    pose proof (list_elem_of_lookup_2 _ _ _ Hc) as Hin.
    rewrite (max_addr_end _ _ _ Hlo Hwf Hin).
    destruct (Z.leb_spec a (slot_end c - 1)); [|done]. intros [= <-].
    exists c. split; [done|]. split; [|done].
    specialize (Hb i c ltac:(lia) Hc). unfold covers. lia.
Qed.

Lemma search_ref_equiv lo l a :
  0 ≤ lo → slots_wf lo l →
  Addressable_search l a = (λ s, (slot_addr s, slot_backend s)) <$> search_ref l a.
Proof.
  intros Hlo Hwf. unfold search_ref. destruct (list_find _ l) as [[i s]|] eqn:E; simpl.
  - apply list_find_Some in E as (Hs & Hc & _).
    eapply search_Some; try done. by eapply list_elem_of_lookup_2.
  - apply list_find_None in E. destruct (Addressable_search l a) as [p|] eqn:Es; [|done].
    apply (search_inv lo) in Es as (s & Hs & Hc & _); [|done..].
    rewrite Forall_forall in E. by destruct (E s Hs).
Qed.

Lemma next_ref_intro l a (i : nat) s :
  l !! i = Some s → a < slot_end s →
  (∀ (j : nat) c, (j < i)%nat → l !! j = Some c → slot_end c ≤ a) →
  next_ref l a = Some s.
Proof.
  intros Hs Hlt Hbefore. unfold next_ref.
  destruct (list_find (λ s, a < slot_end s) l) as [[k t]|] eqn:E; simpl.
  - apply list_find_Some in E as (Ht & Hl & Hfst). f_equal.
    destruct (decide (k = i)) as [->|Hne]; [naive_solver|].
    destruct (decide (k < i)%nat); [specialize (Hbefore k t); naive_solver lia|].
    specialize (Hfst i s Hs ltac:(lia)). lia.
  - apply list_find_None in E. rewrite Forall_forall in E.
    destruct (E s); [by eapply list_elem_of_lookup_2|done].
Qed.

Lemma next_ref_none l a :
  (∀ (j : nat) c, l !! j = Some c → slot_end c ≤ a) → next_ref l a = None.
Proof.
  intros Hall. unfold next_ref. destruct (list_find _ l) as [[k t]|] eqn:E; [|done].
  apply list_find_Some in E as (Ht & Hl & _). specialize (Hall k t Ht). lia.
Qed.

Lemma slots_wf_head lo s0 l s :
  slots_wf lo (s0 :: l) → s ∈ s0 :: l → slot_addr s0 ≤ slot_addr s.
Proof.
  intros (?&?&?&Hwf) [->|Hs]%elem_of_cons; [lia|].
  destruct (slots_wf_bound _ _ _ Hwf Hs). lia.
Qed.

(** Nothing is found below the first slot; above it, the next slot that ends
    past the address. *)
Lemma search_next_equiv lo l a :
  0 ≤ lo → slots_wf lo l →
  Addressable_search_next l a =
    match l with
    | [] => None
    | s0 :: _ =>
        if decide (a < slot_addr s0) then None
        else (λ s, (slot_addr s, slot_backend s)) <$> next_ref l a
    end.
Proof.
  intros Hlo Hwf. unfold Addressable_search_next.
  pose proof (binary_search_ok slot_addr l a (slots_wf_keys _ _ Hwf)) as Hbs.
  assert (∀ s, s ∈ l → slot_addr s < slot_end s) as Hne.
  { intros s Hs. by destruct (slots_wf_bound _ _ _ Hwf Hs) as (?&?&?). }
  destruct l as [|s0 l'] eqn:El; [done|]. rewrite <- El in *.
  assert (∀ s, s ∈ l → slot_addr s0 ≤ slot_addr s) as Hhd.
  { intros s Hs. rewrite El in Hwf, Hs. by eapply slots_wf_head. }
  destruct (binary_search_by_key _ _ _) as [i|[|i]]; simpl in Hbs.
  - destruct Hbs as (c & Hc & Ek). rewrite Hc. simpl.
    pose proof (list_elem_of_lookup_2 _ _ _ Hc) as Hin.
    specialize (Hne c Hin). specialize (Hhd _ Hin). rewrite decide_False by lia.
    rewrite (next_ref_intro l a i c); [done|done|lia|]. intros j d Hj Hd.
    pose proof (slots_wf_order _ _ j i _ _ Hwf Hj Hd Hc). lia.
  - destruct Hbs as (_ & _ & Hab). rewrite decide_True; [done|].
    apply (Hab 0%nat); [lia|by rewrite El].
  - destruct Hbs as (Hlen & Hb & Hab).
    destruct (lookup_lt_is_Some_2 l i) as [c Hc]; [lia|]. rewrite Hc.
    pose proof (list_elem_of_lookup_2 _ _ _ Hc) as Hin.
    rewrite (max_addr_end _ _ _ Hlo Hwf Hin). specialize (Hb i c ltac:(lia) Hc) as Hci.
    specialize (Hhd _ Hin). rewrite decide_False by lia.
    assert (∀ (j : nat) d, (j < i)%nat → l !! j = Some d → slot_end d ≤ a) as Hbef.
    { intros j d Hj Hd. pose proof (slots_wf_order _ _ j i _ _ Hwf Hj Hd Hc). lia. }
    destruct (Z.leb_spec a (slot_end c - 1)).
    { rewrite (next_ref_intro l a i c); [done|done|lia|done]. }
    assert (∀ (j : nat) d, (j < S i)%nat → l !! j = Some d → slot_end d ≤ a) as Hbef'.
    { intros j d Hj Hd. destruct (decide (j = i)) as [->|]; [naive_solver lia|].
      apply (Hbef j); [lia|done]. }
    destruct (l !! S i) as [d|] eqn:Hd; simpl.
    + rewrite (next_ref_intro l a (S i) d); [done|done| |done].
      specialize (Hab (S i) d ltac:(lia) Hd).
      specialize (Hne d (list_elem_of_lookup_2 _ _ _ Hd)). lia.
    + rewrite next_ref_none; [done|]. intros j e He. apply (Hbef' j); [|done].
      apply lookup_ge_None in Hd. apply lookup_lt_Some in He. lia.
Qed.

(** The slot a search returns is the one the map holds, and the address lies
    inside it. *)
Lemma search_bounds l a start b :
  Addressable_wf l → Addressable_search l a = Some (start, b) →
  start ≤ a < start + slot_size b ∧ slots_map l !! start = Some b.
Proof.
  intros Hwf Hs. apply (search_inv 0) in Hs as (s & Hin & Hc & [= -> ->]); [|done..].
  split; [done|]. by eapply slots_map_lookup.
Qed.
End Addressable.

Arguments Addressable_wf {B _} _ /.

(** ** The specification: an address space as a finite map *)

Module AddressSpec.
Section Spec.
Context {B : Type} `{SlotBackend B}.

Definition free (m : gmap Z B) (addr : Z) (b : B) : Prop :=
  map_Forall (λ a b', ¬ overlaps (mkSlot addr b) (mkSlot a b')) m.
#[global] Instance free_dec m addr b : Decision (free m addr b).
Proof. unfold free. apply _. Defined.

Definition add (m : gmap Z B) (addr : Z) (b : B) : gmap Z B * bool :=
  if decide (0 < slot_size b ∧ addr + slot_size b ≤ 2 ^ 64 ∧ free m addr b)
  then (<[addr := b]> m, true) else (m, false).

Definition remove (m : gmap Z B) (addr : Z) : gmap Z B * option B :=
  (delete addr m, m !! addr).

(** The backend whose interval holds the address. *)
Definition owns (m : gmap Z B) (a start : Z) (b : B) : Prop :=
  m !! start = Some b ∧ start ≤ a < start + slot_size b.
End Spec.
End AddressSpec.

Section Refinement.
Context {B : Type} `{SlotBackend B}.
Implicit Types (l : list (Slot B)) (s : Slot B).

Lemma slots_map_inv l a b : slots_map l !! a = Some b → mkSlot a b ∈ l.
Proof.
  intros Hl. apply elem_of_list_to_map_2, list_elem_of_fmap_1 in Hl as ([a' b'] & E & Hs).
  simpl in E. by simplify_eq.
Qed.

Lemma free_spec lo l addr b :
  slots_wf lo l →
  AddressSpec.free (slots_map l) addr b ↔ ∀ c, c ∈ l → ¬ overlaps (mkSlot addr b) c.
Proof.
  intros Hwf. unfold AddressSpec.free. split.
  - intros Hf [a b'] Hc. apply Hf. by apply (slots_map_lookup lo _ (mkSlot a b')).
  - intros Hall a b' Hl. apply Hall. by apply slots_map_inv.
Qed.

Lemma add_refines l addr b :
  Addressable_wf l → in_u 64 addr → in_u 64 (slot_size b) →
  let r := Addressable_add l addr b in
  Addressable_wf (fst r) ∧
  (slots_map (fst r), is_ok (snd r)) = AddressSpec.add (slots_map l) addr b.
Proof.
  intros Hwf Ha Hz. cbn zeta. pose proof (add_outcome l addr b Hwf Ha Hz) as [Hwf' Ho].
  split; [done|]. unfold AddressSpec.add.
  destruct (snd (Addressable_add l addr b)) as [i|e|]; [|destruct e; try done|done].
  - destruct Ho as (?&?&Hfree&E&_). rewrite E in *.
    rewrite decide_True by (rewrite (free_spec 0) by done; done).
    by rewrite (proj1 (slots_map_vec_insert 0 l i _ Hwf')).
  - destruct Ho as [-> ?]. rewrite decide_False by lia. done.
  - destruct Ho as (-> & _ & -> & ?&?). rewrite decide_False by lia. done.
  - destruct Ho as (-> & ? & ? & _ & c & Hc & Hov & _).
    rewrite decide_False; [done|]. intros (_ & _ & Hf).
    rewrite (free_spec 0) in Hf by done. by apply (Hf c).
Qed.

Lemma remove_refines l addr :
  Addressable_wf l →
  let r := Addressable_remove l addr in
  Addressable_wf (fst r) ∧
  slots_map (fst r) = fst (AddressSpec.remove (slots_map l) addr) ∧
  match snd (AddressSpec.remove (slots_map l) addr) with
  | Some b => snd r = Ok b
  | None => fst r = l ∧ snd r = Err (NotMapped addr)
  end.
Proof.
  intros Hwf. cbn zeta. pose proof (remove_outcome 0 l addr Hwf) as Ho. cbn zeta in Ho.
  simpl. destruct (snd (Addressable_remove l addr)) as [b|e|]; [|destruct e; try done|done].
  - destruct Ho as (i & Hi & ->). split; [by apply slots_wf_delete|].
    pose proof (list_elem_of_lookup_2 _ _ _ Hi) as Hin.
    rewrite (slots_map_delete 0 l i (mkSlot addr b)) by done.
    rewrite (slots_map_lookup 0 _ (mkSlot addr b)) by done. done.
  - destruct Ho as (-> & -> & Hne). split; [done|].
    destruct (slots_map l !! addr) as [b|] eqn:E.
    { apply slots_map_inv in E. by destruct (Hne _ E). }
    split; [by rewrite delete_id|done].
Qed.

(** ** Runs of operations *)

Inductive addr_op := OpAdd (addr : Z) (backend : B) | OpRemove (addr : Z).

Definition op_typed (o : addr_op) : Prop :=
  match o with
  | OpAdd addr b => in_u 64 addr ∧ in_u 64 (slot_size b)
  | OpRemove addr => in_u 64 addr
  end.

Definition run_op (l : list (Slot B)) (o : addr_op) : list (Slot B) :=
  match o with
  | OpAdd addr b => fst (Addressable_add l addr b)
  | OpRemove addr => fst (Addressable_remove l addr)
  end.

Definition spec_op (m : gmap Z B) (o : addr_op) : gmap Z B :=
  match o with
  | OpAdd addr b => fst (AddressSpec.add m addr b)
  | OpRemove addr => fst (AddressSpec.remove m addr)
  end.

Lemma run_op_refines l o :
  Addressable_wf l → op_typed o →
  Addressable_wf (run_op l o) ∧ slots_map (run_op l o) = spec_op (slots_map l) o.
Proof.
  intros Hwf Ht. destruct o as [addr b|addr]; simpl.
  - destruct (add_refines l addr b Hwf (proj1 Ht) (proj2 Ht)) as [? E]. split; [done|].
    by rewrite <- E.
  - destruct (remove_refines l addr Hwf) as (?&?&_). done.
Qed.
End Refinement.

(** ** Membership in a slot list *)

Section Buses.
Context {B : Type} `{SlotBackend B}.
Implicit Types (l : list (Slot B)) (s : Slot B).

Lemma bus_add_ok l l' addr b i :
  Addressable_wf l → in_u 64 addr → in_u 64 (slot_size b) →
  Addressable_add l addr b = (l', Ok i) →
  Addressable_wf l' ∧ 0 < slot_size b ∧ addr + slot_size b ≤ 2 ^ 64 ∧
  ∀ s, s ∈ l' ↔ s = mkSlot addr b ∨ s ∈ l.
Proof.
  intros Hwf Ha Hz E. pose proof (add_outcome l addr b Hwf Ha Hz) as Ho.
  rewrite E in Ho. cbn [fst snd] in Ho. destruct Ho as (?&?&?&_&->&_).
  repeat (split; [done|]). intros s. rewrite vec_insert_perm. apply elem_of_cons.
Qed.

Lemma bus_remove_ok l l' addr b :
  Addressable_wf l → Addressable_remove l addr = (l', Ok b) →
  Addressable_wf l' ∧ mkSlot addr b ∈ l ∧ ∀ s, s ∈ l' ↔ s ∈ l ∧ slot_addr s ≠ addr.
Proof.
  intros Hwf E. pose proof (remove_outcome 0 l addr Hwf) as Ho.
  rewrite E in Ho. cbn [fst snd] in Ho. destruct Ho as (i & Hi & ->).
  split; [by apply slots_wf_delete|]. split; [by eapply list_elem_of_lookup_2|].
  pose proof (slots_wf_NoDup _ _ Hwf) as Hnd. rewrite (delete_Permutation _ _ _ Hi) in Hnd.
  apply NoDup_cons in Hnd as [Hni _]. intros s.
  assert (s ∈ l ↔ s = mkSlot addr b ∨ s ∈ delete i l) as ->.
  { by rewrite (delete_Permutation _ _ _ Hi) at 1; rewrite elem_of_cons. }
  split; [|naive_solver]. intros Hs. split; [by right|]. intros E'. apply Hni.
  apply list_elem_of_fmap. by exists s.
Qed.

(** An addition that overlaps nothing succeeds. *)
Lemma bus_add_total l addr b :
  Addressable_wf l → in_u 64 addr → in_u 64 (slot_size b) →
  0 < slot_size b → addr + slot_size b ≤ 2 ^ 64 →
  (∀ c, c ∈ l → ¬ overlaps (mkSlot addr b) c) →
  ∃ l' i, Addressable_add l addr b = (l', Ok i).
Proof.
  intros Hwf Ha Hz Hpos Hend Hfree. pose proof (add_outcome l addr b Hwf Ha Hz) as [_ Ho].
  destruct (Addressable_add l addr b) as [l' [i|e|]]; simpl in Ho; [by eexists _, _| |done].
  destruct e; try done; [lia|lia|]. destruct Ho as (_&_&_&_&c&Hc&Hov&_). by destruct (Hfree c).
Qed.

Lemma bus_remove_total l s :
  Addressable_wf l → s ∈ l → ∃ l' b, Addressable_remove l (slot_addr s) = (l', Ok b).
Proof.
  intros Hwf Hs. pose proof (remove_outcome 0 l (slot_addr s) Hwf) as Ho. cbn zeta in Ho.
  destruct (Addressable_remove l (slot_addr s)) as [l' [b|e|]]; simpl in Ho; [by eexists _, _| |done].
  destruct e; try done. destruct Ho as (_ & _ & Hne). by destruct (Hne s Hs).
Qed.

(** Well-formed slot lists with the same slots are the same list. *)
Lemma slots_wf_ext lo lo' l l' :
  slots_wf lo l → slots_wf lo' l' → (∀ s, s ∈ l ↔ s ∈ l') → l = l'.
Proof.
  revert lo lo' l'. induction l as [|x l IH]; intros lo lo' [|y l'] Hwf Hwf' He.
  - done.
  - exfalso. apply (elem_of_nil y), He. constructor.
  - exfalso. apply (elem_of_nil x), He. constructor.
  - assert (x = y) as <-.
    { pose proof (slots_wf_head _ _ _ y Hwf (proj2 (He y) ltac:(constructor))) as H1.
      pose proof (slots_wf_head _ _ _ x Hwf' (proj1 (He x) ltac:(constructor))) as H2.
      assert (slot_addr x = slot_addr y) as E by lia.
      pose proof (proj2 (He y) ltac:(constructor)) as Hy.
      apply elem_of_cons in Hy as [->|Hy]; [done|]. exfalso.
      pose proof (slots_wf_NoDup _ _ Hwf) as Hnd. apply NoDup_cons in Hnd as [Hn _].
      apply Hn. apply list_elem_of_fmap. by exists y. }
    f_equal. destruct Hwf as (?&?&?&Hwf), Hwf' as (?&?&?&Hwf').
    apply (IH _ _ _ Hwf Hwf'). intros s. specialize (He s). rewrite !elem_of_cons in He.
    split; intros Hs.
    + destruct (proj1 He (or_intror Hs)) as [->|]; [|done].
      destruct (slots_wf_bound _ _ _ Hwf Hs). lia.
    + destruct (proj2 He (or_intror Hs)) as [->|]; [|done].
      destruct (slots_wf_bound _ _ _ Hwf' Hs). lia.
Qed.
End Buses.

(** ** Properties *)

(** C1: a sequence of [add] and [remove] calls on a new address space keeps it
    well formed (slots non-empty, sorted, pairwise disjoint, within 64 bits) and
    holds the same backends at the same addresses as the finite-map
    specification run on the same sequence. *)
Theorem addressable_runs_refine {B : Type} `{SlotBackend B} (ops : list addr_op) :
  Forall op_typed ops →
  Addressable_wf (foldl run_op Addressable_new ops) ∧
  slots_map (foldl run_op Addressable_new ops) = foldl spec_op ∅ ops.
Proof.
  assert (∀ l m, Addressable_wf l → slots_map l = m → Forall op_typed ops →
    Addressable_wf (foldl run_op l ops) ∧ slots_map (foldl run_op l ops) = foldl spec_op m ops)
    as Hgen; [|by apply Hgen].
  induction ops as [|o ops IH]; intros l m Hwf Hm Hops; [done|].
  apply Forall_cons_1 in Hops as [Ho Hops]. simpl. subst m.
  destruct (run_op_refines l o Hwf Ho) as [Hwf' E]. by apply IH.
Qed.

#[local] Instance size_backend : SlotBackend Z := λ z, z.

Lemma addressable_runs_refine_witness :
  slots_map (foldl run_op Addressable_new
    [OpAdd 0x1000 0x1000; OpAdd 0x2000 0x2000; OpAdd 0x1800 0x10; OpRemove 0x1000])
  = foldl spec_op ∅
    [OpAdd 0x1000 0x1000; OpAdd 0x2000 0x2000; OpAdd 0x1800 0x10; OpRemove 0x1000].
Proof.
  refine (proj2 (addressable_runs_refine _ _)).
  repeat constructor; by_eval.
Defined.

(** C2: [add] on every path.  It succeeds exactly when the range is non-empty,
    ends within 64 bits and overlaps no slot, and then inserts just that slot;
    otherwise the slots are untouched and the error says which condition failed,
    with the first and last address of both ranges for an overlap. *)
Theorem addressable_add_outcome {B : Type} `{SlotBackend B} (l : list (Slot B)) addr b :
  Addressable_wf l → in_u 64 addr → in_u 64 (slot_size b) →
  match Addressable_add l addr b with
  | (l', Ok i) =>
      0 < slot_size b ∧ addr + slot_size b ≤ 2 ^ 64 ∧
      (∀ c, c ∈ l → ¬ overlaps (mkSlot addr b) c) ∧
      l' !! i = Some (mkSlot addr b) ∧ delete i l' = l
  | (l', Err ZeroSizedSlot) => l' = l ∧ slot_size b = 0
  | (l', Err (ExceedsLimit a z)) =>
      l' = l ∧ a = addr ∧ z = slot_size b ∧ 2 ^ 64 < addr + slot_size b
  | (l', Err (Overlap new old)) =>
      l' = l ∧ new = (addr, addr + slot_size b - 1) ∧
      ∃ c, c ∈ l ∧ overlaps (mkSlot addr b) c ∧ old = (slot_addr c, slot_end c - 1)
  | _ => False
  end.
Proof.
  intros Hwf Ha Hz. pose proof (add_outcome l addr b Hwf Ha Hz) as [_ Ho].
  destruct (Addressable_add l addr b) as [l' [i|e|]]; simpl in *; [|destruct e; naive_solver|done].
  destruct Ho as (?&?&?&->&?). repeat (split; [done|]). split; [|by apply delete_vec_insert].
  unfold vec_insert. rewrite lookup_app_r; rewrite length_take; [|lia].
  by replace (i - i `min` length l)%nat with 0%nat by lia.
Qed.

Lemma addressable_add_outcome_witness :
  ∃ c, c ∈ [mkSlot 0x1000 0x1000; mkSlot 0x5000 0x1000] ∧
       overlaps (mkSlot 0x4000 0x1001) c ∧ (0x5000, 0x5fff) = (slot_addr c, slot_end c - 1).
Proof.
  refine (proj2 (proj2 (addressable_add_outcome
    [mkSlot 0x1000 0x1000; mkSlot 0x5000 0x1000] 0x4000 0x1001 _ _ _))); by_eval.
Defined.

(** C3: [search] (binary search and one bounds test) returns the same slot as a
    linear scan for a slot covering the address. *)
Theorem addressable_search_equiv {B : Type} `{SlotBackend B} (l : list (Slot B)) a :
  Addressable_wf l →
  Addressable_search l a = (λ s, (slot_addr s, slot_backend s)) <$> search_ref l a.
Proof. intros Hwf. by apply (search_ref_equiv 0). Qed.

Lemma addressable_search_equiv_witness :
  Addressable_search [mkSlot 0x1000 0x1000; mkSlot 0x5000 0x1000] 0x5fff = Some (0x5000, 0x1000).
Proof.
  rewrite (addressable_search_equiv [mkSlot 0x1000 0x1000; mkSlot 0x5000 0x1000] 0x5fff).
  - reflexivity.
  - by_eval.
Defined.

(** [search_next] returns the first slot that ends above the address, but
    nothing at all when the address lies below the first slot, although a slot
    follows it. *)
Theorem addressable_search_next_below {B : Type} `{SlotBackend B} (l : list (Slot B)) a s0 :
  Addressable_wf l → head l = Some s0 →
  Addressable_search_next l a =
    if decide (a < slot_addr s0) then None
    else (λ s, (slot_addr s, slot_backend s)) <$> next_ref l a.
Proof.
  intros Hwf Hh. rewrite (search_next_equiv 0) by done. destruct l; [done|].
  simpl in Hh. by simplify_eq.
Qed.

Lemma addressable_search_next_below_witness :
  Addressable_search_next [mkSlot 0x1000 0x1000; mkSlot 0x5000 0x1000] 0x0 = None ∧
  Addressable_search_next [mkSlot 0x1000 0x1000; mkSlot 0x5000 0x1000] 0x3000
    = Some (0x5000, 0x1000).
Proof.
  split.
  - rewrite (addressable_search_next_below _ 0x0 (mkSlot 0x1000 0x1000)); [done|by_eval|done].
  - rewrite (addressable_search_next_below _ 0x3000 (mkSlot 0x1000 0x1000)); [done|by_eval|done].
Defined.
