(* ===== verification/Emulated.v ===== *)
(** * Memory-mapped devices and the MMIO bus: mem/emulated.rs

    A device is reached through a handle ([Arc<dyn Mmio>], [Box<dyn PciCap>]) and
    keeps its state behind interior mutability.  [Mmio W R C] is that trait: [R]
    is the handle, [W] the state all devices share, [C] the type of the
    [ChangeLayout] callbacks a write may return. *)

From S2P Require Import Prelude Utils MemTypes Addressable.

Inductive Action (C : Type) : Type :=
| ActNone
| ActShutdown
| ActReset
| ActChangeLayout (callback : C).
Arguments ActNone {C}.
Arguments ActShutdown {C}.
Arguments ActReset {C}.
Arguments ActChangeLayout {C} _.

(** The trait [Mmio]. *)
Class Mmio (W R C : Type) := {
  mmio_size : R → Z;
  mmio_read : R → Z → Z → W → W * outcome mem_error Z;
  mmio_write : R → Z → Z → Z → W → W * outcome mem_error (Action C)
}.

(** ** [impl_mmio_for_zerocopy!]: a read-only struct seen as its bytes *)

(** [T::read_from_prefix] for an [n]-byte integer. *)
Definition read_from_prefix (n : nat) (bytes : list Z) : option Z :=
  if (length bytes <? n)%nat then None else Some (le_val (take n bytes)).

(** [bytes.get(offset..)] *)
Definition bytes_get_from (bytes : list Z) (offset : Z) : option (list Z) :=
  if offset <=? Z.of_nat (length bytes) then Some (drop (Z.to_nat offset) bytes) else None.

Definition zerocopy_read (bytes : list Z) (offset size : Z) : Z :=
  let val :=
    if size =? 1 then bytes !! Z.to_nat offset
    else if size =? 2 then bytes_get_from bytes offset ≫= read_from_prefix 2
    else if size =? 4 then bytes_get_from bytes offset ≫= read_from_prefix 4
    else if size =? 8 then bytes_get_from bytes offset ≫= read_from_prefix 8
    else None in
  default 0 val.

Lemma zerocopy_read_in bytes offset (n : nat) :
  n ∈ [1; 2; 4; 8]%nat → 0 ≤ offset → offset + Z.of_nat n ≤ Z.of_nat (length bytes) →
  zerocopy_read bytes offset (Z.of_nat n) = le_val (take n (drop (Z.to_nat offset) bytes)).
Proof.
  intros Hn Ho Hl. unfold zerocopy_read.
  assert (bytes_get_from bytes offset = Some (drop (Z.to_nat offset) bytes)) as Hg.
  { unfold bytes_get_from. destruct (Z.leb_spec offset (Z.of_nat (length bytes))); [done|lia]. }
  assert (read_from_prefix n (drop (Z.to_nat offset) bytes)
    = Some (le_val (take n (drop (Z.to_nat offset) bytes)))) as Hr.
  { unfold read_from_prefix. rewrite length_drop.
    destruct (Nat.ltb_spec (length bytes - Z.to_nat offset) n); [lia|done]. }
  rewrite !Hg. repeat (apply elem_of_cons in Hn as [->|Hn]); [| | | |by apply elem_of_nil in Hn];
    cbn [Z.of_nat Pos.of_succ_nat Pos.succ Z.eqb Pos.eqb mbind option_bind]; [|by rewrite Hr..].
  destruct (drop (Z.to_nat offset) bytes) as [|b bs] eqn:E.
  { apply (f_equal length) in E. rewrite length_drop in E. simpl in E. lia. }
  assert (bytes !! Z.to_nat offset = Some b) as ->.
  { rewrite <- (Nat.add_0_r (Z.to_nat offset)), <- lookup_drop, E. done. }
  simpl. lia.
Qed.

Lemma zerocopy_read_out bytes offset size :
  0 ≤ offset → 0 ≤ size → Z.of_nat (length bytes) < offset + size →
  zerocopy_read bytes offset size = 0.
Proof.
  intros Ho Hs Hl. unfold zerocopy_read, bytes_get_from, read_from_prefix.
  repeat match goal with |- context [?a =? ?b] => destruct (Z.eqb_spec a b); [subst size|] end;
    [..|done].
  { by rewrite lookup_ge_None_2 by lia. }
  all: destruct (Z.leb_spec offset (Z.of_nat (length bytes))); [|done].
  all: cbn [mbind option_bind]; rewrite length_drop.
  all: case_match eqn:E; [done|]; apply Nat.ltb_ge in E; lia.
Qed.

Lemma zerocopy_read_in_u bytes offset size :
  Forall (in_u 8) bytes → 0 ≤ offset → in_u 64 (zerocopy_read bytes offset size).
Proof.
  intros Hb Ho. unfold zerocopy_read.
  assert (∀ n bs, (n ≤ 8)%nat → Forall (in_u 8) bs → in_u 64 (default 0 (read_from_prefix n bs))) as Hp.
  { intros n bs Hn Hbs. unfold read_from_prefix. case_match eqn:E; simpl; [unfold in_u; lia|].
    apply Nat.ltb_ge in E. apply (in_u_mono (8 * Z.of_nat n)); [lia|].
    replace n with (length (take n bs)) at 1 by (rewrite length_take; lia).
    apply le_val_in_u. by apply Forall_take. }
  assert (∀ n, (n ≤ 8)%nat →
    in_u 64 (default 0 (bytes_get_from bytes offset ≫= read_from_prefix n))) as Hg.
  { intros n Hn. unfold bytes_get_from. case_match; cbn [mbind option_bind].
    - apply Hp; [done|]. by apply Forall_drop.
    - simpl. unfold in_u. lia. }
  repeat case_match; try (apply Hg; lia); [|simpl; unfold in_u; lia].
  destruct (bytes !! _) as [b|] eqn:E; simpl; [|unfold in_u; lia].
  apply (in_u_mono 8); [lia|]. by eapply Forall_lookup_1.
Qed.

(** ** [MmioBus<R>] *)

Section MmioBus.
Context {W R C : Type} `{Mmio W R C}.

#[global] Instance mmio_slot_backend : SlotBackend R := mmio_size.

Definition MmioBus_new : list (Slot R) := Addressable_new.

Definition MmioBus_is_empty (bus : list (Slot R)) : bool := Addressable_is_empty bus.

Definition MmioBus_add (bus : list (Slot R)) (addr : Z) (range : R)
  : list (Slot R) * outcome mem_error unit :=
  let r := Addressable_add bus addr range in (fst r, (λ _, tt) <$> snd r).

Definition MmioBus_remove (bus : list (Slot R)) (addr : Z)
  : list (Slot R) * outcome mem_error R := Addressable_remove bus addr.

Definition MmioBus_read (bus : list (Slot R)) (addr size : Z) (w : W)
  : W * outcome mem_error Z :=
  match Addressable_search bus addr with
  | Some (start, dev) => mmio_read dev (addr - start) size w
  | None => (w, Ok U64_MAX)
  end.

Definition MmioBus_write (bus : list (Slot R)) (addr size val : Z) (w : W)
  : W * outcome mem_error (Action C) :=
  match Addressable_search bus addr with
  | Some (start, dev) => mmio_write dev (addr - start) size val w
  | None => (w, Ok ActNone)
  end.

Lemma search_owns bus addr start dev :
  Addressable_wf bus → AddressSpec.owns (slots_map bus) addr start dev →
  Addressable_search bus addr = Some (start, dev).
Proof.
  intros Hwf [Hl Ho]. apply slots_map_inv in Hl.
  apply (search_Some 0 bus addr (mkSlot start dev)); try done.
Qed.

Lemma search_unowned bus addr :
  Addressable_wf bus → (∀ start dev, ¬ AddressSpec.owns (slots_map bus) addr start dev) →
  Addressable_search bus addr = None.
Proof.
  intros Hwf Hn. destruct (Addressable_search bus addr) as [[start dev]|] eqn:E; [|done].
  destruct (Hn start dev). by destruct (search_bounds _ _ _ _ Hwf E).
Qed.
End MmioBus.

(** An access to a bus goes to the device mapped over the address, with the
    offset relative to its base and inside its size, and to no other device; an
    access to an unmapped address reads as all ones, a write there does nothing,
    and neither touches any device. *)
Theorem mmio_bus_routes {W R C : Type} `{Mmio W R C} (bus : list (Slot R)) addr size val (w : W) :
  Addressable_wf bus →
  (∀ start dev, AddressSpec.owns (slots_map bus) addr start dev →
     0 ≤ addr - start < mmio_size dev ∧
     MmioBus_read bus addr size w = mmio_read dev (addr - start) size w ∧
     MmioBus_write bus addr size val w = mmio_write dev (addr - start) size val w) ∧
  ((∀ start dev, ¬ AddressSpec.owns (slots_map bus) addr start dev) →
     MmioBus_read bus addr size w = (w, Ok U64_MAX) ∧
     MmioBus_write bus addr size val w = (w, Ok ActNone)).
Proof.
  intros Hwf. unfold MmioBus_read, MmioBus_write. split.
  - intros start dev Ho. rewrite (search_owns _ _ _ _ Hwf Ho).
    destruct Ho as [_ ?]. unfold slot_size, mmio_slot_backend in *. split; [lia|done].
  - intros Hn. by rewrite (search_unowned _ _ Hwf Hn).
Qed.

(** A bus of scratch registers: the handle is (size, index into the state). *)
#[local] Instance scratch_mmio : Mmio (list Z) (Z * nat) Empty_set := {|
  mmio_size := fst;
  mmio_read := λ r _ _ w, (w, Ok (default 0 (w !! snd r)));
  mmio_write := λ r _ _ v w, (<[snd r := v]> w, Ok ActNone)
|}.

Lemma mmio_bus_routes_witness :
  let bus := [mkSlot 0x1000 (0x10, 0%nat); mkSlot 0x2000 (0x20, 1%nat)] in
  MmioBus_read bus 0x2010 4 [7; 9] = ([7; 9], Ok 9) ∧
  MmioBus_read bus 0x3000 4 [7; 9] = ([7; 9], Ok U64_MAX).
Proof.
  cbn zeta. split.
  - refine (proj1 (proj2 (proj1 (mmio_bus_routes
      [mkSlot 0x1000 (0x10, 0%nat); mkSlot 0x2000 (0x20, 1%nat)] 0x2010 4 0 [7; 9] _)
      0x2000 (0x20, 1%nat) _))); by_eval.
  - refine (proj1 (proj2 (mmio_bus_routes
      [mkSlot 0x1000 (0x10, 0%nat); mkSlot 0x2000 (0x20, 1%nat)] 0x3000 4 0 [7; 9] _) _));
      [by_eval|].
    intros start dev [Hl Ho]. apply slots_map_inv in Hl.
    repeat (apply elem_of_cons in Hl as [Hl|Hl]; [injection Hl as -> ->; vm_compute in Ho; naive_solver|]).
    by apply elem_of_nil in Hl.
Defined.
