(* ===== verification/Mapped.v ===== *)
(** * Guest RAM: mem/mapped.rs

    [ArcMemPages] is a range of host memory; [Ram] maps guest-physical addresses
    to such ranges; accesses go slice by slice.  Host memory is a store of bytes
    ([hmem]); a slice is the host address and the length of [&[u8]].  The
    reference is the byte-wise translation [translate_bytes]. *)

From S2P Require Import Prelude Utils MemTypes Addressable.

(** ** Host memory *)

Definition hget (m : gmap Z Z) (a : Z) : Z := default 0 (m !! a).

Definition hread (m : gmap Z Z) (a n : Z) : list Z := hget m <$> seqZ a n.

Fixpoint hwrite (m : gmap Z Z) (a : Z) (bs : list Z) : gmap Z Z :=
  match bs with
  | [] => m
  | b :: bs' => hwrite (<[a := b]> m) (a + 1) bs'
  end.

(** ** [ArcMemPages] *)

Record ArcMemPages := mkPages {
  pg_addr : Z;
  pg_size : Z;
  pg_fd : option (Z * Z)   (* file descriptor and offset *)
}.

#[export] Instance pages_backend : SlotBackend ArcMemPages := pg_size.

Definition get_valid_range (p : ArcMemPages) (offset len : Z) : outcome mem_error (Z * Z) :=
  let end_ := u64 (u64 (offset + len) - 1) in
  if (pg_size p <=? offset) || (end_ <? offset) then Err (ExceedsLimit offset len)
  else
    let valid_len := Z.min (pg_size p - offset) len in
    Ok (u64 (pg_addr p + offset), valid_len).

(** [get_partial_slice] and [get_partial_slice_mut] of [ArcMemPages]. *)
Definition pages_get_partial_slice (p : ArcMemPages) (offset len : Z) : outcome mem_error (Z * Z) :=
  get_valid_range p offset len.

(** ** [Ram] *)

Section Ram.
Implicit Types (ram : list (Slot ArcMemPages)) (m : gmap Z Z).

(** [get_partial_slice] and [get_partial_slice_mut] of [Ram]. *)
Definition Ram_get_partial_slice (ram : list (Slot ArcMemPages)) (gpa len : Z)
  : outcome mem_error (Z * Z) :=
  match Addressable_search ram gpa with
  | None => Err (NotMapped gpa)
  | Some (start, user_mem) => pages_get_partial_slice user_mem (gpa - start) len
  end.

(** The iterators [Iter] and [IterMut] driven by a [for] loop that leaves by
    [?]: the slices handed out, then the error that stopped it, if any.  The
    outer option is [None] when the fuel runs out. *)
Fixpoint slice_iter_loop (fuel : nat) (ram : list (Slot ArcMemPages)) (gpa remain : Z)
  : option (list (Z * Z) * option (outcome mem_error Empty_set)) :=
  if remain =? 0 then Some ([], None)
  else
    match fuel with
    | O => None
    | S fuel' =>
        match Ram_get_partial_slice ram gpa remain with
        | Ok (a, n) =>
            match slice_iter_loop fuel' ram (u64 (gpa + n)) (remain - n) with
            | Some (ss, e) => Some ((a, n) :: ss, e)
            | None => None
            end
        | Err e => Some ([], Some (Err e))
        | Panic => Some ([], Some Panic)
        end
    end.

(** Every slice is at least one byte long: [len] rounds are enough. *)
Definition slice_iter (ram : list (Slot ArcMemPages)) (gpa len : Z) :=
  default ([], Some Panic) (slice_iter_loop (Z.to_nat len) ram gpa len).

Definition iter_result {A} (a : A) (e : option (outcome mem_error Empty_set))
  : outcome mem_error A :=
  match e with
  | None => Ok a
  | Some (Err e) => Err e
  | Some _ => Panic
  end.

(** [buf[cur..cur + n].copy_from_slice(data)] *)
Definition splice (buf : list Z) (cur : nat) (data : list Z) : list Z :=
  take cur buf ++ data ++ drop (cur + length data) buf.

Fixpoint read_slices (m : gmap Z Z) (ss : list (Z * Z)) (buf : list Z) (cur : nat) : list Z :=
  match ss with
  | [] => buf
  | (a, n) :: ss' => read_slices m ss' (splice buf cur (hread m a n)) (cur + Z.to_nat n)
  end.

(** [Ram::read]: the buffer as it is left, and the result. *)
Definition Ram_read (ram : list (Slot ArcMemPages)) (m : gmap Z Z) (gpa : Z) (buf : list Z)
  : list Z * outcome mem_error unit :=
  let len := Z.of_nat (length buf) in
  match Ram_get_partial_slice ram gpa len with
  | Err e => (buf, Err e)
  | Panic => (buf, Panic)
  | Ok (a, n) =>
      if n =? len then (hread m a n, Ok tt)
      else
        let r := slice_iter ram gpa len in
        (read_slices m (fst r) buf 0, iter_result tt (snd r))
  end.

(** [read_t::<T>] with [size_of::<T>() = n]: the bytes of the value. *)
Definition Ram_read_t (ram : list (Slot ArcMemPages)) (m : gmap Z Z) (n : nat) (gpa : Z)
  : outcome mem_error (list Z) :=
  let r := Ram_read ram m gpa (replicate n 0) in (λ _, fst r) <$> snd r.

Fixpoint write_slices (m : gmap Z Z) (ss : list (Z * Z)) (buf : list Z) (cur : nat) : gmap Z Z :=
  match ss with
  | [] => m
  | (a, n) :: ss' =>
      write_slices (hwrite m a (take (Z.to_nat n) (drop cur buf))) ss' buf (cur + Z.to_nat n)
  end.

Definition Ram_write (ram : list (Slot ArcMemPages)) (m : gmap Z Z) (gpa : Z) (buf : list Z)
  : gmap Z Z * outcome mem_error unit :=
  let len := Z.of_nat (length buf) in
  match Ram_get_partial_slice ram gpa len with
  | Err e => (m, Err e)
  | Panic => (m, Panic)
  | Ok (a, n) =>
      if n =? len then (hwrite m a buf, Ok tt)
      else
        let r := slice_iter ram gpa len in
        (write_slices m (fst r) buf 0, iter_result tt (snd r))
  end.

(** [write_t]: [val.as_bytes()] is written. *)
Definition Ram_write_t (ram : list (Slot ArcMemPages)) (m : gmap Z Z) (gpa : Z) (val : list Z) :=
  Ram_write ram m gpa val.

Definition Ram_translate (ram : list (Slot ArcMemPages)) (gpa : Z) : outcome mem_error Z :=
  fst <$> Ram_get_partial_slice ram gpa 1.

(** [translate_iov] and [translate_iov_mut]; also the body of
    [read_vectored] and [write_vectored] before the callback runs. *)
Fixpoint translate_iov (ram : list (Slot ArcMemPages)) (iov : list (Z * Z))
  : outcome mem_error (list (Z * Z)) :=
  match iov with
  | [] => Ok []
  | (gpa, len) :: iov' =>
      let r := slice_iter ram gpa len in
      match iter_result tt (snd r) with
      | Ok _ => app (fst r) <$> translate_iov ram iov'
      | Err e => Err e
      | Panic => Panic
      end
  end.

(** [ptr.is_aligned()] for a pointee of the given alignment. *)
Definition is_aligned (ptr align : Z) : bool := ptr mod align =? 0.

(** [get_ptr::<T>]: [ptr] is still a [*mut u8] when its alignment is tested. *)
Definition Ram_get_ptr (ram : list (Slot ArcMemPages)) (size_t align_t gpa : Z)
  : outcome mem_error Z :=
  match Ram_get_partial_slice ram gpa size_t with
  | Err e => Err e
  | Panic => Panic
  | Ok (ptr, n) =>
      if negb (n =? size_t) then Err (NotContinuous gpa size_t)
      else if negb (is_aligned ptr 1) then Err (NotAligned ptr align_t)
      else Ok ptr
  end.

(** [get_slice::<T>]: here [ptr] is a [*const UnsafeCell<T>]. *)
Definition Ram_get_slice (ram : list (Slot ArcMemPages)) (size_t align_t gpa len : Z)
  : outcome mem_error (Z * Z) :=
  let total_len := u64 (len * size_t) in
  match Ram_get_partial_slice ram gpa total_len with
  | Err e => Err e
  | Panic => Panic
  | Ok (ptr, n) =>
      if negb (n =? total_len) then Err (NotContinuous gpa total_len)
      else if negb (is_aligned ptr align_t) then Err (NotAligned ptr align_t)
      else Ok (ptr, len)
  end.

(** ** [RamBus]: the same operations behind a lock, and the streaming ones *)

Definition RamBus_add (ram : list (Slot ArcMemPages)) (gpa : Z) (user_mem : ArcMemPages)
  : list (Slot ArcMemPages) * outcome mem_error unit :=
  let r := Addressable_add ram gpa user_mem in (fst r, (λ _, tt) <$> snd r).

Definition RamBus_remove (ram : list (Slot ArcMemPages)) (gpa : Z) := Addressable_remove ram gpa.

(** [dst.write_all(bytes)]: [None] is an I/O error. *)
Fixpoint write_all_slices {D} (write_all : D → list Z → option D) (m : gmap Z Z)
  (ss : list (Z * Z)) (dst : D) : D * bool :=
  match ss with
  | [] => (dst, true)
  | (a, n) :: ss' =>
      match write_all dst (hread m a n) with
      | Some dst' => write_all_slices write_all m ss' dst'
      | None => (dst, false)
      end
  end.

Definition RamBus_read_range {D} (write_all : D → list Z → option D)
  (ram : list (Slot ArcMemPages)) (m : gmap Z Z) (gpa len : Z) (dst : D)
  : D * outcome mem_error unit :=
  let r := slice_iter ram gpa len in
  let w := write_all_slices write_all m (fst r) dst in
  if snd w then (fst w, iter_result tt (snd r)) else (fst w, Err WriteErr).

(** [src.read_exact(buf)]: the bytes that fill [buf], or an I/O error. *)
Fixpoint read_exact_slices {Src} (read_exact : Src → Z → Src * option (list Z)) (m : gmap Z Z)
  (ss : list (Z * Z)) (src : Src) : gmap Z Z * bool :=
  match ss with
  | [] => (m, true)
  | (a, n) :: ss' =>
      match read_exact src n with
      | (src', Some data) => read_exact_slices read_exact (hwrite m a data) ss' src'
      | (_, None) => (m, false)
      end
  end.

Definition RamBus_write_range {Src} (read_exact : Src → Z → Src * option (list Z))
  (ram : list (Slot ArcMemPages)) (m : gmap Z Z) (gpa len : Z) (src : Src)
  : gmap Z Z * outcome mem_error unit :=
  let r := slice_iter ram gpa len in
  let w := read_exact_slices read_exact m (fst r) src in
  if snd w then (fst w, iter_result tt (snd r)) else (fst w, Err ReadErr).

(** ** Reference: translation one byte at a time *)

Definition translate (ram : list (Slot ArcMemPages)) (gpa : Z) : option Z :=
  (λ '(start, p), pg_addr p + (gpa - start)) <$> Addressable_search ram gpa.

Fixpoint translate_bytes (ram : list (Slot ArcMemPages)) (gpa : Z) (n : nat)
  : list Z * option mem_error :=
  match n with
  | O => ([], None)
  | S n' =>
      match translate ram gpa with
      | None => ([], Some (NotMapped gpa))
      | Some h => let r := translate_bytes ram (gpa + 1) n' in (h :: fst r, snd r)
      end
  end.

Definition slice_addrs (ss : list (Z * Z)) : list Z := mjoin ((λ '(a, n), seqZ a n) <$> ss).

(** Mapped pages lie in the host address space, no two over each other. *)
Definition pages_ok (ram : list (Slot ArcMemPages)) : Prop :=
  Forall (λ s, 0 ≤ pg_addr (slot_backend s) ∧
               pg_addr (slot_backend s) + pg_size (slot_backend s) ≤ 2 ^ 64) ram.

Definition pages_disjoint (ram : list (Slot ArcMemPages)) : Prop :=
  ∀ (i j : nat) s t, i ≠ j → ram !! i = Some s → ram !! j = Some t →
    pg_addr (slot_backend s) + pg_size (slot_backend s) ≤ pg_addr (slot_backend t) ∨
    pg_addr (slot_backend t) + pg_size (slot_backend t) ≤ pg_addr (slot_backend s).

Definition ram_wf (ram : list (Slot ArcMemPages)) : Prop :=
  Addressable_wf ram ∧ pages_ok ram.
End Ram.

(** ** Lemmas *)

Section RamLemmas.
Implicit Types (ram : list (Slot ArcMemPages)) (m : gmap Z Z).

(** The result of a transfer that stops at the first unmapped byte. *)
Definition access_result (e : option mem_error) : outcome mem_error unit :=
  match e with None => Ok tt | Some e => Err e end.

(** Bytes stored pairwise at a list of host addresses. *)
Fixpoint store (m : gmap Z Z) (hs bs : list Z) : gmap Z Z :=
  match hs, bs with
  | h :: hs', b :: bs' => store (<[h := b]> m) hs' bs'
  | _, _ => m
  end.

Lemma search_pages ram gpa start p :
  ram_wf ram → Addressable_search ram gpa = Some (start, p) →
  0 ≤ start ≤ gpa ∧ gpa < start + pg_size p ∧ start + pg_size p ≤ 2 ^ 64 ∧
  0 ≤ pg_addr p ∧ pg_addr p + pg_size p ≤ 2 ^ 64.
Proof.
  intros [Hwf Hok] Hs. apply (search_inv 0) in Hs as (s & Hin & Hc & [= -> ->]); [|done..].
  pose proof (slots_wf_bound _ _ _ Hwf Hin) as (?&?&?).
  unfold pages_ok in Hok. rewrite Forall_forall in Hok. specialize (Hok s Hin).
  unfold covers, slot_end, slot_size, pages_backend in *. lia.
Qed.

Lemma partial_slice_spec ram gpa len :
  ram_wf ram → 0 < len → gpa + len ≤ 2 ^ 64 →
  Ram_get_partial_slice ram gpa len =
    match Addressable_search ram gpa with
    | None => Err (NotMapped gpa)
    | Some (start, p) =>
        Ok (pg_addr p + (gpa - start), Z.min (start + pg_size p - gpa) len)
    end.
Proof.
  intros Hwf Hlen Hmax. unfold Ram_get_partial_slice.
  destruct (Addressable_search ram gpa) as [[start p]|] eqn:E; [|done].
  destruct (search_pages _ _ _ _ Hwf E) as (?&?&?&?&?).
  unfold pages_get_partial_slice, get_valid_range. cbn zeta.
  assert (u64 (u64 (gpa - start + len) - 1) = gpa - start + len - 1) as ->.
  { unfold wrap. rewrite Zminus_mod_idemp_l. apply Z.mod_small. lia. }
  destruct (Z.leb_spec (pg_size p) (gpa - start)); [lia|].
  destruct (Z.ltb_spec (gpa - start + len - 1) (gpa - start)); [lia|]. cbn [orb].
  rewrite wrap_small by (unfold in_u; lia). do 2 f_equal. f_equal. lia.
Qed.

(** Inside one slot the translation is contiguous. *)
Lemma translate_run ram gpa start p k :
  ram_wf ram → Addressable_search ram gpa = Some (start, p) →
  0 ≤ k → gpa + k < start + pg_size p →
  translate ram (gpa + k) = Some (pg_addr p + (gpa - start) + k).
Proof.
  intros [Hwf _] Hs Hk Hlt. apply (search_inv 0) in Hs as (s & Hin & Hc & [= -> ->]); [|done..].
  unfold translate. rewrite (search_Some 0 ram (gpa + k) s); try done.
  - simpl. f_equal. lia.
  - unfold covers, slot_end, slot_size, pages_backend in *. lia.
Qed.

Lemma translate_bytes_run ram gpa a (n1 n2 : nat) :
  (∀ k, 0 ≤ k < Z.of_nat n1 → translate ram (gpa + k) = Some (a + k)) →
  let r := translate_bytes ram (gpa + Z.of_nat n1) n2 in
  translate_bytes ram gpa (n1 + n2) = (seqZ a (Z.of_nat n1) ++ fst r, snd r).
Proof.
  cbn zeta. revert gpa a. induction n1 as [|n1 IH]; intros gpa a Hrun.
  { replace (gpa + Z.of_nat 0) with gpa by lia. simpl. by destruct (translate_bytes ram gpa n2). }
  cbn [Nat.add translate_bytes].
  assert (translate ram gpa = Some a) as ->.
  { rewrite <- (Z.add_0_r gpa), <- (Z.add_0_r a). apply Hrun. lia. }
  rewrite (IH (gpa + 1) (a + 1)).
  - replace (gpa + 1 + Z.of_nat n1) with (gpa + Z.of_nat (S n1)) by lia.
    rewrite (seqZ_cons a) by lia. cbn zeta. simpl fst. simpl snd.
    replace (Z.pred (Z.of_nat (S n1))) with (Z.of_nat n1) by lia.
    by rewrite Z.add_1_r.
  - intros k Hk. replace (gpa + 1 + k) with (gpa + (1 + k)) by lia.
    replace (a + 1 + k) with (a + (1 + k)) by lia. apply Hrun. lia.
Qed.

Lemma slice_iter_loop_spec fuel ram gpa remain :
  ram_wf ram → 0 ≤ remain ≤ Z.of_nat fuel → 0 ≤ gpa → gpa + remain ≤ 2 ^ 64 →
  ∃ ss, slice_iter_loop fuel ram gpa remain
          = Some (ss, Err <$> snd (translate_bytes ram gpa (Z.to_nat remain))) ∧
        slice_addrs ss = fst (translate_bytes ram gpa (Z.to_nat remain)) ∧
        Forall (λ s, 0 < snd s) ss.
Proof.
  intros Hwf. revert gpa remain.
  induction fuel as [|fuel IH]; intros gpa remain Hf Hg Hmax;
    cbn [slice_iter_loop]; destruct (Z.eqb_spec remain 0) as [->|Hne]; try (by exists []); [lia|].
  rewrite partial_slice_spec by (done || lia).
  destruct (Addressable_search ram gpa) as [[start p]|] eqn:E.
  - destruct (search_pages _ _ _ _ Hwf E) as (?&?&?&?&?).
    set (n := Z.min (start + pg_size p - gpa) remain).
    assert (0 < n ≤ remain) as Hn by lia.
    assert (translate_bytes ram gpa (Z.to_nat n + Z.to_nat (remain - n)) =
      (seqZ (pg_addr p + (gpa - start)) n ++
         fst (translate_bytes ram (gpa + n) (Z.to_nat (remain - n))),
       snd (translate_bytes ram (gpa + n) (Z.to_nat (remain - n))))) as Htb.
    { rewrite (translate_bytes_run _ _ (pg_addr p + (gpa - start))).
      - by rewrite Z2Nat.id by lia.
      - intros k Hk. apply (translate_run _ _ start p); try done; lia. }
    replace (Z.to_nat n + Z.to_nat (remain - n))%nat with (Z.to_nat remain) in Htb by lia.
    rewrite Htb. simpl fst. simpl snd.
    destruct (decide (n = remain)) as [Heq|Hlt].
    + rewrite Heq, Z.sub_diag. change (Z.to_nat 0) with 0%nat.
      destruct fuel; simpl; eexists; (split; [reflexivity|]);
        (split; [done|]);
        (constructor; [simpl; lia|constructor]).
    + rewrite (wrap_small 64 (gpa + n)) by (unfold in_u; lia).
      destruct (IH (gpa + n) (remain - n)) as (ss & -> & Ha & Hpos); [lia..|].
      eexists. split; [reflexivity|]. split; [by rewrite <- Ha|]. constructor; [simpl; lia|done].
  - exists []. assert (∃ r, Z.to_nat remain = S r) as [r ->] by (exists (Z.to_nat (remain - 1)); lia).
    simpl. unfold translate. by rewrite E.
Qed.

Lemma slice_iter_spec ram gpa len :
  ram_wf ram → 0 ≤ len → 0 ≤ gpa → gpa + len ≤ 2 ^ 64 →
  slice_addrs (fst (slice_iter ram gpa len)) = fst (translate_bytes ram gpa (Z.to_nat len)) ∧
  snd (slice_iter ram gpa len) = Err <$> snd (translate_bytes ram gpa (Z.to_nat len)) ∧
  Forall (λ s, 0 < snd s) (fst (slice_iter ram gpa len)).
Proof.
  intros Hwf Hl Hg Hmax. unfold slice_iter.
  destruct (slice_iter_loop_spec (Z.to_nat len) ram gpa len) as (ss & -> & ? & ?);
    [done|lia..|]. done.
Qed.

Lemma translate_bytes_length ram gpa n :
  (length (fst (translate_bytes ram gpa n)) ≤ n)%nat ∧
  (snd (translate_bytes ram gpa n) = None → length (fst (translate_bytes ram gpa n)) = n).
Proof.
  revert gpa. induction n as [|n IH]; intros gpa; simpl; [done|].
  destruct (translate ram gpa); simpl; [|split; [lia|done]].
  destruct (IH (gpa + 1)). split; [lia|]. intros Hn. by f_equal; auto.
Qed.

(** ** Reading and writing as per-byte transfers *)

Lemma hread_length m a n : length (hread m a n) = Z.to_nat n.
Proof. unfold hread. by rewrite length_fmap, length_seqZ. Qed.

Lemma slice_addrs_cons a n ss : slice_addrs ((a, n) :: ss) = seqZ a n ++ slice_addrs ss.
Proof. done. Qed.

Lemma read_slices_spec m ss buf (cur : nat) :
  (cur + length (slice_addrs ss) ≤ length buf)%nat →
  read_slices m ss buf cur =
    take cur buf ++ (hget m <$> slice_addrs ss) ++ drop (cur + length (slice_addrs ss)) buf.
Proof.
  revert buf cur. induction ss as [|[a n] ss IH]; intros buf cur Hlen.
  { simpl. rewrite Nat.add_0_r, take_drop. done. }
  rewrite slice_addrs_cons in *. rewrite length_app, length_seqZ in Hlen.
  cbn [read_slices].
  assert (length (splice buf cur (hread m a n)) = length buf) as Hsl.
  { unfold splice. rewrite !length_app, length_take, length_drop, hread_length. lia. }
  rewrite IH by lia. unfold splice. rewrite fmap_app, length_app, length_seqZ.
  rewrite (app_assoc (take cur buf)).
  rewrite take_app_length' by (rewrite length_app, length_take, hread_length; lia).
  rewrite <- !app_assoc. do 2 f_equal. f_equal.
  rewrite app_assoc, drop_app_ge by (rewrite length_app, length_take, hread_length; lia).
  rewrite length_app, length_take, hread_length, drop_drop. f_equal. lia.
Qed.

Lemma hwrite_store m a bs : hwrite m a bs = store m (seqZ a (Z.of_nat (length bs))) bs.
Proof.
  revert m a. induction bs as [|b bs IH]; intros m a; [done|].
  simpl length. rewrite seqZ_cons by lia. cbn [hwrite store].
  rewrite IH. do 2 f_equal; lia.
Qed.

Lemma store_app m hs1 hs2 bs1 bs2 :
  length hs1 = length bs1 → store m (hs1 ++ hs2) (bs1 ++ bs2) = store (store m hs1 bs1) hs2 bs2.
Proof.
  revert m bs1. induction hs1 as [|h hs1 IH]; intros m [|b bs1] Hl; try done; simpl.
  apply IH. simpl in Hl. lia.
Qed.

Lemma write_slices_spec m ss buf (cur : nat) :
  (cur + length (slice_addrs ss) ≤ length buf)%nat →
  write_slices m ss buf cur = store m (slice_addrs ss) (drop cur buf).
Proof.
  revert m cur. induction ss as [|[a n] ss IH]; intros m cur Hlen; [by destruct (drop cur buf)|].
  rewrite slice_addrs_cons in *. rewrite length_app, length_seqZ in Hlen.
  cbn [write_slices]. rewrite IH by lia.
  rewrite <- (take_drop (Z.to_nat n) (drop cur buf)) at 2.
  assert (length (take (Z.to_nat n) (drop cur buf)) = Z.to_nat n) as Hl
    by (rewrite length_take, length_drop; lia).
  rewrite store_app by (rewrite length_seqZ, Hl; done).
  rewrite hwrite_store, Hl, drop_drop.
  assert (seqZ a (Z.of_nat (Z.to_nat n)) = seqZ a n) as ->; [|done].
  destruct (decide (0 ≤ n)); [by rewrite Z2Nat.id|]. by rewrite !seqZ_nil by lia.
Qed.

Lemma store_lookup m hs bs (i : nat) h b :
  NoDup hs → hs !! i = Some h → bs !! i = Some b → hget (store m hs bs) h = b.
Proof.
  assert (∀ m hs bs h, h ∉ hs → hget (store m hs bs) h = hget m h) as Hne.
  { clear. intros m hs. revert m. induction hs as [|x hs IH]; intros m [|b bs] h Hn; try done.
    simpl. rewrite IH by set_solver. unfold hget. rewrite lookup_insert_ne; set_solver. }
  intros Hnd. revert m bs i. induction Hnd as [|x hs Hx Hnd IH]; intros m bs i Hh Hb; [done|].
  destruct bs as [|y bs]; [done|]. destruct i as [|i]; simpl in *.
  - simplify_eq. rewrite Hne by done. unfold hget. by rewrite lookup_insert_eq.
  - by apply (IH _ bs i).
Qed.

Lemma store_frame m hs bs h : h ∉ hs → hget (store m hs bs) h = hget m h.
Proof.
  revert m bs. induction hs as [|x hs IH]; intros m [|b bs] Hn; try done.
  simpl. rewrite IH by set_solver. unfold hget. rewrite lookup_insert_ne; set_solver.
Qed.

(** The first slice covers everything, or the loop does: either way the
    transfer is the byte-wise one. *)
Lemma first_slice_full ram gpa len a :
  ram_wf ram → 0 ≤ gpa → 0 < len → gpa + len ≤ 2 ^ 64 →
  Ram_get_partial_slice ram gpa len = Ok (a, len) →
  translate_bytes ram gpa (Z.to_nat len) = (seqZ a len, None).
Proof.
  intros Hwf Hg Hl Hmax. rewrite partial_slice_spec by done.
  destruct (Addressable_search ram gpa) as [[start p]|] eqn:E; [|done]. intros [= <- Hn].
  rewrite <- (Nat.add_0_r (Z.to_nat len)).
  rewrite (translate_bytes_run _ _ (pg_addr p + (gpa - start))).
  - simpl. by rewrite app_nil_r, Z2Nat.id by lia.
  - intros k Hk. apply (translate_run _ _ start p); try done; lia.
Qed.

Lemma first_slice_err ram gpa len e :
  ram_wf ram → 0 ≤ gpa → 0 < len → gpa + len ≤ 2 ^ 64 →
  Ram_get_partial_slice ram gpa len = Err e →
  translate_bytes ram gpa (Z.to_nat len) = ([], Some e).
Proof.
  intros Hwf Hg Hl Hmax. rewrite partial_slice_spec by done.
  destruct (Addressable_search ram gpa) as [[start p]|] eqn:E; [done|]. intros [= <-].
  assert (∃ r, Z.to_nat len = S r) as [r ->] by (exists (Z.to_nat (len - 1)); lia).
  simpl. unfold translate. by rewrite E.
Qed.

Lemma partial_slice_no_panic ram gpa len : Ram_get_partial_slice ram gpa len ≠ Panic.
Proof.
  unfold Ram_get_partial_slice, pages_get_partial_slice, get_valid_range.
  destruct (Addressable_search ram gpa) as [[??]|]; [|done]. cbn zeta. by case_match.
Qed.

Lemma iter_result_spec (e : option mem_error) :
  iter_result tt (Err <$> e) = access_result e.
Proof. by destruct e. Qed.

Lemma Ram_read_spec ram m gpa buf :
  ram_wf ram → 0 ≤ gpa → buf ≠ [] → gpa + Z.of_nat (length buf) ≤ 2 ^ 64 →
  let r := translate_bytes ram gpa (length buf) in
  Ram_read ram m gpa buf =
    ((hget m <$> fst r) ++ drop (length (fst r)) buf, access_result (snd r)).
Proof.
  intros Hwf Hg Hne Hmax. cbn zeta. unfold Ram_read. cbn zeta.
  assert (0 < Z.of_nat (length buf)) as Hpos by (destruct buf; [done|simpl; lia]).
  set (len := Z.of_nat (length buf)) in *.
  replace (length buf) with (Z.to_nat len) by lia.
  destruct (Ram_get_partial_slice ram gpa len) as [[a n]|e|] eqn:E.
  - destruct (Z.eqb_spec n len) as [->|Hlt].
    + rewrite (first_slice_full _ _ _ _ Hwf Hg Hpos Hmax E). simpl.
      rewrite length_seqZ, drop_ge by lia. by rewrite app_nil_r.
    + destruct (slice_iter_spec ram gpa len) as (Ha & He & _); [done|lia..|].
      pose proof (translate_bytes_length ram gpa (Z.to_nat len)) as [Hle _].
      rewrite read_slices_spec by (rewrite Ha; lia).
      rewrite Ha, He, iter_result_spec. done.
  - by rewrite (first_slice_err _ _ _ _ Hwf Hg Hpos Hmax E).
  - by destruct (partial_slice_no_panic ram gpa len).
Qed.

Lemma Ram_write_spec ram m gpa buf :
  ram_wf ram → 0 ≤ gpa → buf ≠ [] → gpa + Z.of_nat (length buf) ≤ 2 ^ 64 →
  let r := translate_bytes ram gpa (length buf) in
  Ram_write ram m gpa buf = (store m (fst r) buf, access_result (snd r)).
Proof.
  intros Hwf Hg Hne Hmax. cbn zeta. unfold Ram_write. cbn zeta.
  assert (0 < Z.of_nat (length buf)) as Hpos by (destruct buf; [done|simpl; lia]).
  set (len := Z.of_nat (length buf)) in *.
  replace (length buf) with (Z.to_nat len) by lia.
  destruct (Ram_get_partial_slice ram gpa len) as [[a n]|e|] eqn:E.
  - destruct (Z.eqb_spec n len) as [->|Hlt].
    + rewrite (first_slice_full _ _ _ _ Hwf Hg Hpos Hmax E). simpl. by rewrite hwrite_store.
    + destruct (slice_iter_spec ram gpa len) as (Ha & He & _); [done|lia..|].
      pose proof (translate_bytes_length ram gpa (Z.to_nat len)) as [Hle _].
      rewrite write_slices_spec by (rewrite Ha; lia).
      rewrite Ha, He, iter_result_spec. done.
  - by rewrite (first_slice_err _ _ _ _ Hwf Hg Hpos Hmax E).
  - by destruct (partial_slice_no_panic ram gpa len).
Qed.

(** ** Distinct guest bytes are distinct host bytes *)

Lemma translate_inj ram x y h :
  Addressable_wf ram → pages_disjoint ram →
  translate ram x = Some h → translate ram y = Some h → x = y.
Proof.
  unfold translate. intros Hwf Hdis Hx Hy.
  destruct (Addressable_search ram x) as [[sx px]|] eqn:Ex; [|done].
  destruct (Addressable_search ram y) as [[sy py]|] eqn:Ey; [|done].
  apply (search_inv 0) in Ex as (s & Hs & Hcs & [= -> ->]); [|done..].
  apply (search_inv 0) in Ey as (t & Ht & Hct & [= -> ->]); [|done..].
  injection Hx as Hx. injection Hy as Hy.
  apply list_elem_of_lookup_1 in Hs as [i Hi], Ht as [j Hj].
  unfold covers, slot_end, slot_size, pages_backend in *.
  destruct (decide (i = j)) as [->|Hij]; [simplify_eq; lia|].
  destruct (Hdis i j s t Hij Hi Hj); lia.
Qed.

Lemma translate_bytes_lookup ram gpa n (i : nat) h :
  fst (translate_bytes ram gpa n) !! i = Some h → translate ram (gpa + Z.of_nat i) = Some h.
Proof.
  revert gpa i. induction n as [|n IH]; intros gpa i; [done|]. cbn [translate_bytes].
  destruct (translate ram gpa) as [x|] eqn:E; [|done]. destruct i as [|i]; simpl.
  - intros [= ->]. by rewrite Z.add_0_r.
  - intros Hl. apply IH in Hl. rewrite <- Hl. f_equal. lia.
Qed.

Lemma translate_bytes_NoDup ram gpa n :
  Addressable_wf ram → pages_disjoint ram → NoDup (fst (translate_bytes ram gpa n)).
Proof.
  intros Hwf Hdis. apply NoDup_alt. intros i j h Hi Hj.
  apply translate_bytes_lookup in Hi, Hj.
  pose proof (translate_inj _ _ _ _ Hwf Hdis Hi Hj). lia.
Qed.

(** A range all of whose bytes are mapped. *)
Definition range_mapped (ram : list (Slot ArcMemPages)) (gpa : Z) (n : nat) : Prop :=
  snd (translate_bytes ram gpa n) = None.
#[global] Instance range_mapped_dec ram gpa n : Decision (range_mapped ram gpa n).
Proof. unfold range_mapped. apply _. Defined.
End RamLemmas.

(** ** Properties *)

(** C19: what [Ram::write] stores, [Ram::read] returns: for a non-empty buffer and
    a guest range whose bytes are all mapped (by any number of page ranges), the
    write succeeds, a read of the same range gives the buffer back, and every
    guest byte outside the range keeps its value. *)
Theorem ram_write_read_roundtrip ram m gpa buf old :
  ram_wf ram → pages_disjoint ram → 0 ≤ gpa → buf ≠ [] → length old = length buf →
  gpa + Z.of_nat (length buf) ≤ 2 ^ 64 → range_mapped ram gpa (length buf) →
  let r := Ram_write ram m gpa buf in
  snd r = Ok tt ∧ Ram_read ram (fst r) gpa old = (buf, Ok tt) ∧
  ∀ x h, translate ram x = Some h → ¬ (gpa ≤ x < gpa + Z.of_nat (length buf)) →
    hget (fst r) h = hget m h.
Proof.
  intros Hwf Hdis Hg Hne Hold Hmax Hmap. cbn zeta. unfold range_mapped in Hmap.
  rewrite Ram_write_spec by done. cbn zeta. rewrite Hmap.
  destruct (translate_bytes_length ram gpa (length buf)) as [_ Hlen]. specialize (Hlen Hmap).
  pose proof (translate_bytes_NoDup ram gpa (length buf) (proj1 Hwf) Hdis) as Hnd.
  split; [done|]. split.
  - rewrite Ram_read_spec; [|done|done|destruct old, buf; done|by rewrite Hold].
    cbn zeta. rewrite Hold, Hmap. f_equal. rewrite drop_ge, app_nil_r by lia.
    apply list_eq. intros i. rewrite list_lookup_fmap. simpl fst.
    destruct (fst (translate_bytes ram gpa (length buf)) !! i) as [h|] eqn:Eh; simpl.
    + pose proof (lookup_lt_Some _ _ _ Eh) as Hi.
      destruct (lookup_lt_is_Some_2 buf i) as [b Hb]; [lia|].
      rewrite Hb. f_equal. by eapply store_lookup.
    + apply lookup_ge_None in Eh. symmetry. apply lookup_ge_None. lia.
  - intros x h Hx Hout. simpl fst. apply store_frame.
    intros [i Hi]%list_elem_of_lookup_1. pose proof (lookup_lt_Some _ _ _ Hi).
    apply translate_bytes_lookup in Hi.
    pose proof (translate_inj _ _ _ _ (proj1 Hwf) Hdis Hx Hi). lia.
Qed.

(** Two page ranges mapped back to back, in the opposite order on the host. *)
Definition example_ram : list (Slot ArcMemPages) :=
  [mkSlot 0x0 (mkPages 0x7000 0x4 None); mkSlot 0x4 (mkPages 0x3000 0x4 None)].

Lemma example_ram_wf : ram_wf example_ram.
Proof. split; [by_eval|]. repeat constructor; by_eval. Qed.

Lemma example_ram_disjoint : pages_disjoint example_ram.
Proof.
  intros i j s t Hij Hs Ht.
  destruct i as [|[|i]], j as [|[|j]]; try done; simpl in *; simplify_eq; simpl; lia.
Qed.

Lemma ram_write_read_roundtrip_witness :
  let r := Ram_write example_ram ∅ 0x2 [1; 2; 3; 4] in
  snd r = Ok tt ∧ Ram_read example_ram (fst r) 0x2 [0; 0; 0; 0] = ([1; 2; 3; 4], Ok tt).
Proof.
  cbn zeta.
  destruct (ram_write_read_roundtrip example_ram ∅ 0x2 [1; 2; 3; 4] [0; 0; 0; 0]
    example_ram_wf example_ram_disjoint ltac:(lia) ltac:(done) ltac:(done) ltac:(by_eval)
    ltac:(by_eval)) as (?&?&_).
  split; assumption.
Defined.

(** An access of no bytes: nothing is transferred, but the address is looked up. *)
Definition empty_result (s : Slot ArcMemPages) (gpa : Z) : outcome mem_error unit :=
  if gpa =? slot_addr s then Ok tt else Err (ExceedsLimit (gpa - slot_addr s) 0).

Lemma partial_slice_empty ram gpa s :
  ram_wf ram → s ∈ ram → covers s gpa →
  (λ _, tt) <$> Ram_get_partial_slice ram gpa 0 = empty_result s gpa ∧
  ∀ a n, Ram_get_partial_slice ram gpa 0 = Ok (a, n) → n = 0.
Proof.
  intros Hwf Hin Hc. unfold Ram_get_partial_slice.
  assert (Addressable_search ram gpa = Some (slot_addr s, slot_backend s)) as E
    by (apply (search_Some 0); [lia|apply Hwf|done..]).
  rewrite E. destruct (search_pages _ _ _ _ Hwf E) as (?&?&?&?&?).
  unfold pages_get_partial_slice, get_valid_range, empty_result. cbn zeta.
  rewrite Z.add_0_r, (wrap_small 64 (gpa - slot_addr s)) by (unfold in_u; lia).
  rewrite (proj2 (Z.leb_gt _ _)) by lia. cbn [orb].
  destruct (Z.eqb_spec gpa (slot_addr s)) as [->|Hne].
  - rewrite Z.sub_diag. change (u64 (0 - 1) <? 0) with false. cbn. split; [done|]. intros a n [= _ <-]. lia.
  - rewrite wrap_small by (unfold in_u; lia). rewrite (proj2 (Z.ltb_lt _ _)) by lia. done.
Qed.

(** C20: the slice-by-slice transfers agree with the byte-by-byte reference, for a range that
    ends within the 64-bit space.  A read of at least one byte fills, and a write stores,
    exactly the bytes up to the first unmapped one; the result is [NotMapped] of that
    address, and what was transferred before it stays.  An access of no bytes transfers
    nothing; it is [NotMapped] at an address no slot covers, succeeds at the first address
    of a slot, and is [ExceedsLimit] at any other address of it. *)
Theorem ram_access_bytewise ram m gpa buf :
  ram_wf ram → 0 ≤ gpa → gpa + Z.of_nat (length buf) ≤ 2 ^ 64 →
  (buf ≠ [] →
   let r := translate_bytes ram gpa (length buf) in
   Ram_read ram m gpa buf =
     ((hget m <$> fst r) ++ drop (length (fst r)) buf, access_result (snd r)) ∧
   Ram_write ram m gpa buf = (store m (fst r) buf, access_result (snd r))) ∧
  (buf = [] →
   ((∀ s, s ∈ ram → ¬ covers s gpa) →
      Ram_read ram m gpa [] = ([], Err (NotMapped gpa)) ∧ Ram_write ram m gpa [] = (m, Err (NotMapped gpa))) ∧
   ∀ s, s ∈ ram → covers s gpa →
      Ram_read ram m gpa [] = ([], empty_result s gpa) ∧ Ram_write ram m gpa [] = (m, empty_result s gpa)).
Proof.
  intros Hwf Hg Hmax. split; [intros Hne; split; [by apply Ram_read_spec|by apply Ram_write_spec]|].
  intros _. split.
  - intros Hno. assert (Addressable_search ram gpa = None) as E.
    { destruct (Addressable_search ram gpa) as [p|] eqn:E; [|done].
      apply (search_inv 0) in E as (s & Hs & Hc & _); [|lia|apply Hwf]. by destruct (Hno s). }
    unfold Ram_read, Ram_write, Ram_get_partial_slice. cbn. by rewrite E.
  - intros s Hin Hc. destruct (partial_slice_empty ram gpa s Hwf Hin Hc) as [Er Hn].
    unfold Ram_read, Ram_write. cbn [length]. change (Z.of_nat 0) with 0. rewrite <- Er.
    destruct (Ram_get_partial_slice ram gpa 0) as [[a n]| |]; [|done..].
    rewrite (Hn a n eq_refl). done.
Qed.

Lemma ram_access_bytewise_witness :
  Ram_read example_ram {[0x3002 := 5; 0x3003 := 6]} 0x6 [9; 9; 9]
    = ([5; 6; 9], Err (NotMapped 0x8)) ∧
  Ram_read example_ram ∅ 0x6 [] = ([], Err (ExceedsLimit 2 0)).
Proof.
  destruct (ram_access_bytewise example_ram {[0x3002 := 5; 0x3003 := 6]} 0x6 [9; 9; 9]
    example_ram_wf ltac:(lia) ltac:(by_eval)) as [Hr _].
  destruct (ram_access_bytewise example_ram ∅ 0x6 [] example_ram_wf ltac:(lia) ltac:(by_eval)) as [_ He].
  split.
  - destruct (Hr ltac:(done)) as [-> _]. vm_compute. reflexivity.
  - refine (proj1 (proj2 (He eq_refl) (mkSlot 0x4 (mkPages 0x3000 0x4 None)) _ _)); [right; left|by_eval].
Defined.

(** The slice iterator terminates: as many rounds as bytes are enough, every
    slice it yields is non-empty, and the slices, in order, are the host
    addresses of the guest range up to the first unmapped byte. *)
Theorem slice_iter_terminates ram gpa len :
  ram_wf ram → 0 ≤ len → 0 ≤ gpa → gpa + len ≤ 2 ^ 64 →
  ∃ ss, slice_iter_loop (Z.to_nat len) ram gpa len
          = Some (ss, Err <$> snd (translate_bytes ram gpa (Z.to_nat len))) ∧
        slice_addrs ss = fst (translate_bytes ram gpa (Z.to_nat len)) ∧
        Forall (λ s, 0 < snd s) ss.
Proof. intros Hwf Hl Hg Hmax. apply slice_iter_loop_spec; [done|lia..]. Qed.

Lemma slice_iter_terminates_witness :
  ∃ ss, slice_iter_loop 4 example_ram 0x2 4 = Some (ss, None) ∧
        slice_addrs ss = [0x7002; 0x7003; 0x3000; 0x3001] ∧ Forall (λ s, 0 < snd s) ss.
Proof.
  exact (slice_iter_terminates example_ram 0x2 4 example_ram_wf
    ltac:(lia) ltac:(lia) ltac:(lia)).
Defined.

(** [get_ptr] never refuses a pointer for its alignment: it tests a pointer
    to [u8], so for every pointee alignment it returns the translated address of
    a range that one page range backs, aligned or not. *)
Theorem get_ptr_ignores_alignment ram size_t align_t gpa start p :
  ram_wf ram → 0 < size_t → gpa + size_t ≤ 2 ^ 64 →
  Addressable_search ram gpa = Some (start, p) → gpa + size_t ≤ start + pg_size p →
  Ram_get_ptr ram size_t align_t gpa = Ok (pg_addr p + (gpa - start)).
Proof.
  intros Hwf Hs Hmax Hsearch Hfit. unfold Ram_get_ptr.
  rewrite partial_slice_spec by done. rewrite Hsearch.
  rewrite Z.min_r by lia. rewrite Z.eqb_refl. unfold is_aligned. by rewrite Z.mod_1_r.
Qed.

Lemma get_ptr_ignores_alignment_witness :
  Ram_get_ptr example_ram 2 2 0x1 = Ok 0x7001 ∧ is_aligned 0x7001 2 = false.
Proof.
  split; [|done].
  rewrite (get_ptr_ignores_alignment example_ram 2 2 0x1 0x0 (mkPages 0x7000 0x4 None));
    [done|exact example_ram_wf|by_eval..].
Defined.
