(* ===== verification/Memory.v ===== *)
(** * The memory of a virtual machine: mem/mem.rs

    [Memory] keeps the regions mapped in the guest-physical (and port) space and,
    derived from them, the RAM bus, the MMIO bus and the port-I/O bus; it tells
    the hypervisor and the registered callbacks about every change.

    The hypervisor ([trait VmMemory]) and the callback objects ([MemRegionCallback],
    [LayoutChanged], [LayoutUpdated]) are trait objects: they are interfaces
    here, classes of operations on the state [W] they live in.  [R] is the type of
    [Arc<dyn Mmio>] handles, [CB], [LC], [LU] those of the callback objects. *)

From S2P Require Import Prelude Utils MemTypes Addressable Emulated Mapped.

Open Scope stm_scope.

(** hv/hv.rs, [trait VmMemory] *)
Class VmMemory (W : Type) := {
  hv_mem_map : Z → Z → Z → W → W * outcome hv_error unit;   (* gpa size hva *)
  hv_unmap : Z → Z → W → W * outcome hv_error unit;
  hv_reset : W → W * outcome hv_error unit;
  hv_mark_private : Z → Z → bool → W → W * outcome hv_error unit
}.

(** The callback traits of mem/mem.rs. *)
Class MemCallbacks (W CB LC LU : Type) := {
  cb_mapped : CB → Z → W → W * outcome mem_error unit;
  cb_unmapped : CB → W → W * outcome mem_error unit;
  lc_ram_added : LC → Z → ArcMemPages → W → W * outcome mem_error unit;
  lc_ram_removed : LC → Z → ArcMemPages → W → W * outcome mem_error unit;
  lu_ram_updated : LU → list (Slot ArcMemPages) → W → W * outcome mem_error unit
}.

(** ** Regions *)

Inductive MemRange (R : Type) :=
| RangeRam (pages : ArcMemPages)
| RangeDevMem (pages : ArcMemPages)
| RangeEmulated (range : R)
| RangeSpan (size : Z).
Arguments RangeRam {R} _.
Arguments RangeDevMem {R} _.
Arguments RangeEmulated {R} _.
Arguments RangeSpan {R} _.

Inductive MemRegionType := TypeHidden | TypeRam | TypeReserved | TypeAcpi | TypePmem.

Record MemRegionEntry := mkEntry { entry_size : Z; entry_type : MemRegionType }.

Record MemRegion (R CB : Type) := mkRegion {
  region_ranges : list (MemRange R);
  region_entries : list MemRegionEntry;
  region_callbacks : list CB
}.
Arguments mkRegion {R CB} _ _ _.
Arguments region_ranges {R CB} _.
Arguments region_entries {R CB} _.
Arguments region_callbacks {R CB} _.

Record IoRegion (R CB : Type) := mkIoRegion {
  io_range : R;
  io_callbacks : list CB
}.
Arguments mkIoRegion {R CB} _ _.
Arguments io_range {R CB} _.
Arguments io_callbacks {R CB} _.

Section Regions.
Context {W R C CB : Type} `{Mmio W R C}.

Definition range_size (r : MemRange R) : Z :=
  match r with
  | RangeRam p | RangeDevMem p => pg_size p
  | RangeEmulated d => mmio_size d
  | RangeSpan size => size
  end.

(** [MemRegion::size]: the sum of the entries' sizes. *)
Definition region_size (r : MemRegion R CB) : Z :=
  foldl (λ accu e, u64 (accu + entry_size e)) 0 (region_entries r).

Definition ranges_size (rs : list (MemRange R)) : Z :=
  foldl (λ accu r, u64 (accu + range_size r)) 0 rs.

Definition with_ram (pages : ArcMemPages) (type_ : MemRegionType) : MemRegion R CB :=
  mkRegion [RangeRam pages] [mkEntry (pg_size pages) type_] [].
Definition with_dev_mem (pages : ArcMemPages) (type_ : MemRegionType) : MemRegion R CB :=
  mkRegion [RangeDevMem pages] [mkEntry (pg_size pages) type_] [].
Definition with_emulated (range : R) (type_ : MemRegionType) : MemRegion R CB :=
  mkRegion [RangeEmulated range] [mkEntry (mmio_size range) type_] [].

Definition region_validate (r : MemRegion R CB) : outcome mem_error unit :=
  let entries_size := region_size r in
  let ranges_size := ranges_size (region_ranges r) in
  if entries_size <? ranges_size then Err (BackendTooBig ranges_size entries_size) else Ok tt.

#[global] Instance region_backend : SlotBackend (MemRegion R CB) := region_size.
#[global] Instance io_region_backend : SlotBackend (IoRegion R CB) :=
  λ r, mmio_size (io_range r).
End Regions.

(** ** [Memory] *)

Record Memory (W R CB LC LU : Type) := mkMemory {
  mem_regions : list (Slot (MemRegion R CB));
  mem_changed : list LC;
  mem_updated : list LU;
  mem_ram_bus : list (Slot ArcMemPages);
  mem_mmio_bus : list (Slot R);
  mem_io_bus : list (Slot R);
  mem_io_regions : list (Slot (IoRegion R CB));
  mem_world : W     (* the hypervisor, the devices and the callback objects *)
}.
Arguments mkMemory {W R CB LC LU} _ _ _ _ _ _ _ _.
Arguments mem_regions {W R CB LC LU} _.
Arguments mem_changed {W R CB LC LU} _.
Arguments mem_updated {W R CB LC LU} _.
Arguments mem_ram_bus {W R CB LC LU} _.
Arguments mem_mmio_bus {W R CB LC LU} _.
Arguments mem_io_bus {W R CB LC LU} _.
Arguments mem_io_regions {W R CB LC LU} _.
Arguments mem_world {W R CB LC LU} _.

Section Memory.
Context {W R C CB LC LU : Type} `{Mmio W R C} `{VmMemory W} `{MemCallbacks W CB LC LU}.
Abbreviation mem := (Memory W R CB LC LU).
Abbreviation M := (stm (Memory W R CB LC LU) mem_error).

Definition set_regions x (m : mem) : mem :=
  mkMemory x (mem_changed m) (mem_updated m) (mem_ram_bus m) (mem_mmio_bus m)
    (mem_io_bus m) (mem_io_regions m) (mem_world m).
Definition set_changed x (m : mem) : mem :=
  mkMemory (mem_regions m) x (mem_updated m) (mem_ram_bus m) (mem_mmio_bus m)
    (mem_io_bus m) (mem_io_regions m) (mem_world m).
Definition set_updated x (m : mem) : mem :=
  mkMemory (mem_regions m) (mem_changed m) x (mem_ram_bus m) (mem_mmio_bus m)
    (mem_io_bus m) (mem_io_regions m) (mem_world m).
Definition set_ram_bus x (m : mem) : mem :=
  mkMemory (mem_regions m) (mem_changed m) (mem_updated m) x (mem_mmio_bus m)
    (mem_io_bus m) (mem_io_regions m) (mem_world m).
Definition set_mmio_bus x (m : mem) : mem :=
  mkMemory (mem_regions m) (mem_changed m) (mem_updated m) (mem_ram_bus m) x
    (mem_io_bus m) (mem_io_regions m) (mem_world m).
Definition set_io_bus x (m : mem) : mem :=
  mkMemory (mem_regions m) (mem_changed m) (mem_updated m) (mem_ram_bus m) (mem_mmio_bus m)
    x (mem_io_regions m) (mem_world m).
Definition set_io_regions x (m : mem) : mem :=
  mkMemory (mem_regions m) (mem_changed m) (mem_updated m) (mem_ram_bus m) (mem_mmio_bus m)
    (mem_io_bus m) x (mem_world m).
Definition set_world x (m : mem) : mem :=
  mkMemory (mem_regions m) (mem_changed m) (mem_updated m) (mem_ram_bus m) (mem_mmio_bus m)
    (mem_io_bus m) (mem_io_regions m) x.

(** Running an operation of a component of [Memory] on its part of the state. *)
Definition on_world {E A} (f : W → W * outcome E A) (inj : E → mem_error) : M A :=
  λ m, let r := f (mem_world m) in (set_world (fst r) m, map_err inj (snd r)).
Definition on_regions {A} (f : list (Slot (MemRegion R CB)) → _ * outcome mem_error A) : M A :=
  λ m, let r := f (mem_regions m) in (set_regions (fst r) m, snd r).
Definition on_ram_bus {A} (f : list (Slot ArcMemPages) → _ * outcome mem_error A) : M A :=
  λ m, let r := f (mem_ram_bus m) in (set_ram_bus (fst r) m, snd r).
Definition on_mmio_bus {A} (f : list (Slot R) → _ * outcome mem_error A) : M A :=
  λ m, let r := f (mem_mmio_bus m) in (set_mmio_bus (fst r) m, snd r).
Definition on_io_bus {A} (f : list (Slot R) → _ * outcome mem_error A) : M A :=
  λ m, let r := f (mem_io_bus m) in (set_io_bus (fst r) m, snd r).
Definition on_io_regions {A} (f : list (Slot (IoRegion R CB)) → _ * outcome mem_error A) : M A :=
  λ m, let r := f (mem_io_regions m) in (set_io_regions (fst r) m, snd r).

Definition Memory_new (vm_memory : W) : mem := mkMemory [] [] [] [] [] [] [] vm_memory.

(** [register_change_callback]: told about the RAM already mapped, then kept. *)
Fixpoint notify_ranges (callback : LC) (addr offset : Z) (ranges : list (MemRange R)) : M unit :=
  match ranges with
  | [] => sret tt
  | range :: rest =>
      let gpa := u64 (addr + offset) in
      match range with
      | RangeRam r => on_world (lc_ram_added callback gpa r) id
      | RangeSpan _ | RangeEmulated _ | RangeDevMem _ => sret tt
      end ;;;
      notify_ranges callback addr (u64 (offset + range_size range)) rest
  end.

Definition register_change_callback (callback : LC) : M unit :=
  m <- sget ;;
  sfor (Addressable_iter (mem_regions m))
    (λ '(addr, region), notify_ranges callback addr 0 (region_ranges region)) ;;;
  smodify (λ m, set_changed (mem_changed m ++ [callback]) m).

Definition register_update_callback (callback : LU) : M unit :=
  m <- sget ;;
  on_world (lu_ram_updated callback (mem_ram_bus m)) id ;;;
  smodify (λ m, set_updated (mem_updated m ++ [callback]) m).

Definition map_to_vm (gpa : Z) (user_mem : ArcMemPages) : M unit :=
  on_world (hv_mem_map gpa (pg_size user_mem) (pg_addr user_mem)) HvError.

Definition unmap_from_vm (gpa : Z) (user_mem : ArcMemPages) : M unit :=
  on_world (hv_unmap gpa (pg_size user_mem)) HvError.

(** The body of the loop over the ranges in [add_region]; [ram_updated] in and out. *)
Definition map_range (gpa : Z) (ram_updated : bool) (range : MemRange R) : M bool :=
  match range with
  | RangeEmulated r => on_mmio_bus (λ b, MmioBus_add b gpa r) ;;; sret ram_updated
  | RangeRam r =>
      map_to_vm gpa r ;;;
      m <- sget ;;
      sfor (mem_changed m) (λ callback, on_world (lc_ram_added callback gpa r) id) ;;;
      on_ram_bus (λ b, RamBus_add b gpa r) ;;;
      sret true
  | RangeDevMem r => map_to_vm gpa r ;;; sret ram_updated
  | RangeSpan _ => sret ram_updated
  end.

Fixpoint map_ranges (addr offset : Z) (ram_updated : bool) (ranges : list (MemRange R)) : M bool :=
  match ranges with
  | [] => sret ram_updated
  | range :: rest =>
      updated <- map_range (u64 (addr + offset)) ram_updated range ;;
      map_ranges addr (u64 (offset + range_size range)) updated rest
  end.

Definition notify_updated (ram_updated : bool) : M unit :=
  m <- sget ;;
  if ram_updated then
    sfor (mem_updated m) (λ callback, on_world (lu_ram_updated callback (mem_ram_bus m)) id)
  else sret tt.

Definition add_region (addr : Z) (region : MemRegion R CB) : M unit :=
  slift (region_validate region) ;;;
  on_regions (λ l, Addressable_add l addr region) ;;;
  ram_updated <- map_ranges addr 0 false (region_ranges region) ;;
  notify_updated ram_updated ;;;
  sfor (region_callbacks region) (λ callback, on_world (cb_mapped callback addr) id).

Definition add_mmio_dev (addr : Z) (dev : R) : M unit :=
  add_region addr (with_emulated dev TypeHidden).

Definition unmap_range (gpa : Z) (ram_updated : bool) (range : MemRange R) : M bool :=
  match range with
  | RangeEmulated _ => on_mmio_bus (λ b, MmioBus_remove b gpa) ;;; sret ram_updated
  | RangeRam r =>
      on_ram_bus (λ b, RamBus_remove b gpa) ;;;
      m <- sget ;;
      sfor (reverse (mem_changed m))
        (λ callback, on_world (lc_ram_removed callback gpa r) id) ;;;
      unmap_from_vm gpa r ;;;
      sret true
  | RangeDevMem r => unmap_from_vm gpa r ;;; sret ram_updated
  | RangeSpan _ => sret ram_updated
  end.

Fixpoint unmap_ranges (addr offset : Z) (ram_updated : bool) (ranges : list (MemRange R)) : M bool :=
  match ranges with
  | [] => sret ram_updated
  | range :: rest =>
      updated <- unmap_range (u64 (addr + offset)) ram_updated range ;;
      unmap_ranges addr (u64 (offset + range_size range)) updated rest
  end.

Definition unmap_region (addr : Z) (region : MemRegion R CB) : M unit :=
  ram_updated <- unmap_ranges addr 0 false (region_ranges region) ;;
  notify_updated ram_updated ;;;
  sfor (region_callbacks region) (λ callback, on_world (cb_unmapped callback) id).

Definition remove_region (addr : Z) : M (MemRegion R CB) :=
  region <- on_regions (λ l, Addressable_remove l addr) ;;
  unmap_region addr region ;;;
  sret region.

(** ** Port I/O regions (x86_64) *)

Definition add_io_region (port : Z) (region : IoRegion R CB) : M unit :=
  on_io_regions (λ l, Addressable_add l port region) ;;;
  on_io_bus (λ b, MmioBus_add b port (io_range region)) ;;;
  sfor (io_callbacks region) (λ callback, on_world (cb_mapped callback port) id).

Definition add_io_dev (port : Z) (dev : R) : M unit := add_io_region port (mkIoRegion dev []).

Definition unmap_io_region (port : Z) (region : IoRegion R CB) : M unit :=
  on_io_bus (λ b, MmioBus_remove b port) ;;;
  sfor (io_callbacks region) (λ callback, on_world (cb_unmapped callback) id).

Definition remove_io_region (port : Z) : M (IoRegion R CB) :=
  io_region <- on_io_regions (λ l, Addressable_remove l port) ;;
  unmap_io_region port io_region ;;;
  sret io_region.

(** ** Clearing *)

Definition clear : M unit :=
  regions <- (λ m, (set_regions [] m, Ok (Addressable_iter (mem_regions m)))) ;;
  sfor regions (λ '(addr, region), unmap_region addr region) ;;;
  io_regions <- (λ m, (set_io_regions [] m, Ok (Addressable_iter (mem_io_regions m)))) ;;
  sfor io_regions (λ '(port, region), unmap_io_region (u16 port) region).

Definition reset : M unit :=
  clear ;;; on_world hv_reset HvError.

(** ** Queries *)

Fixpoint region_entries_at (start offset : Z) (es : list MemRegionEntry) : list (Z * MemRegionEntry) :=
  match es with
  | [] => []
  | e :: es' => (u64 (start + offset), e) :: region_entries_at start (u64 (offset + entry_size e)) es'
  end.

Definition mem_region_entries (m : mem) : list (Z * MemRegionEntry) :=
  mjoin ((λ '(start, region), region_entries_at start 0 (region_entries region)) <$>
         Addressable_iter (mem_regions m)).

Definition io_region_entries (m : mem) : list (Z * Z) :=
  (λ '(start, region), (start, mmio_size (io_range region))) <$> Addressable_iter (mem_io_regions m).

(** ** [mark_private_memory] *)

Inductive mark_step := MarkContinue (start : Z) | MarkBreakOut.

(** The inner [for] over the ranges of one region: [addr] is the cursor. *)
Fixpoint mark_ranges (end_ : Z) (private : bool) (addr start : Z) (ranges : list (MemRange R))
  : M mark_step :=
  match ranges with
  | [] => sret (MarkContinue start)
  | range :: rest =>
      match range with
      | RangeDevMem r | RangeRam r =>
          let range_end := u64 (addr + pg_size r) in
          if range_end <=? start then mark_ranges end_ private range_end start rest
          else
            let gpa_start := Z.max addr start in
            let gpa_end := Z.min end_ range_end in
            if gpa_end <=? gpa_start then sret MarkBreakOut
            else
              on_world (hv_mark_private gpa_start (gpa_end - gpa_start) private) HvError ;;;
              mark_ranges end_ private addr gpa_end rest
      | RangeEmulated _ | RangeSpan _ =>
          mark_ranges end_ private (u64 (addr + range_size range)) start rest
      end
  end.

(** The outer [while let].  Each round moves to a later region, so one round
    per region is enough, unless a region ends at 2^64: there the sum wraps to 0
    and the source starts over, without end when [end_] is above every region. *)
Fixpoint mark_regions (fuel : nat) (end_ : Z) (private : bool) (start : Z) : M unit :=
  match fuel with
  | O => spanic
  | S fuel' =>
      m <- sget ;;
      match Addressable_search_next (mem_regions m) start with
      | None => sret tt
      | Some (addr, region) =>
          let next_start := u64 (addr + region_size region) in
          step <- mark_ranges end_ private addr start (region_ranges region) ;;
          match step with
          | MarkBreakOut => sret tt
          | MarkContinue _ =>
              if end_ <=? next_start then sret tt
              else mark_regions fuel' end_ private next_start
          end
      end
  end.

Definition mark_private_memory (gpa size : Z) (private : bool) : M unit :=
  m <- sget ;;
  mark_regions (S (length (mem_regions m))) (u64 (gpa + size)) private gpa.

(** ** Exits from the guest *)

(** [ChangeLayout::change] of the callback an access may return. *)
Context (change : C → M unit).

Definition handle_action (action : Action C) (none : VmEntry) : M VmEntry :=
  match action with
  | ActNone => sret none
  | ActShutdown => sret VmEntryShutdown
  | ActReset => sret VmEntryReboot
  | ActChangeLayout callback => change callback ;;; sret none
  end.

Definition handle_mmio (gpa : Z) (write : option Z) (size : Z) : M VmEntry :=
  m <- sget ;;
  match write with
  | Some val =>
      action <- on_world (MmioBus_write (mem_mmio_bus m) gpa size val) id ;;
      handle_action action VmEntryNone
  | None =>
      data <- on_world (MmioBus_read (mem_mmio_bus m) gpa size) id ;;
      sret (VmEntryMmio data)
  end.

Definition handle_io (port : Z) (write : option Z) (size : Z) : M VmEntry :=
  m <- sget ;;
  match write with
  | Some val =>
      action <- on_world (MmioBus_write (mem_io_bus m) port size val) id ;;
      handle_action action (VmEntryIo None)
  | None =>
      data <- on_world (MmioBus_read (mem_io_bus m) port size) id ;;
      sret (VmEntryIo (Some (u32 data)))
  end.
End Memory.
