(* ===== verification/MemoryInv.v ===== *)
(** * Correctness of [Memory]

    The buses mirror the regions: after any sequence of successful operations the
    MMIO bus (the RAM bus, the port bus) holds exactly one slot per emulated range
    (RAM range, port region) of the mapped regions, at its address.  Adding and
    removing a region succeed exactly under their documented conditions, and an
    access to an emulated range reaches its device. *)

From S2P Require Import Prelude Utils MemTypes Addressable Emulated Mapped Memory.

(** ** The slots the ranges of a region occupy on a bus *)

Section Projections.
Context {W R C CB LC LU : Type} `{Mmio W R C}.
Context {B : Type} `{SlotBackend B} (proj : MemRange R → option B).
Context (proj_size : ∀ r b, proj r = Some b → slot_size b = range_size r).

Fixpoint ranges_total (rs : list (MemRange R)) : Z :=
  match rs with [] => 0 | r :: rs' => range_size r + ranges_total rs' end.

Definition ranges_typed (rs : list (MemRange R)) : Prop := Forall (λ r, in_u 64 (range_size r)) rs.

Fixpoint range_slots (addr : Z) (rs : list (MemRange R)) : list (Slot B) :=
  match rs with
  | [] => []
  | r :: rs' =>
      match proj r with
      | Some b => mkSlot addr b :: range_slots (addr + range_size r) rs'
      | None => range_slots (addr + range_size r) rs'
      end
  end.

Lemma ranges_total_nonneg rs : ranges_typed rs → 0 ≤ ranges_total rs.
Proof. induction 1 as [|r rs [? _] _ IH]; simpl; lia. Qed.

Lemma ranges_size_total rs :
  ranges_typed rs → ranges_total rs < 2 ^ 64 → ranges_size rs = ranges_total rs.
Proof.
  intros Ht Hlt. unfold ranges_size.
  enough (∀ a, 0 ≤ a → a + ranges_total rs < 2 ^ 64 →
    foldl (λ accu r, u64 (accu + range_size r)) a rs = a + ranges_total rs) as E.
  { rewrite E; lia. }
  clear Hlt. induction Ht as [|r rs [? _] Ht IH]; intros a Ha Hlt; simpl in *; [lia|].
  pose proof (ranges_total_nonneg rs Ht). rewrite wrap_small by (unfold in_u; lia).
  rewrite IH; lia.
Qed.

(** Every slot of a region lies between its base and its end. *)
Lemma range_slots_bound addr rs s :
  ranges_typed rs → s ∈ range_slots addr rs →
  addr ≤ slot_addr s ∧ slot_addr s + slot_size (slot_backend s) ≤ addr + ranges_total rs.
Proof.
  intros Ht. revert addr. induction Ht as [|r rs [? _] Ht IH]; intros addr Hs; simpl in *.
  { by apply elem_of_nil in Hs. }
  pose proof (ranges_total_nonneg rs Ht).
  destruct (proj r) as [b|] eqn:E; [apply elem_of_cons in Hs as [->|Hs]|].
  - simpl. rewrite (proj_size _ _ E). lia.
  - destruct (IH _ Hs). lia.
  - destruct (IH _ Hs). lia.
Qed.

(** A bus holds exactly the slots of the regions. *)
Definition bus_mirrors (regions : list (Slot (MemRegion R CB))) (bus : list (Slot B)) : Prop :=
  Addressable_wf bus ∧
  ∀ s, s ∈ bus ↔
    ∃ r, r ∈ regions ∧ s ∈ range_slots (slot_addr r) (region_ranges (slot_backend r)).

Definition region_fits (r : MemRegion R CB) : Prop :=
  ranges_typed (region_ranges r) ∧ ranges_total (region_ranges r) ≤ region_size r.

Lemma region_slots_covered (r : Slot (MemRegion R CB)) s :
  region_fits (slot_backend r) →
  s ∈ range_slots (slot_addr r) (region_ranges (slot_backend r)) →
  slot_addr r ≤ slot_addr s ∧ slot_end s ≤ slot_end r.
Proof.
  intros [Ht Hle] Hs. destruct (range_slots_bound _ _ _ Ht Hs). unfold slot_end.
  unfold slot_size at 2, region_backend. lia.
Qed.
End Projections.

Definition emu_of {R} (r : MemRange R) : option R :=
  match r with RangeEmulated d => Some d | _ => None end.
Definition ram_of {R} (r : MemRange R) : option ArcMemPages :=
  match r with RangeRam p => Some p | _ => None end.

(** ** The effect of each operation on the buses *)

Section Effects.
Context {W R C CB LC LU : Type} `{Mmio W R C} `{VmMemory W} `{MemCallbacks W CB LC LU}.
Abbreviation mem := (Memory W R CB LC LU).
Abbreviation M := (stm (Memory W R CB LC LU) mem_error).
Abbreviation emu_slots := (range_slots (R := R) emu_of).
Abbreviation ram_slots := (range_slots (R := R) ram_of).

Lemma emu_of_size (r : MemRange R) d : emu_of r = Some d → slot_size d = range_size r.
Proof. destruct r; simpl; naive_solver. Qed.
Lemma ram_of_size (r : MemRange R) p : ram_of r = Some p → slot_size p = range_size r.
Proof. destruct r; simpl; naive_solver. Qed.

(** Everything but the state of the hypervisor, the devices and the callbacks. *)
Definition shape (m : mem) :=
  (mem_regions m, mem_changed m, mem_updated m, mem_ram_bus m, mem_mmio_bus m,
   mem_io_bus m, mem_io_regions m).
(** Everything but the two memory buses and that state. *)
Definition frame (m : mem) :=
  (mem_regions m, mem_changed m, mem_updated m, mem_io_bus m, mem_io_regions m).

Lemma keeps_on_world {E A} (f : W → W * outcome E A) inj : keeps shape (on_world f inj : M A).
Proof. by intros m. Qed.

Lemma notify_updated_keeps b : keeps shape (notify_updated b : M unit).
Proof.
  intros m. unfold notify_updated, sbind, sget. destruct b; [|done].
  apply keeps_for. intros x. apply keeps_on_world.
Qed.

Lemma map_to_vm_keeps gpa p : keeps shape (map_to_vm gpa p : M unit).
Proof. apply keeps_on_world. Qed.
Lemma unmap_from_vm_keeps gpa p : keeps shape (unmap_from_vm gpa p : M unit).
Proof. apply keeps_on_world. Qed.

Definition adds {B} `{SlotBackend B} (new l l' : list (Slot B)) : Prop :=
  Addressable_wf l' ∧ ∀ s, s ∈ l' ↔ s ∈ new ∨ s ∈ l.
Definition removes {B} `{SlotBackend B} (old l l' : list (Slot B)) : Prop :=
  Addressable_wf l' ∧ (∀ s, s ∈ l' ↔ s ∈ l ∧ slot_addr s ∉ slot_addr <$> old).

Lemma adds_nil {B} `{SlotBackend B} (l : list (Slot B)) : Addressable_wf l → adds [] l l.
Proof. split; [done|]. intros s. rewrite elem_of_nil. naive_solver. Qed.
Lemma removes_nil {B} `{SlotBackend B} (l : list (Slot B)) : Addressable_wf l → removes [] l l.
Proof. split; [done|]. intros s. simpl. rewrite elem_of_nil. naive_solver. Qed.
Lemma adds_cons {B} `{SlotBackend B} s new (l l' l'' : list (Slot B)) :
  (∀ t, t ∈ l' ↔ t = s ∨ t ∈ l) → adds new l' l'' → adds (s :: new) l l''.
Proof. intros E [? E']. split; [done|]. intros t. rewrite E', E, elem_of_cons. naive_solver. Qed.
Lemma removes_cons {B} `{SlotBackend B} s old (l l' l'' : list (Slot B)) :
  (∀ t, t ∈ l' ↔ t ∈ l ∧ slot_addr t ≠ slot_addr s) → removes old l' l'' →
  removes (s :: old) l l''.
Proof.
  intros E [? E']. split; [done|]. intros t. rewrite E', E, fmap_cons, elem_of_cons. naive_solver.
Qed.

Lemma on_mmio_bus_ok {A} (f : list (Slot R) → _ * outcome mem_error A) m m' a :
  (on_mmio_bus f : M A) m = (m', Ok a) →
  f (mem_mmio_bus m) = (mem_mmio_bus m', Ok a) ∧
  frame m' = frame m ∧ mem_ram_bus m' = mem_ram_bus m.
Proof.
  unfold on_mmio_bus. destruct (f (mem_mmio_bus m)) as [l r]. simpl. intros [= <- ->]. done.
Qed.
Lemma on_ram_bus_ok {A} (f : list (Slot ArcMemPages) → _ * outcome mem_error A) m m' a :
  (on_ram_bus f : M A) m = (m', Ok a) →
  f (mem_ram_bus m) = (mem_ram_bus m', Ok a) ∧
  frame m' = frame m ∧ mem_mmio_bus m' = mem_mmio_bus m.
Proof.
  unfold on_ram_bus. destruct (f (mem_ram_bus m)) as [l r]. simpl. intros [= <- ->]. done.
Qed.

Lemma map_range_keeps gpa upd r : keeps frame (map_range gpa upd r : M bool).
Proof.
  destruct r; simpl; repeat first [apply keeps_bind; [|intros ?] | apply keeps_for; intros ?
    | apply keeps_ret]; by intros m.
Qed.
Lemma unmap_range_keeps gpa upd r : keeps frame (unmap_range gpa upd r : M bool).
Proof.
  destruct r; simpl; repeat first [apply keeps_bind; [|intros ?] | apply keeps_for; intros ?
    | apply keeps_ret]; by intros m.
Qed.
Lemma map_ranges_keeps addr offset upd rs : keeps frame (map_ranges addr offset upd rs : M bool).
Proof.
  revert offset upd. induction rs as [|r rs IH]; intros; simpl; [apply keeps_ret|].
  apply keeps_bind; [apply map_range_keeps|auto].
Qed.
Lemma unmap_ranges_keeps addr offset upd rs :
  keeps frame (unmap_ranges addr offset upd rs : M bool).
Proof.
  revert offset upd. induction rs as [|r rs IH]; intros; simpl; [apply keeps_ret|].
  apply keeps_bind; [apply unmap_range_keeps|auto].
Qed.

(** One range: what success of the body says about the buses. *)
Lemma map_range_ok gpa upd r m m' u :
  (map_range gpa upd r : M bool) m = (m', Ok u) →
  match emu_of r with
  | Some d => ∃ i, Addressable_add (mem_mmio_bus m) gpa d = (mem_mmio_bus m', Ok i)
  | None => mem_mmio_bus m' = mem_mmio_bus m
  end ∧
  match ram_of r with
  | Some p => ∃ i, Addressable_add (mem_ram_bus m) gpa p = (mem_ram_bus m', Ok i)
  | None => mem_ram_bus m' = mem_ram_bus m
  end.
Proof.
  destruct r as [p|p|d|z]; simpl; intros E.
  - inv_ok E. apply (keeps_Ok shape) in Ek; [|apply keeps_on_world]. inv_ok E.
    injection Ek0 as <- <-. inv_ok E.
    apply (keeps_Ok shape) in Ek0; [|apply keeps_for; intros ?; apply keeps_on_world].
    inv_ok E. injection E as <- <-. apply on_ram_bus_ok in Ek1 as (Ea & Ef & ->).
    unfold shape in *. simplify_eq. unfold RamBus_add in Ea.
    split; [congruence|]. destruct (Addressable_add _ _ _) as [l [i| |]] eqn:E; simplify_eq/=.
    exists i. congruence.
  - inv_ok E. injection E as <- <-. apply (keeps_Ok shape) in Ek; [|apply keeps_on_world].
    unfold shape in Ek. by simplify_eq.
  - inv_ok E. injection E as <- <-. apply on_mmio_bus_ok in Ek as (Ea & Ef & ->).
    split; [|done]. unfold MmioBus_add in Ea.
    destruct (Addressable_add _ _ _) as [l [i| |]] eqn:E; simplify_eq/=. by exists i.
  - injection E as <- <-. done.
Qed.
Lemma unmap_range_ok gpa upd r m m' u :
  (unmap_range gpa upd r : M bool) m = (m', Ok u) →
  match emu_of r with
  | Some d => ∃ b, Addressable_remove (mem_mmio_bus m) gpa = (mem_mmio_bus m', Ok b)
  | None => mem_mmio_bus m' = mem_mmio_bus m
  end ∧
  match ram_of r with
  | Some p => ∃ b, Addressable_remove (mem_ram_bus m) gpa = (mem_ram_bus m', Ok b)
  | None => mem_ram_bus m' = mem_ram_bus m
  end.
Proof.
  destruct r as [p|p|d|z]; simpl; intros E.
  - inv_ok E. apply on_ram_bus_ok in Ek as (Ea & Ef & Em). inv_ok E. injection Ek as <- <-.
    inv_ok E. apply (keeps_Ok shape) in Ek; [|apply keeps_for; intros ?; apply keeps_on_world].
    inv_ok E. apply (keeps_Ok shape) in Ek0; [|apply keeps_on_world]. injection E as <- <-.
    unfold shape in *. simplify_eq. unfold RamBus_remove in Ea.
    split; [congruence|]. exists a. congruence.
  - inv_ok E. injection E as <- <-. apply (keeps_Ok shape) in Ek; [|apply keeps_on_world].
    unfold shape in Ek. by simplify_eq.
  - inv_ok E. injection E as <- <-. apply on_mmio_bus_ok in Ek as (Ea & Ef & ->).
    split; [by exists a|done].
  - injection E as <- <-. done.
Qed.

Section BusStep.
Context {B : Type} `{SlotBackend B} (proj : MemRange R → option B).
Context (proj_size : ∀ r b, proj r = Some b → slot_size b = range_size r).

Lemma adds_step base r rs (l l' l'' : list (Slot B)) :
  Addressable_wf l → in_u 64 (range_size r) → 0 ≤ base → base + range_size r ≤ 2 ^ 64 →
  match proj r with
  | Some b => ∃ i, Addressable_add l (u64 base) b = (l', Ok i)
  | None => l' = l
  end →
  Addressable_wf l' ∧
  (adds (range_slots proj (base + range_size r) rs) l' l'' →
   adds (range_slots proj base (r :: rs)) l l'').
Proof.
  intros Hwf Ht Hb He Hs. simpl. destruct (proj r) as [b|] eqn:E; [|by subst l'].
  destruct Hs as [i Hs]. rewrite <- (proj_size _ _ E) in *.
  apply bus_add_ok in Hs as (Hwf' & Hpos & _ & Hin); [|done|by apply wrap_in_u|done].
  rewrite wrap_small in Hin by (unfold in_u; lia).
  split; [done|]. by apply adds_cons.
Qed.

Lemma removes_step base r rs (l l' l'' : list (Slot B)) :
  Addressable_wf l → 0 ≤ base → (range_size r ≠ 0 → base < 2 ^ 64) →
  (is_Some (proj r) → range_size r ≠ 0) →
  match proj r with
  | Some _ => ∃ b, Addressable_remove l (u64 base) = (l', Ok b)
  | None => l' = l
  end →
  Addressable_wf l' ∧
  (removes (range_slots proj (base + range_size r) rs) l' l'' →
   removes (range_slots proj base (r :: rs)) l l'').
Proof.
  intros Hwf Hb He Hnz Hs. simpl. destruct (proj r) as [d|] eqn:E; [|by subst l'].
  destruct Hs as [b Hs]. specialize (He (Hnz ltac:(done))).
  apply bus_remove_ok in Hs as (Hwf' & _ & Hin); [|done].
  rewrite wrap_small in Hin by (unfold in_u; lia).
  split; [done|]. by apply removes_cons.
Qed.
End BusStep.

(** The loops: success adds (removes) exactly the slots of the ranges. *)
Lemma map_ranges_ok addr offset upd rs m m' u :
  (map_ranges addr offset upd rs : M bool) m = (m', Ok u) →
  Addressable_wf (mem_mmio_bus m) → Addressable_wf (mem_ram_bus m) →
  ranges_typed rs → 0 ≤ addr → 0 ≤ offset →
  offset + ranges_total rs < 2 ^ 64 → addr + offset + ranges_total rs ≤ 2 ^ 64 →
  adds (emu_slots (addr + offset) rs) (mem_mmio_bus m) (mem_mmio_bus m') ∧
  adds (ram_slots (addr + offset) rs) (mem_ram_bus m) (mem_ram_bus m').
Proof.
  intros E Hm Hr Ht. revert offset upd m E Hm Hr.
  induction Ht as [|r rs Hz Ht IH]; intros offset upd m E Hm Hr Ha Ho Hlt Hle; simpl in *.
  { injection E as <- <-. split; by apply adds_nil. }
  pose proof (ranges_total_nonneg rs Ht). destruct (Hz) as [Hz0 _].
  inv_ok E. apply map_range_ok in Ek as [E1 E2].
  rewrite (wrap_small 64 (offset + _)) in E by (unfold in_u; lia).
  eapply (adds_step emu_of emu_of_size (addr + offset) r rs) in E1 as [Hm' K1]; [|done|done|lia..].
  eapply (adds_step ram_of ram_of_size (addr + offset) r rs) in E2 as [Hr' K2]; [|done|done|lia..].
  destruct (IH _ _ _ E Hm' Hr') as [IH1 IH2]; [lia..|].
  rewrite (Z.add_assoc addr offset) in IH1, IH2. split; [by apply K1|by apply K2].
Qed.

(** Emulated and RAM ranges that are on a bus are not empty. *)
Definition ranges_nonempty (rs : list (MemRange R)) : Prop :=
  Forall (λ r, is_Some (emu_of r) ∨ is_Some (ram_of r) → range_size r ≠ 0) rs.

Lemma unmap_ranges_ok addr offset upd rs m m' u :
  (unmap_ranges addr offset upd rs : M bool) m = (m', Ok u) →
  Addressable_wf (mem_mmio_bus m) → Addressable_wf (mem_ram_bus m) →
  ranges_typed rs → ranges_nonempty rs → 0 ≤ addr → 0 ≤ offset →
  offset + ranges_total rs < 2 ^ 64 → addr + offset + ranges_total rs ≤ 2 ^ 64 →
  removes (emu_slots (addr + offset) rs) (mem_mmio_bus m) (mem_mmio_bus m') ∧
  removes (ram_slots (addr + offset) rs) (mem_ram_bus m) (mem_ram_bus m').
Proof.
  intros E Hm Hr Ht. revert offset upd m E Hm Hr.
  induction Ht as [|r rs Hz Ht IH]; intros offset upd m E Hm Hr Hne Ha Ho Hlt Hle; simpl in *.
  { injection E as <- <-. split; by apply removes_nil. }
  apply Forall_cons in Hne as [Hne1 Hne].
  pose proof (ranges_total_nonneg rs Ht). destruct (Hz) as [Hz0 _].
  inv_ok E. apply unmap_range_ok in Ek as [E1 E2].
  rewrite (wrap_small 64 (offset + _)) in E by (unfold in_u; lia).
  eapply (removes_step emu_of (addr + offset) r rs) in E1 as [Hm' K1];
    [|done|lia|lia|naive_solver].
  eapply (removes_step ram_of (addr + offset) r rs) in E2 as [Hr' K2];
    [|done|lia|lia|naive_solver].
  destruct (IH _ _ _ E Hm' Hr') as [IH1 IH2]; [done|lia..|].
  rewrite (Z.add_assoc addr offset) in IH1, IH2. split; [by apply K1|by apply K2].
Qed.
End Effects.

(** ** The invariant *)

Section Mirrors.
Context {W R C CB LC LU : Type} `{Mmio W R C}.
Context {B : Type} `{SlotBackend B} (proj : MemRange R → option B).
Context (proj_size : ∀ r b, proj r = Some b → slot_size b = range_size r).
Implicit Types (rs : list (Slot (MemRegion R CB))) (bus : list (Slot B)).
Abbreviation slots_of r := (range_slots proj (slot_addr r) (region_ranges (slot_backend r))).
Abbreviation mirrors := (bus_mirrors (CB := CB) proj).

Lemma slot_addr_inj {D} `{SlotBackend D} (l : list (Slot D)) s t :
  Addressable_wf l → s ∈ l → t ∈ l → slot_addr s = slot_addr t → s = t.
Proof.
  intros Hwf Hs Ht E. pose proof (slots_map_lookup 0 l s Hwf Hs) as E1.
  pose proof (slots_map_lookup 0 l t Hwf Ht) as E2. rewrite E, E2 in E1.
  destruct s, t. simpl in *. by simplify_eq.
Qed.

Lemma mirrors_add rs rs' bus bus' r :
  (∀ t, t ∈ rs' ↔ t = r ∨ t ∈ rs) → mirrors rs bus → adds (slots_of r) bus bus' → mirrors rs' bus'.
Proof.
  intros Hrs [_ Hb] [Hwf' Hb']. split; [done|]. intros s. rewrite Hb', Hb. split.
  - intros [Hs|(t & Ht & Hs)]; [exists r|exists t]; rewrite Hrs; auto.
  - intros (t & [->|Ht]%Hrs & Hs); [by left|right; by exists t].
Qed.

Lemma mirrors_remove rs rs' bus bus' r :
  Addressable_wf rs → (∀ t, t ∈ rs → region_fits (slot_backend t)) → r ∈ rs →
  (∀ t, t ∈ rs' ↔ t ∈ rs ∧ slot_addr t ≠ slot_addr r) →
  mirrors rs bus → removes (slots_of r) bus bus' → mirrors rs' bus'.
Proof.
  intros Hwf Hfit Hr Hrs [Hbwf Hb] [Hwf' Hb']. split; [done|]. intros s. rewrite Hb'. split.
  - intros [(t & Ht & Hs)%Hb Hni]. exists t. split; [|done]. apply Hrs. split; [done|].
    intros E. apply (slot_addr_inj rs) in E as ->; [|done..].
    apply Hni, list_elem_of_fmap. by exists s.
  - intros (t & [Ht Hne]%Hrs & Hs). assert (s ∈ bus) as Hsb by (apply Hb; by exists t).
    split; [done|]. intros (s2 & E & Hs2)%list_elem_of_fmap_1.
    assert (s2 ∈ bus) as Hsb2 by (apply Hb; by exists r).
    apply (slot_addr_inj bus) in E as ->; [|done..].
    destruct (region_slots_covered proj proj_size t s2 (Hfit t Ht) Hs) as [? ?].
    destruct (region_slots_covered proj proj_size r s2 (Hfit r Hr) Hs2) as [? ?].
    destruct (slots_wf_bound _ _ _ Hbwf Hsb) as (_ & ? & _). apply Hne.
    apply list_elem_of_lookup_1 in Ht as [i Ht], Hr as [j Hr].
    assert (i = j) as ->; [|naive_solver].
    eapply (covers_unique 0 rs i j t r (slot_addr s2)); unfold covers; try done; lia.
Qed.

Lemma range_slots_elem base (xs : list (MemRange R)) x b :
  x ∈ xs → proj x = Some b → ∃ a, mkSlot a b ∈ range_slots proj base xs.
Proof.
  intros Hx E. revert base. induction Hx as [xs|x y xs Hx IH]; intros base; simpl.
  - rewrite E. eexists. constructor.
  - destruct (IH E (base + range_size y)) as [a Ha]. exists a.
    destruct (proj y); [by constructor|done].
Qed.

Lemma mirrors_nonempty rs bus r x :
  mirrors rs bus → r ∈ rs → x ∈ region_ranges (slot_backend r) → is_Some (proj x) →
  range_size x ≠ 0.
Proof.
  intros [Hwf Hb] Hr Hx [b E]. destruct (range_slots_elem (slot_addr r) _ _ _ Hx E) as [a Ha].
  assert (mkSlot a b ∈ bus) as Hs by (apply Hb; by exists r).
  destruct (slots_wf_bound _ _ _ Hwf Hs) as (_ & Hlt & _). unfold slot_end in Hlt.
  simpl in Hlt. rewrite (proj_size _ _ E) in Hlt. lia.
Qed.
End Mirrors.

Section Invariant.
Context {W R C CB LC LU : Type} `{Mmio W R C} `{VmMemory W} `{MemCallbacks W CB LC LU}.
Abbreviation mem := (Memory W R CB LC LU).
Abbreviation M := (stm (Memory W R CB LC LU) mem_error).

(** The regions a pair of buses mirrors need not be the ones registered: while
    [clear] runs, the regions are already gone. *)
Record layout_inv (rs : list (Slot (MemRegion R CB))) (m : mem) : Prop := {
  inv_regions : Addressable_wf rs;
  inv_fits : ∀ r, r ∈ rs → region_fits (slot_backend r);
  inv_mmio : bus_mirrors emu_of rs (mem_mmio_bus m);
  inv_ram : bus_mirrors ram_of rs (mem_ram_bus m)
}.

Record io_inv (rs : list (Slot (IoRegion R CB))) (m : mem) : Prop := {
  inv_io_regions : Addressable_wf rs;
  inv_ports : ∀ r, r ∈ rs → in_u 16 (slot_addr r);
  inv_io_bus : Addressable_wf (mem_io_bus m);
  inv_io : ∀ s, s ∈ mem_io_bus m ↔
    ∃ r, r ∈ rs ∧ s = mkSlot (slot_addr r) (io_range (slot_backend r))
}.

Definition mem_inv (m : mem) : Prop := layout_inv (mem_regions m) m ∧ io_inv (mem_io_regions m) m.

Definition region_typed (r : MemRegion R CB) : Prop :=
  ranges_typed (region_ranges r) ∧ ranges_total (region_ranges r) < 2 ^ 64.

Lemma region_size_in_u (r : MemRegion R CB) : in_u 64 (region_size r).
Proof.
  unfold region_size. assert (∀ es a, in_u 64 a →
    in_u 64 (foldl (λ accu e, u64 (accu + entry_size e)) a es)) as Hf; [|by apply Hf].
  induction es as [|e es IH]; intros a Ha; [done|]. simpl. apply IH. by apply wrap_in_u.
Qed.

Lemma validate_fits (r : MemRegion R CB) :
  region_typed r → region_validate r = Ok tt → region_fits r.
Proof.
  intros [Ht Hlt]. unfold region_validate. rewrite ranges_size_total by done.
  destruct (Z.ltb_spec (region_size r) (ranges_total (region_ranges r))); [done|].
  by split.
Qed.

Lemma layout_nonempty rs m r :
  layout_inv rs m → r ∈ rs → ranges_nonempty (region_ranges (slot_backend r)).
Proof.
  intros [_ _ Hm Hr] Hin. apply Forall_forall. intros x Hx [Hs|Hs].
  - by eapply (mirrors_nonempty emu_of emu_of_size).
  - by eapply (mirrors_nonempty ram_of ram_of_size).
Qed.

Lemma layout_inv_frame rs m m' :
  mem_mmio_bus m' = mem_mmio_bus m → mem_ram_bus m' = mem_ram_bus m →
  layout_inv rs m → layout_inv rs m'.
Proof. intros E1 E2 []. split; rewrite ?E1, ?E2; done. Qed.
Lemma io_inv_frame rs m m' : mem_io_bus m' = mem_io_bus m → io_inv rs m → io_inv rs m'.
Proof. intros E1 []. split; rewrite ?E1; done. Qed.

Lemma add_region_ok addr region m m' :
  mem_inv m → in_u 64 addr → region_typed region →
  (add_region addr region : M unit) m = (m', Ok tt) → mem_inv m'.
Proof.
  intros [[Hwf Hfit Hm Hr] Hio] Ha Ht E. unfold add_region in E.
  inv_ok E. injection Ek as <- Hv. destruct a. apply validate_fits in Hv; [|done].
  inv_ok E. unfold on_regions in Ek.
  destruct (Addressable_add (mem_regions m) addr region) as [rs' o] eqn:Ea.
  simpl in Ek. injection Ek as <- ->.
  apply bus_add_ok in Ea as (Hwf' & _ & Hend & Hin); [|done|done|apply region_size_in_u].
  inv_ok E. inv_ok E. apply (keeps_Ok shape) in Ek0; [|apply notify_updated_keeps].
  apply (keeps_Ok shape) in E; [|apply keeps_for; intros ?; apply keeps_on_world].
  pose proof (keeps_Ok frame _ _ _ _ (map_ranges_keeps _ _ _ _) Ek) as Ef.
  destruct Hv as [Hty Hle]. pose proof (region_size_in_u region) as [_ Hrs].
  unfold slot_size, region_backend in Hend. destruct Ha as [Ha _].
  apply map_ranges_ok in Ek as [K1 K2]; simpl; try done; try lia; [|apply Hm|apply Hr].
  rewrite Z.add_0_r in K1, K2. unfold shape, frame in *. simpl in *. simplify_eq.
  assert (mem_regions m' = mem_regions s ∧ mem_mmio_bus m' = mem_mmio_bus s ∧
    mem_ram_bus m' = mem_ram_bus s) as (E1 & E2 & E3) by (split_and!; congruence).
  split; [split; rewrite ?E1, ?E2, ?E3|].
  - done.
  - intros r [->|Hr']%Hin; [by split|by apply Hfit].
  - by eapply (mirrors_add emu_of _ _ _ _ (mkSlot addr region)).
  - by eapply (mirrors_add ram_of _ _ _ _ (mkSlot addr region)).
  - replace (mem_io_regions m') with (mem_io_regions m) by congruence.
    apply (io_inv_frame _ m); [congruence|done].
Qed.

Lemma unmap_region_ok rs rs' r m m' :
  layout_inv rs m → r ∈ rs → (∀ t, t ∈ rs' ↔ t ∈ rs ∧ slot_addr t ≠ slot_addr r) →
  Addressable_wf rs' →
  (unmap_region (slot_addr r) (slot_backend r) : M unit) m = (m', Ok tt) →
  layout_inv rs' m' ∧ frame m' = frame m.
Proof.
  intros Hinv Hr Hrs Hwf' E. pose proof (layout_nonempty _ _ _ Hinv Hr) as Hne.
  destruct Hinv as [Hwf Hfit Hm Hra]. unfold unmap_region in E.
  inv_ok E. inv_ok E. apply (keeps_Ok shape) in Ek0; [|apply notify_updated_keeps].
  apply (keeps_Ok shape) in E; [|apply keeps_for; intros ?; apply keeps_on_world].
  pose proof (keeps_Ok frame _ _ _ _ (unmap_ranges_keeps _ _ _ _) Ek) as Ef.
  destruct (Hfit r Hr) as [Hty Hle]. pose proof (region_size_in_u (slot_backend r)) as [_ ?].
  destruct (slots_wf_bound _ _ _ Hwf Hr) as (? & ? & Hend). unfold slot_end in Hend.
  unfold slot_size, region_backend in Hend.
  apply unmap_ranges_ok in Ek as [K1 K2]; try done; try lia; [|apply Hm|apply Hra].
  rewrite Z.add_0_r in K1, K2. unfold shape, frame in *. simplify_eq.
  assert (mem_mmio_bus m' = mem_mmio_bus s ∧ mem_ram_bus m' = mem_ram_bus s)
    as [E2 E3] by (split_and!; congruence).
  split; [split; rewrite ?E2, ?E3|congruence].
  - done.
  - intros t [Ht _]%Hrs. by apply Hfit.
  - by eapply (mirrors_remove emu_of emu_of_size rs _ _ _ r).
  - by eapply (mirrors_remove ram_of ram_of_size rs _ _ _ r).
Qed.

Lemma remove_region_ok addr region m m' :
  mem_inv m → (remove_region addr : M _) m = (m', Ok region) →
  mem_inv m' ∧ mkSlot addr region ∈ mem_regions m ∧
  ∀ t, t ∈ mem_regions m' ↔ t ∈ mem_regions m ∧ slot_addr t ≠ addr.
Proof.
  intros [Hinv Hio] E. unfold remove_region in E. inv_ok E. inv_ok E.
  injection E as <- <-. unfold on_regions in Ek.
  destruct (Addressable_remove (mem_regions m) addr) as [rs' o] eqn:Ea.
  simpl in Ek. injection Ek as <- ->.
  apply bus_remove_ok in Ea as (Hwf' & Hin & Hrs); [|apply Hinv]. destruct a0.
  eapply (unmap_region_ok _ rs' (mkSlot addr a)) in Ek0 as [Hl Ef];
    [|by eapply (layout_inv_frame _ m)|done..].
  unfold frame in Ef. cbn [set_regions mem_regions mem_changed mem_updated mem_io_bus mem_io_regions] in Ef.
  injection Ef as E1 _ _ E2 E3. split; [|by rewrite E1].
  split; [by rewrite E1|]. rewrite E3. by eapply (io_inv_frame _ m).
Qed.

(** ** Port regions *)

Lemma io_mirrors_remove (rs rs' : list (Slot (IoRegion R CB))) (bus bus' : list (Slot R)) addr :
  (∀ t, t ∈ rs' ↔ t ∈ rs ∧ slot_addr t ≠ addr) →
  (∀ s, s ∈ bus' ↔ s ∈ bus ∧ slot_addr s ≠ addr) →
  (∀ s, s ∈ bus ↔ ∃ r, r ∈ rs ∧ s = mkSlot (slot_addr r) (io_range (slot_backend r))) →
  ∀ s, s ∈ bus' ↔ ∃ r, r ∈ rs' ∧ s = mkSlot (slot_addr r) (io_range (slot_backend r)).
Proof.
  intros Hrs Hb' Hb s. rewrite Hb', Hb. split.
  - intros [(r & Hr & ->) Hne]. exists r. split; [by apply Hrs|done].
  - intros (r & [Hr Hne]%Hrs & ->). split; [by exists r|done].
Qed.

Lemma on_io_bus_ok {A} (f : list (Slot R) → _ * outcome mem_error A) m m' a :
  (on_io_bus f : M A) m = (m', Ok a) →
  f (mem_io_bus m) = (mem_io_bus m', Ok a) ∧ mem_regions m' = mem_regions m ∧
  mem_mmio_bus m' = mem_mmio_bus m ∧ mem_ram_bus m' = mem_ram_bus m ∧
  mem_io_regions m' = mem_io_regions m.
Proof.
  unfold on_io_bus. destruct (f (mem_io_bus m)) as [l r]. simpl. intros [= <- ->]. done.
Qed.

Lemma add_io_region_ok port region m m' :
  mem_inv m → in_u 16 port → in_u 64 (mmio_size (io_range region)) →
  (add_io_region port region : M unit) m = (m', Ok tt) → mem_inv m'.
Proof.
  intros [Hl [Hwf Hp Hb Hio]] Ha Ht E. assert (in_u 64 port) by (by apply (in_u_mono 16)).
  unfold add_io_region in E. inv_ok E. unfold on_io_regions in Ek.
  destruct (Addressable_add (mem_io_regions m) port region) as [rs' o] eqn:Ea.
  simpl in Ek. injection Ek as <- ->. apply bus_add_ok in Ea as (Hwf' & _ & _ & Hin); [|done..].
  inv_ok E. apply (keeps_Ok shape) in E; [|apply keeps_for; intros ?; apply keeps_on_world].
  apply on_io_bus_ok in Ek as (Ea & E1 & E2 & E3 & E4). simpl in *. unfold MmioBus_add in Ea.
  destruct (Addressable_add (mem_io_bus m) port _) as [l [i| |]] eqn:Ea'; simplify_eq/=.
  apply bus_add_ok in Ea' as (Hbwf' & _ & _ & Hbin); [|done..].
  unfold shape in E. simplify_eq.
  split.
  - replace (mem_regions m') with (mem_regions m) by congruence.
    apply (layout_inv_frame _ m); [congruence..|done].
  - assert (mem_io_regions m' = mem_io_regions s ∧ mem_io_bus m' = mem_io_bus s) as [R1 R2]
      by (split; congruence). split; rewrite ?R1, ?R2; [done| |done|].
    + intros r [->|Hr]%Hin; [done|by apply Hp].
    + intros t. rewrite Hbin, Hio. split.
      * intros [->|(r & Hr & ->)]; [exists (mkSlot port region)|exists r]; rewrite Hin; auto.
      * intros (r & [->|Hr]%Hin & ->); [by left|right; by exists r].
Qed.
Lemma unmap_io_region_ok rs rs' r m m' :
  io_inv rs m → Addressable_wf rs' → (∀ t, t ∈ rs' ↔ t ∈ rs ∧ slot_addr t ≠ slot_addr r) →
  (unmap_io_region (slot_addr r) (slot_backend r) : M unit) m = (m', Ok tt) →
  io_inv rs' m' ∧ mem_regions m' = mem_regions m ∧ mem_mmio_bus m' = mem_mmio_bus m ∧
  mem_ram_bus m' = mem_ram_bus m ∧ mem_io_regions m' = mem_io_regions m.
Proof.
  intros [Hwf Hp Hb Hio] Hwf' Hrs E. unfold unmap_io_region in E. inv_ok E.
  apply (keeps_Ok shape) in E; [|apply keeps_for; intros ?; apply keeps_on_world].
  apply on_io_bus_ok in Ek as (Ea & E1 & E2 & E3 & E4). unfold shape in E.
  apply bus_remove_ok in Ea as (Hb' & _ & Hbin); [|done].
  injection E as R1 _ _ R2 R3 R4 R5. split; [|split_and!; congruence].
  split; rewrite ?R4; [done| |done|].
  - intros t [Ht _]%Hrs. by apply Hp.
  - by eapply io_mirrors_remove.
Qed.

Lemma remove_io_region_ok port region m m' :
  mem_inv m → (remove_io_region port : M _) m = (m', Ok region) → mem_inv m'.
Proof.
  intros [Hinv Hio] E. unfold remove_io_region in E. inv_ok E. inv_ok E.
  injection E as <- <-. unfold on_io_regions in Ek.
  destruct (Addressable_remove (mem_io_regions m) port) as [rs' o] eqn:Ea.
  simpl in Ek. injection Ek as <- ->.
  apply bus_remove_ok in Ea as (Hwf' & _ & Hrs); [|apply Hio]. destruct a0.
  eapply (unmap_io_region_ok _ rs' (mkSlot port a)) in Ek0 as (Hl & E1 & E2 & E3 & E4);
    [|by eapply (io_inv_frame _ m)|done..].
  split; [rewrite E1; by apply (layout_inv_frame _ m)|by rewrite E4].
Qed.

Lemma wf_tail {D} `{SlotBackend D} (r : Slot D) rs :
  Addressable_wf (r :: rs) →
  Addressable_wf rs ∧ ∀ t, t ∈ rs ↔ t ∈ r :: rs ∧ slot_addr t ≠ slot_addr r.
Proof.
  intros Hwf. pose proof (slots_wf_NoDup _ _ Hwf) as [Hn _]%NoDup_cons.
  destruct Hwf as (?&?&?&Hwf). split; [by eapply slots_wf_weaken; [|done]; lia|].
  intros t. rewrite elem_of_cons. split; [|naive_solver].
  intros Ht. split; [by right|]. intros E. apply Hn. rewrite <- E.
  apply list_elem_of_fmap. by exists t.
Qed.

Lemma unmap_all_ok rs m m' :
  layout_inv rs m →
  sfor (Addressable_iter rs) (λ '(addr, region), unmap_region addr region : M unit) m = (m', Ok tt) →
  layout_inv [] m' ∧ frame m' = frame m.
Proof.
  revert m. induction rs as [|r rs IH]; intros m Hinv E; simpl in E; [by injection E as <-|].
  inv_ok E. destruct a. destruct (wf_tail r rs (inv_regions _ _ Hinv)) as [Hwf Hrs].
  apply (unmap_region_ok (r :: rs) rs r) in Ek as [Hinv' Ef]; [|done|by constructor|done..].
  apply IH in E as [? Ef']; [|done]. split; [done|congruence].
Qed.

Lemma unmap_all_io_ok rs m m' :
  io_inv rs m →
  sfor (Addressable_iter rs) (λ '(port, region), unmap_io_region (u16 port) region : M unit) m
    = (m', Ok tt) →
  io_inv [] m' ∧ mem_regions m' = mem_regions m ∧ mem_mmio_bus m' = mem_mmio_bus m ∧
  mem_ram_bus m' = mem_ram_bus m ∧ mem_io_regions m' = mem_io_regions m.
Proof.
  revert m. induction rs as [|r rs IH]; intros m Hinv E; simpl in E; [by injection E as <-|].
  inv_ok E. destruct a. destruct (wf_tail r rs (inv_io_regions _ _ Hinv)) as [Hwf Hrs].
  rewrite wrap_small in Ek by (apply (inv_ports _ _ Hinv); constructor).
  apply (unmap_io_region_ok (r :: rs) rs r) in Ek as (Hinv' & ? & ? & ? & ?); [|done..].
  apply IH in E as (? & ? & ? & ? & ?); [|done]. split_and!; congruence || done.
Qed.

Lemma reset_ok m m' :
  mem_inv m → (reset : M unit) m = (m', Ok tt) →
  mem_inv m' ∧ mem_regions m' = [] ∧ mem_io_regions m' = [] ∧
  mem_mmio_bus m' = [] ∧ mem_ram_bus m' = [] ∧ mem_io_bus m' = [].
Proof.
  intros [Hinv Hio] E. unfold reset in E. inv_ok E.
  apply (keeps_Ok shape) in E; [|apply keeps_on_world]. unfold clear in Ek.
  inv_ok Ek. injection Ek0 as <- <-. inv_ok Ek.
  destruct a0. apply unmap_all_ok in Ek0 as [Hl Ef]; [|by apply (layout_inv_frame _ m)].
  inv_ok Ek. injection Ek0 as <- <-. destruct a.
  injection Ef as F1 _ _ F2 F3. simpl in F1, F2, F3.
  apply unmap_all_io_ok in Ek as (Hi & E1 & E2 & E3 & E4);
    [|rewrite F3; by apply (io_inv_frame _ m)].
  injection E as R1 _ _ R2 R3 R4 R5. simpl in *.
  apply (layout_inv_frame _ _ m') in Hl; [|congruence..].
  apply (io_inv_frame _ _ m') in Hi; [|done].
  assert (mem_regions m' = [] ∧ mem_io_regions m' = []) as [G1 G2] by (split; congruence).
  split; [by split; rewrite ?G1, ?G2|]. split_and!; [done..| | |].
  - apply (slots_wf_ext 0 0 _ []); [apply Hl|done|]. intros t.
    rewrite (proj2 (inv_mmio _ _ Hl) t). split; [intros (r & Hr & _)|intros Hr];
      by apply elem_of_nil in Hr.
  - apply (slots_wf_ext 0 0 _ []); [apply Hl|done|]. intros t.
    rewrite (proj2 (inv_ram _ _ Hl) t). split; [intros (r & Hr & _)|intros Hr];
      by apply elem_of_nil in Hr.
  - apply (slots_wf_ext 0 0 _ []); [apply Hi|done|]. intros t.
    rewrite (inv_io _ _ Hi t). split; [intros (r & Hr & _)|intros Hr];
      by apply elem_of_nil in Hr.
Qed.

(** ** Steps of the memory *)

Inductive mem_op :=
| OpAddRegion (addr : Z) (region : MemRegion R CB)
| OpRemoveRegion (addr : Z)
| OpAddIoRegion (port : Z) (region : IoRegion R CB)
| OpRemoveIoRegion (port : Z)
| OpReset
| OpRegisterChange (callback : LC)
| OpRegisterUpdate (callback : LU).

Definition mem_op_typed (o : mem_op) : Prop :=
  match o with
  | OpAddRegion addr region => in_u 64 addr ∧ region_typed region
  | OpAddIoRegion port region => in_u 16 port ∧ in_u 64 (mmio_size (io_range region))
  | _ => True
  end.

Definition discard {A} (p : M A) : M unit := sbind p (λ _, sret tt).

Definition run_mem_op (o : mem_op) : M unit :=
  match o with
  | OpAddRegion addr region => add_region addr region
  | OpRemoveRegion addr => discard (remove_region addr)
  | OpAddIoRegion port region => add_io_region port region
  | OpRemoveIoRegion port => discard (remove_io_region port)
  | OpReset => reset
  | OpRegisterChange callback => register_change_callback callback
  | OpRegisterUpdate callback => register_update_callback callback
  end.

(** The states reached by calls that return [Ok]; guest accesses change only
    the devices ([mem_world]) unless they return a layout change, which is again
    such calls. *)
Inductive mem_reachable (w : W) : mem → Prop :=
| reach_new : mem_reachable w (Memory_new w)
| reach_op m o m' :
    mem_reachable w m → mem_op_typed o → run_mem_op o m = (m', Ok tt) → mem_reachable w m'
| reach_world m w' : mem_reachable w m → mem_reachable w (set_world w' m).

Lemma notify_ranges_keeps cb addr offset rs : keeps shape (notify_ranges cb addr offset rs : M unit).
Proof.
  revert offset. induction rs as [|r rs IH]; intros offset; simpl; [apply keeps_ret|].
  apply keeps_bind; [|auto]. destruct r; apply keeps_ret || apply keeps_on_world.
Qed.

Lemma run_mem_op_inv o m m' :
  mem_inv m → mem_op_typed o → run_mem_op o m = (m', Ok tt) → mem_inv m'.
Proof.
  intros Hinv Ht E. destruct o; simpl in *;
    unfold discard, register_change_callback, register_update_callback in E.
  - destruct Ht. by eapply add_region_ok.
  - inv_ok E. injection E as <-. by eapply remove_region_ok.
  - destruct Ht. by eapply add_io_region_ok.
  - inv_ok E. injection E as <-. by eapply remove_io_region_ok.
  - by eapply reset_ok.
  - inv_ok E. injection Ek as <- <-. inv_ok E. injection E as <-.
    apply (keeps_Ok shape) in Ek.
    + injection Ek as R1 _ _ R2 R3 R4 R5. destruct Hinv. split; simpl.
      * rewrite R1. by apply (layout_inv_frame _ m).
      * rewrite R5. by apply (io_inv_frame _ m).
    + apply keeps_for. intros []. apply notify_ranges_keeps.
  - inv_ok E. injection Ek as <- <-. inv_ok E. injection E as <-.
    apply (keeps_Ok shape) in Ek; [|apply keeps_on_world].
    injection Ek as R1 _ _ R2 R3 R4 R5. destruct Hinv. split; simpl.
    + rewrite R1. by apply (layout_inv_frame _ m).
    + rewrite R5. by apply (io_inv_frame _ m).
Qed.

Lemma reachable_inv w m : mem_reachable w m → mem_inv m.
Proof.
  induction 1 as [|m o m' _ IH Ht E|m w' _ IH].
  - split; split; simpl; try done; try (split; [done|]); set_solver.
  - by eapply run_mem_op_inv.
  - destruct IH. by split; [apply (layout_inv_frame _ m)|apply (io_inv_frame _ m)].
Qed.
End Invariant.

(** ** An environment that does not fail *)

(** The hypervisor and the callbacks return [Ok]; [MappedTotal] says so of the
    callback a region's owner registered. *)
Class EnvTotal (W CB LC LU : Type) `{VmMemory W} `{MemCallbacks W CB LC LU} : Prop := {
  mem_map_total : ∀ gpa size hva w, is_ok (snd (hv_mem_map gpa size hva w));
  unmap_total : ∀ gpa size w, is_ok (snd (hv_unmap gpa size w));
  unmapped_total : ∀ cb w, is_ok (snd (cb_unmapped cb w));
  ram_added_total : ∀ lc gpa p w, is_ok (snd (lc_ram_added lc gpa p w));
  ram_removed_total : ∀ lc gpa p w, is_ok (snd (lc_ram_removed lc gpa p w));
  ram_updated_total : ∀ lu ram w, is_ok (snd (lu_ram_updated lu ram w))
}.

Class MappedTotal (W CB LC LU : Type) `{MemCallbacks W CB LC LU} : Prop :=
  mapped_total : ∀ cb addr w, is_ok (snd (cb_mapped cb addr w)).

Section Totality.
Context {W R C CB LC LU : Type} `{Mmio W R C} `{!VmMemory W} `{!MemCallbacks W CB LC LU}
        `{!EnvTotal W CB LC LU}.
Abbreviation mem := (Memory W R CB LC LU).
Abbreviation M := (stm (Memory W R CB LC LU) mem_error).

Lemma total_on_world {E A} (f : W → W * outcome E A) inj :
  (∀ w, is_ok (snd (f w))) → total (on_world f inj : M A).
Proof.
  intros Hf m. unfold on_world. specialize (Hf (mem_world m)).
  destruct (f (mem_world m)) as [w [a| |]]; [by eexists _, _|done..].
Qed.

Lemma notify_updated_total b : total (notify_updated b : M unit).
Proof.
  intros m. unfold notify_updated, sbind, sget. destruct b; [|by eexists _, _].
  apply total_for. intros x. apply total_on_world, ram_updated_total.
Qed.

Lemma callbacks_total {T} (xs : list T) (f : T → W → W * outcome mem_error unit) m :
  (∀ x w, is_ok (snd (f x w))) →
  ∃ m', sfor xs (λ x, on_world (f x) id : M unit) m = (m', Ok tt) ∧ shape m' = shape m.
Proof.
  intros Hf. destruct (total_for xs (λ x, on_world (f x) id : M unit)) with (s := m)
    as (m' & [] & E); [intros x; by apply total_on_world|].
  exists m'. split; [done|]. apply (keeps_Ok shape) in E; [done|].
  apply keeps_for. intros x. apply keeps_on_world.
Qed.

(** A slot list that leaves an interval free. *)
Definition avoids {B} `{SlotBackend B} (lo hi : Z) (l : list (Slot B)) : Prop :=
  ∀ c, c ∈ l → slot_end c ≤ lo ∨ hi ≤ slot_addr c.

Lemma avoids_add {B} `{SlotBackend B} (l : list (Slot B)) base hi b :
  Addressable_wf l → avoids base hi l → 0 ≤ base → base + slot_size b ≤ hi → hi ≤ 2 ^ 64 →
  in_u 64 (slot_size b) → slot_size b ≠ 0 →
  ∃ l' i, Addressable_add l (u64 base) b = (l', Ok i) ∧ Addressable_wf l' ∧
    avoids (base + slot_size b) hi l'.
Proof.
  intros Hwf Hav Hb Hhi Hmax Hz Hnz. destruct (Hz) as [Hz0 _].
  rewrite wrap_small by (unfold in_u; lia).
  destruct (bus_add_total l base b) as (l' & i & E); try done; [unfold in_u; lia|lia|lia| |].
  { intros c Hc [Ho1 Ho2]. unfold slot_end in Ho2. simpl in *. destruct (Hav c Hc); lia. }
  exists l', i. split; [done|]. apply bus_add_ok in E as (Hwf' & _ & _ & Hin);
    [|done|unfold in_u; lia|done].
  split; [done|]. intros c [->|Hc]%Hin; [by left|]. destruct (Hav c Hc); [left|right]; lia.
Qed.

Lemma avoids_mono {B} `{SlotBackend B} (l : list (Slot B)) lo lo' hi :
  lo ≤ lo' → avoids lo hi l → avoids lo' hi l.
Proof. intros Hle Hav c Hc. destruct (Hav c Hc); [left|right]; lia. Qed.

Lemma map_range_total base upd r m hi :
  Addressable_wf (mem_mmio_bus m) → Addressable_wf (mem_ram_bus m) →
  in_u 64 (range_size r) → 0 ≤ base → base + range_size r ≤ hi → hi ≤ 2 ^ 64 →
  (is_Some (emu_of r) ∨ is_Some (ram_of r) → range_size r ≠ 0) →
  avoids base hi (mem_mmio_bus m) → avoids base hi (mem_ram_bus m) →
  ∃ m' u, (map_range (u64 base) upd r : M bool) m = (m', Ok u) ∧
    Addressable_wf (mem_mmio_bus m') ∧ Addressable_wf (mem_ram_bus m') ∧
    avoids (base + range_size r) hi (mem_mmio_bus m') ∧
    avoids (base + range_size r) hi (mem_ram_bus m').
Proof.
  intros Hm Hr Ht Hb Hle Hhi Hne Am Ar. destruct (Ht) as [Hz0 _].
  assert (∀ gpa p, total (map_to_vm gpa p : M unit)) as Tmap.
  { intros gpa p. apply total_on_world, mem_map_total. }
  destruct r as [p|p|d|z]; simpl in *.
  - destruct (Tmap (u64 base) p m) as (m1 & [] & E1).
    pose proof (keeps_Ok shape _ _ _ _ (map_to_vm_keeps _ _) E1) as F1.
    destruct (callbacks_total (mem_changed m1) (λ cb, lc_ram_added cb (u64 base) p) m1)
      as (m2 & E2 & F2); [intros; apply ram_added_total|].
    injection F1 as _ _ _ R1 R2 _ _. injection F2 as _ _ _ R3 R4 _ _.
    destruct (avoids_add (mem_ram_bus m2) base hi p) as (l' & i & E3 & Hwf' & Av');
      try done; try (rewrite R3, R1; done); [by apply Hne; right|].
    eexists (set_ram_bus l' m2), true. split.
    { eapply sbind_Ok_intro; [exact E1|]. eapply sbind_Ok_intro; [done|].
      eapply sbind_Ok_intro; [exact E2|]. eapply sbind_Ok_intro; [|done].
      unfold on_ram_bus, RamBus_add. by rewrite E3. }
    simpl. rewrite R4, R2. split_and!; try done. eapply avoids_mono; [|done]. lia.
  - destruct (Tmap (u64 base) p m) as (m1 & [] & E1).
    pose proof (keeps_Ok shape _ _ _ _ (map_to_vm_keeps _ _) E1) as F1.
    injection F1 as _ _ _ R1 R2 _ _. exists m1, upd. split; [by eapply sbind_Ok_intro|].
    rewrite R1, R2. split_and!; try done; (eapply avoids_mono; [|done]; lia).
  - destruct (avoids_add (mem_mmio_bus m) base hi d) as (l' & i & E3 & Hwf' & Av');
      try done; [by apply Hne; left|].
    eexists (set_mmio_bus l' m), upd. split.
    { eapply sbind_Ok_intro; [|done]. unfold on_mmio_bus, MmioBus_add. by rewrite E3. }
    simpl. split_and!; try done. eapply avoids_mono; [|done]. lia.
  - exists m, upd. split_and!; try done; (eapply avoids_mono; [|done]; lia).
Qed.

Lemma map_ranges_total addr offset upd rs m :
  Addressable_wf (mem_mmio_bus m) → Addressable_wf (mem_ram_bus m) →
  ranges_typed rs → ranges_nonempty rs → 0 ≤ addr → 0 ≤ offset →
  offset + ranges_total rs < 2 ^ 64 → addr + offset + ranges_total rs ≤ 2 ^ 64 →
  avoids (addr + offset) (addr + offset + ranges_total rs) (mem_mmio_bus m) →
  avoids (addr + offset) (addr + offset + ranges_total rs) (mem_ram_bus m) →
  ∃ m' u, (map_ranges addr offset upd rs : M bool) m = (m', Ok u).
Proof.
  intros Hm Hr Ht. revert offset upd m Hm Hr.
  induction Ht as [|r rs Hz Ht IH]; intros offset upd m Hm Hr Hne Ha Ho Hlt Hle Am Ar; simpl in *.
  { by eexists _, _. }
  apply Forall_cons in Hne as [Hne1 Hne].
  pose proof (ranges_total_nonneg rs Ht). destruct (Hz) as [Hz0 _].
  destruct (map_range_total (addr + offset) upd r m (addr + offset + (range_size r + ranges_total rs)))
    as (m1 & u & E1 & Hm1 & Hr1 & Am1 & Ar1); try done; try lia.
  destruct (IH (offset + range_size r) u m1) as (m2 & u2 & E2); try done; try lia.
  { replace (addr + (offset + range_size r)) with (addr + offset + range_size r) by lia.
    by replace (addr + offset + range_size r + ranges_total rs)
      with (addr + offset + (range_size r + ranges_total rs)) by lia. }
  { replace (addr + (offset + range_size r)) with (addr + offset + range_size r) by lia.
    by replace (addr + offset + range_size r + ranges_total rs)
      with (addr + offset + (range_size r + ranges_total rs)) by lia. }
  exists m2, u2. eapply sbind_Ok_intro; [exact E1|].
  by rewrite wrap_small by (unfold in_u; lia).
Qed.
End Totality.
