(* ===== verification/MemoryThm.v ===== *)
(** * The theorems about [Memory]

    Outcomes of [add_region] and [remove_region] in an environment that does not
    fail, the round trip, the routing of guest accesses, and the behaviour of
    [mark_private_memory] on a region with several RAM ranges. *)

From S2P Require Import Prelude Utils MemTypes Addressable Emulated Mapped Memory MemoryInv.

Section Outcomes.
Context {W R C CB LC LU : Type} `{Mmio W R C} `{!VmMemory W} `{!MemCallbacks W CB LC LU}
        `{!EnvTotal W CB LC LU}.
Abbreviation mem := (Memory W R CB LC LU).
Abbreviation M := (stm (Memory W R CB LC LU) mem_error).

(** ** Adding *)

Lemma mirrors_avoid {B} `{SlotBackend B} (proj : MemRange R → option B)
  (proj_size : ∀ r b, proj r = Some b → slot_size b = range_size r)
  (rs : list (Slot (MemRegion R CB))) bus lo hi :
  (∀ t, t ∈ rs → region_fits (slot_backend t)) → bus_mirrors proj rs bus →
  avoids lo hi rs → avoids lo hi bus.
Proof.
  intros Hfit [Hwf Hb] Hav c Hc. apply Hb in Hc as (t & Ht & Hs).
  destruct (region_slots_covered proj proj_size t c (Hfit t Ht) Hs).
  destruct (Hav t Ht); [left|right]; lia.
Qed.

(** Everything in [add_region] up to the region's own callbacks. *)
Definition add_region_core (addr : Z) (region : MemRegion R CB) : M unit :=
  sbind (slift (region_validate region)) (λ _,
  sbind (on_regions (λ l, Addressable_add l addr region)) (λ _,
  sbind (map_ranges addr 0 false (region_ranges region)) notify_updated)).

Lemma add_region_split addr region m m1 :
  (add_region_core addr region : M unit) m = (m1, Ok tt) →
  (add_region addr region : M unit) m =
    sfor (region_callbacks region) (λ callback, on_world (cb_mapped callback addr) id) m1.
Proof.
  unfold add_region_core, add_region. intros E. inv_ok E. inv_ok E. inv_ok E.
  eapply sbind_Ok_intro; [done|]. eapply sbind_Ok_intro; [done|].
  eapply sbind_Ok_intro; [done|]. by eapply sbind_Ok_intro.
Qed.

Lemma add_region_core_total addr region m :
  mem_inv m → in_u 64 addr → region_typed region → ranges_nonempty (region_ranges region) →
  region_validate region = Ok tt → is_ok (snd (Addressable_add (mem_regions m) addr region)) →
  ∃ m', (add_region_core addr region : M unit) m = (m', Ok tt).
Proof.
  intros [[Hwf Hfit Hm Hr] _] Ha Ht Hne Hv Hok.
  destruct (Addressable_add (mem_regions m) addr region) as [rs' [i| |]] eqn:Ea; [|done..].
  pose proof (add_outcome _ addr region Hwf Ha (region_size_in_u region)) as [_ Ho].
  rewrite Ea in Ho. cbn [fst snd] in Ho. destruct Ho as (Hpos & Hend & Hfree & _).
  pose proof (validate_fits _ Ht Hv) as [Hty Hle]. pose proof (region_size_in_u region) as [_ ?].
  unfold slot_size, region_backend in Hpos, Hend. destruct Ha as [Ha _].
  assert (avoids addr (addr + ranges_total (region_ranges region)) (mem_regions m)) as Hav.
  { intros t Hin. specialize (Hfree t Hin).
    unfold overlaps, slot_end, slot_size, region_backend in *. simpl in *. lia. }
  destruct (map_ranges_total addr 0 false (region_ranges region) (set_regions rs' m))
    as (m1 & u & E1); simpl; try done; try lia; try apply Hm; try apply Hr;
    try (rewrite !Z.add_0_r); try (by eapply mirrors_avoid; eauto using emu_of_size, ram_of_size).
  destruct (notify_updated_total u m1) as (m2 & [] & E2).
  exists m2. unfold add_region_core. eapply sbind_Ok_intro; [by unfold slift; rewrite Hv|].
  eapply sbind_Ok_intro; [unfold on_regions; by rewrite Ea|].
  by eapply sbind_Ok_intro.
Qed.

Lemma add_region_total `{!MappedTotal W CB LC LU} addr region m :
  mem_inv m → in_u 64 addr → region_typed region → ranges_nonempty (region_ranges region) →
  region_validate region = Ok tt → is_ok (snd (Addressable_add (mem_regions m) addr region)) →
  ∃ m', (add_region addr region : M unit) m = (m', Ok tt).
Proof.
  intros Hinv Ha Ht Hne Hv Hok.
  destruct (add_region_core_total addr region m Hinv Ha Ht Hne Hv Hok) as (m1 & E1).
  rewrite (add_region_split _ _ _ _ E1).
  destruct (callbacks_total (region_callbacks region) (λ cb, cb_mapped cb addr) m1)
    as (m2 & E2 & _); [intros; apply mapped_total|by exists m2].
Qed.

(** ** Removing *)

Section BusRemove.
Context {B : Type} `{SlotBackend B} (proj : MemRange R → option B).
Context (proj_size : ∀ r b, proj r = Some b → slot_size b = range_size r).

Lemma remove_step_total base r rs (l : list (Slot B)) :
  Addressable_wf l → ranges_typed (r :: rs) → 0 ≤ base → base + range_size r ≤ 2 ^ 64 →
  (is_Some (proj r) → range_size r ≠ 0) →
  (∀ s, s ∈ range_slots proj base (r :: rs) → s ∈ l) →
  match proj r with
  | Some _ => ∃ l' b, Addressable_remove l (u64 base) = (l', Ok b) ∧ Addressable_wf l' ∧
              ∀ s, s ∈ range_slots proj (base + range_size r) rs → s ∈ l'
  | None => ∀ s, s ∈ range_slots proj (base + range_size r) rs → s ∈ l
  end.
Proof.
  intros Hwf [[Hz0 _] Ht]%Forall_cons Hb Hle Hnz Hsub. simpl in Hsub.
  destruct (proj r) as [d|] eqn:E; [|done]. specialize (Hnz ltac:(done)).
  rewrite wrap_small by (unfold in_u; lia).
  destruct (bus_remove_total l (mkSlot base d)) as (l' & b & Er); [done|apply Hsub; constructor|].
  exists l', b. split; [done|]. apply bus_remove_ok in Er as (Hwf' & _ & Hin); [|done].
  split; [done|]. intros s Hs. apply Hin. split; [apply Hsub; by constructor|].
  destruct (range_slots_bound proj proj_size _ _ _ Ht Hs). simpl. lia.
Qed.
End BusRemove.

Lemma unmap_range_total base upd r rs m :
  Addressable_wf (mem_mmio_bus m) → Addressable_wf (mem_ram_bus m) →
  ranges_typed (r :: rs) → 0 ≤ base → base + range_size r ≤ 2 ^ 64 →
  (is_Some (emu_of r) ∨ is_Some (ram_of r) → range_size r ≠ 0) →
  (∀ s, s ∈ range_slots emu_of base (r :: rs) → s ∈ mem_mmio_bus m) →
  (∀ s, s ∈ range_slots ram_of base (r :: rs) → s ∈ mem_ram_bus m) →
  ∃ m' u, (unmap_range (u64 base) upd r : M bool) m = (m', Ok u) ∧
    Addressable_wf (mem_mmio_bus m') ∧ Addressable_wf (mem_ram_bus m') ∧
    (∀ s, s ∈ range_slots emu_of (base + range_size r) rs → s ∈ mem_mmio_bus m') ∧
    (∀ s, s ∈ range_slots ram_of (base + range_size r) rs → s ∈ mem_ram_bus m').
Proof.
  intros Hm Hr Ht Hb Hle Hne Sm Sr.
  pose proof (remove_step_total emu_of emu_of_size base r rs _ Hm Ht Hb Hle ltac:(auto) Sm) as Em.
  pose proof (remove_step_total ram_of ram_of_size base r rs _ Hr Ht Hb Hle ltac:(auto) Sr) as Er.
  assert (∀ gpa p, total (unmap_from_vm gpa p : M unit)) as Tun.
  { intros gpa p. apply total_on_world, unmap_total. }
  destruct r as [p|p|d|z]; simpl in *.
  - destruct Er as (l' & b & E1 & Hwf' & Hs).
    destruct (callbacks_total (reverse (mem_changed (set_ram_bus l' m)))
      (λ cb, lc_ram_removed cb (u64 base) p) (set_ram_bus l' m))
      as (m2 & E2 & F2); [intros; apply ram_removed_total|].
    destruct (Tun (u64 base) p m2) as (m3 & [] & E3).
    pose proof (keeps_Ok shape _ _ _ _ (unmap_from_vm_keeps _ _) E3) as F3.
    injection F2 as _ _ _ R1 R2 _ _. injection F3 as _ _ _ R3 R4 _ _. simpl in *.
    exists m3, true. split; [|rewrite R4, R2, R3, R1; done].
    eapply sbind_Ok_intro; [unfold on_ram_bus, RamBus_remove; by rewrite E1|].
    eapply sbind_Ok_intro; [done|]. eapply sbind_Ok_intro; [exact E2|].
    by eapply sbind_Ok_intro.
  - destruct (Tun (u64 base) p m) as (m1 & [] & E1).
    pose proof (keeps_Ok shape _ _ _ _ (unmap_from_vm_keeps _ _) E1) as F1.
    injection F1 as _ _ _ R1 R2 _ _. exists m1, upd. rewrite R1, R2.
    split; [by eapply sbind_Ok_intro|done].
  - destruct Em as (l' & b & E1 & Hwf' & Hs). exists (set_mmio_bus l' m), upd.
    split; [|done]. eapply sbind_Ok_intro; [|done].
    unfold on_mmio_bus, MmioBus_remove. by rewrite E1.
  - by exists m, upd.
Qed.

Lemma unmap_ranges_total addr offset upd rs m :
  Addressable_wf (mem_mmio_bus m) → Addressable_wf (mem_ram_bus m) →
  ranges_typed rs → ranges_nonempty rs → 0 ≤ addr → 0 ≤ offset →
  offset + ranges_total rs < 2 ^ 64 → addr + offset + ranges_total rs ≤ 2 ^ 64 →
  (∀ s, s ∈ range_slots emu_of (addr + offset) rs → s ∈ mem_mmio_bus m) →
  (∀ s, s ∈ range_slots ram_of (addr + offset) rs → s ∈ mem_ram_bus m) →
  ∃ m' u, (unmap_ranges addr offset upd rs : M bool) m = (m', Ok u).
Proof.
  revert offset upd m. induction rs as [|r rs IH];
    intros offset upd m Hm Hr Ht Hne Ha Ho Hlt Hle Sm Sr; [by eexists _, _|].
  destruct (unmap_range_total (addr + offset) upd r rs m)
    as (m1 & u & E1 & Hm1 & Hr1 & Sm1 & Sr1); try done; try lia.
  { apply Forall_cons in Ht as [_ Ht]. pose proof (ranges_total_nonneg rs Ht). simpl in *. lia. }
  { by apply Forall_cons in Hne as [Hne _]. }
  apply Forall_cons in Ht as [[Hz0 _] Ht]. apply Forall_cons in Hne as [_ Hne].
  pose proof (ranges_total_nonneg rs Ht). simpl in *. rewrite <- Z.add_assoc in Sm1, Sr1.
  destruct (IH (offset + range_size r) u m1) as (m2 & u2 & E2); try done; try lia.
  exists m2, u2. eapply sbind_Ok_intro; [exact E1|].
  by rewrite wrap_small by (unfold in_u; lia).
Qed.

Lemma remove_region_total addr region m :
  mem_inv m → mkSlot addr region ∈ mem_regions m →
  ∃ m', (remove_region addr : M _) m = (m', Ok region).
Proof.
  intros [Hinv _] Hin. pose proof (layout_nonempty _ _ _ Hinv Hin) as Hne.
  destruct Hinv as [Hwf Hfit Hm Hr].
  destruct (bus_remove_total (mem_regions m) _ Hwf Hin) as (rs' & b & Ea). simpl in Ea.
  assert (b = region) as ->.
  { pose proof (bus_remove_ok _ _ _ _ Hwf Ea) as (_ & Hb & _).
    by apply (slot_addr_inj _ _ _ Hwf Hb) in Hin as [= ->]. }
  destruct (Hfit _ Hin) as [Hty Hle]. pose proof (region_size_in_u region) as [_ ?].
  destruct (slots_wf_bound _ _ _ Hwf Hin) as (? & ? & Hend). unfold slot_end in *.
  unfold slot_size, region_backend in *. simpl in *.
  destruct (unmap_ranges_total addr 0 false (region_ranges region) (set_regions rs' m))
    as (m1 & u & E1); simpl; try done; try lia; try apply Hm; try apply Hr.
  { intros s Hs. rewrite Z.add_0_r in Hs. apply Hm. by exists (mkSlot addr region). }
  { intros s Hs. rewrite Z.add_0_r in Hs. apply Hr. by exists (mkSlot addr region). }
  destruct (notify_updated_total u m1) as (m2 & [] & E2).
  destruct (callbacks_total (region_callbacks region) cb_unmapped m2)
    as (m3 & E3 & _); [intros; apply unmapped_total|].
  exists m3. unfold remove_region. eapply sbind_Ok_intro; [unfold on_regions; by rewrite Ea|].
  eapply sbind_Ok_intro; [|done]. unfold unmap_region.
  eapply sbind_Ok_intro; [exact E1|]. by eapply sbind_Ok_intro.
Qed.

(** What a successful [add_region] does to the regions. *)
Lemma add_region_regions addr region m m' :
  mem_inv m → in_u 64 addr → (add_region addr region : M unit) m = (m', Ok tt) →
  (∀ t, t ∈ mem_regions m' ↔ t = mkSlot addr region ∨ t ∈ mem_regions m) ∧
  (∀ t, t ∈ mem_regions m → slot_addr t ≠ addr).
Proof.
  intros [[Hwf _ _ _] _] Ha E. unfold add_region in E. inv_ok E. injection Ek as <- _.
  inv_ok E. unfold on_regions in Ek.
  destruct (Addressable_add (mem_regions m) addr region) as [rs' o] eqn:Ea.
  simpl in Ek. injection Ek as <- ->. inv_ok E. inv_ok E.
  apply (keeps_Ok shape) in Ek0; [|apply notify_updated_keeps].
  apply (keeps_Ok shape) in E; [|apply keeps_for; intros ?; apply keeps_on_world].
  apply (keeps_Ok frame) in Ek; [|apply map_ranges_keeps].
  injection E as E1 _ _ _ _ _ _. injection Ek0 as E2 _ _ _ _ _ _. injection Ek as E3 _ _ _ _.
  rewrite E1, E2, E3. cbn [set_regions mem_regions].
  pose proof (add_outcome _ addr region Hwf Ha (region_size_in_u region)) as [_ Ho].
  rewrite Ea in Ho. cbn [fst snd] in Ho. destruct Ho as (Hpos & _ & Hfree & -> & _).
  split; [intros t; rewrite vec_insert_perm; apply elem_of_cons|].
  intros t Hin Heq. apply (Hfree t Hin).
  destruct (slots_wf_bound _ _ _ Hwf Hin) as (_ & ? & _).
  unfold overlaps, slot_end in *. simpl. lia.
Qed.
End Outcomes.

(** ** Properties *)

(** C4: after any sequence of successful calls on a new [Memory], the mapped
    regions are sorted, disjoint and within 64 bits; the MMIO bus holds exactly
    one slot per emulated range of those regions, at the region's address plus
    the sizes of the ranges before it; the RAM bus likewise for the RAM ranges;
    and the port bus one slot per port region. *)
Theorem memory_buses_mirror_regions {W R C CB LC LU : Type} `{Mmio W R C} `{!VmMemory W}
  `{!MemCallbacks W CB LC LU} (w : W) (m : Memory W R CB LC LU) :
  mem_reachable w m →
  Addressable_wf (mem_regions m) ∧
  (Addressable_wf (mem_mmio_bus m) ∧ ∀ s, s ∈ mem_mmio_bus m ↔
     ∃ r, r ∈ mem_regions m ∧ s ∈ range_slots emu_of (slot_addr r) (region_ranges (slot_backend r))) ∧
  (Addressable_wf (mem_ram_bus m) ∧ ∀ s, s ∈ mem_ram_bus m ↔
     ∃ r, r ∈ mem_regions m ∧ s ∈ range_slots ram_of (slot_addr r) (region_ranges (slot_backend r))) ∧
  (Addressable_wf (mem_io_bus m) ∧ ∀ s, s ∈ mem_io_bus m ↔
     ∃ r, r ∈ mem_io_regions m ∧ s = mkSlot (slot_addr r) (io_range (slot_backend r))).
Proof. intros Hr. destruct (reachable_inv _ _ Hr) as [[? _ ? ?] [_ _ ? ?]]. by repeat (split; [done|]). Qed.

(** C5: [add_region] is atomic.  With a hypervisor and callbacks that succeed and
    a region without empty emulated or RAM ranges, it either maps the region,
    which then fits its entries and overlaps no other, or changes nothing and
    returns the error of the validation or of the region list. *)
Theorem memory_add_region_outcome {W R C CB LC LU : Type} `{Mmio W R C} `{!VmMemory W}
  `{!MemCallbacks W CB LC LU} `{!EnvTotal W CB LC LU} `{!MappedTotal W CB LC LU}
  (w : W) (m : Memory W R CB LC LU) addr region :
  mem_reachable w m → in_u 64 addr → region_typed region →
  ranges_nonempty (region_ranges region) →
  match add_region addr region m with
  | (m', Ok _) =>
      ranges_total (region_ranges region) ≤ region_size region ∧
      0 < region_size region ∧ addr + region_size region ≤ 2 ^ 64 ∧
      (∀ t, t ∈ mem_regions m → ¬ overlaps (mkSlot addr region) t) ∧
      ∀ t, t ∈ mem_regions m' ↔ t = mkSlot addr region ∨ t ∈ mem_regions m
  | (m', Err e) =>
      m' = m ∧ (region_validate region = Err e ∨
                snd (Addressable_add (mem_regions m) addr region) = Err e)
  | (_, Panic) => False
  end.
Proof.
  intros Hre Ha Ht Hne. pose proof (reachable_inv _ _ Hre) as Hinv.
  destruct (region_validate region) as [[]|e|] eqn:Hv.
  2: { unfold add_region, sbind, slift. rewrite Hv. auto. }
  2: { unfold region_validate in Hv. by destruct (_ <? _). }
  pose proof (add_outcome _ addr region (inv_regions _ _ (proj1 Hinv)) Ha (region_size_in_u region))
    as [_ Ho]. destruct (snd (Addressable_add (mem_regions m) addr region)) as [i|e|] eqn:Eo; [| |done].
  - destruct (add_region_total addr region m) as (m' & E); try done; [by rewrite Eo|].
    rewrite E. destruct Ho as (?&?&?&_&_). pose proof (validate_fits _ Ht Hv) as [_ ?].
    split_and!; try done. apply (add_region_regions addr region m m' Hinv Ha E).
  - assert (fst (Addressable_add (mem_regions m) addr region) = mem_regions m) as Er.
    { destruct e; naive_solver. }
    unfold add_region, sbind, slift. rewrite Hv. unfold on_regions. rewrite Eo, Er.
    split; [by destruct m|by right].
Qed.

(** What neither [add_region] nor [remove_region] touches. *)
Definition io_part {W R CB LC LU} (m : Memory W R CB LC LU) :=
  (mem_io_bus m, mem_io_regions m, mem_changed m, mem_updated m).

Section IoPart.
Context {W R C CB LC LU : Type} `{Mmio W R C} `{!VmMemory W} `{!MemCallbacks W CB LC LU}.
Abbreviation M := (stm (Memory W R CB LC LU) mem_error).

Lemma keeps_shape_io {A} (p : M A) : keeps shape p → keeps io_part p.
Proof. intros Hp m. specialize (Hp m). unfold io_part. by injection Hp as _ -> -> _ _ -> ->. Qed.
Lemma keeps_frame_io {A} (p : M A) : keeps frame p → keeps io_part p.
Proof. intros Hp m. specialize (Hp m). unfold io_part. by injection Hp as _ -> -> -> ->. Qed.
Lemma keeps_io_callbacks {X E} (xs : list X) (f : X → W → W * outcome E unit) inj :
  keeps io_part (sfor xs (λ x, on_world (f x) inj) : M unit).
Proof. apply keeps_shape_io, keeps_for. intros x. apply keeps_on_world. Qed.

Lemma add_region_keeps_io addr region : keeps io_part (add_region addr region : M unit).
Proof.
  unfold add_region. apply keeps_bind; [by intros m|intros _].
  apply keeps_bind; [by intros m|intros _].
  apply keeps_bind; [apply keeps_frame_io, map_ranges_keeps|intros u].
  apply keeps_bind; [apply keeps_shape_io, notify_updated_keeps|intros _]. apply keeps_io_callbacks.
Qed.

Lemma remove_region_keeps_io addr : keeps io_part (remove_region addr : M (MemRegion R CB)).
Proof.
  unfold remove_region, unmap_region. apply keeps_bind; [by intros m|intros region].
  apply keeps_bind; [|intros _; apply keeps_ret].
  apply keeps_bind; [apply keeps_frame_io, unmap_ranges_keeps|intros u].
  apply keeps_bind; [apply keeps_shape_io, notify_updated_keeps|intros _]. apply keeps_io_callbacks.
Qed.
End IoPart.

(** C6: where the hypervisor and the callbacks do not fail, adding a region and then
    removing it returns the region and restores the regions, the three buses, the port
    regions and the registered callbacks. *)
Theorem memory_add_remove_roundtrip {W R C CB LC LU : Type} `{Mmio W R C} `{!VmMemory W}
  `{!MemCallbacks W CB LC LU} `{!EnvTotal W CB LC LU} (w : W) (m m1 : Memory W R CB LC LU) addr region :
  mem_reachable w m → in_u 64 addr → region_typed region →
  add_region addr region m = (m1, Ok tt) →
  ∃ m2, remove_region addr m1 = (m2, Ok region) ∧
    mem_regions m2 = mem_regions m ∧ mem_mmio_bus m2 = mem_mmio_bus m ∧
    mem_ram_bus m2 = mem_ram_bus m ∧ mem_io_bus m2 = mem_io_bus m ∧
    mem_io_regions m2 = mem_io_regions m ∧ mem_changed m2 = mem_changed m ∧
    mem_updated m2 = mem_updated m.
Proof.
  intros Hre Ha Ht E. pose proof (reachable_inv _ _ Hre) as Hinv.
  assert (mem_inv m1) as Hinv1 by (by eapply add_region_ok).
  destruct (add_region_regions _ _ _ _ Hinv Ha E) as [Hin Hfresh].
  destruct (remove_region_total addr region m1) as [m2 E2]; [done|apply Hin; by left|].
  exists m2. split; [done|].
  assert (io_part m2 = io_part m) as Hio.
  { rewrite (keeps_Ok io_part _ _ _ _ (remove_region_keeps_io _) E2).
    apply (keeps_Ok io_part _ _ _ _ (add_region_keeps_io _ _) E). }
  injection Hio as Hio1 Hio2 Hio3 Hio4.
  destruct (remove_region_ok _ _ _ _ Hinv1 E2) as (Hinv2 & _ & Hin2).
  assert (∀ t, t ∈ mem_regions m2 ↔ t ∈ mem_regions m) as He.
  { intros t. rewrite Hin2, Hin. split; [naive_solver|]. intros Ht'. split; [by right|by apply Hfresh]. }
  destruct Hinv as [[Hwf _ Hm Hr] _], Hinv2 as [[Hwf2 _ Hm2 Hr2] _].
  split_and!; try assumption; eapply (slots_wf_ext 0 0); try done; try apply Hm; try apply Hm2;
    try apply Hr; try apply Hr2; intros s.
  - rewrite (proj2 Hm2), (proj2 Hm). by setoid_rewrite He.
  - rewrite (proj2 Hr2), (proj2 Hr). by setoid_rewrite He.
Qed.

(** C7: a guest access inside an emulated range of a mapped region is served by
    that range's device at the offset from the range's start, and by no other: a
    read returns what the device read; a write enters the guest again, shuts the
    machine down or reboots it as the device's action says, and an action that
    changes the layout is run on [Memory] after the device's write, its error
    returned.  An access outside every emulated range reads all ones or does
    nothing, and touches no device. *)
Theorem memory_mmio_reaches_device {W R C CB LC LU : Type} `{Mmio W R C} `{!VmMemory W}
  `{!MemCallbacks W CB LC LU} (change : C → stm (Memory W R CB LC LU) mem_error unit)
  (w : W) (m : Memory W R CB LC LU) gpa size val :
  mem_reachable w m →
  (∀ r base d, r ∈ mem_regions m →
     mkSlot base d ∈ range_slots emu_of (slot_addr r) (region_ranges (slot_backend r)) →
     base ≤ gpa < base + mmio_size d →
     handle_mmio change gpa None size m =
       (let '(w', res) := mmio_read d (gpa - base) size (mem_world m) in
        (set_world w' m, VmEntryMmio <$> res)) ∧
     handle_mmio change gpa (Some val) size m =
       match mmio_write d (gpa - base) size val (mem_world m) with
       | (w', Ok ActNone) => (set_world w' m, Ok VmEntryNone)
       | (w', Ok ActShutdown) => (set_world w' m, Ok VmEntryShutdown)
       | (w', Ok ActReset) => (set_world w' m, Ok VmEntryReboot)
       | (w', Ok (ActChangeLayout callback)) =>
           let '(m', res) := change callback (set_world w' m) in
           (m', (λ _, VmEntryNone) <$> res)
       | (w', Err e) => (set_world w' m, Err e)
       | (w', Panic) => (set_world w' m, Panic)
       end) ∧
  ((∀ r s, r ∈ mem_regions m →
     s ∈ range_slots emu_of (slot_addr r) (region_ranges (slot_backend r)) → ¬ covers s gpa) →
   handle_mmio change gpa None size m = (m, Ok (VmEntryMmio U64_MAX)) ∧
   handle_mmio change gpa (Some val) size m = (m, Ok VmEntryNone)).
Proof.
  intros Hre. destruct (reachable_inv _ _ Hre) as [[_ _ [Hwf Hb] _] _].
  unfold handle_mmio, sbind, sget, on_world, MmioBus_read, MmioBus_write. split.
  - intros r base d Hr Hs Hg.
    rewrite (search_Some 0 _ gpa (mkSlot base d)) by (done || apply Hb; by exists r). simpl.
    destruct (mmio_read d (gpa - base) size (mem_world m)) as [w1 [x| |]];
      destruct (mmio_write d (gpa - base) size val (mem_world m)) as [w2 [[| | |y]| |]]; try done;
      split; try done; simpl; unfold sbind; by destruct (change y _) as [m' [[]| |]].
  - intros Hno. destruct (Addressable_search (mem_mmio_bus m) gpa) as [p|] eqn:E.
    + apply (search_inv 0) in E as (s & Hs & Hc & _); [|done..].
      apply Hb in Hs as (r & Hr & Hs). by destruct (Hno r s).
    + simpl. by destruct m.
Qed.

(** [mark_private_memory] over a region of two RAM ranges marks only the
    first one when the second is not the larger: the cursor into the region stays
    at the first range, so the second is taken to end before the part already
    marked. *)
Theorem mark_private_skips_second_range {W R C CB LC LU : Type} `{Mmio W R C} `{!VmMemory W}
  `{!MemCallbacks W CB LC LU} (m : Memory W R CB LC LU) addr p q region private :
  mem_regions m = [mkSlot addr region] → region_ranges region = [RangeRam p; RangeRam q] →
  region_size region = pg_size p + pg_size q →
  0 ≤ addr → 0 < pg_size q ≤ pg_size p → addr + pg_size p + pg_size q < 2 ^ 64 →
  mark_private_memory addr (pg_size p + pg_size q) private m =
    on_world (hv_mark_private addr (pg_size p) private) HvError m.
Proof.
  intros Hr Hg Hz Ha Hq Hend. unfold mark_private_memory, sbind, sget. rewrite Hr.
  cbn [length mark_regions]. unfold sbind, sget. rewrite Hr.
  unfold Addressable_search_next, binary_search_by_key, bs_loop. simpl. rewrite Z.eqb_refl. simpl.
  rewrite Hg, Hz. unfold mark_ranges.
  rewrite !wrap_small by (unfold in_u; lia).
  rewrite (proj2 (Z.leb_gt _ _)) by lia.
  replace (Z.max addr addr) with addr by lia.
  replace (Z.min (addr + (pg_size p + pg_size q)) (addr + pg_size p)) with (addr + pg_size p) by lia.
  rewrite (proj2 (Z.leb_gt _ _)) by lia.
  replace (addr + pg_size p - addr) with (pg_size p) by lia.
  rewrite (proj2 (Z.leb_le (addr + pg_size q) _)) by lia.
  rewrite (proj2 (Z.leb_le _ (addr + (pg_size p + pg_size q)))) by lia. cbn beta iota.
  unfold sbind. destruct (on_world _ _ m) as [m' [[]| |]]; done.
Qed.

(** ** A concrete machine for the witnesses

    Devices are scratch registers (size, index); the world is their contents and
    the hypervisor's log of private ranges. *)

Module Demo.
Definition world : Type := list Z * list (Z * Z).

#[export] Instance demo_mmio : Mmio world (Z * nat) Empty_set := {|
  mmio_size := fst;
  mmio_read := λ r off _ w, (w, Ok (default 0 (fst w !! snd r) + off));
  mmio_write := λ r _ _ v w, ((<[snd r := v]> (fst w), snd w), Ok ActNone)
|}.

#[export] Instance demo_vm : VmMemory world := {|
  hv_mem_map := λ _ _ _ w, (w, Ok tt);
  hv_unmap := λ _ _ w, (w, Ok tt);
  hv_reset := λ w, (w, Ok tt);
  hv_mark_private := λ gpa size _ w, ((fst w, snd w ++ [(gpa, size)]), Ok tt)
|}.

#[export] Instance demo_callbacks : MemCallbacks world unit unit unit := {|
  cb_mapped := λ _ _ w, (w, Ok tt);
  cb_unmapped := λ _ w, (w, Ok tt);
  lc_ram_added := λ _ _ _ w, (w, Ok tt);
  lc_ram_removed := λ _ _ _ w, (w, Ok tt);
  lu_ram_updated := λ _ _ w, (w, Ok tt)
|}.

#[export] Instance demo_total : EnvTotal world unit unit unit.
Proof. by split. Qed.
#[export] Instance demo_mapped_total : MappedTotal world unit unit unit.
Proof. done. Qed.

Definition change (c : Empty_set) : stm (Memory world (Z * nat) unit unit unit) mem_error unit :=
  match c with end.

Definition w0 : world := ([7; 9], []).
Definition pages (addr size : Z) : ArcMemPages :=
  {| pg_addr := addr; pg_size := size; pg_fd := None |}.
(** RAM, a device and a hole, in one region. *)
Definition region : MemRegion (Z * nat) unit :=
  mkRegion [RangeRam (pages 0x100000 0x1000); RangeSpan 0x1000; RangeEmulated (0x100, 1%nat)]
    [mkEntry 0x4000 TypeRam] [].
Definition m0 : Memory world (Z * nat) unit unit unit := Memory_new w0.
Definition m1 := fst (add_region 0x8000 region m0).

Lemma region_ok : region_typed region ∧ ranges_nonempty (region_ranges region).
Proof. split; [split; [|done]|]; repeat constructor; try done; intros [[]|[]]; done. Qed.

Lemma m1_reachable : mem_reachable w0 m1.
Proof.
  apply (reach_op w0 m0 (OpAddRegion 0x8000 region)).
  - apply reach_new.
  - split; [by_eval|apply region_ok].
  - reflexivity.
Qed.
End Demo.
Import (hints) Demo.

Lemma memory_buses_mirror_regions_witness :
  Addressable_wf (mem_mmio_bus Demo.m1) ∧
  mem_mmio_bus Demo.m1 = [mkSlot 0xa000 (0x100, 1%nat)].
Proof.
  split; [|reflexivity].
  exact (proj1 (proj1 (proj2 (memory_buses_mirror_regions _ _ Demo.m1_reachable)))).
Defined.

Lemma memory_add_region_outcome_witness :
  add_region 0xb000 Demo.region Demo.m1 =
    (Demo.m1, Err (Overlap (0xb000, 0xefff) (0x8000, 0xbfff))) ∧ Demo.m1 = Demo.m1.
Proof.
  split; [reflexivity|].
  refine (proj1 (memory_add_region_outcome _ _ 0xb000 Demo.region Demo.m1_reachable _ _ _)).
  - by_eval.
  - apply Demo.region_ok.
  - apply Demo.region_ok.
Defined.

Lemma memory_add_remove_roundtrip_witness :
  ∃ m2, remove_region 0x8000 Demo.m1 = (m2, Ok Demo.region) ∧
    mem_regions m2 = [] ∧ mem_mmio_bus m2 = [] ∧ mem_ram_bus m2 = [] ∧ mem_io_bus m2 = [] ∧
    mem_io_regions m2 = [] ∧ mem_changed m2 = [] ∧ mem_updated m2 = [].
Proof.
  refine (memory_add_remove_roundtrip Demo.w0 Demo.m0 Demo.m1 0x8000 Demo.region _ _ _ _).
  - apply reach_new.
  - by_eval.
  - apply Demo.region_ok.
  - reflexivity.
Defined.

Lemma memory_mmio_reaches_device_witness :
  handle_mmio Demo.change 0xa004 None 4 Demo.m1 = (Demo.m1, Ok (VmEntryMmio 13)).
Proof.
  refine (proj1 (proj1 (memory_mmio_reaches_device Demo.change _ _ 0xa004 4 0 Demo.m1_reachable)
    (mkSlot 0x8000 Demo.region) 0xa000 (0x100, 1%nat) _ _ _)).
  - left.
  - left.
  - by_eval.
Defined.

Lemma mark_private_skips_second_range_witness :
  let region := mkRegion [RangeRam (Demo.pages 0x100000 0x1000); RangeRam (Demo.pages 0x200000 0x1000)]
                  [mkEntry 0x2000 TypeRam] [] in
  let m := fst (add_region 0x8000 region Demo.m0) in
  mark_private_memory 0x8000 0x2000 true m =
    (set_world ([7; 9], [(0x8000, 0x1000)]) m, Ok tt).
Proof.
  cbn zeta.
  refine (mark_private_skips_second_range _ 0x8000 (Demo.pages 0x100000 0x1000)
    (Demo.pages 0x200000 0x1000) _ true _ _ _ _ _ _); try reflexivity; by_eval.
Defined.
