(* ===== verification/PciConfig.v ===== *)
(** * PCI configuration headers: pci/config.rs and the types of pci/pci.rs

    A type-0 header with its BARs, the masks that implement BAR sizing, the
    writes a guest may make, and the two layout changes they cause: mapping and
    unmapping the BARs when the command register changes, and moving a mapped BAR.
    The BAR register of a mapped region is written by the region's callback
    ([BarCallback]), so the callback and the memory model meet here. *)

From S2P Require Import Prelude Utils MemTypes Addressable Emulated Mapped Memory.

Open Scope stm_scope.

(** ** pci/pci.rs *)

Definition bdf_bus (bdf : Z) : Z := bits_get bdf 15 8.
Definition bdf_dev (bdf : Z) : Z := bits_get bdf 7 3.
Definition bdf_func (bdf : Z) : Z := bits_get bdf 2 0.
Definition bdf_new (bus dev func : Z) : Z :=
  bits_set (bits_set (bits_set 0 15 8 bus) 7 3 dev) 2 0 func.

Inductive pci_error :=
| PciMemory (source : mem_error)
| PciReset.

Inductive PciBar (R CB : Type) :=
| BarEmpty
| BarMem (region : MemRegion R CB)
| BarIo (region : IoRegion R CB).
Arguments BarEmpty {R CB}.
Arguments BarMem {R CB} _.
Arguments BarIo {R CB} _.

(** ** Registers *)

Module Command.
Definition INTX_DISABLE : Z := Z.shiftl 1 10.
Definition SERR : Z := Z.shiftl 1 8.
Definition PARITY_ERR : Z := Z.shiftl 1 6.
Definition BUS_MASTER : Z := Z.shiftl 1 2.
Definition MEM : Z := Z.shiftl 1 1.
Definition IO : Z := Z.shiftl 1 0.
Definition WRITABLE_BITS : Z :=
  Z.lor INTX_DISABLE (Z.lor SERR (Z.lor PARITY_ERR (Z.lor BUS_MASTER (Z.lor MEM IO)))).
(** The declared bits. *)
Definition all : Z :=
  Z.lor INTX_DISABLE (Z.lor SERR (Z.lor PARITY_ERR (Z.lor BUS_MASTER
    (Z.lor MEM (Z.lor IO WRITABLE_BITS))))).
End Command.

Module Status.
Definition PARITY_ERR : Z := Z.shiftl 1 15.
Definition SYSTEM_ERR : Z := Z.shiftl 1 14.
Definition RECEIVED_MASTER_ABORT : Z := Z.shiftl 1 13.
Definition RECEIVED_TARGET_ABORT : Z := Z.shiftl 1 12.
Definition SIGNALED_TARGET_ABORT : Z := Z.shiftl 1 11.
Definition MASTER_PARITY_ERR : Z := Z.shiftl 1 8.
Definition CAP : Z := Z.shiftl 1 4.
Definition INTX : Z := Z.shiftl 1 3.
Definition IMMEDIATE_READINESS : Z := Z.shiftl 1 0.
Definition RW1C_BITS : Z :=
  Z.lor PARITY_ERR (Z.lor SYSTEM_ERR (Z.lor RECEIVED_MASTER_ABORT
    (Z.lor RECEIVED_TARGET_ABORT (Z.lor SIGNALED_TARGET_ABORT MASTER_PARITY_ERR)))).
(** The declared bits. *)
Definition all : Z := Z.lor CAP (Z.lor INTX (Z.lor IMMEDIATE_READINESS RW1C_BITS)).
End Status.

Record CommonHeader := mkCommon {
  vendor : Z;
  device : Z;
  command : Z;
  status : Z;
  revision : Z;
  prog_if : Z;
  subclass : Z;
  class : Z;
  cache_line_size : Z;
  latency_timer : Z;
  header_type : Z;
  bist : Z
}.

Record DeviceHeader := mkDevice {
  common : CommonHeader;
  bars : list Z;       (* [u32; 6] *)
  cardbus_cis_pointer : Z;
  subsystem_vendor : Z;
  subsystem : Z;
  expansion_rom : Z;
  capability_pointer : Z;
  reserved : list Z;   (* [u8; 7] *)
  intx_line : Z;
  intx_pin : Z;
  min_gnt : Z;
  max_lat : Z
}.

(** The bytes of the [repr(C)] structures. *)
Definition common_bytes (c : CommonHeader) : list Z :=
  le_bytes 2 (vendor c) ++ le_bytes 2 (device c) ++ le_bytes 2 (command c) ++
  le_bytes 2 (status c) ++ le_bytes 1 (revision c) ++ le_bytes 1 (prog_if c) ++
  le_bytes 1 (subclass c) ++ le_bytes 1 (class c) ++ le_bytes 1 (cache_line_size c) ++
  le_bytes 1 (latency_timer c) ++ le_bytes 1 (header_type c) ++ le_bytes 1 (bist c).

Definition header_bytes (h : DeviceHeader) : list Z :=
  common_bytes (common h) ++ (bars h ≫= le_bytes 4) ++
  le_bytes 4 (cardbus_cis_pointer h) ++ le_bytes 2 (subsystem_vendor h) ++
  le_bytes 2 (subsystem h) ++ le_bytes 4 (expansion_rom h) ++
  le_bytes 1 (capability_pointer h) ++ (reserved h ≫= le_bytes 1) ++
  le_bytes 1 (intx_line h) ++ le_bytes 1 (intx_pin h) ++ le_bytes 1 (min_gnt h) ++
  le_bytes 1 (max_lat h).

(** What [#[derive(Layout)]] computes: (offset, size) of a field. *)
Definition LAYOUT_COMMAND : Z * Z := (0x4, 2).
Definition LAYOUT_STATUS : Z * Z := (0x6, 2).
Definition LAYOUT_EXPANSION_ROM : Z * Z := (0x30, 4).
Definition OFFSET_BARS : Z := 0x10.
Definition size_of_DeviceHeader : Z := 0x40.

Definition offset_bar (index : Z) : Z := OFFSET_BARS + index * 4.
Definition OFFSET_BAR0 : Z := offset_bar 0.
Definition OFFSET_BAR5 : Z := offset_bar 5.

Definition BAR_PREFETCHABLE : Z := 8.
Definition BAR_MEM64 : Z := 4.
Definition BAR_MEM32 : Z := 0.
Definition BAR_IO : Z := 1.
Definition BAR_IO_MASK : Z := 3.
Definition BAR_MEM_MASK : Z := 15.

Definition set_command_field (h : DeviceHeader) (v : Z) : DeviceHeader :=
  let c := common h in
  mkDevice (mkCommon (vendor c) (device c) v (status c) (revision c) (prog_if c) (subclass c)
              (class c) (cache_line_size c) (latency_timer c) (header_type c) (bist c))
    (bars h) (cardbus_cis_pointer h) (subsystem_vendor h) (subsystem h) (expansion_rom h)
    (capability_pointer h) (reserved h) (intx_line h) (intx_pin h) (min_gnt h) (max_lat h).
Definition set_status_field (h : DeviceHeader) (v : Z) : DeviceHeader :=
  let c := common h in
  mkDevice (mkCommon (vendor c) (device c) (command c) v (revision c) (prog_if c) (subclass c)
              (class c) (cache_line_size c) (latency_timer c) (header_type c) (bist c))
    (bars h) (cardbus_cis_pointer h) (subsystem_vendor h) (subsystem h) (expansion_rom h)
    (capability_pointer h) (reserved h) (intx_line h) (intx_pin h) (min_gnt h) (max_lat h).
Definition set_bars_field (h : DeviceHeader) (v : list Z) : DeviceHeader :=
  mkDevice (common h) v (cardbus_cis_pointer h) (subsystem_vendor h) (subsystem h)
    (expansion_rom h) (capability_pointer h) (reserved h) (intx_line h) (intx_pin h) (min_gnt h)
    (max_lat h).
Definition set_capability_pointer (h : DeviceHeader) (v : Z) : DeviceHeader :=
  mkDevice (common h) (bars h) (cardbus_cis_pointer h) (subsystem_vendor h) (subsystem h)
    (expansion_rom h) v (reserved h) (intx_line h) (intx_pin h) (min_gnt h) (max_lat h).

(** ** [HeaderData] *)

(** [ConfigHeader] has the single constructor [Device]. *)
Record HeaderData := mkHeaderData {
  header : DeviceHeader;
  bar_masks : list Z;   (* [u32; 6] *)
  bdf : Z
}.

Definition with_header (d : HeaderData) (h : DeviceHeader) : HeaderData :=
  mkHeaderData h (bar_masks d) (bdf d).

(** [set_bar]: the old and the stored value; an index past the arrays panics. *)
Definition set_bar {E} (d : HeaderData) (index : nat) (val : Z) : HeaderData * outcome E (Z * Z) :=
  match bar_masks d !! index, bars (header d) !! index with
  | Some mask, Some old_val =>
      let masked_val := mask_bits 32 old_val val mask in
      (with_header d (set_bars_field (header d) (<[index := masked_val]> (bars (header d)))),
       Ok (old_val, masked_val))
  | _, _ => (d, Panic)
  end.

Definition get_bar {E} (d : HeaderData) (index : nat) : outcome E (Z * Z) :=
  match bars (header d) !! index, bar_masks d !! index with
  | Some b, Some m => Ok (b, m)
  | _, _ => Panic
  end.

Definition HeaderData_set_command (d : HeaderData) (c : Z) : HeaderData :=
  with_header d (set_command_field (header d) c).

(** The [ChangeLayout] objects of this file. *)
Inductive PciCallback (R CB : Type) :=
| UpdateCommandCallback (pci_bars : list (PciBar R CB)) (cb_bars : list Z) (changed current : Z)
| MoveBarCallback (cb_bdf src dst : Z).
Arguments UpdateCommandCallback {R CB} _ _ _ _.
Arguments MoveBarCallback {R CB} _ _ _.

(** [reg & BAR_MEM64 == BAR_MEM64] *)
Definition is_mem64 (reg : Z) : bool := Z.land reg BAR_MEM64 =? BAR_MEM64.

Section Header.
Context {R CB : Type}.
Implicit Types (pci_bars : list (PciBar R CB)).

(** [assign_bits!] and the [!] of [write_status] are on [bitflags!] types. *)
Definition write_command (d : HeaderData) (val : Z) pci_bars
  : HeaderData * option (PciCallback R CB) :=
  let h := header d in
  let old := command (common h) in
  let current := Z.lor (Z.land old (flags_not Command.all Command.WRITABLE_BITS))
                   (Z.land (u16 val) Command.WRITABLE_BITS) in
  let h' := set_command_field h current in
  let changed := Z.lxor old current in
  (with_header d h',
   if Z.land changed (Z.lor Command.MEM Command.IO) =? 0 then None
   else Some (UpdateCommandCallback pci_bars (bars h) changed current)).

Definition write_status (d : HeaderData) (val : Z) : HeaderData :=
  let h := header d in
  let old := status (common h) in
  with_header d (set_status_field h
    (Z.land old (flags_not Status.all (Z.land (u16 val) Status.RW1C_BITS)))).

(** The BAR arm: an enabled BAR moves by a layout change and its register is
    written by the region's callback; a disabled one is written here. *)
Definition write_bar (d : HeaderData) (bar_index : nat) (val : Z) pci_bars
  : HeaderData * outcome mem_error (option (PciCallback R CB)) :=
  let h := header d in
  match bar_masks d !! bar_index, bars h !! bar_index, pci_bars !! bar_index with
  | Some mask, Some old_val, Some pci_bar =>
      let masked_val := mask_bits 32 old_val (u32 val) mask in
      if old_val =? masked_val then (d, Ok None)
      else
        let cmd := command (common h) in
        let store :=
          (with_header d (set_bars_field h (<[bar_index := masked_val]> (bars h))), Ok None) in
        match pci_bar with
        | BarIo _ =>
            if contains cmd Command.IO
            then (d, Ok (Some (MoveBarCallback (bdf d) old_val masked_val)))
            else store
        | BarMem _ =>
            if contains cmd Command.MEM then
              if is_mem64 old_val then
                match bars h !! S bar_index with
                | Some hi =>
                    let hi_32 := Z.shiftl hi 32 in
                    (d, Ok (Some (MoveBarCallback (bdf d) (Z.lor old_val hi_32)
                                    (Z.lor masked_val hi_32))))
                | None => (d, Panic)
                end
              else (d, Ok (Some (MoveBarCallback (bdf d) old_val masked_val)))
            else store
        | BarEmpty =>
            match bar_index with
            | S i =>
                match bars h !! i with
                | Some lo_32 =>
                    if contains cmd Command.MEM && is_mem64 lo_32 then
                      (d, Ok (Some (MoveBarCallback (bdf d)
                                      (Z.lor lo_32 (Z.shiftl old_val 32))
                                      (Z.lor lo_32 (Z.shiftl masked_val 32)))))
                    else store
                | None => (d, Panic)
                end
            | O => store
            end
        end
  | _, _, _ => (d, Panic)
  end.

Definition write_header (d : HeaderData) (offset size val : Z) pci_bars
  : HeaderData * outcome mem_error (option (PciCallback R CB)) :=
  if decide ((offset, size) = LAYOUT_COMMAND) then
    let r := write_command d val pci_bars in (fst r, Ok (snd r))
  else if decide ((offset, size) = LAYOUT_STATUS) then (write_status d val, Ok None)
  else if decide (OFFSET_BAR0 ≤ offset ≤ OFFSET_BAR5 ∧ size = 4) then
    write_bar d (Z.to_nat (Z.shiftr (offset - OFFSET_BAR0) 2)) val pci_bars
  else (d, Ok None).   (* the expansion ROM and unknown registers: only logged *)

(** [BarCallback::mapped]: the BAR register follows the region. *)
Definition BarCallback_mapped (index : nat) (addr : Z) (d : HeaderData)
  : HeaderData * outcome mem_error unit :=
  match get_bar (E := mem_error) d index with
  | Ok (old, _) =>
      match set_bar (E := mem_error) d index (u32 addr) with
      | (d1, Ok _) =>
          if is_mem64 old then
            let r := set_bar (E := mem_error) d1 (S index) (u32 (Z.shiftr addr 32)) in
            (fst r, (λ _, tt) <$> snd r)
          else (d1, Ok tt)
      | (d1, _) => (d1, Panic)
      end
  | _ => (d, Panic)
  end.

(** ** [EmulatedHeader] *)

(** [u64::next_power_of_two] of the release profile (0 when it does not fit). *)
Definition next_power_of_two (n : Z) : Z := u64 (2 ^ Z.log2_up n).

(** One round of the loop that derives the masks; [mask_hi] is carried over. *)
Definition bar_mask (bar : PciBar R CB) `{SlotBackend (MemRegion R CB)} `{SlotBackend (IoRegion R CB)}
  (val mask_hi : Z) : Z * Z :=
  match bar with
  | BarEmpty => (mask_hi, 0)
  | BarIo region =>
      let size := Z.max (next_power_of_two (slot_size region)) (Z.shiftl 1 2) in
      (u32 (bnot 64 (size - 1)), mask_hi)
  | BarMem region =>
      let size := Z.max (next_power_of_two (slot_size region)) (Z.shiftl 4 10) in
      let mask_64 := bnot 64 (size - 1) in
      (u32 mask_64, if is_mem64 val then u32 (Z.shiftr mask_64 32) else mask_hi)
  end.

Fixpoint derive_masks `{SlotBackend (MemRegion R CB)} `{SlotBackend (IoRegion R CB)}
  (bs : list (PciBar R CB)) (vals : list Z) (mask_hi : Z) : list Z :=
  match bs, vals with
  | bar :: bs', val :: vals' =>
      let r := bar_mask bar val mask_hi in fst r :: derive_masks bs' vals' (snd r)
  | _, _ => []
  end.
End Header.

Record EmulatedHeader (R CB : Type) := mkEmulatedHeader {
  data : HeaderData;
  header_bars : list (PciBar R CB)   (* [PciBar; 6] *)
}.
Arguments mkEmulatedHeader {R CB} _ _.
Arguments data {R CB} _.
Arguments header_bars {R CB} _.

(** ** Layout changes *)

Section Changes.
Context {W R C CB LC LU : Type} `{Mmio W R C} `{!VmMemory W} `{!MemCallbacks W CB LC LU}.
Abbreviation M := (stm (Memory W R CB LC LU) mem_error).

(** [UpdateCommandCallback::change]: [all] is [self.bars]. *)
Fixpoint update_bars (changed current : Z) (all : list Z) (i : nat)
  (pci_bars : list (PciBar R CB)) (bs : list Z) : M unit :=
  match pci_bars, bs with
  | pci_bar :: pci_bars', bar :: bs' =>
      match pci_bar with
      | BarEmpty => sret tt
      | BarMem region =>
          if negb (contains changed Command.MEM) then sret tt
          else
            let lo := Z.land bar (bnot 32 BAR_MEM_MASK) in
            addr <-
              (if is_mem64 bar then
                 match all !! S i with
                 | Some hi => sret (Z.lor lo (Z.shiftl hi 32))
                 | None => spanic
                 end
               else sret lo) ;;
            if contains current Command.MEM then add_region addr region
            else remove_region addr ;;; sret tt
      | BarIo region =>
          if negb (contains changed Command.IO) then sret tt
          else
            let port := u16 (Z.land bar (bnot 32 BAR_IO_MASK)) in
            if contains current Command.IO then add_io_region port region
            else remove_io_region port ;;; sret tt
      end ;;;
      update_bars changed current all (S i) pci_bars' bs'
  | _, _ => sret tt
  end.

Definition move_bar (src dst : Z) : M unit :=
  if Z.land (u32 src) BAR_IO =? BAR_IO then
    let src_port := Z.land src (bnot 64 BAR_IO_MASK) in
    let dst_port := Z.land dst (bnot 64 BAR_IO_MASK) in
    region <- remove_io_region (u16 src_port) ;;
    add_io_region (u16 dst_port) region
  else
    let src_addr := Z.land src (bnot 64 BAR_MEM_MASK) in
    let dst_addr := Z.land dst (bnot 64 BAR_MEM_MASK) in
    region <- remove_region src_addr ;;
    add_region dst_addr region.

(** [ChangeLayout::change] *)
Definition PciCallback_change (callback : PciCallback R CB) : M unit :=
  match callback with
  | UpdateCommandCallback pci_bars bs changed current =>
      update_bars changed current bs 0 pci_bars bs
  | MoveBarCallback _ src dst => move_bar src dst
  end.
End Changes.

(** ** [EmulatedHeader] as a device *)

Section Emulated.
Context {W R C CB : Type} `{Mmio W R C}.

Definition attach (bar : PciBar R CB) (callback : CB) : PciBar R CB :=
  match bar with
  | BarEmpty => BarEmpty
  | BarMem r => BarMem (mkRegion (region_ranges r) (region_entries r) (region_callbacks r ++ [callback]))
  | BarIo r => BarIo (mkIoRegion (io_range r) (io_callbacks r ++ [callback]))
  end.

(** [EmulatedHeader::new]; [bar_callback index] is the [BarCallback] object. *)
Definition EmulatedHeader_new (bar_callback : nat → CB) (h : DeviceHeader)
  (pbars : list (PciBar R CB)) : EmulatedHeader R CB :=
  mkEmulatedHeader (mkHeaderData h (derive_masks pbars (bars h) 0) 0)
    (imap (λ index bar, attach bar (bar_callback index)) pbars).

Definition EmulatedHeader_read (h : EmulatedHeader R CB) (offset size : Z) : Z :=
  zerocopy_read (header_bytes (header (data h))) offset size.

Definition EmulatedHeader_write (h : EmulatedHeader R CB) (offset size val : Z)
  : EmulatedHeader R CB * outcome mem_error (Action (PciCallback R CB)) :=
  let r := write_header (data h) offset size val (header_bars h) in
  (mkEmulatedHeader (fst r) (header_bars h),
   (λ o, match o with Some callback => ActChangeLayout callback | None => ActNone end) <$> snd r).

Definition EmulatedHeader_reset (h : EmulatedHeader R CB) : EmulatedHeader R CB :=
  mkEmulatedHeader (HeaderData_set_command (data h) 0) (header_bars h).

Definition EmulatedHeader_set_bdf (h : EmulatedHeader R CB) (b : Z) : EmulatedHeader R CB :=
  mkEmulatedHeader (mkHeaderData (header (data h)) (bar_masks (data h)) b) (header_bars h).

Definition EmulatedHeader_set_command (h : EmulatedHeader R CB) (c : Z) : EmulatedHeader R CB :=
  mkEmulatedHeader (HeaderData_set_command (data h) c) (header_bars h).
End Emulated.
