(* ===== verification/PciConfigThm.v ===== *)
(** * Correctness of the PCI configuration header

    BAR sizing, what a guest write may change, and the two layout changes carried
    out on [Memory]: enabling memory space maps every BAR at its address; writing
    an enabled BAR moves its region and the BAR register reads the new address. *)

From S2P Require Import Prelude Utils MemTypes Addressable Emulated Mapped Memory MemoryInv.
From S2P Require Import MemoryThm PciConfig.

(** ** Reading and writing registers *)

Definition data_typed (d : HeaderData) : Prop :=
  in_u 16 (command (common (header d))) ∧ in_u 16 (status (common (header d))) ∧
  length (bars (header d)) = 6%nat ∧ Forall (in_u 32) (bars (header d)) ∧
  length (bar_masks d) = 6%nat ∧ Forall (in_u 32) (bar_masks d).

#[export] Instance data_typed_dec d : Decision (data_typed d).
Proof. unfold data_typed. apply _. Defined.

(** The bytes of a register inside the header. *)
Lemma header_read_bar h (i : nat) b :
  length (bars h) = 6%nat → bars h !! i = Some b → in_u 32 b →
  zerocopy_read (header_bytes h) (offset_bar (Z.of_nat i)) 4 = b.
Proof.
  intros Hl Hi Hb. destruct h as [c bs cis sv ss rom cp rs il ip mg ml]. simpl in Hl, Hi.
  do 7 (destruct bs as [|? bs]; [try done|]); simpl in Hl; [|lia].
  assert (i < 6)%nat as Hlt by (apply lookup_lt_Some in Hi; simpl in Hi; lia).
  do 6 (destruct i as [|i]; [simpl in Hi; injection Hi as ->;
    change 4 with (Z.of_nat 4); rewrite (zerocopy_read_in _ _ 4);
    [transitivity (le_val (le_bytes 4 b)); [reflexivity|rewrite le_val_bytes; by apply wrap_small]
    |set_solver|vm_compute; congruence
    |unfold header_bytes, offset_bar, OFFSET_BARS; rewrite !length_app; cbn -[Z.of_nat]; lia]|]).
  lia.
Qed.

Lemma write_header_bar {R CB} (d : HeaderData) (i : nat) val (pbs : list (PciBar R CB)) :
  (i < 6)%nat →
  write_header d (offset_bar (Z.of_nat i)) 4 val pbs = write_bar d i val pbs.
Proof.
  intros Hi. unfold write_header, LAYOUT_COMMAND, LAYOUT_STATUS, OFFSET_BAR5, OFFSET_BAR0, offset_bar,
    OFFSET_BARS. rewrite !decide_False by (intros [=]; lia). rewrite decide_True by lia.
  f_equal. rewrite Z.shiftr_div_pow2 by lia.
  replace (16 + Z.of_nat i * 4 - (16 + 0 * 4)) with (Z.of_nat i * 2 ^ 2) by lia.
  rewrite Z.div_mul by lia. lia.
Qed.

(** A write to a BAR whose memory space is disabled is stored through the mask. *)
Lemma write_bar_disabled {R CB} (d : HeaderData) (i : nat) val (pbs : list (PciBar R CB)) bar old mask :
  pbs !! i = Some bar → (bar = BarEmpty ∨ ∃ r, bar = BarMem r) →
  bars (header d) !! i = Some old → bar_masks d !! i = Some mask →
  contains (command (common (header d))) Command.MEM = false →
  write_bar d i val pbs =
    (with_header d (set_bars_field (header d)
       (<[i := mask_bits 32 old (u32 val) mask]> (bars (header d)))), Ok None).
Proof.
  intros Hp Hb Ho Hm Hc. unfold write_bar. rewrite Hm, Ho, Hp. cbn zeta.
  destruct (Z.eqb_spec old (mask_bits 32 old (u32 val) mask)) as [E|E].
  { rewrite <- E, list_insert_id by done. by destruct d as [[] ? ?]. }
  destruct Hb as [->|[r ->]]; rewrite Hc; [|done].
  destruct i as [|i]; [done|].
  destruct (lookup_lt_is_Some_2 (bars (header d)) i) as [lo Hlo];
    [apply lookup_lt_Some in Ho; lia|]. by rewrite Hlo.
Qed.

(** ** The masks *)

Section Masks.
Context {W R C CB : Type} `{Mmio W R C}.

(** The address space a memory BAR decodes. *)
Definition bar_size (region : MemRegion R CB) : Z :=
  Z.max (next_power_of_two (region_size region)) 4096.

Lemma derive_masks_mem pbs vals hi (i : nat) (region : MemRegion R CB) v :
  pbs !! i = Some (BarMem region) → vals !! i = Some v →
  derive_masks pbs vals hi !! i = Some (u32 (bnot 64 (bar_size region - 1))).
Proof.
  revert vals hi i. induction pbs as [|b pbs IH]; intros [|w vals] hi [|i] Hp Hv; simpl in *; try done.
  - by injection Hp as ->.
  - by apply IH.
Qed.

Lemma derive_masks_hi pbs vals hi (i : nat) (region : MemRegion R CB) v w :
  pbs !! i = Some (BarMem region) → pbs !! S i = Some BarEmpty →
  vals !! i = Some v → vals !! S i = Some w → is_mem64 v = true →
  derive_masks pbs vals hi !! S i = Some (u32 (Z.shiftr (bnot 64 (bar_size region - 1)) 32)).
Proof.
  revert vals hi i. induction pbs as [|b pbs IH]; intros [|x vals] hi [|i] Hp Hp' Hv Hw H64; simpl in *; try done.
  - injection Hp as ->. injection Hv as ->. destruct pbs as [|b' pbs]; [done|].
    destruct vals as [|y vals]; [done|]. simpl in *. injection Hp' as ->. simpl. by rewrite H64.
  - by eapply IH.
Qed.

Lemma derive_masks_length (pbs : list (PciBar R CB)) vals hi :
  length (derive_masks pbs vals hi) = Nat.min (length pbs) (length vals).
Proof. revert vals hi. induction pbs; intros [|]; simpl; auto. Qed.

Lemma bar_size_pow2 (region : MemRegion R CB) :
  0 < region_size region ≤ 2 ^ 63 → ∃ k, 12 ≤ k ≤ 63 ∧ bar_size region = 2 ^ k.
Proof.
  intros [Hpos Hle]. unfold bar_size, next_power_of_two.
  pose proof (Z.log2_up_nonneg (region_size region)) as Hn.
  assert (Z.log2_up (region_size region) ≤ 63) as Hk.
  { rewrite <- (Z.log2_up_pow2 63) by lia. by apply Z.log2_up_le_mono. }
  rewrite wrap_small.
  2: { split; [lia|]. apply Z.pow_lt_mono_r; lia. }
  change 4096 with (2 ^ 12). destruct (Z.le_gt_cases 12 (Z.log2_up (region_size region))) as [Hge|Hlt].
  - exists (Z.log2_up (region_size region)). split; [lia|].
    apply Z.max_l. apply Z.pow_le_mono_r; lia.
  - exists 12. split; [lia|]. apply Z.max_r. apply Z.pow_le_mono_r; lia.
Qed.
End Masks.

(** What sizing yields, for every power of two and every type field. *)
Definition sizing_ok (k v : Z) : bool :=
  let mask_64 := bnot 64 (2 ^ k - 1) in
  let lo := mask_bits 32 v U32_MAX (u32 mask_64) in
  let hi := mask_bits 32 0 U32_MAX (u32 (Z.shiftr mask_64 32)) in
  (Z.land lo 15 =? v) &&
  (u64 (bnot 64 (Z.lor (Z.land lo (bnot 32 15)) (Z.shiftl hi 32)) + 1) =? 2 ^ k) &&
  ((31 <? k) || (u32 (bnot 32 (Z.land lo (bnot 32 15)) + 1) =? 2 ^ k)) &&
  bool_decide (in_u 32 lo) && bool_decide (in_u 32 hi).

Lemma sizing_table :
  forallb (λ k, forallb (sizing_ok k) (seqZ 0 16)) (seqZ 12 52) = true.
Proof. vm_compute. reflexivity. Qed.

Lemma sizing_ok_all k v : 12 ≤ k ≤ 63 → in_u 4 v → sizing_ok k v = true.
Proof.
  intros Hk Hv. pose proof sizing_table as Ht. rewrite forallb_forall in Ht.
  specialize (Ht k). rewrite forallb_forall in Ht. apply Ht.
  - apply list_elem_of_In, elem_of_seqZ. lia.
  - apply list_elem_of_In, elem_of_seqZ. unfold in_u in Hv. lia.
Qed.

Section Sizing.
Context {W R C CB : Type} `{Mmio W R C} (cb : nat → CB).

Lemma attach_lookup (pbars : list (PciBar R CB)) (i : nat) bar :
  pbars !! i = Some bar →
  imap (λ index b, attach b (cb index)) pbars !! i = Some (attach bar (cb i)).
Proof. intros Hi. rewrite list_lookup_imap, Hi. done. Qed.

(** Writing ones to a disabled BAR of a new header: what is stored. *)
Lemma size_write (eh : EmulatedHeader R CB) (i : nat) bar old mask :
  header_bars eh !! i = Some bar → (bar = BarEmpty ∨ ∃ r, bar = BarMem r) → (i < 6)%nat →
  bars (header (data eh)) !! i = Some old → bar_masks (data eh) !! i = Some mask →
  contains (command (common (header (data eh)))) Command.MEM = false →
  EmulatedHeader_write eh (offset_bar (Z.of_nat i)) 4 U32_MAX =
    (mkEmulatedHeader
       (with_header (data eh) (set_bars_field (header (data eh))
          (<[i := mask_bits 32 old U32_MAX mask]> (bars (header (data eh)))))) (header_bars eh),
     Ok ActNone).
Proof.
  intros Hp Hb Hi Ho Hm Hc. unfold EmulatedHeader_write. rewrite write_header_bar by done.
  rewrite (write_bar_disabled _ _ _ _ bar old mask) by done. done.
Qed.
End Sizing.

(** C10: the BAR sizing protocol.  With memory decoding off, writing all ones to
    a 64-bit BAR pair of a new header and reading it back gives the type bits
    unchanged and an address mask whose negation is the BAR's size: the region's
    size rounded up to a power of two, at least 4 KiB. *)
Theorem bar64_sizing {W R C CB : Type} `{Mmio W R C} (cb : nat → CB) (h : DeviceHeader)
  (pbars : list (PciBar R CB)) (i : nat) region v :
  length (bars h) = 6%nat → length pbars = 6%nat →
  pbars !! i = Some (BarMem region) → pbars !! S i = Some BarEmpty →
  bars h !! i = Some v → bars h !! S i = Some 0 → in_u 4 v → is_mem64 v = true →
  contains (command (common h)) Command.MEM = false → 0 < region_size region ≤ 2 ^ 63 →
  let eh := EmulatedHeader_new cb h pbars in
  let w1 := EmulatedHeader_write eh (offset_bar (Z.of_nat i)) 4 U32_MAX in
  let w2 := EmulatedHeader_write (fst w1) (offset_bar (Z.of_nat (S i))) 4 U32_MAX in
  let lo := EmulatedHeader_read (fst w2) (offset_bar (Z.of_nat i)) 4 in
  let hi := EmulatedHeader_read (fst w2) (offset_bar (Z.of_nat (S i))) 4 in
  snd w1 = Ok ActNone ∧ snd w2 = Ok ActNone ∧ Z.land lo BAR_MEM_MASK = v ∧
  u64 (bnot 64 (Z.lor (Z.land lo (bnot 32 BAR_MEM_MASK)) (Z.shiftl hi 32)) + 1) = bar_size region.
Proof.
  intros Hlb Hlp Hp Hp' Hb Hb' Hv H64 Hc Hz. cbn zeta.
  destruct (bar_size_pow2 region Hz) as (k & Hk & Ek).
  pose proof (sizing_ok_all k v Hk Hv) as Hok. unfold sizing_ok in Hok. cbn zeta in Hok.
  rewrite !andb_true_iff, !bool_decide_eq_true in Hok.
  destruct Hok as ((((H1%Z.eqb_eq & H2%Z.eqb_eq) & _) & Hlo) & Hhi). rewrite <- Ek in *.
  assert (S i < 6)%nat as Hi by (apply lookup_lt_Some in Hb'; lia).
  set (eh := EmulatedHeader_new cb h pbars).
  rewrite (size_write eh i (attach (BarMem region) (cb i)) v (u32 (bnot 64 (bar_size region - 1))));
    [|by apply attach_lookup|right; by eexists|lia|done|by eapply derive_masks_mem|done].
  cbn [fst snd]. set (eh1 := mkEmulatedHeader _ _).
  rewrite (size_write eh1 (S i) BarEmpty 0 (u32 (Z.shiftr (bnot 64 (bar_size region - 1)) 32)));
    [|apply (attach_lookup cb pbars (S i) BarEmpty Hp')|by left|done
     |simpl; by rewrite list_lookup_insert_ne by lia|by eapply derive_masks_hi|done].
  cbn [fst snd]. unfold EmulatedHeader_read. cbn [data header with_header bars set_bars_field].
  split; [done|]. split; [done|].
  rewrite (header_read_bar _ i (mask_bits 32 v U32_MAX (u32 (bnot 64 (bar_size region - 1))))).
  - rewrite (header_read_bar _ (S i) (mask_bits 32 0 U32_MAX (u32 (Z.shiftr (bnot 64 (bar_size region - 1)) 32)))).
    + done.
    + simpl. rewrite !length_insert. done.
    + simpl. rewrite list_lookup_insert_eq; [done|]. rewrite length_insert. lia.
    + done.
  - simpl. rewrite !length_insert. done.
  - simpl. rewrite list_lookup_insert_ne by lia. rewrite list_lookup_insert_eq; [done|lia].
  - done.
Qed.

(** ** What a write may change *)

Lemma mask_bits_frame w old val mask :
  0 ≤ w → in_u w old → in_u w mask →
  Z.ldiff (mask_bits w old val mask) mask = Z.ldiff old mask.
Proof. intros Hw Ho Hm. unfold mask_bits, bnot. bitblast. Qed.

(** What a write may change: the bits of the command and of the status register, one
    by one, and the BAR that is written, under its mask. *)
Definition command_bits : list Z := [0; 1; 2; 6; 8; 10].
Definition status_kept_bits : list Z := [0; 3; 4].
Definition status_rw1c_bits : list Z := [8; 11; 12; 13; 14; 15].

Definition command_follows (written : bool) (val old new : Z) : Prop :=
  ∀ i, 0 ≤ i → Z.testbit new i =
    if written then bool_decide (i ∈ command_bits) && Z.testbit val i else Z.testbit old i.

Definition status_follows (written : bool) (val old new : Z) : Prop :=
  ∀ i, 0 ≤ i → Z.testbit new i =
    if written then
      Z.testbit old i && (bool_decide (i ∈ status_kept_bits) ||
                          bool_decide (i ∈ status_rw1c_bits) && negb (Z.testbit val i))
    else Z.testbit old i.

(** The register of BAR [i] holds the offset. *)
Definition bar_covers (i : nat) (offset : Z) : Prop :=
  offset_bar (Z.of_nat i) ≤ offset < offset_bar (Z.of_nat i) + 4.

Definition bars_follow (masks old new : list Z) (offset size : Z) : Prop :=
  length new = length old ∧
  ∀ (i : nat) m b b', masks !! i = Some m → old !! i = Some b → new !! i = Some b' → b' ≠ b →
    bar_covers i offset ∧ size = 4 ∧ Z.ldiff b' m = Z.ldiff b m.

Definition header_follows (d d' : HeaderData) (offset size val : Z) : Prop :=
  header d' = set_bars_field (set_status_field (set_command_field (header d)
      (command (common (header d')))) (status (common (header d')))) (bars (header d')) ∧
  bar_masks d' = bar_masks d ∧ bdf d' = bdf d ∧
  command_follows (bool_decide (offset = 4 ∧ size = 2)) val
    (command (common (header d))) (command (common (header d'))) ∧
  status_follows (bool_decide (offset = 6 ∧ size = 2)) val
    (status (common (header d))) (status (common (header d'))) ∧
  bars_follow (bar_masks d) (bars (header d)) (bars (header d')) offset size.

Lemma bars_follow_refl masks bs offset size : bars_follow masks bs bs offset size.
Proof. split; [done|]. intros i m b b' _ Hb Hb'. by simplify_eq. Qed.

Lemma bars_follow_insert masks bs (i : nat) m b v offset :
  masks !! i = Some m → bs !! i = Some b → Z.ldiff v m = Z.ldiff b m →
  bar_covers i offset → bars_follow masks bs (<[i := v]> bs) offset 4.
Proof.
  intros Hm Hb E Ho. split; [apply length_insert|]. intros j m' b0 b' Hm' Hb0 Hb' Hne.
  destruct (decide (i = j)) as [<-|Hij].
  - rewrite list_lookup_insert_eq in Hb' by (by eapply lookup_lt_Some). by simplify_eq.
  - rewrite list_lookup_insert_ne in Hb' by done. by simplify_eq.
Qed.

(** A write that touches neither register. *)
Lemma header_follows_other d offset size val bs :
  ¬ (offset = 4 ∧ size = 2) → ¬ (offset = 6 ∧ size = 2) →
  bars_follow (bar_masks d) (bars (header d)) bs offset size →
  header_follows d (with_header d (set_bars_field (header d) bs)) offset size val.
Proof.
  intros H4 H6 Hb. unfold header_follows. rewrite !bool_decide_eq_false_2 by done.
  destruct d as [[[] ? ? ? ? ? ? ? ? ? ? ?] ms b]. split_and!; first [exact Hb|done].
Qed.

Lemma header_follows_refl d offset size val :
  ¬ (offset = 4 ∧ size = 2) → ¬ (offset = 6 ∧ size = 2) → header_follows d d offset size val.
Proof.
  intros H4 H6. pose proof (header_follows_other d offset size val (bars (header d)) H4 H6
    (bars_follow_refl _ _ _ _)) as H. by destruct d as [[] ? ?].
Qed.

Lemma offset_bar_index offset :
  OFFSET_BAR0 ≤ offset → bar_covers (Z.to_nat (Z.shiftr (offset - OFFSET_BAR0) 2)) offset.
Proof.
  unfold bar_covers, OFFSET_BAR0, offset_bar, OFFSET_BARS. intros Ho.
  rewrite Z.shiftr_div_pow2 by lia. change (2 ^ 2) with 4.
  pose proof (Z.div_mod (offset - (16 + 0 * 4)) 4). pose proof (Z.mod_pos_bound (offset - (16 + 0 * 4)) 4).
  lia.
Qed.

Lemma write_bar_follows {R CB} (d : HeaderData) i val (pbs : list (PciBar R CB)) offset :
  data_typed d → bar_covers i offset →
  header_follows d (fst (write_bar d i val pbs)) offset 4 val.
Proof.
  intros (Hc & Hs & Hl & Hb & Hlm & Hm) Ho.
  assert (header_follows d d offset 4 val) as Hr by (by apply header_follows_refl; intros [_ ?]).
  unfold write_bar. destruct (bar_masks d !! i) as [m|] eqn:Em; [|done].
  destruct (bars (header d) !! i) as [b|] eqn:Eb; [|done]. destruct (pbs !! i); [|done].
  cbn zeta. set (v := mask_bits 32 b (u32 val) m).
  assert (header_follows d (with_header d (set_bars_field (header d) (<[i:=v]> (bars (header d)))))
            offset 4 val) as Hst.
  { apply header_follows_other; [by intros [_ ?]..|]. eapply bars_follow_insert; [done..| |done].
    apply mask_bits_frame; [lia|exact (Forall_lookup_1 _ _ _ _ Hb Eb)|exact (Forall_lookup_1 _ _ _ _ Hm Em)]. }
  repeat case_match; done.
Qed.

Lemma in_list_decide (l : list Z) i : bool_decide (i ∈ l) = existsb (Z.eqb i) l.
Proof.
  induction l as [|x l IH]; [done|]. simpl. rewrite <- IH.
  destruct (Z.eqb_spec i x) as [->|Hne]; [by apply bool_decide_eq_true_2; left|].
  apply bool_decide_ext. rewrite elem_of_cons. naive_solver.
Qed.

(** The bits of a constant mask. *)
Lemma mask_testbit (l : list Z) (m i : Z) :
  0 ≤ i → in_u 16 m → forallb (λ j, eqb (Z.testbit m j) (existsb (Z.eqb j) l)) (seqZ 0 16) = true →
  forallb (λ j, j <? 16) l = true → Z.testbit m i = bool_decide (i ∈ l).
Proof.
  intros Hi Hm Ht Hl. rewrite forallb_forall in Ht. destruct (Z.lt_ge_cases i 16) as [Hlt|Hge].
  - rewrite in_list_decide. apply eqb_prop, Ht, list_elem_of_In, elem_of_seqZ. lia.
  - rewrite (testbit_high 16 m i Hm) by lia. symmetry. apply bool_decide_eq_false_2.
    intros Hin. rewrite forallb_forall in Hl. specialize (Hl i). rewrite <- list_elem_of_In in Hl.
    specialize (Hl Hin). lia.
Qed.

Ltac mask_side := solve [assumption | reflexivity | by_eval].

Lemma write_command_bits old val :
  command_follows true val old
    (Z.lor (Z.land old (flags_not Command.all Command.WRITABLE_BITS))
       (Z.land (u16 val) Command.WRITABLE_BITS)).
Proof.
  intros i Hi. change (flags_not Command.all Command.WRITABLE_BITS) with 0.
  rewrite Z.land_0_r, Z.lor_0_l, Z.land_spec, wrap_testbit by lia.
  rewrite (mask_testbit command_bits Command.WRITABLE_BITS) by mask_side.
  destruct (bool_decide_reflect (i ∈ command_bits)) as [Hin|]; [|by rewrite andb_false_r].
  rewrite andb_true_r, bool_decide_eq_true_2; [done|]. unfold command_bits in Hin. set_unfold. lia.
Qed.

Lemma write_status_bits old val :
  status_follows true val old
    (Z.land old (flags_not Status.all (Z.land (u16 val) Status.RW1C_BITS))).
Proof.
  intros i Hi. unfold flags_not. rewrite Z.land_spec, Z.ldiff_spec, Z.land_spec, wrap_testbit by lia.
  rewrite (mask_testbit (status_kept_bits ++ status_rw1c_bits) Status.all) by mask_side.
  rewrite (mask_testbit status_rw1c_bits Status.RW1C_BITS) by mask_side. f_equal.
  rewrite (in_list_decide (_ ++ _)), existsb_app, !in_list_decide.
  destruct (existsb (Z.eqb i) status_rw1c_bits) eqn:Er; [|by rewrite !andb_false_r, !orb_false_r, andb_true_r].
  apply existsb_exists in Er as (x & Hx%list_elem_of_In & ->%Z.eqb_eq).
  assert (x < 16) as Hlt by (unfold status_rw1c_bits in Hx; set_unfold; lia).
  rewrite (bool_decide_eq_true_2 (x < 16)) by done. unfold status_rw1c_bits in Hx.
  repeat (apply elem_of_cons in Hx as [->|Hx]; [by destruct (Z.testbit val _)|]). by apply elem_of_nil in Hx.
Qed.

(** C11: a guest write of any offset, size and value changes at most one register.  A
    write of the command register leaves exactly the six writable bits of the value; a
    write of the status register clears the write-one-to-clear bits that are written as
    one, keeps the capability, INTx and readiness bits, and clears every bit the code
    does not name (bits 1, 2, 5 to 7, 9 and 10); a 32-bit write changes at most the BAR
    whose register holds the offset, and that under its mask.  Every other field of the
    header stays as it was. *)
Theorem config_write_frame {R CB} (d : HeaderData) offset size val (pbs : list (PciBar R CB)) :
  data_typed d → header_follows d (fst (write_header d offset size val pbs)) offset size val.
Proof.
  intros Ht. unfold write_header, LAYOUT_COMMAND, LAYOUT_STATUS.
  case_decide as E4; [|case_decide as E6; [|case_decide as Eb]].
  - injection E4 as -> ->. destruct d as [[[] ? ? ? ? ? ? ? ? ? ? ?] ms x].
    split_and!; first [apply bars_follow_refl|apply write_command_bits|done].
  - injection E6 as -> ->. destruct d as [[[] ? ? ? ? ? ? ? ? ? ? ?] ms x].
    split_and!; first [apply bars_follow_refl|apply write_status_bits|done].
  - destruct Eb as [Ho ->]. apply write_bar_follows; [done|]. apply offset_bar_index, Ho.
  - apply header_follows_refl; intros [-> ->]; [by apply E4|by apply E6].
Qed.

Import (hints) MemoryThm.Demo.

(** A header for the witnesses: one 64-bit memory BAR over 16 KiB, no command bit. *)
Module DemoHeader.
Definition region : MemRegion (Z * nat) unit := with_emulated (0x3000, 0%nat) TypeHidden.
Definition hdr : DeviceHeader :=
  mkDevice (mkCommon 0x1af4 0x1042 0 0x10 1 0 0 1 0 0 0 0) [0; 0; 0xc; 0; 0; 0] 0 0x1af4 0 0 0x40
    [0; 0; 0; 0; 0; 0; 0] 0 0 0 0.
Definition pbars : list (PciBar (Z * nat) unit) :=
  [BarEmpty; BarEmpty; BarMem region; BarEmpty; BarEmpty; BarEmpty].
Definition eh : EmulatedHeader (Z * nat) unit := EmulatedHeader_new (λ _, tt) hdr pbars.
End DemoHeader.

Lemma bar64_sizing_witness :
  bar_size DemoHeader.region = 0x4000 ∧
  let w1 := EmulatedHeader_write DemoHeader.eh 0x18 4 U32_MAX in
  let w2 := EmulatedHeader_write (fst w1) 0x1c 4 U32_MAX in
  u64 (bnot 64 (Z.lor (Z.land (EmulatedHeader_read (fst w2) 0x18 4) (bnot 32 BAR_MEM_MASK))
    (Z.shiftl (EmulatedHeader_read (fst w2) 0x1c 4) 32)) + 1) = bar_size DemoHeader.region.
Proof.
  split; [reflexivity|].
  refine (proj2 (proj2 (proj2 (bar64_sizing (λ _, tt) DemoHeader.hdr DemoHeader.pbars 2
    DemoHeader.region 0xc _ _ _ _ _ _ _ _ _ _)))); by_eval.
Defined.

(** A status register with the bits 0, 4, 5 and 15 set: writing bit 15 as one clears
    it, and bit 5, which the code does not name. *)
Definition DemoHeader_status : HeaderData :=
  with_header (data DemoHeader.eh) (set_status_field (header (data DemoHeader.eh)) 0x8031).

Lemma config_write_frame_witness :
  let d' := fst (write_header DemoHeader_status 6 2 0x8000 DemoHeader.pbars) in
  header_follows DemoHeader_status d' 6 2 0x8000 ∧ status (common (header d')) = 0x11.
Proof.
  split; [|reflexivity]. apply config_write_frame.
  apply (bool_decide_unpack _). vm_compute. exact I.
Defined.
