(* ===== verification/PciLayout.v ===== *)
(** * BARs on the memory: [BarCallback], BAR moves and memory enable

    Where pci/config.rs and mem/mem.rs meet.  A region behind a BAR carries a
    [BarCallback] that writes the BAR register when the region is mapped; the
    header lives in the state the devices share ([HeaderStore]). *)

From S2P Require Import Prelude Utils MemTypes Addressable Emulated Mapped Memory MemoryInv.
From S2P Require Import MemoryThm PciConfig PciConfigThm.

(** [Arc<RwLock<HeaderData>>]: handles [H] to headers inside [W]. *)
Class HeaderStore (W H : Type) := {
  hdr : H → W → HeaderData;
  set_hdr : H → HeaderData → W → W;
  hdr_set : ∀ h d w, hdr h (set_hdr h d w) = d
}.

Record BarCallback (H : Type) := mkBarCallback { cb_index : nat; cb_header : H }.
Arguments mkBarCallback {H} _ _.
Arguments cb_index {H} _.
Arguments cb_header {H} _.

(** The callbacks of a region: the one the header attaches, and those the device's region
    had before ([IoeventFdCallback] of virtio/pci.rs, for one). *)
Inductive RegionCallback (H X : Type) := CbBar (cb : BarCallback H) | CbOther (x : X).
Arguments CbBar {H X} _.
Arguments CbOther {H X} _.

Class OtherCallbacks (W X : Type) := {
  other_mapped : X → Z → W → W * outcome mem_error unit;
  other_unmapped : X → W → W * outcome mem_error unit
}.

(** The observers of RAM registered by other devices (VFIO, vhost). *)
Class LayoutObservers (W LC LU : Type) := {
  obs_ram_added : LC → Z → ArcMemPages → W → W * outcome mem_error unit;
  obs_ram_removed : LC → Z → ArcMemPages → W → W * outcome mem_error unit;
  obs_ram_updated : LU → list (Slot ArcMemPages) → W → W * outcome mem_error unit
}.

Definition bar_callback_mapped {W H} `{HeaderStore W H} (cb : BarCallback H) (addr : Z) (w : W)
  : W * outcome mem_error unit :=
  let r := BarCallback_mapped (cb_index cb) addr (hdr (cb_header cb) w) in
  (set_hdr (cb_header cb) (fst r) w, snd r).

(** [MemRegionCallback]; [BarCallback::unmapped] keeps the trait's default. *)
#[export] Instance bar_callbacks {W H X LC LU} `{HeaderStore W H} `{OtherCallbacks W X}
  `{LayoutObservers W LC LU} : MemCallbacks W (RegionCallback H X) LC LU := {|
  cb_mapped := λ cb addr,
    match cb with CbBar b => bar_callback_mapped b addr | CbOther x => other_mapped x addr end;
  cb_unmapped := λ cb w, match cb with CbBar _ => (w, Ok tt) | CbOther x => other_unmapped x w end;
  lc_ram_added := obs_ram_added;
  lc_ram_removed := obs_ram_removed;
  lu_ram_updated := obs_ram_updated
|}.

(** The hypervisor, the RAM observers and the other callbacks succeed and leave the
    headers alone. *)
Class LayoutEnv (W H X LC LU : Type) `{HeaderStore W H} `{OtherCallbacks W X}
  `{LayoutObservers W LC LU} `{VmMemory W} : Prop := {
  env_total :: EnvTotal W (RegionCallback H X) LC LU;
  other_mapped_total : ∀ x addr w, is_ok (snd (other_mapped x addr w));
  hdr_map : ∀ h gpa size hva w, hdr h (fst (hv_mem_map gpa size hva w)) = hdr h w;
  hdr_unmap : ∀ h gpa size w, hdr h (fst (hv_unmap gpa size w)) = hdr h w;
  hdr_added : ∀ h lc gpa p w, hdr h (fst (obs_ram_added lc gpa p w)) = hdr h w;
  hdr_removed : ∀ h lc gpa p w, hdr h (fst (obs_ram_removed lc gpa p w)) = hdr h w;
  hdr_updated : ∀ h lu ram w, hdr h (fst (obs_ram_updated lu ram w)) = hdr h w;
  hdr_other_mapped : ∀ h x addr w, hdr h (fst (other_mapped x addr w)) = hdr h w;
  hdr_other_unmapped : ∀ h x w, hdr h (fst (other_unmapped x w)) = hdr h w
}.

(** The address a memory BAR decodes. *)
Definition bar_addr (bs : list Z) (i : nat) : Z :=
  let lo := default 0 (bs !! i) in
  let addr := Z.land lo (bnot 32 BAR_MEM_MASK) in
  if is_mem64 lo then Z.lor addr (Z.shiftl (default 0 (bs !! S i)) 32) else addr.

(** ** Bits of BAR values *)

Lemma fifteen_in_u : in_u 4 15.
Proof. by_eval. Qed.

Lemma move_addr lo hi :
  in_u 32 lo → in_u 32 hi →
  Z.land (Z.lor lo (Z.shiftl hi 32)) (bnot 64 15) = Z.lor (Z.land lo (bnot 32 15)) (Z.shiftl hi 32).
Proof. intros Hl Hh. pose proof fifteen_in_u. unfold bnot. bitblast. Qed.

Lemma move_addr32 lo : in_u 32 lo → Z.land lo (bnot 64 15) = Z.land lo (bnot 32 15).
Proof. intros Hl. pose proof fifteen_in_u. unfold bnot. bitblast. Qed.

Lemma move_addr_lo lo hi :
  in_u 32 lo → u32 (Z.lor (Z.land lo (bnot 32 15)) (Z.shiftl hi 32)) = Z.land lo (bnot 32 15).
Proof. intros Hl. pose proof fifteen_in_u. unfold bnot. bitblast. Qed.

Lemma move_addr_hi lo hi :
  in_u 32 lo → in_u 32 hi →
  u32 (Z.shiftr (Z.lor (Z.land lo (bnot 32 15)) (Z.shiftl hi 32)) 32) = hi.
Proof. intros Hl Hh. pose proof fifteen_in_u. unfold bnot. bitwise. Qed.

Lemma mask_bits_again old val mask :
  in_u 32 old → in_u 32 mask → Z.land mask 15 = 0 →
  mask_bits 32 old (Z.land (mask_bits 32 old val mask) (bnot 32 15)) mask = mask_bits 32 old val mask.
Proof.
  intros Ho Hm H0. pose proof fifteen_in_u as H15. unfold mask_bits, bnot.
  apply Z.bits_inj'. intros i Hi. apply (f_equal (λ z, Z.testbit z i)) in H0.
  rewrite Z.land_spec, Z.bits_0 in H0. autorewrite with zbits. decide_bits.
  all: destruct (Z.testbit mask i), (Z.testbit 15 i), (Z.testbit old i), (Z.testbit val i); done.
Qed.

Lemma mask_bits_same w old mask :
  0 ≤ w → in_u w old → in_u w mask → mask_bits w old old mask = old.
Proof. intros Hw Ho Hm. unfold mask_bits, bnot. bitblast. Qed.

Lemma mask_bits_twice w old val mask :
  0 ≤ w → in_u w old → in_u w mask →
  mask_bits w old (mask_bits w old val mask) mask = mask_bits w old val mask.
Proof. intros Hw Ho Hm. unfold mask_bits, bnot. bitblast. Qed.

Section Layout.
Context {W R C H X LC LU : Type} `{Mmio W R C} `{!HeaderStore W H} `{!OtherCallbacks W X}
  `{!LayoutObservers W LC LU} `{!VmMemory W} `{!LayoutEnv W H X LC LU}.
Abbreviation mem := (Memory W R (RegionCallback H X) LC LU).
Abbreviation M := (stm (Memory W R (RegionCallback H X) LC LU) mem_error).

Definition hdr_of (h : H) (m : mem) : HeaderData := hdr h (mem_world m).

Lemma keeps_world_fn {E A T} (g : W → T) (f : W → W * outcome E A) inj :
  (∀ w, g (fst (f w)) = g w) → keeps (λ m, g (mem_world m)) (on_world f inj : M A).
Proof. intros Hf m. apply Hf. Qed.

Local Ltac keeps_hdr :=
  repeat first
    [ apply keeps_ret
    | apply keeps_bind; [|intros ?]
    | apply keeps_for; intros ?
    | apply (keeps_world_fn (hdr _)); intros ?;
      first [apply hdr_map | apply hdr_unmap | apply hdr_added | apply hdr_removed | apply hdr_updated
            | reflexivity]
    | (intros ?; reflexivity) ].

Lemma notify_updated_hdr h b : keeps (hdr_of h) (notify_updated b : M unit).
Proof.
  intros m. unfold notify_updated, sbind, sget. destruct b; [|done].
  apply (keeps_for (hdr_of h)). intros x. keeps_hdr.
Qed.

Lemma map_ranges_hdr h addr offset upd rs : keeps (hdr_of h) (map_ranges addr offset upd rs : M bool).
Proof.
  revert offset upd. induction rs as [|r rs IH]; intros; simpl; [apply keeps_ret|].
  apply keeps_bind; [|auto]. destruct r; simpl; keeps_hdr.
Qed.

Lemma unmap_ranges_hdr h addr offset upd rs :
  keeps (hdr_of h) (unmap_ranges addr offset upd rs : M bool).
Proof.
  revert offset upd. induction rs as [|r rs IH]; intros; simpl; [apply keeps_ret|].
  apply keeps_bind; [|auto]. destruct r; simpl; keeps_hdr.
Qed.

Lemma add_region_core_hdr h addr region : keeps (hdr_of h) (add_region_core addr region : M unit).
Proof.
  unfold add_region_core. do 2 (apply keeps_bind; [by intros ?|intros _]).
  apply keeps_bind; [apply map_ranges_hdr|intros u; apply notify_updated_hdr].
Qed.

Lemma remove_region_hdr h addr : keeps (hdr_of h) (remove_region addr : M _).
Proof.
  unfold remove_region, unmap_region. apply keeps_bind; [by intros ?|intros r].
  apply keeps_bind; [|intros _; apply keeps_ret]. apply keeps_bind; [apply unmap_ranges_hdr|intros u].
  apply keeps_bind; [apply notify_updated_hdr|intros _]. apply (keeps_for (hdr_of h)). intros [b|x].
  - by intros m.
  - apply (keeps_world_fn (hdr h)). intros w. apply hdr_other_unmapped.
Qed.

(** The other callbacks of a region, which run before the header's. *)
Lemma others_mapped (xs : list X) (b : BarCallback H) addr (m : mem) :
  ∃ m', (sfor ((CbOther <$> xs) ++ [CbBar b]) (λ cb, on_world (cb_mapped cb addr) id) : M unit) m =
      (sfor [CbBar b] (λ cb, on_world (cb_mapped cb addr) id) : M unit) m' ∧
    shape m' = shape m ∧ ∀ h, hdr_of h m' = hdr_of h m.
Proof.
  revert m. induction xs as [|x xs IH]; intros m; [by exists m|].
  pose proof (other_mapped_total x addr (mem_world m)) as Ht.
  pose proof (λ h, hdr_other_mapped h x addr (mem_world m)) as Hh.
  destruct (other_mapped x addr (mem_world m)) as [w [[]| |]] eqn:E; try done.
  destruct (IH (set_world w m)) as (m' & E' & Hs & Hh'). exists m'. rewrite <- E'. split_and!.
  - simpl. unfold sbind at 1, on_world at 1. simpl. by rewrite E.
  - by rewrite Hs.
  - intros h. rewrite Hh'. apply Hh.
Qed.

(** What the callback writes: the masked low half, and the high half of a 64-bit
    BAR. *)
Lemma bar_mapped_ok (d : HeaderData) (i : nat) addr old mask hi mask_hi :
  bars (header d) !! i = Some old → bar_masks d !! i = Some mask →
  (is_mem64 old = true → bars (header d) !! S i = Some hi ∧ bar_masks d !! S i = Some mask_hi) →
  let lo' := mask_bits 32 old (u32 addr) mask in
  let hi' := mask_bits 32 hi (u32 (Z.shiftr addr 32)) mask_hi in
  BarCallback_mapped i addr d =
    (with_header d (set_bars_field (header d)
       (if is_mem64 old then <[S i := hi']> (<[i := lo']> (bars (header d)))
        else <[i := lo']> (bars (header d)))), Ok tt).
Proof.
  intros Ho Hm Hh. cbn zeta. unfold BarCallback_mapped, get_bar. rewrite Ho, Hm.
  unfold set_bar. rewrite Hm, Ho. destruct (is_mem64 old); [|done].
  destruct (Hh eq_refl) as [Hb Hmh]. cbn [bar_masks header bars with_header set_bars_field].
  rewrite Hmh, list_lookup_insert_ne, Hb by lia. done.
Qed.

(** Executing the layout change that moves a region from [src] to [dst]. *)
Lemma move_region_total src dst region m :
  mem_inv m → mkSlot src region ∈ mem_regions m → in_u 64 dst → dst + region_size region ≤ 2 ^ 64 →
  region_typed region → region_validate region = Ok tt →
  (∀ t, t ∈ mem_regions m → slot_addr t ≠ src → ¬ overlaps (mkSlot dst region) t) →
  ∃ m1 m2, (remove_region src : M _) m = (m1, Ok region) ∧
    (add_region dst region : M unit) m1 =
      sfor (region_callbacks region) (λ cb, on_world (cb_mapped cb dst) id) m2 ∧
    (∀ h, hdr_of h m2 = hdr_of h m) ∧
    (∀ t, t ∈ mem_regions m2 ↔
       t = mkSlot dst region ∨ (t ∈ mem_regions m ∧ slot_addr t ≠ src)).
Proof.
  intros Hinv Hin Hd Hend Ht Hv Hfree.
  pose proof (layout_nonempty _ _ _ (proj1 Hinv) Hin) as Hne. simpl in Hne.
  destruct (remove_region_total src region m Hinv Hin) as [m1 E1].
  pose proof (remove_region_ok _ _ _ _ Hinv E1) as (Hinv1 & _ & Hin1).
  destruct (slots_wf_bound _ _ _ (inv_regions _ _ (proj1 Hinv)) Hin) as (_ & Hpos & _).
  unfold slot_end in Hpos. simpl in Hpos.
  destruct (bus_add_total (mem_regions m1) dst region) as (l' & i & Ea);
    [apply Hinv1|done|apply region_size_in_u|lia|done| |].
  { intros c [Hc Hne']%Hin1. by apply Hfree. }
  destruct (add_region_core_total dst region m1) as [m2 E2]; try done; [by rewrite Ea|].
  exists m1, m2. split; [done|]. split; [by apply add_region_split|]. split.
  - intros h. rewrite (keeps_Ok _ _ _ _ _ (add_region_core_hdr h _ _) E2).
    by rewrite (keeps_Ok _ _ _ _ _ (remove_region_hdr h _) E1).
  - unfold add_region_core in E2. inv_ok E2. injection Ek as <- _. inv_ok E2. inv_ok E2.
    apply (keeps_Ok shape) in E2; [|apply notify_updated_keeps].
    apply (keeps_Ok frame) in Ek0; [|apply map_ranges_keeps].
    unfold on_regions in Ek. rewrite Ea in Ek. injection Ek as <- <-.
    injection E2 as R1 _ _ _ _ _ _. injection Ek0 as R2 _ _ _ _. rewrite R1, R2. simpl.
    apply bus_add_ok in Ea as (_ & _ & _ & Hl'); [|apply Hinv1|done|apply region_size_in_u].
    intros t. rewrite Hl', Hin1. done.
Qed.
End Layout.

(** ** Properties *)

(** The callback a guest write to an enabled memory BAR returns. *)
Lemma write_bar_moves {R CB} (d : HeaderData) (i : nat) val (pbs : list (PciBar R CB)) r old mask :
  data_typed d → pbs !! i = Some (BarMem r) →
  bars (header d) !! i = Some old → bar_masks d !! i = Some mask →
  (is_mem64 old = true → (i < 5)%nat) →
  contains (command (common (header d))) Command.MEM = true →
  let new := mask_bits 32 old (u32 val) mask in
  old ≠ new →
  ∃ hi, (is_mem64 old = true → bars (header d) !! S i = Some hi) ∧ in_u 32 hi ∧
    let up := if is_mem64 old then Z.shiftl hi 32 else 0 in
    write_header d (offset_bar (Z.of_nat i)) 4 val pbs =
      (d, Ok (Some (MoveBarCallback (bdf d) (Z.lor old up) (Z.lor new up)))).
Proof.
  intros (_ & _ & Hl & Hb & _ & _) Hp Ho Hm H64 Hc. cbn zeta. intros Hne.
  assert (i < 6)%nat as Hi by (apply lookup_lt_Some in Ho; lia).
  setoid_rewrite write_header_bar; [|done]. unfold write_bar. rewrite Hm, Ho, Hp.
  rewrite (proj2 (Z.eqb_neq _ _)) by done. rewrite Hc.
  destruct (is_mem64 old).
  - destruct (lookup_lt_is_Some_2 (bars (header d)) (S i)) as [hi Hhi]; [specialize (H64 eq_refl); lia|].
    exists hi. rewrite Hhi. split; [done|]. split; [exact (Forall_lookup_1 _ _ _ _ Hb Hhi)|done].
  - exists 0. rewrite !Z.lor_0_r. split; [done|]. split; [by_eval|done].
Qed.

(** The upper half of a BAR pair, shifted; nothing for a 32-bit BAR. *)
Definition bar_upper (old hi : Z) : Z := if is_mem64 old then Z.shiftl hi 32 else 0.

Lemma mask_keeps_low old val mask :
  in_u 32 old → in_u 32 mask → Z.land mask 15 = 0 →
  Z.land (mask_bits 32 old val mask) 15 = Z.land old 15.
Proof.
  intros Ho Hm H0. pose proof fifteen_in_u as H15. unfold mask_bits, bnot.
  apply Z.bits_inj'. intros i Hi. apply (f_equal (λ z, Z.testbit z i)) in H0.
  rewrite Z.land_spec, Z.bits_0 in H0. autorewrite with zbits. decide_bits.
  all: destruct (Z.testbit mask i), (Z.testbit 15 i), (Z.testbit old i), (Z.testbit val i); done.
Qed.

Lemma is_mem64_low a b : Z.land a 15 = Z.land b 15 → is_mem64 a = is_mem64 b.
Proof.
  intros E. unfold is_mem64, BAR_MEM64. f_equal. change 4 with (Z.land 15 4).
  by rewrite !Z.land_assoc, E.
Qed.

(** The addresses the callback moves between, as the BARs decode them. *)
Lemma bar_addr_upper bs (i : nat) lo hi :
  bs !! i = Some lo → (is_mem64 lo = true → bs !! S i = Some hi) → in_u 32 lo → in_u 32 hi →
  bar_addr bs i = Z.land (Z.lor lo (bar_upper lo hi)) (bnot 64 15).
Proof.
  intros Hlo Hhi Hl Hh. unfold bar_addr, bar_upper. rewrite Hlo. simpl. destruct (is_mem64 lo).
  - rewrite (Hhi eq_refl). simpl. by rewrite move_addr.
  - by rewrite Z.lor_0_r, move_addr32.
Qed.

Lemma upper_not_io lo hi :
  in_u 32 lo → Z.testbit lo 0 = false →
  (Z.land (u32 (Z.lor lo (bar_upper lo hi))) BAR_IO =? BAR_IO) = false.
Proof.
  intros Hl H0. apply Z.eqb_neq. intros E. apply (f_equal (λ z, Z.testbit z 0)) in E.
  unfold bar_upper in E. rewrite Z.land_spec, wrap_testbit, Z.lor_spec, H0 in E by lia.
  destruct (is_mem64 lo); [rewrite Z.shiftl_spec_low in E by lia|rewrite Z.bits_0 in E]; done.
Qed.

(** Mapping the region at the address that written registers decode stores those
    registers. *)
Lemma bar_mapped_pair (d : HeaderData) (i : nat) vl vh lo mask hi mask_hi :
  data_typed d → bars (header d) !! i = Some lo → bar_masks d !! i = Some mask →
  (is_mem64 lo = true → bars (header d) !! S i = Some hi ∧ bar_masks d !! S i = Some mask_hi) →
  in_u 32 hi → in_u 32 mask_hi → Z.land mask 15 = 0 →
  let lo' := mask_bits 32 lo vl mask in
  let hi' := mask_bits 32 hi vh mask_hi in
  BarCallback_mapped i (Z.land (Z.lor lo' (bar_upper lo hi')) (bnot 64 15)) d =
    (with_header d (set_bars_field (header d)
       (if is_mem64 lo then <[S i := hi']> (<[i := lo']> (bars (header d)))
        else <[i := lo']> (bars (header d)))), Ok tt).
Proof.
  intros (_ & _ & _ & Hb & _ & Hmm) Ho Hm Hh Hhu Hmhu H15. cbn zeta.
  assert (in_u 32 lo) as Hou by exact (Forall_lookup_1 _ _ _ _ Hb Ho).
  assert (in_u 32 mask) as Hmu by exact (Forall_lookup_1 _ _ _ _ Hmm Hm).
  assert (in_u 32 (mask_bits 32 lo vl mask)) as Hnu by (apply mask_bits_in_u; [lia|done|done]).
  assert (in_u 32 (mask_bits 32 hi vh mask_hi)) as Hnh by (apply mask_bits_in_u; [lia|done|done]).
  rewrite (bar_mapped_ok d i _ lo mask hi mask_hi Ho Hm Hh). do 3 f_equal.
  unfold bar_upper. destruct (is_mem64 lo).
  - rewrite move_addr, move_addr_lo, move_addr_hi, mask_bits_again by done.
    by rewrite mask_bits_twice by (done || lia).
  - rewrite Z.lor_0_r, move_addr32 by done.
    rewrite wrap_small by (by apply land_in_u_l). by rewrite mask_bits_again.
Qed.

(** A write to the upper half of an enabled 64-bit BAR. *)
Lemma write_bar_moves_hi {R CB} (d : HeaderData) (i : nat) val (pbs : list (PciBar R CB)) lo hi mask_hi :
  data_typed d → pbs !! S i = Some BarEmpty → bars (header d) !! i = Some lo → is_mem64 lo = true →
  bars (header d) !! S i = Some hi → bar_masks d !! S i = Some mask_hi →
  contains (command (common (header d))) Command.MEM = true →
  let new := mask_bits 32 hi (u32 val) mask_hi in
  hi ≠ new →
  write_header d (offset_bar (Z.of_nat (S i))) 4 val pbs =
    (d, Ok (Some (MoveBarCallback (bdf d) (Z.lor lo (Z.shiftl hi 32)) (Z.lor lo (Z.shiftl new 32))))).
Proof.
  intros (_ & _ & Hl & _) Hp Ho H64 Hh Hm Hc. cbn zeta. intros Hne.
  rewrite write_header_bar by (apply lookup_lt_Some in Hh; lia).
  unfold write_bar. rewrite Hm, Hh, Hp, Ho, H64, Hc. by rewrite (proj2 (Z.eqb_neq _ _)) by done.
Qed.

(** The registers of BAR [i]: its own and, of a 64-bit BAR, the one after it. *)
Definition bar_register {R CB} (pbs : list (PciBar R CB)) (bs : list Z) (i j : nat) : Prop :=
  j = i ∨ (j = S i ∧ is_mem64 (default 0 (bs !! i)) = true ∧ pbs !! j = Some BarEmpty).

(** The guest's write as a change of the pair of registers. *)
Lemma write_register_moves {R CB} (d : HeaderData) (i j : nat) val (pbs : list (PciBar R CB)) r lo mask old mask_j :
  data_typed d → pbs !! i = Some (BarMem r) → bar_register pbs (bars (header d)) i j →
  bars (header d) !! i = Some lo → bar_masks d !! i = Some mask →
  bars (header d) !! j = Some old → bar_masks d !! j = Some mask_j →
  (is_mem64 lo = true → (i < 5)%nat) → contains (command (common (header d))) Command.MEM = true →
  let new := mask_bits 32 old (u32 val) mask_j in
  old ≠ new →
  ∃ hi mask_hi vl vh,
    (is_mem64 lo = true → bars (header d) !! S i = Some hi ∧ bar_masks d !! S i = Some mask_hi) ∧
    in_u 32 hi ∧ in_u 32 mask_hi ∧
    let lo' := mask_bits 32 lo vl mask in
    let hi' := mask_bits 32 hi vh mask_hi in
    write_header d (offset_bar (Z.of_nat j)) 4 val pbs =
      (d, Ok (Some (MoveBarCallback (bdf d) (Z.lor lo (bar_upper lo hi)) (Z.lor lo' (bar_upper lo hi'))))) ∧
    <[j := new]> (bars (header d)) =
      (if is_mem64 lo then <[S i := hi']> (<[i := lo']> (bars (header d))) else <[i := lo']> (bars (header d))).
Proof.
  intros Ht Hp Hj Ho Hm Hoj Hmj H64 Hc. cbn zeta. intros Hne.
  destruct Ht as (Hcu & Hsu & Hl & Hb & Hlm & Hmm). pose proof (conj Hcu (conj Hsu (conj Hl (conj Hb (conj Hlm Hmm))))) as Ht.
  assert (in_u 32 lo) as Hou by exact (Forall_lookup_1 _ _ _ _ Hb Ho).
  assert (in_u 32 mask) as Hmu by exact (Forall_lookup_1 _ _ _ _ Hmm Hm).
  destruct Hj as [->|(-> & H64' & Hpj)].
  - assert (old = lo) as -> by congruence. assert (mask_j = mask) as -> by congruence.
    destruct (write_bar_moves d i val pbs r lo mask Ht Hp Ho Hm H64 Hc Hne) as (hi & Hhi & Hhu & E).
    assert (∃ mh, (is_mem64 lo = true → bar_masks d !! S i = Some mh) ∧ in_u 32 mh) as (mh & Hmh & Hmhu).
    { destruct (bar_masks d !! S i) as [mh|] eqn:Em.
      - exists mh. split; [done|]. exact (Forall_lookup_1 _ _ _ _ Hmm Em).
      - exists 0. split; [|by_eval]. intros E1. apply lookup_ge_None in Em. specialize (H64 E1). lia. }
    exists hi, mh, (u32 val), hi. rewrite (mask_bits_same 32 hi) by (done || lia).
    split_and!; [auto|done|done|exact E|].
    destruct (is_mem64 lo) eqn:E64; [|done]. rewrite (list_insert_id _ (S i) hi); [done|].
    rewrite list_lookup_insert_ne by lia. by apply Hhi.
  - rewrite Ho in H64'. simpl in H64'. exists old, mask_j, lo, (u32 val).
    rewrite (mask_bits_same 32 lo) by (done || lia).
    split_and!; [done|exact (Forall_lookup_1 _ _ _ _ Hb Hoj)|exact (Forall_lookup_1 _ _ _ _ Hmm Hmj)| |].
    + unfold bar_upper. rewrite H64'. by apply write_bar_moves_hi.
    + rewrite H64'. by rewrite (list_insert_id (bars (header d)) i).
Qed.

(** C9: a guest write to an enabled memory BAR moves its region.  The write may be to the
    register of a 32-bit BAR or to either half of a 64-bit one.  Where the hypervisor, the
    observers of RAM and the other callbacks of the region do not fail and leave the
    header alone, and the new range is free, the layout change succeeds: the region leaves
    its old address and is mapped at the new one, every other region stays, and the
    register then holds the written value under the mask, so the address the BAR decodes is
    the region's address. *)
Theorem bar_write_moves_region {W R C H X LC LU : Type} `{Mmio W R C} `{!HeaderStore W H}
  `{!OtherCallbacks W X} `{!LayoutObservers W LC LU} `{!VmMemory W} `{!LayoutEnv W H X LC LU}
  (w0 : W) (m : Memory W R (RegionCallback H X) LC LU) (h : H) pbs (i j : nat) val region r xs
  lo mask old mask_j :
  let d := hdr_of h m in
  let new := mask_bits 32 old (u32 val) mask_j in
  let src := bar_addr (bars (header d)) i in
  let dst := bar_addr (<[j := new]> (bars (header d))) i in
  mem_reachable w0 m → data_typed d →
  pbs !! i = Some (BarMem r) → bar_register pbs (bars (header d)) i j →
  bars (header d) !! i = Some lo → bar_masks d !! i = Some mask → Z.land mask 15 = 0 →
  bars (header d) !! j = Some old → bar_masks d !! j = Some mask_j →
  Z.testbit lo 0 = false → (is_mem64 lo = true → (i < 5)%nat) →
  contains (command (common (header d))) Command.MEM = true → old ≠ new →
  mkSlot src region ∈ mem_regions m →
  region_callbacks region = (CbOther <$> xs) ++ [CbBar (mkBarCallback i h)] →
  region_typed region → region_validate region = Ok tt → dst + region_size region ≤ 2 ^ 64 →
  (∀ t, t ∈ mem_regions m → slot_addr t ≠ src → ¬ overlaps (mkSlot dst region) t) →
  ∃ callback m', write_header d (offset_bar (Z.of_nat j)) 4 val pbs = (d, Ok (Some callback)) ∧
    PciCallback_change callback m = (m', Ok tt) ∧
    (∀ t, t ∈ mem_regions m' ↔
       t = mkSlot dst region ∨ (t ∈ mem_regions m ∧ slot_addr t ≠ src)) ∧
    bars (header (hdr_of h m')) = <[j := new]> (bars (header d)).
Proof.
  cbn zeta. intros Hre Ht Hp Hj Ho Hm H15 Hoj Hmj Hb0 H64 Hc Hne Hin Hcb Hty Hv Hend Hfree.
  destruct (write_register_moves _ i j val pbs r lo mask old mask_j Ht Hp Hj Ho Hm Hoj Hmj H64 Hc Hne)
    as (hi & mh & vl & vh & Hhi & Hhu & Hmhu & E & Ebs). cbn zeta in E, Ebs. rewrite Ebs in *.
  set (lo' := mask_bits 32 lo vl mask) in *. set (hi' := mask_bits 32 hi vh mh) in *.
  destruct (Ht) as (_ & _ & _ & Hb & _ & Hmm).
  assert (in_u 32 lo) as Hou by exact (Forall_lookup_1 _ _ _ _ Hb Ho).
  assert (in_u 32 mask) as Hmu by exact (Forall_lookup_1 _ _ _ _ Hmm Hm).
  assert (in_u 32 lo') as Hlu by (apply mask_bits_in_u; [lia|done|done]).
  assert (in_u 32 hi') as Hhu' by (apply mask_bits_in_u; [lia|done|done]).
  assert (is_mem64 lo' = is_mem64 lo) as E64 by (by apply is_mem64_low, mask_keeps_low).
  pose proof (bar_addr_upper _ i lo hi Ho (λ e, proj1 (Hhi e)) Hou Hhu) as Es.
  set (bs' := if is_mem64 lo then _ else _) in *.
  assert (bar_addr bs' i = Z.land (Z.lor lo' (bar_upper lo hi')) (bnot 64 15)) as Ed.
  { replace (bar_upper lo hi') with (bar_upper lo' hi') by (unfold bar_upper; by rewrite E64).
    pose proof (lookup_lt_Some _ _ _ Ho) as Hlt.
    apply bar_addr_upper; [| |done|done]; unfold bs'; [|rewrite E64]; destruct (is_mem64 lo).
    - rewrite list_lookup_insert_ne by lia. by apply list_lookup_insert_eq.
    - by apply list_lookup_insert_eq.
    - intros _. apply list_lookup_insert_eq. rewrite length_insert.
      destruct (Hhi eq_refl) as [Hhl _]. by eapply lookup_lt_Some.
    - done. }
  rewrite Es, Ed in *. set (dst := Z.land (Z.lor lo' _) _) in *.
  destruct (move_region_total _ dst region m (reachable_inv _ _ Hre) Hin) as (m1 & m2 & E1 & E2 & Hhdr & Hrs);
    [apply land_in_u_r; [lia|by_eval]|done..|].
  rewrite Hcb in E2. destruct (others_mapped xs (mkBarCallback i h) dst m2) as (m3 & E3 & Hs3 & Hh3).
  rewrite E3 in E2. simpl in E2.
  pose proof (bar_mapped_pair _ i vl vh lo mask hi mh Ht Ho Hm Hhi Hhu Hmhu H15) as Em.
  cbn zeta in Em. fold lo' hi' dst bs' in Em.
  eexists _, (set_world (set_hdr h _ (mem_world m3)) m3). split; [exact E|]. split.
  - simpl. unfold move_bar. rewrite upper_not_io by done. cbn zeta.
    change BAR_MEM_MASK with 15.
    eapply sbind_Ok_intro; [exact E1|]. cbn beta. fold dst. rewrite E2. unfold sbind, on_world. simpl.
    unfold bar_callback_mapped. simpl. fold (hdr_of h m3). rewrite Hh3, Hhdr, Em. reflexivity.
  - injection Hs3 as Hs3 _ _ _ _ _ _. split; [intros t; simpl; rewrite Hs3; apply Hrs|].
    unfold hdr_of at 1. simpl. by rewrite hdr_set.
Qed.

(** ** A machine with one device, for the witness *)

Module DemoBar.
Definition world : Type := HeaderData * list Z.

#[export] Instance store : HeaderStore world unit := {|
  hdr := λ _ w, fst w;
  set_hdr := λ _ d w, (d, snd w);
  hdr_set := λ _ _ _, eq_refl
|}.
#[export] Instance observers : LayoutObservers world Empty_set Empty_set := {|
  obs_ram_added := λ _ _ _ w, (w, Ok tt);
  obs_ram_removed := λ _ _ _ w, (w, Ok tt);
  obs_ram_updated := λ _ _ w, (w, Ok tt)
|}.
#[export] Instance vm : VmMemory world := {|
  hv_mem_map := λ _ _ _ w, (w, Ok tt);
  hv_unmap := λ _ _ w, (w, Ok tt);
  hv_reset := λ w, (w, Ok tt);
  hv_mark_private := λ _ _ _ w, (w, Ok tt)
|}.
#[export] Instance mmio : Mmio world Z Empty_set := {|
  mmio_size := λ r, r;
  mmio_read := λ _ _ _ w, (w, Ok 0);
  mmio_write := λ _ _ _ _ w, (w, Ok ActNone)
|}.
#[export] Instance others : OtherCallbacks world nat := {|
  other_mapped := λ x addr w, ((fst w, snd w ++ [addr]), Ok tt);
  other_unmapped := λ x w, (w, Ok tt)
|}.
#[export] Instance env : LayoutEnv world unit nat Empty_set Empty_set.
Proof. split; try done. split; try done; by intros [] ?. Qed.

Definition region : MemRegion Z (RegionCallback unit nat) := with_emulated 0x4000 TypeHidden.
Definition hdr0 : DeviceHeader :=
  mkDevice (mkCommon 0x1af4 0x1042 Command.MEM 0x10 1 0 0 1 0 0 0 0) [0; 0; 0xe000000c; 1; 0; 0]
    0 0x1af4 0 0 0x40 [0; 0; 0; 0; 0; 0; 0] 0 0 0 0.
Definition pbars : list (PciBar Z (RegionCallback unit nat)) :=
  [BarEmpty; BarEmpty; BarMem region; BarEmpty; BarEmpty; BarEmpty].
Definition eh := EmulatedHeader_new (λ i, CbBar (mkBarCallback i tt)) hdr0 pbars.
Definition mapped_region : MemRegion Z (RegionCallback unit nat) :=
  mkRegion (region_ranges region) (region_entries region) [CbOther 7%nat; CbBar (mkBarCallback 2 tt)].
Definition w0 : world := (data eh, []).
Definition m : Memory world Z (RegionCallback unit nat) Empty_set Empty_set :=
  fst (add_region 0x1e0000000 mapped_region (Memory_new w0)).

Lemma mapped_region_ok : region_typed mapped_region.
Proof. split; [|done]. repeat constructor; done. Qed.

Lemma m_reachable : mem_reachable w0 m.
Proof.
  apply (reach_op w0 (Memory_new w0) (OpAddRegion 0x1e0000000 mapped_region)).
  - apply reach_new.
  - split; [by_eval|apply mapped_region_ok].
  - reflexivity.
Qed.
End DemoBar.
Import (hints) DemoBar.

(** The upper half of the pair is written; the region has a callback of its own. *)
Lemma bar_write_moves_region_witness :
  ∃ callback m', write_header (hdr_of tt DemoBar.m) 0x1c 4 2 DemoBar.pbars
      = (hdr_of tt DemoBar.m, Ok (Some callback)) ∧
    PciCallback_change callback DemoBar.m = (m', Ok tt) ∧
    (∀ t, t ∈ mem_regions m' ↔ t = mkSlot 0x2e0000000 DemoBar.mapped_region ∨
       (t ∈ mem_regions DemoBar.m ∧ slot_addr t ≠ 0x1e0000000)) ∧
    bars (header (hdr_of tt m')) = [0; 0; 0xe000000c; 2; 0; 0].
Proof.
  refine (bar_write_moves_region DemoBar.w0 DemoBar.m tt DemoBar.pbars 2 3 2
    DemoBar.mapped_region DemoBar.region [7%nat] 0xe000000c 0xffffc000 1 0xffffffff
    DemoBar.m_reachable _ _ _ _ _ _ _ _ _ _ _ _ _ _ _ _ _ _);
    [apply (bool_decide_unpack _); vm_compute; exact I|reflexivity|right; by_eval|reflexivity|reflexivity
    |reflexivity|reflexivity|reflexivity|reflexivity|intros _; lia|reflexivity|by_eval|left|reflexivity
    |apply DemoBar.mapped_region_ok|reflexivity|by_eval|].
  intros t Ht Hne. apply elem_of_cons in Ht as [->|Ht]; [done|by apply elem_of_nil in Ht].
Defined.
