(* ===== verification/PciCap.v ===== *)
(** * PCI capabilities: pci/cap.rs

    The MSI and MSI-X capabilities, the MSI-X table, the padding capability and
    the list that chains capabilities by their [next] pointers.  A capability is
    owned by the list ([Box<dyn PciCap>]), so its state is a value here; an
    interrupt line ([trait IrqFd]) is an interface with its own state [F]. *)

From S2P Require Import Prelude Utils MemTypes Addressable Emulated Mapped Memory PciConfig.

Open Scope stm_scope.

(** hv/hv.rs, [trait IrqFd] *)
Class IrqFd (F : Type) := {
  irqfd_set_addr_lo : Z → stm F hv_error unit;
  irqfd_get_addr_lo : F → Z;
  irqfd_set_addr_hi : Z → stm F hv_error unit;
  irqfd_get_addr_hi : F → Z;
  irqfd_set_data : Z → stm F hv_error unit;
  irqfd_get_data : F → Z;
  irqfd_set_masked : bool → stm F hv_error bool;
  irqfd_get_masked : F → bool
}.

(** The traits [PciCap], [PciConfigArea] and [Mmio] of a boxed capability. *)
Class PciCap (P C : Type) := {
  cap_size : P → Z;
  cap_read : P → Z → Z → outcome mem_error Z;
  cap_write : P → Z → Z → Z → P * outcome mem_error (Action C);
  cap_set_next : P → Z → P;
  cap_reset : P → P * outcome pci_error unit
}.

Module PciCapId.
Definition MSI : Z := 0x05.
Definition VENDOR : Z := 0x09.
Definition MSIX : Z := 0x11.
End PciCapId.

(** [PciCapHdr] *)
Record PciCapHdr := mkCapHdr { cap_id : Z; cap_next : Z }.
Definition cap_hdr_bytes (h : PciCapHdr) : list Z := le_bytes 1 (cap_id h) ++ le_bytes 1 (cap_next h).

(** ** MSI *)

(** [MsiMsgCtrl], a [bitfield!] over [u16] *)
Module MsiMsgCtrl.
Definition enable (c : Z) : bool := bit_get c 0.
Definition set_enable (c : Z) (b : bool) : Z := bit_set c 0 b.
Definition multi_msg_cap (c : Z) : Z := bits_get c 3 1.
Definition multi_msg (c : Z) : Z := bits_get c 6 4.
Definition set_multi_msg (c v : Z) : Z := bits_set c 6 4 v.
Definition addr_64_cap (c : Z) : bool := bit_get c 7.
Definition per_vector_masking_cap (c : Z) : bool := bit_get c 8.
Definition ext_msg_data_cap (c : Z) : bool := bit_get c 9.
Definition ext_msg_data (c : Z) : bool := bit_get c 10.
Definition set_ext_msg_data (c : Z) (b : bool) : Z := bit_set c 10 b.

Definition msi_cap_size (c : Z) : Z :=
  12 + (if addr_64_cap c then 4 else 0) + (if per_vector_masking_cap c then 8 else 0).
End MsiMsgCtrl.

Record MsiCapHdr := mkMsiHdr { msi_header : PciCapHdr; msi_control : Z }.
Definition msi_hdr_bytes (h : MsiCapHdr) : list Z :=
  cap_hdr_bytes (msi_header h) ++ le_bytes 2 (msi_control h).

Record MsiCapMmio (F : Type) := mkMsi {
  msi_hdr : MsiCapHdr;
  msi_body : list Z;     (* [u32; 4] *)
  msi_irqfds : list F
}.
Arguments mkMsi {F} _ _ _.
Arguments msi_hdr {F} _.
Arguments msi_body {F} _.
Arguments msi_irqfds {F} _.

Section Msi.
Context {F C : Type} `{IrqFd F}.

Definition MsiCapMmio_new (ctrl : Z) (irqfds : list F) : MsiCapMmio F :=
  mkMsi (mkMsiHdr (mkCapHdr PciCapId.MSI 0) ctrl) [0; 0; 0; 0] irqfds.

Definition body_at (c : MsiCapMmio F) (i : nat) : Z := default 0 (msi_body c !! i).

(** The address and data message and the mask register, where the capability's
    flags put them. *)
Definition msi_addr (c : MsiCapMmio F) : Z :=
  if MsiMsgCtrl.addr_64_cap (msi_control (msi_hdr c))
  then Z.lor (Z.shiftl (body_at c 1) 32) (body_at c 0) else body_at c 0.
Definition msi_msg (c : MsiCapMmio F) : Z :=
  let ctrl := msi_control (msi_hdr c) in
  let msg_mask := if MsiMsgCtrl.ext_msg_data ctrl then 0xffffffff else 0xffff in
  if MsiMsgCtrl.addr_64_cap ctrl then Z.land (body_at c 2) msg_mask
  else Z.land (body_at c 1) msg_mask.
Definition msi_mask (c : MsiCapMmio F) : Z :=
  let ctrl := msi_control (msi_hdr c) in
  if MsiMsgCtrl.per_vector_masking_cap ctrl
  then (if MsiMsgCtrl.addr_64_cap ctrl then body_at c 3 else body_at c 2) else 0.

(** [!ctrl.enable() || index >= count || mask & (1 << index) > 0] *)
Definition msi_skip (c : MsiCapMmio F) (index : Z) : bool :=
  let ctrl := msi_control (msi_hdr c) in
  negb (MsiMsgCtrl.enable ctrl) || (Z.shiftl 1 (MsiMsgCtrl.multi_msg ctrl) <=? index) ||
  (0 <? Z.land (msi_mask c) (Z.shiftl 1 (index mod 32))).

(** The body of the loop in [update_msi]. *)
Definition update_irqfd (c : MsiCapMmio F) (index : Z) : stm F hv_error unit :=
  irqfd_set_masked true ;;;
  if msi_skip c index then sret tt
  else
    irqfd_set_addr_hi (u32 (Z.shiftr (msi_addr c) 32)) ;;;
    irqfd_set_addr_lo (u32 (msi_addr c)) ;;;
    irqfd_set_data (Z.lor (msi_msg c) (u32 index)) ;;;
    irqfd_set_masked false ;;;
    sret tt.

Fixpoint update_irqfds (c : MsiCapMmio F) (index : Z) (fs : list F) : list F * outcome hv_error unit :=
  match fs with
  | [] => ([], Ok tt)
  | f :: fs' =>
      match update_irqfd c index f with
      | (f', Ok _) => let r := update_irqfds c (index + 1) fs' in (f' :: fst r, snd r)
      | (f', Err e) => (f' :: fs', Err e)
      | (f', Panic) => (f' :: fs', Panic)
      end
  end.

Definition update_msi (c : MsiCapMmio F) : MsiCapMmio F * outcome hv_error unit :=
  let r := update_irqfds c 0 (msi_irqfds c) in (mkMsi (msi_hdr c) (msi_body c) (fst r), snd r).

Definition MsiCap_size (c : MsiCapMmio F) : Z := MsiMsgCtrl.msi_cap_size (msi_control (msi_hdr c)).

Definition MsiCap_read (c : MsiCapMmio F) (offset size : Z) : outcome mem_error Z :=
  if offset <? 4 then Ok (zerocopy_read (msi_hdr_bytes (msi_hdr c)) offset size)
  else Ok (zerocopy_read (msi_body c ≫= le_bytes 4) (offset - 4) size).

Definition set_msi_control (c : MsiCapMmio F) (ctrl : Z) : MsiCapMmio F :=
  mkMsi (mkMsiHdr (msi_header (msi_hdr c)) ctrl) (msi_body c) (msi_irqfds c).
Definition set_msi_reg (c : MsiCapMmio F) (i : nat) (v : Z) : MsiCapMmio F :=
  mkMsi (msi_hdr c) (<[i := v]> (msi_body c)) (msi_irqfds c).

(** The control arm: the new control register, and whether to update. *)
Definition write_msi_ctrl (ctrl new_ctrl : Z) : Z * bool :=
  let ctrl1 :=
    if negb (MsiMsgCtrl.enable ctrl) || negb (MsiMsgCtrl.enable new_ctrl)
    then MsiMsgCtrl.set_multi_msg ctrl
           (Z.min (MsiMsgCtrl.multi_msg_cap ctrl) (MsiMsgCtrl.multi_msg new_ctrl))
    else ctrl in
  let ext_msg_data := MsiMsgCtrl.ext_msg_data_cap ctrl1 && MsiMsgCtrl.ext_msg_data new_ctrl in
  let need_update := MsiMsgCtrl.enable new_ctrl &&
    negb (Bool.eqb (MsiMsgCtrl.ext_msg_data ctrl1) ext_msg_data) in
  let ctrl2 := MsiMsgCtrl.set_ext_msg_data ctrl1 ext_msg_data in
  let need_update2 := need_update ||
    negb (Bool.eqb (MsiMsgCtrl.enable ctrl2) (MsiMsgCtrl.enable new_ctrl)) in
  (MsiMsgCtrl.set_enable ctrl2 (MsiMsgCtrl.enable new_ctrl), need_update2).

(** Which register an (offset, size) names, as the [match] of [write] does. *)
Inductive msi_target := MsiCtrl | MsiWhole (reg : nat) | MsiData (reg : nat) | MsiInvalid.

Definition msi_decode (offset size : Z) (addr_64_cap masking_cap : bool) : msi_target :=
  let reg := Z.to_nat (Z.shiftr (offset - 4) 2) in
  if ((offset =? 0x2) && (size =? 2)) || ((offset =? 0x0) && (size =? 4)) then MsiCtrl
  else if ((offset =? 0x4) && (size =? 4))
       || ((offset =? 0x8) && (size =? 4) && addr_64_cap)
       || ((offset =? 0xc) && (size =? 4) && negb addr_64_cap && masking_cap)
       || ((offset =? 0x10) && (size =? 4) && addr_64_cap && masking_cap) then MsiWhole reg
  else if ((offset =? 0x8) && ((size =? 2) || (size =? 4)) && negb addr_64_cap)
       || ((offset =? 0xc) && ((size =? 2) || (size =? 4)) && addr_64_cap) then MsiData reg
  else MsiInvalid.

Definition MsiCap_write (c : MsiCapMmio F) (offset size val : Z)
  : MsiCapMmio F * outcome mem_error (Action C) :=
  let ctrl := msi_control (msi_hdr c) in
  let '(c1, need_update) :=
    match msi_decode offset size (MsiMsgCtrl.addr_64_cap ctrl) (MsiMsgCtrl.per_vector_masking_cap ctrl) with
    | MsiCtrl =>
        let new_ctrl := u16 (Z.shiftr val (Z.shiftl (2 - offset) 3)) in
        let r := write_msi_ctrl ctrl new_ctrl in (set_msi_control c (fst r), snd r)
    | MsiWhole reg =>
        (set_msi_reg c reg (u32 val), MsiMsgCtrl.enable ctrl && negb (body_at c reg =? u32 val))
    | MsiData reg =>
        let mask := if (size =? 4) && MsiMsgCtrl.ext_msg_data_cap ctrl then 0xffffffff else 0xffff in
        let new_val := mask_bits 32 (body_at c reg) (u32 val) mask in
        (set_msi_reg c reg new_val, MsiMsgCtrl.enable ctrl && negb (body_at c reg =? new_val))
    | MsiInvalid => (c, false)
    end in
  if need_update then
    let r := update_msi c1 in (fst r, map_err MmioErr ((λ _, ActNone) <$> snd r))
  else (c1, Ok ActNone).

Definition MsiCap_set_next (c : MsiCapMmio F) (val : Z) : MsiCapMmio F :=
  mkMsi (mkMsiHdr (mkCapHdr (cap_id (msi_header (msi_hdr c))) val) (msi_control (msi_hdr c)))
    (msi_body c) (msi_irqfds c).

Definition MsiCap_reset (c : MsiCapMmio F) : MsiCapMmio F * outcome pci_error unit :=
  let r := update_msi (set_msi_control c (MsiMsgCtrl.set_enable (msi_control (msi_hdr c)) false)) in
  (fst r, map_err (λ _, PciReset) (snd r)).

#[global] Instance msi_cap : PciCap (MsiCapMmio F) C := {|
  cap_size := MsiCap_size;
  cap_read := MsiCap_read;
  cap_write := MsiCap_write;
  cap_set_next := MsiCap_set_next;
  cap_reset := MsiCap_reset
|}.
End Msi.

(** ** MSI-X capability *)

Module MsixMsgCtrl.
Definition table_len (c : Z) : Z := bits_get c 10 0.
Definition masked (c : Z) : bool := bit_get c 14.
Definition set_masked (c : Z) (b : bool) : Z := bit_set c 14 b.
Definition enabled (c : Z) : bool := bit_get c 15.
Definition set_enabled (c : Z) (b : bool) : Z := bit_set c 15 b.
Definition new (len : Z) : Z := u16 (len - 1).
End MsixMsgCtrl.

Module MsixCapOffset.
Definition bar (o : Z) : Z := bits_get o 2 0.
Definition new (offset bar : Z) : Z := mask_bits 32 offset bar 7.
Definition offset (o : Z) : Z := Z.land o (bnot 32 7).
End MsixCapOffset.

Record MsixCap := mkMsixCap {
  msix_header : PciCapHdr;
  msix_control : Z;
  table_offset : Z;
  pba_offset : Z
}.
Definition msix_cap_bytes (c : MsixCap) : list Z :=
  cap_hdr_bytes (msix_header c) ++ le_bytes 2 (msix_control c) ++ le_bytes 4 (table_offset c) ++
  le_bytes 4 (pba_offset c).

Section MsixCapMmio.
Context {C : Type}.

Definition set_msix_control (c : MsixCap) (v : Z) : MsixCap :=
  mkMsixCap (msix_header c) v (table_offset c) (pba_offset c).

Definition MsixCap_size (c : MsixCap) : Z := 12.

Definition MsixCap_read (c : MsixCap) (offset size : Z) : outcome mem_error Z :=
  Ok (zerocopy_read (msix_cap_bytes c) offset size).

Definition MsixCap_write (c : MsixCap) (offset size val : Z)
  : MsixCap * outcome mem_error (Action C) :=
  (if (offset =? 2) && (size =? 2) then
     let control := u16 val in
     set_msix_control c
       (MsixMsgCtrl.set_masked (MsixMsgCtrl.set_enabled (msix_control c) (MsixMsgCtrl.enabled control))
          (MsixMsgCtrl.masked control))
   else c, Ok ActNone).

Definition MsixCap_set_next (c : MsixCap) (val : Z) : MsixCap :=
  mkMsixCap (mkCapHdr (cap_id (msix_header c)) val) (msix_control c) (table_offset c) (pba_offset c).

Definition MsixCap_reset (c : MsixCap) : MsixCap * outcome pci_error unit :=
  (set_msix_control c
     (MsixMsgCtrl.set_masked (MsixMsgCtrl.set_enabled (msix_control c) false) false), Ok tt).

#[global] Instance msix_cap : PciCap MsixCap C := {|
  cap_size := MsixCap_size;
  cap_read := MsixCap_read;
  cap_write := MsixCap_write;
  cap_set_next := MsixCap_set_next;
  cap_reset := MsixCap_reset
|}.
End MsixCapMmio.

(** ** Padding *)

Record NullCap := mkNullCap { null_next : Z; null_size : Z }.

Section NullCap.
Context {C : Type}.

Definition NullCap_read (c : NullCap) (offset size : Z) : outcome mem_error Z :=
  let shift := Z.min 63 (u64 (Z.shiftl offset 3)) in
  let val := Z.shiftr (Z.shiftl (null_next c) 8) shift in
  Ok (truncate_u64 val size).

#[global] Instance null_cap : PciCap NullCap C := {|
  cap_size := null_size;
  cap_read := NullCap_read;
  cap_write := λ c _ _ _, (c, Ok ActNone);
  cap_set_next := λ c val, mkNullCap val (null_size c);
  cap_reset := λ c, (c, Ok tt)
|}.
End NullCap.

(** ** The list of capabilities *)

Section CapList.
Context {P C : Type} `{PciCap P C}.

#[global] Instance cap_backend : SlotBackend P := cap_size.

(** [PciCapList::try_from]; [ptr] and the bus are threaded through the loop. *)
Fixpoint chain_caps (ptr : Z) (caps : list P) (bus : list (Slot P)) : list (Slot P) * outcome mem_error unit :=
  match caps with
  | [] => (bus, Ok tt)
  | cap :: caps' =>
      let next := match caps' with [] => 0 | _ => align_up 64 (u64 (ptr + cap_size cap)) 2 end in
      let cap' := cap_set_next cap (u8 next) in
      match Addressable_add bus ptr cap' with
      | (bus', Ok _) => chain_caps next caps' bus'
      | (bus', Err e) => (bus', Err e)
      | (bus', Panic) => (bus', Panic)
      end
  end.

Definition PciCapList_try_from (caps : list P) : outcome pci_error (list (Slot P)) :=
  match chain_caps size_of_DeviceHeader caps [] with
  | (bus, Ok _) => Ok bus
  | (_, Err e) => Err (PciMemory e)
  | (_, Panic) => Panic
  end.

(** [MmioBus] over owned capabilities: the slot found is read or rewritten. *)
Definition CapList_read (l : list (Slot P)) (offset size : Z) : outcome mem_error Z :=
  match Addressable_search l offset with
  | Some (start, cap) => cap_read cap (offset - start) size
  | None => Ok U64_MAX
  end.

Definition CapList_write (l : list (Slot P)) (offset size val : Z)
  : list (Slot P) * outcome mem_error (Action C) :=
  match Addressable_search l offset with
  | Some (start, cap) =>
      let r := cap_write cap (offset - start) size val in
      ((λ s, if slot_addr s =? start then mkSlot start (fst r) else s) <$> l, snd r)
  | None => (l, Ok ActNone)
  end.

Fixpoint CapList_reset (l : list (Slot P)) : list (Slot P) * outcome pci_error unit :=
  match l with
  | [] => ([], Ok tt)
  | s :: l' =>
      match cap_reset (slot_backend s) with
      | (cap, Ok _) => let r := CapList_reset l' in (mkSlot (slot_addr s) cap :: fst r, snd r)
      | (cap, Err e) => (mkSlot (slot_addr s) cap :: l', Err e)
      | (cap, Panic) => (mkSlot (slot_addr s) cap :: l', Panic)
      end
  end.

(** *** [EmulatedConfig] of pci/config.rs: the header, then the capabilities *)

Context {W R CB : Type} `{Mmio W R C}.

Record EmulatedConfig := mkEmulatedConfig {
  config_header : EmulatedHeader R CB;
  config_caps : list (Slot P)
}.

Definition EmulatedConfig_new_device (bar_callback : nat → CB) (h : DeviceHeader)
  (pbars : list (PciBar R CB)) (caps : list (Slot P)) : EmulatedConfig :=
  let h' :=
    if MmioBus_is_empty caps then h
    else set_capability_pointer
           (set_status_field h (Z.lor (status (common h)) Status.CAP)) (u8 size_of_DeviceHeader) in
  mkEmulatedConfig (EmulatedHeader_new bar_callback h' pbars) caps.

Definition EmulatedConfig_read (c : EmulatedConfig) (offset size : Z) : outcome mem_error Z :=
  if offset <? size_of_DeviceHeader then Ok (EmulatedHeader_read (config_header c) offset size)
  else CapList_read (config_caps c) offset size.

(** The callbacks of a header write and of a capability are different objects. *)
Definition EmulatedConfig_write (c : EmulatedConfig) (offset size val : Z)
  : EmulatedConfig * outcome mem_error (Action (PciCallback R CB) + Action C) :=
  if offset <? size_of_DeviceHeader then
    let r := EmulatedHeader_write (config_header c) offset size val in
    (mkEmulatedConfig (fst r) (config_caps c), inl <$> snd r)
  else
    let r := CapList_write (config_caps c) offset size val in
    (mkEmulatedConfig (config_header c) (fst r), inr <$> snd r).

Definition EmulatedConfig_reset (c : EmulatedConfig) : EmulatedConfig * outcome pci_error unit :=
  let r := CapList_reset (config_caps c) in
  (mkEmulatedConfig (EmulatedHeader_reset (config_header c)) (fst r), snd r).
End CapList.

(** ** The MSI-X table *)

Record MsixTableEntry := mkMsixEntry {
  ent_addr_lo : Z;
  ent_addr_hi : Z;
  ent_data : Z;
  ent_control : Z    (* MsixVectorCtrl *)
}.
Definition MsixTableEntry_default : MsixTableEntry := mkMsixEntry 0 0 0 1.

Definition vector_masked (c : Z) : bool := bit_get c 0.
Definition set_vector_masked (c : Z) (b : bool) : Z := bit_set c 0 b.

Inductive MsixTableMmioEntry (F : Type) :=
| MsixEntry (e : MsixTableEntry)
| MsixIrqFd (f : F).
Arguments MsixEntry {F} _.
Arguments MsixIrqFd {F} _.

Section MsixTable.
Context {F C : Type} `{IrqFd F}.

Definition msix_get_addr_lo (t : MsixTableMmioEntry F) : Z :=
  match t with MsixEntry e => ent_addr_lo e | MsixIrqFd f => irqfd_get_addr_lo f end.
Definition msix_get_addr_hi (t : MsixTableMmioEntry F) : Z :=
  match t with MsixEntry e => ent_addr_hi e | MsixIrqFd f => irqfd_get_addr_hi f end.
Definition msix_get_data (t : MsixTableMmioEntry F) : Z :=
  match t with MsixEntry e => ent_data e | MsixIrqFd f => irqfd_get_data f end.
Definition msix_get_masked (t : MsixTableMmioEntry F) : bool :=
  match t with MsixEntry e => vector_masked (ent_control e) | MsixIrqFd f => irqfd_get_masked f end.

(** A setter on the [IrqFd] side; its hypervisor error becomes [mem::Error]. *)
Definition on_irqfd {A} (f : F) (p : stm F hv_error A) : MsixTableMmioEntry F * outcome mem_error A :=
  let r := p f in (MsixIrqFd (fst r), map_err HvError (snd r)).

Definition msix_set_addr_lo (t : MsixTableMmioEntry F) (v : Z) :=
  match t with
  | MsixEntry e => (MsixEntry (mkMsixEntry v (ent_addr_hi e) (ent_data e) (ent_control e)), Ok tt)
  | MsixIrqFd f => on_irqfd f (irqfd_set_addr_lo v)
  end.
Definition msix_set_addr_hi (t : MsixTableMmioEntry F) (v : Z) :=
  match t with
  | MsixEntry e => (MsixEntry (mkMsixEntry (ent_addr_lo e) v (ent_data e) (ent_control e)), Ok tt)
  | MsixIrqFd f => on_irqfd f (irqfd_set_addr_hi v)
  end.
Definition msix_set_data (t : MsixTableMmioEntry F) (v : Z) :=
  match t with
  | MsixEntry e => (MsixEntry (mkMsixEntry (ent_addr_lo e) (ent_addr_hi e) v (ent_control e)), Ok tt)
  | MsixIrqFd f => on_irqfd f (irqfd_set_data v)
  end.
Definition msix_set_masked (t : MsixTableMmioEntry F) (b : bool) :=
  match t with
  | MsixEntry e =>
      (MsixEntry (mkMsixEntry (ent_addr_lo e) (ent_addr_hi e) (ent_data e)
                    (set_vector_masked (ent_control e) b)),
       Ok (negb (Bool.eqb (vector_masked (ent_control e)) b)))
  | MsixIrqFd f => on_irqfd f (irqfd_set_masked b)
  end.

(** [write_val]: the table and whether a mask bit flipped. *)
Definition msix_write_val (entries : list (MsixTableMmioEntry F)) (offset size val : Z)
  : list (MsixTableMmioEntry F) * outcome mem_error bool :=
  if negb (size =? 4) || negb (Z.land offset 3 =? 0) then (entries, Ok false)
  else
    let v := u32 val in
    let index := Z.to_nat (offset / 16) in
    match entries !! index with
    | None => (entries, Ok false)
    | Some entry =>
        let unit_res (r : MsixTableMmioEntry F * outcome mem_error unit) :=
          (<[index := fst r]> entries, (λ _, false) <$> snd r) in
        let field := offset mod 16 in
        if field =? 0 then unit_res (msix_set_addr_lo entry v)
        else if field =? 4 then unit_res (msix_set_addr_hi entry v)
        else if field =? 8 then unit_res (msix_set_data entry v)
        else
          let r := msix_set_masked entry (vector_masked v) in
          (<[index := fst r]> entries, snd r)
    end.

Definition msix_table_size (entries : list (MsixTableMmioEntry F)) : Z :=
  16 * Z.of_nat (length entries).

Definition msix_table_read (entries : list (MsixTableMmioEntry F)) (offset size : Z) : Z :=
  if negb (size =? 4) || negb (Z.land offset 3 =? 0) then 0
  else
    match entries !! Z.to_nat (offset / 16) with
    | None => 0
    | Some entry =>
        let field := offset mod 16 in
        if field =? 0 then msix_get_addr_lo entry
        else if field =? 4 then msix_get_addr_hi entry
        else if field =? 8 then msix_get_data entry
        else Z.b2z (msix_get_masked entry)
    end.

Definition msix_table_write (entries : list (MsixTableMmioEntry F)) (offset size val : Z)
  : list (MsixTableMmioEntry F) * outcome mem_error (Action C) :=
  let r := msix_write_val entries offset size val in (fst r, (λ _, ActNone) <$> snd r).

Definition msix_table_reset (entries : list (MsixTableMmioEntry F)) : list (MsixTableMmioEntry F) :=
  (λ _, MsixEntry MsixTableEntry_default) <$> entries.
End MsixTable.
