(* ===== verification/PciCapThm.v ===== *)
(** * Correctness of the PCI capabilities

    The capability list as a guest walks it, the MSI capability kept in step with
    its interrupt lines, and the MSI-X table as a register file. *)

From S2P Require Import Prelude Utils MemTypes Addressable Emulated Mapped Memory PciConfig PciConfigThm.
From S2P Require Import PciCap.

(** ** What the list relies on *)

(** A capability keeps its size when linked and shows its link at offset 1. *)
Class PciCapLaws (P C : Type) `{PciCap P C} : Prop := {
  cap_size_set_next : ∀ (p : P) v, cap_size (cap_set_next p v) = cap_size p;
  cap_read_next : ∀ (p : P) v, in_u 8 v → cap_read (cap_set_next p v) 1 1 = Ok v
}.

#[export] Instance msi_cap_laws {F C} `{IrqFd F} : PciCapLaws (MsiCapMmio F) C.
Proof.
  split; [done|]. intros [[[id nx] ctrl] body fs] v Hv. cbn -[wrap].
  by rewrite (wrap_small 8 v).
Qed.

#[export] Instance msix_cap_laws {C} : PciCapLaws MsixCap C.
Proof.
  split; [done|]. intros [[id nx] ctrl t p] v Hv. cbn [cap_read cap_set_next msix_cap].
  unfold MsixCap_read, zerocopy_read. cbn -[wrap].
  by rewrite (wrap_small 8 v).
Qed.

#[export] Instance null_cap_laws {C} : PciCapLaws NullCap C.
Proof.
  split; [done|]. intros [nx sz] v Hv. simpl. unfold NullCap_read. simpl. f_equal.
  rewrite truncate_u64_wrap by lia. change (u64 8) with 8. change (Z.min 63 8) with 8.
  rewrite Z.shiftr_shiftl_l by lia. change (8 - 8) with 0. rewrite Z.shiftl_0_r. by apply wrap_small.
Qed.

(** ** The chain *)

Section Chain.
Context {P C : Type} `{PciCap P C} `{!PciCapLaws P C}.

Definition next_ptr (ptr : Z) (cap : P) (rest : list P) : Z :=
  match rest with [] => 0 | _ => align_up 64 (u64 (ptr + cap_size cap)) 2 end.

(** The addresses the capabilities get, and the slots they become. *)
Fixpoint cap_ptrs (ptr : Z) (caps : list P) : list Z :=
  match caps with
  | [] => []
  | cap :: rest => ptr :: cap_ptrs (next_ptr ptr cap rest) rest
  end.
Fixpoint cap_slots (ptr : Z) (caps : list P) : list (Slot P) :=
  match caps with
  | [] => []
  | cap :: rest =>
      mkSlot ptr (cap_set_next cap (u8 (next_ptr ptr cap rest))) :: cap_slots (next_ptr ptr cap rest) rest
  end.

(** The capabilities are no shorter than their header and begin in the 256 bytes a pointer
    can name; the code does not check it ([cap_list_truncates]). *)
Definition caps_fit (caps : list P) : Prop :=
  Forall (λ c, 2 ≤ cap_size c < 2 ^ 16) caps ∧
  Forall (λ p, p ≤ 0xff) (cap_ptrs size_of_DeviceHeader caps).

(** Following the [next] pointers; [None] when [fuel] does not reach the end. *)
Fixpoint walk (fuel : nat) (read : Z → outcome mem_error Z) (ptr : Z) : option (list Z) :=
  if ptr =? 0 then Some []
  else
    match fuel with
    | O => None
    | S fuel' =>
        match read (ptr + 1) with
        | Ok next => cons ptr <$> walk fuel' read next
        | _ => None
        end
    end.

Lemma next_ptr_bound ptr cap c rest :
  0 ≤ ptr ≤ 0xff → 2 ≤ cap_size cap < 2 ^ 16 →
  ptr + cap_size cap ≤ next_ptr ptr cap (c :: rest) < ptr + cap_size cap + 4.
Proof.
  intros Hp Hc. unfold next_ptr. rewrite wrap_small by (unfold in_u; lia).
  destruct (align_up_bounds 64 (ptr + cap_size cap) 2) as [? _]; lia.
Qed.

Lemma chain_caps_ok ptr caps bus :
  Addressable_wf bus → (∀ s, s ∈ bus → slot_end s ≤ ptr) → 0 ≤ ptr →
  Forall (λ c, 2 ≤ cap_size c < 2 ^ 16) caps → Forall (λ p, p ≤ 0xff) (cap_ptrs ptr caps) →
  ∃ bus', chain_caps ptr caps bus = (bus', Ok tt) ∧ Addressable_wf bus' ∧
    ∀ s, s ∈ bus' ↔ s ∈ cap_slots ptr caps ∨ s ∈ bus.
Proof.
  revert ptr bus. induction caps as [|cap rest IH]; intros ptr bus Hwf Hend Hp Hc Hle.
  { exists bus. split; [done|]. split; [done|]. intros s. rewrite elem_of_nil. naive_solver. }
  apply Forall_cons in Hc as [Hcap Hc]. simpl in Hle. apply Forall_cons in Hle as [Hp' Hle].
  cbn [chain_caps]. change (match rest with [] => 0 | _ => _ end) with (next_ptr ptr cap rest).
  set (cap' := cap_set_next cap (u8 (next_ptr ptr cap rest))).
  assert (slot_size cap' = cap_size cap) as Hz by apply cap_size_set_next.
  destruct (bus_add_total bus ptr cap') as (bus1 & i & E);
    [done|unfold in_u; lia|unfold in_u; lia|lia|lia| |].
  { intros c Hin [Ho _]. simpl in Ho. specialize (Hend c Hin). lia. }
  pose proof (bus_add_ok bus bus1 ptr cap' i Hwf ltac:(unfold in_u; lia) ltac:(unfold in_u; lia) E)
    as (Hwf1 & _ & _ & Hin1).
  rewrite E. destruct rest as [|c rest].
  - exists bus1. split; [done|]. split; [done|]. intros s. rewrite Hin1. simpl.
    rewrite elem_of_cons, elem_of_nil. naive_solver.
  - pose proof (next_ptr_bound ptr cap c rest ltac:(lia) Hcap) as Hn.
    destruct (IH (next_ptr ptr cap (c :: rest)) bus1) as (bus2 & E2 & Hwf2 & Hin2); try done; [|lia|].
    { intros s [->|Hs]%Hin1; [unfold slot_end; cbn [slot_addr slot_backend]; lia|]. specialize (Hend s Hs). lia. }
    exists bus2. split; [done|]. split; [done|]. intros s. rewrite Hin2, Hin1.
    change (cap_slots ptr (cap :: c :: rest)) with
      (mkSlot ptr cap' :: cap_slots (next_ptr ptr cap (c :: rest)) (c :: rest)).
    rewrite elem_of_cons. tauto.
Qed.

(** Reading the [next] pointer of a capability that is in the list. *)
Lemma read_next l ptr p v :
  Addressable_wf l → mkSlot ptr (cap_set_next p v) ∈ l → 2 ≤ cap_size p → in_u 8 v →
  CapList_read l (ptr + 1) 1 = Ok v.
Proof.
  intros Hwf Hin Hz Hv. unfold CapList_read.
  rewrite (search_Some 0 l (ptr + 1) (mkSlot ptr (cap_set_next p v))); [|done..|].
  - simpl. replace (ptr + 1 - ptr) with 1 by lia. by apply cap_read_next.
  - unfold covers, slot_end. simpl. unfold slot_size, cap_backend.
    rewrite cap_size_set_next. lia.
Qed.

Lemma walk_caps l read ptr caps :
  (∀ a, size_of_DeviceHeader ≤ a → read a = CapList_read l a 1) →
  Addressable_wf l → (∀ s, s ∈ cap_slots ptr caps → s ∈ l) → size_of_DeviceHeader ≤ ptr →
  Forall (λ c, 2 ≤ cap_size c < 2 ^ 16) caps → Forall (λ p, p ≤ 0xff) (cap_ptrs ptr caps) →
  caps ≠ [] → walk (length caps) read ptr = Some (cap_ptrs ptr caps).
Proof.
  intros Hread. unfold size_of_DeviceHeader in *. revert ptr. induction caps as [|cap rest IH]; intros ptr Hwf Hsub Hp Hc Hle Hne; [done|].
  apply Forall_cons in Hc as [Hcap Hc]. simpl in Hle. apply Forall_cons in Hle as [Hp' Hle].
  cbn [walk length cap_ptrs]. rewrite (proj2 (Z.eqb_neq _ _)) by lia.
  rewrite Hread by lia. destruct rest as [|c rest].
  - rewrite (read_next l ptr cap 0); [done|done| |lia|by_eval].
    apply Hsub. left.
  - pose proof (next_ptr_bound ptr cap c rest ltac:(lia) Hcap) as Hn.
    assert (next_ptr ptr cap (c :: rest) ≤ 0xff) as Hn' by (by apply Forall_cons in Hle as [? _]).
    assert (in_u 8 (next_ptr ptr cap (c :: rest))) as Hu by (unfold in_u; lia).
    rewrite (read_next l ptr cap (next_ptr ptr cap (c :: rest))); [|done| |lia|done].
    + rewrite IH; [done|done| |lia|done|done|done]. intros s Hs. apply Hsub. by right.
    + apply Hsub. rewrite <- (wrap_small 8 (next_ptr ptr cap (c :: rest))) at 1 by done. left.
Qed.
End Chain.

(** ** Registers of the header by offset *)

Lemma header_read_cap_ptr h :
  length (bars h) = 6%nat → in_u 8 (capability_pointer h) →
  zerocopy_read (header_bytes h) 0x34 1 = capability_pointer h.
Proof.
  intros Hl Hc. destruct h as [c bs cis sv ss rom cp rs il ip mg ml]. simpl in Hl, Hc.
  do 7 (destruct bs as [|? bs]; [try done|]); simpl in Hl; [|lia].
  unfold zerocopy_read. cbn -[wrap]. by apply wrap_small.
Qed.

Lemma header_read_status h : zerocopy_read (header_bytes h) 6 2 = u16 (status (common h)).
Proof.
  change 2 with (Z.of_nat 2). rewrite zerocopy_read_in.
  - transitivity (le_val (le_bytes 2 (status (common h)))); [by destruct h as [[]]|].
    by rewrite le_val_bytes.
  - set_solver.
  - lia.
  - unfold header_bytes, common_bytes. rewrite !length_app. cbn -[Z.of_nat]. lia.
Qed.

(** Reading a register of a capability of the list. *)
Lemma read_cap {P C} `{PciCap P C} `{!PciCapLaws P C} l ptr (p : P) v off size :
  Addressable_wf l → mkSlot ptr (cap_set_next p v) ∈ l → 0 ≤ off < cap_size p →
  CapList_read l (ptr + off) size = cap_read (cap_set_next p v) off size.
Proof.
  intros Hwf Hin Hz. unfold CapList_read.
  rewrite (search_Some 0 l (ptr + off) (mkSlot ptr (cap_set_next p v))); [|done..|].
  - simpl. by replace (ptr + off - ptr) with off by lia.
  - unfold covers, slot_end. simpl. unfold slot_size, cap_backend. rewrite cap_size_set_next. lia.
Qed.

Lemma cap_ptrs_length {P C} `{PciCap P C} ptr (caps : list P) :
  length (cap_ptrs ptr caps) = length caps.
Proof. revert ptr. induction caps as [|c rest IH]; intros ptr; [done|]. simpl. by rewrite IH. Qed.

(** The slots lie at the pointers, in order. *)
Lemma cap_slots_lookup {P C} `{PciCap P C} ptr (caps : list P) (k : nat) cap :
  caps !! k = Some cap →
  ∃ p v, cap_ptrs ptr caps !! k = Some p ∧ mkSlot p (cap_set_next cap v) ∈ cap_slots ptr caps.
Proof.
  revert ptr k. induction caps as [|c rest IH]; intros ptr [|k] Hk; simplify_eq/=.
  - exists ptr, (u8 (next_ptr ptr cap rest)). split; [done|left].
  - destruct (IH (next_ptr ptr c rest) k Hk) as (p & v & Hp & Hs). exists p, v. split; [done|by right].
Qed.

Lemma cap_ptrs_ge {P C} `{PciCap P C} ptr (caps : list P) (k : nat) p :
  0 ≤ ptr → Forall (λ c, 2 ≤ cap_size c < 2 ^ 16) caps → Forall (λ p, p ≤ 0xff) (cap_ptrs ptr caps) →
  cap_ptrs ptr caps !! k = Some p → ptr ≤ p.
Proof.
  revert ptr k. induction caps as [|c rest IH]; intros ptr k Hp Hc Hle Hk; [done|].
  apply Forall_cons in Hc as [Hcap Hc]. simpl in Hle. apply Forall_cons in Hle as [Hp' Hle].
  destruct k as [|k]; simplify_eq/=; [lia|]. destruct rest as [|c' rest]; [done|].
  pose proof (next_ptr_bound ptr c c' rest ltac:(lia) Hcap) as Hn.
  revert Hn Hle Hk. generalize (next_ptr ptr c (c' :: rest)). intros q Hn Hle Hk.
  specialize (IH q k ltac:(lia) Hc Hle Hk). lia.
Qed.

Lemma cap_ptrs_NoDup {P C} `{PciCap P C} ptr (caps : list P) :
  0 ≤ ptr → Forall (λ c, 2 ≤ cap_size c < 2 ^ 16) caps → Forall (λ p, p ≤ 0xff) (cap_ptrs ptr caps) →
  NoDup (cap_ptrs ptr caps).
Proof.
  revert ptr. induction caps as [|c rest IH]; intros ptr Hp Hc Hle; [constructor|].
  apply Forall_cons in Hc as [Hcap Hc]. simpl in Hle. apply Forall_cons in Hle as [Hp' Hle].
  destruct rest as [|c' rest]; [apply NoDup_singleton|].
  pose proof (next_ptr_bound ptr c c' rest ltac:(lia) Hcap) as Hn.
  change (cap_ptrs ptr (c :: c' :: rest)) with
    (ptr :: cap_ptrs (next_ptr ptr c (c' :: rest)) (c' :: rest)).
  revert Hn Hle. generalize (next_ptr ptr c (c' :: rest)). intros q Hn Hle.
  constructor; [|apply IH; [lia|done..]]. intros (k & Hk)%list_elem_of_lookup.
  pose proof (cap_ptrs_ge q (c' :: rest) k ptr ltac:(lia) Hc Hle Hk). lia.
Qed.

(** C12: the capability list, for a device whose capabilities have at least two bytes and
    begin in the 256 bytes a pointer can name.  A guest that finds the capability bit in the
    status register, reads the capability pointer and follows the [next] links visits
    every capability the device was built with, once each, in order, and stops at the
    last; at the [k]-th address it visits it reads the registers of the [k]-th
    capability. *)
Theorem config_capability_walk {P C W R CB : Type} `{PciCap P C} `{!PciCapLaws P C} `{Mmio W R C}
  (bar_callback : nat → CB) (h : DeviceHeader) (pbars : list (PciBar R CB)) (caps : list P) :
  length (bars h) = 6%nat → caps ≠ [] → caps_fit caps →
  ∃ l ptrs, PciCapList_try_from caps = Ok l ∧
    let cfg := EmulatedConfig_new_device bar_callback h pbars l in
    (∃ st, EmulatedConfig_read cfg 6 2 = Ok st ∧ Z.testbit st 4 = true) ∧
    EmulatedConfig_read cfg 0x34 1 = Ok size_of_DeviceHeader ∧
    walk (length caps) (λ a, EmulatedConfig_read cfg a 1) size_of_DeviceHeader = Some ptrs ∧
    length ptrs = length caps ∧ NoDup ptrs ∧
    ∀ (k : nat) cap ptr, caps !! k = Some cap → ptrs !! k = Some ptr →
      ∃ next, ∀ off size, 0 ≤ off < cap_size cap →
        EmulatedConfig_read cfg (ptr + off) size = cap_read (cap_set_next cap next) off size.
Proof.
  intros Hl Hne [Hsz Hle].
  destruct (chain_caps_ok size_of_DeviceHeader caps []) as (l & E & Hwf & Hin); try done.
  { intros s Hs. by apply elem_of_nil in Hs. }
  exists l, (cap_ptrs size_of_DeviceHeader caps).
  unfold PciCapList_try_from. rewrite E. split; [done|]. cbn zeta.
  assert (MmioBus_is_empty l = false) as Hemp.
  { destruct l as [|s l]; [|done]. destruct caps as [|c caps]; [done|].
    exfalso. apply (elem_of_nil (mkSlot size_of_DeviceHeader
      (cap_set_next c (u8 (next_ptr size_of_DeviceHeader c caps))))). apply Hin. left. left. }
  unfold EmulatedConfig_new_device. rewrite Hemp. split_and!.
  - exists (u16 (Z.lor (status (common h)) Status.CAP)). unfold EmulatedConfig_read, EmulatedHeader_read.
    change (6 <? size_of_DeviceHeader) with true. cbv iota. rewrite header_read_status. split; [done|].
    rewrite wrap_testbit, Z.lor_spec, orb_true_r by lia. done.
  - unfold EmulatedConfig_read, EmulatedHeader_read.
    change (0x34 <? size_of_DeviceHeader) with true. cbv iota.
    rewrite header_read_cap_ptr; [done|done|by_eval].
  - apply (walk_caps l); try done.
    + intros a Ha. unfold EmulatedConfig_read.
      destruct (Z.ltb_spec a size_of_DeviceHeader); [lia|done].
    + intros s Hs. apply Hin. by left.
  - apply cap_ptrs_length.
  - by apply cap_ptrs_NoDup.
  - intros k cap ptr Hk Hp. destruct (cap_slots_lookup size_of_DeviceHeader caps k cap Hk) as (p & v & Hp' & Hs).
    simplify_eq. exists v. intros off size Ho. unfold EmulatedConfig_read.
    pose proof (cap_ptrs_ge size_of_DeviceHeader caps k ptr ltac:(by_eval) Hsz Hle Hp).
    destruct (Z.ltb_spec (ptr + off) size_of_DeviceHeader); [lia|]. cbn [config_caps].
    apply read_cap; [done|apply Hin; by left|done].
Qed.

(** A capability of 0xc0 bytes pushes the next one to 0x100, which the pointer cannot hold:
    the list is built, and the guest stops after the first. *)
Lemma cap_list_truncates (C : Type) :
  ∃ l, PciCapList_try_from (C := C) [mkNullCap 0 0xc0; mkNullCap 0 4] = Ok l ∧ length l = 2%nat ∧
    walk 2 (λ a, CapList_read (C := C) l a 1) size_of_DeviceHeader = Some [size_of_DeviceHeader].
Proof. eexists. split; [vm_compute; reflexivity|]. by vm_compute. Qed.

(** ** MSI *)

(** What a driver of an interrupt line sees: address, data and mask are separate
    registers, and the setters succeed. *)
Definition irq_view {F} `{IrqFd F} (f : F) : Z * Z * Z * bool :=
  (irqfd_get_addr_lo f, irqfd_get_addr_hi f, irqfd_get_data f, irqfd_get_masked f).

Class IrqFdLaws (F : Type) `{IrqFd F} : Prop := {
  irq_addr_lo : ∀ v f lo hi d mk, irq_view f = (lo, hi, d, mk) →
    ∃ f', irqfd_set_addr_lo v f = (f', Ok tt) ∧ irq_view f' = (v, hi, d, mk);
  irq_addr_hi : ∀ v f lo hi d mk, irq_view f = (lo, hi, d, mk) →
    ∃ f', irqfd_set_addr_hi v f = (f', Ok tt) ∧ irq_view f' = (lo, v, d, mk);
  irq_data : ∀ v f lo hi d mk, irq_view f = (lo, hi, d, mk) →
    ∃ f', irqfd_set_data v f = (f', Ok tt) ∧ irq_view f' = (lo, hi, v, mk);
  irq_masked : ∀ b f lo hi d mk, irq_view f = (lo, hi, d, mk) →
    ∃ f', irqfd_set_masked b f = (f', Ok (negb (Bool.eqb mk b))) ∧ irq_view f' = (lo, hi, d, b)
}.

Section MsiSync.
Context {F C : Type} `{IrqFd F} `{!IrqFdLaws F}.
Implicit Types (c : MsiCapMmio F).

(** The line of vector [n] agrees with the registers: masked when the vector is
    off, else unmasked with the message programmed. *)
Definition line_synced c (n : Z) (f : F) : Prop :=
  if msi_skip c n then irqfd_get_masked f = true
  else irq_view f = (u32 (msi_addr c), u32 (Z.shiftr (msi_addr c) 32),
                     Z.lor (msi_msg c) (u32 n), false).

Definition msi_synced c : Prop :=
  ∀ (n : nat) f, msi_irqfds c !! n = Some f → line_synced c (Z.of_nat n) f.

Lemma update_irqfd_ok c n f : ∃ f', update_irqfd c n f = (f', Ok tt) ∧ line_synced c n f'.
Proof.
  unfold update_irqfd, line_synced.
  destruct (irq_view f) as [[[lo hi] d] mk] eqn:E0.
  destruct (irq_masked true f _ _ _ _ E0) as (f1 & E1 & V1).
  destruct (msi_skip c n).
  - exists f1. split; [by eapply sbind_Ok_intro|]. unfold irq_view in V1. by simplify_eq.
  - destruct (irq_addr_hi (u32 (Z.shiftr (msi_addr c) 32)) f1 _ _ _ _ V1) as (f2 & E2 & V2).
    destruct (irq_addr_lo (u32 (msi_addr c)) f2 _ _ _ _ V2) as (f3 & E3 & V3).
    destruct (irq_data (Z.lor (msi_msg c) (u32 n)) f3 _ _ _ _ V3) as (f4 & E4 & V4).
    destruct (irq_masked false f4 _ _ _ _ V4) as (f5 & E5 & V5).
    exists f5. split; [|done]. do 5 (eapply sbind_Ok_intro; [eassumption|]). done.
Qed.

Lemma update_irqfds_ok c n fs :
  ∃ fs', update_irqfds c n fs = (fs', Ok tt) ∧ length fs' = length fs ∧
    ∀ (k : nat) f, fs' !! k = Some f → line_synced c (n + Z.of_nat k) f.
Proof.
  revert n. induction fs as [|f fs IH]; intros n; [by exists []|].
  destruct (update_irqfd_ok c n f) as (f' & E & Hs). destruct (IH (n + 1)) as (fs' & E' & Hl & Hs').
  exists (f' :: fs'). cbn [update_irqfds]. rewrite E, E'. split; [done|]. split; [simpl; lia|].
  intros [|k] g Hg; simpl in Hg.
  - injection Hg as <-. by rewrite Z.add_0_r.
  - specialize (Hs' k g Hg). by replace (n + Z.of_nat (S k)) with (n + 1 + Z.of_nat k) by lia.
Qed.

(** [line_synced] looks at the registers only. *)
Lemma line_synced_regs c c' n f :
  msi_hdr c = msi_hdr c' → msi_body c = msi_body c' → line_synced c n f → line_synced c' n f.
Proof.
  intros E1 E2. unfold line_synced, msi_skip, msi_addr, msi_msg, msi_mask, body_at. by rewrite E1, E2.
Qed.

Lemma update_msi_ok c : ∃ c', update_msi c = (c', Ok tt) ∧ msi_synced c' ∧
  msi_hdr c' = msi_hdr c ∧ msi_body c' = msi_body c ∧ length (msi_irqfds c') = length (msi_irqfds c).
Proof.
  unfold update_msi. destruct (update_irqfds_ok c 0 (msi_irqfds c)) as (fs & E & Hl & Hs).
  rewrite E. eexists. split; [reflexivity|]. split; [|done]. intros n f Hf.
  specialize (Hs n f Hf). rewrite Z.add_0_l in Hs. by eapply (line_synced_regs c).
Qed.

(** A disabled capability has every vector off. *)
Lemma skip_disabled c n : MsiMsgCtrl.enable (msi_control (msi_hdr c)) = false → msi_skip c n = true.
Proof. intros E. unfold msi_skip. by rewrite E. Qed.

Lemma synced_disabled c c' :
  msi_irqfds c' = msi_irqfds c → msi_synced c →
  MsiMsgCtrl.enable (msi_control (msi_hdr c)) = false →
  MsiMsgCtrl.enable (msi_control (msi_hdr c')) = false → msi_synced c'.
Proof.
  intros Ef Hs E1 E2 n f Hf. rewrite Ef in Hf. specialize (Hs n f Hf).
  unfold line_synced in *. rewrite skip_disabled in * by done. done.
Qed.

Lemma enable_after_multi ctrl v :
  MsiMsgCtrl.enable (MsiMsgCtrl.set_multi_msg ctrl v) = MsiMsgCtrl.enable ctrl.
Proof. apply bits_set_testbit_out; lia. Qed.
Lemma enable_after_ext ctrl b :
  MsiMsgCtrl.enable (MsiMsgCtrl.set_ext_msg_data ctrl b) = MsiMsgCtrl.enable ctrl.
Proof. by apply bit_get_set_ne. Qed.
Lemma enable_after_enable ctrl b :
  MsiMsgCtrl.enable (MsiMsgCtrl.set_enable ctrl b) = b.
Proof. by apply bit_get_set. Qed.

(** The control write: no update means nothing a line depends on changed. *)
Lemma write_msi_ctrl_quiet ctrl new_ctrl :
  snd (write_msi_ctrl ctrl new_ctrl) = false →
  (MsiMsgCtrl.enable ctrl = false ∧ MsiMsgCtrl.enable (fst (write_msi_ctrl ctrl new_ctrl)) = false) ∨
  fst (write_msi_ctrl ctrl new_ctrl) = ctrl.
Proof.
  unfold write_msi_ctrl. cbn zeta. cbn [fst snd]. rewrite enable_after_enable, enable_after_ext.
  destruct (MsiMsgCtrl.enable ctrl) eqn:E1, (MsiMsgCtrl.enable new_ctrl) eqn:E2; cbn [negb orb andb];
    rewrite ?enable_after_multi, E1; cbn [Bool.eqb negb orb]; rewrite ?orb_true_r; intros Hq; try discriminate.
  - right. rewrite orb_false_r in Hq. apply negb_false_iff, eqb_prop in Hq. rewrite <- Hq.
    unfold MsiMsgCtrl.set_ext_msg_data, MsiMsgCtrl.ext_msg_data. rewrite bit_set_same by lia.
    rewrite <- E1. unfold MsiMsgCtrl.set_enable, MsiMsgCtrl.enable. by rewrite bit_set_same.
  - by left.
Qed.

(** One write, whatever the offset, size and value. *)
Lemma msi_write_synced c offset size val :
  msi_synced c →
  ∃ c' a, MsiCap_write (C := C) c offset size val = (c', Ok a) ∧ msi_synced c' ∧
    length (msi_irqfds c') = length (msi_irqfds c).
Proof.
  intros Hs. unfold MsiCap_write.
  assert (∀ c1, length (msi_irqfds c1) = length (msi_irqfds c) →
    ∃ c' a, (let r := update_msi c1 in
       (fst r, map_err MmioErr ((λ _, ActNone (C := C)) <$> snd r))) = (c', Ok a) ∧ msi_synced c' ∧
       length (msi_irqfds c') = length (msi_irqfds c)) as Hup.
  { intros c1 Hl. destruct (update_msi_ok c1) as (c' & E & Hs' & _ & _ & Hl').
    rewrite E. exists c', ActNone. split; [done|]. split; [done|lia]. }
  assert (∀ reg v, MsiMsgCtrl.enable (msi_control (msi_hdr c)) && negb (body_at c reg =? v) = false →
    msi_synced (set_msi_reg c reg v)) as Hreg.
  { intros reg v [E|E]%andb_false_iff; [by eapply (synced_disabled c)|].
    apply negb_false_iff, Z.eqb_eq in E. subst v. intros n f Hf.
    eapply (line_synced_regs c); [done| |by apply Hs].
    simpl. unfold body_at. destruct (msi_body c !! reg) as [x|] eqn:Ex; simpl.
    - by rewrite list_insert_id.
    - symmetry. apply list_insert_ge. by apply lookup_ge_None. }
  destruct (msi_decode _ _ _ _) as [|reg|reg|]; cbn zeta.
  - destruct (snd (write_msi_ctrl _ _)) eqn:Eq; [by apply Hup|].
    eexists _, _. split; [reflexivity|]. split; [|done].
    apply write_msi_ctrl_quiet in Eq as [[E1 E2]|E]; [by eapply (synced_disabled c)|].
    rewrite E. intros n f Hf. eapply (line_synced_regs c); [by destruct c as [[]]|done|by apply Hs].
  - destruct (_ && _) eqn:Eq; [by apply Hup|]. eexists _, _. split; [reflexivity|]. auto.
  - destruct (_ && _) eqn:Eq; [by apply Hup|]. eexists _, _. split; [reflexivity|]. auto.
  - eexists _, _. split; [reflexivity|]. done.
Qed.
End MsiSync.

(** *** What the PCI specification says of the registers

    The 32-bit word at an offset of the capability; bit 7 of the control register says
    that the address has a second word, bit 8 that there is a mask register, bit 10 that the
    data is 32 bits wide; bits 6 to 4 are the logarithm of the enabled count. *)
Section MsiSpec.
Context {F : Type}.
Implicit Types (c : MsiCapMmio F).

Definition msi_word c (offset : Z) : Z := default 0 (msi_body c !! Z.to_nat ((offset - 4) / 4)).
Definition ctrl_bit c (i : Z) : bool := Z.testbit (msi_control (msi_hdr c)) i.

(** Whether a vector may not be signalled. *)
Definition vector_off c (n : Z) : bool :=
  negb (ctrl_bit c 0) || (2 ^ ((msi_control (msi_hdr c) / 16) mod 8) <=? n) ||
  (ctrl_bit c 8 && Z.testbit (msi_word c (if ctrl_bit c 7 then 0x10 else 0xc)) n).

(** The message of a vector: low and high address, data. *)
Definition vector_message c (n : Z) : Z * Z * Z :=
  (msi_word c 4, if ctrl_bit c 7 then msi_word c 8 else 0,
   let data := msi_word c (if ctrl_bit c 7 then 0xc else 8) in
   Z.lor (if ctrl_bit c 10 then data else data mod 2 ^ 16) n).

Definition body_typed c : Prop := length (msi_body c) = 4%nat ∧ Forall (in_u 32) (msi_body c).

Lemma body_at_in_u c i : body_typed c → in_u 32 (body_at c i).
Proof.
  intros [_ Hb]. unfold body_at. destruct (msi_body c !! i) as [x|] eqn:E; simpl; [|by_eval].
  exact (Forall_lookup_1 _ _ _ _ Hb E).
Qed.

Lemma set_reg_typed c reg v : body_typed c → in_u 32 v → body_typed (set_msi_reg c reg v).
Proof. intros [Hl Hb] Hv. split; [by rewrite <- Hl; apply length_insert|]. by apply Forall_insert. Qed.

Lemma land_bit_pos m n : 0 ≤ n → in_u 32 m → (0 <? Z.land m (Z.shiftl 1 n)) = Z.testbit m n.
Proof.
  intros Hn [Hm _]. rewrite Z.shiftl_1_l. destruct (Z.testbit m n) eqn:E.
  - apply Z.ltb_lt. assert (0 ≤ Z.land m (2 ^ n)) by (apply Z.land_nonneg; lia).
    assert (Z.land m (2 ^ n) ≠ 0) as Hne; [|lia]. intros E0.
    apply (f_equal (λ z, Z.testbit z n)) in E0. rewrite Z.land_spec, E, Z.pow2_bits_true, Z.bits_0 in E0 by lia. done.
  - apply Z.ltb_ge. replace (Z.land m (2 ^ n)) with 0; [lia|]. symmetry. apply Z.bits_inj'. intros i Hi.
    rewrite Z.land_spec, Z.bits_0. destruct (decide (i = n)) as [->|Hne]; [by rewrite E|].
    rewrite Z.pow2_bits_false by lia. apply andb_false_r.
Qed.

Lemma msi_skip_spec c n : body_typed c → 0 ≤ n < 32 → msi_skip c n = vector_off c n.
Proof.
  intros Hb Hn. unfold msi_skip, vector_off, ctrl_bit, msi_mask, MsiMsgCtrl.enable,
    MsiMsgCtrl.per_vector_masking_cap, MsiMsgCtrl.addr_64_cap, bit_get.
  f_equal; [f_equal; f_equal|].
  - rewrite Z.shiftl_1_l. f_equal. unfold MsiMsgCtrl.multi_msg, bits_get.
    change (Z.ones (6 - 4 + 1)) with (Z.ones 3). rewrite Z.land_ones, Z.shiftr_div_pow2 by lia. done.
  - rewrite (Z.mod_small n 32) by lia. destruct (Z.testbit _ 8); [|by rewrite Z.land_0_l].
    rewrite andb_true_l. destruct (Z.testbit _ 7); apply land_bit_pos; (lia || by apply body_at_in_u).
Qed.

Lemma msi_message_spec c n : body_typed c → 0 ≤ n < 32 →
  (u32 (msi_addr c), u32 (Z.shiftr (msi_addr c) 32), Z.lor (msi_msg c) (u32 n)) = vector_message c n.
Proof.
  intros Hb Hn. unfold vector_message, msi_addr, msi_msg, ctrl_bit, MsiMsgCtrl.addr_64_cap,
    MsiMsgCtrl.ext_msg_data, bit_get.
  pose proof (body_at_in_u c 0 Hb) as H0. pose proof (body_at_in_u c 1 Hb) as H1.
  assert (∀ i, Z.land (body_at c i) 0xffffffff = body_at c i) as Hall.
  { intros i. change 0xffffffff with (Z.ones 32). rewrite Z.land_ones by lia.
    apply Z.mod_small, (body_at_in_u c i Hb). }
  assert (∀ i, Z.land (body_at c i) 0xffff = body_at c i mod 2 ^ 16) as Hlow.
  { intros i. change 0xffff with (Z.ones 16). by apply Z.land_ones. }
  rewrite (wrap_small 32 n) by (unfold in_u; lia).
  destruct (Z.testbit _ 7).
  - f_equal; [f_equal|].
    + change (msi_word c 4) with (body_at c 0). bitwise.
    + change (msi_word c 8) with (body_at c 1). bitwise.
    + f_equal. destruct (Z.testbit _ 10); rewrite ?Hall, ?Hlow; done.
  - f_equal; [f_equal|].
    + by apply wrap_small.
    + rewrite Z.shiftr_div_pow2, Z.div_small by (lia || apply H0). done.
    + f_equal. destruct (Z.testbit _ 10); rewrite ?Hall, ?Hlow; done.
Qed.
End MsiSpec.

Lemma msi_write_typed {F C} `{IrqFd F} `{!IrqFdLaws F} (c : MsiCapMmio F) offset size val :
  body_typed c → body_typed (fst (MsiCap_write (C := C) c offset size val)).
Proof.
  intros Hb. unfold MsiCap_write.
  assert (∀ (c1 : MsiCapMmio F) b, body_typed c1 → body_typed (fst
    (if b : bool then let r := update_msi c1 in (fst r, map_err MmioErr ((λ _, ActNone (C := C)) <$> snd r))
     else (c1, Ok (ActNone (C := C)))))) as Hup.
  { intros c1 [] H1; [|done]. destruct (update_msi_ok c1) as (c' & E & _ & _ & Eb & _). rewrite E.
    unfold body_typed. simpl. by rewrite Eb. }
  destruct (msi_decode _ _ _ _) as [|reg|reg|]; cbn zeta; [apply Hup; exact Hb|apply Hup..|exact Hb].
  - apply set_reg_typed; [done|]. apply wrap_in_u. lia.
  - apply set_reg_typed; [done|]. apply mask_bits_in_u; [lia|by apply body_at_in_u|].
    by destruct (_ && _).
Qed.

(** C13: the MSI capability keeps its interrupt lines in step with its registers.  A device
    has at most 32 lines and the kernel's setters succeed and are registers of their own
    ([IrqFdLaws]).  Then no guest write fails, and after any sequence of writes a line is
    masked exactly when MSI is disabled, the vector is not below the enabled count, or
    there is a mask register with the vector's bit set ([vector_off]); every other line is
    unmasked and carries the programmed address and the message data with the vector number
    merged in ([vector_message]). *)
Theorem msi_lines_follow_registers {F C : Type} `{IrqFd F} `{!IrqFdLaws F} (ctrl : Z)
  (irqfds : list F) (writes : list (Z * Z * Z)) :
  MsiMsgCtrl.enable ctrl = false → Forall (λ f, irqfd_get_masked f = true) irqfds →
  (length irqfds ≤ 32)%nat →
  let step c w := fst (MsiCap_write (C := C) c (fst (fst w)) (snd (fst w)) (snd w)) in
  let c := foldl step (MsiCapMmio_new ctrl irqfds) writes in
  length (msi_irqfds c) = length irqfds ∧
  (∀ offset size val, is_ok (snd (MsiCap_write (C := C) c offset size val))) ∧
  ∀ (n : nat) f, msi_irqfds c !! n = Some f →
    irqfd_get_masked f = vector_off c (Z.of_nat n) ∧
    (vector_off c (Z.of_nat n) = false →
     (irqfd_get_addr_lo f, irqfd_get_addr_hi f, irqfd_get_data f) = vector_message c (Z.of_nat n)).
Proof.
  intros He Hm H32. cbn zeta.
  assert (msi_synced (MsiCapMmio_new ctrl irqfds)) as H0.
  { intros n f Hf. unfold line_synced. rewrite skip_disabled by done.
    exact (Forall_lookup_1 _ _ _ _ Hm Hf). }
  assert (body_typed (MsiCapMmio_new ctrl irqfds)) as Hb by (split; [done|by repeat constructor]).
  assert (length (msi_irqfds (MsiCapMmio_new ctrl irqfds)) = length irqfds) as Hl by done.
  revert H0 Hb Hl. generalize (MsiCapMmio_new ctrl irqfds).
  induction writes as [|[[o s] v] ws IH]; intros c Hs Hb Hl.
  - cbn [foldl]. split; [done|]. split.
    + intros offset size val.
      destruct (msi_write_synced (C := C) c offset size val Hs) as (c' & a & E & _). by rewrite E.
    + intros n f Hf. pose proof (lookup_lt_Some _ _ _ Hf). specialize (Hs n f Hf).
      unfold line_synced in Hs. rewrite msi_skip_spec in Hs by (done || lia).
      destruct (vector_off c (Z.of_nat n)); [done|].
      unfold irq_view in Hs. injection Hs as E1 E2 E3 E4. split; [done|]. intros _.
      rewrite <- msi_message_spec by (done || lia). by rewrite E1, E2, E3.
  - simpl. destruct (msi_write_synced (C := C) c o s v Hs) as (c' & a & E & Hs' & Hl').
    pose proof (msi_write_typed (C := C) c o s v Hb) as Hb'. rewrite E in *. simpl in *.
    apply IH; [done|done|lia].
Qed.

(** ** The MSI-X table *)

(** What the field at an offset reads after [val] was written to it. *)
Definition msix_field (offset val : Z) : Z :=
  if offset mod 16 =? 12 then Z.land val 1 else u32 val.

Section MsixTable.
Context {F : Type} `{IrqFd F} `{!IrqFdLaws F}.
Implicit Types (entries : list (MsixTableMmioEntry F)).

(** The entry as four registers. *)
Definition entry_view (t : MsixTableMmioEntry F) : Z * Z * Z * bool :=
  (msix_get_addr_lo t, msix_get_addr_hi t, msix_get_data t, msix_get_masked t).

Lemma set_addr_lo_view t v lo hi d mk : entry_view t = (lo, hi, d, mk) →
  snd (msix_set_addr_lo t v) = Ok tt ∧ entry_view (fst (msix_set_addr_lo t v)) = (v, hi, d, mk).
Proof.
  destruct t as [e|f]; intros Ev; [unfold entry_view in *; simpl in *; by simplify_eq|].
  destruct (irq_addr_lo v f _ _ _ _ Ev) as (f' & E & V). simpl. unfold on_irqfd. by rewrite E.
Qed.
Lemma set_addr_hi_view t v lo hi d mk : entry_view t = (lo, hi, d, mk) →
  snd (msix_set_addr_hi t v) = Ok tt ∧ entry_view (fst (msix_set_addr_hi t v)) = (lo, v, d, mk).
Proof.
  destruct t as [e|f]; intros Ev; [unfold entry_view in *; simpl in *; by simplify_eq|].
  destruct (irq_addr_hi v f _ _ _ _ Ev) as (f' & E & V). simpl. unfold on_irqfd. by rewrite E.
Qed.
Lemma set_data_view t v lo hi d mk : entry_view t = (lo, hi, d, mk) →
  snd (msix_set_data t v) = Ok tt ∧ entry_view (fst (msix_set_data t v)) = (lo, hi, v, mk).
Proof.
  destruct t as [e|f]; intros Ev; [unfold entry_view in *; simpl in *; by simplify_eq|].
  destruct (irq_data v f _ _ _ _ Ev) as (f' & E & V). simpl. unfold on_irqfd. by rewrite E.
Qed.
Lemma set_masked_view t b lo hi d mk : entry_view t = (lo, hi, d, mk) →
  snd (msix_set_masked t b) = Ok (negb (Bool.eqb mk b)) ∧
  entry_view (fst (msix_set_masked t b)) = (lo, hi, d, b).
Proof.
  destruct t as [e|f]; intros Ev.
  - unfold entry_view in *. simpl in *. simplify_eq. split; [done|].
    unfold vector_masked, set_vector_masked. by rewrite bit_get_set.
  - destruct (irq_masked b f _ _ _ _ Ev) as (f' & E & V). simpl. unfold on_irqfd. by rewrite E.
Qed.

(** Reading a field from the four registers. *)
Definition view_read (v : Z * Z * Z * bool) (field : Z) : Z :=
  let '(lo, hi, d, mk) := v in
  if field =? 0 then lo else if field =? 4 then hi else if field =? 8 then d else Z.b2z mk.

Lemma table_read_view entries offset e :
  Z.land offset 3 = 0 → entries !! Z.to_nat (offset / 16) = Some e →
  msix_table_read entries offset 4 = view_read (entry_view e) (offset mod 16).
Proof. intros Ha He. unfold msix_table_read. rewrite Ha, He. done. Qed.

(** The four fields of an aligned offset. *)
Lemma aligned_field offset : 0 ≤ offset → Z.land offset 3 = 0 →
  offset mod 16 = 0 ∨ offset mod 16 = 4 ∨ offset mod 16 = 8 ∨ offset mod 16 = 12.
Proof.
  intros Ho Ha. change 3 with (Z.ones 2) in Ha. rewrite Z.land_ones in Ha by lia.
  change (2 ^ 2) with 4 in Ha. pose proof (Z.mod_pos_bound offset 16 ltac:(lia)).
  pose proof (Z.div_mod offset 16). pose proof (Z.div_mod offset 4).
  assert ((offset mod 16) mod 4 = 0) as E.
  { rewrite <- (Z.mod_mod_divide offset 16 4) in Ha; [done|by exists 4]. }
  pose proof (Z.div_mod (offset mod 16) 4). lia.
Qed.

(** The write as a whole: one entry changes in one field. *)
Lemma write_val_view entries offset val e lo hi d mk :
  0 ≤ offset → Z.land offset 3 = 0 → entries !! Z.to_nat (offset / 16) = Some e →
  entry_view e = (lo, hi, d, mk) →
  ∃ e', msix_write_val entries offset 4 val =
      (<[Z.to_nat (offset / 16) := e']> entries,
       Ok ((offset mod 16 =? 12) && negb (Bool.eqb mk (Z.testbit val 0)))) ∧
    entry_view e' =
      (if offset mod 16 =? 0 then (u32 val, hi, d, mk)
       else if offset mod 16 =? 4 then (lo, u32 val, d, mk)
       else if offset mod 16 =? 8 then (lo, hi, u32 val, mk)
       else (lo, hi, d, Z.testbit val 0)).
Proof.
  intros Ho Ha He Ev. unfold msix_write_val. rewrite Ha, He. cbn [negb orb Z.eqb].
  destruct (aligned_field offset Ho Ha) as [E|[E|[E|E]]]; rewrite E; cbn [Z.eqb Pos.eqb andb].
  - destruct (set_addr_lo_view e (u32 val) _ _ _ _ Ev) as [E1 E2].
    rewrite E1. by exists (fst (msix_set_addr_lo e (u32 val))).
  - destruct (set_addr_hi_view e (u32 val) _ _ _ _ Ev) as [E1 E2].
    rewrite E1. by exists (fst (msix_set_addr_hi e (u32 val))).
  - destruct (set_data_view e (u32 val) _ _ _ _ Ev) as [E1 E2].
    rewrite E1. by exists (fst (msix_set_data e (u32 val))).
  - assert (vector_masked (u32 val) = Z.testbit val 0) as Ev0.
    { unfold vector_masked, bit_get. by rewrite wrap_testbit. }
    destruct (set_masked_view e (vector_masked (u32 val)) _ _ _ _ Ev) as [E1 E2].
    rewrite Ev0 in *. rewrite E1. by exists (fst (msix_set_masked e (Z.testbit val 0))).
Qed.
End MsixTable.

(** C14: the MSI-X table is a register file.  A 4-byte aligned write inside it
    succeeds; the same offset then reads the value (the vector control field its
    mask bit), every other offset reads what it did before; and the result says
    whether a mask bit flipped. *)
Theorem msix_table_write_read {F : Type} `{IrqFd F} `{!IrqFdLaws F}
  (entries : list (MsixTableMmioEntry F)) offset val :
  0 ≤ offset → Z.land offset 3 = 0 → offset < msix_table_size entries →
  ∃ entries', msix_write_val entries offset 4 val =
      (entries', Ok (negb (msix_table_read entries' offset 4 =? msix_table_read entries offset 4) &&
                     (offset mod 16 =? 12))) ∧
    msix_table_read entries' offset 4 = msix_field offset val ∧
    ∀ offset', 0 ≤ offset' → offset' ≠ offset →
      msix_table_read entries' offset' 4 = msix_table_read entries offset' 4.
Proof.
  intros Ho Ha Hlt. unfold msix_table_size in Hlt.
  destruct (lookup_lt_is_Some_2 entries (Z.to_nat (offset / 16))) as [e He].
  { assert (offset / 16 < Z.of_nat (length entries)) by (apply Z.div_lt_upper_bound; lia). lia. }
  destruct (entry_view e) as [[[lo hi] d] mk] eqn:Ev.
  destruct (write_val_view entries offset val e lo hi d mk Ho Ha He Ev) as (e' & E & Ev').
  exists (<[Z.to_nat (offset / 16) := e']> entries).
  assert (<[Z.to_nat (offset / 16) := e']> entries !! Z.to_nat (offset / 16) = Some e') as He'
    by (apply list_lookup_insert_eq; by eapply lookup_lt_Some).
  rewrite !(table_read_view _ offset _ Ha He'), (table_read_view _ offset _ Ha He), Ev, Ev', E.
  assert (Z.b2z (Z.testbit val 0) = Z.land val 1) as Hb.
  { change 1 with (Z.ones 1). rewrite Z.land_ones by lia. change (2 ^ 1) with 2.
    rewrite <- Z.bit0_mod. done. }
  split; [|split].
  - do 2 f_equal. destruct (aligned_field offset Ho Ha) as [E'|[E'|[E'|E']]]; rewrite E'; simpl;
      rewrite ?andb_false_r, ?andb_true_r; try done. by destruct mk, (Z.odd val).
  - unfold msix_field. destruct (aligned_field offset Ho Ha) as [E'|[E'|[E'|E']]]; rewrite E'; done.
  - intros offset' Ho' Hne. unfold msix_table_read. cbn [negb orb Z.eqb Pos.eqb].
    destruct (Z.eqb_spec (Z.land offset' 3) 0) as [Ha'|]; [|done]. cbn [negb].
    destruct (decide (offset' / 16 = offset / 16)) as [Eq|Eq].
    + rewrite Eq, He', He. change (view_read (entry_view e') (offset' mod 16) =
        view_read (entry_view e) (offset' mod 16)). rewrite Ev, Ev'.
      assert (offset' mod 16 ≠ offset mod 16).
      { intros Em. apply Hne. rewrite (Z.div_mod offset' 16), (Z.div_mod offset 16), Eq, Em; lia. }
      destruct (aligned_field offset Ho Ha) as [E1|[E1|[E1|E1]]];
        destruct (aligned_field offset' Ho' Ha') as [E2|[E2|[E2|E2]]]; rewrite E1, E2 in *; done.
    + rewrite list_lookup_insert_ne; [done|]. intros En. apply Eq.
      pose proof (Z.div_pos offset 16). pose proof (Z.div_pos offset' 16). lia.
Qed.

(** ** Witnesses *)

Module DemoIrq.
(** An interrupt line as its four registers. *)
Definition line : Type := Z * Z * Z * bool.
#[export] Instance line_irqfd : IrqFd line := {|
  irqfd_set_addr_lo := λ v '(lo, hi, d, mk), ((v, hi, d, mk), Ok tt);
  irqfd_get_addr_lo := λ '(lo, hi, d, mk), lo;
  irqfd_set_addr_hi := λ v '(lo, hi, d, mk), ((lo, v, d, mk), Ok tt);
  irqfd_get_addr_hi := λ '(lo, hi, d, mk), hi;
  irqfd_set_data := λ v '(lo, hi, d, mk), ((lo, hi, v, mk), Ok tt);
  irqfd_get_data := λ '(lo, hi, d, mk), d;
  irqfd_set_masked := λ b '(lo, hi, d, mk), ((lo, hi, d, b), Ok (negb (Bool.eqb mk b)));
  irqfd_get_masked := λ '(lo, hi, d, mk), mk
|}.
#[export] Instance line_laws : IrqFdLaws line.
Proof. split; intros ? [[[] ?] ?] ? ? ? ? [= -> -> -> ->]; eexists; done. Qed.

#[export] Instance no_mmio : Mmio unit unit Empty_set := {|
  mmio_size := λ _, 0;
  mmio_read := λ _ _ _ w, (w, Ok 0);
  mmio_write := λ _ _ _ _ w, (w, Ok ActNone)
|}.
Definition off : line := (0, 0, 0, true).
(** 64-bit addresses, a mask register, four vectors. *)
Definition ctrl : Z := 0x184.
Definition writes : list (Z * Z * Z) :=
  [(0x4, 4, 0xfee00000); (0x8, 4, 0); (0xc, 2, 0x40); (0x10, 4, 1); (0x2, 2, 0x11)].
End DemoIrq.
Import (hints) DemoIrq.

Lemma config_capability_walk_witness :
  ∃ l ptrs, PciCapList_try_from (C := Empty_set) [mkNullCap 0 6; mkNullCap 0 20; mkNullCap 0 4] = Ok l ∧
    let cfg := EmulatedConfig_new_device (C := Empty_set) (R := unit) (CB := unit) (λ _, tt)
                 (mkDevice (mkCommon 1 2 0 0 0 0 0 0 0 0 0 0) [0; 0; 0; 0; 0; 0] 0 0 0 0 0
                    [0; 0; 0; 0; 0; 0; 0] 0 0 0 0) [] l in
    EmulatedConfig_read (C := Empty_set) cfg 0x34 1 = Ok 0x40 ∧
    walk 3 (λ a, EmulatedConfig_read (C := Empty_set) cfg a 1) 0x40 = Some ptrs ∧
    ptrs = [0x40; 0x48; 0x5c].
Proof.
  destruct (config_capability_walk (C := Empty_set) (R := unit) (CB := unit) (λ _, tt)
    (mkDevice (mkCommon 1 2 0 0 0 0 0 0 0 0 0 0) [0; 0; 0; 0; 0; 0] 0 0 0 0 0
       [0; 0; 0; 0; 0; 0; 0] 0 0 0 0) [] [mkNullCap 0 6; mkNullCap 0 20; mkNullCap 0 4])
    as (l & ptrs & E & _ & H34 & Hw & _); [reflexivity|done|split; repeat constructor; by_eval|].
  exists l, ptrs. cbv zeta. split; [exact E|]. split; [exact H34|]. split; [exact Hw|].
  vm_compute in E. injection E as <-. vm_compute in Hw. by injection Hw as <-.
Defined.

(** Two of the four vectors are enabled, and vector 0 is masked in the register at 0x10. *)
Lemma msi_lines_follow_registers_witness :
  let c := foldl (λ c w, fst (MsiCap_write (C := Empty_set) c (fst (fst w)) (snd (fst w)) (snd w)))
             (MsiCapMmio_new DemoIrq.ctrl [DemoIrq.off; DemoIrq.off; DemoIrq.off; DemoIrq.off])
             DemoIrq.writes in
  msi_irqfds c !! 0%nat = Some (0, 0, 0, true) ∧ msi_irqfds c !! 1%nat = Some (0xfee00000, 0, 0x41, false) ∧
  vector_off c 0 = true ∧ vector_off c 1 = false ∧ vector_off c 2 = true ∧
  (0xfee00000, 0, 0x41) = vector_message c 1.
Proof.
  cbn zeta.
  destruct (msi_lines_follow_registers (C := Empty_set) DemoIrq.ctrl
    [DemoIrq.off; DemoIrq.off; DemoIrq.off; DemoIrq.off] DemoIrq.writes) as (_ & _ & Hf);
    [reflexivity|repeat constructor|simpl; lia|].
  split; [reflexivity|]. split; [reflexivity|]. split; [reflexivity|]. split; [reflexivity|].
  split; [reflexivity|]. exact (proj2 (Hf 1%nat (0xfee00000, 0, 0x41, false) eq_refl) eq_refl).
Defined.

Lemma msix_table_write_read_witness :
  ∃ entries', msix_write_val [MsixIrqFd DemoIrq.off; MsixEntry MsixTableEntry_default] 0x1c 4 0
      = (entries', Ok true) ∧
    msix_table_read entries' 0x1c 4 = 0 ∧
    ∀ offset', 0 ≤ offset' → offset' ≠ 0x1c →
      msix_table_read entries' offset' 4 =
      msix_table_read [MsixIrqFd DemoIrq.off; MsixEntry MsixTableEntry_default] offset' 4.
Proof.
  destruct (msix_table_write_read [MsixIrqFd DemoIrq.off; MsixEntry MsixTableEntry_default] 0x1c 0)
    as (es & E & R & O); [lia|reflexivity|by_eval|].
  exists es. split; [|split]; [|exact R|exact O].
  rewrite E. rewrite R. reflexivity.
Defined.
