(* ===== verification/PciSegment.v ===== *)
(** * The PCI segment and its port-I/O bus: pci/segment.rs, pci/bus.rs

    The devices of a segment by their bus/device/function number, with the
    placeholders [reserve] leaves; the assignment of addresses to all BARs; the
    two ways a guest reaches the configuration space, ECAM and the address/data
    ports.  [trait Pci] and [trait PciConfig] are one interface on the state [D]
    of a device. *)

From S2P Require Import Prelude Utils MemTypes Addressable Emulated PciConfig.

Open Scope stm_scope.

(** [trait Pci] with the [trait PciConfig] its [config()] returns. *)
Class Pci (D C : Type) := {
  dev_header : D → HeaderData;
  dev_set_header : D → HeaderData → D;
  dev_config_read : D → Z → Z → outcome mem_error Z;
  dev_config_write : D → Z → Z → Z → D * outcome mem_error (Action C);
  dev_reset : D → D * outcome pci_error unit;
  dev_config_reset : D → D * outcome pci_error unit
}.

(** What the map holds at a function number: the shared [EmptyDevice] or a device. *)
Inductive entry (D : Type) := Placeholder | Device (d : D).
Arguments Placeholder {D}.
Arguments Device {D} _.

Record PciSegment (D : Type) := mkSegment {
  seg_devices : gmap Z (entry D);
  seg_next_bdf : Z
}.
Arguments mkSegment {D} _ _.
Arguments seg_devices {D} _.
Arguments seg_next_bdf {D} _.

(** A BAR waiting for an address. *)
Record BarReq := mkBarReq { rq_bdf : Z; rq_index : nat; rq_size : Z }.

(** [u64::trailing_zeros] *)
Definition trailing_zeros (z : Z) : Z := if z =? 0 then 64 else Z.log2 (Z.land z (- z)).

Section Segment.
Context {D C : Type} `{Pci D C}.
Implicit Types (s : PciSegment D).

Definition PciSegment_new : PciSegment D := mkSegment ∅ (bdf_new 0 0 0).

Definition max_bus s : option Z :=
  match elements (dom (seg_devices s)) with
  | [] => None
  | k :: ks => Some (foldl (λ a b, Z.max a (bdf_bus b)) (bdf_bus k) ks)
  end.

(** [add]: [None] on success; the device handed in comes back when the function
    is taken by a device. *)
Definition segment_add s (b : Z) (dev : entry D) : PciSegment D * option (entry D) :=
  match seg_devices s !! b with
  | Some (Device d) => (s, Some dev)   (* inserted, then the old one is put back *)
  | Some Placeholder | None => (mkSegment (<[b := dev]> (seg_devices s)) (seg_next_bdf s), None)
  end.

(** The [loop] of [reserve(None)]. *)
Fixpoint reserve_loop (fuel : nat) (init : Z) s : PciSegment D * outcome mem_error (option Z) :=
  match fuel with
  | O => (s, Panic)
  | S fuel' =>
      let b := seg_next_bdf s in
      let s1 := mkSegment (seg_devices s) (u16 (b + 8)) in
      match segment_add s1 b Placeholder with
      | (s2, None) => (s2, Ok (Some b))
      | (s2, Some _) => if seg_next_bdf s2 =? init then (s2, Ok None) else reserve_loop fuel' init s2
      end
  end.

(** 2^16 / 8 function-0 numbers. *)
Definition reserve_fuel : nat := Z.to_nat 8192.

Definition reserve s (b : option Z) : PciSegment D * outcome mem_error (option Z) :=
  match b with
  | Some b =>
      match segment_add s b Placeholder with
      | (s', None) => (s', Ok (Some b))
      | (s', Some _) => (s', Ok None)
      end
  | None => reserve_loop reserve_fuel (seg_next_bdf s) s
  end.

(** ** [assign_resources] *)

Inductive bar_class := ClassIo | ClassMem32 | ClassPref32 | ClassPref64.

Definition classify (val : Z) : outcome mem_error bar_class :=
  let both := Z.lor BAR_MEM64 BAR_PREFETCHABLE in
  if Z.land val BAR_IO =? BAR_IO then Ok ClassIo
  else if Z.land val both =? both then Ok ClassPref64
  else if Z.land val both =? BAR_MEM64 then Panic    (* unreachable! *)
  else if Z.land val BAR_PREFETCHABLE =? BAR_PREFETCHABLE then Ok ClassPref32
  else Ok ClassMem32.

(** The [while index < 6] loop over the BARs of one device. *)
Fixpoint collect_bars (fuel : nat) (b : Z) (d : HeaderData) (index : nat)
  : outcome mem_error (list (bar_class * BarReq)) :=
  match fuel with
  | O => Ok []
  | S fuel' =>
      if (index <? 6)%nat then
        '(val, mask_lo) ← get_bar d index;
        '(mask, index') ←
          (if is_mem64 val then
             '(_, mask_hi) ← get_bar d (S index);
             Ok (Z.lor mask_lo (Z.shiftl mask_hi 32), S (S index))
           else Ok (mask_lo, S index));
        if mask =? 0 then collect_bars fuel' b d index'
        else
          c ← classify val;
          rest ← collect_bars fuel' b d index';
          Ok ((c, mkBarReq b index (Z.shiftl 1 (trailing_zeros mask))) :: rest)
      else Ok []
  end.

(** [for (bdf, dev) in devices.iter()]; [devs] is the order the map yields. *)
Fixpoint collect_all (devs : list (Z * entry D)) : outcome mem_error (list (bar_class * BarReq)) :=
  match devs with
  | [] => Ok []
  | (b, Placeholder) :: _ => Panic    (* EmptyDevice::config is unreachable! *)
  | (b, Device d) :: devs' =>
      xs ← collect_bars 6 b (dev_header d) 0;
      ys ← collect_all devs';
      Ok (xs ++ ys)
  end.

#[global] Instance bar_class_eq_dec : EqDecision bar_class.
Proof. solve_decision. Defined.

Definition bar_list (c : bar_class) (xs : list (bar_class * BarReq)) : list BarReq :=
  snd <$> filter (λ x, fst x = c) xs.

(** The sort key [(u64::MAX - size, bdf, index)], compared lexicographically. *)
Definition key_le (x y : BarReq) : Prop :=
  rq_size y < rq_size x ∨
  rq_size x = rq_size y ∧ (rq_bdf x < rq_bdf y ∨ rq_bdf x = rq_bdf y ∧ (rq_index x ≤ rq_index y)%nat).
#[global] Instance key_le_dec x y : Decision (key_le x y).
Proof. unfold key_le. apply _. Defined.

Definition sort_by_key (xs : list BarReq) : list BarReq := merge_sort key_le xs.

(** [header.set_bar(..)] on the device at a function number. *)
Definition set_device_bar (b : Z) (index : nat) (val : Z) : stm (PciSegment D) mem_error unit :=
  λ s,
    match seg_devices s !! b with
    | Some (Device d) =>
        let r := set_bar (E := mem_error) (dev_header d) index val in
        (mkSegment (<[b := Device (dev_set_header d (fst r))]> (seg_devices s)) (seg_next_bdf s),
         (λ _, tt) <$> snd r)
    | _ => (s, Panic)
    end.

(** The allocation loop over one list; [addr] is the cursor. *)
Fixpoint assign_list (end_ addr : Z) (reqs : list BarReq) : stm (PciSegment D) mem_error unit :=
  match reqs with
  | [] => sret tt
  | rq :: reqs' =>
      let aligned_addr := align_up 64 addr (trailing_zeros (rq_size rq)) in
      if end_ <? u64 (aligned_addr + rq_size rq) then assign_list end_ addr reqs'
      else
        set_device_bar (rq_bdf rq) (rq_index rq) (u32 aligned_addr) ;;;
        (if U32_MAX <? aligned_addr
         then set_device_bar (rq_bdf rq) (S (rq_index rq)) (u32 (Z.shiftr aligned_addr 32))
         else sret tt) ;;;
        assign_list end_ (u64 (aligned_addr + rq_size rq)) reqs'
  end.

Definition assign_resources (devs : list (Z * entry D)) (io mem32 pref32 pref64 : Z * Z)
  : stm (PciSegment D) mem_error unit :=
  xs <- slift (collect_all devs) ;;
  assign_list (snd io) (fst io) (sort_by_key (bar_list ClassIo xs)) ;;;
  assign_list (snd mem32) (fst mem32) (sort_by_key (bar_list ClassMem32 xs)) ;;;
  assign_list (snd pref32) (fst pref32) (sort_by_key (bar_list ClassPref32 xs)) ;;;
  assign_list (snd pref64) (fst pref64) (sort_by_key (bar_list ClassPref64 xs)).

(** [reset]: every device and its configuration space, in the map's order. *)
Definition reset_device (b : Z) : stm (PciSegment D) pci_error unit :=
  λ s,
    match seg_devices s !! b with
    | Some (Device d) =>
        match dev_reset d with
        | (d1, Ok _) =>
            let r := dev_config_reset d1 in
            (mkSegment (<[b := Device (fst r)]> (seg_devices s)) (seg_next_bdf s), snd r)
        | (d1, e) => (mkSegment (<[b := Device d1]> (seg_devices s)) (seg_next_bdf s), e)
        end
    | Some Placeholder => (s, Panic)
    | None => (s, Ok tt)
    end.

Definition segment_reset (order : list Z) : stm (PciSegment D) pci_error unit := sfor order reset_device.

(** ** ECAM *)

Definition segment_size : Z := 256 * 32 * 8 * 4096.

Definition segment_read s (offset size : Z) : outcome mem_error Z :=
  match seg_devices s !! u16 (Z.shiftr offset 12) with
  | Some (Device d) => dev_config_read d (Z.land offset 0xfff) size
  | Some Placeholder => Panic
  | None => Ok U64_MAX
  end.

Definition segment_write s (offset size val : Z) : PciSegment D * outcome mem_error (Action C) :=
  let b := u16 (Z.shiftr offset 12) in
  match seg_devices s !! b with
  | Some (Device d) =>
      let r := dev_config_write d (Z.land offset 0xfff) size val in
      (mkSegment (<[b := Device (fst r)]> (seg_devices s)) (seg_next_bdf s), snd r)
  | Some Placeholder => (s, Panic)
  | None => (s, Ok ActNone)
  end.
End Segment.

(** ** Port I/O: pci/bus.rs *)

Module Address.
Definition enabled (a : Z) : bool := bit_get a 31.
Definition bus (a : Z) : Z := bits_get a 23 16.
Definition dev (a : Z) : Z := bits_get a 15 11.
Definition func (a : Z) : Z := bits_get a 10 8.
Definition offset (a : Z) : Z := bits_get a 7 0.
Definition to_ecam_addr (a : Z) : Z := Z.lor (Z.shiftl (Z.land a 0xffff00) 4) (Z.land a 0xfc).
End Address.

Record PciIoBus (D : Type) := mkIoBus { io_address : Z; io_segment : PciSegment D }.
Arguments mkIoBus {D} _ _.
Arguments io_address {D} _.
Arguments io_segment {D} _.

Section IoBus.
Context {D C : Type} `{Pci D C}.

Definition io_bus_size : Z := 8.

Definition io_bus_read (b : PciIoBus D) (offset size : Z) : outcome mem_error Z :=
  if offset =? 0 then Ok (if size =? 4 then io_address b else 0)
  else if (4 <=? offset) && (offset <=? 7) then
    if Address.enabled (io_address b) then
      segment_read (io_segment b) (Z.lor (Address.to_ecam_addr (io_address b)) (Z.land offset 3)) size
    else Ok 0
  else Ok 0.

Definition io_bus_write (b : PciIoBus D) (offset size val : Z)
  : PciIoBus D * outcome mem_error (Action C) :=
  if offset =? 0 then
    (if size =? 4 then mkIoBus (u32 val) (io_segment b) else b, Ok ActNone)
  else if (4 <=? offset) && (offset <=? 7) then
    if Address.enabled (io_address b) then
      let r := segment_write (io_segment b)
                 (Z.lor (Address.to_ecam_addr (io_address b)) (Z.land offset 3)) size val in
      (mkIoBus (io_address b) (fst r), snd r)
    else (b, Ok ActNone)
  else (b, Ok ActNone).

(** [PciBus::new]; on x86_64 the host bridge is function 00:00.0. *)
Definition PciBus_new (host_bridge : option D) : PciIoBus D :=
  mkIoBus 0
    (match host_bridge with
     | Some d => fst (segment_add PciSegment_new (bdf_new 0 0 0) (Device d))
     | None => PciSegment_new
     end).
End IoBus.

(** ** pci/host_bridge.rs, pci/pvpanic.rs *)

Definition host_bridge_header : DeviceHeader :=
  mkDevice (mkCommon 0x1022 0x1480 0 0 0 0 0x00 0x06 0 0 0 0) [0; 0; 0; 0; 0; 0] 0 0 0 0 0
    [0; 0; 0; 0; 0; 0; 0] 0 0 0 0.

Definition pvpanic_header : DeviceHeader :=
  mkDevice (mkCommon 0x1b36 0x0011 0 0 1 0 0x80 0x08 0 0 0 0)
    [Z.lor BAR_MEM64 BAR_PREFETCHABLE; 0; 0; 0; 0; 0] 0 0 0 0 0 [0; 0; 0; 0; 0; 0; 0] 0 0 0 0.

Definition PVPANIC_BAR_SIZE : Z := 0x1000.
Definition pvpanic_read (offset size : Z) : Z := Z.lor (Z.shiftl 1 0) (Z.shiftl 1 1).
Definition pvpanic_write {C} (offset size val : Z) : Action C := ActShutdown.
