(* ===== verification/PciSegmentThm.v ===== *)
(** * Correctness of the PCI segment

    Function numbers are handed out once each and the search ends; BAR addresses
    are aligned, disjoint and inside their window, and do not depend on the order
    a hash map yields its devices; the port mechanism and ECAM reach the same
    registers. *)

From S2P Require Import Prelude Utils MemTypes Addressable Emulated PciConfig PciSegment.

Section Reserve.
Context {D C : Type} `{Pci D C}.
Implicit Types (s : PciSegment D).

Definition occupied s (b : Z) : Prop := ∃ d, seg_devices s !! b = Some (Device d).

(** The [k]-th function number the search looks at. *)
Definition candidate (init : Z) (k : nat) : Z := u16 (init + 8 * Z.of_nat k).

Lemma candidate_S init k : u16 (candidate init k + 8) = candidate init (S k).
Proof.
  unfold candidate, wrap. rewrite Zplus_mod_idemp_l. f_equal. lia.
Qed.

Lemma reserve_fuel_Z : Z.of_nat reserve_fuel = 8192.
Proof. unfold reserve_fuel. lia. Qed.

Lemma candidate_wraps init (k : nat) :
  in_u 16 init → (0 < k ≤ reserve_fuel)%nat → candidate init k = init ↔ k = reserve_fuel.
Proof.
  intros [Hi0 Hi1] Hk. pose proof reserve_fuel_Z. unfold candidate, wrap. split.
  - intros E. pose proof (Z.div_mod (init + 8 * Z.of_nat k) (2 ^ 16)) as Hd.
    change (2 ^ 16) with 65536 in *. rewrite E in Hd. lia.
  - intros ->. rewrite reserve_fuel_Z. replace (init + 8 * 8192) with (init + 1 * 2 ^ 16) by lia.
    rewrite Z.mod_add by lia. by apply Z.mod_small.
Qed.

Lemma segment_add_cases s b dev :
  (occupied s b ∧ segment_add s b dev = (s, Some dev)) ∨
  (¬ occupied s b ∧
   segment_add s b dev = (mkSegment (<[b := dev]> (seg_devices s)) (seg_next_bdf s), None)).
Proof.
  unfold segment_add, occupied. destruct (seg_devices s !! b) as [[|d]|] eqn:E.
  - right. split; [|done]. intros [d ?]. congruence.
  - left. split; [by exists d|done].
  - right. split; [|done]. intros [d ?]. congruence.
Qed.

Lemma reserve_loop_spec devs init (k : nat) fuel :
  in_u 16 init → (fuel + k = reserve_fuel)%nat → (0 < fuel)%nat →
  (∀ j, (j < k)%nat → occupied (mkSegment devs 0) (candidate init j)) →
  match reserve_loop fuel init (mkSegment devs (candidate init k)) with
  | (s', Ok (Some b)) =>
      ∃ n, (k ≤ n < reserve_fuel)%nat ∧ b = candidate init n ∧ ¬ occupied (mkSegment devs 0) b ∧
        (∀ j, (j < n)%nat → occupied (mkSegment devs 0) (candidate init j)) ∧
        s' = mkSegment (<[b := Placeholder]> devs) (candidate init (S n))
  | (s', Ok None) =>
      s' = mkSegment devs init ∧
      ∀ j, (j < reserve_fuel)%nat → occupied (mkSegment devs 0) (candidate init j)
  | _ => False
  end.
Proof.
  revert k. induction fuel as [|fuel IH]; intros k Hi Hf Hpos Hocc; [lia|].
  cbn [reserve_loop seg_next_bdf seg_devices]. rewrite candidate_S.
  set (s1 := mkSegment devs (candidate init (S k))).
  destruct (segment_add_cases s1 (candidate init k) Placeholder) as [[Ho E]|[Hn E]]; rewrite E.
  - assert (∀ j, (j < S k)%nat → occupied (mkSegment devs 0) (candidate init j)) as Hocc'.
    { intros j Hj. destruct (decide (j = k)) as [->|]; [done|apply Hocc; lia]. }
    cbn [seg_next_bdf s1]. destruct (Z.eqb_spec (candidate init (S k)) init) as [E1|E1].
    + apply candidate_wraps in E1; [|done|lia]. split.
      * subst s1. f_equal. rewrite E1. apply candidate_wraps; [done|lia|done].
      * intros j Hj. apply Hocc'. lia.
    + assert (S k ≠ reserve_fuel) by (intros E2; apply E1; apply candidate_wraps; [done|lia|done]).
      specialize (IH (S k) Hi ltac:(lia) ltac:(lia) Hocc').
      subst s1. destruct (reserve_loop _ _ _) as [s' [[b|]| |]]; try done.
      destruct IH as (n & Hn & ?). exists n. split; [lia|done].
  - exists k. split; [lia|]. split; [done|]. split; [done|]. split; [done|]. done.
Qed.
End Reserve.

(** C15: [reserve(None)] always ends.  It takes the first function number, from
    the one after the last handed out and cyclically in steps of 8, that holds no
    device, and marks it; it gives up, changing nothing, only when all 8192
    function-0 numbers hold devices.  No device is ever replaced. *)
Theorem reserve_any_spec {D C : Type} `{Pci D C} (s : PciSegment D) :
  in_u 16 (seg_next_bdf s) →
  match reserve s None with
  | (s', Ok (Some b)) =>
      ∃ n, (n < reserve_fuel)%nat ∧ b = candidate (seg_next_bdf s) n ∧ ¬ occupied s b ∧
        (∀ j, (j < n)%nat → occupied s (candidate (seg_next_bdf s) j)) ∧
        s' = mkSegment (<[b := Placeholder]> (seg_devices s)) (candidate (seg_next_bdf s) (S n))
  | (s', Ok None) =>
      s' = s ∧ ∀ j, (j < reserve_fuel)%nat → occupied s (candidate (seg_next_bdf s) j)
  | _ => False
  end.
Proof.
  intros Hi. destruct s as [devs init]. cbn [seg_next_bdf seg_devices] in *.
  pose proof (reserve_loop_spec devs init 0 reserve_fuel Hi ltac:(lia)) as Hl.
  assert (candidate init 0 = init) as E0.
  { unfold candidate. rewrite Z.add_0_r. by apply wrap_small. }
  rewrite E0 in Hl. specialize (Hl ltac:(pose proof reserve_fuel_Z; lia) ltac:(lia)).
  change (reserve (mkSegment devs init) None)
    with (reserve_loop reserve_fuel init (mkSegment devs init)).
  destruct (reserve_loop _ _ _) as [s' [[b|]| |]]; try done.
  destruct Hl as (n & Hn & ?). exists n. split; [lia|done].
Qed.

(** ** BAR addresses *)

(** The addresses the allocation loop picks. *)
Fixpoint place (end_ addr : Z) (reqs : list BarReq) : list (Z * BarReq) :=
  match reqs with
  | [] => []
  | rq :: reqs' =>
      let a := align_up 64 addr (trailing_zeros (rq_size rq)) in
      if end_ <? u64 (a + rq_size rq) then place end_ addr reqs'
      else (a, rq) :: place end_ (u64 (a + rq_size rq)) reqs'
  end.

Section Assign.
Context {D C : Type} `{Pci D C}.

Definition write_placement (p : Z * BarReq) : stm (PciSegment D) mem_error unit :=
  sbind (set_device_bar (rq_bdf (snd p)) (rq_index (snd p)) (u32 (fst p))) (λ _,
    if U32_MAX <? fst p
    then set_device_bar (rq_bdf (snd p)) (S (rq_index (snd p))) (u32 (Z.shiftr (fst p) 32))
    else sret tt).

Lemma sbind_assoc {S E A B A'} (p : stm S E A) (k : A → stm S E B) (k' : B → stm S E A') s :
  sbind (sbind p k) k' s = sbind p (λ a, sbind (k a) k') s.
Proof. unfold sbind. by destruct (p s) as [s' [| |]]. Qed.

Lemma sbind_ext {S E A B} (p : stm S E A) (k k' : A → stm S E B) s :
  (∀ a s', k a s' = k' a s') → sbind p k s = sbind p k' s.
Proof. intros Hk. unfold sbind. destruct (p s) as [s' [| |]]; auto. Qed.

(** The loop writes exactly the planned addresses. *)
Lemma assign_list_place end_ addr reqs s :
  assign_list end_ addr reqs s = sfor (place end_ addr reqs) write_placement s.
Proof.
  revert addr s. induction reqs as [|rq reqs IH]; intros addr s; [done|].
  cbn [assign_list place]. destruct (end_ <? _); [apply IH|].
  cbn [sfor]. unfold write_placement. cbn [fst snd]. rewrite sbind_assoc.
  apply sbind_ext. intros _ s1. apply sbind_ext. intros _ s2. apply IH.
Qed.
(** *** The registers that are written *)

(** BAR register [i] of the function [b], and its mask. *)
Definition bar_view (s : PciSegment D) (b : Z) : option HeaderData :=
  match seg_devices s !! b with Some (Device d) => Some (dev_header d) | _ => None end.
Definition bar_reg (s : PciSegment D) (r : Z * nat) : option Z :=
  d ← bar_view s (fst r); bars (header d) !! snd r.
Definition bar_reg_mask (s : PciSegment D) (r : Z * nat) : option Z :=
  d ← bar_view s (fst r); bar_masks d !! snd r.

(** The header behind a lock: what was stored is read. *)
Class PciHeaderLaws : Prop := dev_header_set : ∀ d h, dev_header (dev_set_header d h) = h.
Context `{!PciHeaderLaws}.

(** A store under a mask, bit by bit. *)
Definition masked_store (old mask v new : Z) : Prop :=
  ∀ k, 0 ≤ k < 32 → Z.testbit new k = if Z.testbit mask k then Z.testbit v k else Z.testbit old k.

Lemma mask_bits_store old mask v : masked_store old mask v (mask_bits 32 old (u32 v) mask).
Proof.
  intros k Hk. unfold mask_bits, bnot.
  rewrite Z.lor_spec, !Z.land_spec, Z.lxor_spec, Z.ones_spec_low, wrap_testbit, bool_decide_eq_true_2 by lia.
  by destruct (Z.testbit old k), (Z.testbit mask k), (Z.testbit v k).
Qed.

Lemma set_device_bar_ok s b i v old mask :
  bar_reg s (b, i) = Some old → bar_reg_mask s (b, i) = Some mask →
  ∃ s' new, set_device_bar b i (u32 v) s = (s', Ok tt) ∧ bar_reg s' (b, i) = Some new ∧
    masked_store old mask v new ∧
    (∀ r, r ≠ (b, i) → bar_reg s' r = bar_reg s r) ∧ (∀ r, bar_reg_mask s' r = bar_reg_mask s r).
Proof.
  unfold bar_reg, bar_reg_mask, bar_view. cbn [fst snd].
  destruct (seg_devices s !! b) as [[|d]|] eqn:Ed; try done. cbn. intros Eo Em.
  unfold set_device_bar. rewrite Ed. unfold set_bar. rewrite Em, Eo. cbn [fst snd].
  eexists _, _. split; [reflexivity|]. cbn [seg_devices]. rewrite lookup_insert_eq. cbn.
  rewrite dev_header_set. cbn. split_and!.
  - apply list_lookup_insert_eq. by eapply lookup_lt_Some.
  - apply mask_bits_store.
  - intros [b' i'] Hne. cbn. destruct (decide (b' = b)) as [->|Hb].
    + rewrite lookup_insert_eq, Ed. cbn. rewrite dev_header_set. cbn.
      apply list_lookup_insert_ne. congruence.
    + by rewrite lookup_insert_ne.
  - intros [b' i']. cbn. destruct (decide (b' = b)) as [->|Hb].
    + rewrite lookup_insert_eq, Ed. cbn. by rewrite dev_header_set.
    + by rewrite lookup_insert_ne.
Qed.

(** The stores of one placement, as (register, value). *)
Definition stores (p : Z * BarReq) : list (Z * nat * Z) :=
  (rq_bdf (snd p), rq_index (snd p), fst p) ::
  (if U32_MAX <? fst p then [(rq_bdf (snd p), S (rq_index (snd p)), Z.shiftr (fst p) 32)] else []).

Definition do_store (w : Z * nat * Z) : stm (PciSegment D) mem_error unit :=
  set_device_bar (fst (fst w)) (snd (fst w)) (u32 (snd w)).

Lemma sfor_app {S E A} (xs ys : list A) (body : A → stm S E unit) s :
  sfor (xs ++ ys) body s = sbind (sfor xs body) (λ _, sfor ys body) s.
Proof.
  revert s. induction xs as [|x xs IH]; intros s; [done|]. cbn [app sfor].
  rewrite sbind_assoc. by apply sbind_ext.
Qed.

Lemma write_placement_stores ps s :
  sfor ps write_placement s = sfor (ps ≫= stores) do_store s.
Proof.
  revert s. induction ps as [|p ps IH]; intros s; [done|].
  cbn [sfor]. change ((p :: ps) ≫= stores) with (stores p ++ (ps ≫= stores)). rewrite sfor_app.
  unfold write_placement, stores. rewrite sbind_assoc. cbn [sfor]. rewrite sbind_assoc.
  apply sbind_ext. intros _ s1. unfold do_store at 1. cbn [fst snd].
  destruct (U32_MAX <? fst p); cbn [sfor]; [rewrite sbind_assoc|]; apply sbind_ext; intros _ s2; apply IH.
Qed.

Lemma stores_ok ws : ∀ s,
  NoDup (fst <$> ws) → Forall (λ w, is_Some (bar_reg s (fst w)) ∧ is_Some (bar_reg_mask s (fst w))) ws →
  ∃ s', sfor ws do_store s = (s', Ok tt) ∧
    (∀ r v, (r, v) ∈ ws → ∃ old mask new, bar_reg s r = Some old ∧ bar_reg_mask s r = Some mask ∧
       bar_reg s' r = Some new ∧ masked_store old mask v new) ∧
    (∀ r, r ∉ fst <$> ws → bar_reg s' r = bar_reg s r).
Proof.
  induction ws as [|[[b i] v] ws IH]; intros s Hnd Hv; [by exists s; set_solver|].
  apply NoDup_cons in Hnd as [Hni Hnd]. apply Forall_cons in Hv as [[[old Ho] [mask Hm]] Hv].
  cbn [fst] in *. destruct (set_device_bar_ok s b i v old mask Ho Hm) as (s1 & new & E1 & R1 & M1 & F1 & K1).
  destruct (IH s1 Hnd) as (s2 & E2 & R2 & F2).
  { rewrite Forall_forall in Hv |- *. intros [r x] Hin. destruct (Hv _ Hin) as [Hr Hk]. cbn [fst] in *.
    rewrite K1, F1; [done|]. intros ->. apply Hni. apply list_elem_of_fmap. by exists (b, i, x). }
  exists s2. split_and!.
  - cbn [sfor]. eapply sbind_Ok_intro; [exact E1|exact E2].
  - intros r x [[= -> ->]|Hin]%elem_of_cons.
    + exists old, mask, new. rewrite (F2 (b, i)) by done. done.
    + destruct (R2 r x Hin) as (o & k & n & A1 & A2 & A3 & A4). rewrite K1 in A2. rewrite F1 in A1.
      * by exists o, k, n.
      * intros ->. apply Hni. apply list_elem_of_fmap. by exists (b, i, x).
  - intros r Hr. cbn [fmap list_fmap fst] in Hr. apply not_elem_of_cons in Hr as [Hne Hr].
    by rewrite F2, F1.
Qed.

(** The registers a request may write in a window that ends at [end_]. *)
Definition footprint (end_ : Z) (rq : BarReq) : list (Z * nat) :=
  (rq_bdf rq, rq_index rq) :: (if U32_MAX <? end_ then [(rq_bdf rq, S (rq_index rq))] else []).
End Assign.

Definition req_ok (rq : BarReq) : Prop := ∃ k, 0 ≤ k ≤ 61 ∧ rq_size rq = 2 ^ k.

Lemma trailing_zeros_pow2 k : 0 ≤ k → trailing_zeros (2 ^ k) = k.
Proof.
  intros Hk. unfold trailing_zeros. rewrite (proj2 (Z.eqb_neq _ _)) by (pose proof (Z.pow_pos_nonneg 2 k); lia).
  assert (Z.land (2 ^ k) (- 2 ^ k) = 2 ^ k) as ->; [|by apply Z.log2_pow2].
  apply Z.bits_inj'. intros i Hi. rewrite Z.land_spec, Z.pow2_bits_eqb by lia.
  destruct (Z.eqb_spec k i) as [->|]; [|done].
  replace (- 2 ^ i) with (Z.lnot (Z.ones i)) by (rewrite Z.ones_equiv; unfold Z.lnot; lia).
  rewrite Z.lnot_spec, Z.ones_spec_high by lia. done.
Qed.

(** One step of the loop on a window below 2^62. *)
Lemma place_step end_ addr rq :
  req_ok rq → 0 ≤ addr ≤ end_ → end_ ≤ 2 ^ 62 →
  let a := align_up 64 addr (trailing_zeros (rq_size rq)) in
  addr ≤ a ∧ (rq_size rq | a) ∧ 0 < rq_size rq ∧ u64 (a + rq_size rq) = a + rq_size rq.
Proof.
  intros (k & Hk & E) Ha He. cbn zeta. rewrite E, trailing_zeros_pow2 by lia.
  assert (2 ^ k ≤ 2 ^ 61) by (apply Z.pow_le_mono_r; lia).
  assert (0 < 2 ^ k) by (apply Z.pow_pos_nonneg; lia).
  destruct (align_up_bounds 64 addr k) as [[? ?] ?]; [lia..|].
  repeat split; [lia|done|lia|]. apply wrap_small. unfold in_u. lia.
Qed.

Lemma place_sound end_ addr reqs :
  Forall req_ok reqs → 0 ≤ addr ≤ end_ → end_ ≤ 2 ^ 62 →
  Forall (λ p, addr ≤ fst p ∧ fst p + rq_size (snd p) ≤ end_ ∧ (rq_size (snd p) | fst p))
    (place end_ addr reqs) ∧
  StronglySorted (λ p q, fst p + rq_size (snd p) ≤ fst q) (place end_ addr reqs) ∧
  (snd <$> place end_ addr reqs) `sublist_of` reqs.
Proof.
  intros Hr. revert addr. induction Hr as [|rq reqs Hq Hr IH]; intros addr Ha He; cbn [place].
  { split; [constructor|]. split; constructor. }
  destruct (place_step end_ addr rq Hq Ha He) as (H1 & H2 & H3 & H4). cbn zeta. rewrite H4.
  destruct (Z.ltb_spec end_ (align_up 64 addr (trailing_zeros (rq_size rq)) + rq_size rq)).
  - destruct (IH addr Ha He) as (? & ? & ?). split; [done|]. split; [done|by constructor].
  - set (a := align_up 64 addr _) in *.
    destruct (IH (a + rq_size rq) ltac:(lia) He) as (IH1 & IH2 & IH3). split; [|split].
    + constructor; [simpl; split; [lia|split; [lia|done]]|]. eapply Forall_impl; [exact IH1|]. simpl. intros p (? & ? & ?).
      split; [lia|done].
    + constructor; [done|]. eapply Forall_impl; [exact IH1|]. simpl. intros p (? & ? & ?). lia.
    + simpl. by constructor.
Qed.

(** The sort: keys are distinct records, so the order is total. *)
#[export] Instance key_le_total : Total key_le.
Proof. intros [] []. unfold key_le. simpl. lia. Qed.
#[export] Instance key_le_trans : Transitive key_le.
Proof. intros [] [] []. unfold key_le. simpl. lia. Qed.
#[export] Instance key_le_antisymm : AntiSymm (=) key_le.
Proof.
  intros [b1 i1 z1] [b2 i2 z2]. unfold key_le. simpl. intros H1 H2.
  assert (b1 = b2 ∧ i1 = i2 ∧ z1 = z2) as (-> & -> & ->) by lia. done.
Qed.

Lemma sort_by_key_perm xs ys : xs ≡ₚ ys → sort_by_key xs = sort_by_key ys.
Proof.
  intros HP. unfold sort_by_key. apply (StronglySorted_unique key_le).
  - apply StronglySorted_merge_sort; apply _.
  - apply StronglySorted_merge_sort; apply _.
  - by rewrite !merge_sort_Permutation.
Qed.

Section Order.
Context {D C : Type} `{Pci D C}.

(** Collecting either panics on some device or yields all requests. *)
Definition no_err {A} (m : outcome mem_error A) : Prop := match m with Err _ => False | _ => True end.

Lemma no_err_bind {A B} (m : outcome mem_error A) (k : A → outcome mem_error B) :
  no_err m → (∀ a, no_err (k a)) → no_err (m ≫= k).
Proof. destruct m; simpl; auto. Qed.

Lemma get_bar_no_err d i : no_err (get_bar d i).
Proof. unfold get_bar. by repeat case_match. Qed.

Lemma collect_bars_no_err fuel b d index : no_err (collect_bars fuel b d index).
Proof.
  revert index. induction fuel as [|fuel IH]; intros index; [done|]. cbn [collect_bars].
  destruct (index <? 6)%nat; [|done]. apply no_err_bind; [apply get_bar_no_err|intros [val lo]].
  apply no_err_bind; [|intros [mask index']].
  - destruct (is_mem64 val); [|done]. apply no_err_bind; [apply get_bar_no_err|by intros []].
  - destruct (mask =? 0); [apply IH|]. apply no_err_bind; [unfold classify; by repeat case_match|].
    intros c. apply no_err_bind; [apply IH|done].
Qed.

Lemma collect_all_spec devs :
  match collect_all (D := D) devs with
  | Ok xs => ∃ parts, Forall2 (λ p ys, ∃ d, snd p = Device d ∧
        collect_bars 6 (fst p) (dev_header d) 0 = Ok ys) devs parts ∧ xs = concat parts
  | Panic => ∃ p, p ∈ devs ∧ (snd p = Placeholder ∨ ∃ d, snd p = Device d ∧
        collect_bars 6 (fst p) (dev_header d) 0 = Panic)
  | Err _ => False
  end.
Proof.
  induction devs as [|[b [|d]] devs IH]; cbn [collect_all].
  - exists []. split; [constructor|done].
  - exists (b, Placeholder). split; [left|by left].
  - unfold mbind, outcome_bind.
    destruct (collect_bars 6 b (dev_header d) 0) as [ys|e|] eqn:E.
    + destruct (collect_all devs) as [xs|e|].
      * destruct IH as (parts & HF & ->). exists (ys :: parts). split; [|done].
        constructor; [by exists d|done].
      * done.
      * destruct IH as (p & Hp & Hx). exists p. split; [by right|done].
    + pose proof (collect_bars_no_err 6 b (dev_header d) 0) as Hn. by rewrite E in Hn.
    + exists (b, Device d). split; [left|right]. by exists d.
Qed.

Definition dev_bars (p : Z * entry D) : list (bar_class * BarReq) :=
  match snd p with
  | Device d =>
      match collect_bars 6 (fst p) (dev_header d) 0 with Ok ys => ys | _ => [] end
  | Placeholder => []
  end.

Lemma collect_all_ok devs xs :
  collect_all (D := D) devs = Ok xs →
  xs = mbind dev_bars devs ∧
  ∀ p, p ∈ devs → ∃ d ys, snd p = Device d ∧ collect_bars 6 (fst p) (dev_header d) 0 = Ok ys.
Proof.
  intros E. pose proof (collect_all_spec devs) as Hs. rewrite E in Hs.
  destruct Hs as (parts & HF & ->). clear E.
  induction HF as [|p ys devs parts (d & E1 & E2) HF [IH1 IH2]]; simpl.
  - split; [done|]. intros p Hp. by apply elem_of_nil in Hp.
  - split.
    + rewrite IH1. unfold dev_bars at 2. by rewrite E1, E2.
    + intros q [->|Hq]%elem_of_cons; [by exists d, ys|by apply IH2].
Qed.

Lemma mbind_perm {A B} (f : A → list B) (l l' : list A) : l ≡ₚ l' → mbind f l ≡ₚ mbind f l'.
Proof.
  induction 1 as [|x l l' _ IH|x y l|l l' l'' _ IH1 _ IH2]; simpl.
  - done.
  - by rewrite IH.
  - by rewrite !app_assoc, (Permutation_app_comm (f y)).
  - by rewrite IH1.
Qed.

Lemma collect_all_perm devs devs' :
  devs ≡ₚ devs' →
  match collect_all (D := D) devs, collect_all (D := D) devs' with
  | Ok xs, Ok ys => xs ≡ₚ ys
  | Panic, Panic => True
  | _, _ => False
  end.
Proof.
  intros HP. pose proof (collect_all_spec devs) as S1. pose proof (collect_all_spec devs') as S2.
  destruct (collect_all devs) as [xs|e|] eqn:E1, (collect_all devs') as [ys|e'|] eqn:E2; try done.
  - apply collect_all_ok in E1 as [-> _]. apply collect_all_ok in E2 as [-> _]. by apply mbind_perm.
  - destruct S2 as (p & Hp & Hbad). rewrite <- HP in Hp.
    apply collect_all_ok in E1 as [_ Hok]. destruct (Hok p Hp) as (d & zs & F1 & F2).
    destruct Hbad as [Hb|(d' & F3 & F4)]; congruence.
  - destruct S1 as (p & Hp & Hbad). rewrite HP in Hp.
    apply collect_all_ok in E2 as [_ Hok]. destruct (Hok p Hp) as (d & zs & F1 & F2).
    destruct Hbad as [Hb|(d' & F3 & F4)]; congruence.
Qed.

Lemma bar_list_perm c xs ys : xs ≡ₚ ys → sort_by_key (bar_list c xs) = sort_by_key (bar_list c ys).
Proof. intros HP. apply sort_by_key_perm. unfold bar_list. by rewrite HP. Qed.
End Order.

Lemma footprint_stores end_ (ps : list (Z * BarReq)) :
  Forall (λ p, fst p ≤ end_) ps → (fst <$> (ps ≫= stores)) `sublist_of` ((snd <$> ps) ≫= footprint end_).
Proof.
  induction 1 as [|p ps Hp _ IH]; [done|].
  change (((snd <$> p :: ps) : list BarReq) ≫= footprint end_)
    with (footprint end_ (snd p) ++ ((snd <$> ps) ≫= footprint end_)).
  change ((p :: ps) ≫= stores) with (stores p ++ (ps ≫= stores)). rewrite fmap_app.
  apply sublist_app; [|exact IH]. unfold stores, footprint.
  destruct (Z.ltb_spec U32_MAX (fst p)), (Z.ltb_spec U32_MAX end_); try lia; cbn; repeat constructor.
Qed.

Lemma sublist_bind {A B} (f : A → list B) xs ys :
  xs `sublist_of` ys → (xs ≫= f) `sublist_of` (ys ≫= f).
Proof.
  induction 1 as [|x xs ys _ IH|x xs ys _ IH]; [done| |].
  - by apply (sublist_app (f x) (f x) _ _).
  - by apply (sublist_inserts_l (f x)).
Qed.

(** C16: the addresses [assign_resources] picks for one kind of window, where the requests
    name BARs of devices, each register once, and their sizes are powers of two.  Every
    address is naturally aligned, lies with its whole range inside the window, and ranges do
    not overlap; a BAR that does not fit is skipped and the others still get theirs.  The
    loop ends, and then the register of every BAR that got an address holds that address
    in the bits of its mask and what it had in the others, the register after it likewise
    the upper half of an address above 4 GiB, and every other BAR register of every
    device is as it was. *)
Theorem assign_list_sound {D C : Type} `{Pci D C} `{!PciHeaderLaws} end_ start reqs (s : PciSegment D) :
  Forall req_ok reqs → 0 ≤ start ≤ end_ → end_ ≤ 2 ^ 62 →
  NoDup (reqs ≫= footprint end_) →
  Forall (λ r, is_Some (bar_reg s r) ∧ is_Some (bar_reg_mask s r)) (reqs ≫= footprint end_) →
  let ps := place end_ start reqs in
  Forall (λ p, start ≤ fst p ∧ fst p + rq_size (snd p) ≤ end_ ∧ (rq_size (snd p) | fst p)) ps ∧
  StronglySorted (λ p q, fst p + rq_size (snd p) ≤ fst q) ps ∧
  (snd <$> ps) `sublist_of` reqs ∧
  ∃ s', assign_list end_ start reqs s = (s', Ok tt) ∧
    (∀ a rq, (a, rq) ∈ ps → ∃ old mask new,
       bar_reg s (rq_bdf rq, rq_index rq) = Some old ∧ bar_reg_mask s (rq_bdf rq, rq_index rq) = Some mask ∧
       bar_reg s' (rq_bdf rq, rq_index rq) = Some new ∧ masked_store old mask a new) ∧
    (∀ a rq, (a, rq) ∈ ps → 2 ^ 32 ≤ a → ∃ old mask new,
       bar_reg s (rq_bdf rq, S (rq_index rq)) = Some old ∧
       bar_reg_mask s (rq_bdf rq, S (rq_index rq)) = Some mask ∧
       bar_reg s' (rq_bdf rq, S (rq_index rq)) = Some new ∧ masked_store old mask (a / 2 ^ 32) new) ∧
    (∀ r, (∀ a rq, (a, rq) ∈ ps → r ≠ (rq_bdf rq, rq_index rq) ∧
             (2 ^ 32 ≤ a → r ≠ (rq_bdf rq, S (rq_index rq)))) → bar_reg s' r = bar_reg s r).
Proof.
  intros Hr Ha He Hnd Hv ps. destruct (place_sound end_ start reqs Hr Ha He) as (H1 & H2 & H3). fold ps in H1, H2, H3.
  split; [done|]. split; [done|]. split; [done|].
  assert (fst <$> (ps ≫= stores) `sublist_of` (reqs ≫= footprint end_)) as Hsub.
  { etrans; [apply (footprint_stores end_)|by apply sublist_bind].
    apply Forall_forall. intros p Hp. rewrite Forall_forall in H1. destruct (H1 p Hp) as (_ & Hle & _).
    rewrite Forall_forall in Hr.
    destruct (Hr (snd p)) as (k & Hk & Ek); [|pose proof (Z.pow_pos_nonneg 2 k); lia].
    eapply sublist_subseteq; [exact H3|]. by apply list_elem_of_fmap_2. }
  destruct (stores_ok (ps ≫= stores) s) as (s' & E & R & F).
  { by eapply sublist_NoDup. }
  { apply Forall_forall. intros w Hw. rewrite Forall_forall in Hv. apply Hv.
    eapply sublist_subseteq; [exact Hsub|]. by apply list_elem_of_fmap_2. }
  exists s'. split_and!.
  - rewrite assign_list_place, write_placement_stores. exact E.
  - intros a rq Hin. apply R. apply list_elem_of_bind. exists (a, rq). split; [left|done].
  - intros a rq Hin Hle. rewrite <- Z.shiftr_div_pow2 by lia. apply R. apply list_elem_of_bind.
    exists (a, rq). split; [|done]. unfold stores. cbn [fst snd]. rewrite (proj2 (Z.ltb_lt _ _)) by (unfold U32_MAX; lia).
    right. left.
  - intros r Hne. apply F. intros ([r' v] & -> & ([a rq] & Hw & Hin)%list_elem_of_bind)%list_elem_of_fmap.
    destruct (Hne a rq Hin) as [N1 N2]. unfold stores in Hw. cbn [fst snd] in *.
    apply elem_of_cons in Hw as [[= -> _]|Hw]; [done|]. destruct (Z.ltb_spec U32_MAX a) as [Hlt|]; [|by apply elem_of_nil in Hw].
    apply elem_of_cons in Hw as [[= -> _]|Hw]; [|by apply elem_of_nil in Hw].
    apply N2; [unfold U32_MAX in Hlt; lia|done].
Qed.

(** C17: [assign_resources] does not depend on the order in which the hash map of
    devices is iterated: any two orders of the same devices give the same result. *)
Theorem assign_resources_order {D C : Type} `{Pci D C} (devs devs' : list (Z * entry D))
  io mem32 pref32 pref64 s :
  devs ≡ₚ devs' →
  assign_resources devs io mem32 pref32 pref64 s = assign_resources devs' io mem32 pref32 pref64 s.
Proof.
  intros HP. pose proof (collect_all_perm devs devs' HP) as Hc.
  unfold assign_resources, sbind, slift.
  destruct (collect_all devs) as [xs|e|], (collect_all devs') as [ys|e'|]; try done.
  by rewrite !(bar_list_perm _ xs ys Hc).
Qed.

(** ** Two ways to a register *)

(** The ECAM address of a register. *)
Definition ecam_addr (bus dev func reg : Z) : Z :=
  Z.lor (Z.shiftl bus 20) (Z.lor (Z.shiftl dev 15) (Z.lor (Z.shiftl func 12) reg)).
(** The value a driver writes to the address port for it. *)
Definition port_address (bus dev func reg : Z) : Z :=
  Z.lor (Z.shiftl 1 31) (Z.lor (Z.shiftl bus 16) (Z.lor (Z.shiftl dev 11) (Z.lor (Z.shiftl func 8) reg))).

(** A field inside, or outside, the bits a constant mask keeps. *)
Lemma field_inside w z n lo len :
  0 ≤ lo ≤ n → 0 ≤ w → n + w ≤ lo + len → in_u w z →
  Z.land (Z.shiftl z n) (Z.shiftl (Z.ones len) lo) = Z.shiftl z n.
Proof. intros. bitblast. Qed.
Lemma field_outside w z n lo len :
  0 ≤ n → 0 ≤ w → 0 ≤ lo → 0 ≤ len → n + w ≤ lo ∨ lo + len ≤ n → in_u w z →
  Z.land (Z.shiftl z n) (Z.shiftl (Z.ones len) lo) = 0.
Proof. intros. bitblast. Qed.

Lemma low_parts reg :
  in_u 8 reg → Z.lor (Z.land reg 0xfc) (Z.land (Z.land reg 3) 3) = reg.
Proof.
  intros Hr. change 0xfc with (Z.shiftl (Z.ones 6) 2). change 3 with (Z.ones 2). bitblast.
Qed.

Lemma port_address_in_u bus dev func reg :
  in_u 8 bus → in_u 5 dev → in_u 3 func → in_u 8 reg → in_u 32 (port_address bus dev func reg).
Proof.
  intros Hb Hd Hf Hr. unfold port_address. repeat apply lor_in_u; try lia; [by_eval|..].
  - apply shiftl_in_u; [lia|]. by apply (in_u_mono 8).
  - apply shiftl_in_u; [lia|]. by apply (in_u_mono 5).
  - apply shiftl_in_u; [lia|]. by apply (in_u_mono 3).
  - by apply (in_u_mono 8).
Qed.

Lemma port_to_ecam bus dev func reg :
  in_u 8 bus → in_u 5 dev → in_u 3 func → in_u 8 reg →
  Z.lor (Address.to_ecam_addr (u32 (port_address bus dev func (Z.land reg 0xfc))))
        (Z.land (Z.lor 4 (Z.land reg 3)) 3) = ecam_addr bus dev func reg.
Proof.
  intros Hb Hd Hf Hr. assert (in_u 8 (Z.land reg 0xfc)) as Hr' by (by apply land_in_u_l).
  rewrite (wrap_small 32) by (by apply port_address_in_u).
  unfold Address.to_ecam_addr, port_address, ecam_addr. rewrite !Z.land_lor_distr_l.
  change 0xffff00 with (Z.shiftl (Z.ones 16) 8).
  rewrite (field_inside 8 bus), (field_inside 5 dev), (field_inside 3 func) by (done || lia).
  rewrite <- (Z.shiftl_0_r (Z.land reg 0xfc)) at 1.
  rewrite (field_outside 8 (Z.land reg 0xfc)) by (done || lia).
  change 0xfc with (Z.shiftl (Z.ones 6) 2) at 2 3 4 5 6.
  rewrite (field_outside 8 bus), (field_outside 5 dev), (field_outside 3 func) by (done || lia).
  rewrite <- Z.land_assoc, Z.land_diag. change (Z.shiftl (Z.ones 6) 2) with 0xfc.
  change (Z.land (Z.shiftl 1 31) (Z.shiftl (Z.ones 16) 8)) with 0.
  change (Z.land (Z.shiftl 1 31) 0xfc) with 0. rewrite !Z.lor_0_l, !Z.lor_0_r.
  rewrite !Z.shiftl_lor, !Z.shiftl_shiftl by lia. rewrite <- !Z.lor_assoc.
  by rewrite low_parts.
Qed.

Lemma port_address_enabled bus dev func reg :
  in_u 8 bus → in_u 5 dev → in_u 3 func → in_u 8 reg →
  Address.enabled (u32 (port_address bus dev func reg)) = true.
Proof.
  intros Hb Hd Hf Hr. unfold Address.enabled, bit_get, port_address.
  rewrite wrap_testbit by lia. change (Z.shiftl 1 31) with (Z.shiftl (Z.ones 1) 31).
  autorewrite with zbits. done.
Qed.

(** C18: the address and data ports and ECAM reach the same register: writing the
    address of (bus, device, function, register) to the address port and then
    accessing the data port at the register's low bits reads and writes what an
    ECAM access at that address does, for the 256 registers the ports can name. *)
Theorem io_bus_is_ecam {D C : Type} `{Pci D C} (b : PciIoBus D) bus dev func reg size val :
  in_u 8 bus → in_u 5 dev → in_u 3 func → in_u 8 reg →
  let b1 := fst (io_bus_write (C := C) b 0 4 (port_address bus dev func (Z.land reg 0xfc))) in
  let port := Z.lor 4 (Z.land reg 3) in
  io_bus_read b1 port size = segment_read (io_segment b) (ecam_addr bus dev func reg) size ∧
  io_bus_write b1 port size val =
    (let r := segment_write (io_segment b) (ecam_addr bus dev func reg) size val in
     (mkIoBus (io_address b1) (fst r), snd r)).
Proof.
  intros Hb Hd Hf Hr. cbn zeta.
  assert (∃ k, Z.lor 4 (Z.land reg 3) = 4 + k ∧ 0 ≤ k ≤ 3) as (k & Ek & Hk).
  { exists (Z.land reg 3). assert (in_u 2 (Z.land reg 3)) as [? ?] by (apply land_in_u_r; [lia|by_eval]).
    change (2 ^ 2) with 4 in *. assert (Z.land reg 3 ∈ [0; 1; 2; 3]) as Hc.
    { assert (Z.land reg 3 = 0 ∨ Z.land reg 3 = 1 ∨ Z.land reg 3 = 2 ∨ Z.land reg 3 = 3) by lia. set_solver. }
    split; [|lia]. repeat (apply elem_of_cons in Hc as [->|Hc]; [done|]). by apply elem_of_nil in Hc. }
  assert (in_u 8 (Z.land reg 0xfc)) as Hr' by (by apply land_in_u_l).
  assert (((4 <=? Z.lor 4 (Z.land reg 3)) && (Z.lor 4 (Z.land reg 3) <=? 7)) = true) as Hp.
  { rewrite Ek, andb_true_iff, !Z.leb_le. lia. }
  assert ((Z.lor 4 (Z.land reg 3) =? 0) = false) as Hz by (rewrite Ek; apply Z.eqb_neq; lia).
  change (fst (io_bus_write (C := C) b 0 4 (port_address bus dev func (Z.land reg 0xfc))))
    with (mkIoBus (u32 (port_address bus dev func (Z.land reg 0xfc))) (io_segment b)).
  unfold io_bus_read, io_bus_write. rewrite Hp, Hz. cbn [io_address io_segment].
  rewrite port_address_enabled by done. by rewrite port_to_ecam by done.
Qed.

(** ** Witnesses *)

Module DemoSegment.
(** A device that is its header. *)
#[export] Instance header_dev : Pci HeaderData Empty_set := {|
  dev_header := λ d, d;
  dev_set_header := λ _ d, d;
  dev_config_read := λ d o n, Ok (zerocopy_read (header_bytes (header d)) o n);
  dev_config_write := λ d o n v,
    (fst (write_header (R := unit) (CB := unit) d o n v []), Ok ActNone);
  dev_reset := λ d, (d, Ok tt);
  dev_config_reset := λ d, (HeaderData_set_command d 0, Ok tt)
|}.
#[export] Instance header_laws : PciHeaderLaws (D := HeaderData).
Proof. done. Qed.
Definition dev0 : HeaderData := mkHeaderData host_bridge_header [0; 0; 0xfffff000; 0xffffffff; 0; 0] 0.
Definition dev1 : HeaderData := mkHeaderData pvpanic_header [0xfffff000; 0xffffffff; 0; 0; 0; 0] 0.
Definition seg : PciSegment HeaderData :=
  mkSegment {[ 0 := Device dev0; 8 := Device dev1 ]} 0.
Definition rq1 := mkBarReq 0x8 0 0x4000.
Definition rq2 := mkBarReq 0x0 2 0x1000.
End DemoSegment.
Import (hints) DemoSegment.

Lemma reserve_any_spec_witness :
  ∃ n, (n < reserve_fuel)%nat ∧ 0x10 = candidate 0 n ∧ ¬ occupied DemoSegment.seg 0x10 ∧
    (∀ j, (j < n)%nat → occupied DemoSegment.seg (candidate 0 j)) ∧
    fst (reserve DemoSegment.seg None) =
      mkSegment (<[0x10 := Placeholder]> (seg_devices DemoSegment.seg)) (candidate 0 (S n)).
Proof.
  assert (in_u 16 (seg_next_bdf DemoSegment.seg)) as Hu by by_eval.
  pose proof (reserve_any_spec DemoSegment.seg Hu) as Hr.
  assert (snd (reserve DemoSegment.seg None) = Ok (Some 0x10)) as E by (vm_compute; reflexivity).
  destruct (reserve DemoSegment.seg None) as [s' o]. simpl in E. subst o. exact Hr.
Defined.

(** A window above 4 GiB: both halves of the BARs are written. *)
Lemma assign_list_sound_witness :
  place 0x100020000 0x100011000 [DemoSegment.rq1; DemoSegment.rq2]
    = [(0x100014000, DemoSegment.rq1); (0x100018000, DemoSegment.rq2)] ∧
  ∃ s', assign_list 0x100020000 0x100011000 [DemoSegment.rq1; DemoSegment.rq2] DemoSegment.seg = (s', Ok tt) ∧
    bar_reg s' (8, 0%nat) = Some 0x1400c ∧ bar_reg s' (8, 1%nat) = Some 1 ∧
    bar_reg s' (8, 2%nat) = bar_reg DemoSegment.seg (8, 2%nat).
Proof.
  split; [reflexivity|].
  destruct (assign_list_sound 0x100020000 0x100011000 [DemoSegment.rq1; DemoSegment.rq2] DemoSegment.seg)
    as (_ & _ & _ & s' & E & _ & _ & F).
  - constructor; [exists 14; split; [lia|reflexivity]|].
    constructor; [exists 12; split; [lia|reflexivity]|constructor].
  - lia.
  - lia.
  - apply (bool_decide_unpack _). vm_compute. exact I.
  - repeat constructor; by eexists.
  - exists s'. split; [exact E|]. split_and!; [..|apply F].
    + vm_compute in E. injection E as <-. reflexivity.
    + vm_compute in E. injection E as <-. reflexivity.
    + intros a rq [[= -> ->]|[[= -> ->]|Hn]%elem_of_cons]%elem_of_cons; [by split|by split|by apply elem_of_nil in Hn].
Defined.

Lemma assign_resources_order_witness :
  assign_resources [(0, Device DemoSegment.dev0); (8, Device DemoSegment.dev1)]
    (0x1000, 0x10000) (0xe0000000, 0xf0000000) (0xd0000000, 0xe0000000) (0x100000000, 0x200000000)
    DemoSegment.seg =
  assign_resources [(8, Device DemoSegment.dev1); (0, Device DemoSegment.dev0)]
    (0x1000, 0x10000) (0xe0000000, 0xf0000000) (0xd0000000, 0xe0000000) (0x100000000, 0x200000000)
    DemoSegment.seg.
Proof. apply assign_resources_order. apply perm_swap. Defined.

Lemma io_bus_is_ecam_witness :
  let b := mkIoBus 0 DemoSegment.seg in
  let b1 := fst (io_bus_write b 0 4 (port_address 0 1 0 0)) in
  io_bus_read b1 6 2 = segment_read DemoSegment.seg (ecam_addr 0 1 0 2) 2 ∧
  segment_read DemoSegment.seg (ecam_addr 0 1 0 2) 2 = Ok 0x0011.
Proof.
  cbn zeta. split; [|vm_compute; reflexivity].
  refine (proj1 (io_bus_is_ecam (mkIoBus 0 DemoSegment.seg) 0 1 0 2 2 0 _ _ _ _)); by_eval.
Defined.
