(* ===== verification/IoApic.v ===== *)
(** * The I/O APIC: device/ioapic.rs, arch/x86_64/ioapic.rs, arch/x86_64/intr.rs

    The index/data register window over 24 redirection entries, and the MSI a pin
    turns into.  Sending is the hypervisor's ([trait MsiSender]). *)

From S2P Require Import Prelude Utils MemTypes Emulated.

Open Scope stm_scope.

(** hv/hv.rs, [trait MsiSender]: the part the I/O APIC uses. *)
Class MsiSender (M : Type) := msi_send : Z → Z → stm M hv_error unit.

(** ** Registers *)

Definition IOREGSEL : Z := 0x00.
Definition IOWIN : Z := 0x10.
Definition IOAPICID : Z := 0x00.
Definition IOAPICVER : Z := 0x01.
Definition IOAPICARB : Z := 0x02.
Definition IOREDTBL_BASE : Z := 0x10.
Definition IOREDTBL_MAX : Z := 0x3f.
Definition NUM_PINS : Z := 24.
Definition IOAPIC_VER : Z := 0x11.
Definition APIC_START : Z := 0xfee00000.
Definition IOAPIC_START : Z := 0xfec00000.
Definition IOAPIC_END : Z := IOAPIC_START + 0x100.

Module RegId.
Definition id (r : Z) : Z := bits_get r 27 24.
Definition set_id (r v : Z) : Z := bits_set r 27 24 v.
End RegId.

Module RegVer.
Definition new (version max_entry : Z) : Z := bits_set (bits_set 0 7 0 version) 23 16 max_entry.
End RegVer.

Module RedirectEntry.
Definition vector (e : Z) : Z := bits_get e 7 0.
Definition delivery_mode (e : Z) : Z := bits_get e 10 8.
Definition dest_mode (e : Z) : bool := bit_get e 11.
Definition trigger_mode (e : Z) : bool := bit_get e 15.
Definition masked (e : Z) : bool := bit_get e 16.
Definition virt_dest_id_hi (e : Z) : Z := bits_get e 55 49.
Definition dest_id (e : Z) : Z := bits_get e 63 56.
End RedirectEntry.

Module MsiAddrLo.
Definition set_virt_dest_id_hi (a v : Z) : Z := bits_set a 11 5 v.
Definition set_dest_id (a v : Z) : Z := bits_set a 19 12 v.
End MsiAddrLo.

Module MsiData.
Definition new (vector delivery_mode : Z) (level trigger_mode : bool) : Z :=
  bit_set (bit_set (bits_set (bits_set 0 7 0 vector) 11 8 delivery_mode) 14 level) 15 trigger_mode.
End MsiData.

(** ** The device *)

Record IoApicRegs := mkIoApicRegs {
  io_id : Z;
  redirtbl : list Z;   (* [RedirectEntry; 24] *)
  select : Z
}.

Record IoApic (M : Type) := mkIoApic { ioapic_regs : IoApicRegs; msi_sender : M }.
Arguments mkIoApic {M} _ _.
Arguments ioapic_regs {M} _.
Arguments msi_sender {M} _.

Section IoApic.
Context {M C : Type} `{MsiSender M}.

Definition IoApicRegs_default : IoApicRegs := mkIoApicRegs 0 (replicate 24 0) 0.
Definition IoApic_new (m : M) : IoApic M := mkIoApic IoApicRegs_default m.

Definition msi_addr_of (entry : Z) : Z :=
  MsiAddrLo.set_virt_dest_id_hi
    (MsiAddrLo.set_dest_id (u32 APIC_START) (RedirectEntry.dest_id entry))
    (RedirectEntry.virt_dest_id_hi entry).
Definition msi_data_of (entry : Z) : Z :=
  MsiData.new (RedirectEntry.vector entry) (RedirectEntry.delivery_mode entry) false
    (RedirectEntry.trigger_mode entry).

Definition service_pin (pin : Z) : stm (IoApic M) hv_error unit :=
  λ a,
    match redirtbl (ioapic_regs a) !! Z.to_nat pin with
    | None => (a, Ok tt)
    | Some entry =>
        if RedirectEntry.masked entry then (a, Ok tt)
        else if RedirectEntry.dest_mode entry then (a, Ok tt)      (* LOGICAL *)
        else if RedirectEntry.trigger_mode entry then (a, Ok tt)   (* LEVEL *)
        else
          let r := msi_send (msi_addr_of entry) (msi_data_of entry) (msi_sender a) in
          (mkIoApic (ioapic_regs a) (fst r), snd r)
    end.

Definition read_reg (r : IoApicRegs) : Z :=
  if (select r =? IOAPICID) || (select r =? IOAPICARB) then io_id r
  else if select r =? IOAPICVER then RegVer.new IOAPIC_VER (NUM_PINS - 1)
  else if (IOREDTBL_BASE <=? select r) && (select r <=? IOREDTBL_MAX) then
    match redirtbl r !! Z.to_nat (Z.shiftr (select r - IOREDTBL_BASE) 1) with
    | None => 0
    | Some entry => if select r mod 2 =? 0 then u32 entry else u32 (Z.shiftr entry 32)
    end
  else 0.

Definition write_reg (r : IoApicRegs) (val : Z) : IoApicRegs :=
  if select r =? IOAPICID then mkIoApicRegs (RegId.set_id (io_id r) (RegId.id val)) (redirtbl r) (select r)
  else if (select r =? IOAPICVER) || (select r =? IOAPICARB) then r
  else if (IOREDTBL_BASE <=? select r) && (select r <=? IOREDTBL_MAX) then
    let pin := Z.to_nat (Z.shiftr (select r - IOREDTBL_BASE) 1) in
    match redirtbl r !! pin with
    | None => r
    | Some entry =>
        let entry' :=
          if select r mod 2 =? 0
          then Z.lor (Z.land entry 0xffffffff00000000) val
          else Z.lor (Z.land entry 0x00000000ffffffff) (u64 (Z.shiftl val 32)) in
        mkIoApicRegs (io_id r) (<[pin := entry']> (redirtbl r)) (select r)
    end
  else r.

Definition IoApic_size : Z := IOAPIC_END - IOAPIC_START.

Definition IoApic_read (a : IoApic M) (offset size : Z) : Z :=
  if negb (size =? 4) then 0
  else if offset =? IOREGSEL then select (ioapic_regs a)
  else if offset =? IOWIN then read_reg (ioapic_regs a)
  else 0.

Definition IoApic_write (a : IoApic M) (offset size val : Z) : IoApic M :=
  if negb (size =? 4) then a
  else
    let r := ioapic_regs a in
    if offset =? IOREGSEL then mkIoApic (mkIoApicRegs (io_id r) (redirtbl r) (u8 val)) (msi_sender a)
    else if offset =? IOWIN then mkIoApic (write_reg r (u32 val)) (msi_sender a)
    else a.
End IoApic.

(** ** Lemmas *)

Section Window.
Context {M : Type} `{MsiSender M}.

(** Programming half [h] (0 low, 1 high) of a redirection entry. *)
Definition program (a : IoApic M) (pin h val : Z) : IoApic M :=
  IoApic_write (IoApic_write a IOREGSEL 4 (IOREDTBL_BASE + 2 * pin + h)) IOWIN 4 val.
Definition examine (a : IoApic M) (pin h : Z) : Z :=
  IoApic_read (IoApic_write a IOREGSEL 4 (IOREDTBL_BASE + 2 * pin + h)) IOWIN 4.

Definition halves (entry h val : Z) : Z :=
  if h =? 0 then Z.lor (Z.land entry 0xffffffff00000000) val
  else Z.lor (Z.land entry 0x00000000ffffffff) (Z.shiftl val 32).

Lemma half_select pin h :
  0 ≤ pin < 24 → 0 ≤ h ≤ 1 →
  let sel := IOREDTBL_BASE + 2 * pin + h in
  u8 sel = sel ∧ (sel =? IOAPICID) = false ∧ (sel =? IOAPICVER) = false ∧ (sel =? IOAPICARB) = false ∧
  (IOREDTBL_BASE <=? sel) && (sel <=? IOREDTBL_MAX) = true ∧
  Z.shiftr (sel - IOREDTBL_BASE) 1 = pin ∧ (sel mod 2 =? 0) = (h =? 0).
Proof.
  intros Hp Hh. cbn zeta. unfold IOREDTBL_BASE, IOREDTBL_MAX, IOAPICID, IOAPICVER, IOAPICARB.
  split; [apply wrap_small; unfold in_u; lia|]. rewrite !Z.eqb_neq, andb_true_iff, !Z.leb_le.
  split; [lia|]. split; [lia|]. split; [lia|]. split; [lia|]. split.
  - rewrite Z.shiftr_div_pow2 by lia. change (2 ^ 1) with 2.
    symmetry. apply (Z.div_unique _ _ _ h); lia.
  - assert ((16 + 2 * pin + h) mod 2 = h) as ->; [|done].
    symmetry. apply (Z.mod_unique _ _ (8 + pin)); lia.
Qed.

Lemma program_spec a pin h val entry :
  0 ≤ pin < 24 → 0 ≤ h ≤ 1 → redirtbl (ioapic_regs a) !! Z.to_nat pin = Some entry →
  in_u 32 val →
  redirtbl (ioapic_regs (program a pin h val)) =
    <[Z.to_nat pin := halves entry h val]> (redirtbl (ioapic_regs a)) ∧
  msi_sender (program a pin h val) = msi_sender a ∧ io_id (ioapic_regs (program a pin h val)) = io_id (ioapic_regs a).
Proof.
  intros Hp Hh He Hv. destruct (half_select pin h Hp Hh) as (E0 & E1 & E2 & E3 & E4 & E5 & E6).
  unfold program. cbn [IoApic_write Z.eqb negb IOREGSEL IOWIN Pos.eqb ioapic_regs msi_sender].
  rewrite E0. unfold write_reg. cbn [select redirtbl io_id].
  rewrite E1, E2, E3, E4, E5, He, E6. cbn [orb ioapic_regs redirtbl io_id].
  rewrite (wrap_small 32 val) by done. split; [|done]. f_equal. unfold halves.
  destruct (h =? 0); [done|]. rewrite (wrap_small 64); [done|]. by apply shiftl_in_u.
Qed.

Lemma examine_spec a pin h entry :
  0 ≤ pin < 24 → 0 ≤ h ≤ 1 → redirtbl (ioapic_regs a) !! Z.to_nat pin = Some entry →
  examine a pin h = if h =? 0 then u32 entry else u32 (Z.shiftr entry 32).
Proof.
  intros Hp Hh He. destruct (half_select pin h Hp Hh) as (E0 & E1 & E2 & E3 & E4 & E5 & E6).
  unfold examine. cbn [IoApic_read IoApic_write Z.eqb negb IOREGSEL IOWIN Pos.eqb ioapic_regs].
  rewrite E0. unfold read_reg. cbn [select redirtbl].
  by rewrite E1, E2, E3, E4, E5, He, E6.
Qed.

Lemma halves_both entry lo hi :
  in_u 32 lo → in_u 32 hi →
  let e := halves (halves entry 0 lo) 1 hi in
  e = Z.lor lo (Z.shiftl hi 32) ∧ u32 e = lo ∧ u32 (Z.shiftr e 32) = hi.
Proof.
  intros Hl Hh. cbn zeta. unfold halves. cbn [Z.eqb].
  change 0xffffffff00000000 with (Z.shiftl (Z.ones 32) 32). change 0x00000000ffffffff with (Z.ones 32).
  split; [bitblast|]. split; bitblast.
Qed.
End Window.

(** C35: programming a redirection entry through the index and data registers.
    Writing both halves of a pin's entry leaves exactly that 64-bit value in it,
    both halves read back, every other entry and the identification register stay
    as they were, and no interrupt is sent. *)
Theorem ioapic_redirection_roundtrip {M : Type} `{MsiSender M} (a : IoApic M) pin lo hi :
  length (redirtbl (ioapic_regs a)) = 24%nat → 0 ≤ pin < NUM_PINS → in_u 32 lo → in_u 32 hi →
  let a' := program (program a pin 0 lo) pin 1 hi in
  redirtbl (ioapic_regs a') = <[Z.to_nat pin := Z.lor lo (Z.shiftl hi 32)]> (redirtbl (ioapic_regs a)) ∧
  examine a' pin 0 = lo ∧ examine a' pin 1 = hi ∧
  io_id (ioapic_regs a') = io_id (ioapic_regs a) ∧ msi_sender a' = msi_sender a.
Proof.
  unfold NUM_PINS. intros Hl Hp Hlo Hhi. cbn zeta.
  destruct (lookup_lt_is_Some_2 (redirtbl (ioapic_regs a)) (Z.to_nat pin)) as [e He]; [lia|].
  destruct (program_spec a pin 0 lo e Hp ltac:(lia) He Hlo) as (R1 & S1 & I1).
  set (a1 := program a pin 0 lo) in *.
  assert (redirtbl (ioapic_regs a1) !! Z.to_nat pin = Some (halves e 0 lo)) as He1
    by (rewrite R1; apply list_lookup_insert_eq; lia).
  destruct (program_spec a1 pin 1 hi _ Hp ltac:(lia) He1 Hhi) as (R2 & S2 & I2).
  set (a2 := program a1 pin 1 hi) in *.
  assert (redirtbl (ioapic_regs a2) !! Z.to_nat pin = Some (halves (halves e 0 lo) 1 hi)) as He2
    by (rewrite R2; apply list_lookup_insert_eq; rewrite R1, length_insert; lia).
  destruct (halves_both e lo hi Hlo Hhi) as (B1 & B2 & B3).
  split; [by rewrite R2, R1, list_insert_insert_eq, B1|].
  rewrite (examine_spec a2 pin 0 _ Hp ltac:(lia) He2), (examine_spec a2 pin 1 _ Hp ltac:(lia) He2).
  cbn [Z.eqb]. rewrite B2, B3.
  split; [done|]. split; [done|]. split; congruence.
Qed.

(** ** The message of a pin *)

Lemma bits_of_set_set z m1 l1 v1 m2 l2 v2 :
  0 ≤ l1 ≤ m1 → 0 ≤ l2 ≤ m2 → m2 < l1 ∨ m1 < l2 →
  bits_get (bits_set (bits_set z m1 l1 v1) m2 l2 v2) m1 l1 = wrap (m1 - l1 + 1) v1.
Proof. intros. rewrite bits_get_set_ne by lia. by apply bits_get_set. Qed.

(** A pin raises at most one message.  Nothing is sent for an unknown,
    masked, logical-destination or level-triggered entry; otherwise exactly one
    message goes out, whose address names the local APIC window with the entry's
    destination (8 low and 7 high bits) and whose data carries the entry's vector
    and delivery mode, edge-triggered. *)
Theorem service_pin_message {M : Type} `{MsiSender M} (a : IoApic M) pin :
  match redirtbl (ioapic_regs a) !! Z.to_nat pin with
  | Some e =>
      if RedirectEntry.masked e || RedirectEntry.dest_mode e || RedirectEntry.trigger_mode e
      then service_pin pin a = (a, Ok tt)
      else ∃ addr data,
        service_pin pin a = (let r := msi_send addr data (msi_sender a) in
                             (mkIoApic (ioapic_regs a) (fst r), snd r)) ∧
        bits_get addr 31 20 = 0xfee ∧ bits_get addr 19 12 = RedirectEntry.dest_id e ∧
        bits_get addr 11 5 = RedirectEntry.virt_dest_id_hi e ∧
        bits_get data 7 0 = RedirectEntry.vector e ∧
        bits_get data 10 8 = RedirectEntry.delivery_mode e ∧ bits_get data 31 11 = 0
  | None => service_pin pin a = (a, Ok tt)
  end.
Proof.
  unfold service_pin. destruct (redirtbl (ioapic_regs a) !! Z.to_nat pin) as [e|]; [|done].
  destruct (RedirectEntry.masked e); [done|]. destruct (RedirectEntry.dest_mode e); [done|].
  destruct (RedirectEntry.trigger_mode e) eqn:Et; [done|]. cbn [orb].
  exists (msi_addr_of e), (msi_data_of e). split; [done|].
  unfold msi_addr_of, msi_data_of, MsiAddrLo.set_virt_dest_id_hi, MsiAddrLo.set_dest_id, MsiData.new.
  rewrite Et. split; [|split; [|split; [|split; [|split]]]].
  - rewrite !bits_get_set_ne by lia. reflexivity.
  - rewrite bits_of_set_set by lia. apply wrap_small, (bits_get_in_u e 63 56). lia.
  - rewrite bits_get_set by lia. apply wrap_small, (bits_get_in_u e 55 49). lia.
  - unfold RedirectEntry.vector, RedirectEntry.delivery_mode, bits_get, bits_set, bit_set. cbn zeta. bitblast.
  - unfold RedirectEntry.vector, RedirectEntry.delivery_mode, bits_get, bits_set, bit_set. cbn zeta. bitblast.
  - unfold RedirectEntry.vector, RedirectEntry.delivery_mode, bits_get, bits_set, bit_set. cbn zeta. bitblast.
Qed.

(** A sender that records what it is asked to send. *)
Module DemoApic.
#[export] Instance log_sender : MsiSender (list (Z * Z)) := λ addr data l, (l ++ [(addr, data)], Ok tt).
Definition apic : IoApic (list (Z * Z)) := IoApic_new [].
End DemoApic.
Import (hints) DemoApic.

Lemma ioapic_redirection_roundtrip_witness :
  let a' := program (program DemoApic.apic 4 0 0x24) 4 1 0x01000000 in
  examine a' 4 0 = 0x24 ∧ examine a' 4 1 = 0x01000000 ∧
  msi_sender (fst (service_pin 4 a')) = [(0xfee01000, 0x24)].
Proof.
  cbn zeta.
  pose proof (ioapic_redirection_roundtrip DemoApic.apic 4 0x24 0x01000000) as Hr.
  destruct Hr as (_ & R1 & R2 & _ & _); [reflexivity|by_eval|by_eval|by_eval|].
  split; [exact R1|]. split; [exact R2|]. vm_compute. reflexivity.
Defined.
