(* ===== verification/Serial.v ===== *)
(** * The 16550 serial port: device/serial.rs

    Registers, the receive queue filled by the console thread, loop-back, and the
    interrupt raised through the I/O APIC.  The console the guest writes to is an
    interface; a failed console write or interrupt is ignored by the source. *)

From S2P Require Import Prelude Utils MemTypes Emulated IoApic.

Open Scope stm_scope.

(** [Write] of the console: the byte goes out (or not). *)
Class ConsoleOut (K : Type) := console_write : Z → K → K.

Module LineStatus.
Definition TX_EMPTY : Z := Z.shiftl 1 6.
Definition TX_HOLDING_REGISTER_EMPTY : Z := Z.shiftl 1 5.
Definition DATA_READY : Z := Z.shiftl 1 0.
Definition default : Z := Z.lor TX_EMPTY TX_HOLDING_REGISTER_EMPTY.
End LineStatus.

Module InterruptEnable.
Definition TX_HOLDING_REGISTER_EMPTY : Z := Z.shiftl 1 1.
Definition RECEIVED_DATA_AVAILABLE : Z := Z.shiftl 1 0.
Definition ALL : Z := 0xf.
End InterruptEnable.

Module InterruptIdentification.
Definition set_rx_data_available (v : Z) : Z := Z.lor (Z.land v (bnot 8 0xf)) 0x4.
Definition set_tx_room_empty (v : Z) : Z := Z.lor (Z.land v (bnot 8 0xf)) 0x2.
Definition clear_interrupt (v : Z) : Z := Z.lor (Z.land v (bnot 8 0xf)) 1.
Definition default : Z := clear_interrupt 0.
End InterruptIdentification.

Definition divisor_latch_access (lcr : Z) : bool := bit_get lcr 7.
Definition loop_back (mcr : Z) : bool := bit_get mcr 4.
#[global] Arguments divisor_latch_access : simpl never.
#[global] Arguments loop_back : simpl never.

Record SerialReg := mkSerialReg {
  interrupt_enable : Z;
  interrupt_identification : Z;
  line_control : Z;
  modem_control : Z;
  line_status : Z;
  modem_status : Z;
  scratch : Z;
  divisor : Z;
  data : list Z
}.

Definition SerialReg_default : SerialReg :=
  mkSerialReg 0 InterruptIdentification.default 3 0 LineStatus.default 0 0 0 [].

Definition set_iir (f : Z → Z) (r : SerialReg) : SerialReg :=
  mkSerialReg (interrupt_enable r) (f (interrupt_identification r)) (line_control r) (modem_control r)
    (line_status r) (modem_status r) (scratch r) (divisor r) (data r).
Definition set_lsr (f : Z → Z) (r : SerialReg) : SerialReg :=
  mkSerialReg (interrupt_enable r) (interrupt_identification r) (line_control r) (modem_control r)
    (f (line_status r)) (modem_status r) (scratch r) (divisor r) (data r).
Definition set_data (d : list Z) (r : SerialReg) : SerialReg :=
  mkSerialReg (interrupt_enable r) (interrupt_identification r) (line_control r) (modem_control r)
    (line_status r) (modem_status r) (scratch r) (divisor r) d.
Definition set_divisor (d : Z) (r : SerialReg) : SerialReg :=
  mkSerialReg (interrupt_enable r) (interrupt_identification r) (line_control r) (modem_control r)
    (line_status r) (modem_status r) (scratch r) d (data r).
Definition set_ier (v : Z) (r : SerialReg) : SerialReg :=
  mkSerialReg v (interrupt_identification r) (line_control r) (modem_control r)
    (line_status r) (modem_status r) (scratch r) (divisor r) (data r).
Definition set_lcr (v : Z) (r : SerialReg) : SerialReg :=
  mkSerialReg (interrupt_enable r) (interrupt_identification r) v (modem_control r)
    (line_status r) (modem_status r) (scratch r) (divisor r) (data r).
Definition set_mcr (v : Z) (r : SerialReg) : SerialReg :=
  mkSerialReg (interrupt_enable r) (interrupt_identification r) (line_control r) v
    (line_status r) (modem_status r) (scratch r) (divisor r) (data r).
Definition set_scratch (v : Z) (r : SerialReg) : SerialReg :=
  mkSerialReg (interrupt_enable r) (interrupt_identification r) (line_control r) (modem_control r)
    (line_status r) (modem_status r) v (divisor r) (data r).

(** The port with what it shares: the I/O APIC and the console. *)
Record Serial (M K : Type) := mkSerial {
  reg : SerialReg;
  io_apic : IoApic M;
  console : K;
  pin : Z
}.
Arguments mkSerial {M K} _ _ _ _.
Arguments reg {M K} _.
Arguments io_apic {M K} _.
Arguments console {M K} _.
Arguments pin {M K} _.

Section Serial.
Context {M K : Type} `{MsiSender M} `{ConsoleOut K}.
Implicit Types (s : Serial M K).

Definition Serial_new (apic : IoApic M) (p : Z) (k : K) : Serial M K :=
  mkSerial SerialReg_default apic k p.

Definition with_reg s (r : SerialReg) : Serial M K := mkSerial r (io_apic s) (console s) (pin s).

(** [send_irq]: an error is logged. *)
Definition send_irq s : Serial M K :=
  mkSerial (reg s) (fst (service_pin (pin s) (io_apic s))) (console s) (pin s).

Definition Serial_size : Z := 8.

Definition Serial_read s (offset size : Z) : Serial M K * Z :=
  let r := reg s in
  if (offset =? 0) && divisor_latch_access (line_control r) then (s, u8 (divisor r))
  else if (offset =? 1) && divisor_latch_access (line_control r) then (s, u8 (Z.shiftr (divisor r) 8))
  else if offset =? 0 then
    let r1 :=
      if (length (data r) <=? 1)%nat
      then set_lsr (λ v, Z.land v (bnot 8 LineStatus.DATA_READY)) r else r in
    match data r1 with
    | b :: d => (with_reg s (set_data d r1), b)
    | [] => (with_reg s r1, 0xff)
    end
  else if offset =? 1 then (s, interrupt_enable r)
  else if offset =? 2 then
    (with_reg s (set_iir InterruptIdentification.clear_interrupt r), interrupt_identification r)
  else if offset =? 3 then (s, line_control r)
  else if offset =? 4 then (s, modem_control r)
  else if offset =? 5 then (s, line_status r)
  else if offset =? 6 then (s, modem_status r)
  else if offset =? 7 then (s, scratch r)
  else (s, 0).

(** The transmit arm. *)
Definition transmit s (byte : Z) : Serial M K :=
  let r := reg s in
  if loop_back (modem_control r) then
    let s1 := with_reg s (set_data (data r ++ [byte]) r) in
    let s2 :=
      if contains (interrupt_enable r) InterruptEnable.RECEIVED_DATA_AVAILABLE
      then send_irq (with_reg s1 (set_iir InterruptIdentification.set_rx_data_available (reg s1)))
      else s1 in
    with_reg s2 (set_lsr (λ v, Z.lor v LineStatus.DATA_READY) (reg s2))
  else
    let s1 := mkSerial r (io_apic s) (console_write byte (console s)) (pin s) in
    if contains (interrupt_enable r) InterruptEnable.TX_HOLDING_REGISTER_EMPTY
    then send_irq (with_reg s1 (set_iir InterruptIdentification.set_tx_room_empty r))
    else s1.

Definition Serial_write s (offset size val : Z) : Serial M K :=
  let byte := u8 val in
  let r := reg s in
  if (offset =? 0) && divisor_latch_access (line_control r) then
    with_reg s (set_divisor (Z.lor (Z.land (divisor r) 0xff00) byte) r)
  else if (offset =? 1) && divisor_latch_access (line_control r) then
    with_reg s (set_divisor (Z.lor (Z.land (divisor r) 0x00ff) (u16 (Z.shiftl byte 8))) r)
  else if offset =? 0 then transmit s byte
  else if offset =? 1 then with_reg s (set_ier (Z.land byte InterruptEnable.ALL) r)
  else if offset =? 2 then s
  else if offset =? 3 then with_reg s (set_lcr byte r)
  else if offset =? 4 then with_reg s (set_mcr byte r)
  else if offset =? 5 then s
  else if offset =? 6 then s
  else if offset =? 7 then with_reg s (set_scratch byte r)
  else s.

(** [SerialRecv::receive], from the console thread. *)
Definition receive s (bytes : list Z) : Serial M K :=
  let r := set_data (data (reg s) ++ bytes) (reg s) in
  let s1 :=
    if contains (interrupt_enable r) InterruptEnable.RECEIVED_DATA_AVAILABLE
    then send_irq (with_reg s (set_iir InterruptIdentification.set_rx_data_available r))
    else with_reg s r in
  with_reg s1 (set_lsr (λ v, Z.lor v LineStatus.DATA_READY) (reg s1)).
End Serial.

(** ** Runs

    The guest's accesses and the console thread's deliveries, interleaved: each
    takes the register lock, so a run is a sequence of whole operations. *)

Inductive serial_event :=
  | GuestRead (offset : Z)
  | GuestWrite (offset val : Z)
  | Deliver (bytes : list Z).

Section Run.
Context {M K : Type} `{MsiSender M} `{ConsoleOut K}.
Implicit Types (s : Serial M K) (e : serial_event).

Definition serial_step s e : Serial M K :=
  match e with
  | GuestRead o => fst (Serial_read s o 1)
  | GuestWrite o v => Serial_write s o 1 v
  | Deliver bs => receive s bs
  end.

(** What the event puts into the port: delivered bytes, and looped-back ones. *)
Definition bytes_in s e : list Z :=
  match e with
  | Deliver bs => bs
  | GuestWrite 0 v =>
      if negb (divisor_latch_access (line_control (reg s))) && loop_back (modem_control (reg s))
      then [u8 v] else []
  | _ => []
  end.

(** What a driver takes out: a read of the receive buffer that the line status
    register announces. *)
Definition data_ready s : bool := bit_get (snd (Serial_read s 5 1)) 0.
Definition bytes_out s e : list Z :=
  match e with
  | GuestRead 0 =>
      if negb (divisor_latch_access (line_control (reg s))) && data_ready s
      then [snd (Serial_read s 0 1)] else []
  | _ => []
  end.

(** What goes to the console. *)
Definition bytes_sent s e : list Z :=
  match e with
  | GuestWrite 0 v =>
      if negb (divisor_latch_access (line_control (reg s))) && negb (loop_back (modem_control (reg s)))
      then [u8 v] else []
  | _ => []
  end.

Fixpoint serial_run s (es : list serial_event) : Serial M K :=
  match es with [] => s | e :: r => serial_run (serial_step s e) r end.

Fixpoint collect (f : Serial M K → serial_event → list Z) s (es : list serial_event) : list Z :=
  match es with [] => [] | e :: r => f s e ++ collect f (serial_step s e) r end.

(** [ConsoleThread] hands over only what a read returned, never nothing. *)
Definition delivers (e : serial_event) : Prop :=
  match e with Deliver [] => False | _ => True end.

#[local] Arguments bit_get : simpl never.
#[local] Arguments bnot : simpl never.

Definition serial_inv s : Prop :=
  bit_get (line_status (reg s)) 0 = bool_decide (data (reg s) ≠ []) ∧
  bit_get (line_status (reg s)) 5 = true ∧ bit_get (line_status (reg s)) 6 = true.

Lemma lsr_set_ready v :
  bit_get (Z.lor v LineStatus.DATA_READY) 0 = true ∧
  bit_get (Z.lor v LineStatus.DATA_READY) 5 = bit_get v 5 ∧
  bit_get (Z.lor v LineStatus.DATA_READY) 6 = bit_get v 6.
Proof.
  unfold bit_get, LineStatus.DATA_READY. rewrite !Z.lor_spec.
  split_and!; [by rewrite orb_true_r| |]; by rewrite orb_false_r.
Qed.

Lemma lsr_clear_ready v :
  bit_get (Z.land v (bnot 8 LineStatus.DATA_READY)) 0 = false ∧
  bit_get (Z.land v (bnot 8 LineStatus.DATA_READY)) 5 = bit_get v 5 ∧
  bit_get (Z.land v (bnot 8 LineStatus.DATA_READY)) 6 = bit_get v 6.
Proof.
  unfold bit_get. change (bnot 8 LineStatus.DATA_READY) with 0xfe. rewrite !Z.land_spec.
  split_and!; [by rewrite andb_false_r| |]; by rewrite andb_true_r.
Qed.

Lemma serial_inv_new apic p k : serial_inv (Serial_new apic p k).
Proof. done. Qed.

(** Registers other than the queue and the line status do not matter. *)
Lemma serial_inv_ext s s' :
  data (reg s') = data (reg s) → line_status (reg s') = line_status (reg s) →
  serial_inv s → serial_inv s'.
Proof. unfold serial_inv. by intros -> ->. Qed.

Lemma serial_inv_enqueue s s' bs :
  bs ≠ [] → data (reg s') = data (reg s) ++ bs →
  line_status (reg s') = Z.lor (line_status (reg s)) LineStatus.DATA_READY →
  serial_inv s → serial_inv s'.
Proof.
  unfold serial_inv. intros Hbs -> -> (?&?&?).
  destruct (lsr_set_ready (line_status (reg s))) as (->&->&->).
  rewrite bool_decide_eq_true_2; [done|]. by destruct (data (reg s)), bs.
Qed.

Lemma receive_reg s bs :
  data (reg (receive s bs)) = data (reg s) ++ bs ∧
  line_status (reg (receive s bs)) = Z.lor (line_status (reg s)) LineStatus.DATA_READY.
Proof. unfold receive. by case_match. Qed.

Lemma loop_back_reg s b :
  loop_back (modem_control (reg s)) = true →
  data (reg (transmit s b)) = data (reg s) ++ [b] ∧
  line_status (reg (transmit s b)) = Z.lor (line_status (reg s)) LineStatus.DATA_READY ∧
  console (transmit s b) = console s.
Proof. unfold transmit. intros ->. by case_match. Qed.

Lemma transmit_reg s b :
  loop_back (modem_control (reg s)) = false →
  data (reg (transmit s b)) = data (reg s) ∧
  line_status (reg (transmit s b)) = line_status (reg s) ∧
  console (transmit s b) = console_write b (console s).
Proof. unfold transmit. intros ->. by case_match. Qed.

(** One step: the invariant, the queue's bytes accounted for, the console's too. *)
Definition step_ok s e : Prop :=
  serial_inv (serial_step s e) ∧
  data (reg s) ++ bytes_in s e = bytes_out s e ++ data (reg (serial_step s e)) ∧
  console (serial_step s e) = foldl (λ k b, console_write b k) (console s) (bytes_sent s e).

Lemma step_ok_same s e :
  serial_inv s → bytes_in s e = [] → bytes_out s e = [] → bytes_sent s e = [] →
  data (reg (serial_step s e)) = data (reg s) →
  line_status (reg (serial_step s e)) = line_status (reg s) →
  console (serial_step s e) = console s → step_ok s e.
Proof.
  intros Hi Hin Hout Hs Hd Hl Hc. unfold step_ok. rewrite Hin, Hout, Hs, Hd, Hc, app_nil_r.
  split; [by eapply serial_inv_ext|done].
Qed.

Lemma step_deliver s bs : serial_inv s → bs ≠ [] → step_ok s (Deliver bs).
Proof.
  intros Hi Hne. destruct (receive_reg s bs) as [Hd Hl]. split_and!.
  - eapply serial_inv_enqueue; eauto.
  - cbn [serial_step bytes_in bytes_out app]. by rewrite Hd.
  - cbn. unfold receive. by case_match.
Qed.

Lemma step_transmit s v :
  serial_inv s → divisor_latch_access (line_control (reg s)) = false → step_ok s (GuestWrite 0 v).
Proof.
  intros Hi Hdl. unfold step_ok. cbn [serial_step bytes_in bytes_out bytes_sent].
  assert (Serial_write s 0 1 v = transmit s (u8 v)) as -> by (unfold Serial_write; cbn; by rewrite Hdl).
  rewrite Hdl. destruct (loop_back (modem_control (reg s))) eqn:Hlb; cbn.
  - destruct (loop_back_reg s (u8 v) Hlb) as (Hd&Hl&Hc). split_and!; [|by rewrite Hd|done].
    by eapply (serial_inv_enqueue s _ [u8 v]).
  - destruct (transmit_reg s (u8 v) Hlb) as (Hd&Hl&Hc). rewrite app_nil_r.
    split_and!; [by eapply serial_inv_ext|done|done].
Qed.

Lemma step_receive_buffer s :
  serial_inv s → divisor_latch_access (line_control (reg s)) = false → step_ok s (GuestRead 0).
Proof.
  intros (Hr&H5&H6) Hdl. unfold step_ok, data_ready. cbn [serial_step bytes_in bytes_out bytes_sent].
  unfold data_ready, Serial_read. cbn. rewrite Hdl, Hr, app_nil_r. cbn.
  destruct (lsr_clear_ready (line_status (reg s))) as (C0&C5&C6).
  destruct (data (reg s)) as [|b [|b' d]] eqn:E; cbn; rewrite E; cbn; unfold serial_inv; cbn;
    rewrite ?E, ?C0, ?C5, ?C6, ?Hr; done.
Qed.

Lemma step_ok_all s e : serial_inv s → delivers e → step_ok s e.
Proof.
  intros Hi Hd. destruct e as [o|o v|bs].
  - destruct (decide (o = 0)) as [->|].
    + destruct (divisor_latch_access (line_control (reg s))) eqn:Hdl;
        [|by apply step_receive_buffer].
      apply step_ok_same; cbn; rewrite ?Hdl; try done;
        unfold Serial_read; cbn; by rewrite Hdl.
    + apply step_ok_same; cbn; try done; try (by destruct o);
        unfold Serial_read; rewrite (proj2 (Z.eqb_neq o 0)) by done; cbn; by repeat case_match.
  - destruct (decide (o = 0)) as [->|].
    + destruct (divisor_latch_access (line_control (reg s))) eqn:Hdl;
        [|by apply step_transmit].
      apply step_ok_same; cbn; rewrite ?Hdl; try done;
        unfold Serial_write; cbn; by rewrite Hdl.
    + apply step_ok_same; cbn; try done; try (by destruct o);
        unfold Serial_write; rewrite (proj2 (Z.eqb_neq o 0)) by done; cbn; by repeat case_match.
  - apply step_deliver; [done|]. by destruct bs.
Qed.

Lemma run_ok es s :
  serial_inv s → Forall delivers es →
  serial_inv (serial_run s es) ∧
  data (reg s) ++ collect bytes_in s es = collect bytes_out s es ++ data (reg (serial_run s es)) ∧
  console (serial_run s es) = foldl (λ k b, console_write b k) (console s) (collect bytes_sent s es).
Proof.
  revert s. induction es as [|e es IH]; intros s Hi Hd; cbn [serial_run collect].
  - rewrite app_nil_r. done.
  - apply Forall_cons_1 in Hd as [He Hes].
    destruct (step_ok_all s e Hi He) as (Hi'&Hq&Hc).
    destruct (IH _ Hi' Hes) as (Hi''&Hq'&Hc'). split_and!; [done| |].
    + by rewrite app_assoc, Hq, <- app_assoc, Hq', app_assoc.
    + by rewrite Hc', Hc, foldl_app.
Qed.

(** C33: The serial port is a FIFO in each direction.  From a new port, after any
    interleaving of guest reads and writes with deliveries from the console thread,
    the bytes put in (delivered, or looped back) are exactly those the guest took
    from the receive buffer when the line status announced data, in order, followed by
    those still queued; the console got exactly the bytes transmitted outside
    loop-back, in order; the data-ready bit is set iff bytes are queued, and the
    two transmitter bits are always set. *)
Theorem serial_fifo (apic : IoApic M) (p : Z) (k : K) (es : list serial_event) :
  Forall delivers es →
  let s0 := Serial_new apic p k in
  let s := serial_run s0 es in
  collect bytes_in s0 es = collect bytes_out s0 es ++ data (reg s) ∧
  console s = foldl (λ c b, console_write b c) k (collect bytes_sent s0 es) ∧
  data_ready s = bool_decide (data (reg s) ≠ []) ∧
  bit_get (line_status (reg s)) 5 = true ∧ bit_get (line_status (reg s)) 6 = true.
Proof.
  intros Hd. cbn zeta. destruct (run_ok es (Serial_new apic p k) (serial_inv_new _ _ _) Hd)
    as ((?&?&?)&Hq&Hc). split_and!; done.
Qed.
End Run.

Module DemoSerial.
#[export] Instance demo_console : ConsoleOut (list Z) := λ b k, k ++ [b].
#[export] Instance demo_msi : MsiSender nat := λ _ _ n, (S n, Ok tt).
Definition events : list serial_event :=
  [Deliver [72; 105]; GuestRead 0; GuestWrite 0 65; GuestWrite 4 0x10; GuestWrite 0 66; GuestRead 0].
End DemoSerial.

Import (hints) DemoSerial.

Lemma serial_fifo_witness :
  let s0 := Serial_new (IoApic_new 0%nat) 4 [] in
  let s := serial_run s0 DemoSerial.events in
  collect bytes_out s0 DemoSerial.events = [72; 105] ∧ data (reg s) = [66] ∧
  console s = [65] ∧ collect bytes_in s0 DemoSerial.events = [72; 105; 66].
Proof.
  destruct (serial_fifo (IoApic_new 0%nat) 4 [] DemoSerial.events) as (Hin&_); [by repeat constructor|].
  split_and!; [reflexivity..|]. exact Hin.
Defined.
