(* ===== verification/VirtQueue.v ===== *)
(** * Virtqueues: virtio/queue/queue.rs

    The interface of a ring ([trait VirtQueue]), the device's side of a queue
    ([Queue]: available and used index, deferred chains) and its loop over
    available buffers, proved against the interface.  The rings lie in guest memory:
    a host memory map, read and written through raw pointers. *)

From S2P Require Import Prelude Utils MemTypes Addressable Mapped.

(** virtio/virtio.rs, [enum Error]: the variants a queue or a transport can produce;
    the I/O errors of the host are one. *)
Inductive virtio_error :=
| VHvError (source : hv_error)
| VMemory (source : mem_error)
| VSystem
| InvalidDescriptor (id : Z)
| InvalidQueueIndex (index : Z)
| InvalidMsixVector (vector : Z)
| InvalidBuffer.
#[export] Instance virtio_error_eq_dec : EqDecision virtio_error.
Proof. solve_decision. Defined.

Definition QUEUE_SIZE_MAX : Z := 256.

Module DescFlag.
Definition NEXT : Z := Z.shiftl 1 0.
Definition WRITE : Z := Z.shiftl 1 1.
Definition INDIRECT : Z := Z.shiftl 1 2.
Definition AVAIL : Z := Z.shiftl 1 7.
Definition USED : Z := Z.shiftl 1 15.
End DescFlag.

Record QueueReg := mkQueueReg {
  qr_size : Z; qr_desc : Z; qr_driver : Z; qr_device : Z; qr_enabled : bool
}.

Record DescChain := mkChain {
  chain_id : Z;
  chain_delta : Z;
  readable : list (Z * Z);   (* host address and length *)
  writable : list (Z * Z)
}.

Abbreviation hostmem := (gmap Z Z).
Abbreviation ram := (list (Slot ArcMemPages)).

(** A field behind a raw pointer. *)
Definition hload (m : hostmem) (a n : Z) : Z := le_val (hread m a n).
Definition hstore (m : hostmem) (a : Z) (n : nat) (v : Z) : hostmem := hwrite m a (le_bytes n v).

Section HostFields.
Implicit Types (m : hostmem).

Lemma hget_hwrite_out m a bs x :
  x < a ∨ a + Z.of_nat (length bs) ≤ x → hget (hwrite m a bs) x = hget m x.
Proof.
  intros Hx. rewrite hwrite_store. apply store_frame. rewrite elem_of_seqZ. lia.
Qed.

Lemma hread_ext m m' a n : (∀ x, a ≤ x < a + n → hget m' x = hget m x) → hread m' a n = hread m a n.
Proof.
  intros Hx. unfold hread. apply list_fmap_ext. intros i x Hi.
  apply lookup_seqZ in Hi as [-> ?]. apply Hx. lia.
Qed.

Lemma hread_hwrite m a bs : hread (hwrite m a bs) a (Z.of_nat (length bs)) = bs.
Proof.
  unfold hread. apply list_eq. intros i. rewrite list_lookup_fmap, hwrite_store.
  destruct (seqZ a (Z.of_nat (length bs)) !! i) as [x|] eqn:Ei; cbn.
  - destruct (lookup_lt_is_Some_2 bs i) as [b Hb].
    { apply lookup_seqZ in Ei as [_ ?]. lia. }
    rewrite Hb. f_equal. eapply store_lookup; eauto using NoDup_seqZ.
  - symmetry. apply lookup_ge_None_2. apply lookup_ge_None_1 in Ei. rewrite length_seqZ in Ei. lia.
Qed.

Lemma hload_hstore m a (n : nat) v : hload (hstore m a n v) a (Z.of_nat n) = wrap (8 * Z.of_nat n) v.
Proof.
  unfold hload, hstore.
  pose proof (hread_hwrite m a (le_bytes n v)) as Hr. rewrite le_bytes_length in Hr.
  by rewrite Hr, le_val_bytes.
Qed.

Lemma hload_ext m m' a n : (∀ x, a ≤ x < a + n → hget m' x = hget m x) → hload m' a n = hload m a n.
Proof. intros Hx. unfold hload. f_equal. by apply hread_ext. Qed.

Lemma hload_hstore_out m a (n : nat) v b k :
  b + k ≤ a ∨ a + Z.of_nat n ≤ b → hload (hstore m a n v) b k = hload m b k.
Proof.
  intros Hd. apply hload_ext. intros x Hx. apply hget_hwrite_out. rewrite le_bytes_length. lia.
Qed.
End HostFields.

(** [trait VirtQueue].  Loops over a ring the guest controls take fuel: [None] is a
    call that has not returned. *)
Class VirtQueue (Q Index : Type) := {
  INIT_INDEX : Index;
  desc_avail : Q → hostmem → Index → bool;
  get_avail : nat → Q → ram → hostmem → Index → option (outcome virtio_error (option DescChain));
  set_used : Q → Index → Z → Z → hostmem → hostmem;
  enable_notification : nat → Q → bool → hostmem → option hostmem;
  interrupt_enabled : Q → hostmem → Index → Z → bool;
  index_add : Q → Index → Z → Index
}.

(** virtio/virtio.rs, [trait IrqSender]: what a queue uses. *)
Class IrqSender (I : Type) := queue_irq : Z → I → I.

Inductive Status := Done (len : Z) | Deferred | Break.

Record Queue (Q Index : Type) := mkQueue {
  q : Q;
  avail : Index;
  used : Index;
  deferred : gmap Z DescChain
}.
Arguments mkQueue {Q Index} _ _ _ _.
Arguments q {Q Index} _.
Arguments avail {Q Index} _.
Arguments used {Q Index} _.
Arguments deferred {Q Index} _.

(** How the inner loop ends. *)
Inductive flow := Drained | BreakOut (ret : outcome virtio_error unit) | Return (ret : outcome virtio_error unit).

Section Queue.
Context {Q Index I OpS : Type} `{VirtQueue Q Index} `{IrqSender I}.
(** The closure [op]: its own state, guest memory, the chain. *)
Variable op : DescChain → OpS * hostmem → (OpS * hostmem) * DescChain * outcome virtio_error Status.
Variable r : ram.
Implicit Types (qu : Queue Q Index) (m : hostmem) (o : OpS).

Definition Queue_new (qq : Q) : Queue Q Index := mkQueue qq INIT_INDEX INIT_INDEX ∅.

Definition push_used qu m (chain : DescChain) (len : Z) : Queue Q Index * hostmem :=
  (mkQueue (q qu) (avail qu) (index_add (q qu) (used qu) (chain_delta chain)) (deferred qu),
   set_used (q qu) (used qu) (chain_id chain) len m).

Definition advance qu (delta : Z) : Queue Q Index :=
  mkQueue (q qu) (index_add (q qu) (avail qu) delta) (used qu) (deferred qu).

(** [handle_deferred]; the closure returns the length written. *)
Definition handle_deferred
  (fin : DescChain → OpS * hostmem → (OpS * hostmem) * DescChain * outcome virtio_error Z)
  qu m o (irq : I) (id q_index : Z)
  : (Queue Q Index * hostmem * OpS * I) * outcome virtio_error unit :=
  match deferred qu !! id with
  | None => ((qu, m, o, irq), Err (InvalidDescriptor id))
  | Some chain =>
      let qu1 := mkQueue (q qu) (avail qu) (used qu) (delete id (deferred qu)) in
      let '((o1, m1), chain1, res) := fin chain (o, m) in
      match res with
      | Err e => ((qu1, m1, o1, irq), Err e)
      | Panic => ((qu1, m1, o1, irq), Panic)
      | Ok len =>
          let delta := chain_delta chain1 in
          let '(qu2, m2) := push_used qu1 m1 chain1 len in
          let irq' := if interrupt_enabled (q qu2) m2 (used qu2) delta
                      then queue_irq q_index irq else irq in
          ((qu2, m2, o1, irq'), Ok tt)
      end
  end.

(** What the loops of [handle_desc] carry: the queue, memory, the closure's state
    and [send_irq]. *)
Record loop_state := mkLoop { l_q : Queue Q Index; l_mem : hostmem; l_op : OpS; l_irq : bool }.

(** The body of [while let Some(mut chain) = self.q.get_avail(..)?]. *)
Fixpoint serve (fuel : nat) (s : loop_state) : option (loop_state * flow) :=
  match fuel with
  | O => None
  | S fuel' =>
      let qu := l_q s in
      match get_avail fuel (q qu) r (l_mem s) (avail qu) with
      | None => None
      | Some (Err e) => Some (s, Return (Err e))
      | Some Panic => Some (s, Return Panic)
      | Some (Ok None) => Some (s, Drained)
      | Some (Ok (Some chain)) =>
          let delta := chain_delta chain in
          let '((o1, m1), chain1, res) := op chain (l_op s, l_mem s) in
          match res with
          | Panic => Some (mkLoop qu m1 o1 (l_irq s), Return Panic)
          | Err e =>
              (λ m2, (mkLoop qu m2 o1 (l_irq s), BreakOut (Err e)))
                <$> enable_notification fuel (q qu) true m1
          | Ok Break => Some (mkLoop qu m1 o1 (l_irq s), BreakOut (Ok tt))
          | Ok (Done len) =>
              let '(qu1, m2) := push_used qu m1 chain1 len in
              let send := l_irq s || interrupt_enabled (q qu1) m2 (used qu1) delta in
              serve fuel' (mkLoop (advance qu1 delta) m2 o1 send)
          | Ok Deferred =>
              let qu1 := mkQueue (q qu) (avail qu) (used qu)
                           (<[chain_id chain1 := chain1]> (deferred qu)) in
              serve fuel' (mkLoop (advance qu1 delta) m1 o1 (l_irq s))
          end
      end
  end.

(** ['out: loop]. *)
Fixpoint out_loop (fuel : nat) (s : loop_state) : option (loop_state * flow) :=
  match fuel with
  | O => None
  | S fuel' =>
      if negb (desc_avail (q (l_q s)) (l_mem s) (avail (l_q s))) then Some (s, BreakOut (Ok tt))
      else
        match enable_notification fuel (q (l_q s)) false (l_mem s) with
        | None => None
        | Some m1 =>
            match serve fuel (mkLoop (l_q s) m1 (l_op s) (l_irq s)) with
            | Some (s2, Drained) =>
                match enable_notification fuel (q (l_q s2)) true (l_mem s2) with
                | None => None
                | Some m3 => out_loop fuel' (mkLoop (l_q s2) m3 (l_op s2) (l_irq s2))
                end
            | other => other
            end
        end
  end.

Definition handle_desc (fuel : nat) qu m o (irq : I) (q_index : Z)
  : option ((Queue Q Index * hostmem * OpS * I) * outcome virtio_error unit) :=
  match out_loop fuel (mkLoop qu m o false) with
  | None => None
  | Some (s, Return ret) => Some ((l_q s, l_mem s, l_op s, irq), ret)
  | Some (s, BreakOut ret) =>
      Some ((l_q s, l_mem s, l_op s, if l_irq s then queue_irq q_index irq else irq), ret)
  | Some (s, Drained) => Some ((l_q s, l_mem s, l_op s, irq), Panic)   (* not an exit of the loop *)
  end.
End Queue.
Arguments loop_state : clear implicits.

(** ** [copy_from_reader], [copy_to_writer] *)

Inductive io_result := IoOk (n : Z) | IoWouldBlock | IoError.

(** [Read::read_vectored] and [Write::write_vectored] of what a device copies. *)
Class ReadVectored (R : Type) := read_vectored : list (Z * Z) → R * hostmem → (R * hostmem) * io_result.
Class WriteVectored (W : Type) := write_vectored : list (Z * Z) → W * hostmem → (W * hostmem) * io_result.

Definition iov_size (iov : list (Z * Z)) : Z := foldr Z.add 0 (snd <$> iov).

Definition copy_from_reader {R} `{ReadVectored R} (chain : DescChain) (s : R * hostmem)
  : (R * hostmem) * DescChain * outcome virtio_error Status :=
  let '(s', ret) := read_vectored (writable chain) s in
  (s', chain,
   match ret with
   | IoOk n => if n =? 0 then if iov_size (writable chain) =? 0 then Ok (Done 0) else Ok Break
               else Ok (Done (u32 n))
   | IoWouldBlock => Ok Break
   | IoError => Err VSystem
   end).

Definition copy_to_writer {W} `{WriteVectored W} (chain : DescChain) (s : W * hostmem)
  : (W * hostmem) * DescChain * outcome virtio_error Status :=
  let '(s', ret) := write_vectored (readable chain) s in
  (s', chain,
   match ret with
   | IoOk n => if n =? 0 then if iov_size (readable chain) =? 0 then Ok (Done 0) else Ok Break
               else Ok (Done 0)
   | IoWouldBlock => Ok Break
   | IoError => Err VSystem
   end).

(** ** What a ring promises *)

(** Two memories that differ at most inside an area. *)
Definition agree_off (area : Z → Prop) (m m' : hostmem) : Prop :=
  ∀ a, ¬ area a → hget m' a = hget m a.

Lemma agree_off_refl area m : agree_off area m m.
Proof. by intros a Ha. Qed.

Lemma agree_off_trans area m1 m2 m3 :
  agree_off area m1 m2 → agree_off area m2 m3 → agree_off area m1 m3.
Proof. intros H1 H2 a Ha. by rewrite H2, H1. Qed.

Lemma agree_off_mono (area area' : Z → Prop) m m' :
  (∀ a, area a → area' a) → agree_off area m m' → agree_off area' m m'.
Proof. intros Hs H a Ha. apply H. auto. Qed.

Create HintDb agree.
#[export] Hint Resolve agree_off_refl agree_off_trans : agree.

(** Laws of an implementation whose well-formed queues ([queue_ok]) are written by the
    device only inside [dev_area]. *)
Class VirtQueueLaws (Q Index : Type) `{VirtQueue Q Index} := {
  queue_ok : Q → Prop;
  dev_area : Q → Z → Prop;
  get_avail_idle fuel qq r m i :
    desc_avail qq m i = false → get_avail fuel qq r m i = Some (Ok None);
  get_avail_busy fuel qq r m i c :
    get_avail fuel qq r m i = Some (Ok (Some c)) → desc_avail qq m i = true;
  get_avail_mono fuel fuel' qq r m i x :
    (fuel ≤ fuel')%nat → get_avail fuel qq r m i = Some x → get_avail fuel' qq r m i = Some x;
  set_used_frame qq i id len m :
    queue_ok qq → agree_off (dev_area qq) m (set_used qq i id len m);
  notify_returns fuel qq b m :
    queue_ok qq → (0 < fuel)%nat →
    ∃ m', enable_notification fuel qq b m = Some m' ∧ agree_off (dev_area qq) m m' ∧
          enable_notification 1 qq b m = Some m'
}.

Section Pending.
Context {Q Index : Type} `{HV : VirtQueue Q Index}.

(** The chains the driver has made available from index [i] on, in ring order. *)
Inductive pending (fuel : nat) (qq : Q) (r : ram) (m : hostmem) : Index → list DescChain → Prop :=
| pending_nil i : desc_avail qq m i = false → pending fuel qq r m i []
| pending_cons i c cs :
    get_avail fuel qq r m i = Some (Ok (Some c)) →
    pending fuel qq r m (index_add qq i (chain_delta c)) cs → pending fuel qq r m i (c :: cs).
End Pending.

Section Serve.
Context {Q Index I OpS : Type} `{HV : VirtQueue Q Index} `{!VirtQueueLaws Q Index} `{IrqSender I}.
Variable op : DescChain → OpS * hostmem → (OpS * hostmem) * DescChain * outcome virtio_error Status.
Variable r : ram.
(** Where the device and the closure write: the used area and the buffers. *)
Variable area : Z → Prop.

(** The closure completes or defers each chain, hands the chain back with its identity, and
    writes only inside [area]. *)
Definition op_serves : Prop :=
  ∀ c o m, let '((_, m1), c1, res) := op c (o, m) in
    agree_off area m m1 ∧ chain_id c1 = chain_id c ∧ chain_delta c1 = chain_delta c ∧
    match res with Ok (Done _) | Ok Deferred => True | _ => False end.

(** Serving one chain, without the loop around it. *)
Definition process (s : loop_state Q Index OpS) (c : DescChain) : loop_state Q Index OpS :=
  let '((o1, m1), c1, res) := op c (l_op s, l_mem s) in
  match res with
  | Ok (Done len) =>
      let '(qu1, m2) := push_used (l_q s) m1 c1 len in
      mkLoop (advance qu1 (chain_delta c)) m2 o1
        (l_irq s || interrupt_enabled (q qu1) m2 (used qu1) (chain_delta c))
  | _ =>
      mkLoop (advance (mkQueue (q (l_q s)) (avail (l_q s)) (used (l_q s))
                         (<[chain_id c1 := c1]> (deferred (l_q s)))) (chain_delta c))
        m1 o1 (l_irq s)
  end.

(** A call of [handle_desc] as the sequence of chains it serves. *)
Definition handle_reference (qu : Queue Q Index) (m : hostmem) (o : OpS) (irq : I) (q_index : Z)
  (cs : list DescChain) : Queue Q Index * hostmem * OpS * I :=
  match cs with
  | [] => (qu, m, o, irq)
  | _ =>
      let m0 := default m (enable_notification 1 (q qu) false m) in
      let s := foldl process (mkLoop qu m0 o false) cs in
      (l_q s, default (l_mem s) (enable_notification 1 (q qu) true (l_mem s)), l_op s,
       if l_irq s then queue_irq q_index irq else irq)
  end.

Variable qq : Q.
Hypothesis Hqq : queue_ok qq.
Hypothesis Harea : ∀ a, dev_area qq a → area a.
Hypothesis Hop : op_serves.

Lemma process_frame s c :
  q (l_q s) = qq →
  q (l_q (process s c)) = qq ∧
  avail (l_q (process s c)) = index_add qq (avail (l_q s)) (chain_delta c) ∧
  agree_off area (l_mem s) (l_mem (process s c)).
Proof.
  intros Hq. unfold process. pose proof (Hop c (l_op s) (l_mem s)) as Hc.
  destruct (op c (l_op s, l_mem s)) as [[[o1 m1] c1] res]. destruct Hc as (Hm&_&_&Hres).
  destruct res as [[len| |]| |]; try done; cbn; rewrite Hq; split_and!; try done.
  eapply agree_off_trans; [done|]. eapply agree_off_mono; [|by apply set_used_frame]. done.
Qed.

Lemma pending_head fuel fuel' m i c cs :
  (fuel ≤ fuel')%nat → pending fuel qq r m i (c :: cs) →
  get_avail fuel' qq r m i = Some (Ok (Some c)).
Proof. intros Hf Hp. inversion Hp; subst. by eapply get_avail_mono. Qed.

Lemma serve_step fuel s c :
  q (l_q s) = qq → get_avail (S fuel) qq r (l_mem s) (avail (l_q s)) = Some (Ok (Some c)) →
  serve op r (S fuel) s = serve op r fuel (process s c).
Proof.
  intros Hq Hg. cbn [serve]. rewrite Hq, Hg. unfold process.
  pose proof (Hop c (l_op s) (l_mem s)) as Hc.
  destruct (op c (l_op s, l_mem s)) as [[[o1 m1] c1] res]. destruct Hc as (_&_&_&Hres).
  by destruct res as [[len| |]| |]; try done; cbn; rewrite ?Hq.
Qed.

Lemma serve_pending cs : ∀ n fuel s,
  q (l_q s) = qq → (n + length cs < fuel)%nat →
  (∀ m', agree_off area (l_mem s) m' → pending n qq r m' (avail (l_q s)) cs) →
  serve op r fuel s = Some (foldl process s cs, Drained) ∧
  q (l_q (foldl process s cs)) = qq ∧
  agree_off area (l_mem s) (l_mem (foldl process s cs)) ∧
  (∀ m', agree_off area (l_mem s) m' →
     desc_avail qq m' (avail (l_q (foldl process s cs))) = false).
Proof.
  induction cs as [|c cs IH]; intros n fuel s Hq Hf Hst; (destruct fuel as [|fuel]; [cbn in *; lia|]).
  - assert (∀ m', agree_off area (l_mem s) m' → desc_avail qq m' (avail (l_q s)) = false) as Hd
      by (intros m' Hm; specialize (Hst m' Hm); by inversion Hst).
    cbn. rewrite Hq, get_avail_idle by auto with agree. split_and!; auto with agree.
  - pose proof (process_frame s c Hq) as (Hq'&Ha'&Hm').
    rewrite (serve_step fuel s c Hq) by
      (eapply pending_head; [|apply Hst; auto with agree]; cbn in *; lia).
    destruct (IH n fuel (process s c) Hq') as (Es&?&Hag&Hd).
    + cbn in Hf. lia.
    + intros m' Hm. rewrite Ha'.
      pose proof (Hst m' (agree_off_trans _ _ _ _ Hm' Hm)) as Hp. inversion Hp as [|? ? ? Hg Hp']; subst.
      done.
    + cbn. split_and!; try done; [by eauto with agree|].
      intros m' Hm. apply Hd. intros a Ha. rewrite Hm, Hm'; done.
Qed.

Lemma handle_pending n fuel qu m o irq q_index cs :
  q qu = qq → (n + length cs + 2 < fuel)%nat →
  (∀ m', agree_off area m m' → pending n qq r m' (avail qu) cs) →
  handle_desc op r fuel qu m o irq q_index
    = Some (handle_reference qu m o irq q_index cs, Ok tt) ∧
  desc_avail qq (handle_reference qu m o irq q_index cs).1.1.2
    (avail (handle_reference qu m o irq q_index cs).1.1.1) = false.
Proof.
  intros Hq Hf Hst. pose proof (Hst m (agree_off_refl _ _)) as Hp.
  destruct fuel as [|fuel]; [lia|]. unfold handle_desc, handle_reference.
  destruct cs as [|c cs].
  - inversion Hp as [? Hd|]; subst. cbn. by rewrite Hd.
  - assert (desc_avail qq m (avail qu) = true) as Hb by (inversion Hp; by eapply get_avail_busy).
    cbn [out_loop l_q l_mem l_op l_irq]. rewrite Hq, Hb. cbn [negb].
    destruct (notify_returns (S fuel) qq false m Hqq) as (m0&->&Hm0&->); [lia|]. cbn [default].
    assert (agree_off area m m0) as Hm0' by by eapply agree_off_mono.
    destruct (serve_pending (c :: cs) n (S fuel) (mkLoop qu m0 o false)) as (->&Hq'&Hag&Hd);
      [done|cbn in *; lia|intros m' Hm'; apply Hst; by eauto with agree|].
    cbn [l_mem] in Hag, Hd. set (s' := foldl process _ _) in *.
    cbv beta iota. rewrite Hq'. destruct (notify_returns (S fuel) qq true (l_mem s') Hqq) as (m3&->&Hm3&->); [lia|].
    assert (desc_avail qq m3 (avail (l_q s')) = false) as Hd3.
    { apply Hd. eapply agree_off_trans; [done|]. by eapply agree_off_mono. }
    destruct fuel as [|fuel]; [cbn in *; lia|]. clearbody s'.
    cbn. rewrite Hq', Hd3. done.
Qed.
End Serve.
