(* ===== verification/SplitQueue.v ===== *)
(** * The split virtqueue: virtio/queue/split.rs

    Descriptor table, available and used ring in guest memory, reached through host
    pointers; and that it keeps the promises of [VirtQueue]. *)

From S2P Require Import Prelude Utils MemTypes Addressable Mapped VirtQueue.

(** [struct Desc]: addr, len, flag, next. *)
Record Desc := mkDesc { d_addr : Z; d_len : Z; d_flag : Z; d_next : Z }.
Definition DESC_SIZE : Z := 16.
Definition AVAIL_HEADER_SIZE : Z := 4.
Definition USED_HEADER_SIZE : Z := 4.
Definition USED_ELEM_SIZE : Z := 8.

Definition Desc_of_bytes (bs : list Z) : Desc :=
  mkDesc (le_val (take 8 bs)) (le_val (take 4 (drop 8 bs)))
    (le_val (take 2 (drop 12 bs))) (le_val (take 2 (drop 14 bs))).

Record SplitQueue := mkSplit {
  sq_size : Z;
  avail_hdr : Z;
  avail_ring : Z;
  used_event_ptr : option Z;
  used_hdr : Z;
  used_ring : Z;
  avail_event_ptr : option Z;
  desc_table : Z
}.

Module Split.
Section Ops.
Implicit Types (sq : SplitQueue) (m : hostmem).

Definition avail_index sq m : Z := hload m (avail_hdr sq + 2) 2.
Definition set_used_index sq (val : Z) m : hostmem := hstore m (used_hdr sq + 2) 2 val.
Definition used_event sq m : option Z := (λ e, hload m e 2) <$> used_event_ptr sq.
Definition set_flag_notification sq (enabled : bool) m : hostmem :=
  hstore m (used_hdr sq) 2 (if enabled then 0 else 1).
Definition flag_interrupt_enabled sq m : bool := hload m (avail_hdr sq) 2 =? 0.

Definition get_desc sq m (id : Z) : outcome virtio_error Desc :=
  if id <? sq_size sq then Ok (Desc_of_bytes (hread m (desc_table sq + id * DESC_SIZE) DESC_SIZE))
  else Err (InvalidDescriptor id).

Definition get_ptr (r : ram) (size_t align_t gpa : Z) : outcome virtio_error Z :=
  map_err VMemory (Ram_get_ptr r size_t align_t gpa).

Definition new (reg : QueueReg) (r : ram) (event_idx : bool) : outcome virtio_error (option SplitQueue) :=
  if negb (qr_enabled reg) then Ok None
  else
    let size := qr_size reg in
    let used := qr_device reg in
    let avail := qr_driver reg in
    events ← (if event_idx then
                a ← get_ptr r 2 2 (u64 (used + USED_HEADER_SIZE + size * USED_ELEM_SIZE));
                u ← get_ptr r 2 2 (u64 (avail + AVAIL_HEADER_SIZE + size * 2));
                Ok (Some a, Some u)
              else Ok (None, None));
    uh ← get_ptr r USED_HEADER_SIZE 4 used;
    ah ← get_ptr r AVAIL_HEADER_SIZE 2 avail;
    ar ← get_ptr r 2 2 (u64 (avail + AVAIL_HEADER_SIZE));
    ur ← get_ptr r USED_ELEM_SIZE 4 (u64 (used + USED_HEADER_SIZE));
    dt ← get_ptr r DESC_SIZE 16 (qr_desc reg);
    Ok (Some (mkSplit size ah ar (snd events) uh ur (fst events) dt)).

(** [index - avail_index >= !(size - 1)], at sixteen bits. *)
Definition desc_avail sq m (index : Z) : bool :=
  (index <? avail_index sq m) ||
  (bnot 16 (u16 (sq_size sq - 1)) <=? index - avail_index sq m).

(** The buffers collected on the way: readable, writable. *)
Definition push_buf (d : Desc) (rw : list (Z * Z) * list (Z * Z)) : list (Z * Z) * list (Z * Z) :=
  if contains (d_flag d) DescFlag.WRITE then (fst rw, snd rw ++ [(d_addr d, d_len d)])
  else (fst rw ++ [(d_addr d, d_len d)], snd rw).

(** The inner [loop] over an indirect table. *)
Fixpoint indirect_loop (fuel : nat) (r : ram) m (table id : Z) rw
  : option (outcome virtio_error (list (Z * Z) * list (Z * Z))) :=
  match fuel with
  | O => None
  | S fuel' =>
      match Ram_read_t r m 16 (u64 (table + id * DESC_SIZE)) with
      | Err e => Some (Err (VMemory e))
      | Panic => Some Panic
      | Ok bs =>
          let d := Desc_of_bytes bs in
          if contains (d_flag d) DescFlag.INDIRECT then Some Panic
          else
            let rw' := push_buf d rw in
            if contains (d_flag d) DescFlag.NEXT then indirect_loop fuel' r m table (d_next d) rw'
            else Some (Ok rw')
      end
  end.

(** The outer [loop] along the chain. *)
Fixpoint chain_loop (fuel : nat) sq (r : ram) m (id : Z) rw
  : option (outcome virtio_error (list (Z * Z) * list (Z * Z))) :=
  match fuel with
  | O => None
  | S fuel' =>
      match get_desc sq m id with
      | Err e => Some (Err e)
      | Panic => Some Panic
      | Ok d =>
          match (if contains (d_flag d) DescFlag.INDIRECT
                 then indirect_loop fuel r m (d_addr d) 0 rw
                 else Some (Ok (push_buf d rw))) with
          | Some (Ok rw') =>
              if contains (d_flag d) DescFlag.NEXT then chain_loop fuel' sq r m (d_next d) rw'
              else Some (Ok rw')
          | other => other
          end
      end
  end.

Definition head_id sq m (index : Z) : Z :=
  hload m (avail_ring sq + Z.land index (u16 (sq_size sq - 1)) * 2) 2.

Definition get_avail (fuel : nat) sq (r : ram) m (index : Z)
  : option (outcome virtio_error (option DescChain)) :=
  if negb (desc_avail sq m index) then Some (Ok None)
  else
    (λ res : outcome virtio_error _,
      rw ← res;
      rd ← map_err VMemory (translate_iov r (fst rw));
      wr ← map_err VMemory (translate_iov r (snd rw));
      Ok (Some (mkChain (head_id sq m index) 1 rd wr)))
      <$> chain_loop fuel sq r m (head_id sq m index) ([], []).

Definition set_used sq (index id len : Z) m : hostmem :=
  let a := used_ring sq + Z.land index (u16 (sq_size sq - 1)) * USED_ELEM_SIZE in
  let m1 := hwrite m a (le_bytes 4 id ++ le_bytes 4 len) in
  set_used_index sq (u16 (index + 1)) m1.

(** The loop that publishes [avail_event]; [drv k] is what the driver does to memory
    between the store and the load of iteration [k]. *)
Fixpoint notify_loop (drv : nat → hostmem → hostmem) (fuel k : nat) sq (event idx : Z) m
  : option hostmem :=
  match fuel with
  | O => None
  | S fuel' =>
      let m1 := drv k (hstore m event 2 idx) in
      let new_idx := avail_index sq m1 in
      if new_idx =? idx then Some m1 else notify_loop drv fuel' (S k) sq event new_idx m1
  end.

Definition enable_notification_with (drv : nat → hostmem → hostmem) (fuel : nat) sq (enabled : bool) m
  : option hostmem :=
  match avail_event_ptr sq with
  | Some event =>
      if enabled then notify_loop drv fuel 0 sq event (avail_index sq m) m
      else Some (hstore m event 2 (u16 (avail_index sq m - 1)))
  | None => Some (set_flag_notification sq enabled m)
  end.

Definition enable_notification := enable_notification_with (λ _ m, m).

Definition interrupt_enabled sq m (index delta : Z) : bool :=
  match used_event sq m with
  | Some e => e =? u16 (index - 1)
  | None => flag_interrupt_enabled sq m
  end.

Definition index_add sq (index delta : Z) : Z := u16 (index + 1).
End Ops.
End Split.

#[export] Instance SplitQueue_VirtQueue : VirtQueue SplitQueue Z := {
  INIT_INDEX := 0;
  desc_avail := Split.desc_avail;
  get_avail := Split.get_avail;
  set_used := Split.set_used;
  enable_notification := Split.enable_notification;
  interrupt_enabled := Split.interrupt_enabled;
  index_add := Split.index_add
}.

(** ** The promises of a ring *)

Section Laws.
Implicit Types (sq : SplitQueue) (m : hostmem).

(** A size the driver may choose, and [avail_event] apart from the available index. *)
Definition split_ok sq : Prop :=
  1 ≤ sq_size sq ≤ 32768 ∧
  match avail_event_ptr sq with
  | Some e => e + 2 ≤ avail_hdr sq + 2 ∨ avail_hdr sq + 4 ≤ e
  | None => True
  end.

Definition range (a n x : Z) : Prop := a ≤ x < a + n.

Definition split_dev_area sq (x : Z) : Prop :=
  range (used_hdr sq) USED_HEADER_SIZE x ∨ range (used_ring sq) (sq_size sq * USED_ELEM_SIZE) x ∨
  match avail_event_ptr sq with Some e => range e 2 x | None => False end.

Lemma slot_bound sq index :
  1 ≤ sq_size sq ≤ 32768 → 0 ≤ Z.land index (u16 (sq_size sq - 1)) < sq_size sq.
Proof.
  intros Hs. rewrite (wrap_small 16) by (unfold in_u; lia).
  assert (0 ≤ Z.land index (sq_size sq - 1)) by (apply Z.land_nonneg; lia).
  split; [done|]. enough (Z.land index (sq_size sq - 1) ≤ sq_size sq - 1) by lia.
  apply Z.ldiff_le; [lia|]. bitblast.
Qed.

Lemma indirect_loop_mono fuel : ∀ fuel' r m table id rw x,
  (fuel ≤ fuel')%nat → Split.indirect_loop fuel r m table id rw = Some x →
  Split.indirect_loop fuel' r m table id rw = Some x.
Proof.
  induction fuel as [|fuel IH]; intros fuel' r m table id rw x Hf Hx; [done|].
  destruct fuel' as [|fuel']; [lia|]. cbn [Split.indirect_loop] in *.
  repeat case_match; try done. apply IH; [lia|done].
Qed.

Lemma chain_loop_mono fuel : ∀ fuel' sq r m id rw x,
  (fuel ≤ fuel')%nat → Split.chain_loop fuel sq r m id rw = Some x →
  Split.chain_loop fuel' sq r m id rw = Some x.
Proof.
  induction fuel as [|fuel IH]; intros fuel' sq r m id rw x Hf Hx; [done|].
  destruct fuel' as [|fuel']; [lia|]. cbn [Split.chain_loop] in *.
  destruct (Split.get_desc sq m id) as [d|e|]; try done.
  destruct (contains (d_flag d) DescFlag.INDIRECT).
  - destruct (Split.indirect_loop (S fuel) _ _ _ _ _) as [y|] eqn:Ei; [|done].
    rewrite (indirect_loop_mono _ (S fuel') _ _ _ _ _ _ Hf Ei).
    destruct y; try done. case_match; [|done]. apply IH; [lia|done].
  - case_match; [|done]. apply IH; [lia|done].
Qed.

Lemma split_set_used_frame sq index id len m :
  split_ok sq → agree_off (split_dev_area sq) m (Split.set_used sq index id len m).
Proof.
  intros [Hs _] a Ha. pose proof (slot_bound sq index Hs) as Hb.
  unfold Split.set_used, Split.set_used_index, hstore. cbn zeta.
  unfold split_dev_area, range, USED_HEADER_SIZE, USED_ELEM_SIZE in *.
  rewrite !hget_hwrite_out; [done| |]; rewrite ?length_app, ?le_bytes_length; lia.
Qed.

Lemma notify_loop_quiet fuel sq event m :
  event + 2 ≤ avail_hdr sq + 2 ∨ avail_hdr sq + 4 ≤ event →
  Split.notify_loop (λ _ m, m) (S fuel) 0 sq event (Split.avail_index sq m) m
    = Some (hstore m event 2 (Split.avail_index sq m)).
Proof.
  intros He. cbn [Split.notify_loop]. unfold Split.avail_index at 1.
  rewrite hload_hstore_out by lia. by rewrite Z.eqb_refl.
Qed.

Lemma split_notify_returns fuel sq b m :
  split_ok sq → (0 < fuel)%nat →
  ∃ m', Split.enable_notification fuel sq b m = Some m' ∧ agree_off (split_dev_area sq) m m' ∧
        Split.enable_notification 1 sq b m = Some m'.
Proof.
  intros [_ He] Hf. destruct fuel as [|fuel]; [lia|].
  unfold Split.enable_notification, Split.enable_notification_with, split_dev_area.
  destruct (avail_event_ptr sq) as [e|].
  - destruct b; [rewrite !notify_loop_quiet by done|];
      (eexists; split_and!; [done| |done]);
      intros a Ha; apply hget_hwrite_out; rewrite le_bytes_length; unfold range in Ha; lia.
  - eexists; split_and!; [done| |done].
    intros a Ha; apply hget_hwrite_out; rewrite le_bytes_length.
    unfold range, USED_HEADER_SIZE in Ha. lia.
Qed.

#[export] Program Instance SplitQueue_Laws : VirtQueueLaws SplitQueue Z := {
  queue_ok := split_ok;
  dev_area := split_dev_area
}.
Next Obligation. intros fuel sq r m i Hd. cbn in *. unfold Split.get_avail. by rewrite Hd. Qed.
Next Obligation.
  intros fuel sq r m i c Hg. cbn in *. unfold Split.get_avail in Hg.
  by destruct (Split.desc_avail sq m i).
Qed.
Next Obligation.
  intros fuel fuel' sq r m i x Hf Hg. cbn in *. unfold Split.get_avail in *.
  destruct (Split.desc_avail sq m i); [|done]. cbn [negb] in *.
  destruct (Split.chain_loop fuel _ _ _ _ _) as [y|] eqn:Ec; [|done].
  by rewrite (chain_loop_mono _ fuel' _ _ _ _ _ _ Hf Ec).
Qed.
Next Obligation. intros. by apply split_set_used_frame. Qed.
Next Obligation. intros. by apply split_notify_returns. Qed.
End Laws.

(** ** The window of the available index *)

Lemma split_avail_spec sq m index :
  split_ok sq → in_u 16 index → in_u 16 (Split.avail_index sq m) →
  (Split.avail_index sq m - index) mod 2 ^ 16 ≤ sq_size sq →
  Split.desc_avail sq m index = negb (Split.avail_index sq m =? index).
Proof.
  intros [Hs _] Hi Ha Hw. unfold Split.desc_avail.
  rewrite (wrap_small 16) by (unfold in_u; lia). rewrite bnot_sub by (unfold in_u; lia).
  unfold in_u in *. change (2 ^ 16) with 65536 in *.
  destruct (Z.ltb_spec index (Split.avail_index sq m)); cbn [orb].
  - symmetry. apply negb_true_iff, Z.eqb_neq. lia.
  - destruct (Z.eqb_spec (Split.avail_index sq m) index) as [->|Hne]; cbn [negb].
    + apply Z.leb_gt. lia.
    + apply Z.leb_le.
      assert ((Split.avail_index sq m - index) mod 65536 = Split.avail_index sq m - index + 65536); [|lia].
      symmetry. apply (Z.mod_unique_pos _ _ (-1)); lia.
Qed.

(** ** Reading the rings while the device writes *)

Definition mem_u8 (m : hostmem) : Prop := map_Forall (λ _ b, in_u 8 b) m.
#[export] Instance mem_u8_dec m : Decision (mem_u8 m).
Proof. unfold mem_u8. apply _. Defined.

Lemma mem_u8_hread m a n : mem_u8 m → Forall (in_u 8) (hread m a n).
Proof.
  intros Hm. unfold hread. apply Forall_fmap, Forall_true. intros x. cbn. unfold hget.
  destruct (m !! x) as [b|] eqn:E; cbn; [by eapply Hm|done].
Qed.

Lemma mem_u8_hload m a n : mem_u8 m → 0 ≤ n → in_u (8 * n) (hload m a n).
Proof.
  intros Hm Hn. unfold hload.
  pose proof (le_val_in_u _ (mem_u8_hread m a n Hm)) as Hl. rewrite hread_length in Hl.
  by rewrite Z2Nat.id in Hl by lia.
Qed.

(** No descriptor of the table refers to an indirect one. *)
Definition direct (sq : SplitQueue) (m : hostmem) : Prop :=
  Forall (λ id, contains (d_flag (Desc_of_bytes (hread m (desc_table sq + id * DESC_SIZE) DESC_SIZE)))
                  DescFlag.INDIRECT = false) (seqZ 0 (sq_size sq)).

(** What the device reads: the available index, the available ring, the table. *)
Definition driver_area (sq : SplitQueue) (x : Z) : Prop :=
  range (avail_hdr sq + 2) 2 x ∨ range (avail_ring sq) (sq_size sq * 2) x ∨
  range (desc_table sq) (sq_size sq * DESC_SIZE) x.

Section Reads.
Variable sq : SplitQueue.
Variable r : ram.
Variable area : Z → Prop.
Variable m : hostmem.
Hypothesis Hok : split_ok sq.
Hypothesis Hu8 : mem_u8 m.
Hypothesis Hdir : direct sq m.
Hypothesis Hsep : ∀ x, driver_area sq x → ¬ area x.

Lemma avail_index_agree m' : agree_off area m m' → Split.avail_index sq m' = Split.avail_index sq m.
Proof.
  intros Ha. apply hload_ext. intros x Hx. apply Ha, Hsep. left. unfold range. lia.
Qed.

Lemma head_id_agree m' i : agree_off area m m' → Split.head_id sq m' i = Split.head_id sq m i.
Proof.
  intros Ha. apply hload_ext. intros x Hx. apply Ha, Hsep. right; left. unfold range.
  pose proof (slot_bound sq i (proj1 Hok)). lia.
Qed.

Lemma get_desc_agree m' id :
  agree_off area m m' → 0 ≤ id → Split.get_desc sq m' id = Split.get_desc sq m id.
Proof.
  intros Ha Hid. unfold Split.get_desc. destruct (Z.ltb_spec id (sq_size sq)); [|done].
  do 2 f_equal. apply hread_ext. intros x Hx. apply Ha, Hsep. right; right.
  unfold range, DESC_SIZE in *. nia.
Qed.

Lemma get_desc_direct id d :
  0 ≤ id → Split.get_desc sq m id = Ok d →
  contains (d_flag d) DescFlag.INDIRECT = false ∧ 0 ≤ d_next d.
Proof.
  intros Hid. unfold Split.get_desc. destruct (Z.ltb_spec id (sq_size sq)); [|done].
  intros [= <-]. split.
  - unfold direct in Hdir. rewrite Forall_forall in Hdir. apply Hdir, elem_of_seqZ. lia.
  - cbn [d_next Desc_of_bytes].
    assert (in_u (8 * Z.of_nat (length (take 2 (drop 14 (hread m (desc_table sq + id * DESC_SIZE) DESC_SIZE)))))
              (le_val (take 2 (drop 14 (hread m (desc_table sq + id * DESC_SIZE) DESC_SIZE)))))
      as [? _]; [|done].
    apply le_val_in_u. by apply Forall_take, Forall_drop, mem_u8_hread.
Qed.

Lemma chain_loop_agree m' fuel : agree_off area m m' → ∀ id rw, 0 ≤ id →
  Split.chain_loop fuel sq r m' id rw = Split.chain_loop fuel sq r m id rw.
Proof.
  intros Ha. induction fuel as [|fuel IH]; intros id rw Hid; [done|].
  cbn [Split.chain_loop]. rewrite get_desc_agree by done.
  destruct (Split.get_desc sq m id) as [d|e|] eqn:Ed; try done.
  destruct (get_desc_direct _ _ Hid Ed) as [-> Hn]. by case_match; [apply IH|].
Qed.

Lemma get_avail_agree m' fuel i :
  agree_off area m m' → Split.get_avail fuel sq r m' i = Split.get_avail fuel sq r m i.
Proof.
  intros Ha. unfold Split.get_avail, Split.desc_avail.
  rewrite avail_index_agree, head_id_agree by done. case_match; [done|].
  rewrite chain_loop_agree; [done..|]. by apply (mem_u8_hload m _ 2).
Qed.

(** The published chains are pending, whatever the device writes. *)
Lemma split_pending fuel m' cs : agree_off area m m' → ∀ index,
  in_u 16 index → (Split.avail_index sq m - index) mod 2 ^ 16 = Z.of_nat (length cs) →
  Z.of_nat (length cs) ≤ sq_size sq →
  (∀ (k : nat) c, cs !! k = Some c →
     Split.get_avail fuel sq r m (u16 (index + Z.of_nat k)) = Some (Ok (Some c))) →
  pending fuel sq r m' index cs.
Proof.
  intros Ha. pose proof (mem_u8_hload m (avail_hdr sq + 2) 2 Hu8 ltac:(lia)) as Hai.
  change (in_u 16 (Split.avail_index sq m)) in Hai.
  induction cs as [|c cs IH]; intros index Hi Hn Hs Hc.
  - constructor. cbn. unfold Split.desc_avail. rewrite avail_index_agree by done.
    change (Split.desc_avail sq m index = false). rewrite split_avail_spec by (done || cbn in *; lia).
    apply negb_false_iff, Z.eqb_eq. cbn in Hn. unfold in_u in *.
    change (2 ^ 16) with 65536 in *. pose proof (Z.div_mod (Split.avail_index sq m - index) 65536). lia.
  - constructor.
    + cbn. rewrite get_avail_agree by done. pose proof (Hc 0%nat c eq_refl) as H0.
      by rewrite Z.add_0_r, wrap_small in H0.
    + cbn [index_add SplitQueue_VirtQueue]. unfold Split.index_add. apply IH.
      * apply wrap_in_u. lia.
      * unfold wrap. rewrite Zminus_mod_idemp_r. rewrite length_cons in Hn.
        replace (Split.avail_index sq m - (index + 1)) with (Split.avail_index sq m - index - 1) by lia.
        rewrite <- Zminus_mod_idemp_l, Hn. rewrite Z.mod_small; [lia|].
        pose proof (proj1 Hok). rewrite length_cons in Hs. lia.
      * rewrite length_cons in Hs. lia.
      * intros k c' Hk. rewrite <- (Hc (S k) c' Hk). f_equal.
        unfold wrap. rewrite Zplus_mod_idemp_l. f_equal. lia.
Qed.
End Reads.

(** ** The used ring *)

Definition used_elem (sq : SplitQueue) (m : hostmem) (slot : Z) : Z * Z :=
  (hload m (used_ring sq + slot * USED_ELEM_SIZE) 4, hload m (used_ring sq + slot * USED_ELEM_SIZE + 4) 4).
Definition used_idx (sq : SplitQueue) (m : hostmem) : Z := hload m (used_hdr sq + 2) 2.

(** The used header, the used ring and [avail_event] do not overlap. *)
Definition used_layout (sq : SplitQueue) : Prop :=
  (used_hdr sq + 4 ≤ used_ring sq ∨ used_ring sq + sq_size sq * 8 ≤ used_hdr sq) ∧
  match avail_event_ptr sq with
  | Some e => (e + 2 ≤ used_hdr sq ∨ used_hdr sq + 4 ≤ e) ∧
              (e + 2 ≤ used_ring sq ∨ used_ring sq + sq_size sq * 8 ≤ e)
  | None => True
  end.

Lemma hread_app m a n1 n2 : 0 ≤ n1 → 0 ≤ n2 → hread m a (n1 + n2) = hread m a n1 ++ hread m (a + n1) n2.
Proof.
  intros. unfold hread. rewrite seqZ_app by done. by rewrite fmap_app.
Qed.

Section UsedRing.
Variable sq : SplitQueue.
Hypothesis Hok : split_ok sq.
Hypothesis Hlay : used_layout sq.
Implicit Types (m : hostmem).

Definition slot_of (index : Z) : Z := Z.land index (u16 (sq_size sq - 1)).

Lemma used_elem_ext m m' slot :
  0 ≤ slot < sq_size sq →
  (∀ x, range (used_ring sq) (sq_size sq * 8) x → hget m' x = hget m x) →
  used_elem sq m' slot = used_elem sq m slot.
Proof.
  intros Hs Hx. unfold used_elem, USED_ELEM_SIZE.
  f_equal; apply hload_ext; intros x Hr; apply Hx; unfold range; lia.
Qed.

Lemma set_used_idx i id len m : used_idx sq (Split.set_used sq i id len m) = u16 (i + 1).
Proof.
  unfold used_idx, Split.set_used, Split.set_used_index. cbn zeta.
  change 2 with (Z.of_nat 2) at 2. rewrite hload_hstore. by apply wrap_wrap.
Qed.

Lemma set_used_elem i id len m :
  in_u 32 id → in_u 32 len → used_elem sq (Split.set_used sq i id len m) (slot_of i) = (id, len).
Proof.
  intros Hid Hlen. pose proof (slot_bound sq i (proj1 Hok)) as Hb.
  set (a := used_ring sq + slot_of i * USED_ELEM_SIZE).
  set (m1 := hwrite m a (le_bytes 4 id ++ le_bytes 4 len)).
  transitivity (used_elem sq m1 (slot_of i)).
  - apply used_elem_ext; [done|]. intros x Hx. unfold Split.set_used, Split.set_used_index, hstore.
    cbn zeta. apply hget_hwrite_out. rewrite le_bytes_length. destruct Hlay as [Hl _].
    unfold range in Hx. lia.
  - pose proof (hread_hwrite m a (le_bytes 4 id ++ le_bytes 4 len)) as Hr.
    rewrite length_app, !le_bytes_length in Hr. change (Z.of_nat (4 + 4)) with (4 + 4) in Hr.
    rewrite hread_app in Hr by lia. apply app_inj_1 in Hr as [H1 H2];
      [|by rewrite hread_length, le_bytes_length].
    unfold used_elem, hload. fold m1 in H1, H2. fold a. rewrite H1, H2, !le_val_bytes, !wrap_small by done. done.
Qed.

Lemma set_used_elem_ne i id len m slot :
  0 ≤ slot < sq_size sq → slot ≠ slot_of i →
  used_elem sq (Split.set_used sq i id len m) slot = used_elem sq m slot.
Proof.
  intros Hs Hne. pose proof (slot_bound sq i (proj1 Hok)) as Hb. fold (slot_of i) in Hb.
  destruct Hlay as [Hl _]. unfold used_elem, Split.set_used, Split.set_used_index, hstore. cbn zeta.
  fold (slot_of i). unfold USED_ELEM_SIZE.
  f_equal; apply hload_ext; intros x Hx; rewrite !hget_hwrite_out; try done;
    rewrite ?length_app, ?le_bytes_length; lia.
Qed.

Lemma notify_used fuel b m m' :
  Split.enable_notification fuel sq b m = Some m' →
  used_idx sq m' = used_idx sq m ∧
  ∀ slot, 0 ≤ slot < sq_size sq → used_elem sq m' slot = used_elem sq m slot.
Proof.
  unfold Split.enable_notification, Split.enable_notification_with. intros E.
  destruct Hlay as [Hl He], Hok as [_ He'].
  assert (∀ x, used_hdr sq + 2 ≤ x < used_hdr sq + 4 ∨ range (used_ring sq) (sq_size sq * 8) x →
            hget m' x = hget m x) as Hx.
  { intros x Hx. unfold range in Hx. destruct (avail_event_ptr sq) as [e|].
    - destruct b; [destruct fuel; [done|]; rewrite notify_loop_quiet in E by done|];
        injection E as <-; apply hget_hwrite_out; rewrite le_bytes_length; lia.
    - injection E as <-. apply hget_hwrite_out. rewrite le_bytes_length. lia. }
  split; [apply hload_ext; intros; apply Hx; lia|].
  intros slot Hs. apply used_elem_ext; [done|]. auto.
Qed.

Lemma slot_mod k index :
  sq_size sq = 2 ^ k → 0 ≤ k ≤ 15 → slot_of (u16 index) = index mod sq_size sq.
Proof.
  intros Hk Hk'. unfold slot_of. pose proof (proj1 Hok).
  rewrite (wrap_small 16 (_ - 1)) by (unfold in_u; lia).
  replace (sq_size sq - 1) with (Z.ones k) by (rewrite Z.ones_equiv; lia).
  rewrite Z.land_ones, Hk by lia. apply (wrap_wrap k 16). lia.
Qed.
End UsedRing.
