(* ===== verification/SplitQueueThm.v ===== *)
(** * Correctness of the split virtqueue (virtio/queue/queue.rs, split.rs)

    The available window, the published notification event under a concurrent
    driver, and the loop of [handle_desc] over a split ring from the available ring to
    the used ring. *)

From S2P Require Import Prelude Utils MemTypes Addressable Mapped VirtQueue SplitQueue.

(** C22: With at most [size] buffers outstanding, the test [desc_avail] (an order test
    and a wrap-around test on 16-bit indices) holds exactly when the driver's available
    index differs from the device's. *)
Theorem split_available_window sq m index :
  split_ok sq → in_u 16 index → in_u 16 (Split.avail_index sq m) →
  (Split.avail_index sq m - index) mod 2 ^ 16 ≤ sq_size sq →
  Split.desc_avail sq m index = true ↔ Split.avail_index sq m ≠ index.
Proof.
  intros. rewrite split_avail_spec by done. by rewrite negb_true_iff, Z.eqb_neq.
Qed.

(** ** Publishing the notification event *)

Lemma mem_u8_hwrite m a bs : mem_u8 m → Forall (in_u 8) bs → mem_u8 (hwrite m a bs).
Proof.
  intros Hm Hb. revert m a Hm. induction Hb as [|b bs Hb _ IH]; intros m a Hm; [done|].
  apply IH. by apply map_Forall_insert_2.
Qed.

Lemma notify_loop_event sq e drv n :
  e + 2 ≤ avail_hdr sq + 2 ∨ avail_hdr sq + 4 ≤ e →
  (∀ k m, mem_u8 m → mem_u8 (drv k m)) →
  (∀ k m, hload (drv k m) e 2 = hload m e 2) →
  (∀ k m, (n ≤ k)%nat → Split.avail_index sq (drv k m) = Split.avail_index sq m) →
  ∀ d k m, mem_u8 m → (n ≤ k + d)%nat →
  ∃ m', Split.notify_loop drv (S d) k sq e (Split.avail_index sq m) m = Some m' ∧
        hload m' e 2 = Split.avail_index sq m'.
Proof.
  intros Hsep Hu8 Hev Hq. induction d as [|d IH]; intros k m Hm Hk;
    cbn [Split.notify_loop]; set (m1 := drv k _);
    assert (mem_u8 m1) as Hm1 by (apply Hu8, mem_u8_hwrite; auto using le_bytes_u8);
    assert (hload m1 e 2 = Split.avail_index sq m) as He by
      (unfold m1; rewrite Hev; rewrite (hload_hstore m e 2);
       apply wrap_small, (mem_u8_hload m (avail_hdr sq + 2) 2); [done|lia]).
  - assert (Split.avail_index sq m1 = Split.avail_index sq m) as Ei.
    { unfold m1. rewrite Hq by lia. by apply hload_hstore_out; lia. }
    rewrite Ei, Z.eqb_refl. exists m1. by rewrite He.
  - destruct (Z.eqb_spec (Split.avail_index sq m1) (Split.avail_index sq m)) as [Ei|_].
    + exists m1. by rewrite He.
    + apply IH; [done|lia].
Qed.

(** C21: No notification is lost.  While the device publishes [avail_event], the driver may
    add buffers between the store and the load of each iteration; if it pauses from
    iteration [n] on, the loop returns within [n + 1] iterations, and then the
    published event is the available index as it is in memory at that moment. *)
Theorem split_notification_event sq e (drv : nat → hostmem → hostmem) (n : nat) m :
  avail_event_ptr sq = Some e → split_ok sq → mem_u8 m →
  (∀ k m, mem_u8 m → mem_u8 (drv k m)) →
  (∀ k m, hload (drv k m) e 2 = hload m e 2) →
  (∀ k m, (n ≤ k)%nat → Split.avail_index sq (drv k m) = Split.avail_index sq m) →
  ∃ m', Split.enable_notification_with drv (S n) sq true m = Some m' ∧
        hload m' e 2 = Split.avail_index sq m'.
Proof.
  intros He [_ Hsep] Hm Hu8 Hev Hq. rewrite He in Hsep.
  unfold Split.enable_notification_with. rewrite He.
  by apply (notify_loop_event sq e drv n).
Qed.

(** ** Completions *)

Section Completions.
Context {I OpS : Type} `{IrqSender I}.
Variable op : DescChain → OpS * hostmem → (OpS * hostmem) * DescChain * outcome virtio_error Status.
Variable len : DescChain → Z.
Variable bufs : Z → Prop.
Variable sq : SplitQueue.

(** The closure completes every chain, writing only into buffers. *)
Definition op_completes : Prop :=
  ∀ c o m, ∃ o' m', op c (o, m) = ((o', m'), c, Ok (Done (len c))) ∧ agree_off bufs m m'.

(** Buffers lie outside the used ring and header. *)
Definition bufs_apart : Prop :=
  ∀ x, range (used_hdr sq) 4 x ∨ range (used_ring sq) (sq_size sq * 8) x → ¬ bufs x.

Hypothesis Hok : split_ok sq.
Hypothesis Hlay : used_layout sq.
Hypothesis Hop : op_completes.
Hypothesis Hbufs : bufs_apart.

Lemma bufs_used m m' slot :
  agree_off bufs m m' → 0 ≤ slot < sq_size sq → used_elem sq m' slot = used_elem sq m slot.
Proof. intros Ha Hs. apply used_elem_ext; [done|]. intros x Hx. apply Ha, Hbufs. auto. Qed.

Lemma completions k cs : ∀ s : loop_state SplitQueue Z OpS,
  q (l_q s) = sq → sq_size sq = 2 ^ k → 0 ≤ k ≤ 15 → in_u 16 (used (l_q s)) →
  Z.of_nat (length cs) ≤ sq_size sq →
  Forall (λ c, in_u 32 (chain_id c) ∧ in_u 32 (len c)) cs →
  let s' := foldl (process op) s cs in
  q (l_q s') = sq ∧
  used (l_q s') = u16 (used (l_q s) + Z.of_nat (length cs)) ∧
  avail (l_q s') = (if decide (cs = []) then avail (l_q s) else u16 (avail (l_q s) + Z.of_nat (length cs))) ∧
  (cs ≠ [] → used_idx sq (l_mem s') = used (l_q s')) ∧
  (∀ (j : nat) c, cs !! j = Some c →
     used_elem sq (l_mem s') ((used (l_q s) + Z.of_nat j) mod sq_size sq) = (chain_id c, len c)).
Proof.
  induction cs as [|c cs IH] using rev_ind; intros s Hq Hk Hk' Hu Hn Hc s'.
  { subst s'. cbn. rewrite Z.add_0_r, wrap_small by done. split_and!; done. }
  subst s'. rewrite length_app in Hn. rewrite foldl_app, length_app. cbn [foldl length].
  apply Forall_app in Hc as [Hcs [Hc _]%Forall_cons_1].
  cbn [length] in Hn. destruct (IH s Hq Hk Hk' Hu ltac:(lia) Hcs) as (IHq&IHu&IHa&_&IHe). clear IH.
  set (s1 := foldl (process op) s cs) in *. clearbody s1.
  unfold process at 1 2 3 4 5 6. destruct (Hop c (l_op s1) (l_mem s1)) as (o'&m'&->&Hm').
  cbn [push_used advance l_q l_mem q used avail fst snd set_used index_add SplitQueue_VirtQueue].
  rewrite IHq, IHu. unfold Split.index_add. split_and!; [done| | | |].
  - unfold wrap. rewrite Zplus_mod_idemp_l. f_equal. lia.
  - rewrite decide_False by by destruct cs. rewrite IHa. unfold wrap.
    case_decide; subst; cbn [length]; [f_equal; lia|].
    rewrite Zplus_mod_idemp_l. f_equal. lia.
  - intros _. by rewrite set_used_idx by done.
  - intros j c' Hj. pose proof (proj1 Hok). apply lookup_snoc_Some in Hj as [[Hj Hj']|[-> <-]].
    + rewrite set_used_elem_ne; [| done..| by apply Z.mod_pos_bound; lia|].
      * rewrite (bufs_used (l_mem s1)) by (done || apply Z.mod_pos_bound; lia). by apply IHe.
      * rewrite slot_mod with (k := k) by done. intros E.
        assert (((used (l_q s) + Z.of_nat j) - (used (l_q s) + Z.of_nat (length cs))) mod sq_size sq = 0)
          as Hz by (rewrite Zminus_mod, E, Z.sub_diag; by apply Z.mod_0_l; lia).
        apply Z.mod_divide in Hz; [|lia]. destruct Hz as [z Hz].
        clear - Hz Hj Hn. destruct (decide (0 ≤ z)); nia.
    + rewrite <- (slot_mod sq Hok k) by done. destruct Hc. by apply set_used_elem.
Qed.

Lemma get_avail_id n r m i c :
  mem_u8 m → Split.get_avail n sq r m i = Some (Ok (Some c)) → in_u 32 (chain_id c).
Proof.
  intros Hm. unfold Split.get_avail. case_match; [done|].
  destruct (Split.chain_loop _ _ _ _ _ _) as [[rw| |]|]; try done. cbn.
  destruct (map_err _ (translate_iov r rw.1)) as [rd| |]; try done. cbn.
  destruct (map_err _ (translate_iov r rw.2)) as [wr| |]; try done. cbn. intros [= <-].
  eapply (in_u_mono 16); [lia|]. by apply (mem_u8_hload m _ 2).
Qed.

Lemma op_completes_serves : op_completes → op_serves op (λ x, split_dev_area sq x ∨ bufs x).
Proof.
  intros Hc c o m. destruct (Hc c o m) as (o'&m'&->&Ha). split_and!; try done.
  eapply agree_off_mono; [|done]. auto.
Qed.

(** The calls of the closure: one for each chain of the list, in its order, each on the
    state the call before it left and on a memory that differs from the first at most
    where the device and the closure write. *)
Inductive op_run (m0 : hostmem) : list DescChain → OpS → OpS → Prop :=
| op_run_nil o : op_run m0 [] o o
| op_run_cons c cs o m o1 m1 c1 res o' :
    agree_off (λ x, split_dev_area sq x ∨ bufs x) m0 m →
    op c (o, m) = ((o1, m1), c1, res) → op_run m0 cs o1 o' → op_run m0 (c :: cs) o o'.

Lemma process_run m0 cs : ∀ s : loop_state SplitQueue Z OpS,
  q (l_q s) = sq → agree_off (λ x, split_dev_area sq x ∨ bufs x) m0 (l_mem s) →
  op_run m0 cs (l_op s) (l_op (foldl (process op) s cs)).
Proof.
  set (area := λ x, split_dev_area sq x ∨ bufs x).
  induction cs as [|c cs IH]; intros s Hq Hm; [constructor|].
  destruct (process_frame op area sq (Hok : @queue_ok SplitQueue Z _ SplitQueue_Laws sq)
              ltac:(unfold area; cbn; auto) (op_completes_serves Hop) s c Hq) as (Hq'&_&Hm').
  destruct (Hop c (l_op s) (l_mem s)) as (o1&m1&E&_).
  eapply op_run_cons; [exact Hm|exact E|].
  replace o1 with (l_op (process op s c)); [|unfold process; by rewrite E].
  apply IH; [done|]. by eapply agree_off_trans.
Qed.

Lemma reference_run qu m o (irq : I) q_index cs :
  q qu = sq →
  let res := handle_reference op qu m o irq q_index cs in
  op_run m cs o res.1.2 ∧ (res.2 = irq ∨ res.2 = queue_irq q_index irq).
Proof.
  intros Hq. unfold handle_reference. destruct cs as [|c cs]; [split; [constructor|by left]|].
  cbn zeta. rewrite Hq.
  destruct (split_notify_returns 1 sq false m Hok ltac:(lia)) as (m0&E0&Hm0&_).
  cbn [enable_notification SplitQueue_VirtQueue]. rewrite E0. cbn [from_option id default fst snd].
  split; [|by destruct (l_irq _); auto].
  apply (process_run m (c :: cs) (mkLoop qu m0 o false)); [done|].
  eapply agree_off_mono; [|exact Hm0]. cbn. auto.
Qed.

(** The reference run, seen through the used ring. *)
Lemma reference_completions qu m o (irq : I) q_index k cs :
  q qu = sq → sq_size sq = 2 ^ k → 0 ≤ k ≤ 15 → in_u 16 (used qu) →
  Z.of_nat (length cs) ≤ sq_size sq →
  Forall (λ c, in_u 32 (chain_id c) ∧ in_u 32 (len c)) cs →
  let res := handle_reference op qu m o irq q_index cs in
  used res.1.1.1 = u16 (used qu + Z.of_nat (length cs)) ∧
  avail res.1.1.1 = (if decide (cs = []) then avail qu else u16 (avail qu + Z.of_nat (length cs))) ∧
  (cs ≠ [] → used_idx sq res.1.1.2 = used res.1.1.1) ∧
  (∀ (j : nat) c, cs !! j = Some c →
     used_elem sq res.1.1.2 ((used qu + Z.of_nat j) mod sq_size sq) = (chain_id c, len c)).
Proof.
  intros Hq Hk Hk' Hu Hs Hc. unfold handle_reference. destruct cs as [|c cs].
  { cbn. rewrite Z.add_0_r, wrap_small by done. split_and!; done. }
  rewrite Hq. destruct (split_notify_returns 1 sq false m Hok ltac:(lia)) as (m0&E0&_&_).
  cbn [enable_notification SplitQueue_VirtQueue]. rewrite E0. cbn [from_option id].
  destruct (completions k (c :: cs) (mkLoop qu m0 o false)) as (Eq&Eu&Ea&Ei&Ee); [done..|].
  set (s' := foldl (process op) _ _) in *. clearbody s'.
  destruct (split_notify_returns 1 sq true (l_mem s') Hok ltac:(lia)) as (m3&E3&_&_).
  rewrite E3. cbn [fst snd from_option id l_q] in *.
  pose proof (notify_used sq Hok Hlay _ _ _ _ E3) as [Ui Ue]. split_and!; try done.
  - intros Hne. rewrite Ui. by apply Ei.
  - intros j c' Hj. rewrite Ue by (pose proof (proj1 Hok); apply Z.mod_pos_bound; lia). by apply Ee.
Qed.

(** C8: A split queue serves its driver.  Whenever the driver has published the chains [cs]
    (at most [size], each well formed and without indirect tables), with rings and
    buffers apart in memory, and the device completes what it is handed, [handle_desc]
    returns: the device is called exactly once for each chain, in ring order, on the
    state the call before left ([op_run]), and at most one interrupt is sent; the
    available index reaches the driver's; the used ring then holds, from the old used index
    on and modulo the size, the identifiers of the chains in order with the length the
    device reported; the used index in memory has advanced by their number; and no
    buffer is left available. *)
Theorem split_serves_in_order (r : ram) (qu : Queue SplitQueue Z) m o (irq : I) q_index
  (n fuel : nat) k cs :
  q qu = sq → mem_u8 m → direct sq m →
  (∀ x, driver_area sq x → ¬ (split_dev_area sq x ∨ bufs x)) →
  sq_size sq = 2 ^ k → 0 ≤ k ≤ 15 → in_u 16 (avail qu) → in_u 16 (used qu) →
  (∀ c, in_u 32 (len c)) →
  (Split.avail_index sq m - avail qu) mod 2 ^ 16 = Z.of_nat (length cs) →
  Z.of_nat (length cs) ≤ sq_size sq →
  (∀ (j : nat) c, cs !! j = Some c →
     Split.get_avail n sq r m (u16 (avail qu + Z.of_nat j)) = Some (Ok (Some c))) →
  (n + length cs + 2 < fuel)%nat →
  ∃ qu' m' o' irq',
    handle_desc op r fuel qu m o irq q_index = Some ((qu', m', o', irq'), Ok tt) ∧
    avail qu' = Split.avail_index sq m ∧
    used qu' = u16 (used qu + Z.of_nat (length cs)) ∧
    (cs ≠ [] → used_idx sq m' = used qu') ∧
    (∀ (j : nat) c, cs !! j = Some c →
       used_elem sq m' ((used qu + Z.of_nat j) mod sq_size sq) = (chain_id c, len c)) ∧
    Split.desc_avail sq m' (avail qu') = false ∧
    op_run m cs o o' ∧ (irq' = irq ∨ irq' = queue_irq q_index irq).
Proof.
  intros Hq Hm Hdir Hsep Hk Hk' Ha Hu Hlen Hn Hs Hget Hf.
  set (area := λ x, split_dev_area sq x ∨ bufs x) in *.
  destruct (handle_pending op r area sq (Hok : @queue_ok SplitQueue Z _ SplitQueue_Laws sq)
              ltac:(unfold area; cbn; auto)
              (op_completes_serves Hop) n fuel qu m o irq q_index cs Hq Hf) as [Hh Hd].
  { intros m' Hm'. by eapply (split_pending sq r area m). }
  destruct (reference_completions qu m o irq q_index k cs) as (Eu&Ea&Ei&Ee); [done..| |].
  { apply Forall_forall. intros c (j&Hj)%list_elem_of_lookup. split; [|done].
    by eapply get_avail_id, Hget. }
  destruct (reference_run qu m o irq q_index cs Hq) as [Hrun Hirq].
  set (res := handle_reference op qu m o irq q_index cs) in *. clearbody res.
  exists res.1.1.1, res.1.1.2, res.1.2, res.2. rewrite Hh.
  split_and!; try done; [by destruct res as [[[??]?]?]|].
  rewrite Ea. pose proof (mem_u8_hload m (avail_hdr sq + 2) 2 Hm ltac:(lia)) as Hai.
  change (in_u 16 (Split.avail_index sq m)) in Hai.
  transitivity (u16 (avail qu + Z.of_nat (length cs))).
  { case_decide; [|done]. subst. cbn. by rewrite Z.add_0_r, wrap_small. }
  rewrite <- Hn. unfold wrap. rewrite Zplus_mod_idemp_r. rewrite <- (wrap_small _ _ Hai) at 2.
  unfold wrap. f_equal. lia.
Qed.
End Completions.

(** ** A small queue *)

Module DemoSplit.
#[export] Instance demo_irq : IrqSender nat := λ _ n, S n.
Definition demo_ram : ram := [mkSlot 0x0 (mkPages 0x10000 0x1000 None)].
Definition reg : QueueReg := mkQueueReg 2 0x0 0x100 0x200 true.
Definition sq : SplitQueue := mkSplit 2 0x10100 0x10104 None 0x10200 0x10204 None 0x10000.
Definition sq_ev : SplitQueue :=
  mkSplit 2 0x10100 0x10104 (Some 0x10108) 0x10200 0x10204 (Some 0x10214) 0x10000.
Definition desc (a l f n : Z) : list Z := le_bytes 8 a ++ le_bytes 4 l ++ le_bytes 2 f ++ le_bytes 2 n.
(** Two chains published: descriptor 1, then descriptor 0. *)
Definition mem : hostmem :=
  hwrite (hwrite ∅ 0x10000 (desc 0x800 4 DescFlag.WRITE 0 ++ desc 0x900 8 0 0))
    0x10100 (le_bytes 2 0 ++ le_bytes 2 2 ++ le_bytes 2 1 ++ le_bytes 2 0).
Definition chains : list DescChain := [mkChain 1 1 [(0x10900, 8)] []; mkChain 0 1 [] [(0x10800, 4)]].
Definition op (c : DescChain) (s : list Z * hostmem)
  : (list Z * hostmem) * DescChain * outcome virtio_error Status :=
  ((fst s ++ [chain_id c], snd s), c, Ok (Done 4)).
(** A driver that adds a third buffer during the first iteration. *)
Definition drv (k : nat) (m : hostmem) : hostmem :=
  match k with O => hstore m 0x10102 2 3 | _ => m end.
End DemoSplit.
Import (hints) DemoSplit.

Lemma split_serves_in_order_witness :
  Split.new (DemoSplit.reg) DemoSplit.demo_ram false = Ok (Some DemoSplit.sq) ∧
  ∃ qu' m' o' irq',
    handle_desc DemoSplit.op DemoSplit.demo_ram 20 (Queue_new DemoSplit.sq) DemoSplit.mem [] 0%nat 0
      = Some ((qu', m', o', irq'), Ok tt) ∧
    used_idx DemoSplit.sq m' = 2 ∧
    used_elem DemoSplit.sq m' 0 = (1, 4) ∧ used_elem DemoSplit.sq m' 1 = (0, 4) ∧ o' = [1; 0].
Proof.
  split; [vm_compute; reflexivity|].
  destruct (split_serves_in_order DemoSplit.op (λ _, 4) (λ _, False) DemoSplit.sq
    ltac:(by_eval) ltac:(vm_compute; split; [left; intros ?; discriminate | exact Logic.I])
    ltac:(intros c o m; eexists _, _; split; [reflexivity | apply agree_off_refl])
    ltac:(intros x _ Hf; exact Hf)
    DemoSplit.demo_ram (Queue_new DemoSplit.sq) DemoSplit.mem [] 0%nat 0 5 20 1 DemoSplit.chains)
    as (qu' & m' & o' & irq' & Hh & _ & Hu & Hi & He & _ & Hr & _).
  - reflexivity.
  - apply (bool_decide_unpack _). vm_compute. exact Logic.I.
  - repeat constructor.
  - intros x Hx [Hd|Hf]; [|done].
    unfold driver_area, split_dev_area, range, USED_HEADER_SIZE, USED_ELEM_SIZE, DESC_SIZE in *.
    cbn in Hx, Hd. lia.
  - reflexivity.
  - lia.
  - by_eval.
  - by_eval.
  - intros c. by_eval.
  - vm_compute. reflexivity.
  - by_eval.
  - intros [|[|j]] c Hj; [..|done]; injection Hj as <-; vm_compute; reflexivity.
  - cbn. lia.
  - exists qu', m', o', irq'.
    split_and!; [done| |exact (He 0%nat _ eq_refl)|exact (He 1%nat _ eq_refl)|].
    + rewrite Hi by done. rewrite Hu. reflexivity.
    + repeat match goal with H : op_run _ _ _ _ _ _ _ |- _ => inversion H; clear H; subst end.
      by repeat match goal with H : DemoSplit.op _ _ = _ |- _ => injection H as <- <- <- <- end.
Defined.

Lemma split_available_window_witness :
  Split.desc_avail DemoSplit.sq DemoSplit.mem 1 = true ∧ Split.desc_avail DemoSplit.sq DemoSplit.mem 2 = false.
Proof.
  split; [|vm_compute; reflexivity].
  apply (split_available_window DemoSplit.sq DemoSplit.mem 1); by_eval.
Defined.

Lemma split_notification_event_witness :
  ∃ m', Split.enable_notification_with DemoSplit.drv 2 DemoSplit.sq_ev true DemoSplit.mem = Some m' ∧
        hload m' 0x10214 2 = Split.avail_index DemoSplit.sq_ev m'.
Proof.
  apply (split_notification_event DemoSplit.sq_ev 0x10214 DemoSplit.drv 1 DemoSplit.mem).
  - reflexivity.
  - split; [by_eval|]. right. by_eval.
  - apply (bool_decide_unpack _). vm_compute. exact Logic.I.
  - intros [|k] m Hm; [apply mem_u8_hwrite; [done|apply le_bytes_u8]|done].
  - intros [|k] m; [apply hload_hstore_out; lia|done].
  - intros [|k] m Hk; [lia|done].
Defined.
