(* ===== verification/PackedQueue.v ===== *)
(** * The packed virtqueue: virtio/queue/packed.rs

    One ring of descriptors with wrap counters.  An index is an offset and a wrap
    counter; read as a position on a circle of [2 * size], its operations are
    arithmetic modulo [2 * size]. *)

From S2P Require Import Prelude Utils MemTypes Addressable Mapped VirtQueue.

(** [struct Desc]: addr, len, id, flag. *)
Record PackedDesc := mkPackedDesc { pd_addr : Z; pd_len : Z; pd_id : Z; pd_flag : Z }.
Definition PACKED_DESC_SIZE : Z := 16.

Definition PackedDesc_of_bytes (bs : list Z) : PackedDesc :=
  mkPackedDesc (le_val (take 8 bs)) (le_val (take 4 (drop 8 bs)))
    (le_val (take 2 (drop 12 bs))) (le_val (take 2 (drop 14 bs))).

(** [struct WrappedIndex(u16)]: offset in bits 14..0, wrap counter in bit 15. *)
Module WrappedIndex.
Definition offset (w : Z) : Z := bits_get w 14 0.
Definition wrap_counter (w : Z) : bool := bit_get w 15.
Definition set_warp_counter (w : Z) (b : bool) : Z := bit_set w 15 b.
Definition INIT : Z := Z.shiftl 1 15.

Definition wrapping_add (w delta size : Z) : Z :=
  let o := u16 (offset w + delta) in
  if size <=? o then set_warp_counter (o - size) (negb (wrap_counter w))
  else set_warp_counter o (wrap_counter w).

Definition wrapping_sub (w delta size : Z) : Z :=
  let o := offset w in
  if delta <=? o then set_warp_counter (o - delta) (wrap_counter w)
  else set_warp_counter (u16 (o + u16 (size - delta))) (negb (wrap_counter w)).
End WrappedIndex.

Module EventFlag.
Definition ENABLE : Z := 0.
Definition DISABLE : Z := 1.
Definition DESC : Z := 2.
End EventFlag.

(** [struct DescEvent]: an index and a flag, two bytes each. *)
Record PackedQueue := mkPacked {
  pq_size : Z;
  pq_desc : Z;
  enable_event_idx : bool;
  notification : Z;
  interrupt : Z
}.

Module Packed.
Section Ops.
Implicit Types (pq : PackedQueue) (m : hostmem).

Definition get_ptr (r : ram) (size_t align_t gpa : Z) : outcome virtio_error Z :=
  map_err VMemory (Ram_get_ptr r size_t align_t gpa).

Definition new (reg : QueueReg) (r : ram) (event_idx : bool) : outcome virtio_error (option PackedQueue) :=
  if negb (qr_enabled reg) then Ok None
  else
    n ← get_ptr r 4 2 (qr_device reg);
    d ← get_ptr r PACKED_DESC_SIZE 16 (qr_desc reg);
    i ← get_ptr r 4 2 (qr_driver reg);
    Ok (Some (mkPacked (qr_size reg) d event_idx n i)).

Definition flag_is_avail (flag : Z) (wrap_counter : bool) : bool :=
  eqb (contains flag DescFlag.AVAIL) wrap_counter && negb (eqb (contains flag DescFlag.USED) wrap_counter).

Definition set_flag_used (flag : Z) (wrap_counter : bool) : Z :=
  if wrap_counter then Z.lor flag (Z.lor DescFlag.USED DescFlag.AVAIL)
  else Z.land flag (bnot 16 (Z.lor DescFlag.USED DescFlag.AVAIL)).

Definition desc_ptr pq (offset : Z) : Z := pq_desc pq + offset * PACKED_DESC_SIZE.
Definition read_desc pq m (offset : Z) : PackedDesc :=
  PackedDesc_of_bytes (hread m (desc_ptr pq offset) PACKED_DESC_SIZE).

Definition desc_avail pq m (index : Z) : bool :=
  flag_is_avail (hload m (desc_ptr pq (WrappedIndex.offset index) + 14) 2) (WrappedIndex.wrap_counter index).

Definition push_buf (d : PackedDesc) (rw : list (Z * Z) * list (Z * Z)) :=
  if contains (pd_flag d) DescFlag.WRITE then (fst rw, snd rw ++ [(pd_addr d, pd_len d)])
  else (fst rw ++ [(pd_addr d, pd_len d)], snd rw).

(** [for i in 0..(desc.len / size_of::<Desc>())]. *)
Fixpoint indirect_for (r : ram) m (table : Z) (is_ : list Z) rw
  : outcome virtio_error (list (Z * Z) * list (Z * Z)) :=
  match is_ with
  | [] => Ok rw
  | i :: is' =>
      match Ram_read_t r m 16 (u64 (table + i * PACKED_DESC_SIZE)) with
      | Err e => Err (VMemory e)
      | Panic => Panic
      | Ok bs => indirect_for r m table is' (push_buf (PackedDesc_of_bytes bs) rw)
      end
  end.

(** The [loop]: the buffers, the identifier of the last descriptor, [delta]. *)
Fixpoint chain_loop (fuel : nat) pq (r : ram) m (offset delta : Z) rw
  : option (outcome virtio_error (list (Z * Z) * list (Z * Z) * Z * Z)) :=
  match fuel with
  | O => None
  | S fuel' =>
      let d := read_desc pq m offset in
      match (if contains (pd_flag d) DescFlag.INDIRECT
             then indirect_for r m (pd_addr d) (seqZ 0 (pd_len d / PACKED_DESC_SIZE)) rw
             else Ok (push_buf d rw)) with
      | Ok rw' =>
          let delta' := u16 (delta + 1) in
          if contains (pd_flag d) DescFlag.NEXT then
            if pq_size pq =? 0 then Some Panic
            else chain_loop fuel' pq r m (u16 (offset + 1) mod pq_size pq) delta' rw'
          else Some (Ok (rw', pd_id d, delta'))
      | Err e => Some (Err e)
      | Panic => Some Panic
      end
  end.

Definition get_avail (fuel : nat) pq (r : ram) m (index : Z)
  : option (outcome virtio_error (option DescChain)) :=
  if negb (desc_avail pq m index) then Some (Ok None)
  else
    (λ res : outcome virtio_error _,
      x ← res;
      rd ← map_err VMemory (translate_iov r (fst (fst (fst x))));
      wr ← map_err VMemory (translate_iov r (snd (fst (fst x))));
      Ok (Some (mkChain (snd (fst x)) (snd x) rd wr)))
      <$> chain_loop fuel pq r m (WrappedIndex.offset index) 0 ([], []).

Definition set_used pq (index id len : Z) m : hostmem :=
  let a := desc_ptr pq (WrappedIndex.offset index) in
  let m1 := hstore m (a + 12) 2 id in
  let m2 := hstore m1 (a + 8) 4 len in
  hstore m2 (a + 14) 2 (set_flag_used (hload m2 (a + 14) 2) (WrappedIndex.wrap_counter index)).

Definition enable_notification (fuel : nat) pq (enabled : bool) m : option hostmem :=
  Some (hstore m (notification pq + 2) 2 (if enabled then EventFlag.ENABLE else EventFlag.DISABLE)).

Definition interrupt_enabled pq m (index delta : Z) : bool :=
  let flag := hload m (interrupt pq + 2) 2 in
  let event := hload m (interrupt pq) 2 in
  if enable_event_idx pq && (flag =? EventFlag.DESC) then
    let prev_used_index := WrappedIndex.wrapping_sub index delta (pq_size pq) in
    let base := WrappedIndex.offset prev_used_index in
    let end_ := u16 (base + delta) in
    let o := WrappedIndex.offset event in
    let offset :=
      if negb (eqb (WrappedIndex.wrap_counter event) (WrappedIndex.wrap_counter prev_used_index))
      then u16 (o + pq_size pq) else o in
    (base <=? offset) && (offset <? end_)
  else flag =? EventFlag.ENABLE.

Definition index_add pq (index delta : Z) : Z := WrappedIndex.wrapping_add index delta (pq_size pq).
End Ops.
End Packed.

#[export] Instance PackedQueue_VirtQueue : VirtQueue PackedQueue Z := {
  INIT_INDEX := WrappedIndex.INIT;
  desc_avail := Packed.desc_avail;
  get_avail := Packed.get_avail;
  set_used := Packed.set_used;
  enable_notification := Packed.enable_notification;
  interrupt_enabled := Packed.interrupt_enabled;
  index_add := Packed.index_add
}.

(** ** Positions *)

(** The position of an index on the circle of two turns. *)
Definition pos (size w : Z) : Z :=
  WrappedIndex.offset w + (if WrappedIndex.wrap_counter w then 0 else size).

Definition index_wf (size w : Z) : Prop := in_u 16 w ∧ WrappedIndex.offset w < size.
#[export] Instance index_wf_dec size w : Decision (index_wf size w).
Proof. unfold index_wf. apply _. Defined.

Lemma offset_wrap w : WrappedIndex.offset w = wrap 15 w.
Proof. unfold WrappedIndex.offset, bits_get. rewrite Z.shiftr_0_r. by rewrite wrap_ones. Qed.

Lemma make_index o b :
  in_u 15 o →
  let w := WrappedIndex.set_warp_counter o b in
  in_u 16 w ∧ WrappedIndex.offset w = o ∧ WrappedIndex.wrap_counter w = b.
Proof.
  intros Ho. unfold WrappedIndex.set_warp_counter, WrappedIndex.wrap_counter. cbn zeta.
  rewrite offset_wrap. split_and!; [| |by apply bit_get_set].
  - apply in_u_testbit; [lia| |].
    + destruct b; cbn; [apply Z.lor_nonneg; split; [apply Ho|done]|].
      apply Z.ldiff_nonneg. left. apply Ho.
    + intros i Hi. pose proof (testbit_high 15 o i Ho ltac:(lia)) as Hh.
      destruct b; cbn [bit_set]; [rewrite setbit_testbit by lia|rewrite clearbit_testbit by lia];
        rewrite Hh; case_bool_decide; (done || lia).
  - unfold bit_set. destruct b; bitwise.
Qed.

Section Circle.
Variable size : Z.
Hypothesis Hsize : 1 ≤ size ≤ 32768.

Lemma pos_make o b :
  0 ≤ o < size →
  index_wf size (WrappedIndex.set_warp_counter o b) ∧
  pos size (WrappedIndex.set_warp_counter o b) = o + (if b then 0 else size).
Proof.
  intros Ho. destruct (make_index o b) as (H1&H2&H3); [unfold in_u; lia|].
  unfold index_wf, pos. rewrite H2, H3. split_and!; (done || lia).
Qed.

Lemma offset_bound w : index_wf size w → 0 ≤ WrappedIndex.offset w < size.
Proof.
  intros [_ H]. split; [|done]. rewrite offset_wrap. by apply (wrap_in_u 15 w).
Qed.

Lemma wrapping_add_pos w delta :
  index_wf size w → 0 ≤ delta ≤ size →
  index_wf size (WrappedIndex.wrapping_add w delta size) ∧
  pos size (WrappedIndex.wrapping_add w delta size) = (pos size w + delta) mod (2 * size).
Proof.
  intros Hw Hd. pose proof (offset_bound w Hw) as Ho. unfold WrappedIndex.wrapping_add. cbn zeta.
  rewrite (wrap_small 16) by (unfold in_u; lia). unfold pos at 2.
  destruct (Z.leb_spec size (WrappedIndex.offset w + delta)).
  - destruct (pos_make (WrappedIndex.offset w + delta - size) (negb (WrappedIndex.wrap_counter w)))
      as [? ->]; [lia|]. split; [done|].
    destruct (WrappedIndex.wrap_counter w); cbn [negb].
    + rewrite Z.mod_small by lia. lia.
    + apply (Z.mod_unique_pos _ _ 1); lia.
  - destruct (pos_make (WrappedIndex.offset w + delta) (WrappedIndex.wrap_counter w)) as [? ->]; [lia|].
    split; [done|]. destruct (WrappedIndex.wrap_counter w); rewrite Z.mod_small; lia.
Qed.

Lemma wrapping_sub_pos w delta :
  index_wf size w → 0 ≤ delta ≤ size →
  index_wf size (WrappedIndex.wrapping_sub w delta size) ∧
  pos size (WrappedIndex.wrapping_sub w delta size) = (pos size w - delta) mod (2 * size).
Proof.
  intros Hw Hd. pose proof (offset_bound w Hw) as Ho. unfold WrappedIndex.wrapping_sub. cbn zeta.
  unfold pos at 2. destruct (Z.leb_spec delta (WrappedIndex.offset w)).
  - destruct (pos_make (WrappedIndex.offset w - delta) (WrappedIndex.wrap_counter w)) as [? ->]; [lia|].
    split; [done|]. destruct (WrappedIndex.wrap_counter w); rewrite Z.mod_small; lia.
  - rewrite (wrap_small 16 (size - delta)) by (unfold in_u; lia).
    rewrite (wrap_small 16) by (unfold in_u; lia).
    destruct (pos_make (WrappedIndex.offset w + (size - delta)) (negb (WrappedIndex.wrap_counter w)))
      as [? ->]; [lia|]. split; [done|].
    destruct (WrappedIndex.wrap_counter w); cbn [negb].
    + apply (Z.mod_unique_pos _ _ (-1)); lia.
    + rewrite Z.mod_small; lia.
Qed.
End Circle.

Lemma index_rebuild w :
  in_u 16 w → WrappedIndex.set_warp_counter (WrappedIndex.offset w) (WrappedIndex.wrap_counter w) = w.
Proof.
  intros Hw. rewrite offset_wrap. unfold WrappedIndex.set_warp_counter, WrappedIndex.wrap_counter, bit_get, bit_set.
  apply Z.bits_inj'. intros i Hi.
  destruct (Z.testbit w 15) eqn:E; [rewrite setbit_testbit by lia|rewrite clearbit_testbit by lia];
    rewrite wrap_testbit by lia; case_bool_decide as H15; subst; cbn [orb andb negb];
    rewrite ?E; try done; case_bool_decide; cbn [andb]; try done;
    symmetry; apply (testbit_high 16); (done || lia).
Qed.

Lemma pos_inj size w w' :
  index_wf size w → index_wf size w' → pos size w = pos size w' → w = w'.
Proof.
  intros Hw Hw' Hp. pose proof (offset_bound size w Hw). pose proof (offset_bound size w' Hw').
  rewrite <- (index_rebuild w), <- (index_rebuild w') by apply Hw || apply Hw'.
  unfold pos in Hp. destruct (WrappedIndex.wrap_counter w), (WrappedIndex.wrap_counter w');
    (f_equal; lia) || lia.
Qed.

(** C23: A packed-ring index is a position on a circle of [2 * size]: adding and subtracting
    up to [size] descriptors keeps the offset inside the ring and is addition and
    subtraction modulo [2 * size] (the wrap counter being the turn), and subtracting undoes
    adding. *)
Theorem packed_index_circle size w delta :
  1 ≤ size ≤ 32768 → index_wf size w → 0 ≤ delta ≤ size →
  index_wf size (WrappedIndex.wrapping_add w delta size) ∧
  pos size (WrappedIndex.wrapping_add w delta size) = (pos size w + delta) mod (2 * size) ∧
  pos size (WrappedIndex.wrapping_sub w delta size) = (pos size w - delta) mod (2 * size) ∧
  WrappedIndex.wrapping_sub (WrappedIndex.wrapping_add w delta size) delta size = w.
Proof.
  intros Hs Hw Hd. destruct (wrapping_add_pos size Hs w delta Hw Hd) as [Ha Hap].
  destruct (wrapping_sub_pos size Hs w delta Hw Hd) as [_ Hsp].
  destruct (wrapping_sub_pos size Hs _ delta Ha Hd) as [Hb Hbp].
  split_and!; try done. apply (pos_inj size); [done..|]. rewrite Hbp, Hap, Zminus_mod_idemp_l.
  rewrite Z.add_simpl_r. apply Z.mod_small. pose proof (offset_bound size w Hw). unfold pos.
  destruct (WrappedIndex.wrap_counter w); lia.
Qed.

Lemma packed_index_circle_witness :
  WrappedIndex.wrapping_add 0x8003 3 4 = 0x0002 ∧
  WrappedIndex.wrapping_sub (WrappedIndex.wrapping_add 0x8003 3 4) 3 4 = 0x8003.
Proof.
  split; [reflexivity|].
  apply (packed_index_circle 4 0x8003 3); [lia|by_eval|lia].
Defined.

(** C24: The interrupt suppression of the packed ring.  With event suppression on, after a
    completion of [delta] descriptors that moved the used index to [index], the driver is
    interrupted exactly when the position it asked for is one of the [delta] positions just
    passed, across wrap-arounds. *)
Theorem packed_event_window pq m index delta :
  1 ≤ pq_size pq ≤ 32768 → index_wf (pq_size pq) index → 0 ≤ delta ≤ pq_size pq →
  enable_event_idx pq = true → hload m (interrupt pq + 2) 2 = EventFlag.DESC →
  index_wf (pq_size pq) (hload m (interrupt pq) 2) →
  let size := pq_size pq in
  let event := hload m (interrupt pq) 2 in
  Packed.interrupt_enabled pq m index delta = true ↔
  ∃ k, 0 ≤ k < delta ∧ pos size event = (pos size index - delta + k) mod (2 * size).
Proof.
  intros Hs Hi Hd He Hf Hev size event. unfold Packed.interrupt_enabled. cbn zeta.
  rewrite He, Hf. change (true && (EventFlag.DESC =? EventFlag.DESC)) with true. cbv iota. fold event size.
  destruct (wrapping_sub_pos size Hs index delta Hi Hd) as [Hp Hpp].
  set (prev := WrappedIndex.wrapping_sub index delta size) in *. clearbody prev.
  pose proof (offset_bound size prev Hp) as Ho. pose proof (offset_bound size event Hev) as Hoe.
  replace ((pos size index - delta)) with (pos size index - delta + 0) in Hpp by lia.
  assert (∀ k, (pos size index - delta + k) mod (2 * size) = (pos size prev + k) mod (2 * size)) as Hk
    by (intros k; rewrite Hpp, Z.add_0_r, Zplus_mod_idemp_l; done).
  setoid_rewrite Hk. clear Hk Hpp.
  rewrite (wrap_small 16 (_ + delta)) by (unfold in_u; lia).
  rewrite (wrap_small 16 (_ + size)) by (unfold in_u; lia).
  rewrite andb_true_iff, Z.leb_le, Z.ltb_lt. clearbody event. unfold pos.
  set (oe := WrappedIndex.offset event) in *. set (o := WrappedIndex.offset prev) in *.
  destruct (WrappedIndex.wrap_counter event) eqn:E1, (WrappedIndex.wrap_counter prev) eqn:E2;
    cbn [eqb negb]; (split; [intros Hw|intros (k&Hk&Hm)]).
  all: try (match goal with Hm : _ = (?a + ?k) mod _ |- _ =>
      pose proof (Z.div_mod (a + k) (2 * size)); pose proof (Z.mod_pos_bound (a + k) (2 * size));
      assert (0 ≤ (a + k) / (2 * size) ≤ 1)
        by (split; [apply Z.div_pos; lia | apply Z.lt_succ_r, Z.div_lt_upper_bound; lia]); nia
    end).
  - exists (oe - o). split; [lia|]. rewrite Z.mod_small; lia.
  - exists (oe + size - o). split; [lia|]. apply (Z.mod_unique_pos _ _ 1); lia.
  - exists (oe + size - o). split; [lia|]. rewrite Z.mod_small; lia.
  - exists (oe - o). split; [lia|]. rewrite Z.mod_small; lia.
Qed.

Module DemoPacked.
Definition pq : PackedQueue := mkPacked 4 0x1000 true 0x2000 0x3000.
(** The driver asks for offset 0 of the second turn. *)
Definition mem : hostmem := hwrite ∅ 0x3000 (le_bytes 2 0x0000 ++ le_bytes 2 EventFlag.DESC).
End DemoPacked.

Lemma packed_event_window_witness :
  Packed.interrupt_enabled DemoPacked.pq DemoPacked.mem 0x0001 3 = true ∧
  Packed.interrupt_enabled DemoPacked.pq DemoPacked.mem 0x0003 2 = false.
Proof.
  split; [|vm_compute; reflexivity].
  apply (packed_event_window DemoPacked.pq DemoPacked.mem 0x0001 3);
    [cbn; lia|by_eval|cbn; lia|reflexivity|vm_compute; reflexivity|by_eval|].
  exists 2. split; [lia|vm_compute; reflexivity].
Defined.

(** ** Completing and walking descriptors *)

Lemma contains_bit z k : 0 ≤ k → contains z (Z.shiftl 1 k) = bit_get z k.
Proof.
  intros Hk. apply eq_bool_prop_intro. unfold bit_get.
  rewrite !Is_true_true, contains_spec. split.
  - intros H. apply H. by rewrite Z.shiftl_1_l, Z.pow2_bits_true.
  - intros H i Hi. rewrite Z.shiftl_1_l in Hi.
    destruct (decide (i = k)) as [->|Hne]; [done|].
    rewrite Z.pow2_bits_false in Hi by lia. done.
Qed.

Lemma flag_used_bits flag b :
  let f := Packed.set_flag_used flag b in
  contains f DescFlag.AVAIL = b ∧ contains f DescFlag.USED = b ∧
  contains f DescFlag.WRITE = contains flag DescFlag.WRITE ∧
  contains f DescFlag.NEXT = contains flag DescFlag.NEXT.
Proof.
  cbn zeta. unfold DescFlag.AVAIL, DescFlag.USED, DescFlag.WRITE, DescFlag.NEXT.
  rewrite !contains_bit by lia. unfold bit_get, Packed.set_flag_used.
  destruct b.
  - change (Z.lor DescFlag.USED DescFlag.AVAIL) with 0x8080. rewrite !Z.lor_spec. cbn.
    by rewrite ?orb_true_r, ?orb_false_r.
  - change (bnot 16 (Z.lor DescFlag.USED DescFlag.AVAIL)) with 0x7f7f. rewrite !Z.land_spec. cbn.
    by rewrite ?andb_true_r, ?andb_false_r.
Qed.

Lemma set_flag_used_in_u flag b : in_u 16 flag → in_u 16 (Packed.set_flag_used flag b).
Proof.
  intros Hf. unfold Packed.set_flag_used. destruct b;
    [apply lor_in_u; [lia|done|by_eval]|by apply land_in_u_l].
Qed.

(** C25: Completing a packed descriptor hands it back to the driver: whatever its flags were, after
    [set_used] it is no longer available at the same turn, its AVAIL and USED bits both
    equal the wrap counter (the driver's test for a used descriptor), the identifier and
    length read back, and no byte outside the descriptor has changed. *)
Theorem packed_set_used pq m index id len :
  in_u 16 id → in_u 32 len →
  in_u 16 (hload m (Packed.desc_ptr pq (WrappedIndex.offset index) + 14) 2) →
  let a := Packed.desc_ptr pq (WrappedIndex.offset index) in
  let m' := Packed.set_used pq index id len m in
  let flag := hload m' (a + 14) 2 in
  Packed.desc_avail pq m' index = false ∧
  contains flag DescFlag.AVAIL = WrappedIndex.wrap_counter index ∧
  contains flag DescFlag.USED = WrappedIndex.wrap_counter index ∧
  hload m' (a + 12) 2 = id ∧ hload m' (a + 8) 4 = len ∧
  agree_off (λ x, a + 8 ≤ x < a + 16) m m'.
Proof.
  intros Hid Hlen Hfl a m' flag.
  assert (flag = Packed.set_flag_used (hload m (a + 14) 2) (WrappedIndex.wrap_counter index)) as Ef.
  { unfold flag, m', Packed.set_used. fold a. cbn zeta. rewrite (hload_hstore _ (a + 14) 2).
    rewrite !hload_hstore_out by lia. by apply wrap_small, set_flag_used_in_u. }
  destruct (flag_used_bits (hload m (a + 14) 2) (WrappedIndex.wrap_counter index)) as (Ha&Hu&_&_).
  rewrite <- Ef in Ha, Hu. split_and!; try done.
  - unfold Packed.desc_avail. fold a. fold flag. unfold Packed.flag_is_avail. rewrite Ha, Hu.
    by destruct (WrappedIndex.wrap_counter index).
  - unfold m', Packed.set_used. fold a. cbn zeta. rewrite !hload_hstore_out by lia.
    rewrite (hload_hstore _ (a + 12) 2). by apply wrap_small.
  - unfold m', Packed.set_used. fold a. cbn zeta. rewrite hload_hstore_out by lia.
    rewrite (hload_hstore _ (a + 8) 4). by apply wrap_small.
  - intros x Hx. unfold m', Packed.set_used, hstore. fold a. cbn zeta.
    rewrite !hget_hwrite_out by (rewrite le_bytes_length; lia). done.
Qed.

Lemma packed_set_used_witness :
  let m' := Packed.set_used DemoPacked.pq 0x8001 7 5 ∅ in
  Packed.desc_avail DemoPacked.pq m' 0x8001 = false ∧ hload m' 0x101c 2 = 7 ∧ hload m' 0x1018 4 = 5.
Proof.
  destruct (packed_set_used DemoPacked.pq ∅ 0x8001 7 5) as (H1&_&_&H2&H3&_); [by_eval..|].
  exact (conj H1 (conj H2 H3)).
Defined.

(** The descriptors from [offset] on, around the ring. *)
Definition ring_descs (pq : PackedQueue) (m : hostmem) (offset : Z) (d : nat) : list PackedDesc :=
  (λ i, Packed.read_desc pq m ((offset + i) mod pq_size pq)) <$> seqZ 0 (Z.of_nat d).

Definition desc_buf (d : PackedDesc) : Z * Z := (pd_addr d, pd_len d).
Definition is_write (d : PackedDesc) : bool := contains (pd_flag d) DescFlag.WRITE.
Definition is_next (d : PackedDesc) : bool := contains (pd_flag d) DescFlag.NEXT.
Definition is_indirect (d : PackedDesc) : bool := contains (pd_flag d) DescFlag.INDIRECT.

(** The buffers of a chain of direct descriptors, in ring order. *)
Definition bufs_of (w : bool) (ds : list PackedDesc) : list (Z * Z) :=
  desc_buf <$> filter (λ d, is_write d = w) ds.

Lemma push_buf_of d rw ds :
  (fst (Packed.push_buf d rw) ++ bufs_of false ds, snd (Packed.push_buf d rw) ++ bufs_of true ds)
  = (fst rw ++ bufs_of false (d :: ds), snd rw ++ bufs_of true (d :: ds)).
Proof.
  unfold Packed.push_buf, bufs_of. fold (is_write d). rewrite !filter_cons.
  destruct (is_write d) eqn:E; cbn; rewrite <- ?app_assoc; done.
Qed.

Lemma ring_descs_S pq m offset d :
  ring_descs pq m offset (S d)
  = Packed.read_desc pq m (offset mod pq_size pq) :: ring_descs pq m (offset + 1) d.
Proof.
  unfold ring_descs. rewrite seqZ_cons by lia. cbn [fmap list_fmap]. rewrite Z.add_0_r. f_equal.
  replace (Z.pred (Z.of_nat (S d))) with (Z.of_nat d) by lia. change (Z.succ 0) with 1.
  rewrite <- (fmap_add_seqZ 1 0) at 1. rewrite <- list_fmap_compose.
  apply list_fmap_ext. intros i x _. cbn. do 2 f_equal. lia.
Qed.

Lemma chain_loop_walk pq r m : ∀ d offset delta rw last,
  1 ≤ pq_size pq ≤ 32768 → 0 ≤ offset < pq_size pq → 0 ≤ delta → delta + Z.of_nat d < 65535 →
  Forall (λ x, is_next x = true ∧ is_indirect x = false) (ring_descs pq m offset d) →
  ring_descs pq m offset (S d) = ring_descs pq m offset d ++ [last] →
  is_next last = false → is_indirect last = false →
  Packed.chain_loop (S d) pq r m offset delta rw =
    Some (Ok ((fst rw ++ bufs_of false (ring_descs pq m offset (S d)),
               snd rw ++ bufs_of true (ring_descs pq m offset (S d))),
              pd_id last, delta + Z.of_nat (S d))).
Proof.
  induction d as [|d IH]; intros offset delta rw last Hs Ho Hd Hlim Hall Hlast Hn Hi.
  - rewrite ring_descs_S in *. cbn in Hlast. injection Hlast as Hl.
    rewrite Z.mod_small in Hl by lia. rewrite Z.mod_small by lia. rewrite Hl.
    cbn [Packed.chain_loop]. rewrite Hl. fold (is_indirect last) (is_next last). rewrite Hi, Hn.
    rewrite <- push_buf_of. unfold bufs_of at 1 2. cbn. rewrite !app_nil_r, wrap_small by (unfold in_u; lia).
    by destruct (Packed.push_buf last rw).
  - rewrite ring_descs_S in Hall, Hlast. rewrite (ring_descs_S pq m offset d) in Hlast. cbn in Hlast.
    injection Hlast as Hlast. apply Forall_cons_1 in Hall as [[Hn0 Hi0] Hall].
    rewrite (ring_descs_S pq m offset (S d)). rewrite Z.mod_small in * by lia.
    set (x := Packed.read_desc pq m offset) in *.
    remember (S d) as d'. cbn [Packed.chain_loop]. fold x. fold (is_indirect x) (is_next x).
    rewrite Hn0, Hi0, <- push_buf_of. subst d'.
    rewrite (proj2 (Z.eqb_neq (pq_size pq) 0)) by lia. rewrite !(wrap_small 16) by (unfold in_u; lia).
    assert (∀ d, ring_descs pq m ((offset + 1) mod pq_size pq) d = ring_descs pq m (offset + 1) d) as Er.
    { intros d'. unfold ring_descs. apply list_fmap_ext. intros j y _. cbn. by rewrite Zplus_mod_idemp_l. }
    rewrite (IH _ _ _ last); rewrite ?Er; try done; [|apply Z.mod_pos_bound; lia|lia|lia].
    do 3 f_equal. lia.
Qed.

(** C26: Walking a chain of the packed ring.  If the [d] descriptors from the index on (around
    the end of the ring) carry NEXT and the one after them does not, none being indirect, the
    walk ends there after [d + 1] descriptors: that is [delta], the identifier is the last
    descriptor's, and the readable and the writable buffers are the chain's, each in ring
    order. *)
Theorem packed_chain_walk pq r m index (d : nat) last :
  1 ≤ pq_size pq ≤ 32768 → index_wf (pq_size pq) index → Z.of_nat d < pq_size pq →
  let o := WrappedIndex.offset index in
  Forall (λ x, is_next x = true ∧ is_indirect x = false) (ring_descs pq m o d) →
  ring_descs pq m o (S d) = ring_descs pq m o d ++ [last] →
  is_next last = false → is_indirect last = false →
  Packed.chain_loop (S d) pq r m o 0 ([], []) =
    Some (Ok ((bufs_of false (ring_descs pq m o (S d)), bufs_of true (ring_descs pq m o (S d))),
              pd_id last, Z.of_nat (S d))).
Proof.
  intros Hs Hi Hd o Hall Hlast Hn Hin. pose proof (offset_bound _ _ Hi) as Ho. fold o in Ho.
  rewrite (chain_loop_walk pq r m d o 0 ([], []) last); try done; lia.
Qed.

(** Three descriptors that wrap around a ring of four: 3, 0 and 1. *)
Definition packed_demo_mem : hostmem :=
  let desc a l i f := le_bytes 8 a ++ le_bytes 4 l ++ le_bytes 2 i ++ le_bytes 2 f in
  hwrite (hwrite ∅ 0x1030 (desc 0x100 8 0 DescFlag.NEXT)) 0x1000
    (desc 0x200 4 0 (DescFlag.NEXT + DescFlag.WRITE) ++ desc 0x300 2 9 DescFlag.WRITE).

Lemma packed_chain_walk_witness :
  Packed.chain_loop 3 DemoPacked.pq [] packed_demo_mem 3 0 ([], [])
    = Some (Ok ([(0x100, 8)], [(0x200, 4); (0x300, 2)], 9, 3)).
Proof.
  transitivity (Some
    (Ok (E := virtio_error) ((bufs_of false (ring_descs DemoPacked.pq packed_demo_mem 3 3),
          bufs_of true (ring_descs DemoPacked.pq packed_demo_mem 3 3)), 9, 3))).
  - apply (packed_chain_walk DemoPacked.pq [] packed_demo_mem 0x8003 2
             (mkPackedDesc 0x300 2 9 DescFlag.WRITE)).
    + cbn. lia.
    + by_eval.
    + cbn. lia.
    + vm_compute. repeat constructor.
    + vm_compute. reflexivity.
    + reflexivity.
    + reflexivity.
  - vm_compute. reflexivity.
Defined.
