(* ===== verification/VirtioPci.v ===== *)
(** * Virtio over PCI, the register block: virtio/pci.rs, virtio/dev/dev.rs

    The common configuration registers, the notify registers, the events they send
    to the device's worker, and the MSI-X interrupts a device raises.  The atomics of the
    source are fields of one state: each register access is one step. *)

From S2P Require Import Prelude Utils MemTypes Emulated PciConfig PciCap IoApic VirtQueue.

Definition VIRTIO_MSI_NO_VECTOR : Z := 0xffff.

(** virtio/virtio.rs *)
Module DevStatus.
Definition ACK : Z := Z.shiftl 1 0.
Definition DRIVER : Z := Z.shiftl 1 1.
Definition DRIVER_OK : Z := Z.shiftl 1 2.
Definition FEATURES_OK : Z := Z.shiftl 1 3.
Definition NEEDS_RESET : Z := Z.shiftl 1 6.
Definition FAILED : Z := Z.shiftl 1 7.
Definition ALL : Z := 0xcf.
Definition from_bits_truncate (v : Z) : Z := Z.land v ALL.
End DevStatus.

(** [VirtioCommonCfg]: (offset, size) of each field of the [repr(C)] struct. *)
Module CommonCfg.
Definition DEVICE_FEATURE_SELECT : Z * Z := (0, 4).
Definition DEVICE_FEATURE : Z * Z := (4, 4).
Definition DRIVER_FEATURE_SELECT : Z * Z := (8, 4).
Definition DRIVER_FEATURE : Z * Z := (12, 4).
Definition CONFIG_MSIX_VECTOR : Z * Z := (16, 2).
Definition NUM_QUEUES : Z * Z := (18, 2).
Definition DEVICE_STATUS : Z * Z := (20, 1).
Definition CONFIG_GENERATION : Z * Z := (21, 1).
Definition QUEUE_SELECT : Z * Z := (22, 2).
Definition QUEUE_SIZE : Z * Z := (24, 2).
Definition QUEUE_MSIX_VECTOR : Z * Z := (26, 2).
Definition QUEUE_ENABLE : Z * Z := (28, 2).
Definition QUEUE_NOTIFY_OFF : Z * Z := (30, 2).
Definition QUEUE_DESC_LO : Z * Z := (32, 4).
Definition QUEUE_DESC_HI : Z * Z := (36, 4).
Definition QUEUE_DRIVER_LO : Z * Z := (40, 4).
Definition QUEUE_DRIVER_HI : Z * Z := (44, 4).
Definition QUEUE_DEVICE_LO : Z * Z := (48, 4).
Definition QUEUE_DEVICE_HI : Z * Z := (52, 4).
Definition QUEUE_NOTIFY_DATA : Z * Z := (56, 2).
Definition QUEUE_RESET : Z * Z := (58, 2).
Definition size : Z := 60.
End CommonCfg.

(** [VirtioPciRegister]: the common registers, the ISR, then one notify register a queue. *)
Definition OFFSET_COMMON : Z := 0.
Definition OFFSET_ISR_STATUS : Z := 60.
Definition OFFSET_QUEUE_NOTIFY : Z := 64.
Definition size_of_VirtioPciRegister : Z := 64.

(** virtio/dev/dev.rs, [Register] *)
Record Register := mkRegister {
  device_feature : list Z;    (* [u32; 4] *)
  driver_feature : list Z;    (* [AtomicU32; 4] *)
  device_feature_sel : Z;
  driver_feature_sel : Z;
  queue_sel : Z;
  dev_status : Z
}.

(** virtio/dev/dev.rs, [WakeEvent]; of [StartParam] the negotiated features. *)
Inductive WakeEvent :=
| WakeNotify (q_index : Z)
| WakeShutdown
| WakeVuChannel
| WakeStart (feature : Z)
| WakeReset.
#[export] Instance WakeEvent_eq_dec : EqDecision WakeEvent.
Proof. solve_decision. Defined.

Record VirtioPciMsixVector := mkMsixVector { vec_config : Z; vec_queues : list Z }.

Record PciIrqSender (F M : Type) := mkIrqSender {
  msix_vector : VirtioPciMsixVector;
  msix_table : list (MsixTableMmioEntry F);
  irq_msi : M
}.
Arguments mkIrqSender {F M} _ _ _.
Arguments msix_vector {F M} _.
Arguments msix_table {F M} _.
Arguments irq_msi {F M} _.

(** [VirtioPciRegisterMmio].  [event_tx] is what was sent so far while the worker listens
    ([worker_alive]); [wakes] counts the notifications of its thread. *)
Record VirtioPciRegs (F M : Type) := mkRegs {
  v_reg : Register;
  v_queues : list QueueReg;
  v_irq : PciIrqSender F M;
  v_ioeventfds : bool;
  event_tx : list WakeEvent;
  worker_alive : bool;
  wakes : Z
}.
Arguments mkRegs {F M} _ _ _ _ _ _ _.
Arguments v_reg {F M} _.
Arguments v_queues {F M} _.
Arguments v_irq {F M} _.
Arguments v_ioeventfds {F M} _.
Arguments event_tx {F M} _.
Arguments worker_alive {F M} _.
Arguments wakes {F M} _.

(** hv/hv.rs, [MsiSender::create_irqfd]. *)
Class MsiIrqFd (F M : Type) := create_irqfd : stm M hv_error F.

Section Irq.
Context {F M : Type} `{IrqFd F} `{MsiSender M} `{MsiIrqFd F M}.
Implicit Types (p : PciIrqSender F M).

Definition with_msi p (m : M) : PciIrqSender F M := mkIrqSender (msix_vector p) (msix_table p) m.

(** [send]: an invalid or masked vector, or a failure to send, is only logged. *)
Definition send p (vector : Z) : PciIrqSender F M :=
  match msix_table p !! Z.to_nat vector with
  | None => p
  | Some entry =>
      if msix_get_masked entry then p
      else
        let addr := Z.lor (Z.shiftl (msix_get_addr_hi entry) 32) (msix_get_addr_lo entry) in
        with_msi p (fst (msi_send addr (msix_get_data entry) (irq_msi p)))
  end.

(** [get_irqfd]: an entry becomes an interrupt line; [f] is what the caller does with its
    file descriptor. *)
Definition get_irqfd {T} p (vector : Z) (f : F → outcome virtio_error T)
  : PciIrqSender F M * outcome virtio_error T :=
  match msix_table p !! Z.to_nat vector with
  | None => (p, Err (InvalidMsixVector vector))
  | Some (MsixIrqFd fd) => (p, f fd)
  | Some (MsixEntry e) =>
      let '(m1, r1) := create_irqfd (irq_msi p) in
      match r1 with
      | Err er => (with_msi p m1, Err (VHvError er))
      | Panic => (with_msi p m1, Panic)
      | Ok fd =>
          let setup : stm F hv_error unit :=
            (irqfd_set_addr_hi (ent_addr_hi e) ;;;
             irqfd_set_addr_lo (ent_addr_lo e) ;;;
             irqfd_set_data (ent_data e) ;;;
             irqfd_set_masked (vector_masked (ent_control e)) ;;;
             sret tt)%stm in
          match setup fd with
          | (_, Err er) => (with_msi p m1, Err (VHvError er))
          | (_, Panic) => (with_msi p m1, Panic)
          | (fd', Ok _) =>
              match f fd' with
              | Ok t => (mkIrqSender (msix_vector p)
                           (<[Z.to_nat vector := MsixIrqFd fd']> (msix_table p)) m1, Ok t)
              | Err er => (with_msi p m1, Err er)
              | Panic => (with_msi p m1, Panic)
              end
          end
      end
  end.

Definition config_irq p : PciIrqSender F M :=
  let vector := vec_config (msix_vector p) in
  if negb (vector =? VIRTIO_MSI_NO_VECTOR) then send p vector else p.

Definition pci_queue_irq (idx : Z) p : PciIrqSender F M :=
  match vec_queues (msix_vector p) !! Z.to_nat idx with
  | None => p
  | Some vector => if negb (vector =? VIRTIO_MSI_NO_VECTOR) then send p vector else p
  end.

Definition config_irqfd {T} p (f : F → outcome virtio_error T) := get_irqfd p (vec_config (msix_vector p)) f.

Definition queue_irqfd {T} p (idx : Z) (f : F → outcome virtio_error T)
  : PciIrqSender F M * outcome virtio_error T :=
  match vec_queues (msix_vector p) !! Z.to_nat idx with
  | None => (p, Err (InvalidQueueIndex idx))
  | Some vector => get_irqfd p vector f
  end.

#[global] Instance PciIrqSender_IrqSender : IrqSender (PciIrqSender F M) := pci_queue_irq.
End Irq.

Section Registers.
Context {F M C : Type} `{IrqFd F} `{MsiSender M}.
Implicit Types (v : VirtioPciRegs F M).

Definition with_reg v (r : Register) : VirtioPciRegs F M :=
  mkRegs r (v_queues v) (v_irq v) (v_ioeventfds v) (event_tx v) (worker_alive v) (wakes v).
Definition with_queues v (qs : list QueueReg) : VirtioPciRegs F M :=
  mkRegs (v_reg v) qs (v_irq v) (v_ioeventfds v) (event_tx v) (worker_alive v) (wakes v).
Definition with_irq v (i : PciIrqSender F M) : VirtioPciRegs F M :=
  mkRegs (v_reg v) (v_queues v) i (v_ioeventfds v) (event_tx v) (worker_alive v) (wakes v).

Definition wake_up_dev v (event : WakeEvent) : VirtioPciRegs F M :=
  if negb (worker_alive v) then v
  else
    let is_start := match event with WakeStart _ => true | _ => false end in
    mkRegs (v_reg v) (v_queues v) (v_irq v) (v_ioeventfds v) (event_tx v ++ [event]) true
      (if is_start then wakes v else wakes v + 1).

Definition disable_queue (q : QueueReg) : QueueReg :=
  mkQueueReg (qr_size q) (qr_desc q) (qr_driver q) (qr_device q) false.

Definition regs_reset v : VirtioPciRegs F M :=
  let i := v_irq v in
  let i' := mkIrqSender
    (mkMsixVector VIRTIO_MSI_NO_VECTOR ((λ _, VIRTIO_MSI_NO_VECTOR) <$> vec_queues (msix_vector i)))
    (msix_table_reset (msix_table i)) (irq_msi i) in
  with_queues (with_irq v i') (disable_queue <$> v_queues v).

Definition msix_change_allowed v (old : Z) : bool :=
  match msix_table (v_irq v) !! Z.to_nat old with
  | Some (MsixIrqFd _) => false
  | _ => true
  end.

Definition regs_size v : Z := size_of_VirtioPciRegister + 4 * Z.of_nat (length (v_queues v)).

(** [self.queues.get(q_sel)] and a read of one of its fields. *)
Definition sel_queue v : option QueueReg := v_queues v !! Z.to_nat (queue_sel (v_reg v)).
Definition read_queue v (f : QueueReg → Z) : Z := default 0 (f <$> sel_queue v).
Definition update_queue v (f : QueueReg → QueueReg) : VirtioPciRegs F M :=
  with_queues v (alter f (Z.to_nat (queue_sel (v_reg v))) (v_queues v)).

Definition at_field (offset size : Z) (field : Z * Z) : bool :=
  (offset =? fst field) && (size =? snd field).

Definition regs_read v (offset size : Z) : outcome mem_error Z :=
  let reg := v_reg v in
  let is_ := at_field offset size in
  if is_ CommonCfg.DEVICE_FEATURE_SELECT then Ok (device_feature_sel reg)
  else if is_ CommonCfg.DEVICE_FEATURE then
    Ok (default 0 (device_feature reg !! Z.to_nat (device_feature_sel reg)))
  else if is_ CommonCfg.DRIVER_FEATURE_SELECT then Ok (driver_feature_sel reg)
  else if is_ CommonCfg.DRIVER_FEATURE then
    Ok (default 0 (driver_feature reg !! Z.to_nat (driver_feature_sel reg)))
  else if is_ CommonCfg.CONFIG_MSIX_VECTOR then Ok (vec_config (msix_vector (v_irq v)))
  else if is_ CommonCfg.NUM_QUEUES then Ok (Z.of_nat (length (v_queues v)))
  else if is_ CommonCfg.DEVICE_STATUS then Ok (dev_status reg)
  else if is_ CommonCfg.CONFIG_GENERATION then Ok 0
  else if is_ CommonCfg.QUEUE_SELECT then Ok (queue_sel reg)
  else if is_ CommonCfg.QUEUE_SIZE then Ok (read_queue v qr_size)
  else if is_ CommonCfg.QUEUE_MSIX_VECTOR then
    Ok (default VIRTIO_MSI_NO_VECTOR (vec_queues (msix_vector (v_irq v)) !! Z.to_nat (queue_sel reg)))
  else if is_ CommonCfg.QUEUE_ENABLE then Ok (read_queue v (λ q, Z.b2z (qr_enabled q)))
  else if is_ CommonCfg.QUEUE_NOTIFY_OFF then Ok (queue_sel reg)
  else if is_ CommonCfg.QUEUE_DESC_LO then Ok (read_queue v (λ q, get_low32 (qr_desc q)))
  else if is_ CommonCfg.QUEUE_DESC_HI then Ok (read_queue v (λ q, get_high32 (qr_desc q)))
  else if is_ CommonCfg.QUEUE_DRIVER_LO then Ok (read_queue v (λ q, get_high32 (qr_driver q)))
  else if is_ CommonCfg.QUEUE_DRIVER_HI then Ok (read_queue v (λ q, get_high32 (qr_driver q)))
  else if is_ CommonCfg.QUEUE_DEVICE_LO then Ok (read_queue v (λ q, get_high32 (qr_device q)))
  else if is_ CommonCfg.QUEUE_DEVICE_HI then Ok (read_queue v (λ q, get_high32 (qr_device q)))
  else if is_ CommonCfg.QUEUE_NOTIFY_DATA then Panic    (* todo!() *)
  else if is_ CommonCfg.QUEUE_RESET then Panic          (* todo!() *)
  else Ok 0.

(** The features the driver accepted, as one 128-bit word. *)
Fixpoint or_features (i : Z) (fs : list Z) : Z :=
  match fs with [] => 0 | f :: fs' => Z.lor (Z.shiftl f (Z.shiftl i 5)) (or_features (i + 1) fs') end.

Definition set_status v (s : Z) : VirtioPciRegs F M :=
  let r := v_reg v in
  with_reg v (mkRegister (device_feature r) (driver_feature r) (device_feature_sel r)
                (driver_feature_sel r) (queue_sel r) s).

(** The device status arm. *)
Definition write_status v (val : Z) : VirtioPciRegs F M :=
  let status := DevStatus.from_bits_truncate (u8 val) in
  let old := dev_status (v_reg v) in
  let v1 := set_status v status in
  if contains (Z.lxor old status) DevStatus.DRIVER_OK then
    if contains status DevStatus.DRIVER_OK
    then wake_up_dev v1 (WakeStart (or_features 0 (driver_feature (v_reg v1))))
    else wake_up_dev (regs_reset v1) WakeReset
  else v1.

Definition set_msix_vectors v (x : VirtioPciMsixVector) : VirtioPciRegs F M :=
  with_irq v (mkIrqSender x (msix_table (v_irq v)) (irq_msi (v_irq v))).

Definition write_config_vector v (val : Z) : VirtioPciRegs F M :=
  let x := msix_vector (v_irq v) in
  if msix_change_allowed v (vec_config x) then set_msix_vectors v (mkMsixVector (u16 val) (vec_queues x))
  else v.

Definition write_queue_vector v (val : Z) : VirtioPciRegs F M :=
  let x := msix_vector (v_irq v) in
  let i := Z.to_nat (queue_sel (v_reg v)) in
  match vec_queues x !! i with
  | None => v
  | Some old =>
      if msix_change_allowed v old
      then set_msix_vectors v (mkMsixVector (vec_config x) (<[i := u16 val]> (vec_queues x)))
      else v
  end.

Definition q_set_desc (f : Z → Z) (q : QueueReg) : QueueReg :=
  mkQueueReg (qr_size q) (f (qr_desc q)) (qr_driver q) (qr_device q) (qr_enabled q).
Definition q_set_driver (f : Z → Z) (q : QueueReg) : QueueReg :=
  mkQueueReg (qr_size q) (qr_desc q) (f (qr_driver q)) (qr_device q) (qr_enabled q).
Definition q_set_device (f : Z → Z) (q : QueueReg) : QueueReg :=
  mkQueueReg (qr_size q) (qr_desc q) (qr_driver q) (f (qr_device q)) (qr_enabled q).

Definition regs_write v (offset size val : Z) : VirtioPciRegs F M * outcome mem_error (Action C) :=
  let reg := v_reg v in
  let is_ := at_field offset size in
  let done_ v' := (v', Ok ActNone) in
  if is_ CommonCfg.DEVICE_FEATURE_SELECT then
    done_ (with_reg v (mkRegister (device_feature reg) (driver_feature reg) (u8 val)
                         (driver_feature_sel reg) (queue_sel reg) (dev_status reg)))
  else if is_ CommonCfg.DRIVER_FEATURE_SELECT then
    done_ (with_reg v (mkRegister (device_feature reg) (driver_feature reg) (device_feature_sel reg)
                         (u8 val) (queue_sel reg) (dev_status reg)))
  else if is_ CommonCfg.DRIVER_FEATURE then
    done_ (with_reg v (mkRegister (device_feature reg)
                         (<[Z.to_nat (driver_feature_sel reg) := u32 val]> (driver_feature reg))
                         (device_feature_sel reg) (driver_feature_sel reg) (queue_sel reg)
                         (dev_status reg)))
  else if is_ CommonCfg.CONFIG_MSIX_VECTOR then done_ (write_config_vector v val)
  else if is_ CommonCfg.DEVICE_STATUS then done_ (write_status v val)
  else if is_ CommonCfg.QUEUE_SELECT then
    done_ (with_reg v (mkRegister (device_feature reg) (driver_feature reg) (device_feature_sel reg)
                         (driver_feature_sel reg) (u16 val) (dev_status reg)))
  else if is_ CommonCfg.QUEUE_SIZE then
    done_ (update_queue v (λ q, mkQueueReg (u16 val) (qr_desc q) (qr_driver q) (qr_device q) (qr_enabled q)))
  else if is_ CommonCfg.QUEUE_MSIX_VECTOR then done_ (write_queue_vector v val)
  else if is_ CommonCfg.QUEUE_ENABLE then
    done_ (update_queue v
      (λ q, mkQueueReg (qr_size q) (qr_desc q) (qr_driver q) (qr_device q) (negb (val =? 0))))
  else if is_ CommonCfg.QUEUE_DESC_LO then
    done_ (update_queue v (q_set_desc (λ a, set_low32 a (u32 val))))
  else if is_ CommonCfg.QUEUE_DESC_HI then
    done_ (update_queue v (q_set_desc (λ a, set_high32 a (u32 val))))
  else if is_ CommonCfg.QUEUE_DRIVER_LO then
    done_ (update_queue v (q_set_driver (λ a, set_low32 a (u32 val))))
  else if is_ CommonCfg.QUEUE_DRIVER_HI then
    done_ (update_queue v (q_set_driver (λ a, set_high32 a (u32 val))))
  else if is_ CommonCfg.QUEUE_DEVICE_LO then
    done_ (update_queue v (q_set_device (λ a, set_low32 a (u32 val))))
  else if is_ CommonCfg.QUEUE_DEVICE_HI then
    done_ (update_queue v (q_set_device (λ a, set_high32 a (u32 val))))
  else if is_ CommonCfg.QUEUE_RESET then (v, Panic)     (* todo!() *)
  else if (OFFSET_QUEUE_NOTIFY <=? offset) &&
          (offset <? OFFSET_QUEUE_NOTIFY + 4 * Z.of_nat (length (v_queues v))) then
    done_ (wake_up_dev v (WakeNotify (u16 (offset - OFFSET_QUEUE_NOTIFY) / 4)))
  else done_ v.

(** [Pci::reset] of the device: the host's reset. *)
Definition VirtioPciDevice_reset v : VirtioPciRegs F M :=
  set_status (regs_reset (wake_up_dev v WakeReset)) 0.
End Registers.
