(* ===== verification/VirtioPciThm.v ===== *)
(** * Correctness of the virtio register block (virtio/pci.rs)

    Queue addresses, the life cycle events a driver's status writes produce,
    interrupt delivery through the MSI-X table, and feature negotiation. *)

From S2P Require Import Prelude Utils MemTypes Emulated PciConfig PciCap PciCapThm IoApic VirtQueue VirtioPci.

Section Writes.
Context {F M C : Type} `{IrqFd F} `{MsiSender M}.
Implicit Types (v : VirtioPciRegs F M).

(** A sequence of register writes: (field, value). *)
Definition write_field v (w : (Z * Z) * Z) : VirtioPciRegs F M :=
  fst (regs_write (C := C) v (fst (fst w)) (snd (fst w)) (snd w)).
Definition write_fields v (ws : list ((Z * Z) * Z)) : VirtioPciRegs F M := foldl write_field v ws.

(** ** Queue registers *)

Lemma set_low_high32 a x : in_u 64 a → in_u 64 x → set_high32 (set_low32 a (get_low32 x)) (get_high32 x) = x.
Proof.
  intros Ha Hx. assert (in_u 32 (get_low32 x)) by (apply wrap_in_u; lia).
  assert (in_u 32 (get_high32 x)) by (apply wrap_in_u; lia).
  assert (in_u 64 (set_low32 a (get_low32 x))) as Hl by by apply set_low32_in_u.
  rewrite (low_high32 x Hx) at 3.
  rewrite (low_high32 (set_high32 _ _)) by by apply set_high32_in_u.
  destruct (get_set_high32 (set_low32 a (get_low32 x)) (get_high32 x)) as [-> ->]; [done..|].
  by destruct (get_set_low32 a (get_low32 x)) as [-> _].
Qed.

(** What a driver writes to set up queue [i]. *)
Definition queue_setup (i size desc driver device : Z) : list ((Z * Z) * Z) :=
  [(CommonCfg.QUEUE_SELECT, i); (CommonCfg.QUEUE_SIZE, size);
   (CommonCfg.QUEUE_DESC_LO, get_low32 desc); (CommonCfg.QUEUE_DESC_HI, get_high32 desc);
   (CommonCfg.QUEUE_DRIVER_LO, get_low32 driver); (CommonCfg.QUEUE_DRIVER_HI, get_high32 driver);
   (CommonCfg.QUEUE_DEVICE_LO, get_low32 device); (CommonCfg.QUEUE_DEVICE_HI, get_high32 device);
   (CommonCfg.QUEUE_ENABLE, 1)].

Definition queue_reg_ok (q : QueueReg) : Prop :=
  in_u 64 (qr_desc q) ∧ in_u 64 (qr_driver q) ∧ in_u 64 (qr_device q).

Lemma write_select v i :
  in_u 16 i → queue_sel (v_reg (write_field v (CommonCfg.QUEUE_SELECT, i))) = i ∧
  v_queues (write_field v (CommonCfg.QUEUE_SELECT, i)) = v_queues v.
Proof. intros Hi. cbn. by rewrite wrap_small. Qed.

Lemma update_queue_sel v f : queue_sel (v_reg (update_queue v f)) = queue_sel (v_reg v).
Proof. done. Qed.
Lemma update_queue_queues v f :
  v_queues (update_queue v f) = alter f (Z.to_nat (queue_sel (v_reg v))) (v_queues v).
Proof. done. Qed.

(** Each queue register is a field of the selected queue. *)
Lemma write_queue_size v x :
  write_field v (CommonCfg.QUEUE_SIZE, x)
  = update_queue v (λ q, mkQueueReg (u16 x) (qr_desc q) (qr_driver q) (qr_device q) (qr_enabled q)).
Proof. done. Qed.
Lemma write_queue_enable v x :
  write_field v (CommonCfg.QUEUE_ENABLE, x)
  = update_queue v (λ q, mkQueueReg (qr_size q) (qr_desc q) (qr_driver q) (qr_device q) (negb (x =? 0))).
Proof. done. Qed.
Lemma write_desc_lo v x :
  write_field v (CommonCfg.QUEUE_DESC_LO, x)
  = update_queue v (q_set_desc (λ a, set_low32 a (u32 x))).
Proof. done. Qed.
Lemma write_desc_hi v x :
  write_field v (CommonCfg.QUEUE_DESC_HI, x)
  = update_queue v (q_set_desc (λ a, set_high32 a (u32 x))).
Proof. done. Qed.
Lemma write_driver_lo v x :
  write_field v (CommonCfg.QUEUE_DRIVER_LO, x)
  = update_queue v (q_set_driver (λ a, set_low32 a (u32 x))).
Proof. done. Qed.
Lemma write_driver_hi v x :
  write_field v (CommonCfg.QUEUE_DRIVER_HI, x)
  = update_queue v (q_set_driver (λ a, set_high32 a (u32 x))).
Proof. done. Qed.
Lemma write_device_lo v x :
  write_field v (CommonCfg.QUEUE_DEVICE_LO, x)
  = update_queue v (q_set_device (λ a, set_low32 a (u32 x))).
Proof. done. Qed.
Lemma write_device_hi v x :
  write_field v (CommonCfg.QUEUE_DEVICE_HI, x)
  = update_queue v (q_set_device (λ a, set_high32 a (u32 x))).
Proof. done. Qed.

Lemma setup_lo x : u32 (get_low32 x) = get_low32 x.
Proof. unfold get_low32. by rewrite wrap_wrap. Qed.
Lemma setup_hi x : u32 (get_high32 x) = get_high32 x.
Proof. unfold get_high32. by rewrite wrap_wrap. Qed.

Lemma queue_setup_spec v (i : nat) q size desc driver device :
  v_queues v !! i = Some q → queue_reg_ok q → Z.of_nat i < 2 ^ 16 → in_u 16 size →
  in_u 64 desc → in_u 64 driver → in_u 64 device →
  let v' := write_fields v (queue_setup (Z.of_nat i) size desc driver device) in
  queue_sel (v_reg v') = Z.of_nat i ∧
  v_queues v' = <[i := mkQueueReg size desc driver device true]> (v_queues v).
Proof.
  intros Hq (Hd&Ha&Hu) Hi Hs Hdesc Hdrv Hdev v'. subst v'. unfold queue_setup, write_fields.
  cbn [foldl]. destruct (write_select v (Z.of_nat i)) as [Hsel Hqs]; [unfold in_u; lia|].
  set (v1 := write_field v _) in *. clearbody v1.
  rewrite !write_queue_size, !write_desc_lo, !write_desc_hi, !write_driver_lo, !write_driver_hi,
    !write_device_lo, !write_device_hi, !write_queue_enable.
  rewrite !update_queue_sel, !update_queue_queues, !update_queue_sel, Hsel, Hqs, Nat2Z.id.
  split; [done|]. apply list_eq. intros j. destruct (decide (j = i)) as [->|Hne].
  - rewrite !list_lookup_alter_eq, Hq. rewrite list_lookup_insert_eq by by eapply lookup_lt_Some.
    cbn [fmap option_fmap option_map q_set_desc q_set_driver q_set_device qr_size qr_desc qr_driver
         qr_device qr_enabled Z.eqb negb].
    rewrite !setup_lo, !setup_hi, !set_low_high32, wrap_small by done. done.
  - rewrite !list_lookup_alter_ne, list_lookup_insert_ne by done. done.
Qed.

(** C28: Queue set-up.  Selecting queue [i] and writing its size, the two halves of its three
    ring addresses and its enable register makes exactly that queue hold the size and the
    three 64-bit addresses, enabled, and leaves every other queue as it was. *)
Theorem virtio_queue_setup v (i : nat) q size desc driver device :
  v_queues v !! i = Some q → queue_reg_ok q → Z.of_nat i < 2 ^ 16 → in_u 16 size →
  in_u 64 desc → in_u 64 driver → in_u 64 device →
  v_queues (write_fields v (queue_setup (Z.of_nat i) size desc driver device))
    = <[i := mkQueueReg size desc driver device true]> (v_queues v).
Proof. intros. by eapply queue_setup_spec. Qed.

(** C40: Reading the queue address registers back.  After the same set-up the descriptor
    address reads back in both halves, but the low halves of the driver and device
    addresses read as their high halves. *)
Theorem virtio_address_low_reads_high v (i : nat) q size desc driver device :
  v_queues v !! i = Some q → queue_reg_ok q → Z.of_nat i < 2 ^ 16 → in_u 16 size →
  in_u 64 desc → in_u 64 driver → in_u 64 device →
  let v' := write_fields v (queue_setup (Z.of_nat i) size desc driver device) in
  let rd f := regs_read v' (fst f) (snd f) in
  rd CommonCfg.QUEUE_DESC_LO = Ok (get_low32 desc) ∧ rd CommonCfg.QUEUE_DESC_HI = Ok (get_high32 desc) ∧
  rd CommonCfg.QUEUE_DRIVER_HI = Ok (get_high32 driver) ∧
  rd CommonCfg.QUEUE_DEVICE_HI = Ok (get_high32 device) ∧
  rd CommonCfg.QUEUE_DRIVER_LO = Ok (get_high32 driver) ∧
  rd CommonCfg.QUEUE_DEVICE_LO = Ok (get_high32 device).
Proof.
  intros Hq Hok Hi Hs Hd Ha Hu v' rd.
  destruct (queue_setup_spec v i q size desc driver device) as [Hsel Hqs]; [done..|]. fold v' in Hsel, Hqs.
  assert (sel_queue v' = Some (mkQueueReg size desc driver device true)) as Hq'.
  { unfold sel_queue. rewrite Hsel, Hqs, Nat2Z.id. apply list_lookup_insert_eq.
    by eapply lookup_lt_Some. }
  unfold rd. clearbody v'. unfold regs_read, read_queue. cbn. rewrite Hq'. done.
Qed.

(** ** The life cycle of the device *)

(** A worker that takes Start only when idle and Reset only when running. *)
Definition worker_step (st : option bool) (e : WakeEvent) : option bool :=
  running ← st;
  match e with
  | WakeStart _ => if (running : bool) then None else Some true
  | WakeReset => if (running : bool) then Some false else None
  | _ => Some running
  end.
Definition worker_run (es : list WakeEvent) : option bool := foldl worker_step (Some false) es.

Definition driver_ok v : bool := contains (dev_status (v_reg v)) DevStatus.DRIVER_OK.

Lemma driver_ok_bit x : contains x DevStatus.DRIVER_OK = bit_get x 2.
Proof.
  unfold contains, bit_get. change DevStatus.DRIVER_OK with (2 ^ 2).
  destruct (Z.testbit x 2) eqn:E.
  - apply Z.eqb_eq. apply Z.bits_inj'. intros i Hi. rewrite Z.land_spec.
    destruct (decide (i = 2)) as [->|]; [by rewrite E|].
    rewrite (Z.pow2_bits_false 2 i) by lia. apply andb_false_r.
  - apply Z.eqb_neq. intros Hl. apply (f_equal (λ z, Z.testbit z 2)) in Hl.
    rewrite Z.land_spec, E in Hl. done.
Qed.

Lemma write_status_run v val :
  worker_alive v = true → worker_run (event_tx v) = Some (driver_ok v) →
  worker_alive (write_status v val) = true ∧
  worker_run (event_tx (write_status v val)) = Some (driver_ok (write_status v val)).
Proof.
  intros Hal Hrun. unfold write_status. set (s := DevStatus.from_bits_truncate (u8 val)). cbn zeta.
  unfold driver_ok in *. rewrite !driver_ok_bit in *.
  unfold bit_get in *. rewrite Z.lxor_spec.
  destruct (Z.testbit s 2) eqn:E2, (Z.testbit (dev_status (v_reg v)) 2) eqn:E1; cbn [xorb];
    unfold wake_up_dev, worker_run in *; cbn -[s Z.testbit]; rewrite ?Hal; cbn -[s Z.testbit];
    rewrite ?foldl_app, ?Hrun; cbn -[s Z.testbit]; rewrite ?E2; done.
Qed.

Lemma regs_write_run v offset size val :
  worker_alive v = true → worker_run (event_tx v) = Some (driver_ok v) →
  let v' := fst (regs_write (C := C) v offset size val) in
  worker_alive v' = true ∧ worker_run (event_tx v') = Some (driver_ok v').
Proof.
  intros Hal Hrun v'. subst v'. unfold regs_write. cbn zeta.
  repeat case_match; try (by split); try (by apply write_status_run); cbn [fst].
  - unfold write_config_vector. by case_match.
  - unfold write_queue_vector. repeat case_match; by split.
  - unfold wake_up_dev. rewrite Hal. cbn. split; [done|].
    unfold worker_run. rewrite foldl_app. fold (worker_run (event_tx v)). by rewrite Hrun.
Qed.

Definition guest_run v (ws : list (Z * Z * Z)) : VirtioPciRegs F M :=
  foldl (λ v w, fst (regs_write (C := C) v (fst (fst w)) (snd (fst w)) (snd w))) v ws.

(** C27: Start and Reset alternate.  Whatever registers the guest writes, in any order and with any
    sizes and values, the worker of a freshly created device receives Start only while the
    device is idle and Reset only while it runs, beginning with a Start; and at every moment it
    has been told to run exactly if the DRIVER_OK bit of the status register is set. *)
Theorem virtio_start_reset_alternate v (ws : list (Z * Z * Z)) :
  worker_alive v = true → event_tx v = [] → dev_status (v_reg v) = 0 →
  worker_run (event_tx (guest_run v ws)) = Some (driver_ok (guest_run v ws)).
Proof.
  intros Hal He Hs.
  assert (worker_run (event_tx v) = Some (driver_ok v)) as Hrun
    by (unfold driver_ok; by rewrite He, Hs).
  clear He Hs. unfold guest_run. revert v Hal Hrun.
  induction ws as [|w ws IH]; intros v Hal Hrun; [done|]. cbn [foldl].
  destruct (regs_write_run v (fst (fst w)) (snd (fst w)) (snd w) Hal Hrun) as [Ha Hr].
  by apply IH.
Qed.

(** ** Interrupts *)

(** The four writes that program and unmask entry [vec] of the MSI-X table. *)
Definition program_vector (t : list (MsixTableMmioEntry F)) (vec addr_lo addr_hi data : Z)
  : list (MsixTableMmioEntry F) :=
  let w t off x := fst (msix_write_val t (16 * vec + off) 4 x) in
  w (w (w (w t 0 addr_lo) 4 addr_hi) 8 data) 12 0.

Lemma msix_write_entry (t : list (MsixTableMmioEntry F)) (vec : nat) e off x :
  t !! vec = Some (MsixEntry e) → off ∈ [0; 4; 8; 12] →
  fst (msix_write_val t (16 * Z.of_nat vec + off) 4 x) =
  <[vec := MsixEntry
     (if off =? 0 then mkMsixEntry (u32 x) (ent_addr_hi e) (ent_data e) (ent_control e)
      else if off =? 4 then mkMsixEntry (ent_addr_lo e) (u32 x) (ent_data e) (ent_control e)
      else if off =? 8 then mkMsixEntry (ent_addr_lo e) (ent_addr_hi e) (u32 x) (ent_control e)
      else mkMsixEntry (ent_addr_lo e) (ent_addr_hi e) (ent_data e)
             (set_vector_masked (ent_control e) (vector_masked (u32 x))))]> t.
Proof.
  intros Ht Hoff. unfold msix_write_val.
  assert (0 ≤ off < 16 ∧ off mod 4 = 0) as [Hr H4] by (repeat (apply elem_of_cons in Hoff as [->|Hoff];
    [done|]); by apply elem_of_nil in Hoff).
  assert (Z.land (16 * Z.of_nat vec + off) 3 = 0) as ->.
  { change 3 with (Z.ones 2). rewrite Z.land_ones by lia. change (2 ^ 2) with 4.
    replace (16 * Z.of_nat vec + off) with (off + (4 * Z.of_nat vec) * 4) by lia.
    rewrite Z_mod_plus_full. done. }
  cbn [Z.eqb negb orb Pos.eqb].
  assert ((16 * Z.of_nat vec + off) / 16 = Z.of_nat vec) as ->
    by (symmetry; apply (Z.div_unique_pos _ _ _ off); lia).
  assert ((16 * Z.of_nat vec + off) mod 16 = off) as ->
    by (symmetry; apply (Z.mod_unique_pos _ _ (Z.of_nat vec)); lia).
  rewrite Nat2Z.id, Ht. by repeat case_match.
Qed.

Lemma program_vector_spec (t : list (MsixTableMmioEntry F)) (vec : nat) e lo hi data :
  t !! vec = Some (MsixEntry e) → in_u 32 lo → in_u 32 hi → in_u 32 data →
  ∃ c, program_vector t (Z.of_nat vec) lo hi data !! vec = Some (MsixEntry (mkMsixEntry lo hi data c)) ∧
       vector_masked c = false.
Proof.
  intros Ht Hlo Hhi Hd. pose proof (lookup_lt_Some _ _ _ Ht) as Hlt. unfold program_vector. cbn zeta.
  rewrite (msix_write_entry t vec e 0) by (done || set_solver).
  erewrite (msix_write_entry _ vec _ 4); [|by apply list_lookup_insert_eq|set_solver].
  erewrite (msix_write_entry _ vec _ 8);
    [|by apply list_lookup_insert_eq; rewrite length_insert|set_solver].
  erewrite (msix_write_entry _ vec _ 12);
    [|by apply list_lookup_insert_eq; rewrite !length_insert|set_solver].
  cbn [Z.eqb Pos.eqb ent_addr_lo ent_addr_hi ent_data ent_control].
  rewrite list_lookup_insert_eq by by rewrite !length_insert.
  eexists. rewrite !wrap_small by (done || unfold in_u; lia). split; [done|]. by apply bit_get_set.
Qed.

(** C29: Interrupt delivery.  Once the guest has programmed and unmasked an entry of the MSI-X
    table and written its number to the vector register of a queue, an interrupt of that queue
    sends exactly one message: the programmed 64-bit address and data. *)
Theorem virtio_irq_delivery v (i vec : nat) old e lo hi data :
  vec_queues (msix_vector (v_irq v)) !! i = Some old → msix_change_allowed v old = true →
  msix_table (v_irq v) !! vec = Some (MsixEntry e) →
  queue_sel (v_reg v) = Z.of_nat i → Z.of_nat vec < VIRTIO_MSI_NO_VECTOR →
  in_u 32 lo → in_u 32 hi → in_u 32 data →
  let v1 := write_field v (CommonCfg.QUEUE_MSIX_VECTOR, Z.of_nat vec) in
  let p := v_irq v1 in
  let p' := mkIrqSender (msix_vector p) (program_vector (msix_table p) (Z.of_nat vec) lo hi data) (irq_msi p) in
  irq_msi (pci_queue_irq (Z.of_nat i) p') = fst (msi_send (Z.lor (Z.shiftl hi 32) lo) data (irq_msi (v_irq v))).
Proof.
  intros Hq Hal Ht Hsel Hvec Hlo Hhi Hd v1 p p'.
  assert (v1 = write_queue_vector v (Z.of_nat vec)) as Ev by done.
  unfold write_queue_vector in Ev. rewrite Hsel, Nat2Z.id, Hq, Hal in Ev.
  unfold VIRTIO_MSI_NO_VECTOR in *. rewrite wrap_small in Ev by (unfold in_u; lia).
  assert (msix_table p = msix_table (v_irq v)) as Et by (unfold p; by rewrite Ev).
  assert (irq_msi p = irq_msi (v_irq v)) as Em by (unfold p; by rewrite Ev).
  assert (vec_queues (msix_vector p) !! i = Some (Z.of_nat vec)) as Hv.
  { unfold p. rewrite Ev. cbn. apply list_lookup_insert_eq. by eapply lookup_lt_Some. }
  destruct (program_vector_spec (msix_table p) vec e lo hi data) as (c&Hc&Hm); [by rewrite Et|done..|].
  unfold pci_queue_irq, p'. cbn [msix_vector]. rewrite Nat2Z.id, Hv.
  unfold VIRTIO_MSI_NO_VECTOR. rewrite (proj2 (Z.eqb_neq _ _)) by lia. cbn [negb].
  unfold send. cbn [msix_table]. rewrite Nat2Z.id, Hc.
  cbn [msix_get_masked ent_control]. rewrite Hm. cbn [irq_msi with_msi]. by rewrite Em.
Qed.
End Writes.

(** ** A device with two queues *)

Module DemoVirtio.
(** Messages sent so far. *)
#[export] Instance log_msi : MsiSender (list (Z * Z)) := λ a d l, (l ++ [(a, d)], Ok tt).
Definition queue0 : QueueReg := mkQueueReg 256 0 0 0 false.
Definition regs : VirtioPciRegs DemoIrq.line (list (Z * Z)) :=
  mkRegs (mkRegister [0; 1; 0; 0] [0; 0; 0; 0] 0 0 0 0) [queue0; queue0]
    (mkIrqSender (mkMsixVector VIRTIO_MSI_NO_VECTOR [VIRTIO_MSI_NO_VECTOR; VIRTIO_MSI_NO_VECTOR])
       (replicate 3 (MsixEntry MsixTableEntry_default)) [])
    false [] true 0.
End DemoVirtio.
Import (hints) DemoIrq DemoVirtio.

Lemma virtio_queue_setup_witness :
  v_queues (write_fields (C := Empty_set) DemoVirtio.regs
              (queue_setup 1 64 0x100000000 0x100001000 0x200000040))
  = [DemoVirtio.queue0; mkQueueReg 64 0x100000000 0x100001000 0x200000040 true].
Proof.
  apply (virtio_queue_setup (C := Empty_set) DemoVirtio.regs 1 DemoVirtio.queue0); by_eval.
Defined.

Lemma virtio_address_low_reads_high_witness :
  let v' := write_fields (C := Empty_set) DemoVirtio.regs
              (queue_setup 1 64 0x100000000 0x100001000 0x200000040) in
  regs_read v' 40 4 = Ok 1 ∧ get_low32 0x100001000 = 0x1000.
Proof.
  split; [|reflexivity].
  apply (virtio_address_low_reads_high (C := Empty_set) DemoVirtio.regs 1 DemoVirtio.queue0 64
           0x100000000 0x100001000 0x200000040); by_eval.
Defined.

Lemma virtio_start_reset_alternate_witness :
  let v' := guest_run (C := Empty_set) DemoVirtio.regs [(20, 1, 3); (20, 1, 15); (64, 2, 0); (20, 1, 0)] in
  event_tx v' = [WakeStart 0; WakeNotify 0; WakeReset] ∧ worker_run (event_tx v') = Some false.
Proof.
  split; [vm_compute; reflexivity|].
  apply (virtio_start_reset_alternate (C := Empty_set) DemoVirtio.regs); reflexivity.
Defined.

Lemma virtio_irq_delivery_witness :
  let p := v_irq (write_field (C := Empty_set) DemoVirtio.regs (CommonCfg.QUEUE_MSIX_VECTOR, 2)) in
  irq_msi (pci_queue_irq 0
    (mkIrqSender (msix_vector p) (program_vector (msix_table p) 2 0xfee00000 0x1 0x41) (irq_msi p)))
  = [(0x1fee00000, 0x41)].
Proof.
  transitivity (fst (msi_send (Z.lor (Z.shiftl 0x1 32) 0xfee00000) 0x41 ([] : list (Z * Z))));
    [|reflexivity].
  apply (virtio_irq_delivery (C := Empty_set) DemoVirtio.regs 0 2 VIRTIO_MSI_NO_VECTOR
           MsixTableEntry_default 0xfee00000 0x1 0x41); by_eval.
Defined.
