(* ===== verification/VirtioPciDev.v ===== *)
(** * Building a virtio PCI device: virtio/pci.rs ([VirtioPciDevice::new])

    The configuration header, the capabilities that tell the driver where the
    registers are, BAR 0 with the MSI-X table, the registers and the device configuration,
    and the ioeventfds registered on its notify registers. *)

From S2P Require Import Prelude Utils MemTypes Addressable Emulated Mapped Memory PciConfig PciCap.
From S2P Require Import IoApic VirtQueue VirtioPci.

Open Scope stm_scope.

Definition VIRTIO_VENDOR_ID : Z := 0x1af4.
Definition VIRTIO_DEVICE_ID_BASE : Z := 0x1040.

(** virtio/virtio.rs *)
Module DeviceId.
Definition NET : Z := 1.
Definition BLOCK : Z := 2.
Definition ENTROPY : Z := 4.
Definition BALLOON : Z := 5.
Definition SOCKET : Z := 19.
Definition IOMMU : Z := 23.
Definition MEM : Z := 24.
Definition FILE_SYSTEM : Z := 26.
Definition PMEM : Z := 27.
End DeviceId.

Definition get_class (id : Z) : Z * Z :=
  if id =? DeviceId.NET then (0x02, 0x00)
  else if id =? DeviceId.FILE_SYSTEM then (0x01, 0x80)
  else if id =? DeviceId.BLOCK then (0x01, 0x00)
  else if id =? DeviceId.SOCKET then (0x02, 0x80)
  else (0xff, 0x00).

Module VirtioPciCfg.
Definition COMMON : Z := 1.
Definition NOTIFY : Z := 2.
Definition ISR : Z := 3.
Definition DEVICE : Z := 4.
Definition PCI : Z := 5.
Definition SHARED_MEMORY : Z := 8.
Definition VENDOR : Z := 9.
End VirtioPciCfg.

(** ** Capabilities *)

Record VirtioPciCap := mkVirtioCap {
  vc_header : PciCapHdr;
  vc_len : Z;
  vc_type : Z;
  vc_bar : Z;
  vc_id : Z;
  vc_offset : Z;
  vc_length : Z
}.

Definition virtio_cap_bytes (c : VirtioPciCap) : list Z :=
  cap_hdr_bytes (vc_header c) ++ le_bytes 1 (vc_len c) ++ le_bytes 1 (vc_type c) ++
  le_bytes 1 (vc_bar c) ++ le_bytes 1 (vc_id c) ++ [0; 0] ++
  le_bytes 4 (vc_offset c) ++ le_bytes 4 (vc_length c).

Definition virtio_cap_set_next (c : VirtioPciCap) (val : Z) : VirtioPciCap :=
  mkVirtioCap (mkCapHdr (cap_id (vc_header c)) val) (vc_len c) (vc_type c) (vc_bar c) (vc_id c)
    (vc_offset c) (vc_length c).

(** The boxed capabilities of a virtio device: MSI-X, [VirtioPciCap], [VirtioPciCap64],
    [VirtioPciNotifyCap]. *)
Inductive VirtioCap :=
| CapMsix (c : MsixCap)
| CapVirtio (c : VirtioPciCap)
| CapVirtio64 (c : VirtioPciCap) (offset_hi length_hi : Z)
| CapNotify (c : VirtioPciCap) (multiplier : Z).

(** The bytes of the three [zerocopy] structures. *)
Definition virtio_bytes (c : VirtioCap) : list Z :=
  match c with
  | CapMsix m => msix_cap_bytes m
  | CapVirtio c => virtio_cap_bytes c
  | CapVirtio64 c oh lh => virtio_cap_bytes c ++ le_bytes 4 oh ++ le_bytes 4 lh
  | CapNotify c mult => virtio_cap_bytes c ++ le_bytes 4 mult
  end.

Definition virtio_set_next (c : VirtioCap) (val : Z) : VirtioCap :=
  match c with
  | CapMsix m => CapMsix (MsixCap_set_next m val)
  | CapVirtio c => CapVirtio (virtio_cap_set_next c val)
  | CapVirtio64 c oh lh => CapVirtio64 (virtio_cap_set_next c val) oh lh
  | CapNotify c mult => CapNotify (virtio_cap_set_next c val) mult
  end.

Section Caps.
Context {C : Type}.

#[global] Instance virtio_cap : PciCap VirtioCap C := {|
  cap_size := λ c, Z.of_nat (length (virtio_bytes c));
  cap_read := λ c offset size, Ok (zerocopy_read (virtio_bytes c) offset size);
  cap_write := λ c offset size val,
    match c with
    | CapMsix m => let r := MsixCap_write m offset size val in (CapMsix (fst r), snd r)
    | _ => (c, Ok ActNone)
    end;
  cap_set_next := virtio_set_next;
  cap_reset := λ c,
    match c with
    | CapMsix m => let r := MsixCap_reset m in (CapMsix (fst r), snd r)
    | _ => (c, Ok tt)
    end
|}.
End Caps.

(** ** The layout of BAR 0 *)

Definition msix_table_offset : Z := 0.
Definition msix_pba_offset : Z := Z.shiftl 8 10.
Definition virtio_register_offset : Z := Z.shiftl 12 10.
Definition bar0_size : Z := Z.shiftl 16 10.
Definition device_config_offset (num_queues : Z) : Z :=
  virtio_register_offset + size_of_VirtioPciRegister + 4 * num_queues.

Definition vendor_hdr : PciCapHdr := mkCapHdr PciCapId.VENDOR 0.

Definition cap_msix (num_queues : Z) : MsixCap :=
  mkMsixCap (mkCapHdr PciCapId.MSIX 0) (MsixMsgCtrl.new (u16 (num_queues + 1)))
    (MsixCapOffset.new (u32 msix_table_offset) 0) (MsixCapOffset.new (u32 msix_pba_offset) 0).
Definition cap_common : VirtioPciCap :=
  mkVirtioCap vendor_hdr 16 VirtioPciCfg.COMMON 0 0
    (u32 (virtio_register_offset + OFFSET_COMMON)) CommonCfg.size.
Definition cap_isr : VirtioPciCap :=
  mkVirtioCap vendor_hdr 16 VirtioPciCfg.ISR 0 0 (u32 (virtio_register_offset + OFFSET_ISR_STATUS)) 4.
Definition cap_notify (num_queues : Z) : VirtioPciCap :=
  mkVirtioCap vendor_hdr 20 VirtioPciCfg.NOTIFY 0 0
    (u32 (virtio_register_offset + OFFSET_QUEUE_NOTIFY)) (u32 (4 * num_queues)).
Definition cap_device_config (num_queues config_size : Z) : VirtioPciCap :=
  mkVirtioCap vendor_hdr 16 VirtioPciCfg.DEVICE 0 0 (u32 (device_config_offset num_queues)) (u32 config_size).

(** The shared memory capabilities: one for each entry, with running offsets. *)
Fixpoint shared_caps (index offset : Z) (entries : list MemRegionEntry) : list VirtioCap :=
  match entries with
  | [] => []
  | e :: es =>
      CapVirtio64
        (mkVirtioCap vendor_hdr 24 VirtioPciCfg.SHARED_MEMORY 2 (u8 index) (u32 offset) (u32 (entry_size e)))
        (u32 (Z.shiftr offset 32)) (u32 (Z.shiftr (entry_size e) 32))
      :: shared_caps (index + 1) (u64 (offset + entry_size e)) es
  end.

Section Device.
Context {W R C CB F M : Type} `{Mmio W R C} `{IrqFd F} `{MsiSender M}.

(** What [VirtioDevice] brings: identity, features, number of queues, configuration space and
    shared memory; the handles of the three emulated ranges. *)
Record VirtioDev := mkVirtioDev {
  vd_id : Z;
  vd_feature : Z;              (* u128 *)
  vd_queues : list QueueReg;
  vd_config : R;
  vd_shared : option (MemRegion R CB);
  vd_table : R;                (* the MSI-X table *)
  vd_regs : R                  (* the register block *)
}.
Implicit Types (d : VirtioDev).

Definition num_queues d : Z := Z.of_nat (length (vd_queues d)).

Definition virtio_header d (bar0 bar2 : Z) : DeviceHeader :=
  let '(cls, subcls) := get_class (vd_id d) in
  let dev_id := u16 (VIRTIO_DEVICE_ID_BASE + vd_id d) in
  mkDevice (mkCommon VIRTIO_VENDOR_ID dev_id 0 0 1 0 subcls cls 0 0 0 0)
    [bar0; 0; bar2; 0; 0; 0] 0 0 dev_id 0 0 [0; 0; 0; 0; 0; 0; 0] 0 0 0 0.

Definition virtio_caps d : list VirtioCap :=
  [CapMsix (cap_msix (num_queues d)); CapVirtio cap_common; CapVirtio cap_isr;
   CapNotify (cap_notify (num_queues d)) 4] ++
  (if 0 <? mmio_size (vd_config d)
   then [CapVirtio (cap_device_config (num_queues d) (mmio_size (vd_config d)))] else []) ++
  match vd_shared d with Some region => shared_caps 0 0 (region_entries region) | None => [] end.

(** BAR 0; [io_cb] is the [IoeventFdCallback] when ioeventfds could be created. *)
Definition virtio_bar0 d (io_cb : option CB) : MemRegion R CB :=
  let msix_table_size := 16 * (num_queues d + 1) in
  mkRegion
    ([RangeEmulated (vd_table d); RangeSpan (u64 (virtio_register_offset - msix_table_size));
      RangeEmulated (vd_regs d)] ++
     (if 0 <? mmio_size (vd_config d) then [RangeEmulated (vd_config d)] else []))
    [mkEntry bar0_size TypeHidden] (option_list io_cb).

Definition not_emulated (r : MemRange R) : bool :=
  match r with RangeEmulated _ => false | _ => true end.

(** BAR 2: the shared memory and the bits of its register, or the failed [assert!]. *)
Definition virtio_bar2 d : outcome pci_error (PciBar R CB * Z) :=
  match vd_shared d with
  | None => Ok (BarEmpty, 0)
  | Some region =>
      if forallb not_emulated (region_ranges region)
      then Ok (BarMem region, Z.lor BAR_MEM64 BAR_PREFETCHABLE)
      else if region_size region <=? U32_MAX then Ok (BarMem region, BAR_MEM32)
      else Panic
  end.

(** [*v = (dev.device_feature >> (i << 5)) as u32]. *)
Definition feature_words (f : Z) : list Z := (λ i, u32 (Z.shiftr f (Z.shiftl i 5))) <$> [0; 1; 2; 3].

Definition Register_new (f : Z) : Register := mkRegister (feature_words f) [0; 0; 0; 0] 0 0 0 0.

Definition virtio_registers d (msi : M) (ioeventfds : bool) : VirtioPciRegs F M :=
  mkRegs (Register_new (vd_feature d)) (vd_queues d)
    (mkIrqSender
       (mkMsixVector VIRTIO_MSI_NO_VECTOR (replicate (length (vd_queues d)) VIRTIO_MSI_NO_VECTOR))
       (replicate (S (length (vd_queues d))) (MsixEntry MsixTableEntry_default)) msi)
    ioeventfds [] true 0.

Definition VirtioPciDevice_new (bar_callback : nat → CB) d (msi : M) (io_cb : option CB)
  : outcome pci_error (EmulatedConfig (P := VirtioCap) (R := R) (CB := CB) * VirtioPciRegs F M) :=
  match PciCapList_try_from (C := C) (virtio_caps d) with
  | Err e => Err e
  | Panic => Panic
  | Ok caps =>
      match virtio_bar2 d with
      | Err e => Err e
      | Panic => Panic
      | Ok (bar2, bar2_reg) =>
          let bars := [BarMem (virtio_bar0 d io_cb); BarEmpty; bar2; BarEmpty; BarEmpty; BarEmpty] in
          Ok (EmulatedConfig_new_device bar_callback (virtio_header d BAR_MEM32 bar2_reg) bars caps,
              virtio_registers d msi (match io_cb with Some _ => true | None => false end))
      end
  end.
End Device.
Arguments VirtioDev : clear implicits.

(** ** [IoeventFdCallback] *)

(** hv/hv.rs, [trait IoeventFdRegistry]: registration by descriptor. *)
Class IoeventFdRegistry (G : Type) := {
  ioevent_register : Z → Z → stm G hv_error unit;
  ioevent_deregister : Z → stm G hv_error unit
}.

(** What a registry promises: a registration that succeeds is in force, on top of those made
    before it, as descriptor and address. *)
Class IoeventFdLaws (G : Type) `{IoeventFdRegistry G} := {
  registered : G → list (Z * Z);
  ioevent_registers g g' fd addr :
    ioevent_register fd addr g = (g', Ok tt) → registered g' = registered g ++ [(fd, addr)]
}.

Section Ioevent.
Context {G : Type} `{IoeventFdRegistry G}.

Definition hv_to_mem {A} (p : stm G hv_error A) : stm G mem_error A :=
  λ s, let r := p s in (fst r, map_err HvError (snd r)).

Definition notify_addr (addr q_index : Z) : Z :=
  u64 (u64 (addr + Z.shiftl 12 10 + OFFSET_QUEUE_NOTIFY) + q_index * 4).

Definition IoeventFd_mapped (fds : list Z) (addr : Z) : stm G mem_error unit :=
  sfor (imap (λ q_index fd, (Z.of_nat q_index, fd)) fds)
    (λ '(q_index, fd), hv_to_mem (ioevent_register fd (notify_addr addr q_index))).

Definition IoeventFd_unmapped (fds : list Z) : stm G mem_error unit :=
  sfor fds (λ fd, hv_to_mem (ioevent_deregister fd)).
End Ioevent.
