(* ===== verification/VirtioDevThm.v ===== *)
(** * Correctness of a virtio PCI device (virtio/pci.rs)

    What the capabilities say about BAR 0 is where the registers are; a queue's notify
    register is where its ioeventfd is registered; features negotiated through the
    32-bit windows are those the worker is started with. *)

From S2P Require Import Prelude Utils MemTypes Addressable Emulated Mapped Memory PciConfig PciCap PciCapThm.
From S2P Require Import IoApic VirtQueue VirtioPci VirtioPciDev VirtioPciThm.

Section Layout.
Context {W R C CB : Type} `{Mmio W R C}.
Implicit Types (d : VirtioDev R CB).

(** The sizes of the MSI-X table and of the register block, as their [Mmio::size] gives them. *)
Definition handles_ok d : Prop :=
  mmio_size (vd_table d) = 16 * (num_queues d + 1) ∧
  mmio_size (vd_regs d) = size_of_VirtioPciRegister + 4 * num_queues d ∧
  0 ≤ mmio_size (vd_config d).

(** Where range [k] of a region starts. *)
Definition range_start (r : MemRegion R CB) (k : nat) : Z := ranges_size (take k (region_ranges r)).

(** C30: The map in the capabilities is the map of BAR 0.  For a device whose registers fit the BAR
    and whose table ends below the pending-bit array, the register block starts where the common
    capability says, the ISR and notify registers are at the offsets of their capabilities inside
    it, the device configuration starts right behind the last notify register where its
    capability says, the MSI-X table is at its capability's offset, and the region is valid. *)
Theorem virtio_bar0_layout d io_cb :
  handles_ok d → num_queues d + 1 ≤ 512 →
  device_config_offset (num_queues d) + mmio_size (vd_config d) ≤ bar0_size →
  let bar := virtio_bar0 d io_cb in
  range_start bar 0 = MsixCapOffset.offset (table_offset (cap_msix (num_queues d))) ∧
  range_start bar 1 ≤ MsixCapOffset.offset (pba_offset (cap_msix (num_queues d))) ∧
  range_start bar 2 = vc_offset cap_common ∧
  vc_offset cap_isr = range_start bar 2 + OFFSET_ISR_STATUS ∧
  vc_offset (cap_notify (num_queues d)) = range_start bar 2 + OFFSET_QUEUE_NOTIFY ∧
  vc_length (cap_notify (num_queues d)) = 4 * num_queues d ∧
  vc_offset (cap_device_config (num_queues d) (mmio_size (vd_config d))) = range_start bar 3 ∧
  region_validate bar = Ok tt.
Proof.
  intros (Ht&Hr&Hc) Hn Hfit bar.
  unfold device_config_offset, bar0_size, virtio_register_offset, size_of_VirtioPciRegister in *.
  change (Z.shiftl 12 10) with 12288 in *. change (Z.shiftl 16 10) with 16384 in *.
  assert (0 ≤ num_queues d) by (unfold num_queues; lia).
  assert (range_start bar 1 = 16 * (num_queues d + 1)) as E1.
  { unfold range_start, ranges_size. cbn. rewrite Ht. unwrap; lia. }
  assert (range_start bar 2 = 12288) as E2.
  { unfold range_start, ranges_size. cbn. rewrite Ht. change virtio_register_offset with 12288.
    unwrap; lia. }
  assert (range_start bar 3 = 12288 + 64 + 4 * num_queues d) as E3.
  { unfold range_start, ranges_size. cbn. rewrite Ht, Hr. change virtio_register_offset with 12288.
    unwrap. rewrite take_0. cbn. lia. }
  rewrite E1, E2, E3. split_and!; try reflexivity.
  - change (MsixCapOffset.offset _) with 8192. lia.
  - cbn. unwrap; lia.
  - cbn. unfold device_config_offset. change virtio_register_offset with 12288.
    unfold size_of_VirtioPciRegister. unwrap; lia.
  - unfold region_validate. change (region_size bar) with 16384.
    assert (ranges_size (region_ranges bar) ≤ 16384) as Hle; [|by rewrite (proj2 (Z.ltb_ge _ _))].
    unfold ranges_size, bar, virtio_bar0. cbn [region_ranges].
    destruct (Z.ltb_spec 0 (mmio_size (vd_config d))); cbn; rewrite Ht, Hr;
      change virtio_register_offset with 12288; unwrap; lia.
Qed.
End Layout.

(** ** Registration of the ioeventfds *)

Section Register.
Context {G : Type} `{IoeventFdLaws G}.

Lemma hv_to_mem_Ok {A} (p : stm G hv_error A) g g' a :
  hv_to_mem p g = (g', Ok a) → p g = (g', Ok a).
Proof. unfold hv_to_mem. destruct (p g) as [g1 [x|e|]]; intros [= -> Hx]; by simplify_eq/=. Qed.

(** Registering each of [xs] adds its pair, in order. *)
Lemma ioevents_registered {A} (xs : list A) (pair : A → Z * Z) (g g' : G) :
  sfor xs (λ x, hv_to_mem (ioevent_register (fst (pair x)) (snd (pair x)))) g = (g', Ok tt) →
  registered g' = registered g ++ (pair <$> xs).
Proof.
  revert g. induction xs as [|x xs IH]; intros g; cbn [sfor fmap list_fmap].
  - intros [= ->]. by rewrite app_nil_r.
  - intros (g1 & [] & E1 & E2)%sbind_Ok_inv. apply hv_to_mem_Ok, ioevent_registers in E1.
    destruct (pair x) as [fd addr]. rewrite (IH _ E2), E1. by rewrite <- app_assoc.
Qed.

(** The loop of [IoeventFdCallback::mapped], pairs first. *)
Lemma registrations (fds : list Z) addr (at_ : nat → Z) (g : G) :
  (∀ j, (j < length fds)%nat → notify_addr addr (Z.of_nat j) = at_ j) →
  IoeventFd_mapped fds addr g
  = sfor (imap (λ j fd, (fd, at_ j)) fds) (λ x, hv_to_mem (ioevent_register (fst x) (snd x))) g.
Proof.
  intros Ha. unfold IoeventFd_mapped.
  replace (imap (λ j fd, (fd, at_ j)) fds)
    with ((λ '(q_index, fd), (fd, notify_addr addr q_index)) <$> imap (λ j fd, (Z.of_nat j, fd)) fds).
  - generalize (imap (λ j fd, (Z.of_nat j, fd)) fds) as xs. intros xs. revert g.
    induction xs as [|[q fd] xs IH]; intros g; [done|]. cbn [fmap list_fmap sfor fst snd].
    unfold sbind. by destruct (hv_to_mem _ g) as [g1 [[]| |]].
  - rewrite fmap_imap. apply imap_ext. intros j fd Hj. cbn. by rewrite Ha by by eapply lookup_lt_Some.
Qed.

(** A registry that refuses nothing: every registration loop completes. *)
Lemma ioevents_total {A} (xs : list A) (pair : A → Z * Z) (g : G) :
  (∀ fd addr, total (ioevent_register (G := G) fd addr)) →
  ∃ g', sfor xs (λ x, hv_to_mem (ioevent_register (fst (pair x)) (snd (pair x)))) g = (g', Ok tt).
Proof.
  intros Ht. destruct (total_for xs
    (λ x, hv_to_mem (ioevent_register (fst (pair x)) (snd (pair x))))) with g as (g' & [] & E); [|by exists g'].
  intros x s. destruct (Ht (fst (pair x)) (snd (pair x)) s) as (s' & [] & E).
  exists s', tt. unfold hv_to_mem. by rewrite E.
Qed.
End Register.

Section Notify.
Context {F M C : Type} `{IrqFd F} `{MsiSender M}.

Lemma notify_write (v : VirtioPciRegs F M) (k : nat) size val :
  (k < length (v_queues v))%nat → Z.of_nat (length (v_queues v)) ≤ 1008 →
  regs_write (C := C) v (OFFSET_QUEUE_NOTIFY + 4 * Z.of_nat k) size val
  = (wake_up_dev v (WakeNotify (Z.of_nat k)), Ok ActNone).
Proof.
  intros Hk Hn. unfold regs_write, at_field, OFFSET_QUEUE_NOTIFY. cbn zeta.
  cbn [fst snd CommonCfg.DEVICE_FEATURE_SELECT CommonCfg.DRIVER_FEATURE_SELECT CommonCfg.DRIVER_FEATURE
       CommonCfg.CONFIG_MSIX_VECTOR CommonCfg.DEVICE_STATUS CommonCfg.QUEUE_SELECT CommonCfg.QUEUE_SIZE
       CommonCfg.QUEUE_MSIX_VECTOR CommonCfg.QUEUE_ENABLE CommonCfg.QUEUE_DESC_LO CommonCfg.QUEUE_DESC_HI
       CommonCfg.QUEUE_DRIVER_LO CommonCfg.QUEUE_DRIVER_HI CommonCfg.QUEUE_DEVICE_LO
       CommonCfg.QUEUE_DEVICE_HI CommonCfg.QUEUE_RESET].
  repeat match goal with |- context [64 + 4 * Z.of_nat k =? ?c] =>
    rewrite (proj2 (Z.eqb_neq (64 + 4 * Z.of_nat k) c)) by lia end.
  cbn [andb]. rewrite (proj2 (Z.leb_le 64 _)) by lia. rewrite (proj2 (Z.ltb_lt _ _)) by lia. cbn [andb].
  replace (64 + 4 * Z.of_nat k - 64) with (Z.of_nat k * 4) by lia.
  rewrite (wrap_small 16) by (unfold in_u; lia). by rewrite Z.div_mul.
Qed.

(** There is one notification capability. *)
Lemma notify_capability {W R CB} `{Mmio W R C} (d : VirtioDev R CB) c multiplier :
  CapNotify c multiplier ∈ virtio_caps d → vc_offset c = 12352 ∧ multiplier = 4.
Proof.
  unfold virtio_caps. rewrite !elem_of_app. intros [Hc|[Hc|Hc]].
  - rewrite !elem_of_cons, elem_of_nil in Hc. by destruct_or! Hc; simplify_eq.
  - destruct (_ <? _) in Hc; set_solver.
  - destruct (vd_shared d) as [r|]; [|set_solver]. revert Hc. generalize 0 at 2 as o. generalize 0 as i.
    induction (region_entries r) as [|e es IH]; intros i o; cbn; [set_solver|].
    rewrite elem_of_cons. intros [?|?]; [done|eauto].
Qed.

(** Two ranges into BAR 0, behind the table and the padding, is the register block. *)
Lemma registers_start {W R CB} `{Mmio W R C} (d : VirtioDev R CB) io_cb :
  handles_ok d → num_queues d ≤ 511 → range_start (virtio_bar0 d io_cb) 2 = vc_offset cap_common.
Proof.
  intros (Ht&_) Hn. change (vc_offset cap_common) with 12288.
  assert (0 ≤ num_queues d) by (unfold num_queues; lia).
  unfold range_start, ranges_size. cbn. rewrite Ht. change virtio_register_offset with 12288.
  unwrap; lia.
Qed.

(** C31: Notifications reach their queue by either path.  Take the notification capability the device
    announces, with its multiplier, a queue [k], and the queue offset the driver reads from the
    common configuration after selecting the queue.  If mapping the BAR at [bar_addr] succeeds,
    exactly one ioeventfd is registered for every queue, that of queue [j] at BAR + capability
    offset + [j] * multiplier, and nothing else; it does succeed on a registry that refuses no
    registration.  And if the driver's access to that address for queue [k] leaves the guest instead,
    the write to the register block at that address wakes the worker with Notify [k], whatever is
    written.  The device has at most 511 queues, so that its table fits below the pending
    bits; the BAR lies within 64 bits, and the worker is alive. *)
Theorem virtio_notify_address {W R CB G} `{Mmio W R C} `{IoeventFdLaws G}
    (d : VirtioDev R CB) io_cb (v : VirtioPciRegs F M) c multiplier (fds : list Z) (g : G)
    (bar_addr size val : Z) (k : nat) :
  CapNotify c multiplier ∈ virtio_caps d → handles_ok d → num_queues d ≤ 511 →
  length fds = length (vd_queues d) → length (v_queues v) = length (vd_queues d) →
  (k < length (vd_queues d))%nat → 0 ≤ bar_addr → bar_addr + bar0_size ≤ 2 ^ 64 →
  worker_alive v = true →
  let queue_address j := bar_addr + vc_offset c + j * multiplier in
  let mapping := IoeventFd_mapped fds bar_addr g in
  (snd mapping = Ok tt →
   registered (fst mapping) = registered g ++ imap (λ j fd, (fd, queue_address (Z.of_nat j))) fds) ∧
  ((∀ fd addr, total (ioevent_register (G := G) fd addr)) → snd mapping = Ok tt) ∧
  let selected := write_field (C := C) v (CommonCfg.QUEUE_SELECT, Z.of_nat k) in
  regs_read selected (fst CommonCfg.QUEUE_NOTIFY_OFF) (snd CommonCfg.QUEUE_NOTIFY_OFF)
    = Ok (Z.of_nat k) ∧
  let offset := queue_address (Z.of_nat k) - (bar_addr + range_start (virtio_bar0 d io_cb) 2) in
  let r := regs_write (C := C) v offset size val in
  event_tx (fst r) = event_tx v ++ [WakeNotify (Z.of_nat k)] ∧ wakes (fst r) = wakes v + 1 ∧
  snd r = Ok ActNone.
Proof.
  intros Hc Hh Hn Hfds Hvq Hk Hpos H64 Hal queue_address mapping. unfold num_queues in Hn.
  assert (bar0_size = 16384 ∧ vc_offset cap_common = 12288) as [Eb Ec] by done. rewrite Eb in H64.
  apply notify_capability in Hc as [Hoff ->].
  assert (mapping = sfor (imap (λ j fd, (fd, queue_address (Z.of_nat j))) fds)
    (λ x, hv_to_mem (ioevent_register (fst x) (snd x))) g) as Em.
  { apply registrations; [lia..|]. intros j Hj. unfold notify_addr, queue_address. rewrite Hoff.
    change (Z.shiftl 12 10) with 12288. unfold OFFSET_QUEUE_NOTIFY. unwrap; lia. }
  split_and!.
  - rewrite Em. intros E. destruct (sfor _ _ _) as [g' r] eqn:Es. cbn in E |- *. subst r.
    apply (ioevents_registered _ (λ x, x)) in Es. by rewrite list_fmap_id in Es.
  - intros Ht. rewrite Em. by destruct (ioevents_total
      (imap (λ j fd, (fd, queue_address (Z.of_nat j))) fds) (λ x, x) g Ht) as [g' ->].
  - intros selected. split; [cbn; by rewrite wrap_small by (unfold in_u; lia)|].
    intros offset. assert (offset = OFFSET_QUEUE_NOTIFY + 4 * Z.of_nat k) as ->.
    { unfold offset, queue_address. rewrite registers_start, Hoff, Ec by done. unfold OFFSET_QUEUE_NOTIFY. lia. }
    cbn zeta. rewrite notify_write by lia. unfold wake_up_dev. by rewrite Hal.
Qed.

(** ** Features *)

Lemma or_features_words f : in_u 128 f → or_features 0 (feature_words f) = f.
Proof.
  intros Hf. unfold feature_words. cbn [fmap list_fmap or_features].
  change (Z.shiftl 0 5) with 0. change (Z.shiftl 1 5) with 32. change (Z.shiftl 2 5) with 64.
  change (Z.shiftl 3 5) with 96. change (0 + 1) with 1. change (1 + 1) with 2. change (2 + 1) with 3.
  change (Z.shiftl 1 5) with 32. change (Z.shiftl 2 5) with 64. change (Z.shiftl 3 5) with 96.
  rewrite Z.shiftr_0_r, Z.shiftl_0_r, Z.lor_0_r. bitblast.
Qed.

(** What a driver writes to accept the features [f]. *)
Definition accept (f : Z) : list ((Z * Z) * Z) :=
  mjoin ((λ i, [(CommonCfg.DRIVER_FEATURE_SELECT, i);
                (CommonCfg.DRIVER_FEATURE, u32 (Z.shiftr f (Z.shiftl i 5)))]) <$> [0; 1; 2; 3]).

(** The registers a driver writes around feature negotiation. *)
Definition setup_fields : list (Z * Z) :=
  [CommonCfg.DEVICE_FEATURE_SELECT; CommonCfg.DRIVER_FEATURE_SELECT; CommonCfg.CONFIG_MSIX_VECTOR;
   CommonCfg.QUEUE_SELECT; CommonCfg.QUEUE_SIZE; CommonCfg.QUEUE_MSIX_VECTOR; CommonCfg.QUEUE_ENABLE;
   CommonCfg.QUEUE_DESC_LO; CommonCfg.QUEUE_DESC_HI; CommonCfg.QUEUE_DRIVER_LO;
   CommonCfg.QUEUE_DRIVER_HI; CommonCfg.QUEUE_DEVICE_LO; CommonCfg.QUEUE_DEVICE_HI].

(** A write of the set-up: one of those registers, or a status without DRIVER_OK. *)
Definition setup_write (w : (Z * Z) * Z) : Prop :=
  fst w ∈ setup_fields ∨ fst w = CommonCfg.DEVICE_STATUS ∧ bit_get (snd w) 2 = false.

(** What negotiation depends on: words, worker and events; DRIVER_OK is not set. *)
Record negotiating (v v' : VirtioPciRegs F M) : Prop := {
  neg_device : device_feature (v_reg v') = device_feature (v_reg v);
  neg_driver : driver_feature (v_reg v') = driver_feature (v_reg v);
  neg_alive : worker_alive v' = worker_alive v;
  neg_events : event_tx v' = event_tx v;
  neg_status : bit_get (dev_status (v_reg v')) 2 = false
}.

Lemma bit_get_lxor x y i : bit_get (Z.lxor x y) i = xorb (bit_get x i) (bit_get y i).
Proof. apply Z.lxor_spec. Qed.

Lemma status_bit x : bit_get (DevStatus.from_bits_truncate (u8 x)) 2 = bit_get x 2.
Proof.
  unfold bit_get, DevStatus.from_bits_truncate. rewrite Z.land_spec, wrap_ones, Z.land_spec by lia.
  change (Z.testbit (Z.ones 8) 2) with true. rewrite andb_true_r. apply andb_true_r.
Qed.

Lemma setup_write_negotiating (v : VirtioPciRegs F M) w :
  setup_write w → bit_get (dev_status (v_reg v)) 2 = false → negotiating v (write_field (C := C) v w).
Proof.
  destruct w as [f x]. cbn [fst snd]. intros [Hf|[Hf Hx]] Hs; cbn [fst snd] in *.
  - unfold setup_fields in Hf. rewrite !elem_of_cons, elem_of_nil in Hf.
    destruct_or! Hf; subst f; try done; (by split) || idtac.
    + cbn. unfold write_config_vector. by case_match.
    + cbn. unfold write_queue_vector. by repeat case_match.
  - subst f. change (write_field (C := C) v _) with (write_status v x). unfold write_status. cbn zeta.
    rewrite driver_ok_bit, bit_get_lxor, status_bit, Hs, Hx. cbn [xorb].
    split; try done. exact (eq_trans (status_bit x) Hx).
Qed.

Lemma setup_writes_negotiating (v : VirtioPciRegs F M) ws :
  Forall setup_write ws → bit_get (dev_status (v_reg v)) 2 = false →
  negotiating v (write_fields (C := C) v ws).
Proof.
  intros Hws. revert v. induction Hws as [|w ws Hw _ IH]; intros v Hs; [by split|].
  destruct (setup_write_negotiating v w Hw Hs) as [H1 H2 H3 H4 H5]. destruct (IH _ H5).
  change (write_fields v (w :: ws)) with (write_fields (C := C) (write_field (C := C) v w) ws).
  split; congruence.
Qed.

Lemma accept_negotiating (v : VirtioPciRegs F M) f :
  length (driver_feature (v_reg v)) = 4%nat → bit_get (dev_status (v_reg v)) 2 = false →
  let v' := write_fields (C := C) v (accept f) in
  driver_feature (v_reg v') = feature_words f ∧ worker_alive v' = worker_alive v ∧
  event_tx v' = event_tx v ∧ dev_status (v_reg v') = dev_status (v_reg v).
Proof.
  intros Hlen Hs. destruct (driver_feature (v_reg v)) as [|w0 [|w1 [|w2 [|w3 [|]]]]] eqn:Edf; try done.
  unfold write_fields, accept. cbn -[u32 Z.shiftr Z.shiftl]. rewrite Edf. cbn -[u32 Z.shiftr Z.shiftl].
  by rewrite !(wrap_wrap 32 32) by lia.
Qed.

(** C32: Feature negotiation.  A driver that has not set DRIVER_OK writes any set-up registers
    ([before]: status bits such as ACKNOWLEDGE and DRIVER, selects, queue registers, vectors); through the
    select and window registers it then reads all 128 bits of the features the device offers.
    When it writes the features it accepts word by word, any set-up again ([after]: FEATURES_OK,
    queues), and then a status with DRIVER_OK, the worker gets exactly one event, a start with
    exactly the accepted features, and the status register holds the written status.  The worker
    is alive. *)
Theorem virtio_feature_negotiation (v : VirtioPciRegs F M) offered accepted before after status :
  in_u 128 offered → in_u 128 accepted → device_feature (v_reg v) = feature_words offered →
  length (driver_feature (v_reg v)) = 4%nat → worker_alive v = true →
  bit_get (dev_status (v_reg v)) 2 = false →
  Forall setup_write before → Forall setup_write after → bit_get status 2 = true →
  or_features 0
    ((λ i, match regs_read (write_field (C := C) (write_fields (C := C) v before)
                              (CommonCfg.DEVICE_FEATURE_SELECT, i))
                   (fst CommonCfg.DEVICE_FEATURE) (snd CommonCfg.DEVICE_FEATURE) with
           | Ok w => w | _ => 0 end) <$> [0; 1; 2; 3]) = offered ∧
  let v' := write_fields (C := C) v
              (before ++ accept accepted ++ after ++ [(CommonCfg.DEVICE_STATUS, status)]) in
  event_tx v' = event_tx v ++ [WakeStart accepted] ∧
  dev_status (v_reg v') = DevStatus.from_bits_truncate (u8 status).
Proof.
  intros Ho Ha Hdev Hlen Hal Hst Hb Haf Hs2.
  unfold write_fields. rewrite !foldl_app. cbn [foldl]. fold (write_fields (C := C) v before).
  destruct (setup_writes_negotiating v before Hb Hst) as [B1 B2 B3 B4 B5].
  set (v1 := write_fields v before) in *. clearbody v1. split.
  - transitivity (or_features 0 (feature_words offered)); [|by apply or_features_words].
    f_equal. cbn [fmap list_fmap]. unfold regs_read. cbn -[u32 feature_words or_features].
    rewrite B1, Hdev. reflexivity.
  - fold (write_fields (C := C) v1 (accept accepted)).
    destruct (accept_negotiating v1 accepted) as (A1&A2&A3&A4); [congruence|done|].
    set (v2 := write_fields v1 (accept accepted)) in *. clearbody v2.
    fold (write_fields (C := C) v2 after).
    destruct (setup_writes_negotiating v2 after Haf) as [C1 C2 C3 C4 C5]; [by rewrite A4|].
    set (v3 := write_fields v2 after) in *. clearbody v3.
    change (write_field (C := C) v3 _) with (write_status v3 status). unfold write_status. cbn zeta.
    rewrite !driver_ok_bit, bit_get_lxor, status_bit, C5, Hs2. cbn [xorb]. unfold wake_up_dev.
    cbn -[DevStatus.from_bits_truncate or_features]. rewrite C3, A2, B3, Hal.
    cbn -[DevStatus.from_bits_truncate or_features]. split; [|done].
    by rewrite C4, A3, B4, C2, A1, or_features_words.
Qed.
End Notify.

(** ** A network device with two queues *)

Module DemoDev.
#[export] Instance sized_mmio : Mmio unit Z Empty_set := {|
  mmio_size := λ s, s;
  mmio_read := λ _ _ _ w, (w, Ok 0);
  mmio_write := λ _ _ _ _ w, (w, Ok ActNone)
|}.
Definition net : VirtioDev Z unit :=
  mkVirtioDev DeviceId.NET (2 ^ 32) [DemoVirtio.queue0; DemoVirtio.queue0] 20 None 48 72.

(** A registry that lists what is registered and refuses nothing. *)
#[export] Instance list_registry : IoeventFdRegistry (list (Z * Z)) := {|
  ioevent_register := λ fd addr g, (g ++ [(fd, addr)], Ok tt);
  ioevent_deregister := λ fd g, (filter (λ x, fst x ≠ fd) g, Ok tt)
|}.
#[export] Instance list_registry_laws : IoeventFdLaws (list (Z * Z)).
Proof. refine {| registered := id |}. by intros g g' fd addr [= <-]. Defined.
End DemoDev.
Import (hints) DemoDev DemoIrq DemoVirtio.

Lemma virtio_bar0_layout_witness :
  region_validate (virtio_bar0 DemoDev.net None) = Ok tt ∧
  range_start (virtio_bar0 DemoDev.net None) 3 = 12360.
Proof.
  destruct (virtio_bar0_layout DemoDev.net None) as (_&_&_&_&_&_&Hc&Hv); [by_eval..|].
  split; [exact Hv|]. rewrite <- Hc. reflexivity.
Defined.

Lemma virtio_notify_address_witness :
  fst (IoeventFd_mapped [7; 8] 0xe0000000 [(9, 0)]) = [(9, 0); (7, 0xe0003040); (8, 0xe0003044)] ∧
  event_tx (fst (regs_write (C := Empty_set) DemoVirtio.regs 68 2 1)) = [WakeNotify 1].
Proof.
  destruct (virtio_notify_address (C := Empty_set) DemoDev.net None DemoVirtio.regs (cap_notify 2) 4
    [7; 8] [(9, 0)] 0xe0000000 2 1 1) as (Hr&Hok&_&He&_);
    [by apply list_elem_of_lookup_2 with 3%nat|by_eval..|].
  split; [exact (Hr (Hok (λ _ _ _, ex_intro _ _ (ex_intro _ tt eq_refl))))|exact He].
Defined.

(** ACKNOWLEDGE and DRIVER first; FEATURES_OK and a queue size after the features. *)
Lemma virtio_feature_negotiation_witness :
  event_tx (write_fields (C := Empty_set) DemoVirtio.regs
              ([(CommonCfg.DEVICE_STATUS, 1); (CommonCfg.DEVICE_STATUS, 3)] ++ accept (2 ^ 32) ++
               [(CommonCfg.DEVICE_STATUS, 11); (CommonCfg.QUEUE_SIZE, 128)] ++
               [(CommonCfg.DEVICE_STATUS, 15)])) = [WakeStart (2 ^ 32)].
Proof.
  apply (virtio_feature_negotiation (C := Empty_set) DemoVirtio.regs (2 ^ 32) (2 ^ 32)
    [(CommonCfg.DEVICE_STATUS, 1); (CommonCfg.DEVICE_STATUS, 3)]
    [(CommonCfg.DEVICE_STATUS, 11); (CommonCfg.QUEUE_SIZE, 128)] 15); try by_eval.
  - repeat constructor; by right.
  - apply Forall_cons; split; [by right|]. apply Forall_singleton. left. by apply list_elem_of_lookup_2 with 4%nat.
Defined.
