(* ===== verification/Pl011.v ===== *)
(** * The PL011 UART: device/pl011.rs

    Registers, receive queue and interrupt line of the Arm serial port, and that it
    refines a UART with one queue in each direction. *)

From S2P Require Import Prelude Utils MemTypes Emulated Serial.

Open Scope stm_scope.

(** hv/hv.rs, [trait IrqSender]: one interrupt line. *)
Class IrqLine (I : Type) := irq_send : stm I hv_error unit.

Module Flag.
Definition TXFE : Z := Z.shiftl 1 7.
Definition RXFE : Z := Z.shiftl 1 4.
End Flag.

Module Interrupt.
Definition TXRIS : Z := Z.shiftl 1 5.
Definition RXRIS : Z := Z.shiftl 1 4.
Definition ALL : Z := 0x7ff.
End Interrupt.

Definition PERIPH_ID : list Z := [0x11; 0x10; 0x14; 0x00].
Definition PCELL_ID : list Z := [0x0d; 0xf0; 0x05; 0xb1].

Record Pl011Reg := mkPl011Reg {
  p_data : list Z;
  p_flag : Z;
  p_lcr : Z;
  p_rsr : Z;
  p_cr : Z;
  p_dmacr : Z;
  p_ilpr : Z;
  p_ibrd : Z;
  p_fbrd : Z;
  p_ifl : Z;
  p_mask : Z;
  p_status : Z
}.

Record Pl011 (I K : Type) := mkPl011 { p_reg : Pl011Reg; p_irq : I; p_console : K }.
Arguments mkPl011 {I K} _ _ _.
Arguments p_reg {I K} _.
Arguments p_irq {I K} _.
Arguments p_console {I K} _.

Section Pl011.
Context {I K C : Type} `{IrqLine I} `{ConsoleOut K}.
Implicit Types (r : Pl011Reg).
Local Abbreviation dev := (Pl011 I K).
Local Abbreviation M A := (stm (Pl011 I K) mem_error A).

Definition Pl011Reg_default : Pl011Reg := mkPl011Reg [] 0 0 0 0 0 0 0 0 0 0 0.

Definition p_set_data r (d : list Z) : Pl011Reg :=
  mkPl011Reg d (p_flag r) (p_lcr r) (p_rsr r) (p_cr r) (p_dmacr r) (p_ilpr r) (p_ibrd r) (p_fbrd r)
    (p_ifl r) (p_mask r) (p_status r).
Definition p_set_flag r (f : Z) : Pl011Reg :=
  mkPl011Reg (p_data r) f (p_lcr r) (p_rsr r) (p_cr r) (p_dmacr r) (p_ilpr r) (p_ibrd r) (p_fbrd r)
    (p_ifl r) (p_mask r) (p_status r).
Definition p_set_status r (s : Z) : Pl011Reg :=
  mkPl011Reg (p_data r) (p_flag r) (p_lcr r) (p_rsr r) (p_cr r) (p_dmacr r) (p_ilpr r) (p_ibrd r)
    (p_fbrd r) (p_ifl r) (p_mask r) s.

Definition set_preg (r : Pl011Reg) : M unit := smodify (λ d, mkPl011 r (p_irq d) (p_console d)).

Definition Pl011_new (irq : I) (k : K) : dev :=
  mkPl011 (p_set_flag Pl011Reg_default (Z.lor 0 (Z.lor Flag.RXFE Flag.TXFE))) irq k.

(** [self.irq_line.send().unwrap()] *)
Definition raise : M unit :=
  λ d, match irq_send (p_irq d) with
       | (i, Ok _) => (mkPl011 (p_reg d) i (p_console d), Ok tt)
       | (i, _) => (mkPl011 (p_reg d) i (p_console d), Panic)
       end.

Definition update_interrupt (r : Pl011Reg) : M unit :=
  if negb (Z.land (p_status r) (p_mask r) =? 0) then raise else sret tt.

Definition Pl011_size : Z := 0x1000.

Definition Pl011_read (offset size : Z) : M Z :=
  d <- sget ;;
  let r := p_reg d in
  if offset =? 0x0 then
    let byte := default 0 (head (p_data r)) in
    let r1 := p_set_data r (tail (p_data r)) in
    let r2 :=
      match p_data r1 with
      | [] => p_set_status (p_set_flag r1 (Z.lor (p_flag r1) Flag.RXFE))
                (Z.land (p_status r1) (bnot 16 Interrupt.RXRIS))
      | _ => r1
      end in
    set_preg r2 ;;; update_interrupt r2 ;;; sret byte
  else sret
    (if offset =? 0x4 then p_rsr r
     else if offset =? 0x18 then p_flag r
     else if offset =? 0x20 then p_ilpr r
     else if offset =? 0x24 then p_ibrd r
     else if offset =? 0x28 then p_fbrd r
     else if offset =? 0x2c then p_lcr r
     else if offset =? 0x30 then p_cr r
     else if offset =? 0x34 then p_ifl r
     else if offset =? 0x38 then p_mask r
     else if offset =? 0x3c then p_status r
     else if offset =? 0x40 then Z.land (p_mask r) (p_status r)
     else if offset =? 0x44 then 0
     else if offset =? 0x48 then p_dmacr r
     else if offset =? 0xfe0 then nth 0 PERIPH_ID 0
     else if offset =? 0xfe4 then nth 1 PERIPH_ID 0
     else if offset =? 0xfe8 then nth 2 PERIPH_ID 0
     else if offset =? 0xfec then nth 3 PERIPH_ID 0
     else if offset =? 0xff0 then nth 0 PCELL_ID 0
     else if offset =? 0xff4 then nth 1 PCELL_ID 0
     else if offset =? 0xff8 then nth 2 PCELL_ID 0
     else if offset =? 0xffc then nth 3 PCELL_ID 0
     else 0).

Definition Pl011_write (offset size val : Z) : M (Action C) :=
  d <- sget ;;
  let r := p_reg d in
  let v := u32 val in
  (if offset =? 0x0 then
     smodify (λ d, mkPl011 (p_reg d) (p_irq d) (console_write (u8 val) (p_console d))) ;;;
     let r1 := p_set_flag (p_set_status r (Z.lor (p_status r) Interrupt.TXRIS))
                 (Z.lor (p_flag r) Flag.TXFE) in
     set_preg r1 ;;; update_interrupt r1
   else if offset =? 0x4 then
     set_preg (mkPl011Reg (p_data r) (p_flag r) (p_lcr r) 0 (p_cr r) (p_dmacr r) (p_ilpr r) (p_ibrd r)
                 (p_fbrd r) (p_ifl r) (p_mask r) (p_status r))
   else if offset =? 0x18 then sret tt
   else if offset =? 0x20 then
     set_preg (mkPl011Reg (p_data r) (p_flag r) (p_lcr r) (p_rsr r) (p_cr r) (p_dmacr r) v (p_ibrd r)
                 (p_fbrd r) (p_ifl r) (p_mask r) (p_status r))
   else if offset =? 0x24 then
     set_preg (mkPl011Reg (p_data r) (p_flag r) (p_lcr r) (p_rsr r) (p_cr r) (p_dmacr r) (p_ilpr r) v
                 (p_fbrd r) (p_ifl r) (p_mask r) (p_status r))
   else if offset =? 0x28 then
     set_preg (mkPl011Reg (p_data r) (p_flag r) (p_lcr r) (p_rsr r) (p_cr r) (p_dmacr r) (p_ilpr r)
                 (p_ibrd r) v (p_ifl r) (p_mask r) (p_status r))
   else if offset =? 0x2c then
     set_preg (mkPl011Reg (p_data r) (p_flag r) v (p_rsr r) (p_cr r) (p_dmacr r) (p_ilpr r) (p_ibrd r)
                 (p_fbrd r) (p_ifl r) (p_mask r) (p_status r))
   else if offset =? 0x30 then
     set_preg (mkPl011Reg (p_data r) (p_flag r) (p_lcr r) (p_rsr r) v (p_dmacr r) (p_ilpr r) (p_ibrd r)
                 (p_fbrd r) (p_ifl r) (p_mask r) (p_status r))
   else if offset =? 0x34 then
     set_preg (mkPl011Reg (p_data r) (p_flag r) (p_lcr r) (p_rsr r) (p_cr r) (p_dmacr r) (p_ilpr r)
                 (p_ibrd r) (p_fbrd r) v (p_mask r) (p_status r))
   else if offset =? 0x38 then
     set_preg (mkPl011Reg (p_data r) (p_flag r) (p_lcr r) (p_rsr r) (p_cr r) (p_dmacr r) (p_ilpr r)
                 (p_ibrd r) (p_fbrd r) (p_ifl r) (Z.land (u16 val) Interrupt.ALL) (p_status r))
   else if offset =? 0x3c then sret tt
   else if offset =? 0x40 then sret tt
   else if offset =? 0x44 then
     set_preg (p_set_status r (Z.land (p_status r) (flags_not Interrupt.ALL (Z.land (u16 val) Interrupt.ALL))))
   else if offset =? 0x48 then
     set_preg (mkPl011Reg (p_data r) (p_flag r) (p_lcr r) (p_rsr r) (p_cr r) v (p_ilpr r) (p_ibrd r)
                 (p_fbrd r) (p_ifl r) (p_mask r) (p_status r))
   else sret tt) ;;;
  sret ActNone.

(** [Pl011Recv::receive], from the console thread. *)
Definition Pl011_receive (bytes : list Z) : M unit :=
  d <- sget ;;
  let r := p_reg d in
  let r1 := p_set_flag
              (p_set_status (p_set_data r (p_data r ++ bytes)) (Z.lor (p_status r) Interrupt.RXRIS))
              (Z.land (p_flag r) (bnot 16 Flag.RXFE)) in
  set_preg r1 ;;; update_interrupt r1.
End Pl011.

(** ** The UART it implements *)

(** Bytes waiting for the guest, and the console. *)
Record uart (K : Type) := mkUart { u_rx : list Z; u_tx : K }.
Arguments mkUart {K} _ _.
Arguments u_rx {K} _.
Arguments u_tx {K} _.

(** What the guest and the console thread see of a step. *)
Inductive uart_obs := ObsByte (b : Z) | ObsEmpty (b : bool) | ObsNone.

Section Refinement.
Context {I K C : Type} `{IrqLine I} `{ConsoleOut K}.

Definition uart_step (u : uart K) (e : serial_event) : uart K * uart_obs :=
  match e with
  | Deliver bs => (mkUart (u_rx u ++ bs) (u_tx u), ObsNone)
  | GuestRead o =>
      if o =? 0x0 then (mkUart (tail (u_rx u)) (u_tx u), ObsByte (default 0 (head (u_rx u))))
      else if o =? 0x18 then (u, ObsEmpty (bool_decide (u_rx u = [])))
      else (u, ObsNone)
  | GuestWrite o v =>
      if o =? 0x0 then (mkUart (u_rx u) (console_write (u8 v) (u_tx u)), ObsNone) else (u, ObsNone)
  end.

(** A step of the device, with the same observations; [None] is a panic. *)
Definition pl011_step (d : Pl011 I K) (e : serial_event) : option (Pl011 I K * uart_obs) :=
  match e with
  | Deliver bs => match Pl011_receive bs d with (d', Ok _) => Some (d', ObsNone) | _ => None end
  | GuestRead o =>
      match Pl011_read o 4 d with
      | (d', Ok v) =>
          Some (d', if o =? 0x0 then ObsByte v else if o =? 0x18 then ObsEmpty (bit_get v 4) else ObsNone)
      | _ => None
      end
  | GuestWrite o v => match Pl011_write (C := C) o 4 v d with (d', Ok _) => Some (d', ObsNone) | _ => None end
  end.

Fixpoint run {S} (step : S → serial_event → option (S * uart_obs)) (s : S) (es : list serial_event)
  : option (S * list uart_obs) :=
  match es with
  | [] => Some (s, [])
  | e :: es' => '(s1, o) ← step s e; '(s2, os) ← run step s1 es'; Some (s2, o :: os)
  end.

(** The simulation relation. *)
Definition uart_rel (d : Pl011 I K) (u : uart K) : Prop :=
  p_data (p_reg d) = u_rx u ∧ p_console d = u_tx u ∧
  bit_get (p_flag (p_reg d)) 4 = bool_decide (u_rx u = []).

(** The interrupt line accepts the interrupt. *)
Definition irq_reliable : Prop := ∀ i : I, is_ok (snd (irq_send i)) = true.
Hypothesis Hirq : irq_reliable.

#[local] Arguments bit_get : simpl never.
#[local] Arguments bnot : simpl never.

Lemma update_interrupt_ok r (d : Pl011 I K) :
  ∃ d', update_interrupt r d = (d', Ok tt) ∧ p_reg d' = p_reg d ∧ p_console d' = p_console d.
Proof.
  unfold update_interrupt. case_match; [|by exists d]. unfold raise. specialize (Hirq (p_irq d)).
  destruct (irq_send (p_irq d)) as [i [[]| |]]; try done. by eexists.
Qed.

Lemma flag_set f : bit_get (Z.lor f Flag.RXFE) 4 = true.
Proof. unfold bit_get. rewrite Z.lor_spec. apply orb_true_r. Qed.
Lemma flag_clear f : bit_get (Z.land f (bnot 16 Flag.RXFE)) 4 = false.
Proof. unfold bit_get. rewrite Z.land_spec. apply andb_false_r. Qed.
Lemma flag_tx f : bit_get (Z.lor f Flag.TXFE) 4 = bit_get f 4.
Proof. unfold bit_get. rewrite Z.lor_spec. apply orb_false_r. Qed.

(** Storing registers and updating the line. *)
Lemma store_ok {A} r (a : A) (d : Pl011 I K) :
  ∃ d', (set_preg r ;;; update_interrupt r ;;; sret a) d = (d', Ok a) ∧
        p_reg d' = r ∧ p_console d' = p_console d.
Proof.
  unfold sbind at 1, set_preg, smodify. set (d1 := mkPl011 r _ _).
  destruct (update_interrupt_ok r d1) as (d'&E&Hr&Hc). exists d'.
  unfold sbind. rewrite E. by rewrite Hr, Hc.
Qed.

Definition step_sim (d : Pl011 I K) (u : uart K) (e : serial_event) : Prop :=
  ∃ d', pl011_step d e = Some (d', snd (uart_step u e)) ∧ uart_rel d' (fst (uart_step u e)).

Lemma sim_data_read d u : uart_rel d u → step_sim d u (GuestRead 0x0).
Proof.
  intros (Hd&Hc&Hf). unfold step_sim, pl011_step, Pl011_read. unfold sbind at 1, sget. cbn [Z.eqb].
  set (r2 := match p_data _ with [] => _ | _ => _ end).
  destruct (store_ok r2 (default 0 (head (p_data (p_reg d)))) d) as (d'&->&Hr&Hk).
  exists d'. cbn. rewrite Hd. split; [done|]. unfold uart_rel. cbn. rewrite Hr, Hk, Hc. unfold r2. cbn.
  rewrite Hd. destruct (u_rx u) as [|b [|b' l]]; cbn; rewrite ?flag_set, ?Hf; split_and!; done.
Qed.

Lemma sim_receive d u bs : bs ≠ [] → uart_rel d u → step_sim d u (Deliver bs).
Proof.
  intros Hne (Hd&Hc&Hf). unfold step_sim, pl011_step, Pl011_receive. unfold sbind at 1, sget. cbn zeta.
  set (r1 := p_set_flag _ _). unfold sbind, set_preg, smodify.
  destruct (update_interrupt_ok r1 (mkPl011 r1 (p_irq d) (p_console d))) as (d'&->&Hr&Hk).
  exists d'. split; [done|]. unfold uart_rel. rewrite Hr, Hk. cbn. rewrite Hd, flag_clear. split_and!; try done.
  by destruct (u_rx u), bs.
Qed.

Lemma sim_data_write d u v : uart_rel d u → step_sim d u (GuestWrite 0x0 v).
Proof.
  intros (Hd&Hc&Hf). unfold step_sim, pl011_step, Pl011_write. unfold sbind at 1, sget. cbn [Z.eqb].
  unfold sbind, set_preg, smodify. cbv beta iota zeta. cbn [p_reg p_irq p_console].
  set (r1 := p_set_flag _ _).
  destruct (update_interrupt_ok r1 (mkPl011 r1 (p_irq d) (console_write (u8 v) (p_console d)))) as (d'&->&Hr&Hk).
  exists d'. split; [done|]. unfold uart_rel. rewrite Hr, Hk. cbn. rewrite Hd, Hc, flag_tx, Hf. done.
Qed.

Lemma sim_step d u e : delivers e → uart_rel d u → step_sim d u e.
Proof.
  intros He Hu. pose proof Hu as (Hd&Hc&Hf). destruct e as [o|o v|bs].
  - destruct (decide (o = 0)) as [->|Ho]; [by apply sim_data_read|].
    exists d. cbn [pl011_step uart_step]. unfold Pl011_read. unfold sbind, sget, sret. cbn beta iota zeta.
    rewrite (proj2 (Z.eqb_neq o 0x0)) by done. destruct (Z.eqb_spec o 0x18) as [->|]; [|done].
    cbn. by rewrite Hf.
  - destruct (decide (o = 0)) as [->|Ho]; [by apply sim_data_write|].
    unfold step_sim. cbn [pl011_step uart_step]. unfold Pl011_write. unfold sbind, sget, sret. cbn beta iota zeta.
    rewrite (proj2 (Z.eqb_neq o 0x0)) by done.
    repeat match goal with |- context [?a =? ?b] => destruct (a =? b) end;
      (eexists; split; [reflexivity|]); done.
  - apply sim_receive; [|done]. by destruct bs.
Qed.

(** C34: The PL011 refines a UART with two queues.  For every interleaving of guest accesses with
    deliveries from the console thread, and an interrupt line that accepts interrupts, the device never
    panics and the guest sees exactly what the abstract UART shows: the bytes read from the data
    register (in arrival order, 0 when none waits) and the receive-FIFO-empty flag; the console
    receives exactly the bytes written, in order. *)
Theorem pl011_refines_uart (irq : I) (k : K) (es : list serial_event) :
  Forall delivers es →
  ∃ d u os,
    run pl011_step (Pl011_new irq k) es = Some (d, os) ∧
    run (λ u e, Some (uart_step u e)) (mkUart [] k) es = Some (u, os) ∧
    p_data (p_reg d) = u_rx u ∧ p_console d = u_tx u.
Proof.
  intros Hes. assert (uart_rel (Pl011_new irq k) (mkUart [] k)) as Hu by done.
  revert Hu. generalize (Pl011_new irq k) (mkUart [] k). induction Hes as [|e es He _ IH]; intros d u Hu.
  - exists d, u, []. destruct Hu as (?&?&_). done.
  - destruct (sim_step d u e He Hu) as (d1&E&Hu1). destruct (IH _ _ Hu1) as (d2&u2&os&E1&E2&Hp).
    exists d2, u2, (snd (uart_step u e) :: os). cbn. rewrite E. cbn. rewrite E1. cbn.
    destruct (uart_step u e) as [u1 o1]. cbn in *. rewrite E2. done.
Qed.
End Refinement.

Module DemoPl011.
#[export] Instance demo_line : IrqLine nat := λ n, (S n, Ok tt).
End DemoPl011.
Import (hints) DemoSerial DemoPl011.

Lemma pl011_refines_uart_witness :
  ∃ d u os,
    run (pl011_step (C := Empty_set)) (Pl011_new 0%nat []) DemoSerial.events = Some (d, os) ∧
    run (λ u e, Some (uart_step u e)) (mkUart [] []) DemoSerial.events = Some (u, os) ∧
    p_data (p_reg d) = u_rx u ∧ p_console d = u_tx u.
Proof.
  apply (pl011_refines_uart (C := Empty_set)).
  - intros i. reflexivity.
  - by repeat constructor.
Defined.
