(* ===== verification/Rtc.v ===== *)
(** * Real-time clocks: device/pl031.rs, device/cmos.rs, device/clock.rs

    The host clock is an interface ([trait Clock]); an access carries the host time it
    happens at.  The calendar of the CMOS clock comes from the chrono crate and is an
    interface too. *)

From S2P Require Import Prelude Utils MemTypes Emulated.

(** ** PL031 *)

Definition RTC_DR : Z := 0x000.
Definition RTC_MR : Z := 0x004.
Definition RTC_LR : Z := 0x008.
Definition RTC_CR : Z := 0x00c.
Definition RTC_IMSC : Z := 0x010.
Definition RTC_RIS : Z := 0x014.
Definition RTC_MIS : Z := 0x018.
Definition RTC_ICR : Z := 0x01c.
Definition RTC_PERIPH_ID : list Z := [0x31; 0x10; 0x04; 0x00].
Definition RTC_PCELL_ID : list Z := [0x0d; 0xf0; 0x05; 0xb1].

Record Pl031Reg := mkPl031Reg { rtc_mr : Z; rtc_lr : Z; rtc_offset : Z }.
Definition Pl031_new : Pl031Reg := mkPl031Reg 0 0 0.

Section Pl031.

(** [now()]: the seconds of the host clock, as [u32]. *)
Definition rtc_now (secs : Z) : Z := u32 secs.

Definition Pl031_read (secs : Z) (r : Pl031Reg) (offset size : Z) : Z :=
  if offset =? RTC_DR then u32 (rtc_offset r + rtc_now secs)
  else if offset =? RTC_MR then rtc_mr r
  else if offset =? RTC_LR then rtc_lr r
  else if offset =? RTC_CR then 1
  else if (offset =? RTC_IMSC) || (offset =? RTC_RIS) || (offset =? RTC_MIS) then 0
  else if offset =? 0xfe0 then nth 0 RTC_PERIPH_ID 0
  else if offset =? 0xfe4 then nth 1 RTC_PERIPH_ID 0
  else if offset =? 0xfe8 then nth 2 RTC_PERIPH_ID 0
  else if offset =? 0xfec then nth 3 RTC_PERIPH_ID 0
  else if offset =? 0xff0 then nth 0 RTC_PCELL_ID 0
  else if offset =? 0xff4 then nth 1 RTC_PCELL_ID 0
  else if offset =? 0xff8 then nth 2 RTC_PCELL_ID 0
  else if offset =? 0xffc then nth 3 RTC_PCELL_ID 0
  else 0.

Definition Pl031_write (secs : Z) (r : Pl031Reg) (offset size val : Z) : Pl031Reg :=
  let v := u32 val in
  if offset =? RTC_MR then mkPl031Reg v (rtc_lr r) (rtc_offset r)
  else if offset =? RTC_LR then mkPl031Reg (rtc_mr r) v (u32 (v - rtc_now secs))
  else r.

(** Accesses with the host time of each. *)
Inductive rtc_event := RtcRead (secs offset : Z) | RtcWrite (secs offset val : Z).

Definition rtc_step (r : Pl031Reg) (e : rtc_event) : Pl031Reg :=
  match e with
  | RtcRead _ _ => r
  | RtcWrite secs o v => Pl031_write secs r o 4 v
  end.

(** The last value loaded and the host time of the load: a clock that was never loaded
    counts from the epoch. *)
Definition last_load (es : list rtc_event) : Z * Z :=
  foldl (λ acc e, match e with
                  | RtcWrite secs o v => if o =? RTC_LR then (v, secs) else acc
                  | RtcRead _ _ => acc
                  end) (0, 0) es.

Lemma rtc_offset_load es :
  rtc_offset (foldl rtc_step Pl031_new es) = u32 (fst (last_load es) - snd (last_load es)).
Proof.
  induction es as [|e es IH] using rev_ind; [done|].
  unfold last_load in *. rewrite !foldl_app. cbn [foldl].
  destruct e as [secs o|secs o v]; cbn [rtc_step]; [done|].
  unfold Pl031_write, RTC_MR, RTC_LR. cbn zeta.
  destruct (Z.eqb_spec o 4) as [->|]; [done|]. destruct (Z.eqb_spec o 8); [|done].
  cbn. unfold rtc_now, wrap. rewrite Zminus_mod_idemp_l, Zminus_mod_idemp_r. done.
Qed.

(** C36: The PL031 keeps time.  After any sequence of register accesses at any host times, the data
    register read at host time [secs] is the last value loaded plus the seconds elapsed on
    the host since, modulo 2^32; a clock never loaded shows the host's time. *)
Theorem pl031_keeps_time (es : list rtc_event) (secs : Z) :
  let '(value, at_) := last_load es in
  Pl031_read secs (foldl rtc_step Pl031_new es) RTC_DR 4 = u32 (value + (secs - at_)).
Proof.
  pose proof (rtc_offset_load es) as Ho. destruct (last_load es) as [value at_]. cbn in Ho.
  unfold Pl031_read. cbn. rewrite Ho. unfold rtc_now, wrap.
  rewrite Zplus_mod_idemp_l, Zplus_mod_idemp_r. f_equal. lia.
Qed.
End Pl031.

(** ** CMOS *)

(** chrono's [DateTime]: what the device reads of it. *)
Class DateTime (D : Type) := {
  from_timestamp_nanos : Z → D;
  dt_second : D → Z;
  dt_minute : D → Z;
  dt_hour : D → Z;
  dt_weekday_from_sunday : D → Z;
  dt_day : D → Z;
  dt_month : D → Z;
  dt_year : D → Z;
  dt_nanosecond : D → Z
}.

Definition CmosReg_reg (r : Z) : Z := bits_get r 6 0.
Definition CmosRegA_new (intr_freq time_base : Z) (uip : bool) : Z :=
  bit_set (bits_set (bits_set 0 3 0 intr_freq) 6 4 time_base) 7 uip.
Definition CmosRegA_default : Z := CmosRegA_new 6 2 false.
Definition CMOS_REG_B : Z := Z.lor (Z.shiftl 1 1) (Z.shiftl 1 2).
Definition CMOS_REG_D : Z := Z.shiftl 1 7.

(** [as i64] *)
Definition i64 (z : Z) : Z := let v := u64 z in if v <? 2 ^ 63 then v else v - 2 ^ 64.

Section Cmos.
Context {D : Type} `{DateTime D}.

Definition Cmos_size : Z := 2.

(** The device state is the index register; [nanos] is the host clock. *)
Definition Cmos_read (nanos reg offset size : Z) : Z :=
  if offset =? 0 then reg
  else
    let now := from_timestamp_nanos (D := D) (i64 nanos) in
    let i := CmosReg_reg reg in
    if i =? 0x00 then dt_second now
    else if i =? 0x02 then dt_minute now
    else if i =? 0x04 then dt_hour now
    else if i =? 0x06 then dt_weekday_from_sunday now
    else if i =? 0x07 then dt_day now
    else if i =? 0x08 then dt_month now
    else if i =? 0x09 then u32 (dt_year now) mod 100
    else if i =? 0x32 then u32 (dt_year now) / 100 + 1
    else if i =? 0x0a then
      if dt_nanosecond now <? 244140 then bit_set CmosRegA_default 7 true else CmosRegA_default
    else if i =? 0x0b then CMOS_REG_B
    else if i =? 0x0d then CMOS_REG_D
    else 0.

Definition Cmos_write (reg offset size val : Z) : Z := if offset =? 0 then u8 val else reg.

(** The two year registers together give the year; the NMI bit of the index is ignored. *)
Lemma cmos_year nanos (nmi : bool) :
  let rd i := Cmos_read nanos (Cmos_write 0 0 1 (Z.lor i (if nmi then 0x80 else 0))) 1 1 in
  0 ≤ dt_year (from_timestamp_nanos (D := D) (i64 nanos)) < 2 ^ 32 →
  100 * (rd 0x32 - 1) + rd 0x09 = dt_year (from_timestamp_nanos (D := D) (i64 nanos)).
Proof.
  cbn zeta. intros Hy. unfold Cmos_read, Cmos_write. change (1 =? 0) with false. change (0 =? 0) with true.
  cbv iota. destruct nmi;
    repeat match goal with |- context [CmosReg_reg ?x] =>
      let v := eval vm_compute in (CmosReg_reg x) in change (CmosReg_reg x) with v end;
    cbn [Z.eqb Pos.eqb]; rewrite wrap_small by done;
    pose proof (Z.div_mod (dt_year (from_timestamp_nanos (D := D) (i64 nanos))) 100); lia.
Qed.
End Cmos.
