(* ===== verification/FwCfg.v ===== *)
(** * The firmware configuration device: device/fw_cfg/fw_cfg.rs

    Items by selector, the file directory, the byte-wise data port and the DMA
    interface.  Items backed by host files read through an interface. *)

From S2P Require Import Prelude Utils MemTypes Addressable Emulated Mapped Memory VirtQueue.

Open Scope stm_scope.

Definition SELECTOR_WR : Z := Z.shiftl 1 14.
Definition FW_CFG_SIGNATURE : Z := 0x00.
Definition FW_CFG_ID : Z := 0x01.
Definition FW_CFG_RAM_SIZE : Z := 0x03.
Definition FW_CFG_NB_CPUS : Z := 0x05.
Definition FW_CFG_CMDLINE_SIZE : Z := 0x14.
Definition FW_CFG_CMDLINE_DATA : Z := 0x15.
Definition FW_CFG_FILE_DIR : Z := 0x19.
Definition FW_CFG_KNOWN_ITEMS : nat := 0x20.
Definition FW_CFG_FILE_FIRST : Z := 0x20.
(** QEMU CFG *)
Definition FW_CFG_DMA_SIGNATURE : list Z := [0x51; 0x45; 0x4d; 0x55; 0x20; 0x43; 0x46; 0x47].
Definition FW_CFG_FEATURE : list Z := [3; 0; 0; 0].
Definition FILE_NAME_SIZE : nat := 56.

Definition PORT_FW_CFG_SELECTOR : Z := 0x510.
Definition PORT_FW_CFG_DATA : Z := 0x511.
Definition PORT_FW_CFG_DMA_HI : Z := 0x514.
Definition PORT_FW_CFG_DMA_LO : Z := 0x518.

(** The kinds of [std::io::Error] the device produces. *)
Inductive fw_error := UnexpectedEof | InvalidInput | NotFound | InvalidData | FileError.

(** The part of [std::fs::File] the device uses. *)
Class HostFile (H : Type) := {
  file_len : H → option Z;
  file_byte : H → Z → option Z;               (* read_exact_at of one byte *)
  file_read : H → Z → Z → option (list Z)     (* seek and read: at most that many bytes *)
}.

Inductive FwCfgContent (H : Type) :=
| ContentBytes (b : list Z)
| ContentSlice (b : list Z)
| ContentFile (offset : Z) (f : H)
| ContentLu16 (n : Z)
| ContentLu32 (n : Z)
| ContentLu64 (n : Z).
Arguments ContentBytes {H} _.
Arguments ContentSlice {H} _.
Arguments ContentFile {H} _ _.
Arguments ContentLu16 {H} _.
Arguments ContentLu32 {H} _.
Arguments ContentLu64 {H} _.

Record FwCfgItem (H : Type) := mkItem { item_name : list Z; item_content : FwCfgContent H }.
Arguments mkItem {H} _ _.
Arguments item_name {H} _.
Arguments item_content {H} _.

(** [FwCfg], with the guest memory it shares. *)
Record FwCfg (H : Type) := mkFwCfg {
  fw_selector : Z;
  data_offset : Z;
  dma_address : Z;
  fw_items : list (FwCfgItem H);
  known_items : list (FwCfgContent H);   (* [FwCfgContent; 32] *)
  fw_ram : ram;
  fw_mem : hostmem
}.
Arguments mkFwCfg {H} _ _ _ _ _ _ _.
Arguments fw_selector {H} _.
Arguments data_offset {H} _.
Arguments dma_address {H} _.
Arguments fw_items {H} _.
Arguments known_items {H} _.
Arguments fw_ram {H} _.
Arguments fw_mem {H} _.

(** [create_file_name] *)
Definition create_file_name (name : list Z) : list Z :=
  let c_len := Nat.min (FILE_NAME_SIZE - 1) (length name) in
  take c_len name ++ replicate (FILE_NAME_SIZE - c_len) 0.

Definition be32 (n : Z) : list Z := ed_as_bytes 4 (ed_from Big 4 n).
Definition be16 (n : Z) : list Z := ed_as_bytes 2 (ed_from Big 2 n).

(** [FwCfgFile::as_bytes] *)
Definition fw_cfg_file (size select : Z) (c_name : list Z) : list Z :=
  be32 size ++ be16 select ++ [0; 0] ++ c_name.

Module AccessControl.
Definition set_error (c : Z) (b : bool) : Z := bit_set c 0 b.
Definition read (c : Z) : bool := bit_get c 1.
Definition skip (c : Z) : bool := bit_get c 2.
Definition select (c : Z) : bool := bit_get c 3.
Definition write (c : Z) : bool := bit_get c 4.
Definition selector (c : Z) : Z := bits_get c 31 16.
End AccessControl.

Section FwCfg.
Context {H C : Type} `{HostFile H}.
Implicit Types (d : FwCfg H) (c : FwCfgContent H).

(** The bytes of a content held in memory. *)
Definition content_bytes c : option (list Z) :=
  match c with
  | ContentBytes b | ContentSlice b => Some b
  | ContentFile _ _ => None
  | ContentLu16 n => Some (ed_as_bytes 2 n)
  | ContentLu32 n => Some (ed_as_bytes 4 n)
  | ContentLu64 n => Some (ed_as_bytes 8 n)
  end.

(** [FwCfgContentAccess::read] *)
Definition access_read c (offset n : Z) : outcome fw_error (list Z) :=
  match c with
  | ContentFile o f =>
      match file_read f (u64 (o + offset)) n with Some bs => Ok bs | None => Err FileError end
  | _ =>
      match content_bytes c ≫= λ b, bytes_get_from b offset with
      | Some s => Ok (take (Z.to_nat n) s)
      | None => Err UnexpectedEof
      end
  end.

(** [Read::read_exact] over it: the access is not advanced between reads. *)
Fixpoint read_exact_loop (fuel : nat) c (offset n : Z) : option (list Z) :=
  if n =? 0 then Some []
  else
    match fuel with
    | O => None
    | S fuel' =>
        match access_read c offset n with
        | Ok [] => None
        | Ok bs => app bs <$> read_exact_loop fuel' c offset (n - Z.of_nat (length bs))
        | _ => None
        end
    end.

Definition access_read_exact (a : FwCfgContent H * Z) (n : Z) : (FwCfgContent H * Z) * option (list Z) :=
  (a, read_exact_loop (Z.to_nat n) (fst a) (snd a) n).

Definition content_size c : outcome fw_error Z :=
  let check n := if n <=? U32_MAX then Ok n else Err InvalidInput in
  match c with
  | ContentBytes b | ContentSlice b => check (Z.of_nat (length b))
  | ContentFile o f =>
      match file_len f with Some len => check (u64 (len - o)) | None => Err FileError end
  | ContentLu16 _ => check 2
  | ContentLu32 _ => check 4
  | ContentLu64 _ => check 8
  end.

(** [FwCfgContent::read] *)
Definition content_read c (offset : Z) : option Z :=
  match c with
  | ContentFile o f => file_byte f (u64 (o + offset))
  | _ => content_bytes c ≫= λ b, b !! Z.to_nat offset
  end.

Definition with_known d (known : list (FwCfgContent H)) : FwCfg H :=
  mkFwCfg (fw_selector d) (data_offset d) (dma_address d) (fw_items d) known (fw_ram d) (fw_mem d).
Definition with_items d (items : list (FwCfgItem H)) : FwCfg H :=
  mkFwCfg (fw_selector d) (data_offset d) (dma_address d) items (known_items d) (fw_ram d) (fw_mem d).
Definition with_offset d (o : Z) : FwCfg H :=
  mkFwCfg (fw_selector d) o (dma_address d) (fw_items d) (known_items d) (fw_ram d) (fw_mem d).
Definition with_dma d (a : Z) : FwCfg H :=
  mkFwCfg (fw_selector d) (data_offset d) a (fw_items d) (known_items d) (fw_ram d) (fw_mem d).
Definition with_mem d (m : hostmem) : FwCfg H :=
  mkFwCfg (fw_selector d) (data_offset d) (dma_address d) (fw_items d) (known_items d) (fw_ram d) m.
Definition set_known d (i : Z) c : FwCfg H := with_known d (<[Z.to_nat i := c]> (known_items d)).

(** [get_file_dir_mut]: the directory is always [Bytes]. *)
Definition file_dir d : option (list Z) :=
  match known_items d !! Z.to_nat FW_CFG_FILE_DIR with
  | Some (ContentBytes b) => Some b
  | _ => None
  end.

(** [file_buf[0..4].copy_from_slice(header)] *)
Definition update_count : stm (FwCfg H) fw_error unit :=
  λ d0, match file_dir d0 with
        | Some b =>
            if (length b <? 4)%nat then (d0, Panic)
            else (set_known d0 FW_CFG_FILE_DIR
                    (ContentBytes (be32 (u32 (Z.of_nat (length (fw_items d0)))) ++ drop 4 b)), Ok tt)
        | None => (d0, Panic)
        end.

Definition add_ram_size d (size : Z) : FwCfg H := set_known d FW_CFG_RAM_SIZE (ContentLu64 (ed_from Little 8 size)).
Definition add_cpu_count d (count : Z) : FwCfg H := set_known d FW_CFG_NB_CPUS (ContentLu16 (ed_from Little 2 count)).

(** [CString::into_bytes_with_nul] *)
Definition add_kernel_cmdline d (s : list Z) : FwCfg H :=
  let bytes := s ++ [0] in
  set_known
    (set_known d FW_CFG_CMDLINE_SIZE (ContentLu32 (ed_from Little 4 (u32 (Z.of_nat (length bytes))))))
    FW_CFG_CMDLINE_DATA (ContentBytes bytes).

Definition add_item (item : FwCfgItem H) : stm (FwCfg H) fw_error unit :=
  λ d,
    match content_size (item_content item) with
    | Err e => (d, Err e)
    | Panic => (d, Panic)
    | Ok size =>
        match file_dir d with
        | None => (d, Panic)
        | Some b =>
            let index := u16 (Z.of_nat (length (fw_items d))) in
            let entry := fw_cfg_file size (u16 (FW_CFG_FILE_FIRST + index))
                           (create_file_name (item_name item)) in
            let d1 := set_known d FW_CFG_FILE_DIR (ContentBytes (b ++ entry)) in
            let d2 := with_items d1 (fw_items d1 ++ [item]) in
            update_count d2
        end
    end.

(** [add_e820]: the entries the guest may see, then one item. *)
Definition e820_type (t : MemRegionType) : option Z :=
  match t with
  | TypeRam => Some 1
  | TypeReserved => Some 2
  | TypeAcpi => Some 3
  | TypePmem => Some 7
  | TypeHidden => None
  end.
Definition e820_bytes (regions : list (Z * MemRegionEntry)) : list Z :=
  mjoin ((λ '(addr, e),
            match e820_type (entry_type e) with
            | Some t => le_bytes 8 addr ++ le_bytes 8 (entry_size e) ++ le_bytes 4 t
            | None => []
            end) <$> regions).
(** etc/e820 *)
Definition e820_name : list Z := [0x65; 0x74; 0x63; 0x2f; 0x65; 0x38; 0x32; 0x30].
Definition add_e820 (regions : list (Z * MemRegionEntry)) : stm (FwCfg H) fw_error unit :=
  add_item (mkItem e820_name (ContentBytes (e820_bytes regions))).

Definition FwCfg_empty (r : ram) (m : hostmem) : FwCfg H :=
  let known := replicate FW_CFG_KNOWN_ITEMS (ContentSlice []) in
  mkFwCfg 0 0 0 []
    (<[Z.to_nat FW_CFG_FILE_DIR := ContentBytes (be32 0)]>
      (<[Z.to_nat FW_CFG_ID := ContentSlice FW_CFG_FEATURE]>
        (<[Z.to_nat FW_CFG_SIGNATURE := ContentSlice FW_CFG_DMA_SIGNATURE]> known))) r m.

Definition FwCfg_new (r : ram) (m : hostmem) (items : list (FwCfgItem H)) : FwCfg H * outcome fw_error unit :=
  sfor items add_item (FwCfg_empty r m).

(** The content a selector names. *)
Definition selected d (selector : Z) : option (FwCfgContent H) :=
  match known_items d !! Z.to_nat selector with
  | Some c => Some c
  | None => item_content <$> fw_items d !! Z.to_nat (selector - FW_CFG_FILE_FIRST)
  end.

Definition dma_read_content (c : FwCfgContent H) (offset len address : Z) : stm (FwCfg H) fw_error Z :=
  λ d,
    match content_size c with
    | Err e => (d, Err e)
    | Panic => (d, Panic)
    | Ok size =>
        let op_size := Z.min (Z.max 0 (size - offset)) len in
        let r := RamBus_write_range access_read_exact (fw_ram d) (fw_mem d) address op_size (c, offset) in
        match snd r with
        | Ok _ => (with_mem d (fst r), Ok op_size)
        | Err _ => (with_mem d (fst r), Err InvalidInput)
        | Panic => (with_mem d (fst r), Panic)
        end
    end.

Definition dma_read (selector len address : Z) : stm (FwCfg H) fw_error unit :=
  d <- sget ;;
  match selected d selector with
  | None => sfail NotFound
  | Some c =>
      op_size <- dma_read_content c (data_offset d) len address ;;
      smodify (λ d, with_offset d (u32 (data_offset d + op_size)))
  end.

(** [unimplemented!()] *)
Definition dma_write (selector len address : Z) : stm (FwCfg H) fw_error unit := spanic.

(** A big-endian field of the DMA descriptor. *)
Definition be_field (bs : list Z) (start n : nat) : Z :=
  ed_to_ne Big n (ed_from_bytes (take n (drop start bs))).

Definition do_dma d : FwCfg H * outcome fw_error unit :=
  match Ram_read_t (fw_ram d) (fw_mem d) 16 (dma_address d) with
  | Panic => (d, Panic)
  | Err _ => (d, Ok tt)
  | Ok bs =>
      let control := be_field bs 0 4 in
      let len := be_field bs 4 4 in
      let addr := be_field bs 8 8 in
      let d1 :=
        if AccessControl.select control
        then mkFwCfg (u16 (Z.b2z (AccessControl.select control))) (data_offset d) (dma_address d)
               (fw_items d) (known_items d) (fw_ram d) (fw_mem d)
        else d in
      let res :=
        if AccessControl.read control then dma_read (fw_selector d1) len addr d1
        else if AccessControl.write control then dma_write (fw_selector d1) len addr d1
        else if AccessControl.skip control then (with_offset d1 (u32 (data_offset d1 + len)), Ok tt)
        else (d1, Err InvalidData) in
      match snd res with
      | Panic => (fst res, Panic)
      | other =>
          let resp := match other with Ok _ => 0 | _ => AccessControl.set_error 0 true end in
          let d2 := fst res in
          let w := Ram_write_t (fw_ram d2) (fw_mem d2) (u64 (dma_address d2 + 0)) (be32 resp) in
          match snd w with
          | Panic => (with_mem d2 (fst w), Panic)
          | _ => (with_mem d2 (fst w), Ok tt)
          end
      end
  end.

Definition read_data d : FwCfg H * Z :=
  match selected d (fw_selector d) ≫= λ c, content_read c (data_offset d) with
  | Some v => (with_offset d (u32 (data_offset d + 1)), v)
  | None => (d, 0)
  end.

Definition FwCfg_size : Z := 16.

Definition FwCfg_read d (offset size : Z) : FwCfg H * Z :=
  let port := u16 (u16 offset + PORT_FW_CFG_SELECTOR) in
  if port =? PORT_FW_CFG_SELECTOR then (d, 0)
  else if (port =? PORT_FW_CFG_DATA) && (size =? 1) then read_data d
  else if (port =? PORT_FW_CFG_DMA_HI) && (size =? 4) then
    (d, swap_bytes 4 (u32 (Z.shiftr (dma_address d) 32)))
  else if (port =? PORT_FW_CFG_DMA_LO) && (size =? 4) then
    (d, swap_bytes 4 (u32 (Z.land (dma_address d) 0xffffffff)))
  else (d, 0).

Definition FwCfg_write d (offset size val : Z) : FwCfg H * outcome fw_error unit :=
  let port := u16 (u16 offset + PORT_FW_CFG_SELECTOR) in
  if (port =? PORT_FW_CFG_SELECTOR) && (size =? 2) then
    (mkFwCfg (u16 val) 0 (dma_address d) (fw_items d) (known_items d) (fw_ram d) (fw_mem d), Ok tt)
  else if (port =? PORT_FW_CFG_DATA) && (size =? 1) then (d, Ok tt)     (* write_data only logs *)
  else if (port =? PORT_FW_CFG_DMA_HI) && (size =? 4) then
    (with_dma d (Z.lor (Z.land (dma_address d) 0xffffffff)
                   (u64 (Z.shiftl (swap_bytes 4 (u32 val)) 32))), Ok tt)
  else if (port =? PORT_FW_CFG_DMA_LO) && (size =? 4) then
    do_dma (with_dma d (Z.lor (Z.land (dma_address d) (bnot 64 0xffffffff)) (swap_bytes 4 (u32 val))))
  else (d, Ok tt).
End FwCfg.
