(* ===== verification/FwCfgThm.v ===== *)
(** * Correctness of the firmware configuration device (device/fw_cfg/fw_cfg.rs)

    The file directory describes the items, the data port streams them, a DMA read
    copies them into guest memory; and two places where the DMA interface does not do what its
    specification asks. *)

From S2P Require Import Prelude Utils MemTypes Addressable Emulated Mapped VirtQueue FwCfg.

Open Scope stm_scope.

Section Directory.
Context {H : Type} `{HostFile H}.
Implicit Types (d : FwCfg H) (items : list (FwCfgItem H)).

Definition item_size (it : FwCfgItem H) : Z :=
  match content_size (item_content it) with Ok n => n | _ => 0 end.
Definition item_fits (it : FwCfgItem H) : Prop := is_ok (content_size (item_content it)) = true.

Definition dir_entry (i : nat) (it : FwCfgItem H) : list Z :=
  fw_cfg_file (item_size it) (FW_CFG_FILE_FIRST + Z.of_nat i) (create_file_name (item_name it)).
Definition directory items : list Z :=
  be32 (Z.of_nat (length items)) ++ mjoin (imap dir_entry items).

Lemma be32_length n : length (be32 n) = 4%nat.
Proof. apply le_bytes_length. Qed.

(** The invariant: the directory item is the directory of the items. *)
Definition dir_ok d : Prop :=
  length (known_items d) = FW_CFG_KNOWN_ITEMS ∧ file_dir d = Some (directory (fw_items d)).

Lemma dir_ok_empty r m : dir_ok (FwCfg_empty r m).
Proof. split; [done|]. done. Qed.

Lemma file_dir_set d b :
  length (known_items d) = FW_CFG_KNOWN_ITEMS →
  file_dir (set_known d FW_CFG_FILE_DIR (ContentBytes b)) = Some b.
Proof.
  intros Hl. unfold file_dir, set_known. cbn [known_items with_known].
  rewrite list_lookup_insert_eq; [done|]. rewrite Hl. unfold FW_CFG_KNOWN_ITEMS, FW_CFG_FILE_DIR. lia.
Qed.

Lemma add_item_ok d it :
  dir_ok d → item_fits it → Z.of_nat (length (fw_items d)) < 2 ^ 16 - 0x20 →
  ∃ d', add_item it d = (d', Ok tt) ∧ dir_ok d' ∧ fw_items d' = fw_items d ++ [it] ∧
        fw_selector d' = fw_selector d.
Proof.
  intros [Hl Hd] Hf Hn. unfold item_fits in Hf.
  destruct (content_size (item_content it)) as [size| |] eqn:Es; try done.
  unfold add_item. rewrite Es, Hd. cbn zeta.
  set (b := directory (fw_items d) ++ _). set (d1 := with_items (set_known d _ _) _).
  assert (file_dir d1 = Some b) as Hd1 by by apply file_dir_set.
  unfold update_count. rewrite Hd1.
  assert ((length b <? 4)%nat = false) as ->.
  { apply Nat.ltb_ge. unfold b, directory. rewrite !length_app, be32_length. lia. }
  eexists. split; [done|]. split_and!; [|done|done]. split.
  - unfold set_known. cbn. by rewrite !length_insert.
  - rewrite file_dir_set by (unfold d1, set_known; cbn; by rewrite length_insert). cbn [fw_items set_known with_known].
    unfold d1 at 1 2. cbn [fw_items with_items set_known with_known]. unfold directory.
    rewrite length_app. cbn [length]. f_equal. unfold wrap at 1. rewrite Z.mod_small by lia. f_equal.
    unfold b, directory. rewrite <- app_assoc, drop_app_length' by by rewrite be32_length.
    rewrite imap_app, join_app. f_equal.
    cbn -[fw_cfg_file dir_entry]. rewrite app_nil_r. unfold dir_entry, item_size.
    rewrite Es, Nat.add_0_r. unfold FW_CFG_FILE_FIRST. unwrap. done.
Qed.

Lemma add_items_ok items : ∀ d,
  dir_ok d → Forall item_fits items → Z.of_nat (length (fw_items d) + length items) ≤ 2 ^ 16 - 0x20 →
  ∃ d', sfor items add_item d = (d', Ok tt) ∧ dir_ok d' ∧ fw_items d' = fw_items d ++ items.
Proof.
  induction items as [|it items IH]; intros d Hd Hf Hn.
  - exists d. by rewrite app_nil_r.
  - apply Forall_cons_1 in Hf as [Hf Hfs]. cbn [length] in Hn.
    destruct (add_item_ok d it) as (d1&E1&Hd1&Hi&_); [done..|lia|].
    destruct (IH d1 Hd1 Hfs) as (d2&E2&Hd2&Hi2); [rewrite Hi, length_app; cbn; lia|].
    exists d2. split_and!; [|done|by rewrite Hi2, Hi, <- app_assoc].
    cbn [sfor]. by eapply sbind_Ok_intro.
Qed.

(** C37: The file directory.  Creating the device with items that fit yields a directory that is exactly
    the big-endian number of items followed by one 64-byte entry each (size, selector, name), and
    the selector an entry announces, [0x20 + i], selects the content of item [i]. *)
Theorem fw_cfg_directory (r : ram) (m : hostmem) items :
  Forall item_fits items → Z.of_nat (length items) ≤ 2 ^ 16 - 0x20 →
  ∃ d, FwCfg_new r m items = (d, Ok tt) ∧ file_dir d = Some (directory items) ∧
       ∀ (i : nat) it, items !! i = Some it → selected d (FW_CFG_FILE_FIRST + Z.of_nat i) = Some (item_content it).
Proof.
  intros Hf Hn. destruct (add_items_ok items (FwCfg_empty r m)) as (d&E&[Hl Hd]&Hi);
    [apply dir_ok_empty|done|done|]. cbn [fw_items FwCfg_empty app] in Hi.
  exists d. split_and!; [done|by rewrite <- Hi|]. intros i it Hit. unfold selected, FW_CFG_FILE_FIRST.
  rewrite lookup_ge_None_2 by (rewrite Hl; unfold FW_CFG_KNOWN_ITEMS; lia).
  replace (Z.to_nat (32 + Z.of_nat i - 32)) with i by lia. by rewrite Hi, Hit.
Qed.
End Directory.

(** ** The data port *)

Section Stream.
Context {H : Type} `{HostFile H}.
Implicit Types (d : FwCfg H).

(** [k] byte reads of the data port. *)
Fixpoint read_port d (k : nat) : FwCfg H * list Z :=
  match k with
  | O => (d, [])
  | S k' =>
      let '(d1, b) := FwCfg_read d 1 1 in
      let '(d2, bs) := read_port d1 k' in (d2, b :: bs)
  end.

Lemma read_port_stream c bs k : ∀ d,
  selected d (fw_selector d) = Some c → content_bytes c = Some bs →
  0 ≤ data_offset d → Z.of_nat (length bs) < 2 ^ 32 →
  snd (read_port d k) =
    take k (drop (Z.to_nat (data_offset d)) bs) ++ replicate (k - (length bs - Z.to_nat (data_offset d))) 0.
Proof.
  induction k as [|k IH]; intros d Hs Hb Ho Hl; [done|].
  cbn [read_port]. unfold FwCfg_read. cbn [Z.add u16].
  change (u16 (u16 1 + PORT_FW_CFG_SELECTOR)) with PORT_FW_CFG_DATA. cbn -[read_port].
  unfold read_data. rewrite Hs.
  assert (content_read c (data_offset d) = bs !! Z.to_nat (data_offset d)) as Er
    by (unfold content_read; destruct c; cbn in Hb; simplify_eq; done).
  cbn [mbind option_bind]. rewrite Er. destruct (bs !! Z.to_nat (data_offset d)) as [b|] eqn:Eb.
  - pose proof (lookup_lt_Some _ _ _ Eb) as Hlt.
    specialize (IH (with_offset d (u32 (data_offset d + 1)))).
    destruct (read_port (with_offset d (u32 (data_offset d + 1))) k) as [d2 l2]. cbn [snd] in *.
    rewrite IH; [|done|done|cbn; apply wrap_in_u; lia|done]. cbn [data_offset with_offset].
    rewrite (wrap_small 32) by (unfold in_u; lia).
    replace (Z.to_nat (data_offset d + 1)) with (S (Z.to_nat (data_offset d))) by lia.
    rewrite (drop_S bs b (Z.to_nat (data_offset d))) by done. cbn [take app]. do 2 f_equal. f_equal. lia.
  - apply lookup_ge_None_1 in Eb. specialize (IH d Hs Hb Ho Hl).
    destruct (read_port d k) as [d2 l2]. cbn [snd] in *. rewrite IH.
    rewrite !drop_ge by lia. rewrite !take_nil. cbn [app].
    replace (S k - (length bs - Z.to_nat (data_offset d)))%nat with (S k) by lia.
    replace (k - (length bs - Z.to_nat (data_offset d)))%nat with k by lia. done.
Qed.

(** C38: The data port streams the selected item.  After writing a selector that names a content held in
    memory, whatever was read before, the next [k] bytes read from the data port are the first
    [k] bytes of the content, and zeros once it is exhausted. *)
Theorem fw_cfg_data_stream d sel c bs (k : nat) :
  in_u 16 sel → selected d sel = Some c → content_bytes c = Some bs → Z.of_nat (length bs) < 2 ^ 32 →
  snd (read_port (fst (FwCfg_write d 0 2 sel)) k) = take k bs ++ replicate (k - length bs) 0.
Proof.
  intros Hsel Hc Hb Hl.
  change (FwCfg_write d 0 2 sel) with
    (mkFwCfg (u16 sel) 0 (dma_address d) (fw_items d) (known_items d) (fw_ram d) (fw_mem d), @Ok fw_error _ tt).
  cbn [fst]. rewrite (read_port_stream c bs k); cbn [fw_selector data_offset]; [| |done..].
  - change (Z.to_nat 0) with 0%nat. by rewrite drop_0, Nat.sub_0_r.
  - by rewrite wrap_small.
Qed.
End Stream.

(** ** DMA *)

Lemma slice_iter_single (r : ram) gpa len a :
  0 < len → Ram_get_partial_slice r gpa len = Ok (a, len) → slice_iter r gpa len = ([(a, len)], None).
Proof.
  intros Hl Hp. unfold slice_iter. destruct (Z.to_nat len) as [|n] eqn:En; [lia|].
  cbn [slice_iter_loop]. rewrite (proj2 (Z.eqb_neq len 0)) by lia. rewrite Hp, Z.sub_diag.
  destruct n; done.
Qed.

Section Dma.
Context {H : Type} `{HostFile H}.
Implicit Types (d : FwCfg H) (c : FwCfgContent H).

(** The bytes an item holds: its value in memory, or for a file-backed item what the file has from its
    offset on, when the host's reads are not short. *)
Definition holds c (bs : list Z) : Prop :=
  match c with
  | ContentFile o f =>
      file_len f = Some (o + Z.of_nat (length bs)) ∧
      ∀ i n, 0 ≤ i → 0 < n → i + n ≤ Z.of_nat (length bs) →
        file_read f (u64 (o + i)) n = Some (take (Z.to_nat n) (drop (Z.to_nat i) bs))
  | _ => content_bytes c = Some bs
  end.

Lemma content_size_holds c bs :
  holds c bs → Z.of_nat (length bs) < 2 ^ 32 → content_size c = Ok (Z.of_nat (length bs)).
Proof.
  intros Hb Hl. unfold content_size, U32_MAX.
  destruct c as [| |o f| | |]; cbn in Hb; simplify_eq; try done; [by rewrite (proj2 (Z.leb_le _ _)) by lia..|].
  destruct Hb as [-> _]. replace (o + Z.of_nat (length bs) - o) with (Z.of_nat (length bs)) by lia.
  rewrite wrap_small by (unfold in_u; lia). by rewrite (proj2 (Z.leb_le _ _)) by lia.
Qed.

Lemma access_read_holds c bs offset n :
  holds c bs → 0 ≤ offset → 0 < n → offset + n ≤ Z.of_nat (length bs) →
  access_read c offset n = Ok (take (Z.to_nat n) (drop (Z.to_nat offset) bs)).
Proof.
  intros Hb Ho Hn Hl. unfold access_read, bytes_get_from.
  destruct c as [b|b|o f|x|x|x]; cbn [holds] in Hb; [| |by rewrite (proj2 Hb) by lia|..];
    rewrite Hb; cbn [mbind option_bind]; by rewrite (proj2 (Z.leb_le _ _)) by lia.
Qed.

Lemma read_exact_holds c bs offset n :
  holds c bs → 0 ≤ offset → 0 < n → offset + n ≤ Z.of_nat (length bs) →
  read_exact_loop (Z.to_nat n) c offset n = Some (take (Z.to_nat n) (drop (Z.to_nat offset) bs)).
Proof.
  intros Hb Ho Hn Hl. pose proof (access_read_holds c bs offset n Hb Ho Hn Hl) as Ha. revert Ha.
  set (data := take (Z.to_nat n) (drop (Z.to_nat offset) bs)). intros Ha.
  assert (Z.of_nat (length data) = n) as Hlen by (unfold data; rewrite length_take, length_drop; lia).
  destruct (Z.to_nat n) as [|k] eqn:Ek; [lia|]. cbn [read_exact_loop].
  rewrite (proj2 (Z.eqb_neq n 0)) by lia. rewrite Ha. clearbody data.
  destruct data as [|x data]; [cbn in Hlen; lia|]. rewrite Hlen, Z.sub_diag.
  destruct k; cbn; by rewrite app_nil_r.
Qed.

(** What [dma_read] does, by the memory it leaves. *)
Lemma dma_read_runs sel len addr a c bs d (data : list Z) :
  selected d sel = Some c → holds c bs → Z.of_nat (length bs) < 2 ^ 32 → in_u 32 (data_offset d) →
  0 ≤ len → data = take (Z.to_nat len) (drop (Z.to_nat (data_offset d)) bs) →
  (data ≠ [] → Ram_get_partial_slice (fw_ram d) addr (Z.of_nat (length data)) = Ok (a, Z.of_nat (length data))) →
  dma_read sel len addr d
  = (with_offset (with_mem d (hwrite (fw_mem d) a data)) (data_offset d + Z.of_nat (length data)), Ok tt).
Proof.
  intros Hs Hb Hl [Ho Hu] Hlen Hdata Hp. set (off := data_offset d) in *.
  assert (Z.of_nat (length data) = Z.min (Z.max 0 (Z.of_nat (length bs) - off)) len) as Hd
    by (rewrite Hdata, length_take, length_drop; lia).
  assert (u32 (off + Z.of_nat (length data)) = off + Z.of_nat (length data)) as Ew
    by (rewrite Hd; apply wrap_small; unfold in_u; lia).
  assert (RamBus_write_range access_read_exact (fw_ram d) (fw_mem d) addr (Z.of_nat (length data)) (c, off)
          = (hwrite (fw_mem d) a data, Ok tt)) as Hw.
  { unfold RamBus_write_range. destruct (decide (data = [])) as [->|Hne]; [done|].
    assert (0 < Z.of_nat (length data)) by (destruct data; [done|cbn; lia]).
    rewrite (slice_iter_single (fw_ram d) addr _ a) by auto.
    cbn [fst snd read_exact_slices]. unfold access_read_exact. cbn [fst snd].
    rewrite (read_exact_holds c bs) by (done || lia). cbn [fst snd iter_result].
    by rewrite Nat2Z.id, <- (take_drop (Z.to_nat len) (drop _ bs)), <- Hdata, take_app_length. }
  unfold dma_read. unfold sbind at 1, sget. rewrite Hs. unfold sbind, dma_read_content. fold off.
  rewrite (content_size_holds c bs Hb Hl), <- Hd. cbn zeta. rewrite Hw. cbn [fst snd].
  unfold smodify. cbn [data_offset with_mem]. fold off. by rewrite Ew.
Qed.

(** C39: A DMA read delivers the next part of the selected item.  The item is in memory, or file-backed with a
    host file whose reads are not short; the part is what is left of it from the current
    position, at most [len] bytes, and may be empty when the item is exhausted; the target of a
    non-empty part lies in one memory slot.  The read succeeds, advances the position past the
    part, writes no host memory but the target's, and the guest then reads exactly the part
    at the target address. *)
Theorem fw_cfg_dma_read sel len addr a c bs d :
  selected d sel = Some c → holds c bs → Z.of_nat (length bs) < 2 ^ 32 → in_u 32 (data_offset d) →
  0 ≤ len →
  let part := take (Z.to_nat len) (drop (Z.to_nat (data_offset d)) bs) in
  let n := Z.of_nat (length part) in
  (part ≠ [] → Ram_get_partial_slice (fw_ram d) addr n = Ok (a, n)) →
  ∃ d', dma_read sel len addr d = (d', Ok tt) ∧ data_offset d' = data_offset d + n ∧
        fw_selector d' = fw_selector d ∧
        (part ≠ [] → Ram_read_t (fw_ram d') (fw_mem d') (length part) addr = Ok part) ∧
        (∀ h, ¬ a ≤ h < a + n → hget (fw_mem d') h = hget (fw_mem d) h).
Proof.
  intros Hs Hb Hl Ho Hlen part n Hp. eexists. split; [by eapply dma_read_runs|].
  cbn [data_offset fw_selector fw_ram fw_mem with_offset with_mem]. split_and!; [done..| |].
  - intros Hne. unfold Ram_read_t, Ram_read. cbn zeta. rewrite length_replicate. fold n. rewrite Hp by done.
    rewrite Z.eqb_refl. cbn [fst snd]. unfold n. by rewrite hread_hwrite.
  - intros h Hh. rewrite hwrite_store. apply store_frame. by rewrite elem_of_seqZ.
Qed.

Lemma dma_read_selector sel len addr d : fw_selector (fst (dma_read sel len addr d)) = fw_selector d.
Proof.
  unfold dma_read, sbind, sget, smodify, sfail. destruct (selected d sel) as [c|]; [|done].
  unfold dma_read_content. destruct (content_size c); [|done..]. cbn zeta.
  by destruct (snd (RamBus_write_range _ _ _ _ _ _)).
Qed.

(** Selecting through DMA.  Whatever selector the guest puts into the upper half of the control word, a
    DMA operation with the SELECT bit leaves the device with selector 1 and the position it had
    (or advanced by the operation): the requested item is not selected. *)
Theorem fw_cfg_dma_select d bs :
  Ram_read_t (fw_ram d) (fw_mem d) 16 (dma_address d) = Ok bs →
  AccessControl.select (be_field bs 0 4) = true → AccessControl.write (be_field bs 0 4) = false →
  fw_selector (fst (do_dma d)) = 1.
Proof.
  intros Hb Hs Hw. unfold do_dma. rewrite Hb. cbn zeta. rewrite Hs, Hw. cbn [Z.b2z].
  set (d1 := mkFwCfg (u16 1) _ _ _ _ _ _). change 1 with (fw_selector d1).
  set (res := if AccessControl.read (be_field bs 0 4) then _ else _).
  assert (fw_selector (fst res) = fw_selector d1) as Hr.
  { unfold res. destruct (AccessControl.read _); [apply dma_read_selector|]. by case_match. }
  rewrite <- Hr. destruct (snd res); [..|done]; by case_match.
Qed.
End Dma.

(** ** A device with two items *)

Module DemoFw.
(** No host files. *)
#[export] Instance no_files : HostFile Empty_set := {|
  file_len := λ f : Empty_set, match f with end;
  file_byte := λ (f : Empty_set) _, match f with end;
  file_read := λ (f : Empty_set) _ _, match f with end
|}.
Definition items : list (FwCfgItem Empty_set) :=
  [mkItem [0x61] (ContentBytes [1; 2; 3; 4]); mkItem [0x62; 0x63] (ContentLu16 0x0807)].
(** Guest memory in two slots of four bytes, and one further up. *)
Definition fw_ram : ram :=
  [mkSlot 0x0 (mkPages 0x7000 0x4 None); mkSlot 0x4 (mkPages 0x3000 0x4 None);
   mkSlot 0x100 (mkPages 0x9000 0x100 None)].
(** A DMA descriptor at 0x100: SELECT of 0x21 with READ, four bytes to address 0. *)
Definition mem : hostmem :=
  hwrite ∅ 0x9000 ([0; 0x21; 0; 0xa] ++ [0; 0; 0; 4] ++ [0; 0; 0; 0; 0; 0; 0; 0]).
Definition dev : FwCfg Empty_set := with_dma (fst (FwCfg_new fw_ram mem items)) 0x100.

(** A host file is its bytes; an item may start inside it. *)
#[export] Instance bytes_file : HostFile (list Z) := {|
  file_len := λ f, Some (Z.of_nat (length f));
  file_byte := λ f o, f !! Z.to_nat o;
  file_read := λ f o n, Some (take (Z.to_nat n) (drop (Z.to_nat o) f))
|}.
Definition initrd : FwCfgItem (list Z) := mkItem [0x69] (ContentFile 1 [9; 1; 2; 3; 4]).
Definition file_dev : FwCfg (list Z) := fst (FwCfg_new fw_ram ∅ [initrd]).
End DemoFw.
Import (hints) DemoFw.

Lemma fw_cfg_directory_witness :
  ∃ d, FwCfg_new DemoFw.fw_ram ∅ DemoFw.items = (d, Ok tt) ∧
       take 12 (default [] (file_dir d)) = [0; 0; 0; 2; 0; 0; 0; 4; 0; 0x20; 0; 0] ∧
       selected d 0x21 = Some (ContentLu16 0x0807).
Proof.
  destruct (fw_cfg_directory DemoFw.fw_ram ∅ DemoFw.items) as (d&Hn&Hd&Hs); [by repeat constructor|cbn; lia|].
  exists d. split_and!; [exact Hn|rewrite Hd; vm_compute; reflexivity|].
  exact (Hs 1%nat _ eq_refl).
Defined.

Lemma fw_cfg_data_stream_witness :
  snd (read_port (fst (FwCfg_write DemoFw.dev 0 2 0x20)) 6) = [1; 2; 3; 4; 0; 0].
Proof.
  apply (fw_cfg_data_stream DemoFw.dev 0x20 (ContentBytes [1; 2; 3; 4]) [1; 2; 3; 4] 6); by_eval.
Defined.

Lemma fw_cfg_dma_read_witness :
  ∃ d', dma_read 0x20 3 0x110 DemoFw.file_dev = (d', Ok tt) ∧ data_offset d' = 3 ∧
        Ram_read_t (fw_ram d') (fw_mem d') 3 0x110 = Ok [1; 2; 3].
Proof.
  destruct (fw_cfg_dma_read 0x20 3 0x110 0x9010 (ContentFile 1 [9; 1; 2; 3; 4]) [1; 2; 3; 4] DemoFw.file_dev)
    as (d' & Hd & Ho & _ & Hr & _); [by_eval| |by_eval..|].
  - split; [done|]. intros i n Hi Hn Hl. cbn in Hl. rewrite wrap_small by (unfold in_u; lia).
    cbn [file_read DemoFw.bytes_file]. by rewrite Z2Nat.inj_add by lia.
  - exists d'. split; [exact Hd|]. split; [exact Ho|]. exact (Hr ltac:(discriminate)).
Defined.

Lemma fw_cfg_dma_select_witness :
  AccessControl.selector (be_field [0; 0x21; 0; 0xa] 0 4) = 0x21 ∧ fw_selector (fst (do_dma DemoFw.dev)) = 1.
Proof.
  split; [vm_compute; reflexivity|].
  apply (fw_cfg_dma_select DemoFw.dev ([0; 0x21; 0; 0xa] ++ [0; 0; 0; 4] ++ [0; 0; 0; 0; 0; 0; 0; 0])); by_eval.
Defined.

(** A DMA read into a range that crosses two memory slots repeats the first bytes in the second slot: the
    source is not advanced between the slices of the target. *)
Example fw_cfg_dma_across_slots :
  let d := fst (dma_read 0x20 4 0x2 DemoFw.dev) in
  Ram_read_t (fw_ram d) (fw_mem d) 4 0x2 = Ok [1; 2; 1; 2].
Proof. vm_compute. reflexivity. Qed.
