(* ===== verification/HostFile.v ===== *)
(** * Files of the host

    The operations of [std::fs::File] and [std::os::unix::fs::FileExt] the source uses, on a
    file as the list of its bytes.  A host stores at most [file_max] bytes in a file; a write
    that goes further stores what fits and fails. *)

From S2P Require Import Prelude.

Abbreviation file := (list Z).

(** [read_at]: up to [len] bytes, fewer at the end of the file. *)
Definition read_at (f : file) (off len : Z) : list Z :=
  if Z.of_nat (length f) <=? off then [] else take (Z.to_nat len) (drop (Z.to_nat off) f).

(** [read_exact_at]; [None]: the file ends before. *)
Definition read_exact_at (f : file) (off len : Z) : option (list Z) :=
  if len =? 0 then Some []
  else if off + len <=? Z.of_nat (length f) then Some (take (Z.to_nat len) (drop (Z.to_nat off) f)) else None.

(** The bytes before [off], with the hole a write beyond the end leaves. *)
Definition upto (f : file) (off : nat) : file := take off f ++ replicate (off - length f) 0.
Definition overwrite (f : file) (off : nat) (bs : list Z) : file :=
  upto f off ++ bs ++ drop (off + length bs) f.

Section Max.
Variable file_max : Z.

(** [write_all_at]: the file afterwards, and whether all was written. *)
Definition write_all_at (f : file) (off : Z) (bs : list Z) : file * bool :=
  match bs with
  | [] => (f, true)
  | _ =>
      if off + Z.of_nat (length bs) <=? file_max then (overwrite f (Z.to_nat off) bs, true)
      else if off <? file_max then (overwrite f (Z.to_nat off) (take (Z.to_nat (file_max - off)) bs), false)
      else (f, false)
  end.

Definition set_len (f : file) (len : Z) : option file :=
  if len <=? file_max then Some (upto f (Z.to_nat len)) else None.
End Max.

(** ** Lemmas *)

Lemma upto_length f off : length (upto f off) = off.
Proof. unfold upto. rewrite length_app, length_take, length_replicate. lia. Qed.

Lemma upto_lookup f off i :
  (i < off)%nat → upto f off !! i = Some (default 0 (f !! i)).
Proof.
  intros Hi. unfold upto. destruct (decide (i < length f)%nat) as [Hl|Hl].
  - rewrite lookup_app_l, lookup_take_lt by (rewrite ?length_take; lia).
    destruct (lookup_lt_is_Some_2 f i Hl) as [x ->]. done.
  - rewrite lookup_app_r by (rewrite length_take; lia). rewrite length_take.
    rewrite (lookup_ge_None_2 f i) by lia. apply lookup_replicate. split; [done|lia].
Qed.

Lemma overwrite_length f off bs : length (overwrite f off bs) = Nat.max (off + length bs) (length f).
Proof. unfold overwrite. rewrite !length_app, upto_length, length_drop. lia. Qed.

Lemma overwrite_inside f off bs i :
  (off ≤ i < off + length bs)%nat → overwrite f off bs !! i = bs !! (i - off)%nat.
Proof.
  intros Hi. unfold overwrite. rewrite lookup_app_r; rewrite upto_length; [|lia].
  by rewrite lookup_app_l by lia.
Qed.

Lemma overwrite_outside f off bs i :
  (i < off ∨ off + length bs ≤ i)%nat → (i < length f)%nat → overwrite f off bs !! i = f !! i.
Proof.
  intros Hi Hl. unfold overwrite. destruct (decide (i < off)%nat) as [Hlt|Hge].
  - rewrite lookup_app_l by (by rewrite upto_length). rewrite upto_lookup by done.
    by destruct (lookup_lt_is_Some_2 f i Hl) as [x ->].
  - rewrite lookup_app_r; rewrite upto_length; [|lia]. rewrite lookup_app_r by lia.
    rewrite lookup_drop. f_equal. lia.
Qed.

(** The hole reads as zero. *)
Lemma overwrite_hole f off bs i :
  (length f ≤ i < off)%nat → overwrite f off bs !! i = Some 0.
Proof.
  intros Hi. unfold overwrite. rewrite lookup_app_l by (rewrite upto_length; lia).
  rewrite upto_lookup by lia. by rewrite (lookup_ge_None_2 f i) by lia.
Qed.

Lemma read_exact_length f off len bs :
  0 ≤ off → 0 ≤ len → read_exact_at f off len = Some bs → Z.of_nat (length bs) = len.
Proof.
  intros Ho Hl. unfold read_exact_at. destruct (Z.eqb_spec len 0); [intros [= <-]; cbn; lia|].
  destruct (Z.leb_spec (off + len) (Z.of_nat (length f))); [|done]. intros [= <-].
  rewrite length_take, length_drop. lia.
Qed.

Lemma read_exact_lookup f off len bs i :
  0 ≤ off → 0 ≤ i < len → read_exact_at f off len = Some bs →
  bs !! Z.to_nat i = f !! Z.to_nat (off + i).
Proof.
  intros Ho Hi. unfold read_exact_at. destruct (Z.eqb_spec len 0); [lia|].
  destruct (Z.leb_spec (off + len) (Z.of_nat (length f))); [|done]. intros [= <-].
  rewrite lookup_take_lt, lookup_drop by lia. f_equal. lia.
Qed.

(** What was written is read back. *)
Lemma read_write_all file_max f f' off bs :
  0 ≤ off → write_all_at file_max f off bs = (f', true) →
  read_exact_at f' off (Z.of_nat (length bs)) = Some bs.
Proof.
  intros Ho. unfold write_all_at, read_exact_at. destruct bs as [|b0 bs']; [done|].
  set (bs := b0 :: bs'). assert (Z.of_nat (length bs) ≠ 0) as Hne by (cbn; lia).
  destruct (Z.leb_spec (off + Z.of_nat (length bs)) file_max); [|by destruct (off <? file_max)].
  intros [= <-]. rewrite (proj2 (Z.eqb_neq _ _) Hne), overwrite_length.
  rewrite (proj2 (Z.leb_le _ _)) by lia. f_equal. unfold overwrite.
  rewrite drop_app_length' by (by rewrite upto_length). by rewrite Nat2Z.id, take_app_length.
Qed.
