(* ===== verification/Dtb.v ===== *)
(** * The flattened device tree: firmware/dt/dt.rs, firmware/dt/dtb.rs

    The tree the board builds and its encoding as a blob.  A string is its bytes, a
    hash map of properties is the list in the order the map is iterated. *)

From S2P Require Import Prelude Utils.

Abbreviation bytes := (list Z).

Inductive PropVal :=
| PropEmpty
| PropU32 (n : Z)
| PropU64 (n : Z)
| PropString (s : bytes)
| PropStr (s : bytes)
| PropPHandle (n : Z)
| PropStringList (l : list bytes)
| PropU32List (l : list Z)
| PropU64List (l : list Z)
| PropBytes (d : bytes).

Definition usize_of (n : nat) : Z := Z.of_nat n.
Definition str_len {A} (s : list A) : Z := usize_of (length s).

Definition PropVal_size (p : PropVal) : Z :=
  match p with
  | PropEmpty => 0
  | PropU32 _ | PropPHandle _ => 4
  | PropU64 _ => 8
  | PropString s => str_len s + 1
  | PropStr s => str_len s + 1
  | PropBytes d => str_len d
  | PropU32List r => 4 * usize_of (length r)
  | PropU64List r => 8 * usize_of (length r)
  | PropStringList l => foldr Z.add 0 ((λ s, str_len s + 1) <$> l)
  end.

Inductive Node := mkNode (props : list (bytes * PropVal)) (nodes : list (bytes * Node)).
Definition node_props (n : Node) := let 'mkNode p _ := n in p.
Definition node_nodes (n : Node) := let 'mkNode _ c := n in c.

Record DeviceTree := mkTree {
  dt_root : Node;
  dt_reserved_mem : list (Z * Z);
  dt_boot_cpuid_phys : Z
}.
Definition DeviceTree_new : DeviceTree := mkTree (mkNode [] []) [] 0.

(** ** dtb.rs *)

Definition FDT_HEADER_MAGIC : bytes := [0xd0; 0x0d; 0xfe; 0xed].
Definition FDT_HEADER_VERSION : Z := 0x11.
Definition FDT_HEADER_LAST_COMP_VERSION : Z := 0x10.
Definition FDT_BEGIN_NODE : bytes := [0x00; 0x00; 0x00; 0x01].
Definition FDT_END_NODE : bytes := [0x00; 0x00; 0x00; 0x02].
Definition FDT_PROP : bytes := [0x00; 0x00; 0x00; 0x03].
Definition FDT_NOP : bytes := [0x00; 0x00; 0x00; 0x04].
Definition FDT_END : bytes := [0x00; 0x00; 0x00; 0x09].

Definition zeros (n : Z) : bytes := replicate (Z.to_nat n) 0.

Definition push_string_align (data s : bytes) : bytes :=
  let padding := align_up 64 (str_len s + 1) 2 - str_len s in
  data ++ s ++ zeros padding.

Definition pad_data (data : bytes) : bytes :=
  let padding := align_up 64 (str_len data) 2 - str_len data in
  data ++ zeros padding.

(** [to_be_bytes]. *)
Definition be_bytes (n : nat) (v : Z) : bytes := reverse (le_bytes n v).

Definition PropVal_write_as_blob (p : PropVal) (data : bytes) : bytes :=
  match p with
  | PropEmpty => data
  | PropU32 n | PropPHandle n => data ++ be_bytes 4 n
  | PropU64 n => data ++ be_bytes 8 n
  | PropString s => push_string_align data s
  | PropStr s => push_string_align data s
  | PropBytes d => pad_data (data ++ d)
  | PropStringList l => pad_data (foldl (λ data s, data ++ s ++ [0]) data l)
  | PropU32List reg => foldl (λ data v, data ++ be_bytes 4 v) data reg
  | PropU64List reg => foldl (λ data v, data ++ be_bytes 8 v) data reg
  end.

(** A [Bu32] or [Bu64] field, as it lies in memory. *)
Definition Bu32 (v : Z) : bytes := ed_as_bytes 4 (ed_from Big 4 v).
Definition Bu64 (v : Z) : bytes := ed_as_bytes 8 (ed_from Big 8 v).

Record FdtHeader := mkFdtHeader {
  fh_magic : bytes; fh_total_size : Z; fh_off_dt_struct : Z; fh_off_dt_strings : Z;
  fh_off_mem_resvmap : Z; fh_version : Z; fh_last_comp_version : Z; fh_boot_cpuid_phys : Z;
  fh_size_dt_strings : Z; fh_size_dt_struct : Z
}.
Definition FDT_HEADER_SIZE : Z := 40.

Definition FdtHeader_as_bytes (h : FdtHeader) : bytes :=
  fh_magic h ++ Bu32 (fh_total_size h) ++ Bu32 (fh_off_dt_struct h) ++ Bu32 (fh_off_dt_strings h) ++
  Bu32 (fh_off_mem_resvmap h) ++ Bu32 (fh_version h) ++ Bu32 (fh_last_comp_version h) ++
  Bu32 (fh_boot_cpuid_phys h) ++ Bu32 (fh_size_dt_strings h) ++ Bu32 (fh_size_dt_struct h).

Definition FdtProp_as_bytes (len name_off : Z) : bytes := Bu32 len ++ Bu32 name_off.
Definition FdtReserveEntry_as_bytes (address size : Z) : bytes := Bu64 address ++ Bu64 size.

(** The string block: each property name once, at the offset it was first added. *)
Record StringBlock := mkStrings { sb_total_size : Z; sb_strings : gmap bytes Z }.
Definition StringBlock_new : StringBlock := mkStrings 0 ∅.

Definition StringBlock_add (name : bytes) (sb : StringBlock) : StringBlock * Z :=
  match sb_strings sb !! name with
  | Some offset => (sb, offset)
  | None =>
      (mkStrings (sb_total_size sb + (str_len name + 1)) (<[name := sb_total_size sb]> (sb_strings sb)),
       sb_total_size sb)
  end.

Definition by_offset (a b : bytes * Z) : Prop := a.2 ≤ b.2.
#[export] Instance by_offset_dec : RelDecision by_offset.
Proof. intros a b. unfold by_offset. apply _. Defined.

Definition StringBlock_write_as_blob (sb : StringBlock) (data : bytes) : bytes :=
  let string_offset := merge_sort by_offset (map_to_list (sb_strings sb)) in
  pad_data (foldl (λ data x, data ++ x.1 ++ [0]) data string_offset).

(** One property, then all of them. *)
Definition write_prop (x : bytes * PropVal) (st : StringBlock * bytes) : StringBlock * bytes :=
  let '(sb, data) := st in
  let data := data ++ FDT_PROP in
  let '(sb, name_off) := StringBlock_add x.1 sb in
  let data := data ++ FdtProp_as_bytes (u32 (PropVal_size x.2)) (u32 name_off) in
  (sb, PropVal_write_as_blob x.2 data).

Definition write_props (ps : list (bytes * PropVal)) (st : StringBlock * bytes) : StringBlock * bytes :=
  foldl (λ st x, write_prop x st) st ps.

Fixpoint Node_write_as_blob (n : Node) (name : bytes) (st : StringBlock * bytes) : StringBlock * bytes :=
  match n with
  | mkNode props nodes =>
      let '(sb, data) := st in
      let data := push_string_align (data ++ FDT_BEGIN_NODE) name in
      let st := write_props props (sb, data) in
      let st :=
        (fix write_nodes (l : list (bytes * Node)) st :=
           match l with
           | [] => st
           | (node_name, node) :: l' => write_nodes l' (Node_write_as_blob node node_name st)
           end) nodes st in
      (st.1, st.2 ++ FDT_END_NODE)
  end.

Definition write_reserved (l : list (Z * Z)) (data : bytes) : bytes :=
  foldl (λ data x, data ++ FdtReserveEntry_as_bytes (u64 x.1) (u64 x.2)) data l
    ++ FdtReserveEntry_as_bytes 0 0.

(** [header.write_to_prefix(&mut data)]. *)
Definition write_to_prefix (h data : bytes) : bytes := h ++ drop (length h) data.

Definition to_blob (dt : DeviceTree) : bytes :=
  let data := zeros FDT_HEADER_SIZE in
  let off_mem_resvmap := str_len data in
  let data := write_reserved (dt_reserved_mem dt) data in
  let off_dt_struct := str_len data in
  let '(string_block, data) := Node_write_as_blob (dt_root dt) [] (StringBlock_new, data) in
  let data := data ++ FDT_END in
  let size_dt_struct := str_len data - off_dt_struct in
  let off_dt_strings := str_len data in
  let data := StringBlock_write_as_blob string_block data in
  let size_dt_strings := str_len data - off_dt_strings in
  let total_size := str_len data in
  let header := mkFdtHeader FDT_HEADER_MAGIC (u32 total_size) (u32 off_dt_struct)
    (u32 off_dt_strings) (u32 off_mem_resvmap) FDT_HEADER_VERSION FDT_HEADER_LAST_COMP_VERSION
    (dt_boot_cpuid_phys dt) (u32 size_dt_strings) (u32 size_dt_struct) in
  write_to_prefix (FdtHeader_as_bytes header) data.

(** ** The device tree blob is read back (firmware/dt/dtb.rs)

    A reader of flattened device trees written from the Devicetree Specification, and the
    proof that it recovers from [to_blob] the tree that was encoded. *)

(** ** A reader of the format *)

Definition round4 (n : nat) : nat := (4 * ((n + 3) / 4))%nat.
Definition be_val (bs : bytes) : Z := le_val (reverse bs).

(** A string up to its terminator, and what follows. *)
Fixpoint cstr (bs : bytes) : option (bytes * bytes) :=
  match bs with
  | [] => None
  | b :: bs' => if b =? 0 then Some ([], bs') else (λ x, (b :: x.1, x.2)) <$> cstr bs'
  end.

Definition parse_name (bs : bytes) : option (bytes * bytes) :=
  (λ x, (x.1, drop (round4 (length x.1 + 1)) bs)) <$> cstr bs.

Inductive fnode := FNode (props : list (bytes * bytes)) (nodes : list (bytes * fnode)).

(** Properties and children up to the end of the node; [strs] is the string block. *)
Fixpoint parse_body (fuel : nat) (strs bs : bytes)
  : option (list (bytes * bytes) * list (bytes * fnode) * bytes) :=
  match fuel with
  | O => None
  | S fuel' =>
      let tok := take 4 bs in
      let bs1 := drop 4 bs in
      if decide (tok = FDT_PROP) then
        let len := Z.to_nat (be_val (take 4 bs1)) in
        let off := Z.to_nat (be_val (take 4 (drop 4 bs1))) in
        let bs2 := drop 8 bs1 in
        '(name, _) ← cstr (drop off strs);
        '(ps, ns, r) ← parse_body fuel' strs (drop (round4 len) bs2);
        Some ((name, take len bs2) :: ps, ns, r)
      else if decide (tok = FDT_BEGIN_NODE) then
        '(name, bs2) ← parse_name bs1;
        '(ps', ns', bs3) ← parse_body fuel' strs bs2;
        '(ps, ns, r) ← parse_body fuel' strs bs3;
        Some (ps, (name, FNode ps' ns') :: ns, r)
      else if decide (tok = FDT_END_NODE) then Some ([], [], bs1)
      else if decide (tok = FDT_NOP) then parse_body fuel' strs bs1
      else None
  end.

Fixpoint parse_reserved (fuel : nat) (bs : bytes) : option (list (Z * Z)) :=
  match fuel with
  | O => None
  | S fuel' =>
      let entry := (be_val (take 8 bs), be_val (take 8 (drop 8 bs))) in
      if decide (entry = (0, 0)) then Some []
      else cons entry <$> parse_reserved fuel' (drop 16 bs)
  end.

(** The processor to boot, reserved memory, and the root with its name. *)
Definition parse_fdt (blob : bytes) : option (Z * list (Z * Z) * bytes * fnode) :=
  let word i := be_val (take 4 (drop i blob)) in
  let block off size := take (Z.to_nat size) (drop (Z.to_nat off) blob) in
  if decide (take 4 blob = FDT_HEADER_MAGIC ∧ word 4%nat = str_len blob ∧ word 20%nat = 17 ∧ word 24%nat = 16)
  then
    let strct := block (word 8%nat) (word 36%nat) in
    let strs := block (word 12%nat) (word 32%nat) in
    rsv ← parse_reserved (length blob) (drop (Z.to_nat (word 16%nat)) blob);
    if decide (take 4 strct = FDT_BEGIN_NODE) then
      '(name, bs) ← parse_name (drop 4 strct);
      '(ps, ns, r) ← parse_body (length blob) strs bs;
      if decide (r = FDT_END) then Some (word 28%nat, rsv, name, FNode ps ns) else None
    else None
  else None.

(** ** What a tree stands for *)

Definition prop_bytes (p : PropVal) : bytes :=
  match p with
  | PropEmpty => []
  | PropU32 n | PropPHandle n => be_bytes 4 n
  | PropU64 n => be_bytes 8 n
  | PropString s | PropStr s => s ++ [0]
  | PropBytes d => d
  | PropStringList l => concat ((λ s, s ++ [0]) <$> l)
  | PropU32List l => concat (be_bytes 4 <$> l)
  | PropU64List l => concat (be_bytes 8 <$> l)
  end.

Fixpoint flat_node (n : Node) : fnode :=
  match n with
  | mkNode ps ns => FNode (prod_map id prop_bytes <$> ps)
      ((fix flat_nodes (l : list (bytes * Node)) :=
          match l with [] => [] | (nm, c) :: l' => (nm, flat_node c) :: flat_nodes l' end) ns)
  end.

(** Strings without a terminator inside. *)
Definition no_nul (s : bytes) : Prop := 0 ∉ s.

Fixpoint wf_node (n : Node) : Prop :=
  match n with
  | mkNode ps ns => Forall (λ x, no_nul x.1) ps ∧
      (fix wf_nodes (l : list (bytes * Node)) :=
         match l with [] => True | (nm, c) :: l' => no_nul nm ∧ wf_node c ∧ wf_nodes l' end) ns
  end.

(** Bytes of the structure and string blocks. *)
Definition prop_len (p : PropVal) : Z := 12 + Z.of_nat (round4 (length (prop_bytes p))).
Fixpoint sumZ {A} (f : A → Z) (l : list A) : Z :=
  match l with [] => 0 | x :: l' => f x + sumZ f l' end.

Fixpoint node_len (nm : bytes) (n : Node) : Z :=
  match n with
  | mkNode ps ns => 8 + Z.of_nat (round4 (length nm + 1)) + sumZ (λ x, prop_len x.2) ps +
      (fix nodes_len (l : list (bytes * Node)) :=
         match l with [] => 0 | (nm, c) :: l' => node_len nm c + nodes_len l' end) ns
  end.

Fixpoint node_strs (n : Node) : Z :=
  match n with
  | mkNode ps ns => sumZ (λ x, str_len x.1 + 1) ps +
      (fix nodes_strs (l : list (bytes * Node)) :=
         match l with [] => 0 | (_, c) :: l' => node_strs c + nodes_strs l' end) ns
  end.

(** The blob is smaller than 4 GiB, and no entry of the memory reservation block ends it early. *)
Definition wf_tree (dt : DeviceTree) : Prop :=
  wf_node (dt_root dt) ∧
  in_u 32 (dt_boot_cpuid_phys dt) ∧
  Forall (λ x, in_u 64 x.1 ∧ in_u 64 x.2 ∧ x ≠ (0, 0)) (dt_reserved_mem dt) ∧
  64 + 16 * str_len (dt_reserved_mem dt) + node_len [] (dt_root dt) + node_strs (dt_root dt) < 2 ^ 32.

(** ** Equations of the recursive definitions *)

Lemma flat_node_eq ps ns :
  flat_node (mkNode ps ns) = FNode (prod_map id prop_bytes <$> ps) (prod_map id flat_node <$> ns).
Proof. cbn. f_equal. induction ns as [|[nm c] ns IH]; [done|]. cbn. by rewrite IH. Qed.

Lemma wf_node_eq ps ns :
  wf_node (mkNode ps ns) ↔
    Forall (λ x, no_nul x.1) ps ∧ Forall (λ x, no_nul x.1 ∧ wf_node x.2) ns.
Proof.
  cbn. apply and_iff_compat_l. induction ns as [|[nm c] ns IH]; [done|].
  rewrite Forall_cons, IH. cbn. tauto.
Qed.

Lemma node_len_eq nm ps ns :
  node_len nm (mkNode ps ns) =
    8 + Z.of_nat (round4 (length nm + 1)) + sumZ (λ x, prop_len x.2) ps + sumZ (λ x, node_len x.1 x.2) ns.
Proof. cbn [node_len]. f_equal. induction ns as [|[nm' c] ns IH]; [done|]. cbn. by rewrite IH. Qed.

Lemma node_strs_eq ps ns :
  node_strs (mkNode ps ns) = sumZ (λ x, str_len x.1 + 1) ps + sumZ (λ x, node_strs x.2) ns.
Proof. cbn [node_strs]. f_equal. induction ns as [|[nm' c] ns IH]; [done|]. cbn. by rewrite IH. Qed.

Definition write_nodes (l : list (bytes * Node)) (st : StringBlock * bytes) : StringBlock * bytes :=
  foldl (λ st x, Node_write_as_blob x.2 x.1 st) st l.

Lemma Node_write_eq ps ns nm sb data :
  Node_write_as_blob (mkNode ps ns) nm (sb, data) =
    let st := write_nodes ns (write_props ps (sb, push_string_align (data ++ FDT_BEGIN_NODE) nm)) in
    (st.1, st.2 ++ FDT_END_NODE).
Proof.
  cbn [Node_write_as_blob]. generalize (write_props ps (sb, push_string_align (data ++ FDT_BEGIN_NODE) nm)).
  intros st. cbv zeta.
  assert (∀ st, (fix write_nodes (l : list (bytes * Node)) st :=
           match l with
           | [] => st
           | (node_name, node) :: l' => write_nodes l' (Node_write_as_blob node node_name st)
           end) ns st = write_nodes ns st) as Hw; [|by rewrite Hw].
  clear st. induction ns as [|[nm' c] ns IH]; intros st; [done|]. apply IH.
Qed.

Lemma Node_rect' (P : Node → Prop) :
  (∀ ps ns, Forall (λ x, P x.2) ns → P (mkNode ps ns)) → ∀ n, P n.
Proof.
  intros HP. fix IH 1. intros [ps ns]. apply HP.
  induction ns as [|[nm c] ns IHn]; constructor; [apply IH|exact IHn].
Qed.

(** ** Padding *)

Definition aligned {A} (l : list A) : Prop := (4 | Z.of_nat (length l)).
Definition pad4 (l : bytes) : bytes := l ++ replicate (round4 (length l) - length l) 0.

Lemma round4_bounds n : (n ≤ round4 n < n + 4)%nat ∧ (4 | Z.of_nat (round4 n)).
Proof.
  unfold round4. pose proof (Nat.div_mod (n + 3) 4 ltac:(lia)).
  pose proof (Nat.mod_upper_bound (n + 3) 4 ltac:(lia)). split; [lia|].
  exists (Z.of_nat ((n + 3) / 4)). lia.
Qed.

Lemma pad4_length l : length (pad4 l) = round4 (length l).
Proof. unfold pad4. rewrite length_app, length_replicate. pose proof (round4_bounds (length l)). lia. Qed.

Lemma multiple_unique a b n : n ≤ a < n + 4 → n ≤ b < n + 4 → (4 | a) → (4 | b) → a = b.
Proof. intros Ha Hb [x ->] [y ->]. lia. Qed.

Lemma align_up_4 n : Z.of_nat n < 2 ^ 32 → align_up 64 (Z.of_nat n) 2 = Z.of_nat (round4 n).
Proof.
  intros Hn. destruct (align_up_bounds 64 (Z.of_nat n) 2) as [Hb Hd]; [lia|lia|lia|].
  pose proof (round4_bounds n) as [??]. change (2 ^ 2) with 4 in *.
  apply (multiple_unique _ _ (Z.of_nat n)); [lia|lia|done|done].
Qed.

Lemma aligned_app {A} (l k : list A) : aligned l → aligned k → aligned (l ++ k).
Proof. unfold aligned. rewrite length_app, Nat2Z.inj_add. apply Z.divide_add_r. Qed.

Lemma aligned_pad4 l : aligned (pad4 l).
Proof. unfold aligned. rewrite pad4_length. apply round4_bounds. Qed.

Lemma round4_shift (a n : nat) : (4 | Z.of_nat a) → (round4 (a + n) = a + round4 n)%nat.
Proof.
  intros Ha. apply Nat2Z.inj. pose proof (round4_bounds (a + n)) as [??]. pose proof (round4_bounds n) as [??].
  rewrite Nat2Z.inj_add.
  apply (multiple_unique _ _ (Z.of_nat (a + n))); [lia|lia|done|]. by apply Z.divide_add_r.
Qed.

Lemma push_string_pad data s :
  str_len s + 1 < 2 ^ 32 → push_string_align data s = data ++ pad4 (s ++ [0]).
Proof.
  intros Hs. unfold push_string_align, pad4, zeros, str_len, usize_of in *. cbv zeta.
  replace (Z.of_nat (length s) + 1) with (Z.of_nat (length s + 1)) by lia.
  rewrite align_up_4 by lia. rewrite length_app. cbn [length]. rewrite <- app_assoc. do 2 f_equal.
  pose proof (round4_bounds (length s + 1)) as [??].
  replace (Z.to_nat (Z.of_nat (round4 (length s + 1)) - Z.of_nat (length s)))
    with (S (round4 (length s + 1) - (length s + 1))) by lia. done.
Qed.

Lemma pad_data_pad data d :
  aligned data → str_len data + str_len d < 2 ^ 32 → pad_data (data ++ d) = data ++ pad4 d.
Proof.
  intros Ha Hs. unfold pad_data, pad4, zeros, str_len, usize_of in *. cbv zeta.
  rewrite length_app, align_up_4 by lia. rewrite <- app_assoc. do 3 f_equal.
  rewrite round4_shift by done. lia.
Qed.

Lemma foldl_concat {A} (f : A → bytes) data l :
  foldl (λ data x, data ++ f x) data l = data ++ concat (f <$> l).
Proof.
  revert data. induction l as [|x l IH]; intros data; cbn; [by rewrite app_nil_r|].
  by rewrite IH, <- app_assoc.
Qed.

Lemma be_bytes_length n v : length (be_bytes n v) = n.
Proof. unfold be_bytes. by rewrite length_reverse, le_bytes_length. Qed.

Lemma concat_be_length n l : length (concat (be_bytes n <$> l)) = (n * length l)%nat.
Proof. induction l as [|x l IH]; cbn; [lia|]. rewrite length_app, be_bytes_length, IH. lia. Qed.

Lemma pad4_aligned l : aligned l → pad4 l = l.
Proof.
  intros Ha. unfold pad4.
  assert (round4 (length l) = length l) as ->.
  { rewrite <- (Nat.add_0_r (length l)), round4_shift by done. reflexivity. }
  by rewrite Nat.sub_diag, app_nil_r.
Qed.

(** A property's value is written padded, and its size is the one declared. *)
Lemma prop_write p data :
  aligned data → str_len data + str_len (prop_bytes p) < 2 ^ 32 →
  PropVal_write_as_blob p data = data ++ pad4 (prop_bytes p).
Proof.
  intros Ha Hs. pose proof (Zle_0_nat (length data)). unfold str_len, usize_of in *.
  destruct p; cbn [PropVal_write_as_blob prop_bytes] in *;
    rewrite ?length_app in Hs; cbn [length] in Hs;
    try (rewrite push_string_pad by (unfold str_len, usize_of; lia); done).
  - by rewrite app_nil_r.
  - rewrite pad4_aligned; [done|]. unfold aligned. rewrite be_bytes_length. by exists 1.
  - rewrite pad4_aligned; [done|]. unfold aligned. rewrite be_bytes_length. by exists 2.
  - rewrite pad4_aligned; [done|]. unfold aligned. rewrite be_bytes_length. by exists 1.
  - rewrite foldl_concat. by rewrite pad_data_pad.
  - rewrite foldl_concat, pad4_aligned; [done|]. unfold aligned. rewrite concat_be_length.
    exists (Z.of_nat (length l)). lia.
  - rewrite foldl_concat, pad4_aligned; [done|]. unfold aligned. rewrite concat_be_length.
    exists (2 * Z.of_nat (length l)). lia.
  - by rewrite pad_data_pad.
Qed.

Lemma prop_size p : PropVal_size p = str_len (prop_bytes p).
Proof.
  unfold str_len, usize_of. destruct p; cbn [PropVal_size prop_bytes];
    rewrite ?be_bytes_length, ?concat_be_length, ?length_app; unfold str_len, usize_of; cbn [length]; try lia.
  induction l as [|s l IH]; [done|]. cbn. rewrite !length_app, IH. cbn [length]. lia.
Qed.

(** ** The string block *)

Fixpoint offs (o : Z) (ns : list bytes) : list (bytes * Z) :=
  match ns with [] => [] | x :: ns' => (x, o) :: offs (o + (str_len x + 1)) ns' end.
Definition block_len (ns : list bytes) : Z := sumZ (λ x, str_len x + 1) ns.
Definition block_bytes (ns : list bytes) : bytes := concat ((λ s, s ++ [0]) <$> ns).

(** The block holds the names [ns], in the order they were added. *)
Definition sb_repr (sb : StringBlock) (ns : list bytes) : Prop :=
  NoDup ns ∧ sb_total_size sb = block_len ns ∧ sb_strings sb = list_to_map (offs 0 ns).

Lemma sumZ_app {A} (f : A → Z) l k : sumZ f (l ++ k) = sumZ f l + sumZ f k.
Proof. induction l as [|x l IH]; cbn; [done|]. rewrite IH. lia. Qed.

Lemma block_len_nonneg ns : 0 ≤ block_len ns.
Proof. induction ns; cbn; unfold block_len, str_len, usize_of in *; lia. Qed.

Lemma block_bytes_length ns : Z.of_nat (length (block_bytes ns)) = block_len ns.
Proof.
  induction ns as [|x ns IH]; [done|]. cbn. rewrite !length_app. cbn [length].
  unfold block_len, str_len, usize_of, block_bytes in *. lia.
Qed.

Lemma offs_fst o ns : (offs o ns).*1 = ns.
Proof. revert o. induction ns as [|x ns IH]; intros o; cbn; [done|]. by rewrite IH. Qed.

Lemma offs_app o ns ns' : offs o (ns ++ ns') = offs o ns ++ offs (o + block_len ns) ns'.
Proof.
  revert o. induction ns as [|x ns IH]; intros o; cbn; [by rewrite Z.add_0_r|].
  rewrite IH. do 3 f_equal. unfold block_len. lia.
Qed.

Lemma offs_range x o b ns : (x, o) ∈ offs b ns → b ≤ o ∧ o + str_len x + 1 ≤ b + block_len ns.
Proof.
  revert b. induction ns as [|y ns IH]; intros b; cbn; [by intros ?%elem_of_nil|].
  pose proof (block_len_nonneg ns). unfold block_len, str_len, usize_of in *.
  intros [[= <- <-]|Hin]%elem_of_cons; [lia|]. specialize (IH _ Hin). lia.
Qed.

Lemma cstr_app s r : no_nul s → cstr (s ++ 0 :: r) = Some (s, r).
Proof.
  unfold no_nul. induction s as [|b s IH]; intros Hs; cbn; [done|].
  rewrite elem_of_cons in Hs. destruct (Z.eqb_spec b 0); [naive_solver|].
  rewrite IH by tauto. done.
Qed.

(** Every name can be read at its offset. *)
Definition names_ok (strs : bytes) (ns : list bytes) : Prop :=
  ∀ x o, (x, o) ∈ offs 0 ns → ∃ r, cstr (drop (Z.to_nat o) strs) = Some (x, r).

Lemma offs_split x o b ns :
  (x, o) ∈ offs b ns → ∃ pre post, block_bytes ns = pre ++ x ++ 0 :: post ∧ Z.of_nat (length pre) = o - b.
Proof.
  revert b. induction ns as [|y ns IH]; intros b; cbn; [by intros ?%elem_of_nil|].
  intros [[= <- <-]|Hin]%elem_of_cons.
  - exists [], (block_bytes ns). cbn. rewrite <- app_assoc. split; [done|lia].
  - destruct (IH _ Hin) as (pre & post & E & Hl). exists ((y ++ [0]) ++ pre), post.
    unfold block_bytes in E |- *. cbn. rewrite E, <- !app_assoc. split; [done|].
    rewrite !length_app. cbn [length]. unfold str_len, usize_of in *. lia.
Qed.

Lemma block_names_ok ns pad : Forall no_nul ns → names_ok (block_bytes ns ++ pad) ns.
Proof.
  intros Hn x o Hin. pose proof (offs_range _ _ _ _ Hin) as [? _].
  assert (no_nul x) as Hx.
  { rewrite Forall_forall in Hn. apply Hn. rewrite <- (offs_fst 0 ns).
    change x with ((x, o).1). by apply list_elem_of_fmap_2. }
  destruct (offs_split _ _ _ _ Hin) as (pre & post & -> & Hl).
  replace (Z.to_nat o) with (length pre) by lia. rewrite <- app_assoc, drop_app_length.
  exists (post ++ pad). rewrite <- app_assoc. by apply cstr_app.
Qed.

Lemma names_ok_app strs ns ns' : names_ok strs (ns ++ ns') → names_ok strs ns.
Proof. intros H x o Hin. apply H. rewrite offs_app. apply elem_of_app. auto. Qed.

(** Adding a name gives its offset and extends the block at most by that name. *)
Lemma add_spec sb ns name :
  sb_repr sb ns → no_nul name →
  ∃ sb' off ns', StringBlock_add name sb = (sb', off) ∧ sb_repr sb' (ns ++ ns') ∧
    (name, off) ∈ offs 0 (ns ++ ns') ∧ Forall no_nul ns' ∧ block_len ns' ≤ str_len name + 1.
Proof.
  intros (Hnd & Ht & Hs) Hnm. unfold StringBlock_add. rewrite Hs, Ht.
  destruct (list_to_map (offs 0 ns) !! name) as [off|] eqn:E.
  - exists sb, off, []. rewrite app_nil_r. split_and!; try done.
    + by apply elem_of_list_to_map_2 in E.
    + unfold block_len, str_len, usize_of. cbn. lia.
  - apply not_elem_of_list_to_map in E. rewrite offs_fst in E.
    eexists _, _, [name]. split; [done|]. split_and!.
    + split_and!; cbn [sb_total_size sb_strings].
      * apply NoDup_app. split_and!; [done| |apply NoDup_singleton].
        intros x Hx. rewrite list_elem_of_singleton. by intros ->.
      * unfold block_len. rewrite sumZ_app. cbn. lia.
      * rewrite offs_app. cbn [offs]. rewrite Z.add_0_l.
        rewrite list_to_map_snoc by (by rewrite offs_fst). done.
    + rewrite offs_app. apply elem_of_app. right. cbn. rewrite Z.add_0_l. apply list_elem_of_here.
    + by repeat constructor.
    + unfold block_len. cbn. lia.
Qed.

Lemma offs_sorted o ns : StronglySorted by_offset (offs o ns).
Proof.
  revert o. induction ns as [|x ns IH]; intros o; cbn; constructor; [apply IH|].
  apply Forall_forall. intros [y p] Hin. apply offs_range in Hin. unfold by_offset. cbn.
  unfold str_len, usize_of in *. lia.
Qed.

Lemma offs_inj o ns x y p : (x, p) ∈ offs o ns → (y, p) ∈ offs o ns → x = y.
Proof.
  revert o. induction ns as [|z ns IH]; intros o; cbn; [by intros ?%elem_of_nil|].
  unfold str_len, usize_of in *.
  intros [Hx|Hx]%elem_of_cons [Hy|Hy]%elem_of_cons; simplify_eq; try done.
  - apply offs_range in Hy. lia.
  - apply offs_range in Hx. lia.
  - eauto.
Qed.

#[local] Instance by_offset_trans : Transitive by_offset.
Proof. intros a b c. unfold by_offset. lia. Qed.
#[local] Instance by_offset_total : Total by_offset.
Proof. intros a b. unfold by_offset. lia. Qed.

Lemma sorted_strings sb ns :
  sb_repr sb ns → merge_sort by_offset (map_to_list (sb_strings sb)) = offs 0 ns.
Proof.
  intros (Hnd & _ & Hs). rewrite Hs.
  assert (merge_sort by_offset (map_to_list (list_to_map (M := gmap bytes Z) (offs 0 ns))) ≡ₚ offs 0 ns) as Hp.
  { rewrite merge_sort_Permutation. apply map_to_list_to_map. by rewrite offs_fst. }
  apply (StronglySorted_unique_strong by_offset); [|by apply StronglySorted_merge_sort; apply _|apply offs_sorted|done].
  intros [x p] [y q] Hx Hy H1 H2. rewrite Hp in Hx. unfold by_offset in *. cbn in *.
  assert (p = q) as -> by lia. f_equal. by eapply offs_inj.
Qed.

Lemma strings_write sb ns data :
  sb_repr sb ns → aligned data → str_len data + block_len ns < 2 ^ 32 →
  StringBlock_write_as_blob sb data = data ++ pad4 (block_bytes ns).
Proof.
  intros Hr Ha Hl. unfold StringBlock_write_as_blob. rewrite (sorted_strings _ _ Hr).
  assert (foldl (λ data x, data ++ x.1 ++ [0]) data (offs 0 ns) = data ++ block_bytes ns) as ->.
  { rewrite (foldl_concat (λ x : bytes * Z, x.1 ++ [0])). unfold block_bytes. rewrite <- (offs_fst 0 ns) at 2.
    by rewrite <- list_fmap_compose. }
  apply pad_data_pad; [done|]. unfold str_len at 2, usize_of. rewrite block_bytes_length. done.
Qed.

(** ** Reading what one step wrote *)

Lemma Bu32_eq v : Bu32 v = be_bytes 4 v.
Proof. apply ed_big_bytes. Qed.
Lemma Bu64_eq v : Bu64 v = be_bytes 8 v.
Proof. apply ed_big_bytes. Qed.

Lemma be_val_bytes n v : in_u (8 * Z.of_nat n) v → be_val (be_bytes n v) = v.
Proof.
  intros Hv. unfold be_val, be_bytes. rewrite reverse_involutive, le_val_bytes. by apply wrap_small.
Qed.

Abbreviation body_result := (list (bytes * bytes) * list (bytes * fnode) * bytes)%type.
Definition parses (strs bs : bytes) (res : body_result) : Prop :=
  ∀ f, (length bs < f)%nat → parse_body f strs bs = Some res.

Definition add_prop (x : bytes * bytes) (res : body_result) : body_result :=
  (x :: res.1.1, res.1.2, res.2).
Definition add_child (x : bytes * fnode) (res : body_result) : body_result :=
  (res.1.1, x :: res.1.2, res.2).

Lemma parses_end strs rest : parses strs (FDT_END_NODE ++ rest) ([], [], rest).
Proof. intros [|f] Hf; [lia|]. reflexivity. Qed.

Lemma parses_prop strs name v off rest res :
  str_len v < 2 ^ 32 → in_u 32 off → (∃ r, cstr (drop (Z.to_nat off) strs) = Some (name, r)) →
  parses strs rest res →
  parses strs (FDT_PROP ++ FdtProp_as_bytes (u32 (str_len v)) (u32 off) ++ pad4 v ++ rest)
    (add_prop (name, v) res).
Proof.
  intros Hv Ho (r & Hname) Hrest [|f] Hf; [lia|]. unfold FdtProp_as_bytes in *.
  rewrite !wrap_small in * by (unfold in_u, str_len, usize_of in *; lia).
  rewrite !Bu32_eq, <- !app_assoc in *. cbn [parse_body]. cbv zeta.
  rewrite (take_app_length' FDT_PROP), (drop_app_length' FDT_PROP) by done.
  rewrite decide_True by done.
  rewrite (take_app_length' (be_bytes 4 _)) by (by rewrite be_bytes_length).
  rewrite (drop_app_length' (be_bytes 4 (str_len v)) _ 4) by (by rewrite be_bytes_length).
  rewrite (take_app_length' (be_bytes 4 off)) by (by rewrite be_bytes_length).
  rewrite (app_assoc (be_bytes 4 (str_len v))).
  rewrite (drop_app_length' (be_bytes 4 (str_len v) ++ _)) by (by rewrite length_app, !be_bytes_length).
  rewrite !be_val_bytes by (unfold in_u, str_len, usize_of in *; cbn; lia). rewrite Hname. cbn [mbind option_bind].
  unfold str_len, usize_of in *. rewrite Nat2Z.id.
  rewrite (drop_app_length' (pad4 v)) by (by rewrite pad4_length).
  rewrite !length_app, !be_bytes_length, pad4_length in Hf. rewrite Hrest by lia.
  destruct res as [[ps ns] rr]. cbn. unfold pad4. rewrite <- app_assoc, take_app_length. done.
Qed.

Lemma parse_name_pad name rest : no_nul name → parse_name (pad4 (name ++ [0]) ++ rest) = Some (name, rest).
Proof.
  intros Hn. unfold parse_name.
  assert (drop (round4 (length name + 1)) (pad4 (name ++ [0]) ++ rest) = rest) as Hd.
  { apply drop_app_length'. rewrite pad4_length, length_app. done. }
  assert (∃ r, cstr (pad4 (name ++ [0]) ++ rest) = Some (name, r)) as [r ->].
  { eexists. unfold pad4. rewrite <- !app_assoc. by apply cstr_app. }
  cbn -[round4 drop pad4]. by rewrite Hd.
Qed.

Lemma parses_node strs name body rest ps ns res :
  no_nul name → parses strs body (ps, ns, rest) → (length rest ≤ length body)%nat →
  parses strs rest res →
  parses strs (FDT_BEGIN_NODE ++ pad4 (name ++ [0]) ++ body) (add_child (name, FNode ps ns) res).
Proof.
  intros Hn Hb Hl Hr [|f] Hf; [lia|]. cbn [parse_body]. cbv zeta.
  rewrite (take_app_length' FDT_BEGIN_NODE), (drop_app_length' FDT_BEGIN_NODE) by done.
  rewrite decide_False, decide_True by done. rewrite parse_name_pad by done. cbn [mbind option_bind].
  rewrite !length_app in Hf. change (length FDT_BEGIN_NODE) with 4%nat in Hf. rewrite Hb by lia. cbn. rewrite Hr by lia. by destruct res as [[??] ?].
Qed.

(** ** Writing, step by step *)

(** A step appends [L] bytes and at most [S] bytes of names; reading them adds [tr] to what
    the rest is read as. *)
Definition writes (w : StringBlock * bytes → StringBlock * bytes) (L S : Z)
    (tr : body_result → body_result) : Prop :=
  0 ≤ L ∧ 0 ≤ S ∧
  ∀ sb ns data, sb_repr sb ns → aligned data → str_len data + L < 2 ^ 32 → block_len ns + S < 2 ^ 32 →
  ∃ sb' ns' bs, w (sb, data) = (sb', data ++ bs) ∧ sb_repr sb' (ns ++ ns') ∧ Forall no_nul ns' ∧
    block_len ns' ≤ S ∧ aligned bs ∧ str_len bs = L ∧
    ∀ strs rest res, names_ok strs (ns ++ ns') → parses strs rest res → parses strs (bs ++ rest) (tr res).

Lemma str_len_app {A} (l k : list A) : str_len (l ++ k) = str_len l + str_len k.
Proof. unfold str_len, usize_of. rewrite length_app. lia. Qed.

Lemma block_len_app l k : block_len (l ++ k) = block_len l + block_len k.
Proof. apply sumZ_app. Qed.

Lemma writes_id : writes id 0 0 id.
Proof.
  split; [lia|]. split; [lia|]. intros sb ns data Hr Ha _ _. exists sb, [], [].
  rewrite !app_nil_r. split_and!; try done. by exists 0.
Qed.

Lemma writes_comp w1 w2 L1 L2 S1 S2 tr1 tr2 :
  writes w1 L1 S1 tr1 → writes w2 L2 S2 tr2 → writes (w2 ∘ w1) (L1 + L2) (S1 + S2) (tr1 ∘ tr2).
Proof.
  intros (? & ? & H1) (? & ? & H2). split; [lia|]. split; [lia|]. intros sb ns data Hr Ha HL HS.
  destruct (H1 sb ns data) as (sb1 & ns1 & bs1 & E1 & Hr1 & Hn1 & Hb1 & Ha1 & Hl1 & Hp1); [done|done|lia|lia|].
  destruct (H2 sb1 (ns ++ ns1) (data ++ bs1)) as (sb2 & ns2 & bs2 & E2 & Hr2 & Hn2 & Hb2 & Ha2 & Hl2 & Hp2).
  { done. } { by apply aligned_app. } { rewrite str_len_app. lia. } { rewrite block_len_app. lia. }
  rewrite <- app_assoc in *. exists sb2, (ns1 ++ ns2), (bs1 ++ bs2). split_and!.
  - unfold compose. rewrite E1, E2. by rewrite app_assoc.
  - done.
  - by apply Forall_app_2.
  - rewrite block_len_app. lia.
  - by apply aligned_app.
  - rewrite str_len_app. lia.
  - intros strs rest res Hok Hrest. rewrite <- app_assoc. apply Hp1; [|by apply Hp2].
    rewrite app_assoc in Hok. by apply names_ok_app in Hok.
Qed.

Lemma writes_fold {A} (w : A → StringBlock * bytes → StringBlock * bytes) (L S : A → Z) tr l :
  Forall (λ x, writes (w x) (L x) (S x) (tr x)) l →
  writes (λ st, foldl (λ st x, w x st) st l) (sumZ L l) (sumZ S l) (λ res, foldr tr res l).
Proof.
  induction 1 as [|x l Hx _ IH]; [exact writes_id|]. exact (writes_comp _ _ _ _ _ _ _ _ Hx IH).
Qed.

Lemma write_prop_writes x :
  no_nul x.1 → writes (write_prop x) (prop_len x.2) (str_len x.1 + 1) (add_prop (prod_map id prop_bytes x)).
Proof.
  intros Hn. destruct x as [name p]. cbn [fst snd] in *. unfold prop_len.
  pose proof (round4_bounds (length (prop_bytes p))) as [Hr4 _].
  split; [lia|]. split; [unfold str_len, usize_of; lia|].
  intros sb ns data Hr Ha HL HS.
  destruct (add_spec sb ns name Hr Hn) as (sb' & off & ns' & E & Hr' & Hin & Hn' & Hb').
  pose proof (offs_range _ _ _ _ Hin) as [Ho1 Ho2].
  rewrite block_len_app in Ho2. assert (in_u 32 off) by (unfold in_u, str_len, usize_of in *; lia).
  exists sb', ns', (FDT_PROP ++ FdtProp_as_bytes (u32 (str_len (prop_bytes p))) (u32 off) ++ pad4 (prop_bytes p)).
  assert (∀ a b, length (FdtProp_as_bytes a b) = 8%nat) as Hfp.
  { intros. unfold FdtProp_as_bytes. by rewrite length_app, !Bu32_eq, !be_bytes_length. }
  split_and!; try done.
  - cbn [write_prop fst snd]. rewrite E. f_equal. rewrite prop_size, prop_write.
    + by rewrite <- !app_assoc.
    + unfold aligned in *. rewrite !length_app, Hfp. cbn [length FDT_PROP].
      destruct Ha as [k Hk]. exists (k + 3). lia.
    + rewrite !str_len_app. unfold str_len, usize_of in *. rewrite Hfp. cbn [length FDT_PROP]. lia.
  - unfold aligned. rewrite !length_app, Hfp, pad4_length. cbn [length FDT_PROP].
    pose proof (round4_bounds (length (prop_bytes p))) as [_ [k Hk]]. exists (k + 3). lia.
  - rewrite !str_len_app. unfold str_len, usize_of. rewrite Hfp, pad4_length. cbn [length FDT_PROP]. lia.
  - intros strs rest res Hok Hrest. rewrite <- !app_assoc. cbn.
    apply parses_prop; [unfold str_len, usize_of in *; lia|done|by apply Hok|done].
Qed.

Lemma foldr_add_prop {A} (f : A → bytes * bytes) l res :
  foldr (λ x, add_prop (f x)) res l = ((f <$> l) ++ res.1.1, res.1.2, res.2).
Proof. induction l as [|x l IH]; cbn; [by destruct res as [[??]?]|]. by rewrite IH. Qed.

Lemma foldr_add_child {A} (f : A → bytes * fnode) l res :
  foldr (λ x, add_child (f x)) res l = (res.1.1, (f <$> l) ++ res.1.2, res.2).
Proof. induction l as [|x l IH]; cbn; [by destruct res as [[??]?]|]. by rewrite IH. Qed.

Lemma write_body_writes ps ns :
  Forall (λ x, no_nul x.1) ps →
  Forall (λ x, writes (Node_write_as_blob x.2 x.1) (node_len x.1 x.2) (node_strs x.2)
                 (add_child (prod_map id flat_node x))) ns →
  writes (write_nodes ns ∘ write_props ps)
    (sumZ (λ x, prop_len x.2) ps + sumZ (λ x, node_len x.1 x.2) ns)
    (sumZ (λ x, str_len x.1 + 1) ps + sumZ (λ x, node_strs x.2) ns)
    (λ res, foldr (λ x, add_prop (prod_map id prop_bytes x))
              (foldr (λ x, add_child (prod_map id flat_node x)) res ns) ps).
Proof.
  intros Hps Hns.
  refine (writes_comp (write_props ps) (write_nodes ns) _ _ _ _
    (λ res, foldr (λ x, add_prop (prod_map id prop_bytes x)) res ps)
    (λ res, foldr (λ x, add_child (prod_map id flat_node x)) res ns) _ _).
  - apply (writes_fold write_prop). eapply Forall_impl; [exact Hps|]. intros x. apply write_prop_writes.
  - by apply (writes_fold (λ x : bytes * Node, Node_write_as_blob x.2 x.1)).
Qed.

(** The opening token and name of a node. *)
Definition node_head (nm : bytes) : bytes := FDT_BEGIN_NODE ++ pad4 (nm ++ [0]).

Lemma node_head_len nm : str_len (node_head nm) = 4 + Z.of_nat (round4 (length nm + 1)).
Proof.
  unfold node_head. rewrite str_len_app. unfold str_len, usize_of. rewrite pad4_length, length_app. done.
Qed.

Lemma node_head_length nm : length (node_head nm) = (4 + round4 (length nm + 1))%nat.
Proof. unfold node_head. rewrite length_app, pad4_length, length_app. done. Qed.

Lemma node_head_aligned nm : aligned (node_head nm).
Proof. apply aligned_app; [by exists 1|apply aligned_pad4]. Qed.

Lemma write_head data nm :
  Z.of_nat (round4 (length nm + 1)) < 2 ^ 32 →
  push_string_align (data ++ FDT_BEGIN_NODE) nm = data ++ node_head nm.
Proof.
  intros Hl. pose proof (round4_bounds (length nm + 1)). unfold node_head.
  rewrite push_string_pad, <- app_assoc; [done|]. unfold str_len, usize_of. lia.
Qed.

(** A node from inside its head: the written body is read up to what follows the node. *)
Lemma write_inner ps ns nm sb nl data :
  wf_node (mkNode ps ns) →
  Forall (λ x, writes (Node_write_as_blob x.2 x.1) (node_len x.1 x.2) (node_strs x.2)
                 (add_child (prod_map id flat_node x))) ns →
  sb_repr sb nl → aligned data → str_len data + node_len nm (mkNode ps ns) < 2 ^ 32 →
  block_len nl + node_strs (mkNode ps ns) < 2 ^ 32 →
  ∃ sb' nl' bs, Node_write_as_blob (mkNode ps ns) nm (sb, data) = (sb', data ++ node_head nm ++ bs) ∧
    sb_repr sb' (nl ++ nl') ∧ Forall no_nul nl' ∧ block_len nl' ≤ node_strs (mkNode ps ns) ∧
    aligned bs ∧ str_len (node_head nm ++ bs) = node_len nm (mkNode ps ns) ∧
    ∀ strs rest, names_ok strs (nl ++ nl') →
      parses strs (bs ++ rest) (prod_map id prop_bytes <$> ps, prod_map id flat_node <$> ns, rest).
Proof.
  intros Hwf Hch Hr Ha HL HS. apply wf_node_eq in Hwf as [Hps Hns].
  destruct (write_body_writes ps ns Hps Hch) as (HL0 & HS0 & Hw).
  rewrite node_len_eq in HL. rewrite node_strs_eq in HS.
  destruct (Hw sb nl (data ++ node_head nm)) as (sb' & nl' & bs & E & Hr' & Hn & Hb & Hab & Hl & Hp);
    [done|by apply aligned_app, node_head_aligned|rewrite str_len_app, node_head_len; lia|lia|].
  exists sb', nl', (bs ++ FDT_END_NODE). split_and!.
  - rewrite Node_write_eq. cbv zeta. rewrite write_head by (unfold str_len, usize_of in *; lia).
    unfold compose in E. rewrite E. cbn. by rewrite <- !app_assoc.
  - done.
  - done.
  - by rewrite node_strs_eq.
  - apply aligned_app; [done|by exists 1].
  - rewrite !str_len_app, node_head_len, node_len_eq, Hl. change (str_len FDT_END_NODE) with 4. lia.
  - intros strs rest Hok. rewrite <- app_assoc.
    specialize (Hp strs (FDT_END_NODE ++ rest) _ Hok (parses_end strs rest)).
    rewrite foldr_add_child, foldr_add_prop in Hp. cbn in Hp. by rewrite !app_nil_r in Hp.
Qed.

Lemma write_node_writes n nm :
  wf_node n → no_nul nm →
  writes (Node_write_as_blob n nm) (node_len nm n) (node_strs n) (add_child (nm, flat_node n)).
Proof.
  revert nm. induction n as [ps ns IH] using Node_rect'. intros nm Hwf Hnm.
  pose proof (proj1 (wf_node_eq ps ns) Hwf) as [Hps Hns].
  assert (Forall (λ x, writes (Node_write_as_blob x.2 x.1) (node_len x.1 x.2) (node_strs x.2)
                 (add_child (prod_map id flat_node x))) ns) as Hch.
  { eapply Forall_impl; [exact (proj2 (Forall_and _ _) (conj IH Hns))|]. intros [nm' c] (Hc & ? & ?). by apply Hc. }
  destruct (write_body_writes ps ns Hps Hch) as (HL0 & HS0 & _).
  split; [rewrite node_len_eq; lia|]. split; [by rewrite node_strs_eq|].
  intros sb nl data Hr Ha HL HS.
  destruct (write_inner ps ns nm sb nl data) as (sb' & nl' & bs & E & Hr' & Hn & Hb & Hab & Hl & Hp); [done..|].
  exists sb', nl', (node_head nm ++ bs). split_and!; try done.
  - by apply aligned_app; [apply node_head_aligned|].
  - intros strs rest res Hok Hrest. unfold node_head. rewrite flat_node_eq, <- !app_assoc.
    eapply parses_node; [done|by apply Hp| |done]. rewrite length_app. lia.
Qed.

(** ** The blob *)

Lemma write_reserved_eq l data :
  write_reserved l data =
    data ++ concat ((λ x, FdtReserveEntry_as_bytes (u64 x.1) (u64 x.2)) <$> l) ++ FdtReserveEntry_as_bytes 0 0.
Proof. unfold write_reserved. by rewrite foldl_concat, <- app_assoc. Qed.

Lemma reserve_length a b : length (FdtReserveEntry_as_bytes a b) = 16%nat.
Proof. unfold FdtReserveEntry_as_bytes. by rewrite length_app, !Bu64_eq, !be_bytes_length. Qed.

Lemma parse_entry fuel a b rest :
  in_u 64 a → in_u 64 b →
  parse_reserved (S fuel) (FdtReserveEntry_as_bytes a b ++ rest) =
    if decide ((a, b) = (0, 0)) then Some [] else cons (a, b) <$> parse_reserved fuel rest.
Proof.
  intros Ha Hb. cbn [parse_reserved]. cbv zeta.
  rewrite (drop_app_length' (FdtReserveEntry_as_bytes a b) _ 16) by (by rewrite reserve_length).
  unfold FdtReserveEntry_as_bytes. rewrite !Bu64_eq, <- app_assoc.
  rewrite (take_app_length' (be_bytes 8 a)), (drop_app_length' (be_bytes 8 a)) by (by rewrite be_bytes_length).
  rewrite (take_app_length' (be_bytes 8 b)) by (by rewrite be_bytes_length).
  by rewrite !be_val_bytes.
Qed.

Lemma parse_reserved_written l rest fuel :
  Forall (λ x, in_u 64 x.1 ∧ in_u 64 x.2 ∧ x ≠ (0, 0)) l → (length l < fuel)%nat →
  parse_reserved fuel (concat ((λ x, FdtReserveEntry_as_bytes (u64 x.1) (u64 x.2)) <$> l)
                         ++ FdtReserveEntry_as_bytes 0 0 ++ rest) = Some l.
Proof.
  intros Hl. revert fuel. induction Hl as [|[a b] l (Ha & Hb & Hne) _ IH]; intros [|fuel] Hf; cbn [length] in Hf;
    try lia; cbn [fst snd] in *.
  - cbn [fmap list_fmap concat app]. by rewrite parse_entry by (unfold in_u; lia).
  - cbn [fmap list_fmap concat fst snd]. rewrite !wrap_small, <- app_assoc by done.
    rewrite parse_entry, decide_False by done. by rewrite IH by lia.
Qed.

Lemma concat_reserve_length l :
  length (concat ((λ x : Z * Z, FdtReserveEntry_as_bytes (u64 x.1) (u64 x.2)) <$> l)) = (16 * length l)%nat.
Proof. induction l as [|x l IH]; cbn [fmap list_fmap concat length]; [done|]. rewrite length_app, reserve_length, IH. lia. Qed.

(** The ten words of the header. *)
Lemma header_fields h rest :
  length (fh_magic h) = 4%nat →
  let words := [fh_total_size h; fh_off_dt_struct h; fh_off_dt_strings h; fh_off_mem_resvmap h;
    fh_version h; fh_last_comp_version h; fh_boot_cpuid_phys h; fh_size_dt_strings h; fh_size_dt_struct h] in
  Forall (in_u 32) words →
  length (FdtHeader_as_bytes h) = 40%nat ∧
  take 4 (FdtHeader_as_bytes h ++ rest) = fh_magic h ∧
  ∀ i w, words !! i = Some w → be_val (take 4 (drop (4 * (i + 1)) (FdtHeader_as_bytes h ++ rest))) = w.
Proof.
  intros Hm words Hw. unfold FdtHeader_as_bytes. rewrite !Bu32_eq. split_and!.
  - by rewrite !length_app, !be_bytes_length, Hm.
  - rewrite <- app_assoc. by apply take_app_length'.
  - intros i w Hi. rewrite Forall_lookup in Hw. pose proof (Hw i w Hi) as Hin.
    transitivity (be_val (be_bytes 4 w)); [f_equal|by apply be_val_bytes]. subst words.
    replace (4 * (i + 1))%nat with (4 + 4 * i)%nat by lia.
    rewrite <- drop_drop, <- !app_assoc, (drop_app_length' (fh_magic h)) by done.
    do 9 (destruct i as [|i];
      [injection Hi as <-; cbn [Nat.mul]; rewrite drop_0;
       by apply take_app_length'; rewrite be_bytes_length |
       replace (4 * S i)%nat with (4 + 4 * i)%nat by lia; rewrite <- drop_drop;
       rewrite (drop_app_length' (be_bytes 4 _)) by (by rewrite be_bytes_length); cbn [lookup list_lookup] in Hi]).
    done.
Qed.

Definition reserved_block (l : list (Z * Z)) : bytes :=
  concat ((λ x, FdtReserveEntry_as_bytes (u64 x.1) (u64 x.2)) <$> l) ++ FdtReserveEntry_as_bytes 0 0.

Lemma reserved_block_len l : str_len (reserved_block l) = 16 * (str_len l + 1).
Proof.
  unfold reserved_block. rewrite str_len_app. unfold str_len, usize_of.
  rewrite concat_reserve_length, reserve_length. lia.
Qed.

(** The parts of the blob and what the header says of them. *)
Lemma to_blob_layout dt :
  wf_tree dt →
  ∃ nl bs, let R := reserved_block (dt_reserved_mem dt) in
    let T := node_head [] ++ bs ++ FDT_END in let N := pad4 (block_bytes nl) in
    let h := mkFdtHeader FDT_HEADER_MAGIC (40 + str_len R + str_len T + str_len N) (40 + str_len R)
      (40 + str_len R + str_len T) 40 17 16 (dt_boot_cpuid_phys dt) (str_len N) (str_len T) in
    to_blob dt = FdtHeader_as_bytes h ++ R ++ T ++ N ∧
    40 + str_len R + str_len T + str_len N < 2 ^ 32 ∧
    Forall no_nul nl ∧
    (∀ strs, names_ok strs nl → ∀ ps ns, dt_root dt = mkNode ps ns →
      parses strs (bs ++ FDT_END) (prod_map id prop_bytes <$> ps, prod_map id flat_node <$> ns, FDT_END)).
Proof.
  intros (Hwf & Hcpu & Hres & Hsize). destruct (dt_root dt) as [ps ns] eqn:Eroot.
  set (R := reserved_block (dt_reserved_mem dt)).
  assert (str_len R = 16 * (str_len (dt_reserved_mem dt) + 1)) as HRl by apply reserved_block_len.
  assert (Forall (λ x, writes (Node_write_as_blob x.2 x.1) (node_len x.1 x.2) (node_strs x.2)
                 (add_child (prod_map id flat_node x))) ns) as Hch.
  { apply wf_node_eq in Hwf as [_ Hns]. eapply Forall_impl; [exact Hns|].
    intros [nm c] [? ?]. by apply write_node_writes. }
  assert (0 ≤ node_len [] (mkNode ps ns) ∧ 0 ≤ node_strs (mkNode ps ns)) as [Hnl0 Hst0].
  { destruct (write_node_writes (mkNode ps ns) [] Hwf) as (? & ? & _); [by apply not_elem_of_nil|done]. }
  assert (aligned (zeros FDT_HEADER_SIZE ++ R)) as Hal.
  { unfold aligned. pose proof HRl as HR. unfold str_len at 1, usize_of in HR.
    rewrite length_app, Nat2Z.inj_add, HR. change (Z.of_nat (length (zeros FDT_HEADER_SIZE))) with 40.
    exists (10 + 4 * (str_len (dt_reserved_mem dt) + 1)). lia. }
  assert (str_len (zeros FDT_HEADER_SIZE) = 40) as Hz by done.
  destruct (write_inner ps ns [] StringBlock_new [] (zeros FDT_HEADER_SIZE ++ R))
    as (sb & nl & bs & E & Hr & Hnl & Hbl & Hab & Hlen & Hp); try done.
  { split_and!; [apply NoDup_nil_2|done|done]. }
  { rewrite str_len_app, Hz. unfold str_len in *. lia. }
  { change (block_len []) with 0. unfold str_len, usize_of in *. lia. }
  rewrite app_nil_l in Hr. pose proof (round4_bounds (length (block_bytes nl))) as [Hr4 _].
  pose proof (block_bytes_length nl) as Hbb.
  assert (str_len (node_head [] ++ bs ++ FDT_END) = node_len [] (mkNode ps ns) + 4) as HT.
  { rewrite app_assoc, str_len_app, Hlen. done. }
  assert (str_len (pad4 (block_bytes nl)) < block_len nl + 4) as HN.
  { unfold str_len, usize_of. rewrite pad4_length. lia. }
  exists nl, bs. cbv zeta. split_and!.
  - unfold to_blob. cbv zeta. rewrite write_reserved_eq. change (concat _ ++ _) with R.
    rewrite Eroot, E. cbn [fst snd].
    assert (((zeros FDT_HEADER_SIZE ++ R) ++ node_head [] ++ bs) ++ FDT_END =
            (zeros FDT_HEADER_SIZE ++ R) ++ (node_head [] ++ bs ++ FDT_END)) as -> by (by rewrite <- !app_assoc).
    set (T := node_head [] ++ bs ++ FDT_END) in *.
    assert (aligned T) as HTa.
    { unfold T. apply aligned_app; [apply node_head_aligned|]. apply aligned_app; [done|by exists 1]. }
    rewrite (strings_write sb nl); [|done|by apply aligned_app|rewrite !str_len_app, Hz; lia].
    rewrite !str_len_app, Hz.
    replace (40 + str_len R + str_len T - (40 + str_len R)) with (str_len T) by lia.
    replace (40 + str_len R + str_len T + str_len (pad4 (block_bytes nl)) - (40 + str_len R + str_len T))
      with (str_len (pad4 (block_bytes nl))) by lia.
    assert (0 ≤ str_len R ∧ 0 ≤ str_len T ∧ 0 ≤ str_len (pad4 (block_bytes nl))) as (?&?&?)
      by (unfold str_len, usize_of; lia).
    rewrite !(wrap_small 32) by (unfold in_u, str_len in *; lia).
    unfold write_to_prefix. f_equal. rewrite <- !app_assoc. apply drop_app_length'. done.
  - unfold str_len in *. lia.
  - done.
  - intros strs Hok ps' ns' [= <- <-]. by apply Hp.
Qed.

Lemma block_at (pre blk post : bytes) :
  take (length blk) (drop (length pre) (pre ++ blk ++ post)) = blk.
Proof. by rewrite drop_app_length, take_app_length. Qed.

Lemma to_nat_str_len {A} (l : list A) : Z.to_nat (str_len l) = length l.
Proof. apply Nat2Z.id. Qed.

(** The header [to_blob] writes before the blocks [R], [T] and [N]. *)
Definition fdt_header (cpu : Z) (R T N : bytes) : FdtHeader :=
  mkFdtHeader FDT_HEADER_MAGIC (40 + str_len R + str_len T + str_len N) (40 + str_len R)
    (40 + str_len R + str_len T) 40 17 16 cpu (str_len N) (str_len T).

Lemma fdt_header_words cpu R T N (blob : bytes) :
  in_u 32 cpu → 40 + str_len R + str_len T + str_len N < 2 ^ 32 →
  blob = FdtHeader_as_bytes (fdt_header cpu R T N) ++ R ++ T ++ N →
  let word i := be_val (take 4 (drop i blob)) in
  take 4 blob = FDT_HEADER_MAGIC ∧ word 4%nat = str_len blob ∧ word 8%nat = 40 + str_len R ∧
  word 12%nat = 40 + str_len R + str_len T ∧ word 16%nat = 40 ∧ word 20%nat = 17 ∧ word 24%nat = 16 ∧
  word 28%nat = cpu ∧ word 32%nat = str_len N ∧ word 36%nat = str_len T ∧
  length (FdtHeader_as_bytes (fdt_header cpu R T N)) = 40%nat.
Proof.
  intros Hcpu Hs Eb. set (h := fdt_header cpu R T N) in *.
  assert (0 ≤ str_len R ∧ 0 ≤ str_len T ∧ 0 ≤ str_len N) as (?&?&?) by (unfold str_len, usize_of; lia).
  destruct (header_fields h (R ++ T ++ N)) as (Hhl & Hm & Hw); [done| |].
  { unfold h. cbn [fdt_header fh_total_size fh_off_dt_struct fh_off_dt_strings fh_off_mem_resvmap fh_version
      fh_last_comp_version fh_boot_cpuid_phys fh_size_dt_strings fh_size_dt_struct].
    rewrite !Forall_cons. unfold in_u in *. split_and!; try lia. by apply Forall_nil. }
  rewrite <- Eb in Hm, Hw. cbv zeta. split_and!; try done.
  - transitivity (fh_total_size h); [exact (Hw 0%nat _ eq_refl)|].
    change (fh_total_size h) with (40 + str_len R + str_len T + str_len N).
    rewrite Eb, !str_len_app. unfold str_len at 4, usize_of. rewrite Hhl. lia.
  - exact (Hw 1%nat _ eq_refl).
  - exact (Hw 2%nat _ eq_refl).
  - exact (Hw 3%nat _ eq_refl).
  - exact (Hw 4%nat _ eq_refl).
  - exact (Hw 5%nat _ eq_refl).
  - exact (Hw 6%nat _ eq_refl).
  - exact (Hw 7%nat _ eq_refl).
  - exact (Hw 8%nat _ eq_refl).
Qed.

(** What the reader does once the header is known. *)
Lemma parse_fdt_blocks cpu R T N blob rsv name bs res :
  in_u 32 cpu → 40 + str_len R + str_len T + str_len N < 2 ^ 32 →
  blob = FdtHeader_as_bytes (fdt_header cpu R T N) ++ R ++ T ++ N →
  parse_reserved (length blob) (R ++ T ++ N) = Some rsv →
  take 4 T = FDT_BEGIN_NODE → parse_name (drop 4 T) = Some (name, bs) →
  parse_body (length blob) N bs = Some (res, FDT_END) →
  parse_fdt blob = Some (cpu, rsv, name, FNode res.1 res.2).
Proof.
  intros Hcpu Hs Eb Hrsv Htok Hname Hbody.
  destruct (fdt_header_words cpu R T N blob Hcpu Hs Eb)
    as (Hm & W4 & W8 & W12 & W16 & W20 & W24 & W28 & W32 & W36 & Hhl). cbv zeta in *.
  set (hb := FdtHeader_as_bytes (fdt_header cpu R T N)) in *.
  unfold parse_fdt. rewrite W4, W8, W12, W16, W20, W24, W28, W32, W36.
  rewrite decide_True by (split_and!; done). cbv zeta.
  assert (Z.to_nat (40 + str_len R) = length (hb ++ R)) as ->
    by (rewrite length_app, Hhl; unfold str_len, usize_of; lia).
  assert (Z.to_nat (40 + str_len R + str_len T) = length (hb ++ R ++ T)) as ->
    by (rewrite !length_app, Hhl; unfold str_len, usize_of; lia).
  rewrite !to_nat_str_len.
  assert (take (length T) (drop (length (hb ++ R)) blob) = T) as ->
    by (rewrite Eb, app_assoc; apply block_at).
  assert (take (length N) (drop (length (hb ++ R ++ T)) blob) = N) as ->.
  { assert (blob = (hb ++ R ++ T) ++ N) as -> by (by rewrite Eb, <- !app_assoc).
    rewrite drop_app_length. by apply take_ge. }
  assert (drop (Z.to_nat 40) blob = R ++ T ++ N) as -> by (rewrite Eb; by apply drop_app_length').
  rewrite Hrsv. cbn [mbind option_bind]. rewrite decide_True by done. rewrite Hname. cbn [mbind option_bind].
  rewrite Hbody. by destruct res.
Qed.

Lemma blob_parses dt :
  wf_tree dt →
  parse_fdt (to_blob dt) = Some (dt_boot_cpuid_phys dt, dt_reserved_mem dt, [], flat_node (dt_root dt)).
Proof.
  intros Hwf. destruct (to_blob_layout dt Hwf) as (nl & bs & Eb & Hs & Hnn & Hp).
  destruct Hwf as (_ & Hcpu & Hres & _). destruct (dt_root dt) as [ps ns] eqn:Er. rewrite flat_node_eq.
  assert (length (reserved_block (dt_reserved_mem dt)) + length (bs ++ FDT_END) < length (to_blob dt))%nat as Hlen.
  { rewrite Eb, !length_app, node_head_length. lia. }
  eapply (parse_fdt_blocks _ _ _ _ _ _ [] (bs ++ FDT_END) (_, _)); [exact Hcpu|exact Hs|exact Eb| |done| |].
  - unfold reserved_block. rewrite <- app_assoc. apply parse_reserved_written; [done|].
    pose proof (reserved_block_len (dt_reserved_mem dt)). unfold str_len, usize_of in *. lia.
  - unfold node_head. rewrite <- app_assoc, (drop_app_length' FDT_BEGIN_NODE) by done.
    apply parse_name_pad, not_elem_of_nil.
  - apply (Hp _ (block_names_ok nl _ Hnn) ps ns eq_refl). lia.
Qed.

(** A reader of the format recovers from the blob the processor to boot, the reserved
    memory and the whole tree, every property with its value and every child under its name,
    and finds each header field consistent with the blob. *)
Theorem dtb_roundtrip dt :
  wf_tree dt →
  parse_fdt (to_blob dt) = Some (dt_boot_cpuid_phys dt, dt_reserved_mem dt, [], flat_node (dt_root dt)).
Proof. exact (blob_parses dt). Qed.

Definition example_tree : DeviceTree :=
  mkTree (mkNode [([97], PropU32 2); ([98; 99], PropString [100; 101])]
            [([109; 64; 48], mkNode [([97], PropBytes [1; 2; 3; 4; 5])] [])]) [(0x1000, 0x2000)] 1.

Lemma dtb_roundtrip_witness :
  parse_fdt (to_blob example_tree) =
    Some (1, [(0x1000, 0x2000)], [],
      FNode [([97], [0; 0; 0; 2]); ([98; 99], [100; 101; 0])]
        [([109; 64; 48], FNode [([97], [1; 2; 3; 4; 5])] [])]).
Proof.
  apply (dtb_roundtrip example_tree). split_and!.
  - cbn [wf_node example_tree dt_root]. rewrite !Forall_cons, !Forall_nil. unfold no_nul.
    split_and!; first [exact I | apply (bool_decide_unpack _); by vm_compute].
  - by_eval.
  - apply Forall_singleton. by_eval.
  - by_eval.
Defined.
