(* ===== verification/Board.v ===== *)
(** * The board: board/board.rs

    CPU topology, the placement of the 64-bit PCI window, the loop that serves a vCPU's
    exits, and how the vCPU threads synchronise: each thread is a program counter, each
    critical section of [mp_sync] is one step, waiting on the condition variable is a
    state that [notify_all] leaves.  The condition variable (parking_lot) has no spurious
    wake-ups. *)

From S2P Require Import Prelude Utils MemTypes Addressable Emulated Mapped Memory.

(** ** Topology *)
Record CpuTopology := mkTopology { smt : bool; cores : Z; sockets : Z }.
Record CpuConfig := mkCpuConfig { cpu_count : Z; topology : CpuTopology }.

Inductive board_error :=
| BHvError | BMemory (e : mem_error) | BLoader | InvalidCpuTopology
| CreateVcpu (index : Z) | RunVcpu (index : Z) | StopVcpu (index : Z)
| ResetPci | BFwCfg | MissingPayload | NotifyVmm | PeerFailure
| UnexpectedState | MissingCpuid | BFirmware | UnknownFirmwareMetadata.
#[export] Instance board_error_eq_dec : EqDecision board_error.
Proof. solve_decision. Defined.

Definition CpuTopology_encode (t : CpuTopology) (index : Z) : outcome board_error (Z * Z * Z) :=
  let total_cores := u16 (cores t * sockets t) in
  if (total_cores =? 0) || (cores t =? 0) then Panic   (* division by zero *)
  else
    let thread_id := index / total_cores in
    let core_id := index mod total_cores mod cores t in
    let socket_id := index mod total_cores / cores t in
    Ok (u8 socket_id, core_id, u8 thread_id).

Definition CpuTopology_decode (t : CpuTopology) (socket_id core_id thread_id : Z) : Z :=
  let total_cores := u16 (cores t * sockets t) in
  u16 (u16 (u16 (thread_id * total_cores) + core_id) + u16 (socket_id * cores t)).

Definition smt_u16 (t : CpuTopology) : Z := if smt t then 1 else 0.

Definition CpuConfig_fixup (c : CpuConfig) : CpuConfig * outcome board_error unit :=
  let t := topology c in
  let sockets' := if sockets t =? 0 then 1 else sockets t in
  let vcpus_per_core := 1 + smt_u16 t in
  let cores' := if cores t =? 0 then cpu_count c / sockets' / vcpus_per_core else cores t in
  let vcpus_per_socket := u16 (cores' * vcpus_per_core) in
  let count := u16 (sockets' * vcpus_per_socket) in
  (mkCpuConfig (cpu_count c) (mkTopology (smt t) cores' sockets'),
   if negb (count =? cpu_count c) then Err InvalidCpuTopology else Ok tt).

(** ** The 64-bit PCI window (board.rs; constants of arch/x86_64/layout.rs) *)
Definition RAM_32_SIZE : Z := 0x80000000.
Definition MEM_64_START : Z := 0x100000000.
Definition PCIE_MMIO_64_SIZE : Z := Z.shiftl 1 40.

(** [u64::next_power_of_two] (0 when the power does not fit, as in the release profile). *)
Definition next_power_of_two (n : Z) : Z := if n <=? 1 then 1 else u64 (2 ^ (Z.log2 (n - 1) + 1)).

Definition pcie_mmio_64_start (mem_size : Z) : Z :=
  next_power_of_two (u64 (Z.max 0 (mem_size - RAM_32_SIZE) + MEM_64_START)).

(** ** States *)
Inductive BoardState := Paused | Running | Shutdown | RebootPending.
#[export] Instance BoardState_eq_dec : EqDecision BoardState.
Proof. solve_decision. Defined.

Record MpSync := mkMp { mp_state : BoardState; mp_fatal : bool; mp_count : Z }.

(** ** [vcpu_loop] *)
Inductive VmExit :=
| ExitIo (port : Z) (write : option Z) (size : Z)
| ExitMmio (addr : Z) (write : option Z) (size : Z)
| ExitConvertMemory (gpa size : Z) (private : bool)
| ExitShutdown | ExitReboot | ExitPaused | ExitInterrupted.

(** A [Result] of this module. *)
Abbreviation bresult A := (board_error + A)%type.

Section VcpuLoop.
Context {W R C CB LC LU : Type} `{Mmio W R C} `{VmMemory W} `{MemCallbacks W CB LC LU}.
Abbreviation M := (stm (Memory W R CB LC LU) mem_error).
Context (change : C → M unit).
(** hv/hv.rs, [trait Vcpu]: [run], with the vCPU's own state. *)
Context {V : Type} (run : V → VmEntry → V * outcome hv_error VmExit).
(** [mp_sync.state] as the loop finds it in its [k]-th round. *)
Context (observe : nat → BoardState).

(** The entry after an interruption. *)
Definition interrupted (st : BoardState) : VmEntry :=
  match st with
  | Shutdown => VmEntryShutdown
  | RebootPending => VmEntryReboot
  | Paused => VmEntryPause
  | Running => VmEntryNone
  end.

(** What one exit leads to: another entry, or the state the board is asked for. *)
Definition serve_exit (k : nat) (e : VmExit) : M (VmEntry + BoardState) :=
  match e with
  | ExitIo port write size => (x <- handle_io change port write size ;; sret (inl x))%stm
  | ExitMmio addr write size => (x <- handle_mmio change addr write size ;; sret (inl x))%stm
  | ExitShutdown => sret (inr Shutdown)
  | ExitReboot => sret (inr RebootPending)
  | ExitPaused => sret (inr Paused)
  | ExitInterrupted => sret (inl (interrupted (observe k)))
  | ExitConvertMemory gpa size private =>
      (mark_private_memory gpa size private ;;; sret (inl VmEntryNone))%stm
  end.

(** [None]: still running after [fuel] exits. *)
Fixpoint vcpu_loop (fuel k : nat) (index : Z) (entry : VmEntry) (s : V * Memory W R CB LC LU)
  : option ((V * Memory W R CB LC LU) * outcome board_error BoardState) :=
  match fuel with
  | O => None
  | S fuel' =>
      match run s.1 entry with
      | (v, Err _) => Some ((v, s.2), Err (RunVcpu index))
      | (v, Panic) => Some ((v, s.2), Panic)
      | (v, Ok e) =>
          match serve_exit k e s.2 with
          | (m, Ok (inl entry')) => vcpu_loop fuel' (S k) index entry' (v, m)
          | (m, Ok (inr st)) => Some ((v, m), Ok st)
          | (m, Err err) => Some ((v, m), Err (BMemory err))
          | (m, Panic) => Some ((v, m), Panic)
          end
      end
  end.
End VcpuLoop.

(** ** The vCPU threads *)

(** Where [sync_vcpus] is called: [init_ap] and [coco_finalize] (board_x86_64.rs, only with
    confidential computing), the end of [boot_init_sync], the end of a reboot round. *)
Inductive Barrier := InitAp | CocoFinalize | BootDone | ResetDone.
#[export] Instance Barrier_eq_dec : EqDecision Barrier.
Proof. solve_decision. Defined.

Inductive WaitAt :=
| WaitStart
| WaitPause (request : bresult BoardState)
| WaitBarrier (b : Barrier).

Inductive VcpuPc :=
| PcCreate                              (* create_vcpu, notify_vmm, init_vcpu *)
| PcReboot                              (* top of 'reboot *)
| PcBoot (b : Barrier)                  (* boot_init_sync, on the way to barrier b *)
| PcGuest                               (* in vcpu_loop *)
| PcExited (request : bresult BoardState)
| PcReset (request : bresult BoardState) (* after 'pause *)
| PcWait (w : WaitAt) (woken : bool)
| PcFailed (e : board_error)            (* run_vcpu, before it sets fatal *)
| PcDone (ret : bresult unit).

Record Board := mkBoard { b_mp : MpSync; b_vcpus : list VcpuPc }.

Definition set_pc (i : nat) (pc : VcpuPc) (b : Board) : Board :=
  mkBoard (b_mp b) (<[i := pc]> (b_vcpus b)).
Definition set_state (st : BoardState) (b : Board) : Board :=
  mkBoard (mkMp st (mp_fatal (b_mp b)) (mp_count (b_mp b))) (b_vcpus b).
Definition set_count (c : Z) (b : Board) : Board :=
  mkBoard (mkMp (mp_state (b_mp b)) (mp_fatal (b_mp b)) c) (b_vcpus b).
Definition set_fatal (b : Board) : Board :=
  mkBoard (mkMp (mp_state (b_mp b)) true (mp_count (b_mp b))) (b_vcpus b).

(** [cond_var.notify_all()]. *)
Definition wake (pc : VcpuPc) : VcpuPc := match pc with PcWait w _ => PcWait w true | _ => pc end.
Definition notify_all (b : Board) : Board := mkBoard (b_mp b) (wake <$> b_vcpus b).

Section Threads.
(** [config.coco.is_some()]. *)
Variable coco : bool.
Implicit Types (b : Board) (i : nat).

(** The end of [run_vcpu]. *)
Definition finish (ret : bresult unit) : VcpuPc :=
  match ret with
  | inr _ | inl PeerFailure => PcDone (inr tt)
  | inl e => PcFailed e
  end.

Definition first_barrier : Barrier := if coco then InitAp else BootDone.

Definition after_barrier (bar : Barrier) : VcpuPc :=
  match bar with
  | InitAp => PcBoot CocoFinalize
  | CocoFinalize => PcBoot BootDone
  | BootDone => PcGuest
  | ResetDone => PcReboot
  end.

(** [sync_vcpus], up to the wait and after it. *)
Definition sync_enter (bar : Barrier) i b : Board :=
  if mp_fatal (b_mp b) then set_pc i (finish (inl PeerFailure)) b
  else
    let count := u16 (mp_count (b_mp b) + 1) in
    if count =? u16 (Z.of_nat (length (b_vcpus b))) then
      set_pc i (after_barrier bar) (notify_all (set_count 0 b))
    else set_pc i (PcWait (WaitBarrier bar) false) (set_count count b).
Definition sync_leave (bar : Barrier) i b : Board :=
  if mp_fatal (b_mp b) then set_pc i (finish (inl PeerFailure)) b
  else set_pc i (after_barrier bar) b.

(** The loop at the top of ['reboot], with the lock held. *)
Definition reboot_loop i b : Board :=
  match mp_state (b_mp b) with
  | Paused => set_pc i (PcWait WaitStart false) b
  | Running => set_pc i (PcBoot first_barrier) b
  | Shutdown => set_pc i (finish (inr tt)) b
  | RebootPending => set_pc i (PcBoot first_barrier) (set_state Running b)
  end.

(** The loop at the end of ['pause], with the lock held. *)
Definition pause_loop (request : bresult BoardState) i b : Board :=
  match mp_state (b_mp b) with
  | Running => set_pc i PcGuest b
  | Paused => set_pc i (PcWait (WaitPause request) false) b
  | RebootPending | Shutdown => set_pc i (PcReset request) b
  end.

(** One step of thread [i]; [ext] is what the calls outside this module return (the
    hypervisor, the loader, the devices, [vcpu_loop]).  [None]: the thread is blocked or gone. *)
Definition vcpu_step i (ext : bresult BoardState) b : option Board :=
  match b_vcpus b !! i with
  | None => None
  | Some pc =>
      match pc with
      | PcCreate =>
          Some match ext with inr _ => set_pc i PcReboot b | inl e => set_pc i (finish (inl e)) b end
      | PcReboot => Some (reboot_loop i b)
      | PcBoot bar =>
          Some match ext with inr _ => sync_enter bar i b | inl e => set_pc i (finish (inl e)) b end
      | PcGuest =>
          match ext with
          | inr Running => None              (* not a request *)
          | _ => Some (set_pc i (PcExited ext) b)
          end
      | PcExited request =>
          Some
            (if decide (mp_state (b_mp b) = Running) then
               let b1 := set_state (match request with
                                    | inr RebootPending => RebootPending
                                    | inr Paused => Paused
                                    | _ => Shutdown
                                    end) b in
               (* stop_other_vcpus(Some(index), &vcpus)? *)
               match ext with
               | inr _ => pause_loop request i b1
               | inl e => set_pc i (finish (inl e)) b1
               end
             else pause_loop request i b)
      | PcReset request =>
          Some match ext, request with
               | inl e, _ => set_pc i (finish (inl e)) b
               | inr _, inl e => set_pc i (finish (inl e)) b
               | inr _, inr _ => sync_enter ResetDone i b
               end
      | PcWait w true =>
          Some match w with
               | WaitStart => reboot_loop i b
               | WaitPause request => pause_loop request i b
               | WaitBarrier bar => sync_leave bar i b
               end
      | PcWait _ false => None
      | PcFailed e =>
          let b1 := set_fatal b in
          let b2 := if 0 <? mp_count (b_mp b1) then notify_all b1 else b1 in
          Some (set_pc i (PcDone (inl e)) b2)
      | PcDone _ => None
      end
  end.

(** The board's interface to its owner. *)
Definition resume b : Board * outcome board_error unit :=
  if decide (mp_state (b_mp b) = Paused) then (notify_all (set_state Running b), Ok tt)
  else (b, Err UnexpectedState).

(** [ext]: the result of [stop_other_vcpus(None, &vcpus)]. *)
Definition pause (ext : bresult unit) b : Board * outcome board_error unit :=
  if decide (mp_state (b_mp b) = Running) then
    (set_state Paused b, match ext with inr _ => Ok tt | inl e => Err e end)
  else (b, Err UnexpectedState).

Definition boot := resume.

Definition Board_new (count : nat) : Board := mkBoard (mkMp Paused false 0) (replicate count PcCreate).
End Threads.

(** ** Topology and synchronisation of the vCPUs (board/board.rs)

    Identities of vCPUs; the barrier, its failure path and the absence of deadlock, as
    invariants of every interleaving of the vCPU threads with [pause] and [resume]. *)

(** ** Topology *)

Definition config_in_range (c : CpuConfig) : Prop :=
  in_u 16 (cpu_count c) ∧ in_u 16 (cores (topology c)) ∧ in_u 8 (sockets (topology c)).

Lemma fixup_range c c' :
  config_in_range c → CpuConfig_fixup c = (c', Ok tt) →
  config_in_range c' ∧ cpu_count c' = cpu_count c ∧ 1 ≤ sockets (topology c') ∧
  let t := topology c' in
  u16 (u16 (cores t * sockets t) * (1 + smt_u16 t)) = cpu_count c.
Proof.
  intros (Hc & Ho & Hs). unfold CpuConfig_fixup. cbv zeta.
  set (s' := if sockets (topology c) =? 0 then 1 else sockets (topology c)).
  set (k := 1 + smt_u16 (topology c)).
  set (c0 := if cores (topology c) =? 0 then cpu_count c / s' / k else cores (topology c)).
  assert (1 ≤ s' < 2 ^ 8) as Hs' by (subst s'; unfold in_u in *; destruct (Z.eqb_spec (sockets (topology c)) 0); lia).
  assert (1 ≤ k ≤ 2) as Hk by (subst k; unfold smt_u16; destruct (smt _); lia).
  assert (in_u 16 c0) as Hc0.
  { subst c0. destruct (Z.eqb_spec (cores (topology c)) 0); [|done]. destruct Hc.
    pose proof (Z.div_pos (cpu_count c) s' ltac:(lia) ltac:(lia)).
    pose proof (Z.div_le_upper_bound (cpu_count c) s' (cpu_count c) ltac:(lia) ltac:(nia)).
    pose proof (Z.div_pos (cpu_count c / s') k ltac:(lia) ltac:(lia)).
    pose proof (Z.div_le_upper_bound (cpu_count c / s') k (cpu_count c / s') ltac:(lia) ltac:(nia)).
    unfold in_u. lia. }
  destruct (Z.eqb_spec (u16 (s' * u16 (c0 * k))) (cpu_count c)) as [He|]; [|done].
  intros [= <-]. cbn [cpu_count topology cores sockets smt]. split; [|split; [done|split; [apply Hs'|]]].
  { split_and!; [done|done|]. unfold in_u. cbn [cpu_count topology sockets]. lia. }
  rewrite <- He. unfold wrap. rewrite Zmult_mod_idemp_l, Zmult_mod_idemp_r. f_equal. unfold k, smt_u16. cbn [smt]. ring.
Qed.

(** Once the topology is fixed up, every vCPU index has a socket, core and thread within the
    topology, and decoding them gives the index back, also when the products wrap at 16 bits. *)
Theorem topology_roundtrip c c' index :
  config_in_range c → CpuConfig_fixup c = (c', Ok tt) → 0 ≤ index < cpu_count c →
  ∃ s o t, CpuTopology_encode (topology c') index = Ok (s, o, t) ∧
    0 ≤ s < sockets (topology c') ∧ 0 ≤ o < cores (topology c') ∧ 0 ≤ t ≤ smt_u16 (topology c') ∧
    CpuTopology_decode (topology c') s o t = index.
Proof.
  intros Hc Hf Hi. destruct (fixup_range c c' Hc Hf) as ((Hcnt & Ho & Hs) & Ecnt & Hs1 & E). cbv zeta in E.
  set (tp := topology c') in *. set (k := smt_u16 tp) in *.
  assert (0 ≤ k ≤ 1) as Hk by (subst k; unfold smt_u16; destruct (smt tp); lia).
  set (T := u16 (cores tp * sockets tp)) in *.
  assert (in_u 16 T) as HT by (apply wrap_in_u; lia).
  assert (in_u 16 (cpu_count c)) as Hcc by (by rewrite Ecnt in Hcnt).
  unfold in_u in *.
  assert (0 < T) as HT0.
  { destruct (decide (T = 0)) as [E0|]; [|lia]. rewrite E0 in E. change (u16 (0 * (1 + k))) with 0 in E. lia. }
  assert (T ≤ cores tp * sockets tp) as HTle.
  { unfold T, wrap. pose proof (Z.mod_le (cores tp * sockets tp) (2 ^ 16)). nia. }
  assert (0 < cores tp) as Hc0 by nia.
  assert (index / T ≤ k) as Ht.
  { assert (index < T * (1 + k)); [|assert (index / T < 1 + k); [apply Z.div_lt_upper_bound; lia|lia]].
    unfold wrap in E. pose proof (Z.mod_le (T * (1 + k)) (2 ^ 16)). nia. }
  pose proof (Z.div_pos index T ltac:(lia) ltac:(lia)).
  pose proof (Z.mod_pos_bound index T ltac:(lia)). pose proof (Z.div_mod index T ltac:(lia)).
  set (q := index mod T) in *.
  pose proof (Z.mod_pos_bound q (cores tp) ltac:(lia)). pose proof (Z.div_mod q (cores tp) ltac:(lia)).
  pose proof (Z.div_pos q (cores tp) ltac:(lia) ltac:(lia)).
  assert (q / cores tp < sockets tp) by (apply Z.div_lt_upper_bound; nia).
  exists (q / cores tp), (q mod cores tp), (index / T). unfold CpuTopology_encode. fold T.
  rewrite (proj2 (Z.eqb_neq T 0)), (proj2 (Z.eqb_neq (cores tp) 0)) by lia. cbn [orb].
  rewrite !(wrap_small 8) by (unfold in_u; fold q; lia). split; [done|]. split_and!; try lia.
  unfold CpuTopology_decode. fold T.
  assert (0 ≤ index / T * T) by nia. assert (0 ≤ q / cores tp * cores tp) by nia.
  rewrite (wrap_small 16 (index / T * T)), (wrap_small 16 (q / cores tp * cores tp)) by (unfold in_u; lia).
  rewrite (wrap_small 16 (index / T * T + _)) by (unfold in_u; lia).
  rewrite wrap_small by (unfold in_u; lia). lia.
Qed.

Lemma topology_roundtrip_witness :
  let c := mkCpuConfig 24 (mkTopology true 0 3) in
  ∃ s o t, CpuTopology_encode (topology (CpuConfig_fixup c).1) 17 = Ok (s, o, t) ∧
    CpuTopology_decode (topology (CpuConfig_fixup c).1) s o t = 17.
Proof.
  intros c. destruct (topology_roundtrip c (CpuConfig_fixup c).1 17) as (s & o & t & E & _ & _ & _ & D).
  - by_eval.
  - reflexivity.
  - by_eval.
  - by exists s, o, t.
Defined.

(** ** Threads waiting at a barrier *)

Definition waiting (pc : VcpuPc) : bool :=
  match pc with PcWait (WaitBarrier _) false => true | _ => false end.
Definition wait_one (pc : VcpuPc) : Z := if waiting pc then 1 else 0.
Fixpoint nwait (l : list VcpuPc) : Z :=
  match l with [] => 0 | pc :: l' => wait_one pc + nwait l' end.

Lemma nwait_bounds l : 0 ≤ nwait l ≤ Z.of_nat (length l).
Proof. induction l as [|pc l IH]; cbn; [lia|]. unfold wait_one. destruct (waiting pc); lia. Qed.

Lemma nwait_insert l i pc pc' :
  l !! i = Some pc → nwait (<[i := pc']> l) = nwait l - wait_one pc + wait_one pc'.
Proof.
  revert i. induction l as [|x l IH]; intros [|i] E; try done.
  - injection E as ->. cbn. lia.
  - change (<[S i := pc']> (x :: l)) with (x :: <[i := pc']> l). cbn [nwait]. rewrite (IH i E). lia.
Qed.

Lemma nwait_wake l : nwait (wake <$> l) = 0.
Proof. induction l as [|pc l IH]; cbn; [done|]. rewrite IH. by destruct pc as [| | | | | |[]| |]. Qed.

Lemma wait_one_bounds pc : 0 ≤ wait_one pc ≤ 1.
Proof. unfold wait_one. destruct (waiting pc); lia. Qed.

Lemma nwait_zero l i pc : nwait l = 0 → l !! i = Some pc → waiting pc = false.
Proof.
  intros H0 E. pose proof (nwait_insert l i pc PcGuest E) as Hi.
  pose proof (nwait_bounds (<[i := PcGuest]> l)). unfold wait_one in Hi. cbn in Hi.
  destruct (waiting pc); [lia|done].
Qed.

(** All threads but one wait: the others are those. *)
Lemma nwait_others l i pc j pc' :
  l !! i = Some pc → waiting pc = false → nwait l = Z.of_nat (length l) - 1 →
  l !! j = Some pc' → j ≠ i → waiting pc' = true.
Proof.
  intros Ei Hw Hn Ej Hij. destruct (waiting pc') eqn:Hw'; [done|].
  set (w := PcWait (WaitBarrier InitAp) false).
  pose proof (nwait_insert l i pc w Ei) as Hi.
  assert (<[i := w]> l !! j = Some pc') as Ej' by (by rewrite list_lookup_insert_ne).
  pose proof (nwait_insert _ _ _ w Ej') as Hj.
  pose proof (nwait_bounds (<[j := w]> (<[i := w]> l))) as Hb. rewrite !length_insert in Hb.
  unfold wait_one in *. rewrite Hw in Hi. rewrite Hw' in Hj. cbn in *. lia.
Qed.

(** ** Runs *)

Inductive event :=
| EvVcpu (i : nat) (ext : bresult BoardState)
| EvResume
| EvPause (ext : bresult unit).

Definition event_step (coco : bool) (e : event) (b : Board) : option Board :=
  match e with
  | EvVcpu i ext => vcpu_step coco i ext b
  | EvResume => Some (resume b).1
  | EvPause ext => Some (pause ext b).1
  end.

(** [PeerFailure] is not an error of another module. *)
Definition event_ok (e : event) : Prop :=
  match e with EvVcpu _ ext => ext ≠ inl PeerFailure | _ => True end.

Inductive reachable (coco : bool) (n : nat) : Board → Prop :=
| reach_new : reachable coco n (Board_new n)
| reach_step b e b' :
    reachable coco n b → event_ok e → event_step coco e b = Some b' → reachable coco n b'.

(** Waiters are counted, and there is none once a thread has failed. *)
Definition counted (n : nat) (b : Board) : Prop :=
  length (b_vcpus b) = n ∧
  nwait (b_vcpus b) ≤ mp_count (b_mp b) < Z.of_nat n ∧
  (mp_fatal (b_mp b) = true → nwait (b_vcpus b) = 0).

(** A thread that neither waits nor starts to wait. *)
Lemma counted_set_pc n b i pc pc' :
  counted n b → b_vcpus b !! i = Some pc → waiting pc = false → waiting pc' = false →
  counted n (set_pc i pc' b).
Proof.
  intros (Hl & Hc & Hf) Ei Hw Hw'. unfold counted, set_pc. cbn.
  rewrite length_insert, (nwait_insert _ _ _ _ Ei). unfold wait_one. rewrite Hw, Hw'.
  split_and!; [done|lia|lia|]. intros ?%Hf. lia.
Qed.

Lemma counted_notify n b : counted n b → counted n (notify_all b).
Proof.
  intros (Hl & Hc & Hf). unfold counted, notify_all. cbn. rewrite length_fmap, nwait_wake.
  pose proof (nwait_bounds (b_vcpus b)). split_and!; [done|lia|lia|done].
Qed.

Lemma counted_set_state n st b : counted n b → counted n (set_state st b).
Proof. done. Qed.

Lemma counted_enter n bar i pc b :
  0 < Z.of_nat n < 2 ^ 16 → counted n b → b_vcpus b !! i = Some pc → waiting pc = false →
  counted n (sync_enter bar i b).
Proof.
  intros Hn Hinv Ei Hw. pose proof Hinv as (Hl & Hc & Hf). pose proof (nwait_bounds (b_vcpus b)).
  unfold sync_enter. destruct (mp_fatal (b_mp b)) eqn:Efat; [by eapply counted_set_pc|]. cbv zeta.
  rewrite Hl, !wrap_small by (unfold in_u; lia).
  destruct (Z.eqb_spec (mp_count (b_mp b) + 1) (Z.of_nat n)).
  - eapply (counted_set_pc n _ i (wake pc)).
    + split_and!; cbn; [by rewrite length_fmap|rewrite nwait_wake; lia|lia|by rewrite nwait_wake].
    + cbn. by rewrite list_lookup_fmap, Ei.
    + by destruct pc as [| | | | | |[]| |].
    + by destruct bar.
  - unfold counted, set_pc, set_count. cbn. rewrite length_insert, (nwait_insert _ _ _ _ Ei).
    unfold wait_one. rewrite Hw. cbn. split_and!; [done|lia|lia|]. by rewrite Efat.
Qed.

Lemma finish_not_waiting ret : waiting (finish ret) = false.
Proof. by destruct ret as [[]|[]]. Qed.
Create HintDb board.
#[local] Hint Resolve counted_set_pc counted_notify counted_set_state finish_not_waiting : board.

Lemma counted_reboot coco n i pc b :
  counted n b → b_vcpus b !! i = Some pc → waiting pc = false → counted n (reboot_loop coco i b).
Proof. intros. unfold reboot_loop. destruct (mp_state _); eauto with board. Qed.

Lemma counted_pause n req i pc b :
  counted n b → b_vcpus b !! i = Some pc → waiting pc = false → counted n (pause_loop req i b).
Proof. intros. unfold pause_loop. destruct (mp_state _); eauto with board. Qed.

Lemma counted_fatal n i pc e b :
  counted n b → b_vcpus b !! i = Some pc → waiting pc = false →
  counted n (set_pc i (PcDone (inl e)) (if 0 <? mp_count (b_mp b) then notify_all (set_fatal b) else set_fatal b)).
Proof.
  intros (Hl & Hc & Hf) Ei Hw. pose proof (nwait_bounds (b_vcpus b)).
  destruct (Z.ltb_spec 0 (mp_count (b_mp b))).
  - eapply (counted_set_pc n _ i (wake pc)); [|cbn; by rewrite list_lookup_fmap, Ei|by destruct pc as [| | | | | |[]| |]|done].
    split_and!; cbn; [by rewrite length_fmap|rewrite nwait_wake; lia|lia|by rewrite nwait_wake].
  - eapply (counted_set_pc n _ i pc); [|done..]. split_and!; cbn; [done|lia|lia|lia].
Qed.

Lemma counted_vcpu coco n i ext b b' :
  0 < Z.of_nat n < 2 ^ 16 → counted n b → vcpu_step coco i ext b = Some b' → counted n b'.
Proof.
  intros Hn Hinv. unfold vcpu_step. destruct (b_vcpus b !! i) as [pc|] eqn:Ei; [|done].
  assert (∀ bar, waiting pc = false → counted n (sync_enter bar i b)) by eauto using counted_enter.
  destruct pc as [| |bar| |req|req|w []|e|ret]; intros E; simplify_eq.
  - destruct ext; eauto with board.
  - by eapply counted_reboot.
  - destruct ext; eauto with board.
  - destruct ext as [|[]]; simplify_eq; eauto with board.
  - case_decide; [destruct ext|]; eauto using counted_pause with board.
  - destruct ext, req; eauto with board.
  - destruct w; [by eapply counted_reboot|by eapply counted_pause|].
    unfold sync_leave. destruct (mp_fatal _); [by eauto with board|]. destruct b0; eauto with board.
  - exact (counted_fatal n i (PcFailed e) e b Hinv Ei eq_refl).
Qed.

Lemma reachable_counted coco n b :
  0 < Z.of_nat n < 2 ^ 16 → reachable coco n b → counted n b.
Proof.
  intros Hn. induction 1 as [|b e b' _ IH Hok E].
  - assert (∀ k, nwait (replicate k PcCreate) = 0) as H0 by (intros k; induction k; cbn; [done|by rewrite IHk]).
    split_and!; cbn; rewrite ?length_replicate, ?H0; done || lia.
  - destruct e as [i ext| |ext]; [by eapply counted_vcpu|..]; cbn in E; simplify_eq.
    + unfold resume. case_decide; [|done]. by apply counted_notify.
    + unfold pause. by case_decide.
Qed.

(** Whatever the interleaving of the vCPUs, [pause] and [resume], once a vCPU has reported a
    fatal error no other vCPU is blocked at a barrier: each one there, on its way to it or woken
    from it, ends without an error of its own at its next step. *)
Theorem board_failure_unblocks coco n b i :
  0 < Z.of_nat n < 2 ^ 16 → reachable coco n b → mp_fatal (b_mp b) = true →
  match b_vcpus b !! i with
  | Some (PcWait (WaitBarrier _) woken) =>
      woken = true ∧ ∃ b', vcpu_step coco i (inr Running) b = Some b' ∧
        b_vcpus b' !! i = Some (PcDone (inr tt))
  | Some (PcBoot _) | Some (PcReset (inr _)) =>
      ∃ b', vcpu_step coco i (inr Running) b = Some b' ∧ b_vcpus b' !! i = Some (PcDone (inr tt))
  | _ => True
  end.
Proof.
  intros Hn Hr Hf. pose proof (reachable_counted coco n b Hn Hr) as (Hl & Hc & H0).
  destruct (b_vcpus b !! i) as [pc|] eqn:Ei; [|done].
  pose proof (nwait_zero _ _ _ (H0 Hf) Ei) as Hw. pose proof (lookup_lt_Some _ _ _ Ei) as Hi.
  assert (∀ bar, b_vcpus (sync_enter bar i b) !! i = Some (PcDone (inr tt))) as He.
  { intros bar. unfold sync_enter. rewrite Hf. cbn. by apply list_lookup_insert_eq. }
  assert (∀ bar, b_vcpus (sync_leave bar i b) !! i = Some (PcDone (inr tt))) as Hlv.
  { intros bar. unfold sync_leave. rewrite Hf. cbn. by apply list_lookup_insert_eq. }
  unfold vcpu_step. destruct pc as [| |bar| |req|[|req]|[| |bar] []|e|ret]; try done;
    try (split; [done|]); rewrite ?Ei; (eexists; split; [reflexivity|]; done).
Qed.

(** Two vCPUs: the first fails to load its payload while the second waits for it. *)
Definition failing_run : list event :=
  [EvVcpu 0 (inr Running); EvVcpu 1 (inr Running); EvResume; EvVcpu 1 (inr Running);
   EvVcpu 1 (inr Running); EvVcpu 0 (inr Running); EvVcpu 0 (inl MissingPayload); EvVcpu 0 (inr Running)].

Fixpoint run_events (coco : bool) (es : list event) (b : Board) : option Board :=
  match es with [] => Some b | e :: es' => event_step coco e b ≫= run_events coco es' end.

Lemma run_reachable coco n es b b' :
  Forall event_ok es → reachable coco n b → run_events coco es b = Some b' → reachable coco n b'.
Proof.
  intros Hok. revert b. induction Hok as [|e es He _ IH]; intros b Hr E; cbn in E; [by simplify_eq|].
  destruct (event_step coco e b) as [b1|] eqn:E1; [|done]. eapply IH; [|exact E]. by econstructor.
Qed.

Lemma board_failure_unblocks_witness :
  ∃ b b', run_events false failing_run (Board_new 2) = Some b ∧
    vcpu_step false 1 (inr Running) b = Some b' ∧ b_vcpus b' !! 1%nat = Some (PcDone (inr tt)).
Proof.
  destruct (run_events false failing_run (Board_new 2)) as [b|] eqn:E; [|by vm_compute in E].
  assert (reachable false 2 b) as Hr.
  { eapply run_reachable; [|apply reach_new|exact E]. repeat constructor; discriminate. }
  pose proof (board_failure_unblocks false 2 b 1 ltac:(lia) Hr) as H.
  vm_compute in E. injection E as <-. destruct (H eq_refl) as (_ & b' & E1 & E2).
  by exists (mkBoard (mkMp Running true 1)
    [PcDone (inl MissingPayload); PcWait (WaitBarrier BootDone) true]), b'.
Defined.
