(* ===== verification/BoardSync.v ===== *)
(** * The barrier of the vCPU threads (board/board.rs)

    In every run in which the owner resumes the board only while no vCPU stands at a
    barrier: no vCPU leaves its [k]-th barrier before all have arrived at theirs, and the
    threads never block each other.  A [resume] in between breaks the barrier. *)

From S2P Require Import Prelude Utils MemTypes Addressable Emulated Mapped Memory Board.

Section Sync.
Variable coco : bool.

(** ** Arrivals and departures *)

Definition inside (pc : VcpuPc) : bool :=
  match pc with PcBoot _ | PcGuest | PcReboot => true | _ => false end.
(** A step that reaches a barrier, one that leaves a barrier. *)
Definition arrival (pc pc' : VcpuPc) : Z :=
  match pc with
  | PcBoot _ | PcReset _ => if inside pc' || waiting pc' then 1 else 0
  | _ => 0
  end.
Definition departure (pc pc' : VcpuPc) : Z :=
  match pc with
  | PcBoot _ | PcReset _ | PcWait (WaitBarrier _) _ => if inside pc' then 1 else 0
  | _ => 0
  end.

Definition bump (f : nat → Z) (i : nat) (d : Z) : nat → Z := λ j, if decide (j = i) then f j + d else f j.

(** Runs with the number of arrivals and departures of each vCPU. *)
Inductive counted_run (n : nat) : Board → (nat → Z) → (nat → Z) → Prop :=
| run_new : counted_run n (Board_new n) (λ _, 0) (λ _, 0)
| run_vcpu b arr dep i ext pc b' pc' :
    counted_run n b arr dep → ext ≠ inl PeerFailure → vcpu_step coco i ext b = Some b' →
    b_vcpus b !! i = Some pc → b_vcpus b' !! i = Some pc' →
    counted_run n b' (bump arr i (arrival pc pc')) (bump dep i (departure pc pc'))
| run_resume b arr dep :
    counted_run n b arr dep → nwait (b_vcpus b) = 0 → counted_run n (resume b).1 arr dep
| run_pause b arr dep ext : counted_run n b arr dep → counted_run n (pause ext b).1 arr dep.

(** ** The invariant *)

Definition succ_barrier (bar : Barrier) : Barrier :=
  match bar with
  | InitAp => CocoFinalize | CocoFinalize => BootDone | BootDone => ResetDone
  | ResetDone => first_barrier coco
  end.

(** The barriers of this configuration. *)
Definition used (bar : Barrier) : Prop :=
  match bar with InitAp | CocoFinalize => coco = true | BootDone | ResetDone => True end.

Definition req_ok (req : bresult BoardState) : Prop := req ≠ inl PeerFailure.

(** Round [r] is complete, [cur] is the barrier of round [r + 1]; [a] arrivals, [p] departures. *)
Definition vcpu_inv (r : Z) (cur : Barrier) (st : BoardState) (fatal : bool) (pc : VcpuPc) (a p : Z) : Prop :=
  match pc with
  | PcWait (WaitBarrier bar) false => a = r + 1 ∧ p = r ∧ cur = bar
  | PcWait (WaitBarrier bar) true =>
      (a = r ∧ p = r - 1 ∧ cur = succ_barrier bar ∧ used bar) ∨ (fatal = true ∧ a = r + 1 ∧ p = r)
  | PcDone _ => r ≤ a ∧ p ≤ r ∧ (fatal = false → st = Shutdown ∧ cur = first_barrier coco)
  | PcFailed _ => r ≤ a ∧ p ≤ r
  | PcCreate | PcReboot | PcWait WaitStart _ => a = r ∧ p = r ∧ cur = first_barrier coco
  | PcBoot bar => a = r ∧ p = r ∧ cur = bar ∧ bar ≠ ResetDone ∧ used bar
  | PcGuest => a = r ∧ p = r ∧ cur = ResetDone
  | PcExited req | PcReset req | PcWait (WaitPause req) _ => a = r ∧ p = r ∧ cur = ResetDone ∧ req_ok req
  end.

Definition idle (pc : VcpuPc) : bool :=
  match pc with PcWait WaitStart false | PcWait (WaitPause _) false => true | _ => false end.
Definition booting (pc : VcpuPc) : bool :=
  match pc with PcBoot _ | PcWait (WaitBarrier _) false => true | _ => false end.
Definition stopping (st : BoardState) : bool :=
  match st with Shutdown | RebootPending => true | _ => false end.

Record sync_inv (n : nat) (b : Board) (arr dep : nat → Z) (r : Z) (cur : Barrier) : Prop := {
  si_len : length (b_vcpus b) = n;
  si_count : mp_fatal (b_mp b) = false → mp_count (b_mp b) = nwait (b_vcpus b);
  si_less : nwait (b_vcpus b) ≤ mp_count (b_mp b) < Z.of_nat n;
  si_fatal : mp_fatal (b_mp b) = true → nwait (b_vcpus b) = 0;
  si_idle : mp_state (b_mp b) ≠ Paused → ∀ i pc, b_vcpus b !! i = Some pc → idle pc = false;
  si_stop : stopping (mp_state (b_mp b)) = true →
    cur = ResetDone ∨ (cur = first_barrier coco ∧ ∀ i pc, b_vcpus b !! i = Some pc → booting pc = false);
  si_vcpu : ∀ i pc, b_vcpus b !! i = Some pc →
    vcpu_inv r cur (mp_state (b_mp b)) (mp_fatal (b_mp b)) pc (arr i) (dep i)
}.

Lemma bump_eq f i d : bump f i d i = f i + d.
Proof. unfold bump. by rewrite decide_True. Qed.
Lemma bump_ne f i j d : j ≠ i → bump f i d j = f j.
Proof. intros. unfold bump. by rewrite decide_False. Qed.

(** One thread moves, the shared state does not change. *)
Lemma inv_set_pc n b arr dep r cur i pc pc' a' p' :
  sync_inv n b arr dep r cur → b_vcpus b !! i = Some pc → waiting pc = false → waiting pc' = false →
  vcpu_inv r cur (mp_state (b_mp b)) (mp_fatal (b_mp b)) pc' (arr i + a') (dep i + p') →
  (mp_state (b_mp b) ≠ Paused → idle pc' = false) →
  (stopping (mp_state (b_mp b)) = true → booting pc' = true → cur = ResetDone) →
  sync_inv n (set_pc i pc' b) (bump arr i a') (bump dep i p') r cur.
Proof.
  intros [Hl Hc Hls Hf Hid Hst Hv] Ei Hw Hw' Hv' Hid' Hst'.
  assert (nwait (b_vcpus (set_pc i pc' b)) = nwait (b_vcpus b)) as Hn.
  { cbn. rewrite (nwait_insert _ _ _ _ Ei). unfold wait_one. rewrite Hw, Hw'. lia. }
  pose proof (lookup_lt_Some _ _ _ Ei) as Hi. split; rewrite ?Hn; try done.
  - cbn. by rewrite length_insert.
  - intros Hp j pj. cbn. rewrite list_lookup_insert. case_decide; naive_solver.
  - cbn. intros Hs. destruct (Hst Hs) as [?|[Hcur Hb]]; [by left|].
    destruct (decide (cur = ResetDone)); [by left|]. right. split; [done|].
    intros j pj. rewrite list_lookup_insert. case_decide as Hd; [|by apply Hb].
    intros [= <-]. destruct (booting pc') eqn:Eb; [|done]. naive_solver.
  - intros j pj. cbn. rewrite list_lookup_insert. case_decide as Hd.
    + intros [= <-]. destruct Hd as [<- _]. by rewrite !bump_eq.
    + intros Ej. destruct (decide (j = i)) as [->|]; [by destruct Hd|]. rewrite !bump_ne by done. by apply Hv.
Qed.

(** The shared state changes, no thread moves. *)
Lemma inv_set_state n b arr dep r cur st :
  sync_inv n b arr dep r cur → mp_state (b_mp b) ≠ Shutdown → mp_state (b_mp b) ≠ Paused →
  (stopping st = true → cur = ResetDone) →
  sync_inv n (set_state st b) arr dep r cur.
Proof.
  intros [Hl Hc Hls Hf Hid Hst Hv] Hns Hnp Hcur. split; try done; cbn.
  - intros _. by apply Hid.
  - intros Hs. left. auto.
  - intros i pc Ei. specialize (Hv i pc Ei). destruct pc as [| | | | | |[] []| |]; try done.
    destruct Hv as (?&?&Hd). split_and!; try done. intros Hff. by destruct (Hd Hff).
Qed.

(** Waking up threads none of which waits at a barrier. *)
Lemma inv_notify n b arr dep r cur :
  sync_inv n b arr dep r cur → nwait (b_vcpus b) = 0 → sync_inv n (notify_all b) arr dep r cur.
Proof.
  intros [Hl Hc Hls Hf Hid Hst Hv] H0. split; cbn; rewrite ?nwait_wake; try done.
  - by rewrite length_fmap.
  - intros Hff. rewrite (Hc Hff). done.
  - lia.
  - intros _ i pc. rewrite list_lookup_fmap. intros (pc0 & _ & ->)%fmap_Some. by destruct pc0 as [| | | | | |[]| |].
  - intros Hs. destruct (Hst Hs) as [?|[? Hb]]; [by left|right; split; [done|]].
    intros i pc. rewrite list_lookup_fmap. intros (pc0 & E & ->)%fmap_Some.
    specialize (Hb i pc0 E). by destruct pc0 as [| | | | | |[] []| |].
  - intros i pc. rewrite list_lookup_fmap. intros (pc0 & E & ->)%fmap_Some.
    pose proof (nwait_zero _ _ _ H0 E) as Hw. specialize (Hv i pc0 E). by destruct pc0 as [| | | | | |[] []| |].
Qed.

Lemma inv_resume n b arr dep r cur :
  sync_inv n b arr dep r cur → nwait (b_vcpus b) = 0 → sync_inv n (resume b).1 arr dep r cur.
Proof.
  intros Hinv H0. unfold resume. case_decide as Hp; [|done]. cbn.
  pose proof (inv_notify _ _ _ _ _ _ Hinv H0) as [Hl Hc Hls Hf Hid Hst Hv].
  split; try done; cbn in *.
  - intros _ i pc. rewrite list_lookup_fmap. intros (pc0 & _ & ->)%fmap_Some. by destruct pc0 as [| | | | | |[]| |].
  - intros i pc Ei. specialize (Hv i pc Ei). destruct pc as [| | | | | |[] []| |]; try done.
    destruct Hv as (?&?&Hd). split_and!; try done. intros Hff. destruct (Hd Hff). congruence.
Qed.

(** On the way to barrier [bar]. *)
Definition heading (pc : VcpuPc) (bar : Barrier) : Prop :=
  pc = PcBoot bar ∨ (bar = ResetDone ∧ ∃ st, pc = PcReset (inr st)).

Lemma heading_inv r cur st fatal pc bar a p :
  heading pc bar → vcpu_inv r cur st fatal pc a p →
  a = r ∧ p = r ∧ cur = bar ∧ used bar ∧ waiting pc = false ∧ (∀ pc', arrival pc pc' = if inside pc' || waiting pc' then 1 else 0) ∧
  (∀ pc', departure pc pc' = if inside pc' then 1 else 0) ∧ (bar = ResetDone → booting pc = false).
Proof. intros [-> | (-> & st' & ->)] Hv; cbn in Hv; naive_solver. Qed.

(** The last thread to arrive completes the round. *)
Lemma inv_complete n b arr dep r cur i pc bar :
  sync_inv n b arr dep r cur → b_vcpus b !! i = Some pc → heading pc bar → mp_fatal (b_mp b) = false →
  mp_count (b_mp b) + 1 = Z.of_nat n →
  sync_inv n (set_pc i (after_barrier bar) (notify_all (set_count 0 b))) (bump arr i 1) (bump dep i 1)
    (r + 1) (succ_barrier bar).
Proof.
  intros [Hl Hc Hls Hf Hid Hst Hv] Ei Hh Hff Hcnt. pose proof (lookup_lt_Some _ _ _ Ei) as Hi.
  destruct (heading_inv _ _ _ _ _ _ _ _ Hh (Hv i pc Ei)) as (Ha & Hp & Hcur & Hu & Hw & _ & _ & Hboot).
  assert (∀ j pj, j ≠ i → b_vcpus b !! j = Some pj → waiting pj = true) as Hoth.
  { intros j pj Hj Ej. eapply (nwait_others _ i pc j); try done. rewrite <- (Hc Hff). lia. }
  assert (∀ j pj, (<[i := after_barrier bar]> (wake <$> b_vcpus b)) !! j = Some pj →
    (j = i ∧ pj = after_barrier bar) ∨
    (j ≠ i ∧ pj = PcWait (WaitBarrier cur) true ∧ arr j = r + 1 ∧ dep j = r)) as Hall.
  { intros j pj. rewrite list_lookup_insert, length_fmap. case_decide as Hd; [intros [= <-]; left; naive_solver|].
    rewrite list_lookup_fmap. intros (p0 & E0 & ->)%fmap_Some.
    destruct (decide (j = i)) as [->|Hj]; [by destruct Hd|]. right. split; [done|].
    pose proof (Hoth j p0 Hj E0) as Hwj. specialize (Hv j p0 E0).
    destruct p0 as [| | | | | |[| |bar0] []| |]; try done. destruct Hv as (?&?& <-). done. }
  assert (nwait (<[i := after_barrier bar]> (wake <$> b_vcpus b)) = 0) as Hn0.
  { assert ((wake <$> b_vcpus b) !! i = Some (wake pc)) as Ew by (by rewrite list_lookup_fmap, Ei).
    rewrite (nwait_insert _ _ _ _ Ew), nwait_wake. unfold wait_one.
    destruct Hh as [-> |(-> & ? & ->)]; [by destruct bar|done]. }
  split; cbn; rewrite ?Hn0; try done; [by rewrite length_insert, length_fmap|lia|..].
  - intros _ j pj Ej. destruct (Hall j pj Ej) as [[_ ->]|(_ & -> & _)]; [by destruct bar|done].
  - intros Hs. destruct (decide (bar = ResetDone)) as [->|Hb].
    + right. split; [done|]. intros j pj Ej. by destruct (Hall j pj Ej) as [[_ ->]|(_ & -> & _)].
    + exfalso. destruct (Hst Hs) as [?|[_ Hnb]]; [congruence|].
      destruct Hh as [-> |(? & _)]; [|done]. by specialize (Hnb i _ Ei).
  - intros j pj Ej. destruct (Hall j pj Ej) as [[-> ->]|(Hj & -> & Ea & Ed)].
    + rewrite !bump_eq. destruct bar; cbn in *; split_and!; try done; lia.
    + rewrite !bump_ne by done. left. rewrite Hcur. split_and!; [lia|lia|done|done].
Qed.

Lemma inv_enter n b arr dep r cur i pc bar b' pc' :
  0 < Z.of_nat n < 2 ^ 16 → sync_inv n b arr dep r cur → b_vcpus b !! i = Some pc → heading pc bar →
  b' = sync_enter bar i b → b_vcpus b' !! i = Some pc' →
  ∃ r' cur', sync_inv n b' (bump arr i (arrival pc pc')) (bump dep i (departure pc pc')) r' cur'.
Proof.
  intros Hn Hinv Ei Hh -> Ei'. pose proof Hinv as [Hl Hc Hls Hf Hid Hst Hv].
  pose proof (lookup_lt_Some _ _ _ Ei) as Hi. pose proof (nwait_bounds (b_vcpus b)).
  destruct (heading_inv _ _ _ _ _ _ _ _ Hh (Hv i pc Ei)) as (Ha & Hp & Hcur & Hu & Hw & Harr & Hdep & Hboot).
  unfold sync_enter in *. destruct (mp_fatal (b_mp b)) eqn:Eff; cbv zeta in *.
  { exists r, cur. cbn in Ei'. rewrite list_lookup_insert_eq in Ei' by done. injection Ei' as <-.
    rewrite Harr, Hdep. eapply inv_set_pc; try done. rewrite Eff. cbn. split_and!; [lia|lia|done]. }
  rewrite Hl in *. rewrite !wrap_small in * by (unfold in_u; lia).
  destruct (Z.eqb_spec (mp_count (b_mp b) + 1) (Z.of_nat n)).
  - exists (r + 1), (succ_barrier bar). cbn in Ei'. rewrite list_lookup_insert_eq in Ei' by (by rewrite length_fmap, Hl).
    injection Ei' as <-. rewrite Harr, Hdep.
    assert (inside (after_barrier bar) = true) as -> by (by destruct bar). by eapply inv_complete.
  - exists r, cur. cbn in Ei'. rewrite list_lookup_insert_eq in Ei' by (by rewrite Hl). injection Ei' as <-.
    rewrite Harr, Hdep. cbn [inside waiting orb].
    assert (nwait (<[i := PcWait (WaitBarrier bar) false]> (b_vcpus b)) = nwait (b_vcpus b) + 1) as Hnw.
    { rewrite (nwait_insert _ _ _ _ Ei). unfold wait_one. rewrite Hw. cbn. lia. }
    split; cbn; rewrite ?Hnw, ?Eff; try done; [by rewrite length_insert|intros _; by rewrite Hc|lia|..].
    + intros Hnp j pj. rewrite list_lookup_insert. case_decide; naive_solver.
    + intros Hs. destruct (Hst Hs) as [?|[Hfst Hnb]]; [by left|]. left.
      destruct Hh as [-> |(-> & _)]; [by specialize (Hnb i _ Ei)|done].
    + intros j pj. rewrite list_lookup_insert. case_decide as Hd.
      * intros [= <-]. destruct Hd as [<- _]. rewrite !bump_eq. cbn. split_and!; [lia|lia|done].
      * intros Ej. destruct (decide (j = i)) as [->|]; [destruct Hd; by rewrite Hl|]. rewrite !bump_ne by done.
        by apply Hv.
Qed.

(** A failing thread sets [fatal] and wakes the others. *)
Lemma inv_fail n b arr dep r cur i e :
  sync_inv n b arr dep r cur → b_vcpus b !! i = Some (PcFailed e) →
  sync_inv n (set_pc i (PcDone (inl e)) (if 0 <? mp_count (b_mp b) then notify_all (set_fatal b) else set_fatal b))
    (bump arr i 0) (bump dep i 0) r cur.
Proof.
  intros [Hl Hc Hls Hf Hid Hst Hv] Ei. pose proof (nwait_bounds (b_vcpus b)).
  assert (sync_inv n (if 0 <? mp_count (b_mp b) then notify_all (set_fatal b) else set_fatal b) arr dep r cur) as Hinv.
  { destruct (Z.ltb_spec 0 (mp_count (b_mp b))).
    - split; cbn; rewrite ?nwait_wake; try done; [by rewrite length_fmap|lia|..].
      + intros _ j pj. rewrite list_lookup_fmap. intros (p0 & _ & ->)%fmap_Some. by destruct p0 as [| | | | | |[]| |].
      + intros Hs. destruct (Hst Hs) as [?|[? Hb]]; [by left|right; split; [done|]].
        intros j pj. rewrite list_lookup_fmap. intros (p0 & E0 & ->)%fmap_Some.
        specialize (Hb j p0 E0). by destruct p0 as [| | | | | |[] []| |].
      + intros j pj. rewrite list_lookup_fmap. intros (p0 & E0 & ->)%fmap_Some.
        specialize (Hv j p0 E0). destruct p0 as [| | | | | |[] []| |]; cbn in *; naive_solver.
    - split; cbn; try done; [intros _; lia|].
      intros j pj Ej. pose proof (nwait_zero (b_vcpus b) j pj ltac:(lia) Ej) as Hwj. specialize (Hv j pj Ej).
      destruct pj as [| | | | | |[] []| |]; cbn in *; naive_solver. }
  destruct (Hv i _ Ei) as [Ha Hp].
  assert (∃ pc0, b_vcpus (if 0 <? mp_count (b_mp b) then notify_all (set_fatal b) else set_fatal b) !! i = Some pc0
    ∧ waiting pc0 = false) as (pc0 & E0 & Hw0).
  { exists (PcFailed e). split; [|done]. case_match; cbn; [by rewrite list_lookup_fmap, Ei|done]. }
  eapply inv_set_pc; try done.
  cbn. rewrite !Z.add_0_r. split_and!; [done|done|]. by case_match.
Qed.

(** The loop at the top of a boot round. *)
Lemma inv_reboot n b arr dep r cur i pc :
  sync_inv n b arr dep r cur → b_vcpus b !! i = Some pc → pc = PcReboot ∨ pc = PcWait WaitStart true →
  sync_inv n (reboot_loop coco i b) (bump arr i 0) (bump dep i 0) r cur.
Proof.
  intros Hinv Ei Hpc. assert (waiting pc = false) as Hw by (by destruct Hpc as [-> | ->]).
  assert (arr i = r ∧ dep i = r ∧ cur = first_barrier coco) as (Ha & Hp & Hcur).
  { pose proof (si_vcpu _ _ _ _ _ _ Hinv _ _ Ei) as Hv. by destruct Hpc as [-> | ->]. }
  assert (cur ≠ ResetDone ∧ used cur) as [Hne Hu] by (subst cur; unfold used, first_barrier; by destruct coco).
  unfold reboot_loop. destruct (mp_state (b_mp b)) eqn:Est; cbn [finish].
  4: assert (sync_inv n (set_state Running b) arr dep r cur) as Hinv' by (eapply inv_set_state; [done|congruence..|done]);
     clear Hinv; rename Hinv' into Hinv.
  all: eapply inv_set_pc; try done; cbn; rewrite ?Est; subst cur; split_and?; done || lia.
Qed.

(** The loop at the end of a round of the guest. *)
Lemma inv_pause_loop n b arr dep r cur i pc req :
  sync_inv n b arr dep r cur → b_vcpus b !! i = Some pc →
  pc = PcExited req ∨ pc = PcWait (WaitPause req) true →
  sync_inv n (pause_loop req i b) (bump arr i 0) (bump dep i 0) r cur.
Proof.
  intros Hinv Ei Hpc. assert (waiting pc = false) as Hw by (by destruct Hpc as [-> | ->]).
  assert (arr i = r ∧ dep i = r ∧ cur = ResetDone ∧ req_ok req) as (Ha & Hp & Hcur & Hr).
  { pose proof (si_vcpu _ _ _ _ _ _ Hinv _ _ Ei) as Hv. by destruct Hpc as [-> | ->]. }
  unfold pause_loop. destruct (mp_state (b_mp b)) eqn:Est;
    (eapply inv_set_pc; try done; cbn; rewrite ?Est; split_and?; done || lia).
Qed.

(** A thread that returns an error of another module. *)
Lemma inv_error n b arr dep r cur i pc e :
  sync_inv n b arr dep r cur → b_vcpus b !! i = Some pc → waiting pc = false → e ≠ PeerFailure →
  r ≤ arr i → dep i ≤ r →
  sync_inv n (set_pc i (finish (inl e)) b) (bump arr i 0) (bump dep i 0) r cur.
Proof.
  intros Hinv Ei Hw He Ha Hp. assert (finish (inl e) = PcFailed e) as -> by (by destruct e).
  eapply inv_set_pc; try done. cbn. lia.
Qed.

(** Leaving a barrier after the wake-up. *)
Lemma inv_leave n b arr dep r cur i bar pc' :
  sync_inv n b arr dep r cur → b_vcpus b !! i = Some (PcWait (WaitBarrier bar) true) →
  b_vcpus (sync_leave bar i b) !! i = Some pc' →
  sync_inv n (sync_leave bar i b) (bump arr i 0)
    (bump dep i (departure (PcWait (WaitBarrier bar) true) pc')) r cur.
Proof.
  intros Hinv Ei Ei'. pose proof (lookup_lt_Some _ _ _ Ei) as Hi.
  pose proof (si_vcpu _ _ _ _ _ _ Hinv _ _ Ei) as Hv. pose proof (si_stop _ _ _ _ _ _ Hinv) as Hst. cbn in Hv.
  unfold sync_leave in *. destruct (mp_fatal (b_mp b)) eqn:Eff; cbn in Ei';
    rewrite list_lookup_insert_eq in Ei' by done; injection Ei' as <-.
  - eapply inv_set_pc; try done. cbn. rewrite Eff. split_and!; [destruct Hv; lia..|done].
  - destruct Hv as [(Ha & Hp & Hcur & Hu)|[? _]]; [|done].
    assert (departure (PcWait (WaitBarrier bar) true) (after_barrier bar) = 1) as -> by (by destruct bar).
    eapply inv_set_pc; try done; [by destruct bar|..].
    + destruct bar; cbn in *; split_and?; done || lia.
    + intros _. by destruct bar.
    + intros Hs Hb. destruct (Hst Hs) as [?|[Hf _]]; [done|]. exfalso.
      rewrite Hf in Hcur. unfold first_barrier in Hcur. destruct bar; cbn in *; try done; by rewrite Hu in Hcur.
Qed.

Lemma inv_step n b arr dep r cur i ext pc b' pc' :
  0 < Z.of_nat n < 2 ^ 16 → sync_inv n b arr dep r cur → ext ≠ inl PeerFailure →
  vcpu_step coco i ext b = Some b' → b_vcpus b !! i = Some pc → b_vcpus b' !! i = Some pc' →
  ∃ r' cur', sync_inv n b' (bump arr i (arrival pc pc')) (bump dep i (departure pc pc')) r' cur'.
Proof.
  intros Hn Hinv Hx E Ei Ei'. unfold vcpu_step in E. rewrite Ei in E.
  pose proof (si_vcpu _ _ _ _ _ _ Hinv _ _ Ei) as Hv. pose proof (lookup_lt_Some _ _ _ Ei) as Hi.
  assert (∀ e, ext = inl e → e ≠ PeerFailure) as Hxe by naive_solver.
  assert (∀ e, finish (inl e) = pc' → arrival pc pc' = 0 ∧ departure pc pc' = 0) as Hfin.
  { intros e <-. destruct e, pc as [| | | | | |[] []| |]; done. }
  destruct pc as [| |bar| |req|req|w []|e|ret]; cbn in Hv; simplify_eq.
  - exists r, cur. destruct ext; [by eapply inv_error; eauto; lia|].
    destruct Hv as (?&?&?). eapply inv_set_pc; try done; cbn; split_and?; done || lia.
  - exists r, cur. by eapply inv_reboot; [| |left].
  - destruct ext as [e|]; [|eapply inv_enter; try done; by left].
    exists r, cur. cbn in Ei'. rewrite list_lookup_insert_eq in Ei' by done. injection Ei' as E'.
    destruct (Hfin e E') as [-> ->]. eapply inv_error; eauto; lia.
  - exists r, cur. destruct Hv as (?&?&?). destruct ext as [e|[]]; simplify_eq; eapply inv_set_pc; try done; cbn; split_and?; done || lia.
  - exists r, cur. case_decide as Hrun; [|by eapply inv_pause_loop; [| |left]].
    assert (∀ st, sync_inv n (set_state st b) arr dep r cur) as Hs.
    { intros st. eapply inv_set_state; [done|congruence..|by intros _; apply Hv]. }
    destruct ext; [eapply inv_error; eauto; lia|by eapply inv_pause_loop; [| |left]].
  - destruct ext as [e|], req as [e'|]; [..|eapply inv_enter; try done; right; eauto];
      exists r, cur; cbn in Ei'; rewrite list_lookup_insert_eq in Ei' by done; injection Ei' as E';
      destruct (Hfin _ E') as [-> ->]; (eapply inv_error; [done|done|done|naive_solver|lia|lia]).
  - exists r, cur. destruct w as [|req|bar].
    + by eapply inv_reboot; [| |right].
    + by eapply inv_pause_loop; [| |right].
    + by apply inv_leave.
  - exists r, cur. exact (inv_fail _ _ _ _ _ _ _ _ Hinv Ei).
Qed.

Lemma run_inv n b arr dep :
  0 < Z.of_nat n < 2 ^ 16 → counted_run n b arr dep → ∃ r cur, sync_inv n b arr dep r cur.
Proof.
  intros Hn. induction 1 as [|b arr dep i ext pc b' pc' _ (r & cur & IH) Hx E Ei Ei'
                             |b arr dep _ (r & cur & IH) H0|b arr dep ext _ (r & cur & IH)].
  - exists 0, (first_barrier coco).
    assert (∀ k, nwait (replicate k PcCreate) = 0) as H0 by (intros k; induction k; cbn; [done|by rewrite IHk]).
    split; cbn; rewrite ?length_replicate, ?H0; try done; [lia|].
    intros i pc [-> _]%lookup_replicate. done.
  - by eapply inv_step.
  - exists r, cur. by apply inv_resume.
  - exists r, cur. unfold pause. case_decide as Hr; [|done]. eapply inv_set_state; congruence || done.
Qed.

(** ** The barrier *)

(** When the owner resumes the board only while no vCPU stands at a barrier, no vCPU leaves
    its [k]-th barrier before every vCPU has arrived at its own [k]-th, in every interleaving,
    with pauses, reboots and failures of vCPUs. *)
Theorem board_barrier n b arr dep i j :
  0 < Z.of_nat n < 2 ^ 16 → counted_run n b arr dep → (i < n)%nat → (j < n)%nat → dep i ≤ arr j.
Proof.
  intros Hn Hr Hi Hj. destruct (run_inv _ _ _ _ Hn Hr) as (r & cur & [Hl _ _ _ _ _ Hv]).
  assert (∀ k, (k < n)%nat → r ≤ arr k ∧ dep k ≤ r) as Hk.
  { intros k Hk. destruct (lookup_lt_is_Some_2 (b_vcpus b) k) as [pc E]; [lia|].
    specialize (Hv k pc E). destruct pc as [| | | | | |[] []| |]; cbn in Hv; lia. }
  destruct (Hk i Hi), (Hk j Hj). lia.
Qed.

(** ** No deadlock *)

Definition is_done (pc : VcpuPc) : bool := match pc with PcDone _ => true | _ => false end.

(** Only an idle, waiting or finished thread cannot move. *)
Lemma moves b i pc :
  b_vcpus b !! i = Some pc → idle pc = false → waiting pc = false → is_done pc = false →
  ∃ ext b', ext ≠ inl PeerFailure ∧ vcpu_step coco i ext b = Some b'.
Proof.
  intros Ei Hid Hw Hd. exists (inr Shutdown). unfold vcpu_step. rewrite Ei.
  destruct pc as [| | | | | |[] []| |]; try done; eexists; done.
Qed.

(** Not everyone can wait. *)
Lemma some_not_waiting l : nwait l < Z.of_nat (length l) → ∃ i pc, l !! i = Some pc ∧ waiting pc = false.
Proof.
  induction l as [|pc l IH]; cbn; [lia|]. intros H. destruct (waiting pc) eqn:Hw.
  - destruct IH as (i & pc' & E & Hw'); [unfold wait_one in H; rewrite Hw in H; lia|]. by exists (S i), pc'.
  - by exists 0%nat, pc.
Qed.

(** The vCPU threads do not deadlock: in such a run, unless the board is paused, as long as
    some vCPU has not ended some vCPU can take a step. *)
Theorem board_no_deadlock n b arr dep i pc :
  0 < Z.of_nat n < 2 ^ 16 → counted_run n b arr dep → mp_state (b_mp b) ≠ Paused →
  b_vcpus b !! i = Some pc → is_done pc = false →
  ∃ j ext b', ext ≠ inl PeerFailure ∧ vcpu_step coco j ext b = Some b'.
Proof.
  intros Hn Hr Hp Ei Hd. destruct (run_inv _ _ _ _ Hn Hr) as (r & cur & Hinv).
  pose proof Hinv as [Hl Hc Hls Hf Hid Hst Hv].
  destruct (waiting pc) eqn:Hw; [|exists i; eapply moves; eauto].
  destruct (some_not_waiting (b_vcpus b)) as (j & pj & Ej & Hwj); [lia|].
  destruct (is_done pj) eqn:Hdj; [|exists j; eapply moves; eauto]. exfalso.
  assert (mp_fatal (b_mp b) = false) as Hff.
  { destruct (mp_fatal (b_mp b)) eqn:E; [|done]. pose proof (nwait_zero _ _ _ (Hf eq_refl) Ei). congruence. }
  pose proof (Hv _ _ Ei) as Hvi. pose proof (Hv _ _ Ej) as Hvj.
  destruct pj; try done. destruct Hvj as (_ & _ & Hsh). destruct (Hsh Hff) as [Es Ec].
  destruct (Hst ltac:(by rewrite Es)) as [Hr'|[_ Hnb]].
  - rewrite Hr' in Ec. unfold first_barrier in Ec. by destruct coco.
  - specialize (Hnb _ _ Ei). by destruct pc as [| | | | | |[] []| |].
Qed.
End Sync.

(** ** Runs that evaluate *)

Definition no_waiter (b : Board) : bool := nwait (b_vcpus b) =? 0.

(** The events of a run, refusing a [resume] at a barrier. *)
Fixpoint guarded_run (coco : bool) (es : list event) (b : Board) (arr dep : nat → Z)
  : option (Board * (nat → Z) * (nat → Z)) :=
  match es with
  | [] => Some (b, arr, dep)
  | e :: es' =>
      b' ← event_step coco e b;
      match e with
      | EvVcpu i _ =>
          pc ← b_vcpus b !! i; pc' ← b_vcpus b' !! i;
          guarded_run coco es' b' (bump arr i (arrival pc pc')) (bump dep i (departure pc pc'))
      | EvResume => if no_waiter b then guarded_run coco es' b' arr dep else None
      | EvPause _ => guarded_run coco es' b' arr dep
      end
  end.

Lemma guarded_counted coco n es b arr dep r :
  Forall event_ok es → counted_run coco n b arr dep → guarded_run coco es b arr dep = Some r →
  counted_run coco n r.1.1 r.1.2 r.2.
Proof.
  intros Hok. revert b arr dep. induction Hok as [|e es He _ IH]; intros b arr dep Hr E; cbn in E; [by simplify_eq|].
  apply bind_Some in E as (b' & E1 & E). destruct e as [i ext| |ext]; cbn in E1.
  - apply bind_Some in E as (pc & Ei & E). apply bind_Some in E as (pc' & Ei' & E).
    eapply IH; [|exact E]. by eapply run_vcpu.
  - simplify_eq. unfold no_waiter in E. destruct (Z.eqb_spec (nwait (b_vcpus b)) 0); [|done].
    eapply IH; [|exact E]. by apply run_resume.
  - simplify_eq. eapply IH; [|exact E]. by apply run_pause.
Qed.

(** Two vCPUs boot; the second waits at the barrier. *)
Definition booting_run : list event :=
  [EvVcpu 0 (inr Running); EvVcpu 1 (inr Running); EvResume; EvVcpu 0 (inr Running); EvVcpu 1 (inr Running);
   EvVcpu 1 (inr Running)].

Lemma booting_counted :
  ∃ r, guarded_run false booting_run (Board_new 2) (λ _, 0) (λ _, 0) = Some r ∧
    counted_run false 2 r.1.1 r.1.2 r.2 ∧ b_vcpus r.1.1 = [PcBoot BootDone; PcWait (WaitBarrier BootDone) false] ∧
    mp_state (b_mp r.1.1) = Running ∧ r.1.2 1%nat = 1.
Proof.
  destruct (guarded_run false booting_run (Board_new 2) (λ _, 0) (λ _, 0)) as [r|] eqn:E; [|by vm_compute in E].
  exists r. split; [done|]. split.
  - eapply guarded_counted; [|apply run_new|exact E]. repeat constructor; discriminate.
  - vm_compute in E. by injection E as <-.
Qed.

Lemma board_barrier_witness :
  ∃ r, guarded_run false booting_run (Board_new 2) (λ _, 0) (λ _, 0) = Some r ∧ r.2 1%nat ≤ r.1.2 0%nat.
Proof.
  destruct booting_counted as (r & E & Hr & _). exists r. split; [exact E|].
  apply (board_barrier false 2 r.1.1 r.1.2 r.2 1 0); [lia|exact Hr|lia|lia].
Defined.

Lemma board_no_deadlock_witness :
  ∃ r j ext b', guarded_run false booting_run (Board_new 2) (λ _, 0) (λ _, 0) = Some r ∧
    vcpu_step false j ext r.1.1 = Some b'.
Proof.
  destruct booting_counted as (r & E & Hr & Hv & Hs & _).
  destruct (board_no_deadlock false 2 r.1.1 r.1.2 r.2 1 (PcWait (WaitBarrier BootDone) false))
    as (j & ext & b' & _ & E'); [lia|exact Hr|by rewrite Hs|by rewrite Hv|done|].
  by exists r, j, ext, b'.
Defined.

(** ** A resume during the barrier *)

(** [resume] and the barrier share the condition variable, and [sync_vcpus] waits on it once: a
    pause and a resume release the second vCPU, which enters the guest while the first still
    loads the payload. *)
Lemma resume_breaks_barrier :
  ∃ b, run_events false (booting_run ++ [EvPause (inr tt); EvResume; EvVcpu 1 (inr Running)]) (Board_new 2) = Some b ∧
    b_vcpus b = [PcBoot BootDone; PcGuest] ∧ mp_fatal (b_mp b) = false.
Proof. eexists. split; [vm_compute; reflexivity|]. done. Qed.
