(* ===== verification/Qcow2.v ===== *)
(** * qcow2 images: blk/qcow2.rs and the converter of alioth-cli/src/img.rs

    The header and the two levels of tables, and the conversion to a raw image.  The input is
    the bytes of a file; the output file and the cluster buffer are the state, kept when the
    conversion fails half-way.  Inflating (miniz_oxide) is an argument. *)

From S2P Require Import Prelude Utils HostFile.

(** ** blk/qcow2.rs *)

(** [to_ne] of a [Bu32] or [Bu64] field at [off]. *)
Definition be_at (bs : list Z) (off n : nat) : Z := ed_to_ne Big n (ed_from_bytes (take n (drop off bs))).

Record Qcow2Hdr := mkHdr {
  magic : list Z; version : Z; backing_file_offset : Z; backing_file_size : Z; cluster_bits : Z;
  hdr_size : Z; crypt_method : Z; l1_size : Z; l1_table_offset : Z; refcount_table_offset : Z;
  refcount_table_clusters : Z; nb_snapshots : Z; snapshots_offset : Z; incompatible_features : Z;
  compatible_features : Z; autoclear_features : Z; refcount_order : Z; header_length : Z;
  compression_type : Z
}.
Definition Qcow2Hdr_SIZE : Z := 112.

Definition Qcow2Hdr_from_bytes (bs : list Z) : Qcow2Hdr :=
  mkHdr (take 4 bs) (be_at bs 4 4) (be_at bs 8 8) (be_at bs 16 4) (be_at bs 20 4)
    (be_at bs 24 8) (be_at bs 32 4) (be_at bs 36 4) (be_at bs 40 8) (be_at bs 48 8)
    (be_at bs 56 4) (be_at bs 60 4) (be_at bs 64 8) (be_at bs 72 8)
    (be_at bs 80 8) (be_at bs 88 8) (be_at bs 96 4) (be_at bs 100 4)
    (nth 104 bs 0).

Definition QCOW2_MAGIC : list Z := [0x51; 0x46; 0x49; 0xfb].

(** [Qcow2L1]. *)
Definition l1_offset (e : Z) : Z := bits_get e 55 9.
Definition l2_offset (e : Z) : Z := Z.land e 0xffffffffffff00.

(** [Qcow2L2] and [Qcow2StdDesc]. *)
Definition l2_desc (e : Z) : Z := bits_get e 61 0.
Definition l2_compressed (e : Z) : bool := bit_get e 62.
Definition l2_rc1 (e : Z) : bool := bit_get e 63.
Definition std_offset (d : Z) : Z := bits_get d 55 9.
Definition std_zero (d : Z) : bool := bit_get d 0.
Definition cluster_offset (d : Z) : Z := Z.land d 0xffffffffffff00.

Definition QCOW2_CMPR_SECTOR_SIZE : Z := 512.

(** [1 << n] and [x >> n] on [u64]: the shift count is taken modulo 64. *)
Definition one_shl (n : Z) : Z := u64 (Z.shiftl 1 (n mod 64)).
Definition u64_shr (x n : Z) : Z := Z.shiftr x (n mod 64).
Definition u64_shl (x n : Z) : Z := u64 (Z.shiftl x (n mod 64)).

(** [Qcow2CmprDesc::offset_size]. *)
Definition offset_size (d cluster_bits : Z) : Z * Z :=
  let size_bits := u32 (cluster_bits - 8) in
  let offset_bits := u32 (62 - size_bits) in
  let offset := Z.land d (one_shl offset_bits - 1) in
  let sectors := Z.land (u64_shr d offset_bits) (one_shl size_bits - 1) in
  let size := u64 (u64 (u64 (1 + sectors) * QCOW2_CMPR_SECTOR_SIZE)
                   - Z.land offset (QCOW2_CMPR_SECTOR_SIZE - 1)) in
  (offset, size).

(** ** alioth-cli/src/img.rs *)

Inductive ImageFormat := Qcow2 | Raw.
#[export] Instance ImageFormat_eq_dec : EqDecision ImageFormat.
Proof. solve_decision. Defined.

Inductive img_error (St : Type) :=
| System | ParseArg | Conversion (from to : ImageFormat) | MissingMagic (found : list Z)
| Features (features : Z) | DecompressionFailed (status : St).
Arguments System {St}.
Arguments ParseArg {St}.
Arguments Conversion {St} from to.
Arguments MissingMagic {St} found.
Arguments Features {St} features.
Arguments DecompressionFailed {St} status.

(** The cluster buffer [data] and the output file. *)
Record conv := mkConv { cv_data : list Z; cv_out : file }.

(** [iter().enumerate()]. *)
Fixpoint enumerate_from {A} (k : Z) (l : list A) : list (Z * A) :=
  match l with [] => [] | x :: l' => (k, x) :: enumerate_from (k + 1) l' end.

(** [count] big-endian [u64]s. *)
Fixpoint be64s (count : nat) (bs : list Z) : list Z :=
  match count with O => [] | S c => be_at bs 0 8 :: be64s c (drop 8 bs) end.

Section Convert.
Variable file_max : Z.
(** miniz_oxide's [TINFLStatus] other than [Done], and [decompress] with a new decompressor
    on a buffer: the buffer afterwards when it returns [Done]. *)
Variable St : Type.
Variable inflate : list Z → list Z → St + list Z.
Abbreviation M := (stm conv (img_error St)).
Local Open Scope stm_scope.

(** [f.read_exact_at(buf, offset)?] with a buffer of [len] bytes. *)
Definition read_buf (f : file) (offset len : Z) : M (list Z) :=
  slift (match read_exact_at f offset len with Some bs => Ok bs | None => Err System end).
Definition set_data (d : list Z) : M unit := smodify (λ s, mkConv d (cv_out s)).
Definition write_out (offset : Z) : M unit := λ s,
  let '(out, ok) := write_all_at file_max (cv_out s) offset (cv_data s) in
  (mkConv (cv_data s) out, if ok then Ok tt else Err System).

(** One entry of an L2 table. *)
Definition convert_entry (f : file) (cluster_bits l2_size l1_index : Z) (entry : Z * Z) : M unit :=
  let '(l2_index, l2_entry) := entry in
  let write := write_out (u64_shl (u64 (u64 (l1_index * l2_size) + l2_index)) cluster_bits) in
  if l2_compressed l2_entry then
    let '(offset, size) := offset_size (l2_desc l2_entry) cluster_bits in
    buf <- read_buf f offset size ;;
    s <- sget ;;
    match inflate buf (cv_data s) with
    | inl status => sfail (DecompressionFailed status)
    | inr data => set_data data ;;; write
    end
  else
    let d := l2_desc l2_entry in
    if std_zero d then sret tt
    else if negb (l2_rc1 l2_entry) && (std_offset d =? 0) then sret tt
    else
      s <- sget ;;
      data <- read_buf f (cluster_offset d) (Z.of_nat (length (cv_data s))) ;;
      set_data data ;;; write.

(** One entry of the L1 table. *)
Definition convert_table (f : file) (cluster_bits l2_size : Z) (entry : Z * Z) : M unit :=
  let '(l1_index, l1_entry) := entry in
  let off := l2_offset l1_entry in
  if off =? 0 then sret tt
  else
    bs <- read_buf f off (8 * l2_size) ;;
    sfor (enumerate_from 0 (be64s (Z.to_nat l2_size) bs)) (convert_entry f cluster_bits l2_size l1_index).

Definition convert_qcow2_to_raw (f : file) : M unit :=
  bs <- read_buf f 0 Qcow2Hdr_SIZE ;;
  let hdr := Qcow2Hdr_from_bytes bs in
  if negb (bool_decide (magic hdr = QCOW2_MAGIC)) then sfail (MissingMagic (magic hdr))
  else if (2 <? version hdr) && negb (incompatible_features hdr =? 0) then
    sfail (Features (incompatible_features hdr))
  else
    let cluster_size := one_shl (cluster_bits hdr) in
    let l2_size := cluster_size / 8 in
    tbl <- read_buf f (l1_table_offset hdr) (8 * l1_size hdr) ;;
    (* File::create, set_len, the buffer *)
    smodify (λ s, mkConv (cv_data s) []) ;;;
    s <- sget ;;
    match set_len file_max (cv_out s) (hdr_size hdr) with
    | None => sfail System
    | Some out =>
        smodify (λ _, mkConv (replicate (Z.to_nat cluster_size) 0) out) ;;;
        sfor (enumerate_from 0 (be64s (Z.to_nat (l1_size hdr)) tbl)) (convert_table f (cluster_bits hdr) l2_size)
    end.

(** [convert], with the two formats as serde_aco parses them. *)
Definition convert (from to : option ImageFormat) (f : file) : M unit :=
  match from with
  | None => sfail ParseArg
  | Some from =>
      match to with
      | None => sfail ParseArg
      | Some to =>
          if bool_decide (from = Qcow2) && bool_decide (to = Raw) then convert_qcow2_to_raw f
          else sfail (Conversion from to)
      end
  end.
End Convert.

(** ** Converting a qcow2 image gives the disk the guest sees

    The reference reads one guest cluster at a time through the two levels of tables, as the
    qcow2 specification describes; the converter walks the tables with one reused buffer. *)

Section Reference.
Context {St : Type} (inflate : list Z → list Z → St + list Z).
Variables (f : file) (hdr : Qcow2Hdr).
Implicit Types c : Z.

Definition csize : Z := 2 ^ cluster_bits hdr.
Definition l2_entries : Z := csize / 8.
Definition zeros : list Z := replicate (Z.to_nat csize) 0.

(** The table entry at index [i] of the table at [off]. *)
Definition table_entry (off i : Z) : option Z :=
  (λ bs, le_val (reverse bs)) <$> read_exact_at f (off + 8 * i) 8.

(** The compressed bytes an L2 entry describes. *)
Definition cmpr_bytes (e : Z) : option (list Z) :=
  let x := 62 - (cluster_bits hdr - 8) in
  let host := e mod 2 ^ x in
  let sectors := e / 2 ^ x mod 2 ^ (cluster_bits hdr - 8) in
  read_exact_at f host ((sectors + 1) * 512 - host mod 512).

(** The host offset in bits 9 to 55 of an entry. *)
Definition host_offset (e : Z) : Z := e / 2 ^ 9 mod 2 ^ 47 * 2 ^ 9.

(** Contents of a cluster from its L2 entry; [Some None]: it reads as zeros. *)
Definition entry_cluster (e : Z) : option (option (list Z)) :=
  if Z.testbit e 62 then
    bs ← cmpr_bytes e; match inflate bs zeros with inr d => Some (Some d) | inl _ => None end
  else if Z.testbit e 0 then Some None
  else if (host_offset e =? 0) && negb (Z.testbit e 63) then Some None
  else Some <$> read_exact_at f (host_offset e) csize.

(** The L2 entry of guest cluster [c]; [Some None]: there is no L2 table. *)
Definition guest_entry c : option (option Z) :=
  e1 ← table_entry (l1_table_offset hdr) (c / l2_entries);
  if host_offset e1 =? 0 then Some None else Some <$> table_entry (host_offset e1) (c mod l2_entries).

Definition guest_cluster c : option (option (list Z)) :=
  e ← guest_entry c; match e with None => Some None | Some e2 => entry_cluster e2 end.

(** The byte the guest reads at [o]. *)
Definition guest_byte (o : Z) : Z :=
  if o <? l1_size hdr * l2_entries * csize then
    match guest_cluster (o / csize) with
    | Some (Some d) => nth (Z.to_nat (o mod csize)) d 0
    | _ => 0
    end
  else 0.

(** An image the specification allows, complete and within the host's limits. *)
Record image_ok (file_max : Z) : Prop := {
  io_header : ∃ bs, read_exact_at f 0 Qcow2Hdr_SIZE = Some bs ∧ hdr = Qcow2Hdr_from_bytes bs;
  io_magic : magic hdr = QCOW2_MAGIC;
  io_features : version hdr ≤ 2 ∨ incompatible_features hdr = 0;
  io_bits : 9 ≤ cluster_bits hdr ≤ 21;
  io_l1 : 0 < l1_size hdr;
  io_max : hdr_size hdr ≤ file_max ∧ l1_size hdr * l2_entries * csize ≤ file_max < 2 ^ 63;
  io_bytes : Forall (in_u 8) f;
  (* reserved bits *)
  io_reserved1 : ∀ i e, 0 ≤ i < l1_size hdr →
    table_entry (l1_table_offset hdr) i = Some e → Z.testbit e 8 = false;
  io_reserved2 : ∀ c e, 0 ≤ c < l1_size hdr * l2_entries → guest_entry c = Some (Some e) →
    Z.testbit e 62 = false → Z.testbit e 8 = false;
  (* every cluster can be read *)
  io_clusters : ∀ c, 0 ≤ c < l1_size hdr * l2_entries → is_Some (guest_cluster c);
  (* a compressed cluster holds a whole cluster *)
  io_inflate : ∀ c e bs d buf, 0 ≤ c < l1_size hdr * l2_entries → guest_entry c = Some (Some e) →
    Z.testbit e 62 = true → cmpr_bytes e = Some bs → inflate bs zeros = inr d →
    length buf = length zeros → inflate bs buf = inr d ∧ length d = length zeros
}.
End Reference.

(** ** Fields of the entries *)

Lemma bits_get_div z msb lsb : 0 ≤ lsb ≤ msb → bits_get z msb lsb = z / 2 ^ lsb mod 2 ^ (msb - lsb + 1).
Proof. intros. unfold bits_get. rewrite Z.land_ones, Z.shiftr_div_pow2 by lia. done. Qed.

Lemma offset_mask e :
  Z.testbit e 8 = false → Z.land e 0xffffffffffff00 = host_offset e.
Proof.
  intros H8. unfold host_offset. rewrite <- Z.shiftr_div_pow2, <- Z.land_ones, <- Z.shiftl_mul_pow2 by lia.
  change 0xffffffffffff00 with (Z.shiftl (Z.ones 48) 8). apply Z.bits_inj'. intros i Hi.
  destruct (decide (i = 8)) as [->|]; [rewrite Z.land_spec, H8, (Z.shiftl_spec_low _ 9) by lia; done|].
  repeat (progress (autorewrite with zbits; decide_bits; simpl_bools)); norm_bit_index; done || lia.
Qed.

Lemma desc_host e : in_u 64 e → host_offset (l2_desc e) = host_offset e ∧ std_offset (l2_desc e) * 2 ^ 9 = host_offset e.
Proof.
  intros He. unfold host_offset, std_offset, l2_desc, bits_get.
  rewrite <- !Z.shiftr_div_pow2, <- !Z.land_ones, <- !Z.shiftl_mul_pow2 by lia. split; bitblast.
Qed.

Lemma desc_testbit e i : 0 ≤ i < 62 → Z.testbit (l2_desc e) i = Z.testbit e i.
Proof.
  intros. unfold l2_desc, bits_get. rewrite Z.land_spec, Z.shiftr_spec, ones_testbit, Z.add_0_r by lia.
  rewrite bool_decide_eq_true_2 by lia. apply andb_true_r.
Qed.

Lemma one_shl_ones n : 0 ≤ n < 64 → one_shl n - 1 = Z.ones n.
Proof.
  intros. unfold one_shl. rewrite (Z.mod_small n 64), wrap_small by (unfold in_u; rewrite ?Z.shiftl_1_l; pose proof (Z.pow_lt_mono_r 2 n 64); lia).
  apply ones_pred. lia.
Qed.

Lemma offset_size_spec e cb :
  9 ≤ cb ≤ 21 → in_u 64 e →
  let x := 62 - (cb - 8) in
  let host := e mod 2 ^ x in
  offset_size (l2_desc e) cb = (host, (e / 2 ^ x mod 2 ^ (cb - 8) + 1) * 512 - host mod 512).
Proof.
  intros Hb He x host. unfold offset_size. cbv zeta.
  rewrite (wrap_small 32 (cb - 8)), (wrap_small 32 (62 - (cb - 8))) by (unfold in_u; lia). fold x.
  rewrite !one_shl_ones by lia. unfold u64_shr. rewrite (Z.mod_small x 64) by lia.
  assert (Z.land (l2_desc e) (Z.ones x) = host) as ->.
  { unfold host. rewrite <- Z.land_ones by lia. unfold l2_desc, bits_get. bitblast. }
  assert (Z.land (Z.shiftr (l2_desc e) x) (Z.ones (cb - 8)) = e / 2 ^ x mod 2 ^ (cb - 8)) as ->.
  { rewrite <- Z.shiftr_div_pow2, <- Z.land_ones by lia. unfold l2_desc, bits_get. bitblast. }
  change (QCOW2_CMPR_SECTOR_SIZE - 1) with (Z.ones 9). rewrite Z.land_ones by lia. change (2 ^ 9) with 512.
  unfold QCOW2_CMPR_SECTOR_SIZE. f_equal.
  pose proof (Z.mod_pos_bound (e / 2 ^ x) (2 ^ (cb - 8)) ltac:(lia)).
  pose proof (Z.pow_le_mono_r 2 (cb - 8) 13 ltac:(lia) ltac:(lia)).
  pose proof (Z.mod_pos_bound host 512 ltac:(lia)).
  set (q := e / 2 ^ x mod 2 ^ (cb - 8)) in *.
  rewrite (wrap_small 64 (1 + q)) by (unfold in_u; lia). rewrite (wrap_small 64 ((1 + q) * 512)) by (unfold in_u; lia).
  rewrite wrap_small by (unfold in_u; lia). lia.
Qed.

(** ** Tables *)

Lemma be_at_bytes bs off n :
  Forall (in_u 8) bs → (off + n ≤ length bs)%nat → be_at bs off n = le_val (reverse (take n (drop off bs))).
Proof.
  intros Hb Hl. unfold be_at, ed_from_bytes. cbn [ed_to_ne]. unfold swap_bytes. do 2 f_equal.
  assert (length (take n (drop off bs)) = n) as Hn by (rewrite length_take, length_drop; lia).
  rewrite <- Hn at 1. apply le_bytes_val. by apply Forall_take, Forall_drop.
Qed.

Lemma be64s_length n bs : length (be64s n bs) = n.
Proof. revert bs. induction n; intros; cbn; auto. Qed.

Lemma be64s_lookup n bs j :
  Forall (in_u 8) bs → length bs = (8 * n)%nat → (j < n)%nat →
  be64s n bs !! j = Some (le_val (reverse (take 8 (drop (8 * j) bs)))).
Proof.
  revert bs j. induction n as [|n IH]; intros bs j Hb Hl Hj; [lia|]. destruct j as [|j]; cbn [be64s lookup list_lookup].
  - f_equal. apply be_at_bytes; [done|lia].
  - rewrite IH; [|by apply Forall_drop|rewrite length_drop; lia|lia]. rewrite drop_drop. do 5 f_equal. lia.
Qed.

Section Tables.
Variable f : file.
Hypothesis f_bytes : Forall (in_u 8) f.

Lemma read_bytes off len bs : read_exact_at f off len = Some bs → Forall (in_u 8) bs.
Proof.
  unfold read_exact_at. repeat case_match; intros [= <-]; [constructor|]. by apply Forall_take, Forall_drop.
Qed.

Lemma table_lookup off n bs j :
  0 ≤ off → read_exact_at f off (8 * Z.of_nat n) = Some bs → (j < n)%nat →
  ∃ e, be64s n bs !! j = Some e ∧ table_entry f off (Z.of_nat j) = Some e ∧ in_u 64 e.
Proof.
  intros Ho Hr Hj. pose proof (read_bytes _ _ _ Hr) as Hb.
  pose proof (read_exact_length f off (8 * Z.of_nat n) bs Ho ltac:(lia) Hr) as Hl.
  eexists. split; [apply be64s_lookup; [done|lia|done]|]. split.
  - unfold table_entry. unfold read_exact_at in *. destruct (Z.eqb_spec (8 * Z.of_nat n) 0); [lia|].
    destruct (Z.leb_spec (off + 8 * Z.of_nat n) (Z.of_nat (length f))); [|done]. injection Hr as <-.
    change (8 =? 0) with false. rewrite (proj2 (Z.leb_le _ _)) by lia. cbn [fmap option_fmap option_map].
    rewrite skipn_firstn_comm, take_take, drop_drop.
    replace (8 `min` (Z.to_nat (8 * Z.of_nat n) - 8 * j))%nat with (Z.to_nat 8) by lia.
    by replace (Z.to_nat off + 8 * j)%nat with (Z.to_nat (off + 8 * Z.of_nat j)) by lia.
  - assert (length (reverse (take 8 (drop (8 * j) bs))) = 8%nat) as Hl8
      by (rewrite length_reverse, length_take, length_drop; lia).
    pose proof (le_val_in_u (reverse (take 8 (drop (8 * j) bs)))) as Hu. rewrite Hl8 in Hu. apply Hu.
    by apply Forall_reverse, Forall_take, Forall_drop.
Qed.

(** The last entry can be read, so can the table. *)
Lemma table_readable off n :
  0 ≤ off → (0 < n)%nat → is_Some (table_entry f off (Z.of_nat n - 1)) →
  is_Some (read_exact_at f off (8 * Z.of_nat n)).
Proof.
  intros Ho Hn [e He]. unfold table_entry, read_exact_at in *. change (8 =? 0) with false in He.
  rewrite (proj2 (Z.eqb_neq _ _)) by lia.
  destruct (Z.leb_spec (off + 8 * (Z.of_nat n - 1) + 8) (Z.of_nat (length f))); [|done].
  rewrite (proj2 (Z.leb_le _ _)) by lia. done.
Qed.
End Tables.

Lemma host_offset_nonneg e : 0 ≤ host_offset e.
Proof. unfold host_offset. pose proof (Z.mod_pos_bound (e / 2 ^ 9) (2 ^ 47)). lia. Qed.

(** ** The loops *)

(** A loop whose steps succeed and act on the output as [g]. *)
Lemma enumerate_fold {St} (g : file → Z → file) (P : conv → Prop) base l k
    (body : Z * Z → stm conv (img_error St) unit) s :
  P s →
  (∀ j e s, l !! j = Some e → P s →
     ∃ s', body (k + Z.of_nat j, e) s = (s', Ok tt) ∧ P s' ∧ cv_out s' = g (cv_out s) (base + (k + Z.of_nat j))) →
  ∃ s', sfor (enumerate_from k l) body s = (s', Ok tt) ∧ P s' ∧
    cv_out s' = foldl g (cv_out s) (seqZ (base + k) (Z.of_nat (length l))).
Proof.
  revert k s. induction l as [|e l IH]; intros k s Hs Hb; [by exists s|].
  destruct (Hb 0%nat e s eq_refl Hs) as (s1 & E1 & H1 & O1). rewrite Z.add_0_r in *.
  destruct (IH (k + 1) s1 H1) as (s2 & E2 & H2 & O2).
  { intros j e' s' Ej Hs'. destruct (Hb (S j) e' s' Ej Hs') as (s3 & E3 & H3 & O3). exists s3.
    replace (k + 1 + Z.of_nat j) with (k + Z.of_nat (S j)) by lia. done. }
  exists s2. split; [cbn [enumerate_from sfor]; by eapply sbind_Ok_intro|]. split; [done|].
  rewrite seqZ_cons by (cbn; lia). cbn [foldl]. rewrite O2, O1.
  replace (Z.pred (Z.of_nat (length (e :: l)))) with (Z.of_nat (length l)) by (cbn; lia).
  by replace (Z.succ (base + k)) with (base + (k + 1)) by lia.
Qed.

Section Correct.
Context {St : Type} (inflate : list Z → list Z → St + list Z) (file_max : Z) (f : file) (hdr : Qcow2Hdr).
Hypothesis image : image_ok inflate f hdr file_max.
Abbreviation csz := (csize hdr).
Abbreviation l2n := (l2_entries hdr).
Abbreviation clusters := (l1_size hdr * l2n).

Definition put (out : file) (c : Z) : file :=
  match guest_cluster inflate f hdr c with
  | Some (Some d) => overwrite out (Z.to_nat (c * csz)) d
  | _ => out
  end.

Definition buffer_ok (s : conv) : Prop := length (cv_data s) = length (zeros hdr).

Lemma csize_facts : 512 ≤ csz ≤ 2 ^ 21 ∧ csz = 8 * l2n ∧ 64 ≤ l2n.
Proof.
  destruct (io_bits _ _ _ _ image) as [Hb1 Hb2]. unfold l2_entries, csize.
  pose proof (Z.pow_le_mono_r 2 9 (cluster_bits hdr) ltac:(lia) ltac:(lia)).
  pose proof (Z.pow_le_mono_r 2 (cluster_bits hdr) 21 ltac:(lia) ltac:(lia)).
  assert (2 ^ cluster_bits hdr = 8 * (2 ^ (cluster_bits hdr - 3))) as E.
  { change 8 with (2 ^ 3). rewrite <- Z.pow_add_r by lia. f_equal. lia. }
  rewrite E in *. rewrite Z.mul_comm, Z.div_mul by lia. change (2 ^ 9) with 512 in *. lia.
Qed.

Lemma zeros_length : Z.of_nat (length (zeros hdr)) = csz.
Proof. unfold zeros. rewrite length_replicate. pose proof csize_facts. lia. Qed.

Lemma cluster_in_file c : 0 ≤ c < clusters → 0 ≤ c * csz ∧ c * csz + csz ≤ file_max ∧ c * csz < 2 ^ 63.
Proof.
  intros Hc. pose proof csize_facts. destruct (io_max _ _ _ _ image) as (_ & Hm1 & Hm2).
  assert ((c + 1) * csz ≤ clusters * csz) by (apply Z.mul_le_mono_nonneg_r; lia). lia.
Qed.

(** Writing the buffer at the place of cluster [c]. *)
Lemma write_cluster c i j d s :
  0 ≤ c < clusters → 0 ≤ i → 0 ≤ j → c = i * l2n + j → length d = length (zeros hdr) →
  cv_data s = d →
  write_out file_max St (u64_shl (u64 (u64 (i * l2n) + j)) (cluster_bits hdr)) s =
    (mkConv d (overwrite (cv_out s) (Z.to_nat (c * csz)) d), Ok tt).
Proof.
  intros Hc Hi Hj Ec Hd <-. pose proof (cluster_in_file c Hc) as (H1 & H2 & H3). pose proof csize_facts as (Hcs & Hcl & Hl2).
  pose proof zeros_length. destruct (io_bits _ _ _ _ image).
  assert (0 ≤ i * l2n ≤ c) by nia. assert (c ≤ c * csz) by nia.
  unfold u64_shl. rewrite (wrap_small 64 (i * l2n)), <- Ec, (wrap_small 64 c), Z.mod_small by (unfold in_u; lia).
  rewrite Z.shiftl_mul_pow2 by lia. fold csz. rewrite wrap_small by (unfold in_u; unfold csize in *; lia).
  change (c * 2 ^ cluster_bits hdr) with (c * csz).
  unfold write_out, write_all_at. destruct (cv_data s) as [|x d] eqn:E; [cbn in Hd; lia|]. rewrite <- E in *.
  rewrite (proj2 (Z.leb_le _ _)) by (rewrite Hd; lia). done.
Qed.

(** One entry does to the output what the reference prescribes for its cluster. *)
Lemma convert_entry_ok c i j e s :
  0 ≤ c < clusters → 0 ≤ i → 0 ≤ j → c = i * l2n + j →
  guest_entry f hdr c = Some (Some e) → in_u 64 e → buffer_ok s →
  ∃ s', convert_entry file_max St inflate f (cluster_bits hdr) l2n i (j, e) s = (s', Ok tt) ∧
    buffer_ok s' ∧ cv_out s' = put (cv_out s) c.
Proof.
  intros Hc Hi Hj Ec Ee Hu Hs.
  destruct (io_clusters _ _ _ _ image c Hc) as [cl Ecl]. unfold put. rewrite Ecl.
  unfold guest_cluster in Ecl. rewrite Ee in Ecl. cbn in Ecl. unfold entry_cluster in Ecl.
  assert (∀ d s0, length d = length (zeros hdr) → cl = Some d → cv_out s0 = cv_out s →
    ∃ s', (set_data St d ;;; write_out file_max St (u64_shl (u64 (u64 (i * l2n) + j)) (cluster_bits hdr)))%stm s0 = (s', Ok tt) ∧
    buffer_ok s' ∧ cv_out s' = match cl with Some d => overwrite (cv_out s) (Z.to_nat (c * csz)) d | None => cv_out s end) as Hw.
  { intros d s0 Hd -> Eo. eexists. split; [unfold set_data; by apply (write_cluster c i j d)|].
    split; [done|]. cbn. by rewrite Eo. }
  unfold convert_entry, l2_compressed, bit_get, l2_rc1, std_zero, bit_get. cbv zeta.
  destruct (Z.testbit e 62) eqn:E62.
  - rewrite (offset_size_spec e _ (io_bits _ _ _ _ image) Hu).
    apply bind_Some in Ecl as (bs & Ebs & Ecl). unfold cmpr_bytes in Ebs. cbv zeta in Ebs.
    unfold read_buf, sbind at 1. cbn [slift]. unfold slift. rewrite Ebs. unfold sbind, sget at 1.
    destruct (inflate bs (zeros hdr)) as [|d] eqn:Ei; [done|]. injection Ecl as <-.
    destruct (io_inflate _ _ _ _ image c e bs d (cv_data s) Hc Ee E62 Ebs Ei Hs) as [-> Hd]. by apply Hw.
  - rewrite desc_testbit by lia. destruct (Z.testbit e 0) eqn:E0; [injection Ecl as <-; by exists s|].
    destruct (desc_host e Hu) as [Hho Hso].
    assert ((std_offset (l2_desc e) =? 0) = (host_offset e =? 0)) as ->.
    { rewrite <- Hso. destruct (Z.eqb_spec (std_offset (l2_desc e)) 0), (Z.eqb_spec (std_offset (l2_desc e) * 2 ^ 9) 0); lia || done. }
    rewrite andb_comm. destruct ((host_offset e =? 0) && negb (Z.testbit e 63)) eqn:Ez; [injection Ecl as <-; by exists s|].
    apply fmap_Some in Ecl as (d & Ed & ->).
    assert (cluster_offset (l2_desc e) = host_offset e) as ->.
    { unfold cluster_offset. rewrite offset_mask; [done|]. rewrite desc_testbit by lia.
      by apply (io_reserved2 _ _ _ _ image c e Hc Ee). }
    unfold sbind at 1, sget at 1. unfold read_buf, slift, sbind at 1. rewrite Hs, zeros_length, Ed.
    apply Hw; [|done|done]. pose proof (read_exact_length f _ csz d (host_offset_nonneg e) ltac:(pose proof csize_facts; lia) Ed).
    pose proof zeros_length. lia.
Qed.

Lemma entry_index i j : 0 ≤ j < l2n → (i * l2n + j) / l2n = i ∧ (i * l2n + j) mod l2n = j.
Proof.
  intros Hj. rewrite Z.add_comm, Z.div_add, Z.mod_add, Z.div_small, Z.mod_small by lia. lia.
Qed.

Lemma cluster_index i j : 0 ≤ i < l1_size hdr → 0 ≤ j < l2n → 0 ≤ i * l2n + j < clusters.
Proof. intros. pose proof csize_facts. nia. Qed.

Lemma foldl_put_zero l out :
  (∀ c, c ∈ l → guest_cluster inflate f hdr c = Some None) → foldl put out l = out.
Proof.
  revert out. induction l as [|c l IH]; intros out Hz; [done|]. cbn. unfold put at 2.
  rewrite (Hz c) by (by left). apply IH. intros c' Hc'. apply Hz. by right.
Qed.

Lemma convert_table_ok i e s :
  0 ≤ i < l1_size hdr → table_entry f (l1_table_offset hdr) i = Some e → in_u 64 e → buffer_ok s →
  ∃ s', convert_table file_max St inflate f (cluster_bits hdr) l2n (i, e) s = (s', Ok tt) ∧
    buffer_ok s' ∧ cv_out s' = foldl put (cv_out s) (seqZ (i * l2n) l2n).
Proof.
  intros Hi Ee Hu Hs. pose proof csize_facts as (Hcs & Hcl & Hl2).
  assert (∀ j, 0 ≤ j < l2n → guest_entry f hdr (i * l2n + j) =
    if host_offset e =? 0 then Some None else Some <$> table_entry f (host_offset e) j) as Hge.
  { intros j Hj. unfold guest_entry. destruct (entry_index i j Hj) as [-> ->]. rewrite Ee. done. }
  unfold convert_table, l2_offset. rewrite (offset_mask e) by (by apply (io_reserved1 _ _ _ _ image i)).
  destruct (Z.eqb_spec (host_offset e) 0) as [Hz|Hz].
  - exists s. split; [done|]. split; [done|]. symmetry. apply foldl_put_zero. intros c [Hc1 Hc2]%elem_of_seqZ.
    unfold guest_cluster. replace c with (i * l2n + (c - i * l2n)) by lia. by rewrite Hge by lia.
  - assert (is_Some (read_exact_at f (host_offset e) (8 * l2n))) as [bs Ebs].
    { rewrite <- (Z2Nat.id l2n) by lia. apply table_readable; [apply host_offset_nonneg|lia|]. rewrite Z2Nat.id by lia.
      destruct (io_clusters _ _ _ _ image _ (cluster_index i (l2n - 1) Hi ltac:(lia))) as [cl Ecl].
      unfold guest_cluster in Ecl. rewrite Hge in Ecl by lia.
      destruct (table_entry f (host_offset e) (l2n - 1)); done. }
    unfold read_buf. unfold sbind at 1, slift. rewrite Ebs.
    destruct (enumerate_fold put buffer_ok (i * l2n) (be64s (Z.to_nat l2n) bs) 0
      (convert_entry file_max St inflate f (cluster_bits hdr) l2n i) s Hs) as (s' & E' & Hs' & O').
    { intros j e2 s0 Ej Hs0. assert (j < Z.to_nat l2n)%nat as Hj.
      { apply lookup_lt_Some in Ej. by rewrite be64s_length in Ej. }
      destruct (table_lookup f (io_bytes _ _ _ _ image) (host_offset e) (Z.to_nat l2n) bs j) as (e' & E1 & E2 & Hu');
        [apply host_offset_nonneg|by rewrite Z2Nat.id by lia|done|]. simplify_eq.
      apply convert_entry_ok; try done; try lia.
      - apply cluster_index; lia.
      - rewrite Hge, Z.add_0_l, E2 by lia. done. }
    exists s'. rewrite Z.add_0_r, be64s_length, Z2Nat.id in O' by lia. done.
Qed.

Lemma foldl_tables n out :
  foldl (λ out i, foldl put out (seqZ (i * l2n) l2n)) out (seqZ 0 (Z.of_nat n)) =
  foldl put out (seqZ 0 (Z.of_nat n * l2n)).
Proof.
  pose proof csize_facts. induction n as [|n IH]; [done|]. rewrite seqZ_S, foldl_app, IH, Nat2Z.inj_succ by lia. cbn [foldl].
  replace (Z.succ (Z.of_nat n) * l2n) with (Z.of_nat n * l2n + l2n) by lia.
  rewrite seqZ_app, foldl_app by nia. f_equal.
Qed.

(** What the fold leaves in the output. *)
Lemma put_length c out : (length out ≤ length (put out c))%nat.
Proof. unfold put. repeat case_match; try done. rewrite overwrite_length. lia. Qed.

Lemma guest_cluster_length c d :
  0 ≤ c < clusters → guest_cluster inflate f hdr c = Some (Some d) → length d = length (zeros hdr).
Proof.
  intros Hc E. unfold guest_cluster in E. apply bind_Some in E as ([e|] & Ee & E); [|done].
  unfold entry_cluster in E. destruct (Z.testbit e 62) eqn:E62.
  - apply bind_Some in E as (bs & Ebs & E). destruct (inflate bs (zeros hdr)) as [|d'] eqn:Ei; [done|]. simplify_eq.
    by destruct (io_inflate _ _ _ _ image c e bs d (zeros hdr) Hc Ee E62 Ebs Ei eq_refl).
  - repeat case_match; try done. apply fmap_Some in E as (d' & Ed & [= <-]).
    pose proof (read_exact_length f _ csz d (host_offset_nonneg e) ltac:(pose proof csize_facts; lia) Ed).
    pose proof zeros_length. lia.
Qed.

Definition cluster_byte (o : Z) : Z :=
  match guest_cluster inflate f hdr (o / csz) with
  | Some (Some d) => nth (Z.to_nat (o mod csz)) d 0
  | _ => 0
  end.

Lemma fold_lookup n out o :
  0 ≤ o < Z.of_nat (length out) → Z.of_nat n ≤ clusters → (∀ i, (i < length out)%nat → out !! i = Some 0) →
  (length out ≤ length (foldl put out (seqZ 0 (Z.of_nat n))))%nat ∧
  foldl put out (seqZ 0 (Z.of_nat n)) !! Z.to_nat o = Some (if o / csz <? Z.of_nat n then cluster_byte o else 0).
Proof.
  intros Ho Hn Hz. pose proof csize_facts as (Hcs & _ & _). pose proof zeros_length as Hzl.
  pose proof (Z.div_mod o csz ltac:(lia)) as Hdm. pose proof (Z.mod_pos_bound o csz ltac:(lia)) as Hm.
  pose proof (Z.div_pos o csz ltac:(lia) ltac:(lia)) as Hq.
  induction n as [|n IH].
  { cbn. rewrite (proj2 (Z.ltb_ge _ _)) by lia. split; [done|]. apply Hz. lia. }
  destruct IH as [IHl IH]; [lia|]. rewrite seqZ_S, foldl_app, Nat2Z.inj_succ by lia. cbn [foldl].
  set (out1 := foldl put out (seqZ 0 (Z.of_nat n))) in *. rewrite Z.add_0_l. split.
  { etrans; [exact IHl|apply put_length]. }
  destruct (Z.eq_dec (o / csz) (Z.of_nat n)) as [Eq|Hne].
  - rewrite (proj2 (Z.ltb_lt _ _)) by lia. rewrite (proj2 (Z.ltb_ge (o / csz) (Z.of_nat n))) in IH by lia.
    unfold put, cluster_byte. rewrite Eq. destruct (guest_cluster inflate f hdr (Z.of_nat n)) as [[d|]|] eqn:Ecl; [|done|done].
    pose proof (guest_cluster_length (Z.of_nat n) d ltac:(lia) Ecl) as Hd.
    rewrite overwrite_inside by nia.
    replace (Z.to_nat o - Z.to_nat (Z.of_nat n * csz))%nat with (Z.to_nat (o mod csz)) by nia.
    destruct (lookup_lt_is_Some_2 d (Z.to_nat (o mod csz))) as [x Ex]; [lia|]. by rewrite nth_lookup, Ex.
  - replace (o / csz <? Z.succ (Z.of_nat n)) with (o / csz <? Z.of_nat n) by
      (destruct (Z.ltb_spec (o / csz) (Z.of_nat n)), (Z.ltb_spec (o / csz) (Z.succ (Z.of_nat n))); lia || done).
    unfold put. destruct (guest_cluster inflate f hdr (Z.of_nat n)) as [[d|]|] eqn:Ecl; [|done|done].
    pose proof (guest_cluster_length (Z.of_nat n) d ltac:(lia) Ecl) as Hd.
    rewrite overwrite_outside; [done|nia|lia].
Qed.

Lemma be_at_nonneg bs off n : 0 ≤ be_at bs off n.
Proof.
  unfold be_at. cbn [ed_to_ne]. unfold swap_bytes.
  apply (le_val_in_u (reverse _)), Forall_reverse, le_bytes_u8.
Qed.

Lemma one_shl_csize : one_shl (cluster_bits hdr) = csz.
Proof.
  destruct (io_bits _ _ _ _ image). pose proof csize_facts. unfold one_shl, csize in *.
  rewrite Z.mod_small, Z.shiftl_1_l by lia. apply wrap_small. unfold in_u. lia.
Qed.

(** The whole conversion, as the fold over all clusters. *)
Lemma convert_fold s :
  ∃ s', convert_qcow2_to_raw file_max St inflate f s = (s', Ok tt) ∧
    cv_out s' = foldl put (upto [] (Z.to_nat (hdr_size hdr))) (seqZ 0 clusters).
Proof.
  destruct (io_header _ _ _ _ image) as (bs & Ebs & Eh). pose proof csize_facts as (Hcs & Hcl & Hl2).
  pose proof (io_l1 _ _ _ _ image) as Hl1. destruct (io_max _ _ _ _ image) as [Hm _].
  assert (0 ≤ l1_table_offset hdr) as Hoff by (rewrite Eh; apply be_at_nonneg).
  unfold convert_qcow2_to_raw, read_buf. unfold sbind at 1, slift at 1. rewrite Ebs, <- Eh.
  rewrite (bool_decide_eq_true_2 _ (io_magic _ _ _ _ image)). cbn [negb].
  assert ((2 <? version hdr) && negb (incompatible_features hdr =? 0) = false) as ->.
  { destruct (io_features _ _ _ _ image) as [Hv| ->]; [|apply andb_false_r]. by rewrite (proj2 (Z.ltb_ge _ _)). }
  cbv zeta. rewrite one_shl_csize. fold l2n.
  assert (is_Some (read_exact_at f (l1_table_offset hdr) (8 * l1_size hdr))) as [tbl Etbl].
  { rewrite <- (Z2Nat.id (l1_size hdr)) by lia. apply table_readable; [done|lia|]. rewrite Z2Nat.id by lia.
    destruct (io_clusters _ _ _ _ image _ (cluster_index (l1_size hdr - 1) 0 ltac:(lia) ltac:(lia))) as [cl Ecl].
    unfold guest_cluster, guest_entry in Ecl. destruct (entry_index (l1_size hdr - 1) 0 ltac:(lia)) as [E1 _].
    rewrite E1 in Ecl. by destruct (table_entry f (l1_table_offset hdr) (l1_size hdr - 1)). }
  unfold sbind at 1, slift at 1. rewrite Etbl. unfold sbind at 1, smodify at 1, sbind at 1, sget at 1.
  unfold set_len. rewrite (proj2 (Z.leb_le _ _) Hm). unfold sbind at 1, smodify at 1.
  set (s0 := mkConv _ _).
  destruct (enumerate_fold (λ out i, foldl put out (seqZ (i * l2n) l2n)) buffer_ok 0 (be64s (Z.to_nat (l1_size hdr)) tbl) 0
    (convert_table file_max St inflate f (cluster_bits hdr) l2n) s0) as (s' & E' & _ & O'); [done|..].
  { intros j e s1 Ej Hs1. assert (j < Z.to_nat (l1_size hdr))%nat as Hj.
    { apply lookup_lt_Some in Ej. by rewrite be64s_length in Ej. }
    destruct (table_lookup f (io_bytes _ _ _ _ image) (l1_table_offset hdr) (Z.to_nat (l1_size hdr)) tbl j) as (e' & E1 & E2 & Hu);
      [done|by rewrite Z2Nat.id by lia|done|]. simplify_eq. rewrite !Z.add_0_l. apply convert_table_ok; done || lia. }
  exists s'. split; [done|]. rewrite O', be64s_length, foldl_tables, Z2Nat.id by lia. done.
Qed.
End Correct.

(** Converting a complete qcow2 image to a raw one succeeds, and each byte of the output
    up to the virtual size is the byte the guest reads through the tables: allocated,
    compressed, zeroed and unallocated clusters alike, whatever the buffers held before. *)
Theorem qcow2_convert_correct {St} (inflate : list Z → list Z → St + list Z) file_max f hdr s :
  image_ok inflate f hdr file_max →
  ∃ s', convert file_max St inflate (Some Qcow2) (Some Raw) f s = (s', Ok tt) ∧
    ∀ o, 0 ≤ o < hdr_size hdr → cv_out s' !! Z.to_nat o = Some (guest_byte inflate f hdr o).
Proof.
  intros Hok. destruct (convert_fold inflate file_max f hdr Hok s) as (s' & E & Eo).
  exists s'. split; [exact E|]. intros o Ho. rewrite Eo. pose proof (csize_facts _ _ _ _ Hok) as (Hcs & _ & Hl2).
  pose proof (io_l1 _ _ _ _ Hok). set (n := l1_size hdr * l2_entries hdr).
  assert (0 ≤ n) by nia. rewrite <- (Z2Nat.id n) by done.
  destruct (fold_lookup inflate file_max f hdr Hok (Z.to_nat n) (upto [] (Z.to_nat (hdr_size hdr))) o) as [_ ->].
  - rewrite upto_length. lia.
  - fold n. lia.
  - intros i. rewrite upto_length. intros Hi. by rewrite upto_lookup.
  - unfold guest_byte. fold n. rewrite Z2Nat.id by done. f_equal.
    pose proof (Z.div_mod o (csize hdr) ltac:(lia)). pose proof (Z.mod_pos_bound o (csize hdr) ltac:(lia)).
    destruct (Z.ltb_spec (o / csize hdr) n), (Z.ltb_spec o (n * csize hdr)); try done; nia.
Qed.

(** ** An image that evaluates *)

Definition be_field (n : nat) (v : Z) : list Z := reverse (le_bytes n v).
Definition pad_to (n : nat) (bs : list Z) : list Z := bs ++ replicate (n - length bs) 0.

(** 512-byte clusters: the header, the L1 table, the L2 table and one data cluster; the first
    guest cluster is the data cluster, the second compressed, the third explicitly zero. *)
Definition demo_header (size : Z) : list Z :=
  QCOW2_MAGIC ++ be_field 4 3 ++ be_field 8 0 ++ be_field 4 0 ++ be_field 4 9 ++ be_field 8 size ++
  be_field 4 0 ++ be_field 4 1 ++ be_field 8 512.
Definition demo_image (size : Z) : file :=
  pad_to 512 (demo_header size) ++ pad_to 512 (be_field 8 (2 ^ 63 + 1024)) ++
  pad_to 512 (be_field 8 (2 ^ 63 + 1536) ++ be_field 8 (2 ^ 62 + 1536) ++ be_field 8 1) ++
  replicate 512 7.
Definition demo_hdr (size : Z) : Qcow2Hdr := Qcow2Hdr_from_bytes (take 112 (demo_image size)).
(** A stand-in for the inflater: the first byte of the stream fills the buffer. *)
Definition fill (bs buf : list Z) : unit + list Z := inr (replicate (length buf) (hd 0 bs)).

Lemma demo_image_ok : image_ok fill (demo_image 1100) (demo_hdr 1100) (2 ^ 40).
Proof.
  assert (∀ P : Z → bool, forallb P (seqZ 0 64) = true → ∀ c, 0 ≤ c < 64 → P c = true) as Hall.
  { intros P HP c Hc. rewrite forallb_forall in HP. apply HP, list_elem_of_In, elem_of_seqZ. lia. }
  change 64 with (l1_size (demo_hdr 1100) * l2_entries (demo_hdr 1100)) in Hall.
  split.
  - exists (take 112 (demo_image 1100)). split; [vm_compute; reflexivity|done].
  - by vm_compute.
  - right. by vm_compute.
  - by_eval.
  - by_eval.
  - by_eval.
  - apply Forall_forall. intros x Hx. assert (forallb (λ x, (0 <=? x) && (x <? 256)) (demo_image 1100) = true) as H by (by vm_compute).
    rewrite forallb_forall in H. apply list_elem_of_In, H in Hx. unfold in_u. lia.
  - intros i e Hi. assert (i = 0) as -> by (change (l1_size (demo_hdr 1100)) with 1 in Hi; lia). vm_compute. by intros [= <-].
  - intros c e Hc Ee E62.
    pose proof (Hall (λ c, match guest_entry (demo_image 1100) (demo_hdr 1100) c with
      Some (Some e) => Z.testbit e 62 || negb (Z.testbit e 8) | _ => true end) ltac:(by vm_compute) c Hc) as H.
    cbn beta in H. rewrite Ee, E62 in H. by destruct (Z.testbit e 8).
  - intros c Hc. pose proof (Hall (λ c, match guest_cluster fill (demo_image 1100) (demo_hdr 1100) c with
      Some _ => true | _ => false end) ltac:(by vm_compute) c Hc) as H.
    cbn beta in H. by destruct (guest_cluster _ _ _ c).
  - intros c e bs d buf _ _ _ _ E Hl. unfold fill in *. simplify_eq. rewrite Hl, length_replicate. done.
Qed.

Lemma qcow2_convert_correct_witness :
  ∃ s', convert (2 ^ 40) unit fill (Some Qcow2) (Some Raw) (demo_image 1100) (mkConv [] []) = (s', Ok tt) ∧
    cv_out s' !! 5%nat = Some 7 ∧ cv_out s' !! 600%nat = Some 7 ∧ cv_out s' !! 1030%nat = Some 0.
Proof.
  destruct (qcow2_convert_correct fill (2 ^ 40) (demo_image 1100) (demo_hdr 1100) (mkConv [] []) demo_image_ok) as (s' & E & H).
  exists s'. split; [exact E|]. split; [|split].
  - exact (H 5 ltac:(by_eval)).
  - exact (H 600 ltac:(by_eval)).
  - exact (H 1030 ltac:(by_eval)).
Defined.

(** ** What the code does beyond the virtual size, and with a reserved bit *)

(** A virtual size that is not a multiple of the cluster size: the last cluster is written in
    full and the raw image grows past the virtual size. *)
Lemma convert_grows_output :
  ∃ s', convert (2 ^ 40) unit fill (Some Qcow2) (Some Raw) (demo_image 600) (mkConv [] []) = (s', Ok tt) ∧
    hdr_size (demo_hdr 600) = 600 ∧ length (cv_out s') = 1024%nat.
Proof. eexists. split; [vm_compute; reflexivity|]. done. Qed.

(** [l2_offset] and [cluster_offset] keep bit 8, which is outside the field [offset]. *)
Lemma l2_offset_keeps_bit8 : l2_offset 0x10100 = 0x10100 ∧ l1_offset 0x10100 * 2 ^ 9 = 0x10000.
Proof. done. Qed.
