(* ===== verification/DevWorker.v ===== *)
(** * The worker thread of a virtio device: virtio/dev/dev.rs and virtio/worker/mio.rs

    The thread owns the device; the transport sends it [WakeEvent]s through a channel and
    rings a notifier.  The environment is a list of rounds: what arrived on the channel, and
    which other sources became ready.  The notifier is edge-triggered (mio registers with
    [EPOLLET]): a poll reports it when it was rung since the last report. *)

From S2P Require Import Prelude Utils MemTypes Addressable Mapped PciConfig PciCap VirtQueue SplitQueue PackedQueue VirtioPci VirtioPciThm.

Inductive WorkerState := WPending | WRunning | WShutdown.
#[export] Instance WorkerState_eq_dec : EqDecision WorkerState.
Proof. solve_decision. Defined.

Definition TOKEN_WARKER : Z := Z.shiftl 1 63.
Definition TOKEN_QUEUE : Z := Z.shiftl 1 62.

(** virtio/virtio.rs, [VirtioFeature]. *)
Definition EVENT_IDX : Z := Z.shiftl 1 29.
Definition ACCESS_PLATFORM : Z := Z.shiftl 1 33.
Definition RING_PACKED : Z := Z.shiftl 1 34.

(** The queues of one activation. *)
Inductive queues :=
| SplitQueues (qs : list (option (Queue SplitQueue Z)))
| PackedQueues (qs : list (option (Queue PackedQueue Z))).

(** [queue_regs.iter().map(new_queue).collect()], stopping at the first error. *)
Definition new_queues {Q Index} `{VirtQueue Q Index} (new : QueueReg → outcome virtio_error (option Q))
  : list QueueReg → outcome virtio_error (list (option (Queue Q Index))) :=
  fix go regs :=
    match regs with
    | [] => Ok []
    | reg :: regs' =>
        match new reg with
        | Ok oq =>
            match go regs' with
            | Ok qs => Ok ((Queue_new <$> oq) :: qs)
            | other => other
            end
        | Err e => Err e
        | Panic => Panic
        end
    end.

(** The queues [loop_until_reset] builds from the negotiated features. *)
Definition build_queues (param_feature : Z) (regs : list QueueReg) (r : ram) : outcome virtio_error queues :=
  let feature := Z.land param_feature (bnot 128 ACCESS_PLATFORM) in
  let event_idx := contains feature EVENT_IDX in
  if contains feature RING_PACKED
  then PackedQueues <$> new_queues (λ reg, Packed.new reg r event_idx) regs
  else SplitQueues <$> new_queues (λ reg, Split.new reg r event_idx) regs.

(** [trait VirtioMio], on the state [X] of the device and all it reaches (queues, guest
    memory, interrupts); events of its own sources are [Ev]. *)
Class VirtioMio (X Ev : Type) := {
  ev_token : Ev → Z;
  mio_activate : Z → queues → stm X virtio_error unit;
  mio_handle_queue : Z → stm X virtio_error unit;
  mio_handle_event : Ev → stm X virtio_error unit;
  mio_reset : X → X;
  ioeventfd_offloaded : Z → outcome virtio_error bool;
  set_vu_channel : X → X
}.

(** A round of the environment. *)
Record round (Ev : Type) := mkRound { arrived : list WakeEvent; ready : list Ev }.
Arguments mkRound {Ev} _ _.
Arguments arrived {Ev} _.
Arguments ready {Ev} _.

(** [Context], the registry of the poller and the notifier's edge. *)
Record Context (X : Type) := mkContext {
  cx_dev : X; event_rx : list WakeEvent; cx_state : WorkerState;
  registered : list Z; edge : bool
}.
Arguments mkContext {X} _ _ _ _ _.
Arguments cx_dev {X} _.
Arguments event_rx {X} _.
Arguments cx_state {X} _.
Arguments registered {X} _.
Arguments edge {X} _.

Section Worker.
Context {X Ev : Type} `{VirtioMio X Ev}.
Variables (regs : X → list QueueReg) (r : ram).
(** [param.ioeventfds]: how many there are. *)
Variable nfds : nat.
Implicit Types (c : Context X).

Definition on_dev (p : stm X virtio_error unit) : stm (Context X) virtio_error unit := λ c,
  let '(x, res) := p (cx_dev c) in
  (mkContext x (event_rx c) (cx_state c) (registered c) (edge c), res).
Definition with_state (st : WorkerState) c : Context X :=
  mkContext (cx_dev c) (event_rx c) st (registered c) (edge c).
Definition with_rx (evs : list WakeEvent) c : Context X :=
  mkContext (cx_dev c) evs (cx_state c) (registered c) (edge c).
Definition with_registered (ts : list Z) c : Context X :=
  mkContext (cx_dev c) (event_rx c) (cx_state c) ts (edge c).

(** A sender rings the notifier after each event but [Start]. *)
Definition rings (ev : WakeEvent) : bool := match ev with WakeStart _ => false | _ => true end.
Definition arrive (evs : list WakeEvent) c : Context X :=
  mkContext (cx_dev c) (event_rx c ++ evs) (cx_state c) (registered c) (edge c || existsb rings evs).

(** [handle_wake_events]: [evs] is what [try_recv] finds. *)
Fixpoint wake_events (evs : list WakeEvent) (c : Context X) : Context X * outcome virtio_error unit :=
  match evs with
  | [] => (with_rx [] c, Ok tt)
  | ev :: evs' =>
      match ev with
      | WakeNotify q_index =>
          match on_dev (mio_handle_queue q_index) c with
          | (c', Ok _) => wake_events evs' c'
          | (c', other) => (with_rx evs' c', other)
          end
      | WakeShutdown => (with_rx evs' (with_state WShutdown c), Ok tt)
      | WakeStart _ => wake_events evs' c
      | WakeVuChannel => wake_events evs' (on_dev (smodify set_vu_channel) c).1
      | WakeReset => (with_rx evs' (with_state WPending c), Ok tt)
      end
  end.
Definition handle_wake_events c := wake_events (event_rx c) c.

(** [wait_start] on what has arrived: a feature set to start with, the end, or blocked.
    The senders live as long as the device's transport, which sends [Shutdown] first. *)
Inductive waited := Started (feature : Z) | Ended | Blocked.
Fixpoint wait_events (evs : list WakeEvent) (c : Context X) : Context X * waited :=
  match evs with
  | [] => (with_rx [] c, Blocked)
  | ev :: evs' =>
      match ev with
      | WakeReset | WakeNotify _ => wait_events evs' c
      | WakeStart feature => (with_rx evs' (with_state WRunning c), Started feature)
      | WakeVuChannel => wait_events evs' (on_dev (smodify set_vu_channel) c).1
      | WakeShutdown => (with_rx evs' (with_state WShutdown c), Ended)
      end
  end.
Fixpoint wait_start (rounds : list (round Ev)) (c : Context X) : Context X * waited * list (round Ev) :=
  match wait_events (event_rx c) c with
  | (c', Blocked) =>
      match rounds with
      | [] => (c', Blocked, [])
      | rd :: rounds' => wait_start rounds' (arrive (arrived rd) c')
      end
  | (c', other) => (c', other, rounds)
  end.

(** What a poll reports. *)
Inductive mio_event := Worker | Source (ev : Ev).
Definition token (e : mio_event) : Z := match e with Worker => TOKEN_WARKER | Source ev => ev_token ev end.

(** [ActiveMio::handle_event] and [Context::handle_event]. *)
Definition active_handle_event (ev : Ev) : stm X virtio_error unit :=
  if Z.land (ev_token ev) TOKEN_QUEUE =? TOKEN_QUEUE then mio_handle_queue (u16 (ev_token ev))
  else mio_handle_event ev.
Definition handle_event (e : mio_event) : stm (Context X) virtio_error unit :=
  match e with
  | Worker => handle_wake_events
  | Source ev => if token e =? TOKEN_WARKER then handle_wake_events else on_dev (active_handle_event ev)
  end.

(** The [for] over the events of one poll; [false]: the loop is left. *)
Fixpoint handle_events (es : list mio_event) : stm (Context X) virtio_error bool :=
  match es with
  | [] => sret true
  | e :: es' => λ c,
      match handle_event e c with
      | (c', Ok _) =>
          if bool_decide (cx_state c' = WRunning) then handle_events es' c' else (c', Ok false)
      | (c', Err err) => (c', Err err)
      | (c', Panic) => (c', Panic)
      end
  end.

(** ['out: loop]: [None], still polling when the rounds end. *)
Definition poll_ready (rd : round Ev) c : Context X * list mio_event :=
  let c1 := arrive (arrived rd) c in
  (mkContext (cx_dev c1) (event_rx c1) (cx_state c1) (registered c1) false,
   (if edge c1 then [Worker] else []) ++ (Source <$> ready rd)).
Fixpoint poll_loop (rounds : list (round Ev)) c
  : Context X * option (outcome virtio_error unit) * list (round Ev) :=
  match rounds with
  | [] => (c, None, [])
  | rd :: rounds' =>
      let '(c1, es) := poll_ready rd c in
      match handle_events es c1 with
      | (c2, Ok true) => poll_loop rounds' c2
      | (c2, Ok false) => (c2, Some (Ok tt), rounds')
      | (c2, Err e) => (c2, Some (Err e), rounds')
      | (c2, Panic) => (c2, Some Panic, rounds')
      end
  end.

(** The ioeventfds of the queues in the poller. *)
Definition queue_token (index : Z) : Z := Z.lor index TOKEN_QUEUE.
Definition register_one (index : Z) : stm (Context X) virtio_error unit := λ c,
  match ioeventfd_offloaded (u16 index) with
  | Ok true => (c, Ok tt)
  | Ok false =>
      if bool_decide (queue_token index ∈ registered c) then (c, Err VSystem)   (* already registered *)
      else (with_registered (queue_token index :: registered c) c, Ok tt)
  | Err e => (c, Err e)
  | Panic => (c, Panic)
  end.
Definition deregister_one (index : Z) : stm (Context X) virtio_error unit := λ c,
  match ioeventfd_offloaded (u16 index) with
  | Ok true => (c, Ok tt)
  | Ok false =>
      if bool_decide (queue_token index ∈ registered c)
      then (with_registered (filter (.≠ queue_token index) (registered c)) c, Ok tt)
      else (c, Err VSystem)
  | Err e => (c, Err e)
  | Panic => (c, Panic)
  end.
Definition fd_indices : list Z := Z.of_nat <$> seq 0 nfds.

(** [Mio::event_loop]. *)
Definition event_loop (rounds : list (round Ev)) (feature : Z) (qs : queues) c
  : Context X * option (outcome virtio_error unit) * list (round Ev) :=
  match (on_dev (mio_activate feature qs) ;;; sfor fd_indices register_one)%stm c with
  | (c1, Ok _) =>
      match poll_loop rounds c1 with
      | (c2, Some (Ok _), rest) =>
          let '(c3, res) := sfor fd_indices deregister_one c2 in (c3, Some res, rest)
      | other => other
      end
  | (c1, other) => (c1, Some other, rounds)
  end.

(** [loop_until_reset]: [None], blocked on the channel or still polling. *)
Definition loop_until_reset (rounds : list (round Ev)) c
  : Context X * option (outcome virtio_error unit) * list (round Ev) :=
  match wait_start rounds c with
  | (c1, Blocked, rest) => (c1, None, rest)
  | (c1, Ended, rest) => (c1, Some (Ok tt), rest)
  | (c1, Started feature, rest) =>
      match build_queues feature (regs (cx_dev c1)) r with
      | Err e => (c1, Some (Err e), rest)
      | Panic => (c1, Some Panic, rest)
      | Ok qs =>
          match event_loop rest feature qs c1 with
          | (c2, Some (Ok _), rest2) => ((on_dev (smodify mio_reset) c2).1, Some (Ok tt), rest2)
          | other => other
          end
      end
  end.

(** [do_work]: [Some true], the thread ended after a shutdown; [Some false], after an error. *)
Fixpoint do_work (fuel : nat) (rounds : list (round Ev)) c : Context X * option bool :=
  match fuel with
  | O => (c, None)
  | S fuel' =>
      if bool_decide (cx_state c = WShutdown) then (c, Some true)
      else
        match loop_until_reset rounds c with
        | (c1, None, _) => (c1, None)
        | (c1, Some (Ok _), rest) => do_work fuel' rest c1
        | (c1, Some _, _) => (c1, Some false)
        end
  end.

(** The context [Worker::spawn] starts the thread with. *)
Definition spawned (x : X) : Context X := mkContext x [] WPending [] false.
End Worker.
Arguments mio_event Ev : clear implicits.

(** ** The worker refines the device's lifecycle

    The reference machine applies to the device what each event asks for: start, queue
    notifications, events of its own sources, reset.  The thread, with its channel, poller,
    nested loops and early exits, does just that on the events it has consumed, in order. *)

Section Life.
Context {X Ev : Type} `{VirtioMio X Ev}.
Variables (regs : X → list QueueReg) (r : ram) (nfds : nat).
Hypothesis offload : ∀ i, ∃ b, ioeventfd_offloaded (X := X) (Ev := Ev) i = Ok b.
Implicit Types (c : Context X) (x : X).

(** ** The reference *)

Inductive input := IWake (ev : WakeEvent) | ISource (ev : Ev).
Definition wakes_of (ins : list input) : list WakeEvent :=
  omap (λ i, match i with IWake ev => Some ev | ISource _ => None end) ins.

Definition run_op (st : WorkerState) (p : stm X virtio_error unit) x : (WorkerState * X) * outcome virtio_error unit :=
  let '(x', res) := p x in ((st, x'), res).

Definition start (feature : Z) x : (WorkerState * X) * outcome virtio_error unit :=
  match build_queues feature (regs x) r with
  | Ok qs => run_op WRunning (mio_activate feature qs) x
  | Err e => ((WRunning, x), Err e)
  | Panic => ((WRunning, x), Panic)
  end.

Definition life_step (s : WorkerState * X) (i : input) : (WorkerState * X) * outcome virtio_error unit :=
  let '(st, x) := s in
  match st, i with
  | WPending, IWake (WakeStart f) => start f x
  | WPending, IWake WakeVuChannel => ((st, set_vu_channel x), Ok tt)
  | WPending, IWake WakeShutdown => ((WShutdown, x), Ok tt)
  | WRunning, IWake (WakeNotify q) => run_op WRunning (mio_handle_queue q) x
  | WRunning, ISource ev => run_op WRunning (active_handle_event ev) x
  | WRunning, IWake WakeVuChannel => ((st, set_vu_channel x), Ok tt)
  | WRunning, IWake WakeReset => ((WPending, mio_reset x), Ok tt)
  | WRunning, IWake WakeShutdown => ((WShutdown, mio_reset x), Ok tt)
  | _, _ => (s, Ok tt)
  end.

Fixpoint life (ins : list input) (s : WorkerState * X) : (WorkerState * X) * outcome virtio_error unit :=
  match ins with
  | [] => (s, Ok tt)
  | i :: ins' => match life_step s i with (s', Ok _) => life ins' s' | other => other end
  end.

Lemma life_app ins1 ins2 s s1 : life ins1 s = (s1, Ok tt) → life (ins1 ++ ins2) s = life ins2 s1.
Proof.
  revert s. induction ins1 as [|i ins1 IH]; intros s E; cbn in *; [by simplify_eq|].
  destruct (life_step s i) as [s' [u| |]]; try done. by apply IH.
Qed.

Lemma wakes_of_app i1 i2 : wakes_of (i1 ++ i2) = wakes_of i1 ++ wakes_of i2.
Proof. apply omap_app. Qed.

(** The device once the session is over. *)
Definition settled c : WorkerState * X :=
  (cx_state c, if bool_decide (cx_state c = WRunning) then cx_dev c else mio_reset (cx_dev c)).

(** ** The loops of a session *)

Lemma wake_events_life evs c c' res :
  cx_state c = WRunning → wake_events evs c = (c', res) →
  ∃ used, evs = used ++ event_rx c' ∧ registered c' = registered c ∧ edge c' = edge c ∧
    (res = Ok tt → cx_state c' = WRunning → event_rx c' = []) ∧
    (res ≠ Ok tt → cx_state c' = WRunning) ∧
    life (IWake <$> used) (WRunning, cx_dev c) = (settled c', res).
Proof.
  revert c. induction evs as [|ev evs IH]; intros c Hs E; cbn in E.
  { simplify_eq. exists []. unfold settled. cbn. rewrite Hs. done. }
  destruct ev as [q| | |f|].
  - unfold on_dev in E. destruct (mio_handle_queue q (cx_dev c)) as [x [[]|e|]] eqn:Eq.
    + apply IH in E as (used & -> & Hr & He & Hn & Hx & El); [|done]. exists (WakeNotify q :: used).
      split_and!; try done. cbn. unfold run_op. rewrite Eq. done.
    + simplify_eq. exists [WakeNotify q]. unfold settled. cbn. unfold run_op. rewrite Eq, Hs. done.
    + simplify_eq. exists [WakeNotify q]. unfold settled. cbn. unfold run_op. rewrite Eq, Hs. done.
  - simplify_eq. exists [WakeShutdown]. done.
  - apply IH in E as (used & -> & Hr & He & Hn & Hx & El); [|done]. by exists (WakeVuChannel :: used).
  - apply IH in E as (used & -> & Hr & He & Hn & Hx & El); [|done]. by exists (WakeStart f :: used).
  - simplify_eq. exists [WakeReset]. done.
Qed.

Lemma handle_event_life e c c' res :
  cx_state c = WRunning → handle_event e c = (c', res) →
  ∃ ins, event_rx c = wakes_of ins ++ event_rx c' ∧ registered c' = registered c ∧ edge c' = edge c ∧
    (res ≠ Ok tt → cx_state c' = WRunning) ∧
    life ins (WRunning, cx_dev c) = (settled c', res).
Proof.
  intros Hs E.
  assert (handle_wake_events c = (c', res) → ∃ ins, event_rx c = wakes_of ins ++ event_rx c' ∧
    registered c' = registered c ∧ edge c' = edge c ∧ (res ≠ Ok tt → cx_state c' = WRunning) ∧
    life ins (WRunning, cx_dev c) = (settled c', res)) as Hw.
  { intros E1. apply wake_events_life in E1 as (used & Eu & Hr & He & _ & Hx & El); [|done].
    exists (IWake <$> used). split_and!; try done. rewrite Eu at 1. f_equal.
    clear. induction used as [|u used IH]; cbn; [done|]. by f_equal. }
  destruct e as [|ev]; [by apply Hw|]. cbn in E. destruct (ev_token ev =? TOKEN_WARKER); [by apply Hw|].
  exists [ISource ev]. unfold on_dev in E.
  destruct (active_handle_event ev (cx_dev c)) as [x r0] eqn:Ea. simplify_eq. unfold settled. cbn. rewrite Hs.
  unfold run_op. rewrite Ea. destruct res as [[]| |]; done.
Qed.

Definition ended {A} (res : outcome virtio_error A) : outcome virtio_error unit := (λ _, tt) <$> res.

Lemma handle_events_life es c c' res :
  cx_state c = WRunning → handle_events es c = (c', res) →
  ∃ ins, event_rx c = wakes_of ins ++ event_rx c' ∧ registered c' = registered c ∧ edge c' = edge c ∧
    (cx_state c' = WRunning ↔ res ≠ Ok false) ∧
    life ins (WRunning, cx_dev c) = (settled c', ended res).
Proof.
  revert c. induction es as [|e es IH]; intros c Hs E; cbn in E.
  { injection E as <- <-. exists []. unfold settled. rewrite Hs. done. }
  destruct (handle_event e c) as [c1 r1] eqn:E1.
  apply handle_event_life in E1 as (ins1 & Ei1 & Hr1 & He1 & Hx1 & El1); [|done].
  destruct r1 as [[]|err|].
  - case_bool_decide as Hs1.
    + apply IH in E as (ins2 & Ei2 & Hr2 & He2 & Hx2 & El2); [|done]. exists (ins1 ++ ins2).
      split_and!; [by rewrite wakes_of_app, <- app_assoc, <- Ei2|congruence|congruence|done|].
      rewrite (life_app ins1 ins2 _ (WRunning, cx_dev c1)); [done|].
      rewrite El1. unfold settled. by rewrite Hs1.
    + injection E as <- <-. exists ins1. naive_solver.
  - injection E as <- <-. exists ins1. split_and!; try done. split; [done|]. intros _. by apply Hx1.
  - injection E as <- <-. exists ins1. split_and!; try done. split; [done|]. intros _. by apply Hx1.
Qed.

Definition arrivals (rds : list (round Ev)) : list WakeEvent := mjoin (arrived <$> rds).

Lemma poll_loop_life rounds c c' ret rest :
  cx_state c = WRunning → poll_loop rounds c = (c', ret, rest) →
  ∃ past ins, rounds = past ++ rest ∧ event_rx c ++ arrivals past = wakes_of ins ++ event_rx c' ∧
    registered c' = registered c ∧ (cx_state c' = WRunning ↔ ret ≠ Some (Ok tt)) ∧ (ret = None → rest = []) ∧
    life ins (WRunning, cx_dev c) = (settled c', default (Ok tt) ret).
Proof.
  revert c. induction rounds as [|rd rounds IH]; intros c Hs E; cbn [poll_loop] in E.
  { injection E as <- <- <-. exists [], []. unfold settled. rewrite Hs. cbn. rewrite app_nil_r. done. }
  unfold poll_ready in E. set (c1 := mkContext _ _ _ _ false) in E.
  destruct (handle_events _ c1) as [c2 r2] eqn:E2.
  apply handle_events_life in E2 as (ins1 & Ei & Hr & _ & Hx & El); [|done].
  destruct r2 as [[]|err|].
  - destruct Hx as [_ Hx]. specialize (Hx ltac:(done)).
    apply IH in E as (past & ins2 & -> & Ei2 & Hr2 & Hx2 & Hn2 & El2); [|done].
    exists (rd :: past), (ins1 ++ ins2). split_and!; try done.
    + rewrite wakes_of_app, <- app_assoc, <- Ei2. cbn in Ei. unfold arrivals. cbn. rewrite !app_assoc. by rewrite <- Ei.
    + by rewrite Hr2, Hr.
    + rewrite (life_app ins1 ins2 _ (WRunning, cx_dev c2)); [done|].
      change (cx_dev c) with (cx_dev c1). rewrite El. unfold settled. by rewrite Hx.
  - injection E as <- <- <-. exists [rd], ins1. cbn in Ei. unfold arrivals. cbn. rewrite app_nil_r.
    split_and!; try done. rewrite Hx. split; congruence.
  - injection E as <- <- <-. exists [rd], ins1. cbn in Ei. unfold arrivals. cbn. rewrite app_nil_r.
    split_and!; try done. rewrite Hx. done.
  - injection E as <- <- <-. exists [rd], ins1. cbn in Ei. unfold arrivals. cbn. rewrite app_nil_r.
    split_and!; try done. rewrite Hx. done.
Qed.

(** ** Registrations *)

Definition offloaded (i : Z) : bool :=
  match ioeventfd_offloaded (X := X) (Ev := Ev) (u16 i) with Ok b => b | _ => false end.
Lemma offloaded_eq i : ioeventfd_offloaded (X := X) (Ev := Ev) (u16 i) = Ok (offloaded i).
Proof. unfold offloaded. by destruct (offload (u16 i)) as [b ->]. Qed.

Definition same_but_registry c c' : Prop :=
  cx_dev c' = cx_dev c ∧ event_rx c' = event_rx c ∧ cx_state c' = cx_state c ∧ edge c' = edge c.

Lemma register_all l c :
  NoDup (queue_token <$> l) → (∀ i, i ∈ l → queue_token i ∉ registered c) →
  ∃ c', sfor l (register_one (Ev := Ev)) c = (c', Ok tt) ∧ same_but_registry c c' ∧
    ∀ t, t ∈ registered c' ↔ t ∈ registered c ∨ ∃ i, i ∈ l ∧ offloaded i = false ∧ t = queue_token i.
Proof.
  revert c. induction l as [|i l IH]; intros c Hd Hf; cbn.
  { exists c. split; [done|]. split; [done|]. set_solver. }
  apply NoDup_cons in Hd as [Hi Hd]. unfold sbind, register_one. rewrite offloaded_eq.
  destruct (offloaded i) eqn:Eo.
  - destruct (IH c Hd) as (c' & E & Hs & Hm); [set_solver|]. exists c'. split_and!; try done.
    intros t. rewrite Hm. split; [set_solver|]. intros [?|(j & [-> |?]%elem_of_cons & Ej & ->)]; [by left|congruence|right; eauto].
  - rewrite bool_decide_eq_false_2 by (apply Hf; by left).
    destruct (IH (with_registered (queue_token i :: registered c) c) Hd) as (c' & E & Hs & Hm).
    { intros j Hj. cbn. rewrite elem_of_cons. intros [Et|]; [|by eapply Hf; [right|]].
      apply Hi. rewrite <- Et. by apply list_elem_of_fmap_2. }
    exists c'. split_and!; try done. intros t. rewrite Hm. cbn. rewrite elem_of_cons. set_solver.
Qed.

Lemma deregister_all l c :
  NoDup (queue_token <$> l) → (∀ i, i ∈ l → offloaded i = false → queue_token i ∈ registered c) →
  ∃ c', sfor l (deregister_one (Ev := Ev)) c = (c', Ok tt) ∧ same_but_registry c c' ∧
    ∀ t, t ∈ registered c' ↔ t ∈ registered c ∧ ∀ i, i ∈ l → offloaded i = false → t ≠ queue_token i.
Proof.
  revert c. induction l as [|i l IH]; intros c Hd Hf; cbn.
  { exists c. split; [done|]. split; [done|]. set_solver. }
  apply NoDup_cons in Hd as [Hi Hd]. unfold sbind, deregister_one. rewrite offloaded_eq.
  destruct (offloaded i) eqn:Eo.
  - destruct (IH c Hd) as (c' & E & Hs & Hm); [set_solver|]. exists c'. split_and!; try done.
    intros t. rewrite Hm. split; [|set_solver]. intros [? Hn]. split; [done|].
    intros j [-> |?]%elem_of_cons Ej; [congruence|by apply Hn].
  - rewrite bool_decide_eq_true_2 by (apply Hf; [by left|done]).
    destruct (IH (with_registered (filter (.≠ queue_token i) (registered c)) c) Hd) as (c' & E & Hs & Hm).
    { intros j Hj Ej. cbn. apply list_elem_of_filter. split; [|apply Hf; [by right|done]].
      intros Et. apply Hi. rewrite <- Et. by apply list_elem_of_fmap_2. }
    exists c'. split_and!; try done. intros t. rewrite Hm. cbn. rewrite list_elem_of_filter. set_solver.
Qed.

Hypothesis few_fds : Z.of_nat nfds ≤ 2 ^ 16.

Lemma queue_token_inj i j : in_u 16 i → in_u 16 j → queue_token i = queue_token j → i = j.
Proof.
  intros Hi Hj E. rewrite <- (wrap_small 16 i), <- (wrap_small 16 j) by done.
  assert (∀ k, wrap 16 k = wrap 16 (queue_token k)) as Hk.
  { intros k. unfold queue_token, TOKEN_QUEUE. bitwise. }
  by rewrite (Hk i), (Hk j), E.
Qed.

Lemma fd_tokens_nodup : NoDup (queue_token <$> fd_indices nfds).
Proof.
  assert (∀ i, i ∈ fd_indices nfds → in_u 16 i) as Hr.
  { intros i Hi. unfold fd_indices in Hi. apply list_elem_of_fmap in Hi as (k & -> & Hk%elem_of_seq).
    unfold in_u. lia. }
  assert (NoDup (fd_indices nfds)) as Hn by (apply NoDup_fmap_2; [apply _|apply NoDup_seq]).
  revert Hn Hr. generalize (fd_indices nfds). intros l. induction 1 as [|i l Hi _ IH]; intros Hr; [constructor|].
  cbn. constructor; [|apply IH; intros; apply Hr; by right]. intros (j & Et & Hj)%list_elem_of_fmap.
  apply Hi. rewrite (queue_token_inj i j); [done|apply Hr; by left|apply Hr; by right|done].
Qed.

(** ** Waiting for the start *)

Lemma wait_events_life evs c c' w :
  cx_state c = WPending → wait_events evs c = (c', w) →
  ∃ past, registered c' = registered c ∧ life (IWake <$> past) (WPending, cx_dev c) = ((WPending, cx_dev c'), Ok tt) ∧
    match w with
    | Started f => evs = past ++ WakeStart f :: event_rx c' ∧ cx_state c' = WRunning
    | Ended => evs = past ++ WakeShutdown :: event_rx c' ∧ cx_state c' = WShutdown
    | Blocked => evs = past ∧ event_rx c' = [] ∧ cx_state c' = WPending
    end.
Proof.
  revert c. induction evs as [|ev evs IH]; intros c Hs E; cbn in E.
  { injection E as <- <-. by exists []. }
  destruct ev as [q| | |f|].
  - apply IH in E as (past & Hr & El & Hw); [|done]. exists (WakeNotify q :: past). split_and!; [done|done|].
    destruct w; naive_solver.
  - injection E as <- <-. by exists [].
  - apply IH in E as (past & Hr & El & Hw); [|done]. exists (WakeVuChannel :: past). split_and!; [done|done|].
    destruct w; naive_solver.
  - injection E as <- <-. by exists [].
  - apply IH in E as (past & Hr & El & Hw); [|done]. exists (WakeReset :: past). split_and!; [done|done|].
    destruct w; naive_solver.
Qed.

Lemma wakes_of_wake evs : wakes_of (IWake <$> evs) = evs.
Proof. induction evs as [|e evs IH]; cbn; [done|]. by f_equal. Qed.

Lemma wait_start_life rounds c c' w rest :
  cx_state c = WPending → wait_start rounds c = (c', w, rest) →
  ∃ past ins, rounds = past ++ rest ∧ registered c' = registered c ∧
    life ins (WPending, cx_dev c) = ((WPending, cx_dev c'), Ok tt) ∧
    match w with
    | Started f => event_rx c ++ arrivals past = wakes_of ins ++ WakeStart f :: event_rx c' ∧ cx_state c' = WRunning
    | Ended => event_rx c ++ arrivals past = wakes_of ins ++ WakeShutdown :: event_rx c' ∧ cx_state c' = WShutdown
    | Blocked => event_rx c ++ arrivals past = wakes_of ins ∧ event_rx c' = [] ∧ cx_state c' = WPending ∧ rest = []
    end.
Proof.
  revert c. induction rounds as [|rd rounds IH]; intros c Hs E; cbn [wait_start] in E;
    destruct (wait_events (event_rx c) c) as [c1 w1] eqn:E1;
    apply wait_events_life in E1 as (evs & Hr & El & Hw); try done;
    (destruct w1 as [f| |]; [injection E as <- <- <-; exists [], (IWake <$> evs);
       unfold arrivals; cbn; rewrite wakes_of_wake, app_nil_r; destruct Hw as [-> ?]; done..|]); destruct Hw as (Hev & Hrx & Hst).
  - injection E as <- <- <-. exists [], (IWake <$> evs). unfold arrivals. cbn. rewrite wakes_of_wake, app_nil_r. done.
  - apply IH in E as (past & ins & -> & Hr2 & El2 & Hw2); [|done]. exists (rd :: past), ((IWake <$> evs) ++ ins).
    split; [done|]. split; [by rewrite Hr2|]. split; [by rewrite (life_app _ _ _ _ El)|].
    rewrite wakes_of_app, wakes_of_wake, Hev. cbn in Hw2. rewrite Hrx in Hw2. unfold arrivals in *. cbn.
    destruct w; rewrite <- ?app_assoc; [..|]; (split; [f_equal; by apply Hw2|by apply Hw2]).
Qed.

(** ** A session, from start to reset *)

Lemma event_loop_life rounds feature qs c c' ret rest :
  cx_state c = WRunning → registered c = [] → build_queues feature (regs (cx_dev c)) r = Ok qs →
  event_loop nfds rounds feature qs c = (c', ret, rest) →
  ∃ past ins, rounds = past ++ rest ∧ event_rx c ++ arrivals past = wakes_of ins ++ event_rx c' ∧
    (cx_state c' = WRunning ↔ ret ≠ Some (Ok tt)) ∧ (ret = Some (Ok tt) → registered c' = []) ∧
    life (IWake (WakeStart feature) :: ins) (WPending, cx_dev c) = (settled c', default (Ok tt) ret).
Proof.
  intros Hs Hreg Hq E. unfold event_loop, sbind, on_dev in E. cbn [life life_step]. unfold start. rewrite Hq. unfold run_op.
  destruct (mio_activate feature qs (cx_dev c)) as [x ra] eqn:Ea. destruct ra as [[]|err|].
  2-3: injection E as <- <- <-; exists [], []; cbn; rewrite app_nil_r; split_and!; try done;
       unfold settled; cbn; rewrite Hs; done.
  set (c0 := mkContext x _ _ _ _) in E.
  destruct (register_all (fd_indices nfds) c0 fd_tokens_nodup) as (c1 & E1 & (Hd1 & Hrx1 & Hs1 & _) & Hm1).
  { intros i _. cbn. rewrite Hreg. set_solver. }
  rewrite E1 in E. clear E1.
  destruct (poll_loop rounds c1) as [[c2 ret2] rest2] eqn:E2.
  apply poll_loop_life in E2 as (past & ins & -> & Ei & Hr2 & Hx2 & _ & El2); [|by rewrite Hs1].
  rewrite Hd1, Hrx1 in *. cbn [c0 cx_dev event_rx] in *. destruct ret2 as [[[]|err|]|].
  2-4: injection E as <- <- <-; exists past, ins; split_and!; done.
  destruct (deregister_all (fd_indices nfds) c2 fd_tokens_nodup) as (c3 & E3 & (Hd3 & Hrx3 & Hs3 & _) & Hm3).
  { intros i Hi Ho. rewrite Hr2. apply Hm1. right. eauto. }
  rewrite E3 in E. injection E as <- <- <-. exists past, ins. rewrite Hrx3, Hs3. split_and!; try done.
  - intros _. destruct (registered c3) as [|t l] eqn:Er; [done|]. exfalso.
    destruct (proj1 (Hm3 t)) as [Ht Hn]; [by left|]. rewrite Hr2 in Ht. apply Hm1 in Ht as [Ht|(j & Hj & Ho & ->)].
    + cbn in Ht. rewrite Hreg in Ht. set_solver.
    + by eapply Hn.
  - unfold settled. by rewrite Hs3, Hd3.
Qed.

Lemma loop_life rounds c c' ret rest :
  cx_state c = WPending → registered c = [] → loop_until_reset regs r nfds rounds c = (c', ret, rest) →
  ∃ past ins, rounds = past ++ rest ∧ event_rx c ++ arrivals past = wakes_of ins ++ event_rx c' ∧
    (ret = Some (Ok tt) → registered c' = [] ∧ cx_state c' ≠ WRunning) ∧
    ∃ s, life ins (WPending, cx_dev c) = (s, default (Ok tt) ret) ∧ s.2 = cx_dev c' ∧
      (default (Ok tt) ret = Ok tt → s.1 = cx_state c').
Proof.
  intros Hs Hreg E. unfold loop_until_reset in E.
  destruct (wait_start rounds c) as [[c1 w] rest1] eqn:Ew.
  apply wait_start_life in Ew as (past1 & ins1 & -> & Hr1 & El1 & Hw); [|done].
  destruct w as [f| |].
  - destruct Hw as [Ei1 Hs1]. assert (registered c1 = []) as Hreg1 by congruence.
    destruct (build_queues f (regs (cx_dev c1)) r) as [qs|e|] eqn:Eq.
    + destruct (event_loop nfds rest1 f qs c1) as [[c2 ret2] rest2] eqn:E2.
      apply event_loop_life in E2 as (past2 & ins2 & -> & Ei2 & Hx & Hr2 & El2); try done.
      assert (event_rx c ++ arrivals (past1 ++ past2) =
        wakes_of (ins1 ++ IWake (WakeStart f) :: ins2) ++ event_rx c2) as Hev.
      { unfold arrivals in *. rewrite fmap_app, join_app, app_assoc, Ei1, wakes_of_app, <- !app_assoc. cbn. by rewrite Ei2. }
      destruct ret2 as [[[]|err|]|]; injection E as <- <- <-; exists (past1 ++ past2), (ins1 ++ IWake (WakeStart f) :: ins2);
        rewrite <- app_assoc, (life_app _ _ _ _ El1), El2; split_and!; try done.
      * intros _. split; [by apply Hr2|]. cbn. rewrite Hx. naive_solver.
      * eexists. split; [done|]. unfold settled. cbn. rewrite bool_decide_eq_false_2; [done|]. rewrite Hx. naive_solver.
      * eexists. split; [done|]. unfold settled. cbn. rewrite bool_decide_eq_true_2; [done|]. by rewrite Hx.
      * eexists. split; [done|]. unfold settled. cbn. rewrite bool_decide_eq_true_2; [done|]. by rewrite Hx.
      * eexists. split; [done|]. unfold settled. cbn. rewrite bool_decide_eq_true_2; [done|]. by rewrite Hx.
    + injection E as <- <- <-. exists past1, (ins1 ++ [IWake (WakeStart f)]). rewrite (life_app _ _ _ _ El1).
      rewrite wakes_of_app, <- app_assoc. split_and!; try done. cbn. unfold start. rewrite Eq. by eexists.
    + injection E as <- <- <-. exists past1, (ins1 ++ [IWake (WakeStart f)]). rewrite (life_app _ _ _ _ El1).
      rewrite wakes_of_app, <- app_assoc. split_and!; try done. cbn. unfold start. rewrite Eq. by eexists.
  - destruct Hw as [Ei1 Hs1]. injection E as <- <- <-. exists past1, (ins1 ++ [IWake WakeShutdown]).
    rewrite (life_app _ _ _ _ El1), wakes_of_app, <- app_assoc. split_and!; try done.
    + intros _. split; [congruence|]. by rewrite Hs1.
    + cbn. eexists. split; [done|]. by rewrite Hs1.
  - destruct Hw as (Ei1 & Hrx & Hs1 & ->). injection E as <- <- <-. exists past1, ins1. rewrite Hrx, !app_nil_r, Hs1.
    split_and!; try done. by eexists.
Qed.

Lemma do_work_life fuel rounds c c' ret :
  cx_state c ≠ WRunning → registered c = [] → do_work regs r nfds fuel rounds c = (c', ret) →
  ∃ past rest ins s res, rounds = past ++ rest ∧ event_rx c ++ arrivals past = wakes_of ins ++ event_rx c' ∧
    life ins (cx_state c, cx_dev c) = (s, res) ∧ s.2 = cx_dev c' ∧
    (ret = Some false ↔ res ≠ Ok tt) ∧ (res = Ok tt → s.1 = cx_state c') ∧ (ret = Some true → s.1 = WShutdown).
Proof.
  revert rounds c. induction fuel as [|fuel IH]; intros rounds c Hs Hreg E; cbn [do_work] in E.
  { injection E as <- <-. exists [], rounds, [], (cx_state c, cx_dev c), (Ok tt). cbn. rewrite app_nil_r. done. }
  case_bool_decide as Hd.
  { injection E as <- <-. exists [], rounds, [], (cx_state c, cx_dev c), (Ok tt). cbn. rewrite app_nil_r. done. }
  assert (cx_state c = WPending) as Hp by (by destruct (cx_state c)).
  destruct (loop_until_reset regs r nfds rounds c) as [[c1 ret1] rest1] eqn:El.
  apply loop_life in El as (past1 & ins1 & -> & Ei1 & Hok & s1 & El1 & Hd1 & Hst1); [|done|done].
  rewrite Hp. destruct ret1 as [[[]|e|]|]; cbn in El1, Hst1.
  - destruct (Hok eq_refl) as [Hreg1 Hs1].
    apply IH in E as (past2 & rest2 & ins2 & s2 & res & -> & Ei2 & El2 & Hd2 & Hb & Hst2 & Hsh); [|done|done].
    exists (past1 ++ past2), rest2, (ins1 ++ ins2), s2, res. split; [by rewrite app_assoc|]. split.
    { unfold arrivals in *. by rewrite fmap_app, join_app, app_assoc, Ei1, wakes_of_app, <- !app_assoc, Ei2. }
    split; [|done]. rewrite (life_app _ _ _ _ El1). rewrite <- El2. f_equal. destruct s1. cbn in *.
    by rewrite (Hst1 eq_refl), Hd1.
  - injection E as <- <-. exists past1, rest1, ins1, s1, (Err e). done.
  - injection E as <- <-. exists past1, rest1, ins1, s1, Panic. done.
  - injection E as <- <-. exists past1, rest1, ins1, s1, (Ok tt). done.
Qed.

(** The worker thread refines the device's lifecycle: whatever arrives on its channel and
    becomes ready, and however the polls batch it, the thread has consumed a prefix of the
    channel in order, each event once, and the device is in the state the lifecycle machine
    reaches on what was consumed; the thread ends only after a shutdown or with the error the
    machine meets. *)
Theorem worker_refines_lifecycle fuel rounds x c' ret :
  do_work regs r nfds fuel rounds (spawned x) = (c', ret) →
  ∃ past rest ins s res, rounds = past ++ rest ∧ arrivals past = wakes_of ins ++ event_rx c' ∧
    life ins (WPending, x) = (s, res) ∧ s.2 = cx_dev c' ∧
    (ret = Some false ↔ res ≠ Ok tt) ∧ (res = Ok tt → s.1 = cx_state c') ∧ (ret = Some true → s.1 = WShutdown).
Proof. intros E. by eapply (do_work_life fuel rounds (spawned x)). Qed.

(** ** No event is left behind *)

Definition calm (rd : round Ev) : Prop := (length (arrived rd) ≤ 1)%nat.
(** The transport's discipline from a state on: [Start] and [Reset] alternate. *)
Definition alternates (running : bool) (evs : list WakeEvent) : Prop := is_Some (foldl worker_step (Some running) evs).

Lemma worker_step_None evs : foldl worker_step None evs = None.
Proof. induction evs; cbn; done. Qed.

Lemma alternates_cons b rd rds :
  calm rd → alternates b (arrivals (rd :: rds)) →
  (arrived rd = [] ∧ alternates b (arrivals rds)) ∨
  (∃ ev b', arrived rd = [ev] ∧ worker_step (Some b) ev = Some b' ∧ alternates b' (arrivals rds)).
Proof.
  intros Hc Ha. unfold calm in Hc. unfold alternates, arrivals in *. cbn [fmap list_fmap mjoin list_join] in Ha.
  destruct (arrived rd) as [|ev [|]]; [by left| |cbn in Hc; lia]. right. exists ev.
  change (is_Some (foldl worker_step (worker_step (Some b) ev) (mjoin (arrived <$> rds)))) in Ha.
  destruct (worker_step (Some b) ev) as [b'|]; [by exists b'|]. rewrite worker_step_None in Ha. by destruct Ha.
Qed.

(** With an empty channel only the device's own sources are served. *)
Lemma handle_events_quiet es c c' res :
  event_rx c = [] → handle_events es c = (c', res) → event_rx c' = [] ∧ cx_state c' = cx_state c.
Proof.
  revert c. induction es as [|e es IH]; intros c Hrx E; cbn in E; [by injection E as <- <-|].
  assert (∀ c1 r1, handle_event e c = (c1, r1) → event_rx c1 = [] ∧ cx_state c1 = cx_state c) as Hone.
  { intros c1 r1 E1. assert (handle_wake_events c = (c1, r1) → event_rx c1 = [] ∧ cx_state c1 = cx_state c) as Hw.
    { unfold handle_wake_events. rewrite Hrx. by intros [= <- _]. }
    destruct e as [|ev]; cbn in E1; [by apply Hw|]. case_match; [by apply Hw|].
    unfold on_dev in E1. destruct (active_handle_event ev (cx_dev c)). by injection E1 as <- _. }
  destruct (handle_event e c) as [c1 [[]|err|]] eqn:E1; destruct (Hone _ _ eq_refl) as [H1 H2]; [|by simplify_eq..].
  case_bool_decide; [|by simplify_eq]. destruct (IH c1 H1 E) as [? ->]. done.
Qed.

Definition running_in (st : WorkerState) : bool := bool_decide (st = WRunning).

Lemma wake_one ev b c c' :
  worker_step (Some true) ev = Some b → cx_state c = WRunning → event_rx c = [ev] →
  handle_wake_events c = (c', Ok tt) →
  event_rx c' = [] ∧ (cx_state c' ≠ WShutdown → b = running_in (cx_state c')).
Proof.
  intros Hw Hs Hrx. unfold handle_wake_events. rewrite Hrx. cbn.
  destruct ev as [q| | |f|]; cbn in Hw; simplify_eq; try (intros [= <-]; cbn; unfold running_in; rewrite ?Hs; done).
  unfold on_dev. destruct (mio_handle_queue q (cx_dev c)) as [x [[]| |]]; intros [= <-]. cbn. unfold running_in. by rewrite Hs.
Qed.

Lemma poll_loop_drains rounds c c' ret rest :
  cx_state c = WRunning → event_rx c = [] → Forall calm rounds → alternates true (arrivals rounds) →
  poll_loop rounds c = (c', ret, rest) → default (Ok tt) ret = Ok tt →
  event_rx c' = [] ∧ Forall calm rest ∧ (length rest ≤ length rounds)%nat ∧
  (cx_state c' = WPending → alternates false (arrivals rest) ∧ (length rest < length rounds)%nat).
Proof.
  revert c. induction rounds as [|rd rounds IH]; intros c Hs Hrx Hc Ha E Hok; cbn [poll_loop] in E.
  { injection E as <- <- <-. rewrite Hs. done. }
  apply Forall_cons in Hc as [Hc1 Hc]. unfold poll_ready in E. set (c1 := mkContext _ _ _ _ false) in E.
  set (es := (if edge _ then _ else _) ++ _) in E. destruct (handle_events es c1) as [c2 r2] eqn:E2.
  assert (∀ b, event_rx c2 = [] → alternates b (arrivals rounds) → (cx_state c2 ≠ WShutdown → b = running_in (cx_state c2)) →
    (r2 = Ok true → cx_state c2 = WRunning) →
    event_rx c' = [] ∧ Forall calm rest ∧ (length rest ≤ length (rd :: rounds))%nat ∧
    (cx_state c' = WPending → alternates false (arrivals rest) ∧ (length rest < length (rd :: rounds))%nat)) as Hfin.
  { intros b Hrx2 Hab Hst Hr. destruct r2 as [[]|err|]; [|injection E as <- <- <-..]; try done.
    - assert (b = true) as -> by (rewrite (Hr eq_refl) in Hst; by apply Hst).
      destruct (IH c2) as (? & ? & ? & Hp); [by apply Hr|done|done|done|done|done|]. split_and!; try done; cbn; [lia|].
      intros [? ?]%Hp. split; [done|lia].
    - split_and!; try done; cbn; [lia|]. intros Hp. rewrite Hp in Hst. split; [|lia]. rewrite (Hst ltac:(done)) in Hab. done. }
  assert (r2 = Ok true → cx_state c2 = WRunning) as Hr2.
  { intros ->. apply handle_events_life in E2 as (_ & _ & _ & _ & Hx & _); [|done]. by apply Hx. }
  apply alternates_cons in Ha as [[Ear Ha]|(ev & b & Ear & Hw & Ha)]; [|..|done].
  - destruct (handle_events_quiet es c1 c2 r2) as [Hrx2 Hs2]; [cbn; by rewrite Hrx, Ear|done|].
    apply (Hfin true); [done|done| |done]. intros _. rewrite Hs2. cbn. unfold running_in. by rewrite Hs.
  - assert (edge c || existsb rings [ev] = true) as He.
    { destruct ev; cbn in *; rewrite ?orb_true_r; done. }
    assert (∃ tl, es = Worker :: tl) as [tl Ees].
    { unfold es. cbn -[existsb]. rewrite Ear, He. by eexists. }
    rewrite Ees in E2. cbn [handle_events handle_event] in E2.
    destruct (handle_wake_events c1) as [c3 r3] eqn:E3. destruct r3 as [[]|err|]; [|by simplify_eq; naive_solver..].
    destruct (wake_one ev b c1 c3) as [Hrx3 Hst3]; [done|done| |done|].
    { cbn. by rewrite Hrx, Ear. }
    case_bool_decide as Hs3.
    + assert (b = true) as -> by (rewrite Hs3 in Hst3; by apply Hst3).
      destruct (handle_events_quiet tl c3 c2 r2 Hrx3 E2) as [Hrx2 Hs2].
      apply (Hfin true); [done|done| |done]. intros _. by rewrite Hs2, Hs3.
    + injection E2 as <- <-. by apply (Hfin b).
Qed.

Lemma with_rx_nil c : event_rx c = [] → with_rx [] c = c.
Proof. destruct c. cbn. by intros ->. Qed.

Lemma wait_start_skip rounds c c1 :
  wait_events (event_rx c) c = (c1, Blocked) → event_rx c1 = [] → wait_start rounds c = wait_start rounds c1.
Proof.
  intros E H1. assert (wait_events (event_rx c1) c1 = (c1, Blocked)) as E1 by (rewrite H1; cbn; by rewrite with_rx_nil).
  destruct rounds; cbn; by rewrite E, E1.
Qed.

Lemma wait_start_drains rounds c c' w rest :
  cx_state c = WPending → event_rx c = [] → Forall calm rounds → alternates false (arrivals rounds) →
  wait_start rounds c = (c', w, rest) →
  event_rx c' = [] ∧ Forall calm rest ∧ (length rest ≤ length rounds)%nat ∧
  match w with
  | Started _ => cx_state c' = WRunning ∧ alternates true (arrivals rest) ∧ (length rest < length rounds)%nat
  | Ended => cx_state c' = WShutdown
  | Blocked => True
  end.
Proof.
  revert c. induction rounds as [|rd rounds IH]; intros c Hs Hrx Hc Ha E; cbn [wait_start] in E; rewrite Hrx in E; cbn in E.
  { by injection E as <- <- <-. }
  apply Forall_cons in Hc as [Hc1 Hc]. set (c1 := arrive (arrived rd) (with_rx [] c)) in E.
  assert (∀ c2, cx_state c2 = WPending → event_rx c2 = [] → alternates false (arrivals rounds) →
    wait_start rounds c2 = (c', w, rest) →
    event_rx c' = [] ∧ Forall calm rest ∧ (length rest ≤ length (rd :: rounds))%nat ∧
    match w with
    | Started _ => cx_state c' = WRunning ∧ alternates true (arrivals rest) ∧ (length rest < length (rd :: rounds))%nat
    | Ended => cx_state c' = WShutdown
    | Blocked => True
    end) as Hrec.
  { intros c2 Hs2 Hrx2 Ha2 E2. destruct (IH c2 Hs2 Hrx2 Hc Ha2 E2) as (? & ? & ? & Hw). split_and!; try done; cbn; [lia|].
    destruct w; [|done|done]. destruct Hw as (? & ? & ?). split_and!; try done. lia. }
  apply alternates_cons in Ha as [[Ear Ha]|(ev & b & Ear & Hw & Ha)]; [|..|done].
  { apply (Hrec c1); [done|cbn; by rewrite Ear|done|done]. }
  assert (event_rx c1 = [ev]) as Hrx1 by (cbn; by rewrite Ear).
  destruct ev as [q| | |f|]; cbn in Hw; simplify_eq.
  - rewrite (wait_start_skip _ c1 (with_rx [] c1)) in E by (rewrite ?Hrx1; done). by apply (Hrec (with_rx [] c1)).
  - assert (wait_start rounds c1 = (with_rx [] (with_state WShutdown c1), Ended, rounds)) as E1
      by (destruct rounds; cbn [wait_start]; by rewrite Hrx1).
    rewrite E1 in E. injection E as <- <- <-. split_and!; try done. cbn. lia.
  - rewrite (wait_start_skip _ c1 (with_rx [] (on_dev (smodify set_vu_channel) c1).1)) in E by (rewrite ?Hrx1; done).
    by apply (Hrec (with_rx [] (on_dev (smodify set_vu_channel) c1).1)).
  - assert (wait_start rounds c1 = (with_rx [] (with_state WRunning c1), Started f, rounds)) as E1
      by (destruct rounds; cbn [wait_start]; by rewrite Hrx1).
    rewrite E1 in E. injection E as <- <- <-. split_and!; try done; cbn; lia.
Qed.

Lemma event_loop_drains rounds feature qs c c' ret rest :
  cx_state c = WRunning → registered c = [] → event_rx c = [] → Forall calm rounds → alternates true (arrivals rounds) →
  event_loop nfds rounds feature qs c = (c', ret, rest) → default (Ok tt) ret = Ok tt →
  event_rx c' = [] ∧ Forall calm rest ∧ (length rest ≤ length rounds)%nat ∧
  (cx_state c' = WPending → alternates false (arrivals rest) ∧ (length rest < length rounds)%nat).
Proof.
  intros Hs Hreg Hrx Hc Ha E Hok. unfold event_loop, sbind, on_dev in E.
  destruct (mio_activate feature qs (cx_dev c)) as [x ra] eqn:Ea. destruct ra as [[]|err|]; [|by injection E as <- <- <-..].
  set (c0 := mkContext x _ _ _ _) in E.
  destruct (register_all (fd_indices nfds) c0 fd_tokens_nodup) as (c1 & E1 & (Hd1 & Hrx1 & Hs1 & _) & Hm1).
  { intros i _. cbn. rewrite Hreg. set_solver. }
  rewrite E1 in E. destruct (poll_loop rounds c1) as [[c2 ret2] rest2] eqn:E2.
  assert (default (Ok tt) ret2 = Ok tt → event_rx c2 = [] ∧ Forall calm rest2 ∧ (length rest2 ≤ length rounds)%nat ∧
    (cx_state c2 = WPending → alternates false (arrivals rest2) ∧ (length rest2 < length rounds)%nat)) as Hd.
  { apply (poll_loop_drains rounds c1); [by rewrite Hs1|by rewrite Hrx1|done..]. }
  assert (registered c2 = registered c1) as Hr2.
  { destruct (poll_loop_life rounds c1 c2 ret2 rest2) as (? & ? & _ & _ & ? & _); [by rewrite Hs1|done|done]. }
  destruct ret2 as [[[]|err|]|]; [|injection E as <- <- <-; by apply Hd..].
  destruct (deregister_all (fd_indices nfds) c2 fd_tokens_nodup) as (c3 & E3 & (Hd3 & Hrx3 & Hs3 & _) & _).
  { intros i Hi Ho. rewrite Hr2. apply Hm1. right. eauto. }
  rewrite E3 in E. injection E as <- <- <-. rewrite Hrx3, Hs3. by apply Hd.
Qed.

Lemma loop_drains rounds c c' ret rest :
  cx_state c = WPending → registered c = [] → event_rx c = [] → Forall calm rounds → alternates false (arrivals rounds) →
  loop_until_reset regs r nfds rounds c = (c', ret, rest) → default (Ok tt) ret = Ok tt →
  event_rx c' = [] ∧ Forall calm rest ∧
  (ret = Some (Ok tt) → cx_state c' = WPending → alternates false (arrivals rest) ∧ (length rest < length rounds)%nat).
Proof.
  intros Hs Hreg Hrx Hc Ha E Hok. unfold loop_until_reset in E.
  destruct (wait_start rounds c) as [[c1 w] rest1] eqn:Ew.
  pose proof (wait_start_drains _ _ _ _ _ Hs Hrx Hc Ha Ew) as (Hrx1 & Hc1 & Hl1 & Hw).
  apply wait_start_life in Ew as (_ & _ & _ & Hr1 & _); [|done].
  destruct w as [f| |]; [|by injection E as <- <- <-; split_and!; try done; rewrite Hw|by injection E as <- <- <-].
  destruct Hw as (Hs1 & Ha1 & Hl). destruct (build_queues f (regs (cx_dev c1)) r) as [qs|e|]; [|by injection E as <- <- <-..].
  destruct (event_loop nfds rest1 f qs c1) as [[c2 ret2] rest2] eqn:E2.
  assert (default (Ok tt) ret2 = Ok tt → event_rx c2 = [] ∧ Forall calm rest2 ∧ (length rest2 ≤ length rest1)%nat ∧
    (cx_state c2 = WPending → alternates false (arrivals rest2) ∧ (length rest2 < length rest1)%nat)) as Hd.
  { intros Hd. eapply event_loop_drains; try done. congruence. }
  destruct ret2 as [[[]|err|]|]; injection E as <- <- <-; destruct (Hd Hok) as (? & ? & ? & Hp); split_and!; try done.
  intros _ Hp1. destruct (Hp Hp1). split; [done|lia].
Qed.

(** Nothing is left behind: when the transport sends Start and Reset in turns, and the
    thread wakes up for each event before the next one is sent, then every event has been
    consumed whenever the thread waits or has shut down. *)
Theorem worker_drains_channel fuel rounds x c' ret :
  Forall calm rounds → alternates false (arrivals rounds) → (length rounds < fuel)%nat →
  do_work regs r nfds fuel rounds (spawned x) = (c', ret) → ret ≠ Some false → event_rx c' = [].
Proof.
  intros Hc Ha Hf. assert (cx_state (spawned x) ≠ WRunning) as Hs by done.
  assert (registered (spawned x) = []) as Hreg by done. assert (event_rx (spawned x) = []) as Hrx by done.
  assert (cx_state (spawned x) = WPending → alternates false (arrivals rounds) ∧ (length rounds < fuel)%nat) as Hp by done.
  clear Ha Hf. revert Hc Hs Hreg Hrx Hp. generalize (spawned x). revert rounds.
  induction fuel as [|fuel IH]; intros rounds c Hc Hs Hreg Hrx Hp E Hret; cbn [do_work] in E; [by simplify_eq|].
  case_bool_decide as Hd; [by simplify_eq|]. assert (cx_state c = WPending) as Hpend by (by destruct (cx_state c)).
  destruct (Hp Hpend) as [Ha Hf]. destruct (loop_until_reset regs r nfds rounds c) as [[c1 ret1] rest1] eqn:El.
  assert (default (Ok tt) ret1 = Ok tt → event_rx c1 = [] ∧ Forall calm rest1 ∧
    (ret1 = Some (Ok tt) → cx_state c1 = WPending → alternates false (arrivals rest1) ∧ (length rest1 < length rounds)%nat)) as Hl.
  { intros Hok. by eapply loop_drains. }
  apply loop_life in El as (_ & _ & _ & _ & Hok & _); [|done|done].
  destruct ret1 as [[[]|e|]|]; [|by simplify_eq..|injection E as <- <-; by apply Hl].
  destruct (Hl eq_refl) as (Hrx1 & Hc1 & Hp1). destruct (Hok eq_refl) as [Hr1 Hs1].
  apply (IH rest1 c1); try done. intros Hpd. destruct (Hp1 eq_refl Hpd). split; [done|lia].
Qed.
End Life.

(** ** Runs that evaluate *)

Module DemoWorker.
(** A device that records what it is asked for. *)
Inductive call := Activated | Queued (q : Z) | Own (e : Z) | WasReset.
#[export] Instance dev : VirtioMio (list call) Z := {
  ev_token := λ e, e;
  mio_activate := λ _ _ l, (l ++ [Activated], Ok tt);
  mio_handle_queue := λ q l, (l ++ [Queued q], Ok tt);
  mio_handle_event := λ e l, (l ++ [Own e], Ok tt);
  mio_reset := λ l, l ++ [WasReset];
  ioeventfd_offloaded := λ _, Ok false;
  set_vu_channel := λ l, l
}.
Definition session : list (round Z) :=
  [mkRound [WakeStart 0] []; mkRound [WakeNotify 3] [queue_token 1]; mkRound [WakeReset] []].
Definition run (rounds : list (round Z)) := do_work (X := list call) (λ _, []) [] 2 10 rounds (spawned []).
End DemoWorker.
Import (hints) DemoWorker.

Lemma worker_refines_lifecycle_witness :
  let '(c, ret) := DemoWorker.run DemoWorker.session in
  ret = None ∧ ∃ ins s res, life (X := list DemoWorker.call) (Ev := Z) (λ _, []) [] ins (WPending, []) = (s, res) ∧ s.2 = cx_dev c ∧
    cx_dev c = [DemoWorker.Activated; DemoWorker.Queued 3; DemoWorker.Queued 1; DemoWorker.WasReset].
Proof.
  destruct (DemoWorker.run DemoWorker.session) as [c ret] eqn:E. pose proof E as E'. vm_compute in E'.
  destruct (worker_refines_lifecycle (Ev := Z) (λ _ : list DemoWorker.call, []) [] 2 ltac:(by eexists) ltac:(lia) 10
    DemoWorker.session [] c ret E) as (past & rest & ins & s & res & _ & _ & El & Ed & _).
  injection E' as <- <-. split; [reflexivity|]. exists ins, s, res. split; [exact El|]. split; [exact Ed|]. reflexivity.
Defined.

Lemma worker_drains_channel_witness :
  let '(c, ret) := DemoWorker.run DemoWorker.session in event_rx c = [].
Proof.
  destruct (DemoWorker.run DemoWorker.session) as [c ret] eqn:E.
  eapply (worker_drains_channel (Ev := Z) (λ _ : list DemoWorker.call, []) [] 2 ltac:(by eexists) ltac:(lia) 10
    DemoWorker.session []).
  - repeat constructor.
  - by exists false.
  - cbn. lia.
  - exact E.
  - vm_compute in E. by injection E as _ <-.
Defined.

(** When the driver resets the device, starts it again and notifies a queue before the thread
    wakes up, one report of the notifier stands for all of it: the thread stops draining at
    the reset, starts again, and waits in the poller with the notification still in its
    channel. *)
Lemma worker_lost_wakeup :
  let '(c, ret) := DemoWorker.run [mkRound [WakeStart 0] []; mkRound [WakeReset; WakeStart 0; WakeNotify 3] [];
                                   mkRound [] []; mkRound [] []] in
  ret = None ∧ cx_state c = WRunning ∧ event_rx c = [WakeNotify 3] ∧ edge c = false.
Proof. by vm_compute. Qed.
