(* ===== verification/KvmVm.v ===== *)
(** * A virtual machine on KVM: hv/kvm/vm/vm.rs and its per-architecture parts

    The structures given to the [ioctl]s (sys/linux/kvm.rs), the state [VmInner] that
    the memory, the interrupt senders and the vCPUs of a machine share, the
    interrupt file descriptors with their GSI routing table, the pins, the
    ioeventfds, and the creation of a machine on x86_64.

    The kernel is a parameter: [K] is its state and the class [KvmKernel] has one
    operation per system call of the source; a call returns whether it succeeded.
    [HashIter] is the unspecified order in which a [HashMap] is walked.  Locks and
    atomics are one step each, and arithmetic on [u32] wraps. *)

From S2P Require Import Prelude Utils MemTypes IoApic.

Open Scope stm_scope.

(** ** sys/linux/kvm.rs: what the system calls are given *)

Module KvmMemFlag.
Definition LOG_DIRTY_PAGES : Z := Z.shiftl 1 0.
Definition READONLY : Z := Z.shiftl 1 1.
Definition GUEST_MEMFD : Z := Z.shiftl 1 2.
End KvmMemFlag.

(** [KvmUserspaceMemoryRegion2]; a [KvmUserspaceMemoryRegion] has no [guest_memfd]. *)
Record KvmUserspaceMemoryRegion := mkKvmRegion {
  kr_slot : Z;
  kr_flags : Z;
  kr_guest_phys_addr : Z;
  kr_memory_size : Z;
  kr_userspace_addr : Z;
  kr_guest_memfd : option (Z * Z)    (* the descriptor and the offset in it *)
}.

Module KvmMemoryAttribute.
Definition PRIVATE : Z := Z.shiftl 1 3.
End KvmMemoryAttribute.

Record KvmMemoryAttributes := mkKvmAttrs {
  ka_address : Z;
  ka_size : Z;
  ka_attributes : Z;
  ka_flags : Z
}.

Module KvmIrqfdFlag.
Definition DEASSIGN : Z := Z.shiftl 1 0.
End KvmIrqfdFlag.

Record KvmIrqfd := mkKvmIrqfd { ki_fd : Z; ki_gsi : Z; ki_flags : Z }.

Definition KVM_IRQ_ROUTING_IRQCHIP : Z := 1.
Definition KVM_IRQ_ROUTING_MSI : Z := 2.
Definition KVM_IRQCHIP_IOAPIC : Z := 2.

Record KvmIrqRoutingMsi := mkRoutingMsi {
  rm_address_lo : Z;
  rm_address_hi : Z;
  rm_data : Z;
  rm_devid : Z
}.

(** The union [KvmIrqRoutingType], with the tag [type_] that selects the member. *)
Inductive KvmIrqRoutingType :=
| RoutingIrqchip (irqchip pin : Z)
| RoutingMsi (msi : KvmIrqRoutingMsi).

Definition routing_type (r : KvmIrqRoutingType) : Z :=
  match r with RoutingIrqchip _ _ => KVM_IRQ_ROUTING_IRQCHIP | RoutingMsi _ => KVM_IRQ_ROUTING_MSI end.

Record KvmIrqRoutingEntry := mkRoutingEntry {
  re_gsi : Z;
  re_flags : Z;
  re_routing : KvmIrqRoutingType
}.

Module KvmMsiFlag.
Definition VALID_DEVID : Z := Z.shiftl 1 0.
End KvmMsiFlag.

Record KvmMsi := mkKvmMsi {
  km_address_lo : Z;
  km_address_hi : Z;
  km_data : Z;
  km_flags : Z;
  km_devid : Z
}.

Module KvmCap.
Definition IRQFD : Z := 32.
Definition SIGNAL_MSI : Z := 77.
Definition SPLIT_IRQCHIP : Z := 121.
Definition X2APIC_API : Z := 129.
Definition EXIT_HYPERCALL : Z := 201.
Definition X86_APIC_BUS_CYCLES_NS : Z := 237.
End KvmCap.

Module KvmIoEventFdFlag.
Definition DATA_MATCH : Z := Z.shiftl 1 0.
Definition DEASSIGN : Z := Z.shiftl 1 2.
End KvmIoEventFdFlag.

Record KvmIoEventFd := mkKvmIoEventFd {
  kio_datamatch : Z;
  kio_addr : Z;
  kio_len : Z;
  kio_fd : Z;
  kio_flags : Z
}.

(** ** The kernel, the architecture and the order of a [HashMap] *)

Class KvmKernel (K : Type) := {
  kvm_set_user_memory_region : KvmUserspaceMemoryRegion → K → K * bool;
  kvm_set_user_memory_region2 : KvmUserspaceMemoryRegion → K → K * bool;
  kvm_memory_encrypt_reg_region : Z → Z → K → K * bool;
  kvm_memory_encrypt_unreg_region : Z → Z → K → K * bool;
  kvm_set_memory_attributes : KvmMemoryAttributes → K → K * bool;
  kvm_set_gsi_routing : list KvmIrqRoutingEntry → K → K * bool;
  kvm_irqfd : KvmIrqfd → K → K * bool;
  kvm_ioeventfd : KvmIoEventFd → K → K * bool;
  kvm_signal_msi : KvmMsi → K → K * bool;
  kvm_check_extension : Z → K → K * option Z;   (* [None]: the call failed *)
  kvm_enable_cap : Z → Z → K → K * bool;
  sys_eventfd : K → K * option Z;
  sys_write8 : Z → Z → K → K * bool;            (* descriptor, 8-byte value *)
  sys_close : Z → K → K
}.

(** What [cfg(target_arch)] selects in vm.rs. *)
Class KvmArch := {
  arch_irqchip : Z;
  arch_max_pin : nat;
  arch_msi_flags : Z;
  translate_msi_addr : Z → Z → Z * Z
}.

(** vm_x86_64.rs, [translate_msi_addr]: the high bits of a destination id, given in
    the low address word by a guest that uses the extended format, are moved to the
    high address word, where KVM expects them. *)
Definition virt_dest_id_hi (lo : Z) : Z := bits_get lo 11 5.
Definition remappable (lo : Z) : bool := Z.testbit lo 4.
Definition dest_id_hi (hi : Z) : Z := bits_get hi 31 8.

Definition x86_translate_msi_addr (addr_lo addr_hi : Z) : Z * Z :=
  if (virt_dest_id_hi addr_lo =? 0) || remappable addr_lo || negb (dest_id_hi addr_hi =? 0) then
    (addr_lo, addr_hi)
  else
    let addr_hi := bits_set addr_hi 31 8 (virt_dest_id_hi addr_lo) in
    let addr_lo := bits_set addr_lo 11 5 0 in
    (addr_lo, addr_hi).

(** vm_aarch64.rs *)
Definition arm_translate_msi_addr (addr_lo addr_hi : Z) : Z * Z := (addr_lo, addr_hi).

Definition kvm_x86_64 : KvmArch := {|
  arch_irqchip := KVM_IRQCHIP_IOAPIC;
  arch_max_pin := 24;
  arch_msi_flags := 0;
  translate_msi_addr := x86_translate_msi_addr
|}.
Definition kvm_aarch64 : KvmArch := {|
  arch_irqchip := 0;
  arch_max_pin := 32;
  arch_msi_flags := KvmMsiFlag.VALID_DEVID;
  translate_msi_addr := arm_translate_msi_addr
|}.

(** ** [VmInner] *)

(** [devid] is a field of the aarch64 build only; it is 0 on x86_64, where the
    structures of the kernel get 0. *)
Record KvmMsiEntryData := mkMsiEntry {
  me_addr_lo : Z;
  me_addr_hi : Z;
  me_data : Z;
  me_masked : bool;
  me_dirty : bool;
  me_devid : Z
}.

Record VmInner (K : Type) := mkVmInner {
  vm_kernel : K;
  vm_memfd : option Z;
  vm_ioeventfds : gmap Z KvmIoEventFd;
  vm_msi_table : gmap Z KvmMsiEntryData;
  vm_next_msi_gsi : Z;
  vm_pin_map : Z
}.
Arguments mkVmInner {K} _ _ _ _ _ _.
Arguments vm_kernel {K} _.
Arguments vm_memfd {K} _.
Arguments vm_ioeventfds {K} _.
Arguments vm_msi_table {K} _.
Arguments vm_next_msi_gsi {K} _.
Arguments vm_pin_map {K} _.

Definition VmInner_new {K} (k : K) (memfd : option Z) : VmInner K := mkVmInner k memfd ∅ ∅ 0 0.

Definition MAX_GSI_ROUTES : Z := 256.

(** The descriptors the objects handed out by a machine own. *)
Record KvmIrqFd := mkIrqFd { irqfd_event_fd : Z; irqfd_gsi : Z }.
Record KvmIrqSender := mkIrqSender { sender_pin : Z; sender_event_fd : Z }.
Record KvmMsiSender := mkMsiSender { msi_devid : Z }.
Record KvmIoeventFd := mkIoeventFd { ioeventfd_fd : Z }.

Section VmInner.
Context {K : Type} `{KvmKernel K} `{KvmArch} `{HashIter}.
Abbreviation vm := (VmInner K).
Abbreviation M := (stm (VmInner K) hv_error).

Definition set_kernel (k : K) (v : vm) : vm :=
  mkVmInner k (vm_memfd v) (vm_ioeventfds v) (vm_msi_table v) (vm_next_msi_gsi v) (vm_pin_map v).
Definition set_ioeventfds x (v : vm) : vm :=
  mkVmInner (vm_kernel v) (vm_memfd v) x (vm_msi_table v) (vm_next_msi_gsi v) (vm_pin_map v).
Definition set_msi_table x (v : vm) : vm :=
  mkVmInner (vm_kernel v) (vm_memfd v) (vm_ioeventfds v) x (vm_next_msi_gsi v) (vm_pin_map v).
Definition set_next_msi_gsi x (v : vm) : vm :=
  mkVmInner (vm_kernel v) (vm_memfd v) (vm_ioeventfds v) (vm_msi_table v) x (vm_pin_map v).
Definition set_pin_map x (v : vm) : vm :=
  mkVmInner (vm_kernel v) (vm_memfd v) (vm_ioeventfds v) (vm_msi_table v) (vm_next_msi_gsi v) x.

(** A system call whose failure becomes [e], one whose failure is logged. *)
Definition syscall (f : K → K * bool) (e : hv_error) : M unit := λ v,
  let r := f (vm_kernel v) in (set_kernel (fst r) v, if snd r then Ok tt else Err e).
Definition syscall_logged (f : K → K * bool) : M unit := λ v,
  (set_kernel (fst (f (vm_kernel v))) v, Ok tt).
Definition syscall_val {A} (f : K → K * option A) (e : hv_error) : M A := λ v,
  let r := f (vm_kernel v) in
  (set_kernel (fst r) v, match snd r with Some a => Ok a | None => Err e end).
Definition close_fd (fd : Z) : M unit := smodify (λ v, set_kernel (sys_close fd (vm_kernel v)) v).

(** *** The GSI routing table *)

Definition pin_set (pin_map : Z) (pin : nat) : bool :=
  negb (Z.land pin_map (Z.shiftl 1 (Z.of_nat pin)) =? 0).

Definition pin_entries (pin_map : Z) : list KvmIrqRoutingEntry :=
  (λ pin, mkRoutingEntry (Z.of_nat pin) 0 (RoutingIrqchip arch_irqchip (Z.of_nat pin))) <$>
  filter (λ pin, pin_set pin_map pin = true) (seq 0 arch_max_pin).

Definition msi_route (entry : KvmMsiEntryData) : KvmIrqRoutingMsi :=
  let '(lo, hi) := translate_msi_addr (me_addr_lo entry) (me_addr_hi entry) in
  mkRoutingMsi lo hi (me_data entry) (me_devid entry).
Definition msi_entry (gsi : Z) (entry : KvmMsiEntryData) : KvmIrqRoutingEntry :=
  mkRoutingEntry gsi arch_msi_flags (RoutingMsi (msi_route entry)).

Definition msi_entries (table : gmap Z KvmMsiEntryData) : list KvmIrqRoutingEntry :=
  (λ '(gsi, entry), msi_entry gsi entry) <$>
  filter (λ '(gsi, entry), me_masked entry = false) (hash_iter table).

Definition routing_entries (pin_map : Z) (table : gmap Z KvmMsiEntryData) : list KvmIrqRoutingEntry :=
  pin_entries pin_map ++ msi_entries table.

(** Writing past the array of [MAX_GSI_ROUTES] entries panics. *)
Definition update_routing_table (table : gmap Z KvmMsiEntryData) : M unit :=
  v <- sget ;;
  let entries := routing_entries (vm_pin_map v) table in
  if MAX_GSI_ROUTES <? Z.of_nat (length entries) then spanic
  else syscall (kvm_set_gsi_routing entries) KvmErr.

Definition check_extension (cap : Z) : M Z :=
  ret <- syscall_val (kvm_check_extension cap) KvmErr ;;
  if ret =? 0 then sfail Capability else sret ret.

Definition enable_cap (cap arg0 : Z) : M unit := syscall (kvm_enable_cap cap arg0) KvmErr.

(** *** [KvmIrqFd] *)

Definition assign_irqfd (h : KvmIrqFd) : M unit :=
  syscall (kvm_irqfd (mkKvmIrqfd (irqfd_event_fd h) (irqfd_gsi h) 0)) IrqFdErr.
Definition deassign_irqfd (h : KvmIrqFd) : M unit :=
  syscall (kvm_irqfd (mkKvmIrqfd (irqfd_event_fd h) (irqfd_gsi h) KvmIrqfdFlag.DEASSIGN)) IrqFdErr.

(** The fields of [impl_irqfd_method!]. *)
Inductive msi_field := FieldAddrLo | FieldAddrHi | FieldData.

Definition get_field (f : msi_field) (e : KvmMsiEntryData) : Z :=
  match f with FieldAddrLo => me_addr_lo e | FieldAddrHi => me_addr_hi e | FieldData => me_data e end.
Definition set_field (f : msi_field) (val : Z) (e : KvmMsiEntryData) : KvmMsiEntryData :=
  match f with
  | FieldAddrLo => mkMsiEntry val (me_addr_hi e) (me_data e) (me_masked e) (me_dirty e) (me_devid e)
  | FieldAddrHi => mkMsiEntry (me_addr_lo e) val (me_data e) (me_masked e) (me_dirty e) (me_devid e)
  | FieldData => mkMsiEntry (me_addr_lo e) (me_addr_hi e) val (me_masked e) (me_dirty e) (me_devid e)
  end.
Definition set_dirty (e : KvmMsiEntryData) : KvmMsiEntryData :=
  mkMsiEntry (me_addr_lo e) (me_addr_hi e) (me_data e) (me_masked e) true (me_devid e).
Definition set_mask (val : bool) (e : KvmMsiEntryData) : KvmMsiEntryData :=
  mkMsiEntry (me_addr_lo e) (me_addr_hi e) (me_data e) val (me_dirty e) (me_devid e).

(** [unreachable!] when the GSI is not in the table. *)
Definition table_entry (gsi : Z) : M KvmMsiEntryData :=
  v <- sget ;;
  match vm_msi_table v !! gsi with Some e => sret e | None => spanic end.

Definition KvmIrqFd_get (f : msi_field) (h : KvmIrqFd) : M Z :=
  entry <- table_entry (irqfd_gsi h) ;; sret (get_field f entry).

Definition store_entry (gsi : Z) (e : KvmMsiEntryData) : M unit :=
  smodify (λ v, set_msi_table (<[gsi := e]> (vm_msi_table v)) v).

Definition KvmIrqFd_set (f : msi_field) (h : KvmIrqFd) (val : Z) : M unit :=
  entry <- table_entry (irqfd_gsi h) ;;
  if get_field f entry =? val then sret tt
  else
    let entry := set_field f val entry in
    store_entry (irqfd_gsi h) entry ;;;
    if negb (me_masked entry) then v <- sget ;; update_routing_table (vm_msi_table v)
    else store_entry (irqfd_gsi h) (set_dirty entry).

Definition get_masked (h : KvmIrqFd) : M bool :=
  entry <- table_entry (irqfd_gsi h) ;; sret (me_masked entry).

Definition set_masked (h : KvmIrqFd) (val : bool) : M bool :=
  entry <- table_entry (irqfd_gsi h) ;;
  if Bool.eqb (me_masked entry) val then sret false
  else
    let entry := set_mask val entry in
    store_entry (irqfd_gsi h) entry ;;;
    (if negb val then
      (if me_dirty entry then v <- sget ;; update_routing_table (vm_msi_table v) else sret tt) ;;;
      assign_irqfd h
    else deassign_irqfd h) ;;;
    sret true.

(** [Drop for KvmIrqFd], and then of its [OwnedFd]. *)
Definition KvmIrqFd_drop (h : KvmIrqFd) : M unit :=
  v <- sget ;;
  match vm_msi_table v !! irqfd_gsi h with
  | None => sret tt
  | Some entry =>
      smodify (λ v, set_msi_table (delete (irqfd_gsi h) (vm_msi_table v)) v) ;;;
      if me_masked entry then sret tt
      else syscall_logged
             (kvm_irqfd (mkKvmIrqfd (irqfd_event_fd h) (irqfd_gsi h) KvmIrqfdFlag.DEASSIGN))
  end ;;;
  close_fd (irqfd_event_fd h).

(** *** [KvmMsiSender] *)

Definition KvmMsiSender_send (s : KvmMsiSender) (addr data : Z) : M unit :=
  let '(lo, hi) := translate_msi_addr (u32 addr) (u32 (Z.shiftr addr 32)) in
  syscall (kvm_signal_msi (mkKvmMsi lo hi data arch_msi_flags (msi_devid s))) SendInterrupt.

(** The loop of [create_irqfd] over the GSIs from [24]; [tries] rounds are left. *)
Fixpoint allocate_gsi (tries : nat) (new_entry : KvmMsiEntryData) : M (option Z) :=
  match tries with
  | O => sret None
  | S tries' =>
      v <- sget ;;
      let gsi := vm_next_msi_gsi v mod (MAX_GSI_ROUTES - 24) + 24 in
      smodify (set_next_msi_gsi (u32 (vm_next_msi_gsi v + 1))) ;;;
      store_entry gsi new_entry ;;;
      match vm_msi_table v !! gsi with
      | Some e => store_entry gsi e ;;; allocate_gsi tries' new_entry
      | None => sret (Some gsi)
      end
  end.

Definition create_irqfd (s : KvmMsiSender) : M KvmIrqFd :=
  event_fd <- syscall_val sys_eventfd IrqFdErr ;;
  allocated_gsi <- allocate_gsi (Z.to_nat (MAX_GSI_ROUTES - 24))
                     (mkMsiEntry 0 0 0 true false (msi_devid s)) ;;
  match allocated_gsi with
  | None => close_fd event_fd ;;; sfail KvmErr
  | Some gsi => sret (mkIrqFd event_fd gsi)
  end.

(** *** The ioeventfds *)

Definition ioeventfd_create : M KvmIoeventFd :=
  fd <- syscall_val sys_eventfd IoeventFdErr ;; sret (mkIoeventFd fd).

Definition ioeventfd_request (fd : KvmIoeventFd) (gpa len : Z) (data : option Z) : KvmIoEventFd :=
  match data with
  | Some d => mkKvmIoEventFd d gpa len (ioeventfd_fd fd) KvmIoEventFdFlag.DATA_MATCH
  | None => mkKvmIoEventFd 0 gpa len (ioeventfd_fd fd) 0
  end.

Definition ioeventfd_register (fd : KvmIoeventFd) (gpa len : Z) (data : option Z) : M unit :=
  let request := ioeventfd_request fd gpa len data in
  syscall (kvm_ioeventfd request) IoeventFdErr ;;;
  smodify (λ v, set_ioeventfds (<[kio_fd request := request]> (vm_ioeventfds v)) v).

Definition deassign_request (r : KvmIoEventFd) : KvmIoEventFd :=
  mkKvmIoEventFd (kio_datamatch r) (kio_addr r) (kio_len r) (kio_fd r)
    (Z.lor (kio_flags r) KvmIoEventFdFlag.DEASSIGN).

Definition ioeventfd_deregister (fd : KvmIoeventFd) : M unit :=
  v <- sget ;;
  match vm_ioeventfds v !! ioeventfd_fd fd with
  | None => sret tt
  | Some request =>
      smodify (λ v, set_ioeventfds (delete (ioeventfd_fd fd) (vm_ioeventfds v)) v) ;;;
      syscall (kvm_ioeventfd (deassign_request request)) IoeventFdErr
  end.

(** *** Pins: [KvmVm::create_irq_sender] and [KvmIrqSender] *)

(** [1u32 << pin]: the shift amount is taken modulo 32. *)
Definition pin_flag (pin : Z) : Z := u32 (Z.shiftl 1 (pin mod 32)).

Definition create_irq_sender (pin : Z) : M KvmIrqSender :=
  v <- sget ;;
  smodify (set_pin_map (Z.lor (vm_pin_map v) (pin_flag pin))) ;;;
  if Z.land (vm_pin_map v) (pin_flag pin) =? pin_flag pin then sfail (CreateIrq pin)
  else
    check_extension KvmCap.IRQFD ;;;
    event_fd <- syscall_val sys_eventfd (CreateIrq pin) ;;
    v <- sget ;;
    update_routing_table (vm_msi_table v) ;;;
    syscall (kvm_irqfd (mkKvmIrqfd event_fd pin 0)) (CreateIrq pin) ;;;
    sret (mkIrqSender pin event_fd).

Definition KvmIrqSender_drop (s : KvmIrqSender) : M unit :=
  smodify (λ v, set_pin_map (Z.land (vm_pin_map v) (bnot 32 (pin_flag (sender_pin s)))) v) ;;;
  syscall_logged (kvm_irqfd (mkKvmIrqfd (sender_event_fd s) (sender_pin s) KvmIrqfdFlag.DEASSIGN)) ;;;
  close_fd (sender_event_fd s).

Definition KvmIrqSender_send (s : KvmIrqSender) : M unit :=
  syscall (sys_write8 (sender_event_fd s) 1) SendInterrupt.

Definition create_msi_sender (devid : Z) : M KvmMsiSender :=
  check_extension KvmCap.SIGNAL_MSI ;;; sret (mkMsiSender devid).

(** The sender the I/O APIC of the x86_64 board is given. *)
#[global] Instance kvm_msi_sender : MsiSender vm := λ addr data,
  KvmMsiSender_send (mkMsiSender 0) addr data.
End VmInner.
