(* ===== verification/KvmSpec.v ===== *)
(** * What the development assumes of KVM

    The documented behaviour (Documentation/virt/kvm/api.rst, eventfd(2)) of the system
    calls of [KvmKernel], as laws on views of the kernel's state: the memory slots, the
    GSI routing table, the irqfds and ioeventfds, and the open event descriptors.  At
    the end, [SimKernel]: an executable kernel that satisfies them, for the concrete
    runs of the properties. *)

From S2P Require Import Prelude Utils MemTypes KvmVm.

(** ** Memory slots *)

Definition regions_disjoint (r r' : KvmUserspaceMemoryRegion) : Prop :=
  kr_guest_phys_addr r + kr_memory_size r ≤ kr_guest_phys_addr r' ∨
  kr_guest_phys_addr r' + kr_memory_size r' ≤ kr_guest_phys_addr r.

Class KvmSlots (K : Type) := {
  kernel_slots : K → gmap Z KvmUserspaceMemoryRegion;
  nr_memslots : Z                (* KVM_CAP_NR_MEMSLOTS *)
}.

(** A region with a size creates the slot it names, which is below the limit and
    apart from the others; one of size 0 deletes an existing slot; a call that fails
    changes nothing. *)
Definition set_region_spec {K} `{KvmSlots K} (call : KvmUserspaceMemoryRegion → K → K * bool) : Prop :=
  ∀ r k, 0 ≤ kr_slot r →
  match call r k with
  | (k', true) =>
      if kr_memory_size r =? 0 then
        is_Some (kernel_slots k !! kr_slot r) ∧ kernel_slots k' = delete (kr_slot r) (kernel_slots k)
      else
        kernel_slots k !! kr_slot r = None →
        kr_slot r < nr_memslots ∧
        (∀ s r', kernel_slots k !! s = Some r' → regions_disjoint r r') ∧
        kernel_slots k' = <[kr_slot r := r]> (kernel_slots k)
  | (k', false) => kernel_slots k' = kernel_slots k
  end.

Class KvmSlotsLaws (K : Type) `{KvmKernel K} `{KvmSlots K} : Prop := {
  nr_memslots_range : 0 ≤ nr_memslots < 2 ^ 31;
  set_region_law : set_region_spec kvm_set_user_memory_region;
  set_region2_law : set_region_spec kvm_set_user_memory_region2
}.

(** ** Interrupts and ioeventfds *)

Definition deassign (flags : Z) : bool := Z.testbit flags 0.
Definition io_deassign (flags : Z) : bool := Z.testbit flags 2.

(** An ioeventfd: the descriptor and what it matches. *)
Definition ioeventfd_key (r : KvmIoEventFd) : Z * Z * Z * option Z :=
  (kio_fd r, kio_addr r, kio_len r, if Z.testbit (kio_flags r) 0 then Some (kio_datamatch r) else None).

Class KvmIrq (K : Type) := {
  kernel_routes : K → list KvmIrqRoutingEntry;
  kernel_irqfds : K → gset (Z * Z);                     (* descriptor and GSI *)
  kernel_ioeventfds : K → gset (Z * Z * Z * option Z);
  kernel_fds : K → gset Z                               (* the open event descriptors *)
}.

Definition irq_view {K} `{KvmIrq K} (k : K) :=
  (kernel_routes k, kernel_irqfds k, kernel_ioeventfds k, kernel_fds k).

(** [KVM_SET_GSI_ROUTING] replaces the whole table.  [KVM_IRQFD] connects a
    descriptor that is not connected yet; with [DEASSIGN] it undoes that.  A new
    event descriptor is not one that is open; closing it undoes its irqfds. *)
Class KvmIrqLaws (K : Type) `{KvmKernel K} `{KvmIrq K} : Prop := {
  set_routing_law entries k :
    match kvm_set_gsi_routing entries k with
    | (k', true) => irq_view k' = (entries, kernel_irqfds k, kernel_ioeventfds k, kernel_fds k)
    | (k', false) => irq_view k' = irq_view k
    end;
  irqfd_law r k :
    match kvm_irqfd r k with
    | (k', true) =>
        if deassign (ki_flags r) then
          irq_view k' = (kernel_routes k, kernel_irqfds k ∖ {[ (ki_fd r, ki_gsi r) ]},
                         kernel_ioeventfds k, kernel_fds k)
        else
          (∀ gsi, (ki_fd r, gsi) ∉ kernel_irqfds k) ∧
          irq_view k' = (kernel_routes k, {[(ki_fd r, ki_gsi r)]} ∪ kernel_irqfds k,
                         kernel_ioeventfds k, kernel_fds k)
    | (k', false) => irq_view k' = irq_view k
    end;
  ioeventfd_law r k :
    match kvm_ioeventfd r k with
    | (k', true) =>
        irq_view k' = (kernel_routes k, kernel_irqfds k,
                       (if io_deassign (kio_flags r) then kernel_ioeventfds k ∖ {[ioeventfd_key r]}
                        else {[ioeventfd_key r]} ∪ kernel_ioeventfds k), kernel_fds k)
    | (k', false) => irq_view k' = irq_view k
    end;
  eventfd_law k :
    match sys_eventfd k with
    | (k', Some fd) =>
        (fd ∉ kernel_fds k) ∧
        irq_view k' = (kernel_routes k, kernel_irqfds k, kernel_ioeventfds k, {[fd]} ∪ kernel_fds k)
    | (k', None) => irq_view k' = irq_view k
    end;
  close_law fd k :
    irq_view (sys_close fd k) =
      (kernel_routes k, filter (λ x, fst x ≠ fd) (kernel_irqfds k), kernel_ioeventfds k,
       kernel_fds k ∖ {[fd]});
  check_extension_law cap k : irq_view (fst (kvm_check_extension cap k)) = irq_view k;
  write8_law fd val k : irq_view (fst (sys_write8 fd val k)) = irq_view k;
  signal_msi_law m k : irq_view (fst (kvm_signal_msi m k)) = irq_view k
}.

(** ** A kernel that behaves so *)

Record SimKernel := mkSim {
  sim_slots : gmap Z KvmUserspaceMemoryRegion;
  sim_routes : list KvmIrqRoutingEntry;
  sim_irqfds : gset (Z * Z);
  sim_ioeventfds : gset (Z * Z * Z * option Z);
  sim_fds : gset Z;
  sim_signals : list KvmMsi
}.

Definition sim_new : SimKernel := mkSim ∅ [] ∅ ∅ ∅ [].
Definition sim_limit : Z := 32764.

Definition sim_set_slots x s := mkSim x (sim_routes s) (sim_irqfds s) (sim_ioeventfds s) (sim_fds s) (sim_signals s).
Definition sim_set_routes x s := mkSim (sim_slots s) x (sim_irqfds s) (sim_ioeventfds s) (sim_fds s) (sim_signals s).
Definition sim_set_irqfds x s := mkSim (sim_slots s) (sim_routes s) x (sim_ioeventfds s) (sim_fds s) (sim_signals s).
Definition sim_set_ioeventfds x s := mkSim (sim_slots s) (sim_routes s) (sim_irqfds s) x (sim_fds s) (sim_signals s).
Definition sim_set_fds x s := mkSim (sim_slots s) (sim_routes s) (sim_irqfds s) (sim_ioeventfds s) x (sim_signals s).
Definition sim_add_signal m s :=
  mkSim (sim_slots s) (sim_routes s) (sim_irqfds s) (sim_ioeventfds s) (sim_fds s) (sim_signals s ++ [m]).

#[export] Instance regions_disjoint_dec r r' : Decision (regions_disjoint r r').
Proof. unfold regions_disjoint. apply _. Defined.

Definition sim_region (r : KvmUserspaceMemoryRegion) (s : SimKernel) : SimKernel * bool :=
  if kr_memory_size r =? 0 then
    match sim_slots s !! kr_slot r with
    | Some _ => (sim_set_slots (delete (kr_slot r) (sim_slots s)) s, true)
    | None => (s, false)
    end
  else
    match sim_slots s !! kr_slot r with
    | Some _ => (s, false)
    | None =>
        if (kr_slot r <? sim_limit) &&
           forallb (λ x, bool_decide (regions_disjoint r (snd x))) (map_to_list (sim_slots s))
        then (sim_set_slots (<[kr_slot r := r]> (sim_slots s)) s, true)
        else (s, false)
    end.

Definition sim_irqfd (r : KvmIrqfd) (s : SimKernel) : SimKernel * bool :=
  if deassign (ki_flags r) then (sim_set_irqfds (sim_irqfds s ∖ {[(ki_fd r, ki_gsi r)]}) s, true)
  else if bool_decide (set_Exists (λ x, fst x = ki_fd r) (sim_irqfds s)) then (s, false)
  else (sim_set_irqfds ({[(ki_fd r, ki_gsi r)]} ∪ sim_irqfds s) s, true).

Definition sim_ioeventfd (r : KvmIoEventFd) (s : SimKernel) : SimKernel * bool :=
  (sim_set_ioeventfds (if io_deassign (kio_flags r) then sim_ioeventfds s ∖ {[ioeventfd_key r]}
                       else {[ioeventfd_key r]} ∪ sim_ioeventfds s) s, true).

(** A descriptor that is not open. *)
Definition sim_eventfd (s : SimKernel) : SimKernel * option Z :=
  let fd := fresh (sim_fds s) in (sim_set_fds ({[fd]} ∪ sim_fds s) s, Some fd).

#[export] Instance sim_kernel : KvmKernel SimKernel := {|
  kvm_set_user_memory_region := sim_region;
  kvm_set_user_memory_region2 := sim_region;
  kvm_memory_encrypt_reg_region := λ _ _ s, (s, true);
  kvm_memory_encrypt_unreg_region := λ _ _ s, (s, true);
  kvm_set_memory_attributes := λ _ s, (s, true);
  kvm_set_gsi_routing := λ entries s, (sim_set_routes entries s, true);
  kvm_irqfd := sim_irqfd;
  kvm_ioeventfd := sim_ioeventfd;
  kvm_signal_msi := λ m s, (sim_add_signal m s, true);
  kvm_check_extension := λ _ s, (s, Some 1);
  kvm_enable_cap := λ _ _ s, (s, true);
  sys_eventfd := sim_eventfd;
  sys_write8 := λ _ _ s, (s, true);
  sys_close := λ fd s, sim_set_fds (sim_fds s ∖ {[fd]})
                         (sim_set_irqfds (filter (λ x, fst x ≠ fd) (sim_irqfds s)) s)
|}.

#[export] Instance sim_kvm_slots : KvmSlots SimKernel := {| kernel_slots := sim_slots; nr_memslots := sim_limit |}.
#[export] Instance sim_kvm_irq : KvmIrq SimKernel := {|
  kernel_routes := sim_routes;
  kernel_irqfds := sim_irqfds;
  kernel_ioeventfds := sim_ioeventfds;
  kernel_fds := sim_fds
|}.

Lemma sim_region_spec : set_region_spec sim_region.
Proof.
  intros r s _. unfold sim_region. simpl.
  destruct (Z.eqb_spec (kr_memory_size r) 0) as [E|E].
  - destruct (sim_slots s !! kr_slot r) eqn:Es; simpl; [|done]. by split.
  - destruct (sim_slots s !! kr_slot r) eqn:Es; simpl; [done|].
    destruct (Z.ltb_spec (kr_slot r) sim_limit); [|done].
    destruct (forallb _ _) eqn:Ef; simpl; [|done]. intros _.
    split; [done|]. split; [|done]. intros i r' Hr. rewrite forallb_forall in Ef.
    specialize (Ef (i, r')). apply bool_decide_eq_true in Ef; [done|].
    by apply list_elem_of_In, elem_of_map_to_list.
Qed.

#[export] Instance sim_slots_laws : KvmSlotsLaws SimKernel.
Proof. split; [by split|apply sim_region_spec|apply sim_region_spec]. Qed.

#[export] Instance sim_irq_laws : KvmIrqLaws SimKernel.
Proof.
  split; try done.
  - intros r s. simpl. unfold sim_irqfd. destruct (deassign _); [done|].
    case_bool_decide as Hb; [done|]. simpl. split; [|done].
    intros gsi Hin. apply Hb. by exists (ki_fd r, gsi).
  - intros s. simpl. split; [|done]. apply is_fresh.
Qed.

#[export] Existing Instance list_iter.
#[export] Existing Instance list_iter_laws.
