(* ===== verification/KvmMem.v ===== *)
(** * Guest memory on KVM: [KvmMemory] of hv/kvm/vm/vm.rs

    The memory slots of a machine, [impl VmMemory for KvmMemory], and what they
    guarantee: the slots of the kernel are those recorded, and, when [Memory] runs
    on them, exactly the RAM and device-memory ranges of the mapped regions. *)

From S2P Require Import Prelude Utils MemTypes Addressable Emulated Mapped Memory MemoryInv MemoryThm KvmVm KvmSpec.

Open Scope stm_scope.

Record MemMapOption := mkMapOption {
  opt_read : bool;
  opt_write : bool;
  opt_exec : bool;
  opt_log_dirty : bool
}.

(** The options [Memory::map_to_vm] gives. *)
Definition map_to_vm_options : MemMapOption := mkMapOption true true true false.

Record KvmMemory (K : Type) := mkKvmMemory {
  km_slot_id : Z;
  km_slots : gmap (Z * Z) Z;
  km_vm : VmInner K
}.
Arguments mkKvmMemory {K} _ _ _.
Arguments km_slot_id {K} _.
Arguments km_slots {K} _.
Arguments km_vm {K} _.

Definition KvmMemory_new {K} (vm : VmInner K) : KvmMemory K := mkKvmMemory 0 ∅ vm.

Section KvmMemory.
Context {K : Type} `{KvmKernel K} `{HashIter}.
Abbreviation kmem := (KvmMemory K).
Abbreviation M := (stm (KvmMemory K) hv_error).

Definition set_slots x (m : kmem) : kmem := mkKvmMemory (km_slot_id m) x (km_vm m).
Definition set_slot_id x (m : kmem) : kmem := mkKvmMemory x (km_slots m) (km_vm m).

Definition on_vm {A} (p : stm (VmInner K) hv_error A) : M A := λ m,
  let r := p (km_vm m) in (mkKvmMemory (km_slot_id m) (km_slots m) (fst r), snd r).

(** [KvmMemory::unmap] of a slot: a region of size 0 deletes it. *)
Definition unmap_slot (slot gpa size : Z) : M unit :=
  on_vm (syscall (kvm_set_user_memory_region (mkKvmRegion slot 0 gpa 0 0 None)) (GuestUnmap gpa size)).

Definition map_flags (option : MemMapOption) : Z :=
  Z.lor (if opt_write option then 0 else KvmMemFlag.READONLY)
        (if opt_log_dirty option then KvmMemFlag.LOG_DIRTY_PAGES else 0).

Definition mem_map (gpa size hva : Z) (option : MemMapOption) : M unit :=
  if negb (opt_read option) || negb (opt_exec option) then sfail KvmErr
  else
    let flags := map_flags option in
    m <- sget ;;
    let slot_id := km_slot_id m in
    on_vm (match vm_memfd (km_vm m) with
           | Some memfd =>
               let flags := Z.lor flags KvmMemFlag.GUEST_MEMFD in
               syscall (kvm_set_user_memory_region2
                          (mkKvmRegion slot_id flags gpa size hva (Some (memfd, gpa))))
           | None =>
               syscall (kvm_set_user_memory_region (mkKvmRegion slot_id flags gpa size hva None))
           end (GuestMap hva gpa size)) ;;;
    smodify (λ m, set_slots (<[(gpa, size) := slot_id]> (km_slots m)) m) ;;;
    smodify (set_slot_id (u32 (slot_id + 1))).

Definition unmap (gpa size : Z) : M unit :=
  m <- sget ;;
  match km_slots m !! (gpa, size) with
  | None => sfail (GuestUnmap gpa size)
  | Some slot =>
      smodify (λ m, set_slots (delete (gpa, size) (km_slots m)) m) ;;;
      unmap_slot slot gpa size
  end.

Definition register_encrypted_range (addr len : Z) : M unit :=
  on_vm (syscall (kvm_memory_encrypt_reg_region addr len) MemEncrypt).
Definition deregister_encrypted_range (addr len : Z) : M unit :=
  on_vm (syscall (kvm_memory_encrypt_unreg_region addr len) MemEncrypt).

Definition mark_private (gpa size : Z) (private : bool) : M unit :=
  on_vm (syscall (kvm_set_memory_attributes
    (mkKvmAttrs gpa size (if private then KvmMemoryAttribute.PRIVATE else 0) 0)) MemEncrypt).

(** [slots.drain()] empties the table, also when the loop is left by an error. *)
Definition reset_slots : M unit :=
  m <- sget ;;
  smodify (set_slots ∅) ;;;
  sfor (hash_iter (km_slots m)) (λ '((gpa, size), slot), unmap_slot slot gpa size) ;;;
  smodify (set_slot_id 0).
End KvmMemory.

(** [KvmMemory] as the hypervisor of a [Memory] that shares the world with [X]. *)
Section Instance_.
Context {K X : Type} `{KvmKernel K} `{HashIter}.

Definition on_fst {A} (p : stm (KvmMemory K) hv_error A) (w : KvmMemory K * X) :
  (KvmMemory K * X) * outcome hv_error A :=
  let r := p (fst w) in ((fst r, snd w), snd r).

#[global] Instance kvm_vm_memory : VmMemory (KvmMemory K * X) := {|
  hv_mem_map gpa size hva := on_fst (mem_map gpa size hva map_to_vm_options);
  hv_unmap gpa size := on_fst (unmap gpa size);
  hv_reset := on_fst reset_slots;
  hv_mark_private gpa size private := on_fst (mark_private gpa size private)
|}.
End Instance_.

(** [KvmVm]: the machine gives its memory out once. *)
Record KvmVm (K : Type) := mkKvmVm { kvm_inner : VmInner K; memory_created : bool }.
Arguments mkKvmVm {K} _ _.
Arguments kvm_inner {K} _.
Arguments memory_created {K} _.

Definition create_vm_memory {K} : stm (KvmVm K) hv_error (KvmMemory K) :=
  v <- sget ;;
  if memory_created v then sfail MemoryCreated
  else
    let kvm_memory := KvmMemory_new (kvm_inner v) in
    smodify (λ v, mkKvmVm (kvm_inner v) true) ;;;
    sret kvm_memory.

(** ** Guest memory on KVM: the slots of the kernel

    The functional specification of [KvmMemory] on every branch: its table and the
    slots of the kernel agree. *)

(** ** [KvmMemory] *)

Section Slots.
Context {K : Type} `{KvmKernel K} `{!KvmSlots K} `{!KvmSlotsLaws K} `{!HashIter} `{!HashIterLaws}.
Abbreviation kmem := (KvmMemory K).

Definition kslots (m : kmem) : gmap Z KvmUserspaceMemoryRegion := kernel_slots (vm_kernel (km_vm m)).

(** The guest sees [size] bytes of the host memory at [hva] at [gpa]. *)
Definition maps (m : kmem) (gpa size hva : Z) : Prop :=
  ∃ slot r, kslots m !! slot = Some r ∧
    kr_guest_phys_addr r = gpa ∧ kr_memory_size r = size ∧ kr_userspace_addr r = hva.

(** The table of slots and the kernel agree. *)
Record slots_ok (m : kmem) : Prop := {
  so_id : 0 ≤ km_slot_id m ≤ nr_memslots;
  so_live slot r : kslots m !! slot = Some r →
    0 ≤ slot < km_slot_id m ∧ 0 < kr_memory_size r ∧
    km_slots m !! (kr_guest_phys_addr r, kr_memory_size r) = Some slot;
  so_recorded gpa size slot : km_slots m !! (gpa, size) = Some slot →
    ∃ r, kslots m !! slot = Some r ∧ kr_guest_phys_addr r = gpa ∧ kr_memory_size r = size
}.

Lemma slots_ok_new (v : VmInner K) : kernel_slots (vm_kernel v) = ∅ → slots_ok (KvmMemory_new v).
Proof.
  intros E. pose proof nr_memslots_range. split; simpl; [lia| |done].
  intros slot r. unfold kslots. simpl. by rewrite E.
Qed.

Lemma maps_unique m gpa size hva hva' :
  slots_ok m → maps m gpa size hva → maps m gpa size hva' → hva = hva'.
Proof.
  intros Hok (s & r & E & <- & <- & <-) (s' & r' & E' & Eg & Es & <-).
  pose proof (so_live _ Hok _ _ E) as (_ & _ & L). pose proof (so_live _ Hok _ _ E') as (_ & _ & L').
  rewrite Eg, Es, L in L'. by simplify_eq.
Qed.

(** The slot [mem_map] asks the kernel for. *)
Definition new_region (m : kmem) (gpa size hva : Z) (option : MemMapOption) : KvmUserspaceMemoryRegion :=
  match vm_memfd (km_vm m) with
  | Some memfd => mkKvmRegion (km_slot_id m) (Z.lor (map_flags option) KvmMemFlag.GUEST_MEMFD)
                    gpa size hva (Some (memfd, gpa))
  | None => mkKvmRegion (km_slot_id m) (map_flags option) gpa size hva None
  end.
Definition set_region_call (m : kmem) : KvmUserspaceMemoryRegion → K → K * bool :=
  match vm_memfd (km_vm m) with
  | Some _ => kvm_set_user_memory_region2
  | None => kvm_set_user_memory_region
  end.

Lemma set_region_call_spec m : set_region_spec (set_region_call m).
Proof.
  unfold set_region_call. destruct (vm_memfd _); [apply set_region2_law|apply set_region_law].
Qed.

Definition with_kernel (m : kmem) (k : K) : kmem :=
  mkKvmMemory (km_slot_id m) (km_slots m) (set_kernel k (km_vm m)).

Lemma new_region_fields m gpa size hva option :
  let r := new_region m gpa size hva option in
  kr_slot r = km_slot_id m ∧ kr_guest_phys_addr r = gpa ∧ kr_memory_size r = size ∧
  kr_userspace_addr r = hva.
Proof. unfold new_region. by destruct (vm_memfd _). Qed.

Lemma mem_map_eq gpa size hva option m :
  mem_map gpa size hva option m =
  if negb (opt_read option) || negb (opt_exec option) then (m, Err KvmErr)
  else
    match set_region_call m (new_region m gpa size hva option) (vm_kernel (km_vm m)) with
    | (k', true) =>
        (mkKvmMemory (u32 (km_slot_id m + 1)) (<[(gpa, size) := km_slot_id m]> (km_slots m))
           (set_kernel k' (km_vm m)), Ok tt)
    | (k', false) => (with_kernel m k', Err (GuestMap hva gpa size))
    end.
Proof.
  unfold mem_map. destruct (_ || _); [done|]. unfold sbind at 1, sget.
  unfold set_region_call, new_region, on_vm, sbind, syscall.
  destruct (vm_memfd (km_vm m)) as [fd|]; cbn [fst snd].
  - by destruct (kvm_set_user_memory_region2 _ _) as [k' []].
  - by destruct (kvm_set_user_memory_region _ _) as [k' []].
Qed.

Lemma unmap_slot_eq slot gpa size m :
  unmap_slot slot gpa size m =
  let r := kvm_set_user_memory_region (mkKvmRegion slot 0 gpa 0 0 None) (vm_kernel (km_vm m)) in
  (with_kernel m (fst r), if snd r then Ok tt else Err (GuestUnmap gpa size)).
Proof. unfold unmap_slot, on_vm, syscall. simpl. by destruct (kvm_set_user_memory_region _ _) as [k' []]. Qed.

(** A deleted slot. *)
Lemma unmap_slot_ok slot gpa size m :
  0 ≤ slot →
  match unmap_slot slot gpa size m with
  | (m', Ok _) => kslots m' = delete slot (kslots m)
  | (m', Err e) => kslots m' = kslots m ∧ e = GuestUnmap gpa size
  | (_, Panic) => False
  end ∧
  km_slots (fst (unmap_slot slot gpa size m)) = km_slots m ∧
  km_slot_id (fst (unmap_slot slot gpa size m)) = km_slot_id m.
Proof.
  intros Hs. rewrite unmap_slot_eq.
  pose proof (set_region_law (mkKvmRegion slot 0 gpa 0 0 None) (vm_kernel (km_vm m)) Hs) as Hl.
  destruct (kvm_set_user_memory_region _ _) as [k' []]; simpl in *; [|done].
  split; [|done]. apply Hl.
Qed.

Lemma mem_map_Ok gpa size hva option m m' :
  slots_ok m → 0 ≤ size → mem_map gpa size hva option m = (m', Ok tt) →
  slots_ok m' ∧ (opt_read option = true ∧ opt_exec option = true) ∧ 0 < size ∧
  kslots m' = <[km_slot_id m := new_region m gpa size hva option]> (kslots m) ∧
  (∀ g s h, maps m g s h → g + s ≤ gpa ∨ gpa + size ≤ g) ∧
  (∀ g s h, maps m' g s h ↔ (g = gpa ∧ s = size ∧ h = hva) ∨ maps m g s h).
Proof.
  intros Hok Hsz. rewrite mem_map_eq. pose proof (so_id _ Hok) as [Hid Hid'].
  pose proof nr_memslots_range.
  destruct (opt_read option) eqn:Er, (opt_exec option) eqn:Ex; try done. simpl.
  pose proof (new_region_fields m gpa size hva option) as (F1 & F2 & F3 & F4).
  set (r := new_region m gpa size hva option) in *.
  pose proof (set_region_call_spec m r (vm_kernel (km_vm m))) as Hl. rewrite F1 in Hl. specialize (Hl Hid).
  destruct (set_region_call m r _) as [k' []]; [|done]. intros [= <-].
  assert (kslots m !! km_slot_id m = None) as Hn.
  { destruct (kslots m !! km_slot_id m) as [r'|] eqn:E; [|done].
    apply (so_live _ Hok) in E as [? _]. lia. }
  rewrite F3 in Hl. destruct (Z.eqb_spec size 0) as [->|Hnz].
  { destruct Hl as [[r' E] _]. unfold kslots in Hn. congruence. }
  destruct (Hl Hn) as (Hlt & Hdis & Ek). fold (kslots m) in Ek, Hdis.
  unfold regions_disjoint in Hdis. rewrite F2, F3 in Hdis.
  split_and!; try done; try lia.
  - split; simpl; rewrite ?wrap_small by (unfold in_u; lia); [lia| |].
    + intros slot r'. unfold kslots at 1. simpl. rewrite Ek. intros [[<- <-]|[Hne E]]%lookup_insert_Some.
      * rewrite F2, F3. rewrite lookup_insert_eq. split_and!; [lia..|done].
      * destruct (so_live _ Hok _ _ E) as (? & ? & L). split_and!; [lia..|].
        rewrite lookup_insert_ne; [done|]. intros [= G1 G2].
        specialize (Hdis _ _ E). lia.
    + intros g s slot [[[= <- <-] <-]|[Hne E]]%lookup_insert_Some.
      * exists r. unfold kslots. simpl. by rewrite Ek, lookup_insert_eq.
      * destruct (so_recorded _ Hok _ _ _ E) as (r' & E' & ? & ?). exists r'. split; [|done].
        unfold kslots. simpl. rewrite Ek, lookup_insert_ne; [done|]. intros <-.
        congruence.
  - intros g s h (slot & r' & E & <- & <- & <-). specialize (Hdis _ _ E). lia.
  - intros g s h. unfold maps. unfold kslots at 1. simpl. rewrite Ek. split.
    + intros (slot & r' & [[<- <-]|[Hne E]]%lookup_insert_Some & <- & <- & <-).
      * by left.
      * right. by exists slot, r'.
    + intros [(-> & -> & ->)|(slot & r' & E & ? & ? & ?)].
      * exists (km_slot_id m), r. by rewrite lookup_insert_eq.
      * exists slot, r'. rewrite lookup_insert_ne; [done|]. intros <-. congruence.
Qed.

Lemma maps_ext m m' g s h : kslots m' = kslots m → maps m' g s h ↔ maps m g s h.
Proof. unfold maps. by intros ->. Qed.

Lemma unmap_Ok gpa size m m' :
  slots_ok m → unmap gpa size m = (m', Ok tt) →
  slots_ok m' ∧ km_slot_id m' = km_slot_id m ∧
  (∃ hva, maps m gpa size hva) ∧
  (∀ g s h, maps m' g s h ↔ ¬ (g = gpa ∧ s = size) ∧ maps m g s h).
Proof.
  intros Hok. unfold unmap. unfold sbind at 1, sget.
  destruct (km_slots m !! (gpa, size)) as [slot|] eqn:Es; [|done]. unfold sbind, smodify.
  destruct (so_recorded _ Hok _ _ _ Es) as (r & Er & Fg & Fs).
  destruct (so_live _ Hok _ _ Er) as ((Hs0 & Hlt) & Hnz & _).
  destruct (unmap_slot_ok slot gpa size (set_slots (delete (gpa, size) (km_slots m)) m) Hs0) as (Hu & F1 & F2).
  intros E. rewrite E in Hu, F1, F2. cbn [fst] in *. cbn [km_slots km_slot_id set_slots] in F1, F2.
  unfold kslots at 2 in Hu. cbn [set_slots km_vm] in Hu. fold (kslots m) in Hu.
  assert (∀ s r', kslots m !! s = Some r' → s = slot ↔ kr_guest_phys_addr r' = gpa ∧ kr_memory_size r' = size) as Hid.
  { intros s r' E'. split; [intros ->; by simplify_eq|]. intros [<- <-].
    destruct (so_live _ Hok _ _ E') as (_ & _ & L). congruence. }
  split_and!; try done.
  - split; rewrite ?F1, ?F2, ?Hu; [apply Hok| |].
    + intros s r' [Hne E']%lookup_delete_Some. destruct (so_live _ Hok _ _ E') as (? & ? & L).
      split_and!; [lia..|]. apply lookup_delete_Some. split; [|done].
      intros [= G1 G2]. apply Hne. symmetry. by apply (Hid _ _ E').
    + intros g s sl [Hne E']%lookup_delete_Some. destruct (so_recorded _ Hok _ _ _ E') as (r' & E2 & <- & <-).
      exists r'. split; [|done]. apply lookup_delete_Some. split; [|done].
      intros <-. apply Hne. by destruct (proj1 (Hid _ _ E2) eq_refl) as [-> ->].
  - exists (kr_userspace_addr r), slot, r. done.
  - intros g s h. unfold maps. rewrite Hu. split.
    + intros (sl & r' & [Hne E']%lookup_delete_Some & <- & <- & <-). split; [|by exists sl, r'].
      intros Hc. apply Hne. symmetry. by apply (Hid _ _ E').
    + intros [Hn (sl & r' & E' & <- & <- & <-)]. exists sl, r'. split; [|done].
      apply lookup_delete_Some. split; [|done]. intros <-. apply Hn. by apply (Hid _ _ E').
Qed.

Lemma unmap_Err gpa size m m' r :
  slots_ok m → unmap gpa size m = (m', r) → r ≠ Ok tt →
  match r with
  | Err e =>
      e = GuestUnmap gpa size ∧
      (m' = m ∧ (∀ h, ¬ maps m gpa size h) ∨
       (∃ h, maps m' gpa size h) ∧ unmap gpa size m' = (m', Err (GuestUnmap gpa size)))
  | _ => False
  end.
Proof.
  intros Hok E Hr. unfold unmap in E. unfold sbind at 1, sget in E.
  destruct (km_slots m !! (gpa, size)) as [slot|] eqn:Es; [unfold sbind, smodify in E|].
  - destruct (so_recorded _ Hok _ _ _ Es) as (r' & Er & Fg & Fs).
    destruct (unmap_slot_ok slot gpa size (set_slots (delete (gpa, size) (km_slots m)) m))
      as (Hu & F1 & _); [by apply (so_live _ Hok _ _ Er)|].
    rewrite E in Hu, F1. simpl in F1. destruct r as [[]|e|]; [done| |done].
    destruct Hu as [Hu ->]. split; [done|]. right. change (kslots m' = kslots m) in Hu. split.
    + exists (kr_userspace_addr r'), slot, r'. by rewrite Hu.
    + unfold unmap, sbind at 1, sget. rewrite F1. by rewrite lookup_delete_eq.
  - injection E as <- <-. split; [done|]. left. split; [done|].
    intros h (slot & r & Er & <- & <- & _). apply (so_live _ Hok) in Er. naive_solver.
Qed.

(** The loop of [reset]: the slots of the list are gone. *)
Lemma unmap_slots_Ok (xs : list ((Z * Z) * Z)) m m' :
  (∀ x, x ∈ xs → 0 ≤ snd x) →
  sfor xs (λ '((gpa, size), slot), unmap_slot slot gpa size) m = (m', Ok tt) →
  ∀ slot r, kslots m' !! slot = Some r → kslots m !! slot = Some r ∧ slot ∉ snd <$> xs.
Proof.
  revert m. induction xs as [|[[g s] sl] xs IH]; intros m Hx E slot r Hr; simpl in E.
  { injection E as <-. split; [done|]. apply not_elem_of_nil. }
  inv_ok E. destruct (unmap_slot_ok sl g s m) as [Hu _]; [by apply (Hx (g, s, sl)); left|].
  rewrite Ek in Hu. destruct (IH s0 ltac:(intros x Hin; apply Hx; by right) E _ _ Hr) as [Hs Hni]. rewrite Hu in Hs. apply lookup_delete_Some in Hs as [Hne Hs].
  split; [done|]. simpl. apply not_elem_of_cons. by split.
Qed.

Lemma unmap_slots_errors (xs : list ((Z * Z) * Z)) m :
  match snd (sfor xs (λ '((gpa, size), slot), unmap_slot slot gpa size) m) with
  | Ok _ => True
  | Err e => ∃ g s, e = GuestUnmap g s
  | Panic => False
  end.
Proof.
  revert m. induction xs as [|[[g s] sl] xs IH]; intros m; simpl; [done|].
  unfold sbind. rewrite unmap_slot_eq. destruct (kvm_set_user_memory_region _ _) as [k []]; simpl; [apply IH|by eauto].
Qed.

Lemma reset_slots_Ok m m' :
  slots_ok m → reset_slots m = (m', Ok tt) → slots_ok m' ∧ km_slot_id m' = 0 ∧ kslots m' = ∅.
Proof.
  intros Hok E. pose proof nr_memslots_range. unfold reset_slots in E. inv_ok E. injection Ek as <- <-.
  inv_ok E. injection Ek as <- <-. inv_ok E. destruct a. injection E as <-.
  assert (kslots s = ∅) as He.
  { apply map_empty. intros slot. destruct (kslots s !! slot) as [r|] eqn:Er; [|done].
    eapply unmap_slots_Ok in Ek as [Hm Hni]; [| |exact Er].
    - change (kslots m !! slot = Some r) in Hm. apply (so_live _ Hok) in Hm as (_ & _ & L).
      exfalso. apply Hni, list_elem_of_fmap.
      exists (kr_guest_phys_addr r, kr_memory_size r, slot). split; [done|].
      rewrite hash_iter_perm. by apply elem_of_map_to_list.
    - intros [[g sz] sl] Hin. rewrite hash_iter_perm in Hin. apply elem_of_map_to_list in Hin.
      destruct (so_recorded _ Hok _ _ _ Hin) as (r' & Er' & _).
      apply (so_live _ Hok) in Er'. simpl. lia. }
  assert (km_slots s = ∅) as Hs.
  { assert (∀ xs m1 m2, sfor xs (λ '((gpa, size), slot), unmap_slot slot gpa size) m1 = (m2, Ok tt) →
      km_slots m2 = km_slots m1) as Hk; [|by apply Hk in Ek].
    intros xs m1 m2 E. eapply keeps_Ok; [|exact E]. apply keeps_for.
    intros [[g sz] sl] ?. by rewrite unmap_slot_eq. }
  split_and!; [|done|done].
  split; simpl; [lia| |].
  - intros slot r. unfold kslots in *. simpl. by rewrite He.
  - intros g sz sl. by rewrite Hs.
Qed.
End Slots.

(** [KvmMemory] keeps its table in step with the slots of the kernel, on every
    branch.  A region is mapped under the next slot number, with the flags of its
    options, only if it is readable, executable and overlaps no mapped one; an
    error of [mem_map] changes nothing.  [unmap] removes exactly the region with
    this base and size; when the kernel refuses, the region stays mapped but is
    forgotten, so that a second [unmap] does not reach the kernel.  [reset] leaves
    nothing mapped and starts the numbering again. *)
Theorem kvm_memory_spec {K : Type} `{KvmKernel K} `{!KvmSlots K} `{!KvmSlotsLaws K} `{!HashIter}
  `{!HashIterLaws} (m : KvmMemory K) gpa size hva option :
  slots_ok m → in_u 64 size →
  match mem_map gpa size hva option m with
  | (m', Ok _) =>
      slots_ok m' ∧ opt_read option = true ∧ opt_exec option = true ∧ 0 < size ∧
      kslots m' = <[km_slot_id m := new_region m gpa size hva option]> (kslots m) ∧
      (∀ g s h, maps m g s h → g + s ≤ gpa ∨ gpa + size ≤ g) ∧
      (∀ g s h, maps m' g s h ↔ (g = gpa ∧ s = size ∧ h = hva) ∨ maps m g s h)
  | (m', Err e) =>
      slots_ok m' ∧ kslots m' = kslots m ∧ km_slots m' = km_slots m ∧
      (e = KvmErr ∧ (opt_read option = false ∨ opt_exec option = false) ∨ e = GuestMap hva gpa size)
  | (_, Panic) => False
  end ∧
  match unmap gpa size m with
  | (m', Ok _) =>
      slots_ok m' ∧ (∃ h, maps m gpa size h) ∧
      (∀ g s h, maps m' g s h ↔ ¬ (g = gpa ∧ s = size) ∧ maps m g s h)
  | (m', Err e) =>
      e = GuestUnmap gpa size ∧
      (m' = m ∧ (∀ h, ¬ maps m gpa size h) ∨
       (∃ h, maps m' gpa size h) ∧ unmap gpa size m' = (m', Err (GuestUnmap gpa size)))
  | (_, Panic) => False
  end ∧
  match reset_slots m with
  | (m', Ok _) => slots_ok m' ∧ km_slot_id m' = 0 ∧ ∀ g s h, ¬ maps m' g s h
  | (_, Err e) => ∃ g s, e = GuestUnmap g s
  | (_, Panic) => False
  end.
Proof.
  intros Hok [Hsz _]. split; [|split].
  - destruct (mem_map gpa size hva option m) as [m' [[]|e|]] eqn:E.
    + apply mem_map_Ok in E; naive_solver.
    + rewrite mem_map_eq in E. destruct (negb _ || _) eqn:Eo.
      { injection E as <- <-. split_and!; try done. left. split; [done|].
        destruct (opt_read option); [right|by left]. by destruct (opt_exec option). }
      pose proof (set_region_call_spec m (new_region m gpa size hva option) (vm_kernel (km_vm m))) as Hl.
      destruct (new_region_fields m gpa size hva option) as [F _]. rewrite F in Hl.
      specialize (Hl (proj1 (so_id _ Hok))). destruct (set_region_call _ _ _) as [k' []]; [done|].
      injection E as <- <-. split_and!; try done; [|by right].
      split; simpl; unfold kslots; simpl; rewrite ?Hl; apply Hok.
    + rewrite mem_map_eq in E. destruct (negb _ || _); [done|].
      by destruct (set_region_call _ _ _) as [k' []].
  - destruct (unmap gpa size m) as [m' [[]|e|]] eqn:E; [apply unmap_Ok in E; naive_solver|by apply unmap_Err in E|].
    by apply unmap_Err in E.
  - destruct (reset_slots m) as [m' [[]|e|]] eqn:E.
    + apply reset_slots_Ok in E as (? & ? & E); [|done]. split_and!; [done..|].
      intros g s h (slot & r & Hr & _). rewrite E in Hr. done.
    + pose proof (unmap_slots_errors (hash_iter (km_slots m)) (set_slots ∅ m)) as Hd.
      unfold reset_slots, sbind, sget, smodify in E.
      destruct (sfor _ _ _) as [m1 [|e1|]]; simplify_eq. apply Hd.
    + pose proof (unmap_slots_errors (hash_iter (km_slots m)) (set_slots ∅ m)) as Hd.
      unfold reset_slots, sbind, sget, smodify in E. by destruct (sfor _ _ _) as [m1 [|e1|]].
Qed.

(** A machine on the executable kernel, with one region mapped. *)
Definition sim_memory : KvmMemory SimKernel := KvmMemory_new (VmInner_new sim_new None).
Definition sim_mapped : KvmMemory SimKernel := fst (mem_map 0x1000 0x2000 77 map_to_vm_options sim_memory).

Lemma sim_memory_ok : slots_ok sim_memory.
Proof. by apply slots_ok_new. Qed.

Lemma kvm_memory_spec_witness :
  maps sim_mapped 0x1000 0x2000 77 ∧
  (∀ g s h, ¬ maps (fst (unmap 0x1000 0x2000 sim_mapped)) g s h) ∧
  snd (mem_map 0x2000 0x1000 99 map_to_vm_options sim_mapped) = Err (GuestMap 99 0x2000 0x1000).
Proof.
  assert (in_u 64 0x2000) as Hs by by_eval.
  destruct (kvm_memory_spec sim_memory 0x1000 0x2000 77 map_to_vm_options
    sim_memory_ok Hs) as [H1 _].
  destruct (mem_map 0x1000 0x2000 77 map_to_vm_options sim_memory) as [m1 r1] eqn:E1.
  assert (r1 = Ok tt) as -> by (by vm_compute in E1; injection E1 as _ <-).
  replace sim_mapped with m1 by (unfold sim_mapped; by rewrite E1).
  destruct H1 as (Hok & _ & _ & _ & _ & _ & Hm).
  destruct (kvm_memory_spec m1 0x1000 0x2000 77 map_to_vm_options Hok Hs) as (_ & H2 & _).
  split; [apply Hm; by left|]. vm_compute in E1. injection E1 as <-. split; [|reflexivity].
  intros g s h. destruct (unmap 0x1000 0x2000 _) as [m2 r2] eqn:E2.
  assert (r2 = Ok tt) as -> by (by vm_compute in E2; injection E2 as _ <-).
  destruct H2 as (_ & _ & H2). rewrite H2. intros [Hn [(-> & -> & ->)|(sl & r & Hr & _)]%Hm]; [by apply Hn|].
  by vm_compute in Hr.
Defined.
