(* ===== verification/KvmMirror.v ===== *)
(** * [Memory] on KVM: the guest sees the mapped regions

    The composition of [Memory] (mem/mem.rs) with [KvmMemory] (hv/kvm/vm/vm.rs): after
    any sequence of successful calls, the slots of the kernel are the RAM and
    device-memory ranges of the mapped regions, each at its address and backed by
    its own host memory.  The callbacks may change anything but the slots. *)

From S2P Require Import Prelude Utils MemTypes Addressable Emulated Mapped Memory MemoryInv MemoryThm KvmVm KvmSpec KvmMem.

(** The ranges a hypervisor maps. *)
Definition map_of {R} (r : MemRange R) : option ArcMemPages :=
  match r with RangeRam p | RangeDevMem p => Some p | _ => None end.

(** What of the world the memory slots are. *)
Definition slots_view {K X} `{KvmSlots K} (w : KvmMemory K * X) :=
  (km_slot_id (fst w), km_slots (fst w), kernel_slots (vm_kernel (km_vm (fst w)))).

Class CallbacksKeepSlots (K X CB LC LU : Type) `{!KvmSlots K} `{!MemCallbacks (KvmMemory K * X) CB LC LU}
  : Prop := {
  cb_mapped_slots cb addr w : slots_view (fst (cb_mapped cb addr w)) = slots_view w;
  cb_unmapped_slots cb w : slots_view (fst (cb_unmapped cb w)) = slots_view w;
  lc_added_slots lc gpa p w : slots_view (fst (lc_ram_added lc gpa p w)) = slots_view w;
  lc_removed_slots lc gpa p w : slots_view (fst (lc_ram_removed lc gpa p w)) = slots_view w;
  lu_updated_slots lu ram w : slots_view (fst (lu_ram_updated lu ram w)) = slots_view w
}.

Section Mirror.
Context {K X R C CB LC LU : Type} `{KvmKernel K} `{!KvmSlots K} `{!KvmSlotsLaws K}.
Context `{!HashIter} `{!HashIterLaws} `{Mmio (KvmMemory K * X) R C}.
Context `{!MemCallbacks (KvmMemory K * X) CB LC LU} `{!CallbacksKeepSlots K X CB LC LU}.
Abbreviation mem := (Memory (KvmMemory K * X) R CB LC LU).
Abbreviation M := (stm (Memory (KvmMemory K * X) R CB LC LU) mem_error).

Definition mem_view (m : mem) := slots_view (mem_world m).

(** A slot list that says what the kernel maps. *)
Definition holds (m : mem) (vb : list (Slot ArcMemPages)) : Prop :=
  slots_ok (fst (mem_world m)) ∧ Addressable_wf vb ∧
  ∀ g s h, maps (fst (mem_world m)) g s h ↔
    ∃ t, t ∈ vb ∧ slot_addr t = g ∧ pg_size (slot_backend t) = s ∧ pg_addr (slot_backend t) = h.

Lemma slots_ok_view (k k' : KvmMemory K * X) :
  slots_view k' = slots_view k → slots_ok (fst k) → slots_ok (fst k').
Proof.
  intros [= E1 E2 E3] [A B D]. unfold kslots in *.
  split; unfold kslots; rewrite ?E1, ?E2, ?E3; done.
Qed.

Lemma holds_view m m' vb : mem_view m' = mem_view m → holds m vb → holds m' vb.
Proof.
  intros E (Hok & Hwf & Hm). split; [by eapply slots_ok_view|]. split; [done|].
  intros g s h. rewrite <- Hm. apply maps_ext. unfold mem_view in E. by injection E.
Qed.

Lemma keeps_callback {E} (f : KvmMemory K * X → _ * outcome E unit) inj :
  (∀ w, slots_view (fst (f w)) = slots_view w) → keeps mem_view (on_world f inj : M unit).
Proof. intros Hf m. apply Hf. Qed.

Lemma notify_updated_view b : keeps mem_view (notify_updated b : M unit).
Proof.
  intros m. unfold notify_updated, sbind, sget. destruct b; [|done].
  apply keeps_for. intros x. apply keeps_callback. intros w. apply lu_updated_slots.
Qed.

(** One range. *)
Lemma map_to_vm_holds gpa (p : ArcMemPages) m m' vb :
  holds m vb → in_u 64 gpa → in_u 64 (pg_size p) → gpa + pg_size p ≤ 2 ^ 64 →
  (map_to_vm gpa p : M unit) m = (m', Ok tt) →
  ∃ vb' i, Addressable_add vb gpa p = (vb', Ok i) ∧ holds m' vb'.
Proof.
  intros (Hok & Hwf & Hm) Hg Hp Hend E. unfold map_to_vm, on_world in E. simpl in E.
  unfold on_fst in E. destruct (mem_map gpa (pg_size p) (pg_addr p) map_to_vm_options
    (fst (mem_world m))) as [k' [[]|e|]] eqn:Ek; simplify_eq/=.
  apply mem_map_Ok in Ek as (Hok' & _ & Hnz & _ & Hdis & Hmaps); [|done|apply Hp].
  pose proof (add_outcome vb gpa p Hwf Hg Hp) as [Hwf' Ho].
  destruct (Addressable_add vb gpa p) as [vb' r] eqn:Ea. cbn [fst snd] in *.
  assert (∀ c, c ∈ vb → ¬ overlaps (mkSlot gpa p) c) as Hfree.
  { intros c Hc [Ho1 Ho2]. unfold slot_end, slot_size, pages_backend in Ho1, Ho2. simpl in *.
    destruct (Hdis (slot_addr c) (pg_size (slot_backend c)) (pg_addr (slot_backend c))); [|lia..].
    apply Hm. by exists c. }
  unfold slot_size, pages_backend in Ho.
  destruct r as [i|e|]; [|exfalso|done].
  - destruct Ho as (_ & _ & _ & -> & _). exists (vec_insert i (mkSlot gpa p) vb), i. split; [done|].
    split; [done|]. split; [done|]. simpl. intros g s h. rewrite Hmaps, Hm.
    setoid_rewrite vec_insert_perm. setoid_rewrite elem_of_cons. split.
    + intros [(-> & -> & ->)|(t & ? & ?)]; [by exists (mkSlot gpa p); auto|exists t; auto].
    + intros (t & [->|Ht] & <- & <- & <-); [by left|right; by exists t].
  - destruct e; try done; [lia|lia|]. destruct Ho as (_ & _ & _ & _ & c & Hc & Hov & _).
    by apply (Hfree c).
Qed.

Lemma unmap_from_vm_holds gpa (p : ArcMemPages) m m' vb :
  holds m vb → pg_size p ≠ 0 → (unmap_from_vm gpa p : M unit) m = (m', Ok tt) →
  ∃ vb' b, Addressable_remove vb gpa = (vb', Ok b) ∧ holds m' vb'.
Proof.
  intros (Hok & Hwf & Hm) Hp E. unfold unmap_from_vm, on_world in E. simpl in E.
  unfold on_fst in E.
  destruct (unmap gpa (pg_size p) (fst (mem_world m))) as [k' [[]|e|]] eqn:Ek; simplify_eq/=.
  apply unmap_Ok in Ek as (Hok' & _ & [hva Hh] & Hmaps); [|done].
  apply Hm in Hh as (t & Ht & <- & Es & Eh).
  destruct (bus_remove_total vb t Hwf Ht) as (vb' & b & Er). exists vb', b. split; [done|].
  apply bus_remove_ok in Er as (Hwf' & _ & Hin); [|done].
  split; [done|]. split; [done|]. simpl. intros g s h. rewrite Hmaps, Hm. split.
  - intros [Hn (t' & Ht' & <- & <- & <-)]. exists t'. split; [|done]. apply Hin. split; [done|].
    intros Ea. apply Hn. split; [done|]. by rewrite (slot_addr_inj vb t' t) by done.
  - intros (t' & [Ht' Hne]%Hin & <- & <- & <-). split; [naive_solver|by exists t'].
Qed.

Lemma map_range_holds gpa upd r m m' u vb :
  holds m vb → in_u 64 gpa → in_u 64 (range_size r) → gpa + range_size r ≤ 2 ^ 64 →
  (map_range gpa upd r : M bool) m = (m', Ok u) →
  ∃ vb', holds m' vb' ∧
    match map_of r with
    | Some p => ∃ i, Addressable_add vb gpa p = (vb', Ok i)
    | None => vb' = vb
    end.
Proof.
  intros Hh Hg Hs Hend E. destruct r as [p|p|d|z]; simpl in *.
  - inv_ok E. destruct a. eapply map_to_vm_holds in Ek as (vb' & i & Ea & Hh'); [|done..].
    exists vb'. split; [|by exists i]. inv_ok E. injection Ek as <- <-. inv_ok E.
    apply (keeps_Ok mem_view) in Ek;
      [|apply keeps_for; intros ?; apply keeps_callback; intros; apply lc_added_slots].
    apply (holds_view _ _ vb') in Ek; [|done]. inv_ok E. injection E as <- _.
    unfold on_ram_bus in Ek0. by destruct (RamBus_add _ _ _) as [l [x|e|]]; simplify_eq/=.
  - inv_ok E. destruct a. injection E as <- _. eapply map_to_vm_holds in Ek as (vb' & i & Ea & Hh'); [|done..].
    exists vb'. split; [done|by exists i].
  - inv_ok E. injection E as <- _. unfold on_mmio_bus in Ek.
    destruct (MmioBus_add _ _ _) as [l [x|e|]]; simplify_eq/=.
    by exists vb.
  - injection E as <- _. by exists vb.
Qed.

Lemma unmap_range_holds gpa upd r m m' u vb :
  holds m vb → (is_Some (map_of r) → range_size r ≠ 0) →
  (unmap_range gpa upd r : M bool) m = (m', Ok u) →
  ∃ vb', holds m' vb' ∧
    match map_of r with
    | Some _ => ∃ b, Addressable_remove vb gpa = (vb', Ok b)
    | None => vb' = vb
    end.
Proof.
  intros Hh Hnz E. destruct r as [p|p|d|z]; simpl in *.
  - inv_ok E. unfold on_ram_bus in Ek. destruct (RamBus_remove _ _) as [l [x|e|]]; simplify_eq/=.
    inv_ok E. injection Ek as <- <-. inv_ok E.
    apply (keeps_Ok mem_view) in Ek;
      [|apply keeps_for; intros ?; apply keeps_callback; intros; apply lc_removed_slots].
    apply (holds_view _ _ vb) in Ek; [|done]. inv_ok E. injection E as <- _. destruct a1.
    eapply unmap_from_vm_holds in Ek0 as (vb' & b & Er & Hh'); [|done|by apply Hnz].
    exists vb'. split; [done|by exists b].
  - inv_ok E. destruct a. injection E as <- _.
    eapply unmap_from_vm_holds in Ek as (vb' & b & Er & Hh'); [|done|by apply Hnz].
    exists vb'. split; [done|by exists b].
  - inv_ok E. injection E as <- _. unfold on_mmio_bus in Ek.
    destruct (MmioBus_remove _ _) as [l [x|e|]]; simplify_eq/=.
    by exists vb.
  - injection E as <- _. by exists vb.
Qed.

Lemma map_of_size (r : MemRange R) p : map_of r = Some p → slot_size p = range_size r.
Proof. destruct r; simpl; naive_solver. Qed.
Abbreviation map_slots := (range_slots (R := R) map_of).

(** The loops. *)
Lemma map_ranges_holds addr offset upd rs m m' u vb :
  (map_ranges addr offset upd rs : M bool) m = (m', Ok u) → holds m vb →
  ranges_typed rs → 0 ≤ addr → 0 ≤ offset →
  offset + ranges_total rs < 2 ^ 64 → addr + offset + ranges_total rs ≤ 2 ^ 64 →
  ∃ vb', holds m' vb' ∧ adds (map_slots (addr + offset) rs) vb vb'.
Proof.
  intros E Hh Ht. revert offset upd m vb E Hh.
  induction Ht as [|r rs Hz Ht IH]; intros offset upd m vb E Hh Ha Ho Hlt Hle; simpl in *.
  { injection E as <- <-. exists vb. split; [done|]. apply adds_nil, Hh. }
  pose proof (ranges_total_nonneg rs Ht). destruct (Hz) as [Hz0 _].
  inv_ok E. rewrite (wrap_small 64 (offset + _)) in E by (unfold in_u; lia).
  pose proof (wrap_in_u 64 (addr + offset) ltac:(lia)) as Hw.
  assert (u64 (addr + offset) ≤ addr + offset) by (apply Z.mod_le; lia).
  eapply map_range_holds in Ek as (vb1 & Hh1 & Ea); [|done..|lia].
  destruct (IH _ _ _ vb1 E Hh1) as (vb2 & Hh2 & IH1); [lia..|].
  rewrite (Z.add_assoc addr offset) in IH1. exists vb2. split; [done|].
  eapply (adds_step map_of map_of_size (addr + offset) r rs); [apply Hh|done|lia..|exact Ea|done].
Qed.

Definition maps_nonempty (rs : list (MemRange R)) : Prop :=
  Forall (λ r, is_Some (map_of r) → range_size r ≠ 0) rs.

Lemma unmap_ranges_holds addr offset upd rs m m' u vb :
  (unmap_ranges addr offset upd rs : M bool) m = (m', Ok u) → holds m vb →
  ranges_typed rs → maps_nonempty rs → 0 ≤ addr → 0 ≤ offset →
  offset + ranges_total rs < 2 ^ 64 → addr + offset + ranges_total rs ≤ 2 ^ 64 →
  ∃ vb', holds m' vb' ∧ removes (map_slots (addr + offset) rs) vb vb'.
Proof.
  intros E Hh Ht. revert offset upd m vb E Hh.
  induction Ht as [|r rs Hz Ht IH]; intros offset upd m vb E Hh Hne Ha Ho Hlt Hle; simpl in *.
  { injection E as <- <-. exists vb. split; [done|]. apply removes_nil, Hh. }
  apply Forall_cons in Hne as [Hne1 Hne].
  pose proof (ranges_total_nonneg rs Ht). destruct (Hz) as [Hz0 _].
  inv_ok E. rewrite (wrap_small 64 (offset + _)) in E by (unfold in_u; lia).
  eapply unmap_range_holds in Ek as (vb1 & Hh1 & Ea); [|done..].
  destruct (IH _ _ _ vb1 E Hh1) as (vb2 & Hh2 & IH1); [done|lia..|].
  rewrite (Z.add_assoc addr offset) in IH1. exists vb2. split; [done|].
  eapply (removes_step map_of (addr + offset) r rs); [apply Hh|lia|lia|done|exact Ea|done].
Qed.

(** ** The regions *)

Definition kvm_mirrors (rs : list (Slot (MemRegion R CB))) (m : mem) : Prop :=
  ∃ vb, holds m vb ∧ bus_mirrors map_of rs vb.

Lemma mirrors_view rs m m' : mem_view m' = mem_view m → kvm_mirrors rs m → kvm_mirrors rs m'.
Proof. intros E (vb & Hh & Hb). exists vb. split; [by eapply holds_view|done]. Qed.

Lemma callbacks_view {A} (xs : list A) (f : A → KvmMemory K * X → _ * outcome mem_error unit) :
  (∀ x w, slots_view (fst (f x w)) = slots_view w) →
  keeps mem_view (sfor xs (λ x, on_world (f x) id : M unit)).
Proof. intros Hf. apply keeps_for. intros x. by apply keeps_callback. Qed.

Lemma add_region_mirrors addr region m m' :
  mem_inv m → in_u 64 addr → region_typed region →
  (add_region addr region : M unit) m = (m', Ok tt) →
  kvm_mirrors (mem_regions m) m → kvm_mirrors (mem_regions m') m'.
Proof.
  intros Hinv Ha Ht E (vb & Hh & Hb).
  destruct (add_region_regions _ _ _ _ Hinv Ha E) as [Hrs _]. destruct Hinv as [[Hwf _ _ _] _].
  unfold add_region in E. inv_ok E. injection Ek as <- Hv. destruct a. apply validate_fits in Hv; [|done].
  inv_ok E. unfold on_regions in Ek.
  destruct (Addressable_add (mem_regions m) addr region) as [rs' o] eqn:Ea.
  simpl in Ek. injection Ek as <- ->.
  apply bus_add_ok in Ea as (_ & _ & Hend & _); [|done|done|apply region_size_in_u].
  inv_ok E. inv_ok E. apply (keeps_Ok mem_view) in Ek0; [|apply notify_updated_view].
  apply (keeps_Ok mem_view) in E; [|apply callbacks_view; intros; apply cb_mapped_slots].
  destruct Hv as [Hty Hle]. pose proof (region_size_in_u region) as [_ ?].
  unfold slot_size, region_backend in Hend. destruct Ha as [Ha _].
  eapply map_ranges_holds in Ek as (vb' & Hh' & Hadds); [|exact Hh|done|lia..].
  rewrite Z.add_0_r in Hadds. exists vb'. split; [by eapply holds_view; [etrans|]|].
  by eapply (mirrors_add map_of _ _ _ _ (mkSlot addr region)).
Qed.

Lemma unmap_region_mirrors rs rs' r m m' :
  layout_inv rs m → r ∈ rs → (∀ t, t ∈ rs' ↔ t ∈ rs ∧ slot_addr t ≠ slot_addr r) →
  (unmap_region (slot_addr r) (slot_backend r) : M unit) m = (m', Ok tt) →
  kvm_mirrors rs m → kvm_mirrors rs' m'.
Proof.
  intros [Hwf Hfit _ _] Hr Hrs E (vb & Hh & Hb). unfold unmap_region in E.
  inv_ok E. inv_ok E. apply (keeps_Ok mem_view) in Ek0; [|apply notify_updated_view].
  apply (keeps_Ok mem_view) in E; [|apply callbacks_view; intros; apply cb_unmapped_slots].
  destruct (Hfit r Hr) as [Hty Hle]. pose proof (region_size_in_u (slot_backend r)) as [_ ?].
  destruct (slots_wf_bound _ _ _ Hwf Hr) as (? & ? & Hend). unfold slot_end in Hend.
  unfold slot_size, region_backend in Hend.
  eapply unmap_ranges_holds in Ek as (vb' & Hh' & Hrm); [|exact Hh|done| |lia..].
  - rewrite Z.add_0_r in Hrm. exists vb'. split; [by eapply holds_view; [etrans|]|].
    by eapply (mirrors_remove map_of map_of_size rs _ _ _ r).
  - apply Forall_forall. intros x Hx Hs. by eapply (mirrors_nonempty map_of map_of_size).
Qed.

Lemma remove_region_mirrors addr region m m' :
  mem_inv m → (remove_region addr : M _) m = (m', Ok region) →
  kvm_mirrors (mem_regions m) m → kvm_mirrors (mem_regions m') m'.
Proof.
  intros Hinv E Hk. destruct (remove_region_ok _ _ _ _ Hinv E) as (_ & Hin & Hrs).
  unfold remove_region in E. inv_ok E. inv_ok E. injection E as <- <-. unfold on_regions in Ek.
  destruct (Addressable_remove (mem_regions m) addr) as [rs' o] eqn:Ea.
  simpl in Ek. injection Ek as <- ->. destruct a0.
  apply (unmap_region_mirrors (mem_regions m) (mem_regions s0) (mkSlot addr a) _ _) in Ek0;
    [done| |done|done|by eapply mirrors_view].
  apply (layout_inv_frame _ m); [done..|apply Hinv].
Qed.

Lemma unmap_all_mirrors rs m m' :
  layout_inv rs m →
  sfor (Addressable_iter rs) (λ '(addr, region), unmap_region addr region : M unit) m = (m', Ok tt) →
  kvm_mirrors rs m → kvm_mirrors [] m'.
Proof.
  revert m. induction rs as [|r rs IH]; intros m Hinv E Hk; simpl in E; [by injection E as <-|].
  inv_ok E. destruct a. destruct (wf_tail r rs (inv_regions _ _ Hinv)) as [Hwf Hrs].
  pose proof (unmap_region_ok (r :: rs) rs r m s Hinv ltac:(by left) Hrs Hwf Ek) as [Hinv' _].
  eapply IH; [done|exact E|]. eapply unmap_region_mirrors; [exact Hinv|by left|done|exact Ek|done].
Qed.

(** The operations on ports and the registrations leave the regions and the slots. *)
Definition full_view (m : mem) := (mem_regions m, mem_view m).

Lemma keeps_full {E} (f : KvmMemory K * X → _ * outcome E unit) inj :
  (∀ w, slots_view (fst (f w)) = slots_view w) → keeps full_view (on_world f inj : M unit).
Proof. intros Hf m. unfold full_view, mem_view, on_world. simpl. by rewrite Hf. Qed.

Lemma add_io_view port region : keeps full_view (add_io_region port region : M unit).
Proof.
  do 2 (apply keeps_bind; [by intros m|intros ?]). apply keeps_for. intros cb.
  apply keeps_full. intros w. apply cb_mapped_slots.
Qed.
Lemma unmap_io_view port region : keeps full_view (unmap_io_region port region : M unit).
Proof.
  apply keeps_bind; [by intros m|intros ?]. apply keeps_for. intros cb.
  apply keeps_full. intros w. apply cb_unmapped_slots.
Qed.
Lemma remove_io_view port : keeps full_view (discard (remove_io_region port) : M unit).
Proof.
  apply keeps_bind; [|by intros]. apply keeps_bind; [by intros m|]. intros r.
  apply keeps_bind; [apply unmap_io_view|by intros].
Qed.
Lemma register_change_view (lc : LC) : keeps full_view (register_change_callback lc : M unit).
Proof.
  apply keeps_bind; [by intros m|]. intros m. apply keeps_bind; [|by intros ? ?].
  apply keeps_for. intros [addr region]. generalize 0.
  induction (region_ranges region) as [|r rs IH]; intros o; simpl; [by intros ?|].
  apply keeps_bind; [|intros _; apply IH].
  destruct r; try (by intros ?). apply keeps_full. intros w. apply lc_added_slots.
Qed.
Lemma register_update_view (lu : LU) : keeps full_view (register_update_callback lu : M unit).
Proof.
  apply keeps_bind; [by intros m|]. intros m. apply keeps_bind; [|by intros ? ?].
  apply keeps_full. intros w. apply lu_updated_slots.
Qed.

Lemma reset_mirrors m m' :
  mem_inv m → (reset : M unit) m = (m', Ok tt) →
  kvm_mirrors (mem_regions m) m → kvm_mirrors (mem_regions m') m'.
Proof.
  intros Hinv E Hk. destruct (reset_ok _ _ Hinv E) as (_ & Hr & _). rewrite Hr.
  destruct Hinv as [Hinv _]. unfold reset in E. inv_ok E. destruct a. unfold clear in Ek.
  inv_ok Ek. injection Ek0 as <- <-. inv_ok Ek. destruct a.
  apply unmap_all_mirrors in Ek0 as (vb & (Hok & _ & _) & _);
    [|by apply (layout_inv_frame _ m)|by eapply mirrors_view].
  inv_ok Ek. injection Ek0 as <- <-. apply (keeps_Ok mem_view) in Ek;
    [|apply keeps_for; intros [port region] m1; exact (f_equal snd (unmap_io_view (u16 port) region m1))].
  assert (slots_ok (fst (mem_world s))) as Hs by (by eapply slots_ok_view).
  unfold on_world in E. simpl in E. unfold on_fst in E.
  destruct (reset_slots (fst (mem_world s))) as [k' [[]|e|]] eqn:Er; simplify_eq/=.
  apply reset_slots_Ok in Er as (Hok' & _ & He); [|done].
  exists []. split; [split; [done|split; [done|]]|split; [done|]].
  - intros g sz h. simpl. unfold maps. rewrite He. set_solver.
  - set_solver.
Qed.

(** Sequences of successful calls, among which anything but the slots may change. *)
Inductive kvm_reachable (w : KvmMemory K * X) : mem → Prop :=
| kreach_new : kvm_reachable w (Memory_new w)
| kreach_op m o m' :
    kvm_reachable w m → mem_op_typed o → run_mem_op o m = (m', Ok tt) → kvm_reachable w m'
| kreach_world m w' :
    kvm_reachable w m → slots_view w' = slots_view (mem_world m) → kvm_reachable w (set_world w' m).

Lemma kvm_reachable_mem w m : kvm_reachable w m → mem_reachable w m.
Proof. induction 1; [apply reach_new|by eapply reach_op|by apply reach_world]. Qed.

Lemma run_mem_op_mirrors o m m' :
  mem_inv m → mem_op_typed o → run_mem_op o m = (m', Ok tt) →
  kvm_mirrors (mem_regions m) m → kvm_mirrors (mem_regions m') m'.
Proof.
  intros Hinv Ht E Hk.
  assert (full_view m' = full_view m → kvm_mirrors (mem_regions m') m') as Hsame.
  { intros [= -> Ev1 Ev2 Ev3]. apply (mirrors_view _ m); [|done]. unfold mem_view, slots_view. congruence. }
  destruct o; simpl in *.
  - destruct Ht. by eapply add_region_mirrors.
  - unfold discard in E. inv_ok E. injection E as <-. by eapply remove_region_mirrors.
  - apply Hsame. eapply keeps_Ok; [apply add_io_view|exact E].
  - apply Hsame. eapply keeps_Ok; [apply remove_io_view|exact E].
  - by eapply reset_mirrors.
  - apply Hsame. eapply keeps_Ok; [apply register_change_view|exact E].
  - apply Hsame. eapply keeps_Ok; [apply register_update_view|exact E].
Qed.

Lemma kvm_reachable_mirrors v x m :
  kernel_slots (vm_kernel v) = ∅ → kvm_reachable (KvmMemory_new v, x) m →
  kvm_mirrors (mem_regions m) m.
Proof.
  intros He. induction 1 as [|m o m' Hr IH Ht E|m w' Hr IH Ev].
  - exists []. split; [|split; [done|set_solver]].
    split; [by apply slots_ok_new|]. split; [done|]. intros g s h.
    unfold maps, kslots. simpl. rewrite He. set_solver.
  - eapply run_mem_op_mirrors; [|done|done|done]. by eapply reachable_inv, kvm_reachable_mem.
  - by apply (mirrors_view _ m).
Qed.
End Mirror.

(** What the guest sees is the map of regions.  On a machine whose memory was
    just created, after any sequence of successful calls, the kernel maps [size]
    bytes of host memory [hva] at the guest address [gpa] exactly when a mapped
    region has a RAM or device-memory range with these pages at that address; in
    particular the RAM bus, through which the devices reach the guest's memory,
    gives every page the address the guest uses for it. *)
Theorem memory_kvm_mirror {K X R C CB LC LU : Type} `{KvmKernel K} `{!KvmSlots K} `{!KvmSlotsLaws K}
  `{!HashIter} `{!HashIterLaws} `{Mmio (KvmMemory K * X) R C}
  `{!MemCallbacks (KvmMemory K * X) CB LC LU} `{!CallbacksKeepSlots K X CB LC LU}
  (v : VmInner K) (x : X) (m : Memory (KvmMemory K * X) R CB LC LU) :
  kernel_slots (vm_kernel v) = ∅ → kvm_reachable (KvmMemory_new v, x) m →
  (∀ gpa size hva, maps (fst (mem_world m)) gpa size hva ↔
     ∃ r p, r ∈ mem_regions m ∧
       mkSlot gpa p ∈ range_slots map_of (slot_addr r) (region_ranges (slot_backend r)) ∧
       pg_size p = size ∧ pg_addr p = hva) ∧
  (∀ s, s ∈ mem_ram_bus m →
     maps (fst (mem_world m)) (slot_addr s) (pg_size (slot_backend s)) (pg_addr (slot_backend s))).
Proof.
  intros He Hr. destruct (kvm_reachable_mirrors _ _ _ He Hr) as (vb & (_ & _ & Hm) & _ & Hb).
  assert (∀ gpa size hva, maps (fst (mem_world m)) gpa size hva ↔
     ∃ r p, r ∈ mem_regions m ∧
       mkSlot gpa p ∈ range_slots map_of (slot_addr r) (region_ranges (slot_backend r)) ∧
       pg_size p = size ∧ pg_addr p = hva) as Hmaps.
  { intros gpa size hva. rewrite Hm. split.
    - intros (t & (r & Hin & Ht)%Hb & <- & <- & <-). exists r, (slot_backend t). by destruct t.
    - intros (r & p & Hin & Ht & <- & <-). exists (mkSlot gpa p). split; [|done]. apply Hb. by exists r. }
  split; [done|]. intros [a p] Hs. apply Hmaps. simpl.
  destruct (reachable_inv _ _ (kvm_reachable_mem _ _ Hr)) as [[_ _ _ [_ Hram]] _].
  apply Hram in Hs as (r & Hin & Hs). exists r, p. split_and!; try done.
  revert Hs. generalize (slot_addr r). clear.
  induction (region_ranges (slot_backend r)) as [|y ys IH]; intros z; simpl; [done|].
  destruct y; simpl; rewrite ?elem_of_cons; naive_solver.
Qed.

(** A machine on the executable kernel with one region: RAM, a hole, a device and
    device memory. *)
Module SimMachine.
Definition world : Type := KvmMemory SimKernel * unit.

#[export] Instance sim_mmio : Mmio world Z Empty_set := {|
  mmio_size := id;
  mmio_read := λ _ off _ w, (w, Ok off);
  mmio_write := λ _ _ _ _ w, (w, Ok ActNone)
|}.
#[export] Instance sim_callbacks : MemCallbacks world unit unit unit := {|
  cb_mapped := λ _ _ w, (w, Ok tt);
  cb_unmapped := λ _ w, (w, Ok tt);
  lc_ram_added := λ _ _ _ w, (w, Ok tt);
  lc_ram_removed := λ _ _ _ w, (w, Ok tt);
  lu_ram_updated := λ _ _ w, (w, Ok tt)
|}.
#[export] Instance sim_keep_slots : CallbacksKeepSlots SimKernel unit unit unit unit.
Proof. by split. Qed.

Definition pages (addr size : Z) : ArcMemPages := mkPages addr size None.
Definition region : MemRegion Z unit :=
  mkRegion [RangeRam (pages 0x100000 0x1000); RangeSpan 0x1000; RangeEmulated 0x100;
            RangeDevMem (pages 0x200000 0x700)]
    [mkEntry 0x4000 TypeRam] [].
Definition w0 : world := (KvmMemory_new (VmInner_new sim_new None), tt).
Definition m1 : Memory world Z unit unit unit := fst (add_region 0x8000 region (Memory_new w0)).

Lemma m1_kvm_reachable : kvm_reachable w0 m1.
Proof.
  apply (kreach_op w0 (Memory_new w0) (OpAddRegion 0x8000 region)); [apply kreach_new| |reflexivity].
  split; [by_eval|]. split; [|done]. repeat constructor; done.
Qed.
End SimMachine.
Import (hints) SimMachine.

Lemma memory_kvm_mirror_witness :
  maps (fst (mem_world SimMachine.m1)) 0x8000 0x1000 0x100000 ∧
  maps (fst (mem_world SimMachine.m1)) 0xa100 0x700 0x200000.
Proof.
  assert (kernel_slots (vm_kernel (VmInner_new sim_new None)) = ∅) as He by done.
  destruct (memory_kvm_mirror _ tt SimMachine.m1 He SimMachine.m1_kvm_reachable) as [H1 _].
  split; apply H1; exists (mkSlot 0x8000 SimMachine.region).
  - exists (SimMachine.pages 0x100000 0x1000). split_and!; [by left|by left|done|done].
  - exists (SimMachine.pages 0x200000 0x700). split_and!; [by left|by right; left|done|done].
Defined.
