(* ===== verification/KvmIrq.v ===== *)
(** * Interrupts on KVM: the objects of a machine and what they keep

    A machine and the interrupt file descriptors and pin senders it has handed out,
    the operations on them, and the invariant that holds whatever the kernel answers:
    every live descriptor has a GSI of its own, apart from the pins, and the routing
    table never overflows. *)

From S2P Require Import Prelude Utils MemTypes KvmVm KvmSpec.

Open Scope stm_scope.

(** ** The machine and its objects *)

Record IrqState (K : Type) := mkIrqState {
  st_vm : VmInner K;
  st_irqfds : list KvmIrqFd;
  st_senders : list KvmIrqSender
}.
Arguments mkIrqState {K} _ _ _.
Arguments st_vm {K} _.
Arguments st_irqfds {K} _.
Arguments st_senders {K} _.

Inductive irq_op :=
| OpCreateIrqFd (devid : Z)
| OpSet (i : nat) (f : msi_field) (val : Z)
| OpSetMasked (i : nat) (val : bool)
| OpDropIrqFd (i : nat)
| OpCreateSender (pin : Z)
| OpSendPin (i : nat)
| OpDropSender (i : nat)
| OpSendMsi (devid addr data : Z).

Section Ops.
Context {K : Type} `{KvmKernel K} `{KvmArch} `{HashIter}.
Abbreviation state := (IrqState K).

Definition on_machine {A} (p : stm (VmInner K) hv_error A) (k : A → state → state) (st : state)
  : state * outcome hv_error unit :=
  match p (st_vm st) with
  | (v, Ok a) => (k a (mkIrqState v (st_irqfds st) (st_senders st)), Ok tt)
  | (v, Err e) => (mkIrqState v (st_irqfds st) (st_senders st), Err e)
  | (v, Panic) => (mkIrqState v (st_irqfds st) (st_senders st), Panic)
  end.

Definition keep {A} (_ : A) (st : state) : state := st.

Definition with_irqfd {A} (i : nat) (p : KvmIrqFd → stm (VmInner K) hv_error A)
  (k : A → state → state) (st : state) : state * outcome hv_error unit :=
  match st_irqfds st !! i with Some h => on_machine (p h) k st | None => (st, Ok tt) end.
Definition with_sender {A} (i : nat) (p : KvmIrqSender → stm (VmInner K) hv_error A)
  (k : A → state → state) (st : state) : state * outcome hv_error unit :=
  match st_senders st !! i with Some s => on_machine (p s) k st | None => (st, Ok tt) end.

Definition run_irq_op (o : irq_op) : state → state * outcome hv_error unit :=
  match o with
  | OpCreateIrqFd devid => on_machine (create_irqfd (mkMsiSender devid))
      (λ h st, mkIrqState (st_vm st) (h :: st_irqfds st) (st_senders st))
  | OpSet i f val => with_irqfd i (λ h, KvmIrqFd_set f h val) keep
  | OpSetMasked i val => with_irqfd i (λ h, set_masked h val) keep
  | OpDropIrqFd i => with_irqfd i KvmIrqFd_drop
      (λ _ st, mkIrqState (st_vm st) (delete i (st_irqfds st)) (st_senders st))
  | OpCreateSender pin => on_machine (create_irq_sender pin)
      (λ s st, mkIrqState (st_vm st) (st_irqfds st) (s :: st_senders st))
  | OpSendPin i => with_sender i KvmIrqSender_send keep
  | OpDropSender i => with_sender i KvmIrqSender_drop
      (λ _ st, mkIrqState (st_vm st) (st_irqfds st) (delete i (st_senders st)))
  | OpSendMsi devid addr data => on_machine (KvmMsiSender_send (mkMsiSender devid) addr data) keep
  end.

Definition irq_op_typed (o : irq_op) : Prop :=
  match o with OpCreateSender pin => 0 ≤ pin < Z.of_nat arch_max_pin | _ => True end.

Definition irq_new (k : K) (memfd : option Z) : state := mkIrqState (VmInner_new k memfd) [] [].

(** Any sequence of operations, whatever they return, while the rest of the program
    uses the kernel. *)
Inductive irq_runs (k : K) (memfd : option Z) : state → Prop :=
| runs_new : irq_runs k memfd (irq_new k memfd)
| runs_op st o : irq_runs k memfd st → irq_runs k memfd (fst (run_irq_op o st))
| runs_kernel st k' : irq_runs k memfd st →
    irq_runs k memfd (mkIrqState (set_kernel k' (st_vm st)) (st_irqfds st) (st_senders st)).

(** ** The table of GSIs *)

Definition gsi_range (g : Z) : Prop := 24 ≤ g < MAX_GSI_ROUTES.

(** The GSIs of the table are those of the live descriptors. *)
Record gsis_ok (t : gmap Z KvmMsiEntryData) (hs : list KvmIrqFd) : Prop := {
  gsis_nodup : NoDup (irqfd_gsi <$> hs);
  gsis_dom g : is_Some (t !! g) ↔ g ∈ irqfd_gsi <$> hs;
  gsis_range g : is_Some (t !! g) → gsi_range g
}.

Lemma table_small t hs : gsis_ok t hs → (size t ≤ 232)%nat.
Proof.
  intros [_ _ Hr]. rewrite <- (size_dom (D := gset Z)).
  transitivity (size (list_to_set (seqZ 24 232) : gset Z)).
  - apply subseteq_size. intros g Hg%elem_of_dom. apply elem_of_list_to_set, elem_of_seqZ.
    specialize (Hr g Hg). unfold gsi_range, MAX_GSI_ROUTES in Hr. lia.
  - rewrite size_list_to_set by apply NoDup_seqZ. by rewrite length_seqZ.
Qed.

Lemma gsis_full t hs :
  gsis_ok t hs → (∀ g, gsi_range g → is_Some (t !! g)) → length hs = 232%nat.
Proof.
  intros [Hn Hd Hr] Hall. rewrite <- (length_fmap irqfd_gsi).
  change 232%nat with (Z.to_nat 232). rewrite <- (length_seqZ 24 232).
  apply Permutation_length, NoDup_Permutation; [done|apply NoDup_seqZ|].
  intros g. rewrite <- Hd, elem_of_seqZ. split.
  - intros Hg%Hr. unfold gsi_range, MAX_GSI_ROUTES in Hg. lia.
  - intros Hg. apply Hall. unfold gsi_range, MAX_GSI_ROUTES. lia.
Qed.

(** [create_irqfd]'s search. *)
Definition next_gsi (v : VmInner K) : Z := vm_next_msi_gsi v mod 232 + 24.

Lemma allocate_gsi_S n new (v : VmInner K) :
  allocate_gsi (S n) new v =
  match vm_msi_table v !! next_gsi v with
  | Some e => allocate_gsi n new (set_next_msi_gsi (u32 (vm_next_msi_gsi v + 1)) v)
  | None => (set_next_msi_gsi (u32 (vm_next_msi_gsi v + 1))
               (set_msi_table (<[next_gsi v := new]> (vm_msi_table v)) v), Ok (Some (next_gsi v)))
  end.
Proof.
  destruct v as [k mfd io t next pm]. unfold next_gsi. cbn [vm_next_msi_gsi vm_msi_table].
  change (allocate_gsi (S n) new (mkVmInner k mfd io t next pm)) with
    (sbind (store_entry (next mod 232 + 24) new) (λ _,
       match t !! (next mod 232 + 24) with
       | Some e => store_entry (next mod 232 + 24) e ;;; allocate_gsi n new
       | None => sret (Some (next mod 232 + 24))
       end) (mkVmInner k mfd io t (u32 (next + 1)) pm)).
  unfold sbind at 1, store_entry at 1, smodify, set_msi_table. cbn [vm_msi_table].
  destruct (t !! (next mod 232 + 24)) as [e|] eqn:E; [|done].
  unfold sbind, store_entry, smodify, set_msi_table, set_next_msi_gsi.
  cbn [vm_kernel vm_memfd vm_ioeventfds vm_msi_table vm_next_msi_gsi vm_pin_map].
  by rewrite insert_insert_eq, insert_id.
Qed.

Lemma next_gsi_range v : gsi_range (next_gsi v).
Proof.
  unfold gsi_range, MAX_GSI_ROUTES, next_gsi. pose proof (Z.mod_pos_bound (vm_next_msi_gsi v) 232). lia.
Qed.

(** It finds the first free GSI, or all those it tried are taken. *)
Lemma allocate_gsi_ok n new (v : VmInner K) : ∃ next,
  (∃ g, allocate_gsi n new v =
          (set_next_msi_gsi next (set_msi_table (<[g := new]> (vm_msi_table v)) v), Ok (Some g)) ∧
        gsi_range g ∧ vm_msi_table v !! g = None) ∨
  allocate_gsi n new v = (set_next_msi_gsi next v, Ok None) ∧
  (0 ≤ vm_next_msi_gsi v → vm_next_msi_gsi v + Z.of_nat n ≤ 2 ^ 32 →
   ∀ i, 0 ≤ i < Z.of_nat n → is_Some (vm_msi_table v !! ((vm_next_msi_gsi v + i) mod 232 + 24))).
Proof.
  revert v. induction n as [|n IH]; intros v.
  { exists (vm_next_msi_gsi v). right. split; [by destruct v|lia]. }
  rewrite allocate_gsi_S. destruct (vm_msi_table v !! next_gsi v) as [e|] eqn:E.
  - destruct (IH (set_next_msi_gsi (u32 (vm_next_msi_gsi v + 1)) v)) as [next [(g & -> & Hg)|[-> Hf]]];
      exists next; [left; by exists g|right]. split; [done|]. intros Hn0 Hlt i Hi.
    destruct (decide (i = 0)) as [->|Hne]; [unfold next_gsi in E; by rewrite Z.add_0_r, E|].
    cbn [set_next_msi_gsi vm_next_msi_gsi vm_msi_table] in Hf. specialize (Hf ltac:(apply wrap_in_u; lia)).
    destruct (decide (n = 0)%nat) as [->|Hn]; [lia|].
    rewrite wrap_small in Hf by (unfold in_u; lia). specialize (Hf ltac:(lia) (i - 1) ltac:(lia)).
    by replace (vm_next_msi_gsi v + 1 + (i - 1)) with (vm_next_msi_gsi v + i) in Hf by lia.
  - eexists. left. exists (next_gsi v). split; [done|]. split; [apply next_gsi_range|done].
Qed.

(** When the search fails away from the wrap-around of the counter, no GSI is free. *)
Lemma allocate_gsi_full new (v v' : VmInner K) :
  allocate_gsi 232 new v = (v', Ok None) → 0 ≤ vm_next_msi_gsi v → vm_next_msi_gsi v + 232 ≤ 2 ^ 32 →
  ∀ g, gsi_range g → is_Some (vm_msi_table v !! g).
Proof.
  intros E Hn0 Hlt g Hg. destruct (allocate_gsi_ok 232 new v) as [next [(g' & E' & _)|[_ Hf]]]; [congruence|].
  specialize (Hf Hn0 Hlt ((g - 24 - vm_next_msi_gsi v) mod 232)).
  unfold gsi_range, MAX_GSI_ROUTES in Hg. rewrite Zplus_mod_idemp_r in Hf.
  replace (vm_next_msi_gsi v + (g - 24 - vm_next_msi_gsi v)) with (g - 24) in Hf by lia.
  specialize (Hf (Z.mod_pos_bound _ 232 ltac:(lia))). rewrite (Z.mod_small (g - 24)) in Hf by lia.
  by replace (g - 24 + 24) with g in Hf by lia.
Qed.

(** ** The operations, evaluated *)

Definition pins_below_msi : Prop := (arch_max_pin ≤ 24)%nat.

Lemma routing_length `{!HashIterLaws} pm t hs :
  pins_below_msi → gsis_ok t hs → (length (routing_entries pm t) ≤ 256)%nat.
Proof.
  intros Hp Ht. unfold routing_entries, pin_entries, msi_entries.
  rewrite length_app, !length_fmap.
  pose proof (length_filter (λ pin, pin_set pm pin = true) (seq 0 arch_max_pin)).
  pose proof (length_filter (λ '(gsi, entry), me_masked entry = false) (hash_iter t)).
  rewrite length_seq in *. pose proof (table_small _ _ Ht).
  assert (length (hash_iter t) = size t) as El by (by rewrite hash_iter_perm, length_map_to_list).
  unfold pins_below_msi in Hp. lia.
Qed.

Lemma update_eq `{!HashIterLaws} t hs (v : VmInner K) :
  pins_below_msi → gsis_ok t hs →
  update_routing_table t v =
    let r := kvm_set_gsi_routing (routing_entries (vm_pin_map v) t) (vm_kernel v) in
    (set_kernel (fst r) v, if snd r then Ok tt else Err KvmErr).
Proof.
  intros Hp Ht. unfold update_routing_table, sbind, sget.
  pose proof (routing_length (vm_pin_map v) t hs Hp Ht).
  rewrite (proj2 (Z.ltb_ge _ _)); [done|]. unfold MAX_GSI_ROUTES. lia.
Qed.

Lemma set_eq f h val (v : VmInner K) e :
  vm_msi_table v !! irqfd_gsi h = Some e →
  KvmIrqFd_set f h val v =
  if get_field f e =? val then (v, Ok tt)
  else
    let t e' := <[irqfd_gsi h := e']> (vm_msi_table v) in
    if me_masked e then (set_msi_table (t (set_dirty (set_field f val e))) v, Ok tt)
    else update_routing_table (t (set_field f val e)) (set_msi_table (t (set_field f val e)) v).
Proof.
  intros E. unfold KvmIrqFd_set, table_entry, sbind, sget. rewrite E. simpl.
  destruct (get_field f e =? val); [done|]. unfold store_entry, smodify.
  replace (me_masked (set_field f val e)) with (me_masked e) by (by destruct f).
  destruct (me_masked e); simpl; [|done].
  unfold set_msi_table. simpl. by rewrite insert_insert_eq.
Qed.

Lemma set_masked_eq h val (v : VmInner K) e :
  vm_msi_table v !! irqfd_gsi h = Some e →
  set_masked h val v =
  if Bool.eqb (me_masked e) val then (v, Ok false)
  else
    let t := <[irqfd_gsi h := set_mask val e]> (vm_msi_table v) in
    ((if val then deassign_irqfd h
      else (if me_dirty e then update_routing_table t else sret tt) ;;; assign_irqfd h) ;;;
     sret true) (set_msi_table t v).
Proof.
  intros E. unfold set_masked, table_entry, sbind, sget. rewrite E. simpl.
  destruct (Bool.eqb (me_masked e) val); [done|]. unfold store_entry, smodify. simpl.
  destruct val; simpl; [done|]. by destruct (me_dirty e).
Qed.

Lemma drop_eq h (v : VmInner K) :
  KvmIrqFd_drop h v =
  match vm_msi_table v !! irqfd_gsi h with
  | None => close_fd (irqfd_event_fd h) v
  | Some e =>
      ((if me_masked e then sret tt
        else syscall_logged
               (kvm_irqfd (mkKvmIrqfd (irqfd_event_fd h) (irqfd_gsi h) KvmIrqfdFlag.DEASSIGN))) ;;;
       close_fd (irqfd_event_fd h))
      (set_msi_table (delete (irqfd_gsi h) (vm_msi_table v)) v)
  end.
Proof.
  unfold KvmIrqFd_drop, sbind, sget. destruct (vm_msi_table v !! _) as [e|]; [|done].
  unfold smodify. by destruct (me_masked e).
Qed.

Definition new_entry (devid : Z) : KvmMsiEntryData := mkMsiEntry 0 0 0 true false devid.

Lemma create_irqfd_eq devid (v : VmInner K) : ∃ next,
  match sys_eventfd (vm_kernel v) with
  | (k', None) => create_irqfd (mkMsiSender devid) v = (set_kernel k' v, Err IrqFdErr)
  | (k', Some fd) =>
      (∃ g, create_irqfd (mkMsiSender devid) v =
              (set_next_msi_gsi next (set_msi_table (<[g := new_entry devid]> (vm_msi_table v)) (set_kernel k' v)),
               Ok (mkIrqFd fd g)) ∧ gsi_range g ∧ vm_msi_table v !! g = None) ∨
      create_irqfd (mkMsiSender devid) v =
        (set_next_msi_gsi next (set_kernel (sys_close fd k') v), Err KvmErr) ∧
      (0 ≤ vm_next_msi_gsi v → vm_next_msi_gsi v + 232 ≤ 2 ^ 32 →
       ∀ g, gsi_range g → is_Some (vm_msi_table v !! g))
  end.
Proof.
  unfold create_irqfd, sbind, syscall_val.
  destruct (sys_eventfd _) as [k' [fd|]]; cbn [fst snd msi_devid]; [|by exists 0].
  change (Z.to_nat (MAX_GSI_ROUTES - 24)) with 232%nat. fold (new_entry devid).
  destruct (allocate_gsi_ok 232 (new_entry devid) (set_kernel k' v)) as [next [(g & E & Hg & Hn)|[E _]]];
    exists next; [left; exists g; by rewrite E|right].
  split; [by rewrite E|]. intros H0' Hlt.
  exact (allocate_gsi_full _ _ _ E H0' Hlt).
Qed.

(** Calls that do not touch the table and do not panic. *)
Definition quiet {A} (p : stm (VmInner K) hv_error A) : Prop :=
  ∀ v, vm_msi_table (fst (p v)) = vm_msi_table v ∧ snd (p v) ≠ Panic.

Lemma quiet_bind {A B} (p : stm (VmInner K) hv_error A) (q : A → stm (VmInner K) hv_error B) :
  quiet p → (∀ a, quiet (q a)) → quiet (sbind p q).
Proof.
  intros Hp Hq v. unfold sbind. destruct (Hp v) as [E N]. destruct (p v) as [v' [a|e|]]; simpl in *; [|done..].
  destruct (Hq a v'). by split; [congruence|].
Qed.
Lemma quiet_syscall f e : quiet (syscall f e).
Proof. intros v. unfold syscall. simpl. by destruct (snd (f (vm_kernel v))). Qed.
Lemma quiet_val {A} (f : K → K * option A) e : quiet (syscall_val f e).
Proof. intros v. unfold syscall_val. simpl. by destruct (snd (f (vm_kernel v))). Qed.
Lemma quiet_logged f : quiet (syscall_logged f).
Proof. by intros v. Qed.
Lemma quiet_close fd : quiet (close_fd fd).
Proof. by intros v. Qed.
Lemma quiet_ret {A} (a : A) : quiet (sret a).
Proof. by intros v. Qed.
Lemma quiet_fail {A} e : quiet (sfail (A := A) e).
Proof. by intros v. Qed.
End Ops.
Create HintDb quiet.
#[export] Hint Resolve quiet_bind quiet_syscall quiet_val quiet_logged quiet_close quiet_ret quiet_fail : quiet.

(** ** Nothing panics, and the GSIs stay apart *)

Section Safe.
Context {K : Type} `{KvmKernel K} `{KvmArch} `{!HashIter} `{!HashIterLaws}.
Context (pins : pins_below_msi).

(** [p] keeps the table in step with the descriptors [hs], and does not panic. *)
Definition safe {A} (hs : list KvmIrqFd) (p : stm (VmInner K) hv_error A) : Prop :=
  ∀ v, gsis_ok (vm_msi_table v) hs → gsis_ok (vm_msi_table (fst (p v))) hs ∧ snd (p v) ≠ Panic.

Lemma keeps_gsis_bind {A B} hs (p : stm (VmInner K) hv_error A) (q : A → stm (VmInner K) hv_error B) :
  safe hs p → (∀ a, safe hs (q a)) → safe hs (sbind p q).
Proof.
  intros Hp Hq v Hv. unfold sbind. destruct (Hp v Hv) as [E N].
  destruct (p v) as [v' [a|e|]]; simpl in *; [by apply Hq|done..].
Qed.
Lemma keeps_gsis_quiet {A} hs (p : stm (VmInner K) hv_error A) : quiet p → safe hs p.
Proof. intros Hq v Hv. destruct (Hq v) as [-> ?]. done. Qed.

Lemma gsis_ok_insert t hs g e : gsis_ok t hs → g ∈ irqfd_gsi <$> hs → gsis_ok (<[g := e]> t) hs.
Proof.
  intros [A B C] Hg. pose proof (proj2 (B g) Hg) as Hs. split; [done| |];
    intros g'; rewrite lookup_insert_is_Some'; naive_solver.
Qed.

Lemma keeps_gsis_store hs g e : g ∈ irqfd_gsi <$> hs → safe hs (store_entry g e).
Proof. intros Hg v Hv. split; [by apply gsis_ok_insert|done]. Qed.
Lemma keeps_gsis_entry hs g : g ∈ irqfd_gsi <$> hs → safe hs (table_entry g).
Proof.
  intros Hg v Hv. destruct (proj2 (gsis_dom _ _ Hv g) Hg) as [e E].
  unfold table_entry, sbind, sget. rewrite E. done.
Qed.
Lemma keeps_gsis_update hs : safe hs (v <- sget ;; update_routing_table (vm_msi_table v)).
Proof.
  intros v Hv. unfold sbind, sget. rewrite (update_eq _ hs) by done. simpl.
  split; [done|]. by destruct (snd _).
Qed.

Lemma keeps_gsis_set hs f h val : h ∈ hs → safe hs (KvmIrqFd_set f h val).
Proof.
  intros Hh. assert (irqfd_gsi h ∈ irqfd_gsi <$> hs) as Hg by (by apply list_elem_of_fmap_2).
  apply keeps_gsis_bind; [by apply keeps_gsis_entry|]. intros e.
  destruct (_ =? _); [apply keeps_gsis_quiet; auto with quiet|].
  apply keeps_gsis_bind; [by apply keeps_gsis_store|]. intros _.
  destruct (negb _); [apply keeps_gsis_update|by apply keeps_gsis_store].
Qed.

Lemma keeps_gsis_set_masked hs h val : h ∈ hs → safe hs (set_masked h val).
Proof.
  intros Hh. assert (irqfd_gsi h ∈ irqfd_gsi <$> hs) as Hg by (by apply list_elem_of_fmap_2).
  apply keeps_gsis_bind; [by apply keeps_gsis_entry|]. intros e.
  destruct (Bool.eqb _ _); [apply keeps_gsis_quiet; auto with quiet|].
  apply keeps_gsis_bind; [by apply keeps_gsis_store|]. intros _.
  apply keeps_gsis_bind; [|intros _; apply keeps_gsis_quiet; auto with quiet].
  destruct val; simpl; [apply keeps_gsis_quiet; unfold deassign_irqfd; auto with quiet|].
  apply keeps_gsis_bind; [|intros _; apply keeps_gsis_quiet; unfold assign_irqfd; auto with quiet].
  destruct (me_dirty _); [apply keeps_gsis_update|apply keeps_gsis_quiet; auto with quiet].
Qed.

Lemma quiet_extension cap : quiet (check_extension cap).
Proof. apply quiet_bind; [auto with quiet|]. intros a. destruct (a =? 0); auto with quiet. Qed.

Lemma keeps_gsis_create_sender hs pin : safe hs (create_irq_sender pin).
Proof.
  apply keeps_gsis_bind; [by intros v|]. intros v0. apply keeps_gsis_bind; [by intros v|]. intros _.
  destruct (_ =? _); [apply keeps_gsis_quiet; auto with quiet|].
  apply keeps_gsis_bind; [apply keeps_gsis_quiet, quiet_extension|]. intros _.
  apply keeps_gsis_bind; [apply keeps_gsis_quiet; auto with quiet|]. intros fd.
  intros v Hv. assert (safe hs ((v <- sget ;; update_routing_table (vm_msi_table v)) ;;;
    syscall (kvm_irqfd (mkKvmIrqfd fd pin 0)) (CreateIrq pin) ;;; sret (mkIrqSender pin fd))) as Hs.
  { apply keeps_gsis_bind; [apply keeps_gsis_update|]. intros _. apply keeps_gsis_quiet. auto with quiet. }
  exact (Hs v Hv).
Qed.

Lemma gsis_ok_cons t hs g e fd :
  gsis_ok t hs → gsi_range g → t !! g = None → gsis_ok (<[g := e]> t) (mkIrqFd fd g :: hs).
Proof.
  intros [A B C] Hg Hn. assert (g ∉ irqfd_gsi <$> hs) as Hni.
  { rewrite <- B, Hn. by intros [? ?]. }
  split; simpl.
  - by constructor.
  - intros g'. rewrite lookup_insert_is_Some', elem_of_cons, B. naive_solver.
  - intros g'. rewrite lookup_insert_is_Some'. naive_solver.
Qed.

Lemma gsis_ok_delete t hs i h :
  gsis_ok t hs → hs !! i = Some h → gsis_ok (delete (irqfd_gsi h) t) (delete i hs).
Proof.
  intros [A B C] Hi. pose proof (delete_Permutation _ _ _ Hi) as Hp.
  assert (irqfd_gsi <$> hs ≡ₚ irqfd_gsi h :: (irqfd_gsi <$> delete i hs)) as Hq by (by rewrite Hp at 1).
  rewrite Hq in A. apply NoDup_cons in A as [Hni A]. setoid_rewrite Hq in B.
  split; [done| |].
  - intros g. rewrite lookup_delete_is_Some, B, elem_of_cons. split; [naive_solver|].
    intros Hg. split; [by intros <-|by right].
  - intros g [_ Hg]%lookup_delete_is_Some. by apply C.
Qed.

Definition irq_inv (st : IrqState K) : Prop := gsis_ok (vm_msi_table (st_vm st)) (st_irqfds st).

Lemma on_machine_safe {A} (p : stm (VmInner K) hv_error A) k st :
  safe (st_irqfds st) p → (∀ a st, irq_inv st → irq_inv (k a st)) → irq_inv st →
  irq_inv (fst (on_machine p k st)) ∧ snd (on_machine p k st) ≠ Panic.
Proof.
  intros Hp Hk Hi. destruct (Hp (st_vm st) Hi) as [Hg Hn]. unfold on_machine.
  destruct (p (st_vm st)) as [v [a|e|]]; simpl in *; [|done..]. split; [by apply Hk|done].
Qed.

Lemma create_irqfd_inv devid st :
  irq_inv st →
  irq_inv (fst (run_irq_op (OpCreateIrqFd devid) st)) ∧ snd (run_irq_op (OpCreateIrqFd devid) st) ≠ Panic.
Proof.
  intros Hi. unfold run_irq_op, on_machine. destruct (create_irqfd_eq devid (st_vm st)) as [next E].
  destruct (sys_eventfd _) as [k' [fd|]]; [destruct E as [(g & E & Hg & Hn)|[E _]]|];
    rewrite E; split; try done; [by apply gsis_ok_cons|exact Hi..].
Qed.

Lemma drop_irqfd_inv i st :
  irq_inv st → irq_inv (fst (run_irq_op (OpDropIrqFd i) st)) ∧ snd (run_irq_op (OpDropIrqFd i) st) ≠ Panic.
Proof.
  intros Hi. simpl. unfold with_irqfd, on_machine. destruct (st_irqfds st !! i) as [h|] eqn:E; [|done].
  rewrite drop_eq. assert (is_Some (vm_msi_table (st_vm st) !! irqfd_gsi h)) as [e ->].
  { apply (gsis_dom _ _ Hi), list_elem_of_fmap_2. by eapply list_elem_of_lookup_2. }
  pose proof (gsis_ok_delete _ _ _ _ Hi E) as Hd.
  by destruct (me_masked e).
Qed.

Lemma run_irq_op_inv o st : irq_inv st → irq_inv (fst (run_irq_op o st)) ∧ snd (run_irq_op o st) ≠ Panic.
Proof.
  intros Hi. destruct o as [d|i f val|i val|i|pin|i|i|d a x];
    [by apply create_irqfd_inv| | |by apply drop_irqfd_inv| | | |]; simpl;
    unfold with_irqfd, with_sender.
  - destruct (st_irqfds st !! i) as [h|] eqn:E; [|done]. apply on_machine_safe; [|done..].
    apply keeps_gsis_set. by eapply list_elem_of_lookup_2.
  - destruct (st_irqfds st !! i) as [h|] eqn:E; [|done]. apply on_machine_safe; [|done..].
    apply keeps_gsis_set_masked. by eapply list_elem_of_lookup_2.
  - apply on_machine_safe; [apply keeps_gsis_create_sender|done..].
  - destruct (st_senders st !! i) as [s|]; [|done]. apply on_machine_safe; [|done..].
    apply keeps_gsis_quiet. apply quiet_syscall.
  - destruct (st_senders st !! i) as [s|]; [|done]. apply on_machine_safe; [|done..].
    apply keeps_gsis_bind; [by intros v|]. intros _. apply keeps_gsis_quiet. auto with quiet.
  - apply on_machine_safe; [|done..]. intros v Hv. unfold KvmMsiSender_send.
    destruct (translate_msi_addr _ _) as [lo hi]. by apply keeps_gsis_quiet; [apply quiet_syscall|].
Qed.

Lemma irq_runs_inv k memfd st : irq_runs k memfd st → irq_inv st.
Proof.
  induction 1 as [|st o Hr IH|st k' Hr IH]; [|by apply run_irq_op_inv|done].
  split; simpl; [constructor| |]; intros g; rewrite lookup_empty; [|by intros [? ?]].
  rewrite elem_of_nil. split; [by intros [? ?]|done].
Qed.
End Safe.
