(* ===== verification/KvmIrqThm.v ===== *)
(** * Interrupts on KVM: what the kernel delivers

    On a kernel that behaves as documented, writing to a live descriptor delivers
    the message last programmed for it, translated as KVM expects, while the vector
    is unmasked, and nothing while it is masked; a pin sender raises its own pin. *)

From S2P Require Import Prelude Utils MemTypes KvmVm KvmSpec KvmIrq.

(** ** Routes *)

(** The table has entries for [gsi], all with the same routing. *)
Definition routes_to (routes : list KvmIrqRoutingEntry) (gsi : Z) (m : KvmIrqRoutingType) : Prop :=
  ∀ m', (∃ r, r ∈ routes ∧ re_gsi r = gsi ∧ re_routing r = m') ↔ m' = m.

Section Routes.
Context {K : Type} `{KvmArch} `{!HashIter} `{!HashIterLaws}.
Context (pins : pins_below_msi).
Abbreviation table := (gmap Z KvmMsiEntryData).

Definition pin_routing (pin : Z) : KvmIrqRoutingType := RoutingIrqchip arch_irqchip pin.

Record pins_ok (pm : Z) (ss : list KvmIrqSender) : Prop := {
  pins_nodup : NoDup (sender_pin <$> ss);
  pins_range s : s ∈ ss → 0 ≤ sender_pin s < Z.of_nat arch_max_pin;
  pins_bit s : s ∈ ss → Z.testbit pm (sender_pin s) = true
}.

(** Every programmed unmasked vector and every pin in use has its route. *)
Record routed (t : table) (routes : list KvmIrqRoutingEntry) (ss : list KvmIrqSender) : Prop := {
  routed_msi g e : t !! g = Some e → me_masked e = false → me_dirty e = true →
    routes_to routes g (RoutingMsi (msi_route e));
  routed_pin s : s ∈ ss → routes_to routes (sender_pin s) (pin_routing (sender_pin s))
}.

Lemma pin_set_testbit pm (p : nat) : pin_set pm p = Z.testbit pm (Z.of_nat p).
Proof.
  unfold pin_set. destruct (Z.testbit pm (Z.of_nat p)) eqn:E.
  - apply negb_true_iff, Z.eqb_neq. intros Hz. apply (f_equal (λ z, Z.testbit z (Z.of_nat p))) in Hz.
    rewrite Z.land_spec, Z.shiftl_spec, Z.sub_diag, E, Z.bits_0 in Hz by lia. done.
  - apply negb_false_iff, Z.eqb_eq, Z.bits_inj_0. intros i.
    destruct (decide (i < 0)); [by apply Z.testbit_neg_r|].
    rewrite Z.land_spec, Z.shiftl_spec by lia. destruct (decide (i = Z.of_nat p)) as [->|Hne].
    { by rewrite E. }
    replace (Z.testbit 1 (i - Z.of_nat p)) with false; [apply andb_false_r|].
    symmetry. destruct (decide (i - Z.of_nat p < 0)); [by apply Z.testbit_neg_r|].
    apply (Z.bits_above_log2 1); simpl; lia.
Qed.

Lemma elem_of_pin_entries pm r :
  r ∈ pin_entries pm ↔
  ∃ p : nat, (p < arch_max_pin)%nat ∧ Z.testbit pm (Z.of_nat p) = true ∧
    r = mkRoutingEntry (Z.of_nat p) 0 (pin_routing (Z.of_nat p)).
Proof.
  unfold pin_entries. rewrite list_elem_of_fmap. setoid_rewrite list_elem_of_filter.
  setoid_rewrite elem_of_seq. setoid_rewrite pin_set_testbit. split.
  - intros (p & -> & Hb & Hp). exists p. split_and!; [lia|done..].
  - intros (p & Hp & Hb & ->). exists p. split_and!; [done..|lia|lia].
Qed.

Lemma elem_of_msi_entries (t : table) r :
  r ∈ msi_entries t ↔ ∃ g e, t !! g = Some e ∧ me_masked e = false ∧ r = msi_entry g e.
Proof.
  unfold msi_entries. rewrite list_elem_of_fmap. split.
  - intros ([g e] & -> & [Hm Hin]%list_elem_of_filter). rewrite hash_iter_perm in Hin.
    apply elem_of_map_to_list in Hin. by exists g, e.
  - intros (g & e & E & Hm & ->). exists (g, e). split; [done|]. apply list_elem_of_filter.
    split; [done|]. rewrite hash_iter_perm. by apply elem_of_map_to_list.
Qed.

(** An update of the table routes everything. *)
Lemma routed_new (t : table) pm hs ss :
  gsis_ok t hs → pins_ok pm ss → routed t (routing_entries pm t) ss.
Proof.
  intros [_ _ Hr] [_ Hp Hb]. unfold pins_below_msi in pins. unfold gsi_range in Hr. split.
  - intros g e E Hm _ m'. unfold routing_entries. setoid_rewrite elem_of_app.
    setoid_rewrite elem_of_pin_entries. setoid_rewrite elem_of_msi_entries. split.
    + intros (r & [(p & ? & _ & ->)|(g' & e' & E' & _ & ->)] & Eg & <-); simpl in Eg.
      * specialize (Hr g ltac:(by eexists)). lia.
      * subst g'. by simplify_eq.
    + intros ->. exists (msi_entry g e). split; [right; by exists g, e|done].
  - intros s Hs m'. specialize (Hp s Hs). specialize (Hb s Hs).
    unfold routing_entries. setoid_rewrite elem_of_app.
    setoid_rewrite elem_of_pin_entries. setoid_rewrite elem_of_msi_entries. split.
    + intros (r & [(p & ? & _ & ->)|(g' & e' & E' & _ & ->)] & Eg & <-); simpl in Eg.
      * simpl. by rewrite Eg.
      * specialize (Hr g' ltac:(by eexists)). lia.
    + intros ->. exists (mkRoutingEntry (sender_pin s) 0 (pin_routing (sender_pin s))).
      split; [|done]. left. exists (Z.to_nat (sender_pin s)). rewrite Z2Nat.id by lia.
      split_and!; [lia|done|done].
Qed.

Lemma routed_store (t : table) routes ss g e :
  routed t routes ss →
  (me_masked e = false → me_dirty e = true → routes_to routes g (RoutingMsi (msi_route e))) →
  routed (<[g := e]> t) routes ss.
Proof.
  intros [A B] He. split; [|done]. intros g' e' [[<- <-]|[_ E]]%lookup_insert_Some; [done|by apply A].
Qed.

Lemma routed_delete (t : table) routes ss g : routed t routes ss → routed (delete g t) routes ss.
Proof. intros [A B]. split; [|done]. intros g' e' [_ E]%lookup_delete_Some. by apply A. Qed.

Lemma routed_senders (t : table) routes ss ss' :
  (∀ s, s ∈ ss' → s ∈ ss) → routed t routes ss → routed t routes ss'.
Proof. intros Hs [A B]. split; [done|]. intros s ?. by apply B, Hs. Qed.
End Routes.

(** ** Who is connected *)

Section Connected.
Abbreviation table := (gmap Z KvmMsiEntryData).

Definition unmasked (t : table) (g : Z) : Prop := ∃ e, t !! g = Some e ∧ me_masked e = false.

(** The descriptors the objects own. *)
Definition owned (hs : list KvmIrqFd) (ss : list KvmIrqSender) : list Z :=
  (irqfd_event_fd <$> hs) ++ (sender_event_fd <$> ss).

(** The irqfds of the kernel are the unmasked vectors and the pins in use, on open
    descriptors that differ. *)
Record connected (t : table) (irqfds : gset (Z * Z)) (fds : gset Z)
  (hs : list KvmIrqFd) (ss : list KvmIrqSender) : Prop := {
  con_fds : NoDup (owned hs ss);
  con_open fd : fd ∈ owned hs ss → fd ∈ fds;
  con_irqfds fd g : (fd, g) ∈ irqfds ↔
    (∃ h, h ∈ hs ∧ irqfd_event_fd h = fd ∧ irqfd_gsi h = g ∧ unmasked t g) ∨
    (∃ s, s ∈ ss ∧ sender_event_fd s = fd ∧ sender_pin s = g)
}.

Lemma unmasked_insert (t : table) g e g' :
  unmasked (<[g := e]> t) g' ↔ (g' = g ∧ me_masked e = false) ∨ (g' ≠ g ∧ unmasked t g').
Proof.
  unfold unmasked. setoid_rewrite lookup_insert_Some. split; [naive_solver|].
  intros [[-> Hm]|[Hne (e' & E & Hm)]]; [by exists e; auto|exists e'; naive_solver].
Qed.

Lemma unmasked_delete (t : table) g g' : unmasked (delete g t) g' ↔ g' ≠ g ∧ unmasked t g'.
Proof. unfold unmasked. setoid_rewrite lookup_delete_Some. naive_solver. Qed.

Lemma connected_ext (t t' : table) irqfds fds fds' hs ss :
  connected t irqfds fds hs ss → (∀ g, unmasked t' g ↔ unmasked t g) →
  (∀ fd, fd ∈ owned hs ss → fd ∈ fds') → connected t' irqfds fds' hs ss.
Proof. intros [A B C] Ht Hf. split; [done|done|]. intros fd g. rewrite C. by setoid_rewrite Ht. Qed.

(** Distinct descriptors: an object is known by its descriptor. *)
Lemma owned_irqfd_inj hs ss h h' :
  NoDup (owned hs ss) → h ∈ hs → h' ∈ hs → irqfd_event_fd h = irqfd_event_fd h' → h = h'.
Proof.
  unfold owned. intros [Hn _]%NoDup_app [i Hi]%list_elem_of_lookup [j Hj]%list_elem_of_lookup E.
  assert (i = j) as ->; [|congruence]. eapply NoDup_lookup; [exact Hn|..];
    rewrite list_lookup_fmap; [by rewrite Hi|by rewrite Hj, E].
Qed.
Lemma owned_sender_inj hs ss s s' :
  NoDup (owned hs ss) → s ∈ ss → s' ∈ ss → sender_event_fd s = sender_event_fd s' → s = s'.
Proof.
  unfold owned. intros (_ & _ & Hn)%NoDup_app [i Hi]%list_elem_of_lookup [j Hj]%list_elem_of_lookup E.
  assert (i = j) as ->; [|congruence]. eapply NoDup_lookup; [exact Hn|..];
    rewrite list_lookup_fmap; [by rewrite Hi|by rewrite Hj, E].
Qed.
Lemma owned_apart hs ss h s :
  NoDup (owned hs ss) → h ∈ hs → s ∈ ss → irqfd_event_fd h ≠ sender_event_fd s.
Proof.
  unfold owned. intros (_ & Hd & _)%NoDup_app Hh Hs E.
  apply (Hd (irqfd_event_fd h)); [by apply list_elem_of_fmap_2|]. rewrite E. by apply list_elem_of_fmap_2.
Qed.

Lemma gsi_inj (t : table) hs h h' :
  gsis_ok t hs → h ∈ hs → h' ∈ hs → irqfd_gsi h = irqfd_gsi h' → h = h'.
Proof.
  intros [Hn _ _] [i Hi]%list_elem_of_lookup [j Hj]%list_elem_of_lookup E.
  assert (i = j) as ->; [|congruence]. eapply NoDup_lookup; [exact Hn|..];
    rewrite list_lookup_fmap; [by rewrite Hi|by rewrite Hj, E].
Qed.

(** Unmasking connects, masking disconnects. *)
Lemma connected_unmask (t : table) irqfds fds hs ss h e :
  connected t irqfds fds hs ss → gsis_ok t hs → h ∈ hs → me_masked e = false →
  connected (<[irqfd_gsi h := e]> t) ({[(irqfd_event_fd h, irqfd_gsi h)]} ∪ irqfds) fds hs ss.
Proof.
  intros [A B C] Hg Hh Hm. split; [done..|]. intros fd g.
  rewrite elem_of_union, elem_of_singleton, C. setoid_rewrite unmasked_insert. split.
  - intros [[= -> ->]|[(h' & ? & <- & <- & Hu)|?]]; [left; exists h; naive_solver| |by right].
    left. exists h'. split_and!; [done..|]. destruct (decide (irqfd_gsi h' = irqfd_gsi h)); naive_solver.
  - intros [(h' & Hh' & <- & <- & [[E _]|[_ Hu]])|?]; [left| |by right; right].
    + by rewrite (gsi_inj t hs h' h).
    + right. left. by exists h'.
Qed.

Lemma connected_mask (t : table) irqfds fds hs ss h e :
  connected t irqfds fds hs ss → gsis_ok t hs → h ∈ hs → me_masked e = true →
  connected (<[irqfd_gsi h := e]> t) (irqfds ∖ {[(irqfd_event_fd h, irqfd_gsi h)]}) fds hs ss.
Proof.
  intros [A B C] Hg Hh Hm. split; [done..|]. intros fd g.
  rewrite elem_of_difference, elem_of_singleton, C. setoid_rewrite unmasked_insert. split.
  - intros [[(h' & Hh' & <- & <- & Hu)|?] Hne]; [left|by right].
    exists h'. split_and!; [done..|]. right. split; [|done]. intros E. apply Hne.
    by rewrite (gsi_inj t hs h' h).
  - intros [(h' & Hh' & <- & <- & [[_ Hm']|[Hne Hu]])|(s & Hs & <- & <-)]; [congruence| |].
    + split; [left; by exists h'|]. intros [= _ E]. done.
    + split; [right; by exists s|]. intros [= E _]. symmetry in E. by apply (owned_apart hs ss h s).
Qed.

(** A new descriptor, and one that is closed. *)
Lemma connected_create (t : table) irqfds fds hs ss fd g e :
  connected t irqfds fds hs ss → fd ∉ fds → me_masked e = true → t !! g = None →
  connected (<[g := e]> t) irqfds ({[fd]} ∪ fds) (mkIrqFd fd g :: hs) ss.
Proof.
  intros [A B C] Hfd Hm Hg. split.
  - unfold owned. simpl. apply NoDup_cons. split; [|done]. intros Hin. apply Hfd. by apply B.
  - intros fd'. unfold owned. simpl. rewrite elem_of_cons, elem_of_union, elem_of_singleton.
    intros [->|?]; [by left|right; by apply B].
  - intros fd' g'. rewrite C. setoid_rewrite unmasked_insert. setoid_rewrite elem_of_cons.
    assert (∀ h, unmasked t (irqfd_gsi h) → irqfd_gsi h ≠ g) as Hne.
    { intros h (e' & E & _) E'. congruence. }
    split; [naive_solver|]. intros [(h & [->|Hh] & <- & <- & [[_ ?]|[Hn Hu]])|?]; simpl in *;
      naive_solver congruence.
Qed.

Lemma owned_delete_irqfd hs ss i h :
  hs !! i = Some h → owned hs ss ≡ₚ irqfd_event_fd h :: owned (delete i hs) ss.
Proof. intros Hi. unfold owned. by rewrite (delete_Permutation _ _ _ Hi) at 1. Qed.
Lemma owned_delete_sender hs ss i s :
  ss !! i = Some s → owned hs ss ≡ₚ sender_event_fd s :: owned hs (delete i ss).
Proof.
  intros Hi. unfold owned. rewrite (delete_Permutation _ _ _ Hi) at 1. simpl. by rewrite Permutation_middle.
Qed.

Lemma connected_drop_irqfd (t : table) irqfds fds hs ss i h irqfds' :
  connected t irqfds fds hs ss → gsis_ok t hs → hs !! i = Some h →
  (∀ x, x ∈ irqfds' ↔ x ∈ irqfds ∧ fst x ≠ irqfd_event_fd h) →
  connected (delete (irqfd_gsi h) t) irqfds' (fds ∖ {[irqfd_event_fd h]}) (delete i hs) ss.
Proof.
  intros [A B C] Hg Hi Hx. pose proof (owned_delete_irqfd hs ss i h Hi) as Ho.
  pose proof (list_elem_of_lookup_2 _ _ _ Hi) as Hh. pose proof (delete_Permutation _ _ _ Hi) as Hp.
  assert (∀ h', h' ∈ hs ↔ h' = h ∨ h' ∈ delete i hs) as Hin by (intros h'; rewrite Hp at 1; apply elem_of_cons).
  pose proof A as A'. rewrite Ho in A'. apply NoDup_cons in A' as [Hni A']. split; [done| |].
  - intros fd Hfd. apply elem_of_difference. split; [apply B; rewrite Ho; by right|].
    rewrite elem_of_singleton. by intros ->.
  - intros fd g. rewrite Hx, C. simpl. setoid_rewrite unmasked_delete. split.
    + intros [[(h' & Hh' & <- & <- & Hu)|?] Hne]; [left|by right].
      exists h'. apply Hin in Hh' as Hh''. destruct Hh'' as [->|Hd]; [done|]. split_and!; try done.
      intros E. apply Hne. by rewrite (gsi_inj t hs h' h).
    + intros [(h' & Hd & <- & <- & Hne & Hu)|(s & Hs & <- & <-)].
      * assert (h' ∈ hs) as Hh' by (apply Hin; by right). split; [left; by exists h'|].
        intros E. apply Hne. by rewrite (owned_irqfd_inj hs ss h' h).
      * split; [right; by exists s|]. intros E. symmetry in E. by apply (owned_apart hs ss h s).
Qed.

Lemma connected_create_sender (t : table) irqfds fds hs ss fd pin :
  connected t irqfds fds hs ss → fd ∉ fds →
  connected t ({[(fd, pin)]} ∪ irqfds) ({[fd]} ∪ fds) hs (mkIrqSender pin fd :: ss).
Proof.
  intros [A B C] Hfd. assert (owned hs (mkIrqSender pin fd :: ss) ≡ₚ fd :: owned hs ss) as Ho.
  { unfold owned. simpl. by rewrite Permutation_middle. }
  split.
  - rewrite Ho. apply NoDup_cons. split; [|done]. intros Hin. apply Hfd. by apply B.
  - intros fd'. rewrite Ho, elem_of_cons, elem_of_union, elem_of_singleton.
    intros [->|?]; [by left|right; by apply B].
  - intros fd' g'. rewrite elem_of_union, elem_of_singleton, C. setoid_rewrite elem_of_cons.
    split; [|naive_solver]. intros [[= -> ->]|[?|(s & ? & ?)]]; [right; by eexists; split; [left|]| by left|].
    right. exists s. naive_solver.
Qed.

Lemma connected_drop_sender (t : table) irqfds fds hs ss i s irqfds' :
  connected t irqfds fds hs ss → ss !! i = Some s →
  (∀ x, x ∈ irqfds' ↔ x ∈ irqfds ∧ fst x ≠ sender_event_fd s) →
  connected t irqfds' (fds ∖ {[sender_event_fd s]}) hs (delete i ss).
Proof.
  intros [A B C] Hi Hx. pose proof (owned_delete_sender hs ss i s Hi) as Ho.
  pose proof (list_elem_of_lookup_2 _ _ _ Hi) as Hs. pose proof (delete_Permutation _ _ _ Hi) as Hp.
  assert (∀ s', s' ∈ ss ↔ s' = s ∨ s' ∈ delete i ss) as Hin by (intros s'; rewrite Hp at 1; apply elem_of_cons).
  pose proof A as A'. rewrite Ho in A'. apply NoDup_cons in A' as [Hni A']. split; [done| |].
  - intros fd Hfd. apply elem_of_difference. split; [apply B; rewrite Ho; by right|].
    rewrite elem_of_singleton. by intros ->.
  - intros fd g. rewrite Hx, C. simpl. split.
    + intros [[?|(s' & Hs' & <- & <-)] Hne]; [by left|right].
      exists s'. apply Hin in Hs' as Hd. destruct Hd as [->|Hd]; done.
    + intros [(h & Hh & <- & <- & Hu)|(s' & Hd & <- & <-)].
      * split; [left; by exists h|]. by apply (owned_apart hs ss h s).
      * assert (s' ∈ ss) as Hs' by (apply Hin; by right). split; [right; by exists s'|].
        intros E. apply Hni. rewrite <- E. unfold owned. apply elem_of_app. right. by apply list_elem_of_fmap_2.
Qed.
End Connected.

(** ** The operations *)

Section Delivery.
Context {K : Type} `{KvmKernel K} `{!KvmIrq K} `{!KvmIrqLaws K} `{KvmArch} `{!HashIter} `{!HashIterLaws}.
Context (pins : pins_below_msi).
Abbreviation state := (IrqState K).

Record irq_ok (v : VmInner K) (hs : list KvmIrqFd) (ss : list KvmIrqSender) : Prop := {
  ok_gsis : gsis_ok (vm_msi_table v) hs;
  ok_pins : pins_ok (vm_pin_map v) ss;
  ok_connected : connected (vm_msi_table v) (kernel_irqfds (vm_kernel v)) (kernel_fds (vm_kernel v)) hs ss;
  ok_routed : routed (vm_msi_table v) (kernel_routes (vm_kernel v)) ss
}.

Lemma syscall_Ok f e (v v' : VmInner K) :
  syscall f e v = (v', Ok tt) → ∃ k', f (vm_kernel v) = (k', true) ∧ v' = set_kernel k' v.
Proof. unfold syscall. destruct (f (vm_kernel v)) as [k' []]; simpl; [|done]. intros [= <-]. by exists k'. Qed.

Lemma irq_ok_view v k' hs ss :
  irq_ok v hs ss → irq_view k' = irq_view (vm_kernel v) → irq_ok (set_kernel k' v) hs ss.
Proof. intros [A B C D] [= E1 E2 E3 E4]. split; simpl; rewrite ?E1, ?E2, ?E4; done. Qed.

(** After a successful update everything in the table is routed. *)
Lemma update_ok hs ss (v v' : VmInner K) :
  gsis_ok (vm_msi_table v) hs → pins_ok (vm_pin_map v) ss →
  update_routing_table (vm_msi_table v) v = (v', Ok tt) →
  ∃ k', v' = set_kernel k' v ∧ kernel_irqfds k' = kernel_irqfds (vm_kernel v) ∧
    kernel_fds k' = kernel_fds (vm_kernel v) ∧ routed (vm_msi_table v) (kernel_routes k') ss.
Proof.
  intros Hg Hp. rewrite (update_eq _ hs) by done. simpl. intros E.
  pose proof (set_routing_law (routing_entries (vm_pin_map v) (vm_msi_table v)) (vm_kernel v)) as Hl.
  destruct (kvm_set_gsi_routing _ _) as [k' []]; simplify_eq/=. injection Hl as E1 E2 E3 E4.
  exists k'. split_and!; [done..|]. rewrite E1. by eapply routed_new.
Qed.

Lemma set_ok f h val v v' hs ss :
  irq_ok v hs ss → h ∈ hs → KvmIrqFd_set f h val v = (v', Ok tt) → irq_ok v' hs ss.
Proof.
  intros [A B C D] Hh. pose proof (list_elem_of_fmap_2 irqfd_gsi _ _ Hh) as Hg.
  destruct (proj2 (gsis_dom _ _ A _) Hg) as [e E]. rewrite (set_eq _ _ _ _ e) by done.
  destruct (_ =? _); [by intros [= <-]|].
  assert (∀ e', me_masked e' = me_masked e → ∀ g,
    unmasked (<[irqfd_gsi h := e']> (vm_msi_table v)) g ↔ unmasked (vm_msi_table v) g) as Hu.
  { intros e' Em g. rewrite unmasked_insert. unfold unmasked.
    destruct (decide (g = irqfd_gsi h)) as [->|]; [|naive_solver]. rewrite E. naive_solver congruence. }
  destruct (me_masked e) eqn:Em; cbn zeta.
  - intros [= <-]. assert (me_masked (set_dirty (set_field f val e)) = true) as Em' by (by destruct f).
    split; simpl; [by apply gsis_ok_insert|done| |].
    + eapply connected_ext; [done|by apply Hu; rewrite Em'|apply C].
    + apply routed_store; [done|]. by rewrite Em'.
  - assert (me_masked (set_field f val e) = false) as Em' by (by destruct f).
    intros Eu. apply (update_ok hs ss (set_msi_table _ v)) in Eu as (k' & -> & E1 & E2 & Hr);
      [|by apply gsis_ok_insert|done].
    split; simpl; [by apply gsis_ok_insert|done| |done]. simpl in E1, E2. rewrite E1, E2.
    eapply connected_ext; [done|by apply Hu; rewrite Em'|apply C].
Qed.

Lemma assign_ok h v v' :
  assign_irqfd h v = (v', Ok tt) →
  ∃ k', v' = set_kernel k' v ∧
    kernel_irqfds k' = {[(irqfd_event_fd h, irqfd_gsi h)]} ∪ kernel_irqfds (vm_kernel v) ∧
    kernel_fds k' = kernel_fds (vm_kernel v) ∧ kernel_routes k' = kernel_routes (vm_kernel v).
Proof.
  unfold assign_irqfd. intros (k' & E & ->)%syscall_Ok. exists k'. split; [done|].
  pose proof (irqfd_law (mkKvmIrqfd (irqfd_event_fd h) (irqfd_gsi h) 0) (vm_kernel v)) as Hl.
  rewrite E in Hl. simpl in Hl. destruct Hl as [_ [= -> -> _ ->]]. done.
Qed.
Lemma deassign_ok h v v' :
  deassign_irqfd h v = (v', Ok tt) →
  ∃ k', v' = set_kernel k' v ∧
    kernel_irqfds k' = kernel_irqfds (vm_kernel v) ∖ {[(irqfd_event_fd h, irqfd_gsi h)]} ∧
    kernel_fds k' = kernel_fds (vm_kernel v) ∧ kernel_routes k' = kernel_routes (vm_kernel v).
Proof.
  unfold deassign_irqfd. intros (k' & E & ->)%syscall_Ok. exists k'. split; [done|].
  pose proof (irqfd_law (mkKvmIrqfd (irqfd_event_fd h) (irqfd_gsi h) KvmIrqfdFlag.DEASSIGN) (vm_kernel v)) as Hl.
  rewrite E in Hl. simpl in Hl. injection Hl as -> -> _ ->. done.
Qed.

Lemma set_masked_ok h val v v' b hs ss :
  irq_ok v hs ss → h ∈ hs → set_masked h val v = (v', Ok b) → irq_ok v' hs ss.
Proof.
  intros [A B C D] Hh. pose proof (list_elem_of_fmap_2 irqfd_gsi _ _ Hh) as Hg.
  destruct (proj2 (gsis_dom _ _ A _) Hg) as [e E]. rewrite (set_masked_eq _ _ _ e) by done.
  destruct (Bool.eqb _ _); [by intros [= <- _]|]. cbn zeta. intros Eq. inv_ok Eq. injection Eq as <- _.
  pose proof (gsis_ok_insert _ hs (irqfd_gsi h) (set_mask val e) A Hg) as A'.
  destruct val.
  - destruct a. apply deassign_ok in Ek as (k' & -> & E1 & E2 & E3). simpl in *.
    split; simpl; rewrite ?E1, ?E2, ?E3; [done|done|by apply connected_mask|].
    by apply routed_store.
  - inv_ok Ek. destruct a, a0. apply assign_ok in Ek as (k' & -> & E1 & E2 & E3).
    destruct (me_dirty e) eqn:Ed.
    + apply (update_ok hs ss (set_msi_table _ v)) in Ek0 as (k1 & -> & F1 & F2 & Hr); [|done..].
      simpl in *. split; simpl; rewrite ?E1, ?E2, ?E3, ?F1, ?F2; [done|done|by apply connected_unmask|done].
    + injection Ek0 as <-. simpl in *.
      split; simpl; rewrite ?E1, ?E2, ?E3; [done|done|by apply connected_unmask|].
      apply routed_store; [done|]. simpl. congruence.
Qed.

(** Dropping a descriptor disconnects it, also when the kernel refuses to deassign it. *)
Definition closes (fd : Z) (k k' : K) : Prop :=
  kernel_routes k' = kernel_routes k ∧ kernel_fds k' = kernel_fds k ∖ {[fd]} ∧
  ∀ x, x ∈ kernel_irqfds k' ↔ x ∈ kernel_irqfds k ∧ fst x ≠ fd.

Lemma close_closes fd k : closes fd k (sys_close fd k).
Proof.
  pose proof (close_law fd k) as [= E1 E2 _ E3]. unfold closes. rewrite E1, E2, E3.
  split_and!; [done..|]. intros x. rewrite elem_of_filter. naive_solver.
Qed.

Lemma deassign_closes fd g k :
  closes fd k (sys_close fd (fst (kvm_irqfd (mkKvmIrqfd fd g KvmIrqfdFlag.DEASSIGN) k))).
Proof.
  pose proof (irqfd_law (mkKvmIrqfd fd g KvmIrqfdFlag.DEASSIGN) k) as Hl.
  destruct (kvm_irqfd _ k) as [k' b]. destruct (close_closes fd k') as (E1 & E2 & E3). simpl.
  destruct b; simpl in Hl; injection Hl as F1 F2 _ F3; rewrite F1 in E1; rewrite F3 in E2;
    (split_and!; [done..|]); intros x; rewrite E3, F2; [|done].
  rewrite elem_of_difference, elem_of_singleton. split; [naive_solver|].
  intros [Hx Hne]. split_and!; [done| |done]. by intros ->.
Qed.

Lemma drop_irqfd_ok i h v v' hs ss :
  irq_ok v hs ss → hs !! i = Some h → KvmIrqFd_drop h v = (v', Ok tt) → irq_ok v' (delete i hs) ss.
Proof.
  intros [A B C D] Hi. pose proof (list_elem_of_lookup_2 _ _ _ Hi) as Hh.
  destruct (proj2 (gsis_dom _ _ A _) (list_elem_of_fmap_2 irqfd_gsi _ _ Hh)) as [e E].
  rewrite drop_eq, E. intros Eq.
  assert (∃ k', v' = set_kernel k' (set_msi_table (delete (irqfd_gsi h) (vm_msi_table v)) v) ∧
    closes (irqfd_event_fd h) (vm_kernel v) k') as (k' & -> & E1 & E2 & E3).
  { destruct (me_masked e); injection Eq as <-; eexists; (split; [done|]);
      [apply close_closes|apply deassign_closes]. }
  split; simpl; rewrite ?E1, ?E2; [by eapply gsis_ok_delete|done| |by apply routed_delete].
  by eapply connected_drop_irqfd.
Qed.

Lemma create_irqfd_ok devid v v' h hs ss :
  irq_ok v hs ss → create_irqfd (mkMsiSender devid) v = (v', Ok h) → irq_ok v' (h :: hs) ss.
Proof.
  intros [A B C D]. destruct (create_irqfd_eq devid v) as [next E].
  pose proof (eventfd_law (vm_kernel v)) as Hl.
  destruct (sys_eventfd _) as [k' [fd|]]; [|by rewrite E].
  destruct E as [(g & E & Hg & Hn)|[E _]]; rewrite E; [|done]. intros [= <- <-].
  destruct Hl as [Hfd [= E1 E2 _ E3]].
  split; simpl; rewrite ?E1, ?E2, ?E3; [by apply gsis_ok_cons|done|by apply connected_create|].
  by apply routed_store.
Qed.

(** *** Pins *)

Lemma pin_flag_small pin : 0 ≤ pin < 32 → pin_flag pin = 2 ^ pin.
Proof.
  intros Hp. unfold pin_flag. rewrite Z.mod_small by lia. rewrite Z.shiftl_1_l.
  apply wrap_small. split; [lia|]. apply Z.pow_lt_mono_r; lia.
Qed.

Lemma pins_ok_create pm pin fd ss :
  0 ≤ pin < Z.of_nat arch_max_pin → pins_ok pm ss → Z.testbit pm pin = false →
  pins_ok (Z.lor pm (pin_flag pin)) (mkIrqSender pin fd :: ss).
Proof.
  intros Hp [A B C] Hb. unfold pins_below_msi in pins. rewrite pin_flag_small by lia.
  split; simpl.
  - apply NoDup_cons. split; [|done]. intros (s & -> & Hs)%list_elem_of_fmap_1.
    by rewrite C in Hb.
  - intros s [->|Hs]%elem_of_cons; [done|by apply B].
  - intros s [->|Hs]%elem_of_cons; rewrite Z.lor_spec; simpl.
    + rewrite Z.pow2_bits_true by lia. apply orb_true_r.
    + by rewrite C.
Qed.

Lemma pins_ok_drop pm i s ss :
  pins_ok pm ss → ss !! i = Some s →
  pins_ok (Z.land pm (bnot 32 (pin_flag (sender_pin s)))) (delete i ss).
Proof.
  intros [A B C] Hi. pose proof (list_elem_of_lookup_2 _ _ _ Hi) as Hs.
  pose proof (delete_Permutation _ _ _ Hi) as Hp. pose proof (B s Hs). unfold pins_below_msi in pins.
  rewrite pin_flag_small by lia. rewrite Hp in A. simpl in A. apply NoDup_cons in A as [Hni A].
  assert (∀ s', s' ∈ delete i ss → s' ∈ ss) as Hin by (intros s' ?; rewrite Hp; by right).
  split; [done|by intros s' ?%Hin; apply B|]. intros s' Hs'. pose proof (B s' (Hin _ Hs')).
  rewrite Z.land_spec, C by (by apply Hin). unfold bnot. rewrite Z.lxor_spec, Z.pow2_bits_false.
  - rewrite Z.testbit_ones_nonneg by lia. simpl. apply Z.ltb_lt. lia.
  - intros E. apply Hni. rewrite E. by apply list_elem_of_fmap_2.
Qed.

(** The bit was clear before [create_irq_sender] went on. *)
Lemma pin_was_free pm pin :
  0 ≤ pin < 32 → Z.land pm (pin_flag pin) ≠ pin_flag pin → Z.testbit pm pin = false.
Proof.
  intros Hp Hne. rewrite pin_flag_small in Hne by lia.
  destruct (Z.testbit pm pin) eqn:E; [|done]. exfalso. apply Hne, Z.bits_inj'. intros i Hi.
  rewrite Z.land_spec, Z.pow2_bits_eqb by lia. destruct (Z.eqb_spec pin i) as [<-|]; [by rewrite E|].
  apply andb_false_r.
Qed.

Lemma check_extension_ok cap a (v v' : VmInner K) :
  check_extension cap v = (v', Ok a) → ∃ k', v' = set_kernel k' v ∧ irq_view k' = irq_view (vm_kernel v).
Proof.
  pose proof (check_extension_law cap (vm_kernel v)) as Hl. intros E.
  unfold check_extension in E. inv_ok E. unfold syscall_val in Ek.
  destruct (kvm_check_extension _ _) as [k' [z|]]; simplify_eq/=.
  destruct (a0 =? 0); [done|]. injection E as <- _. exists k'. split; [done|].
  unfold irq_view. congruence.
Qed.

Lemma create_sender_ok pin v v' s hs ss :
  0 ≤ pin < Z.of_nat arch_max_pin →
  irq_ok v hs ss → create_irq_sender pin v = (v', Ok s) → irq_ok v' hs (s :: ss).
Proof.
  intros Hp [A B C D] E. unfold pins_below_msi in pins. unfold create_irq_sender in E.
  inv_ok E. injection Ek as <- <-. inv_ok E. injection Ek as <- <-.
  destruct (Z.eqb_spec (Z.land (vm_pin_map v) (pin_flag pin)) (pin_flag pin)) as [|Hne]; [done|].
  apply pin_was_free in Hne; [|lia]. inv_ok E. apply check_extension_ok in Ek as (k1 & -> & V1).
  apply sbind_Ok_inv in E as (v2 & fd & Ek & E). unfold syscall_val in Ek.
  pose proof (eventfd_law k1) as Hl. simpl in Ek.
  destruct (sys_eventfd k1) as [k2 [fd'|]]; [|done]. injection Ek as <- ->. destruct Hl as [Hfd V2].
  inv_ok E. injection Ek as <- <-. apply sbind_Ok_inv in E as (v3 & [] & Ek & E).
  injection V1 as F1 F2 _ F3. injection V2 as G1 G2 _ G3.
  pose proof (pins_ok_create _ pin fd ss Hp B Hne) as B'.
  eapply (update_ok hs (mkIrqSender pin fd :: ss)) in Ek as (k3 & -> & E1 & E2 & Hr); [|done|done].
  apply sbind_Ok_inv in E as (v4 & [] & Ek & E). apply syscall_Ok in Ek as (k4 & E4 & ->). injection E as <- <-.
  pose proof (irqfd_law (mkKvmIrqfd fd pin 0) k3) as Hl. simpl in E4. rewrite E4 in Hl. simpl in Hl.
  destruct Hl as [_ [= L1 L2 _ L3]]. simpl in *.
  split; simpl; rewrite ?L1, ?L2, ?L3; [done|done| |done]. rewrite E1, E2, G2, G3, F2, F3.
  apply connected_create_sender; [done|]. by rewrite <- F3.
Qed.

Lemma drop_sender_ok i s v v' hs ss :
  irq_ok v hs ss → ss !! i = Some s → KvmIrqSender_drop s v = (v', Ok tt) → irq_ok v' hs (delete i ss).
Proof.
  intros [A B C D] Hi. unfold KvmIrqSender_drop, sbind, smodify, syscall_logged, close_fd. simpl.
  intros [= <-]. destruct (deassign_closes (sender_event_fd s) (sender_pin s) (vm_kernel v)) as (E1 & E2 & E3).
  split; simpl; rewrite ?E1, ?E2; [done|by apply pins_ok_drop|by eapply connected_drop_sender|].
  eapply routed_senders; [|done]. intros s' Hs'. rewrite (delete_Permutation _ _ _ Hi). by right.
Qed.

(** *** Sequences of successful operations *)

Definition state_ok (st : state) : Prop := irq_ok (st_vm st) (st_irqfds st) (st_senders st).

Lemma on_machine_Ok {A} (p : stm (VmInner K) hv_error A) k st st' :
  on_machine p k st = (st', Ok tt) →
  ∃ v a, p (st_vm st) = (v, Ok a) ∧ st' = k a (mkIrqState v (st_irqfds st) (st_senders st)).
Proof.
  unfold on_machine. destruct (p (st_vm st)) as [v [a|e|]]; try done. intros [= <-]. by exists v, a.
Qed.

Lemma syscall_view f e v v' hs ss :
  (∀ k, irq_view (fst (f k)) = irq_view k) → irq_ok v hs ss → syscall f e v = (v', Ok tt) → irq_ok v' hs ss.
Proof.
  intros Hf Hok (k' & E & ->)%syscall_Ok. apply irq_ok_view; [done|].
  pose proof (Hf (vm_kernel v)) as Hv. by rewrite E in Hv.
Qed.

Lemma run_irq_op_ok o st st' :
  state_ok st → irq_op_typed o → run_irq_op o st = (st', Ok tt) → state_ok st'.
Proof.
  intros Hok Ht E. destruct o as [d|i f val|i val|i|pin|i|i|d a x]; simpl in E;
    unfold with_irqfd, with_sender in E;
    try (destruct (st_irqfds st !! i) as [h|] eqn:Eh; [|by injection E as <-]);
    try (destruct (st_senders st !! i) as [s|] eqn:Es; [|by injection E as <-]);
    apply on_machine_Ok in E as (v & b & E & ->); unfold state_ok; simpl.
  - by eapply create_irqfd_ok.
  - destruct b. eapply set_ok; [exact Hok|by eapply list_elem_of_lookup_2|exact E].
  - eapply set_masked_ok; [exact Hok|by eapply list_elem_of_lookup_2|exact E].
  - destruct b. by eapply drop_irqfd_ok.
  - by eapply create_sender_ok.
  - destruct b. eapply syscall_view; [|exact Hok|exact E]. intros k. apply write8_law.
  - destruct b. by eapply drop_sender_ok.
  - unfold KvmMsiSender_send in E. destruct (translate_msi_addr _ _) as [lo hi]. destruct b.
    eapply syscall_view; [|exact Hok|exact E]. intros k. apply signal_msi_law.
Qed.

(** Sequences of successful operations, while the rest of the program leaves the
    routes and the irqfds alone and does not close the objects' descriptors. *)
Inductive irq_reachable (k : K) (memfd : option Z) : state → Prop :=
| irq_reach_new : irq_reachable k memfd (irq_new k memfd)
| irq_reach_op st o st' :
    irq_reachable k memfd st → irq_op_typed o → run_irq_op o st = (st', Ok tt) → irq_reachable k memfd st'
| irq_reach_kernel st k' :
    irq_reachable k memfd st →
    kernel_routes k' = kernel_routes (vm_kernel (st_vm st)) →
    kernel_irqfds k' = kernel_irqfds (vm_kernel (st_vm st)) →
    (∀ fd, fd ∈ owned (st_irqfds st) (st_senders st) → fd ∈ kernel_fds k') →
    irq_reachable k memfd (mkIrqState (set_kernel k' (st_vm st)) (st_irqfds st) (st_senders st)).

Lemma irq_reachable_ok k memfd st : kernel_irqfds k = ∅ → irq_reachable k memfd st → state_ok st.
Proof.
  intros Hk. induction 1 as [|st o st' _ IH Ht E|st k' _ IH E1 E2 Hf].
  - split; simpl.
    + split; simpl; [constructor| |]; intros g; rewrite lookup_empty; [|by intros [? ?]].
      rewrite elem_of_nil. split; [by intros [? ?]|done].
    + split; [constructor|set_solver..].
    + split; simpl; [constructor|set_solver|]. intros fd g. rewrite Hk. set_solver.
    + split; [done|set_solver].
  - by eapply run_irq_op_ok.
  - destruct IH as [A B C D]. split; simpl; rewrite ?E1, ?E2; [done|done| |done].
    by eapply connected_ext.
Qed.

(** What a write to the descriptor [fd] injects. *)
Definition delivers (k : K) (fd : Z) (m : KvmIrqRoutingType) : Prop :=
  ∃ gsi r, (fd, gsi) ∈ kernel_irqfds k ∧ r ∈ kernel_routes k ∧ re_gsi r = gsi ∧ re_routing r = m.

Lemma delivers_irqfd st h :
  state_ok st → h ∈ st_irqfds st → ∃ e,
    vm_msi_table (st_vm st) !! irqfd_gsi h = Some e ∧
    (me_masked e = true → ∀ g, (irqfd_event_fd h, g) ∉ kernel_irqfds (vm_kernel (st_vm st))) ∧
    (me_masked e = false → me_dirty e = true →
     ∀ m, delivers (vm_kernel (st_vm st)) (irqfd_event_fd h) m ↔ m = RoutingMsi (msi_route e)).
Proof.
  intros [A B [C1 C2 C3] D] Hh.
  destruct (proj2 (gsis_dom _ _ A _) (list_elem_of_fmap_2 irqfd_gsi _ _ Hh)) as [e E].
  assert (∀ g, (irqfd_event_fd h, g) ∈ kernel_irqfds (vm_kernel (st_vm st)) ↔
    g = irqfd_gsi h ∧ me_masked e = false) as Hc.
  { intros g. rewrite C3. split.
    - intros [(h' & Hh' & Ef & <- & (e' & E' & Hm))|(s & Hs & Ef & _)].
      + assert (h' = h) as -> by (by eapply owned_irqfd_inj). naive_solver.
      + exfalso. by eapply (owned_apart _ _ h s).
    - intros [-> Hm]. left. exists h. split_and!; [done..|]. by exists e. }
  exists e. split; [done|]. split.
  - intros Hm g. rewrite Hc. by intros [_ ?]; congruence.
  - intros Hm Hd m. unfold delivers. setoid_rewrite Hc.
    rewrite <- (routed_msi _ _ _ D _ _ E Hm Hd m). naive_solver.
Qed.

Lemma delivers_sender st s :
  state_ok st → s ∈ st_senders st →
  ∀ m, delivers (vm_kernel (st_vm st)) (sender_event_fd s) m ↔ m = pin_routing (sender_pin s).
Proof.
  intros [A B [C1 C2 C3] D] Hs m. unfold delivers.
  assert (∀ g, (sender_event_fd s, g) ∈ kernel_irqfds (vm_kernel (st_vm st)) ↔ g = sender_pin s) as Hc.
  { intros g. rewrite C3. split.
    - intros [(h & Hh & Ef & _)|(s' & Hs' & Ef & <-)].
      + exfalso. by eapply (owned_apart _ _ h s).
      + by rewrite (owned_sender_inj _ _ s' s C1).
    - intros ->. right. by exists s. }
  setoid_rewrite Hc. rewrite <- (routed_pin _ _ _ D s Hs m). naive_solver.
Qed.
End Delivery.

(** Interrupts reach the guest as programmed.  After any sequence of successful
    operations on a kernel that behaves as documented, every live descriptor has its
    entry in the table; while it is masked its descriptor is connected to nothing;
    while it is unmasked, and if it was programmed while masked as the MSI-X and MSI
    capabilities do, writing to it delivers exactly the message of its entry,
    with the destination where KVM expects it.  Every pin sender delivers exactly
    its pin of the interrupt controller. *)
Theorem irq_delivery {K : Type} `{KvmKernel K} `{!KvmIrq K} `{!KvmIrqLaws K} `{KvmArch}
  `{!HashIter} `{!HashIterLaws} (k : K) memfd (st : IrqState K) :
  pins_below_msi → kernel_irqfds k = ∅ → irq_reachable k memfd st →
  (∀ h, h ∈ st_irqfds st → ∃ e, vm_msi_table (st_vm st) !! irqfd_gsi h = Some e ∧
     (me_masked e = true → ∀ g, (irqfd_event_fd h, g) ∉ kernel_irqfds (vm_kernel (st_vm st))) ∧
     (me_masked e = false → me_dirty e = true → ∀ m,
        delivers (vm_kernel (st_vm st)) (irqfd_event_fd h) m ↔ m = RoutingMsi (msi_route e))) ∧
  (∀ s, s ∈ st_senders st → ∀ m,
     delivers (vm_kernel (st_vm st)) (sender_event_fd s) m ↔
     m = RoutingIrqchip arch_irqchip (sender_pin s)).
Proof.
  intros Hp Hk Hr. pose proof (irq_reachable_ok Hp _ _ _ Hk Hr) as Hok.
  split; [intros h; by apply delivers_irqfd|intros s; by apply delivers_sender].
Qed.

(** Interrupts on KVM are safe whatever the kernel answers.  After any sequence
    of operations, successful or not, no operation panics (the routing table fits
    its 256 entries, and every descriptor's GSI is in the table); the live
    descriptors have distinct GSIs, above the pins and below 256, and the table
    holds just those.  A new descriptor gets a GSI as long as fewer than 232 are
    live, the counter is away from its wrap-around and the kernel gives an event
    descriptor. *)
Theorem irqfds_safe {K : Type} `{KvmKernel K} `{KvmArch} `{!HashIter} `{!HashIterLaws}
  (k : K) memfd (st : IrqState K) :
  pins_below_msi → irq_runs k memfd st →
  (∀ o, snd (run_irq_op o st) ≠ Panic) ∧
  NoDup (irqfd_gsi <$> st_irqfds st) ∧
  (∀ g, is_Some (vm_msi_table (st_vm st) !! g) ↔ g ∈ irqfd_gsi <$> st_irqfds st) ∧
  (∀ h, h ∈ st_irqfds st → gsi_range (irqfd_gsi h)) ∧
  ((length (st_irqfds st) < 232)%nat → 0 ≤ vm_next_msi_gsi (st_vm st) → vm_next_msi_gsi (st_vm st) + 232 ≤ 2 ^ 32 →
   is_Some (snd (sys_eventfd (vm_kernel (st_vm st)))) →
   ∀ devid, ∃ st' h, run_irq_op (OpCreateIrqFd devid) st = (st', Ok tt) ∧ st_irqfds st' = h :: st_irqfds st).
Proof.
  intros Hp Hr. pose proof (irq_runs_inv Hp _ _ _ Hr) as Hi.
  split; [intros o; by apply run_irq_op_inv|]. pose proof Hi as [Hn Hd Hg].
  split_and!; [done|done| |].
  { intros h Hh. apply Hg, Hd. by apply list_elem_of_fmap_2. }
  intros Hlen H0' Hlt [fd Hfd] devid. unfold run_irq_op, on_machine.
  destruct (create_irqfd_eq devid (st_vm st)) as [next E].
  destruct (sys_eventfd _) as [k' [fd'|]]; [|done]. destruct E as [(g & E & _)|[_ Hfull]].
  - rewrite E. by eexists _, _.
  - pose proof (gsis_full _ _ Hi (Hfull H0' Hlt)). lia.
Qed.

(** ** The ioeventfd registry *)

Section Registry.
Context {K : Type} `{KvmKernel K} `{!KvmIrq K} `{!KvmIrqLaws K}.

(** The ioeventfds of the kernel are the requests recorded, under their descriptors. *)
Definition registry_ok (v : VmInner K) : Prop :=
  (∀ fd r, vm_ioeventfds v !! fd = Some r → kio_fd r = fd ∧ io_deassign (kio_flags r) = false) ∧
  ∀ x, x ∈ kernel_ioeventfds (vm_kernel v) ↔ ∃ fd r, vm_ioeventfds v !! fd = Some r ∧ ioeventfd_key r = x.

Lemma key_fd r : fst (fst (fst (ioeventfd_key r))) = kio_fd r.
Proof. done. Qed.

Lemma deassign_request_key r : ioeventfd_key (deassign_request r) = ioeventfd_key r.
Proof.
  unfold ioeventfd_key, deassign_request. cbn [kio_fd kio_addr kio_len kio_flags kio_datamatch].
  rewrite Z.lor_spec. by rewrite orb_false_r.
Qed.

(** Registering a descriptor that is not registered adds its request;
    deregistering it removes just that. *)
Lemma ioeventfd_register_ok fd gpa len data v v' :
  registry_ok v → vm_ioeventfds v !! ioeventfd_fd fd = None →
  ioeventfd_register fd gpa len data v = (v', Ok tt) →
  registry_ok v' ∧
  vm_ioeventfds v' = <[ioeventfd_fd fd := ioeventfd_request fd gpa len data]> (vm_ioeventfds v).
Proof.
  intros [A B] Hn E. unfold ioeventfd_register in E. set (r := ioeventfd_request fd gpa len data) in *.
  assert (kio_fd r = ioeventfd_fd fd ∧ io_deassign (kio_flags r) = false) as [Hfd Hio] by (by destruct data).
  apply sbind_Ok_inv in E as (v1 & [] & Ek & E). injection E as <-.
  apply syscall_Ok in Ek as (k' & Ek & ->). pose proof (ioeventfd_law r (vm_kernel v)) as Hl.
  rewrite Ek, Hio in Hl. injection Hl as _ _ E3 _. rewrite Hfd. split; [|done]. split; simpl.
  - intros fd' r' [[<- <-]|[_ ?]]%lookup_insert_Some; [by split|by apply A].
  - intros x. rewrite E3, elem_of_union, elem_of_singleton, B. split.
    + intros [->|(fd' & r' & E' & <-)]; [by eexists _, r; rewrite lookup_insert_eq|].
      exists fd', r'. split; [|done]. rewrite lookup_insert_ne; [done|]. intros <-. congruence.
    + intros (fd' & r' & [[<- <-]|[_ E']]%lookup_insert_Some & <-); [by left|right; by exists fd', r'].
Qed.

Lemma ioeventfd_deregister_ok fd v v' :
  registry_ok v → ioeventfd_deregister fd v = (v', Ok tt) →
  registry_ok v' ∧ vm_ioeventfds v' = delete (ioeventfd_fd fd) (vm_ioeventfds v).
Proof.
  intros [A B] E. unfold ioeventfd_deregister in E. unfold sbind at 1, sget in E.
  destruct (vm_ioeventfds v !! ioeventfd_fd fd) as [r|] eqn:Er;
    [|injection E as <-; by rewrite delete_id].
  destruct (A _ _ Er) as [Hfd Hio]. unfold sbind, smodify in E.
  apply syscall_Ok in E as (k' & Ek & ->). simpl in Ek.
  pose proof (ioeventfd_law (deassign_request r) (vm_kernel v)) as Hl. rewrite Ek in Hl.
  rewrite deassign_request_key in Hl. replace (io_deassign _) with true in Hl.
  2: { unfold io_deassign, deassign_request. cbn [kio_flags]. rewrite Z.lor_spec. by rewrite orb_true_r. }
  injection Hl as _ _ E3 _. split; [|done]. split; simpl.
  - intros fd' r' [_ ?]%lookup_delete_Some. by apply A.
  - intros x. rewrite E3, elem_of_difference, elem_of_singleton, B. split.
    + intros [(fd' & r' & E' & <-) Hne]. exists fd', r'. split; [|done].
      rewrite lookup_delete_ne; [done|]. intros <-. congruence.
    + intros (fd' & r' & [Hne E']%lookup_delete_Some & <-). split; [by exists fd', r'|].
      intros Ekey. apply Hne. apply (f_equal (λ x, fst (fst (fst x)))) in Ekey. rewrite !key_fd in Ekey.
      destruct (A _ _ E'). congruence.
Qed.
End Registry.

(** ** Runs on the executable kernel *)

Module SimIrq.
#[local] Existing Instance kvm_x86_64.

Definition run_all (os : list irq_op) : IrqState SimKernel :=
  foldl (λ st o, fst (run_irq_op o st)) (irq_new sim_new None) os.

(** A vector programmed while masked, with a 15-bit destination id, then unmasked. *)
Definition vector : list irq_op :=
  [OpCreateIrqFd 0; OpSet 0 FieldAddrLo 0xfee01020; OpSet 0 FieldData 0x31; OpSetMasked 0 false].

Lemma pins_below : pins_below_msi.
Proof. by unfold pins_below_msi. Qed.

Lemma reach (os : list irq_op) st :
  irq_reachable sim_new None st → Forall irq_op_typed os →
  (∀ n o, os !! n = Some o → is_ok (snd (run_irq_op o (foldl (λ st o, fst (run_irq_op o st)) st (take n os)))) = true) →
  irq_reachable sim_new None (foldl (λ st o, fst (run_irq_op o st)) st os).
Proof.
  revert st. induction os as [|o os IH]; intros st Hr Ht Hok; [done|]. apply Forall_cons in Ht as [Ht Hts].
  simpl. apply IH; [|done|].
  - apply (irq_reach_op _ _ st o); [done..|]. specialize (Hok 0%nat o eq_refl). simpl in Hok.
    destruct (run_irq_op o st) as [st' [[]|e|]]; done.
  - intros n o' Ho. apply (Hok (S n) o' Ho).
Qed.

Lemma vector_reachable : irq_reachable sim_new None (run_all vector).
Proof.
  apply reach; [apply irq_reach_new|by repeat constructor|].
  intros n o. do 4 (destruct n as [|n]; [intros [= <-]; vm_compute; reflexivity|]). done.
Qed.

Lemma runs (os : list irq_op) st :
  irq_runs sim_new None st → irq_runs sim_new None (foldl (λ st o, fst (run_irq_op o st)) st os).
Proof. revert st. induction os as [|o os IH]; intros st Hr; [done|]. simpl. apply IH. by apply runs_op. Qed.

Definition vector_fd : Z := default 0 (irqfd_event_fd <$> head (st_irqfds (run_all vector))).

(** A vector unmasked before it was ever programmed, programmed, and masked while
    another one is set up: unmasking it again succeeds, and its descriptor is
    connected, but to no route. *)
Definition lost : list irq_op :=
  [OpCreateIrqFd 0; OpSetMasked 0 false; OpSet 0 FieldAddrLo 0xfee01000; OpSet 0 FieldData 0x31;
   OpSetMasked 0 true;
   OpCreateIrqFd 0; OpSet 0 FieldAddrLo 0xfee02000; OpSetMasked 0 false;
   OpSetMasked 1 false].

Lemma unmask_without_route :
  vm_msi_table (st_vm (run_all lost)) !! 24 = Some (mkMsiEntry 0xfee01000 0 0x31 false false 0) ∧
  (∃ fd, (fd, 24) ∈ sim_irqfds (vm_kernel (st_vm (run_all lost)))) ∧
  Forall (λ r, re_gsi r ≠ 24) (sim_routes (vm_kernel (st_vm (run_all lost)))).
Proof.
  split; [vm_compute; reflexivity|]. split.
  - exists (default 0 (irqfd_event_fd <$> (st_irqfds (run_all lost) !! 1%nat))).
    apply (bool_decide_unpack _). vm_compute. exact I.
  - apply (bool_decide_unpack _). vm_compute. exact I.
Qed.
End SimIrq.

Lemma irqfds_safe_witness :
  @pins_below_msi kvm_x86_64 ∧
  ∀ o, snd (@run_irq_op _ _ kvm_x86_64 _ o (SimIrq.run_all SimIrq.lost)) ≠ Panic.
Proof.
  split; [exact SimIrq.pins_below|].
  exact (proj1 (@irqfds_safe _ _ kvm_x86_64 _ _ sim_new None (SimIrq.run_all SimIrq.lost) SimIrq.pins_below
    (SimIrq.runs SimIrq.lost _ (@runs_new _ _ kvm_x86_64 _ sim_new None)))).
Defined.

Lemma irq_delivery_witness :
  mkIrqFd SimIrq.vector_fd 24 ∈ st_irqfds (SimIrq.run_all SimIrq.vector) ∧
  ∀ m, delivers (vm_kernel (st_vm (SimIrq.run_all SimIrq.vector))) SimIrq.vector_fd m ↔
    m = RoutingMsi (mkRoutingMsi 0xfee01000 0x100 0x31 0).
Proof.
  assert (kernel_irqfds sim_new = ∅) as He by done.
  assert (mkIrqFd SimIrq.vector_fd 24 ∈ st_irqfds (SimIrq.run_all SimIrq.vector)) as Hin.
  { apply (list_elem_of_lookup_2 _ 0). vm_compute. reflexivity. }
  split; [exact Hin|].
  destruct (@irq_delivery _ _ _ _ kvm_x86_64 _ _ sim_new None (SimIrq.run_all SimIrq.vector)
    SimIrq.pins_below He SimIrq.vector_reachable) as [H1 _].
  destruct (H1 _ Hin) as (e & E & _ & Hd).
  vm_compute in E. injection E as <-. exact (Hd eq_refl eq_refl).
Defined.

(** On aarch64 the pins reach 31 and the GSIs of the vectors start at 24: a pin and a
    vector can have the same GSI in one table. *)
Lemma arm_gsi_collision :
  (λ r, (re_gsi r, routing_type (re_routing r))) <$>
    @routing_entries kvm_aarch64 _ (2 ^ 24) {[24 := mkMsiEntry 0 0 0 false true 7]} =
  [(24, KVM_IRQ_ROUTING_IRQCHIP); (24, KVM_IRQ_ROUTING_MSI)].
Proof. vm_compute. reflexivity. Qed.
